(* ===== verification/_CoqProject ===== *)
-Q . S2P
Prelude.v
StdMap.v
Common.v
Base58.v
Crypto.v
KeyFormats.v
Config.v
ConfigFile.v
KBucket.v
KBucketTable.v
DHTService.v
KeyProvider.v
KeyRotation.v
Endpoint.v
Transport.v
Peers.v
ECDH.v
Overlay.v
NodeManager.v
APISocket.v
APISession.v
APINodes.v
Client.v
ClientNodes.v
System.v
Lifecycle.v
ServerRun.v
Discovery.v
LPDLoop.v
DaemonRun.v
