(* ===== verification/Prelude.v ===== *)
(** * p2pnet: a verification development

    ** The program

    p2pnet (sources under [src/src/]) is a peer-to-peer network layer in C++
    with three parts.  The daemon [p2pnetd] ([daemon/]) runs the network: UDP
    transport, an encrypted overlay with rotating keys, a Kademlia DHT, peer
    discovery, and a database of local nodes that clients create.  The client
    library ([library/], with the public header [p2pnet.h]) talks to the daemon
    over a Unix socket.  Both share [common/]: configuration, cryptographic
    types and text encodings, and the framing of API messages.  A request of a
    client goes [P2PNode] - [P2PSession::clientExchange] - [UnixAPISocket] -
    [UnixAPIServer] - [APISession] - [NodeManager] and back; a datagram goes
    [UDPInterface] - [UDPConnection] - [transport::Socket] -
    [overlay::Socket] - [overlay::Connection] - processors.

    ** Conventions

    A C++ function that can fail returns an [outcome]: a value, an exception
    ([Throw], with the category and code of [std::system_error]), undefined
    behaviour of a named kind ([Undef]: a null pointer, an end iterator, an
    object used after its deletion, an unset variable), [std::terminate], or
    [OutOfFuel].  A method of an object with state and output is a computation
    of the monad [M]: it takes the state and returns an outcome with the new
    state and the list of effects (datagrams, callbacks, replies, armed timers).
    Objects with identity (nodes, sessions, connections) live on heaps indexed
    by integers, so that sharing and lifetime are explicit.  Integers of a fixed
    width are [Z] with the wrap-around written out ([u16], [u32], [u64], [i16],
    [i32], and [+32], [*32]); bytes are [Byte.byte]; times are nanoseconds.
    Libraries (Botan, Boost.Asio, Boost.PropertyTree, protobuf) are type
    classes whose operations are parameters and whose laws are the documented
    behaviour the code relies on; each has a small concrete instance ([Toy],
    [ToyFormats], [ToyJSON], [ToyNet], [ToyDH], [ToyAPI], [ToyLPD],
    [ToyOverlay], [LifecycleDemo] and the tree of [Config.v]) that shows the
    laws can hold and on which the examples run.

    ** Files

    - [Prelude.v]: outcomes, the monad [M], machine integers, bytes and
      big-endian numbers, [std::remove_if] and [std::list::erase], labelled
      transition sequences ([star]), tactics and hint databases.
    - [StdMap.v]: [std::map] with integer keys as a sorted list with iterators.
    - [Common.v]: error codes ([p2pnet.h], [p2pnet.cpp]), version, singletons,
      text of log lines.
    - [Base58.v]: [common/crypto/base58.cpp].
    - [Crypto.v]: [MathString], [Hash], [AES], [PrivateKeyDSA],
      [PublicKeyDSA], Base16, Base64 and CRC32 of [common/crypto/].
    - [KeyFormats.v]: PEM and BER forms, raw signatures, encryption and moves
      of the keys.
    - [Config.v]: [ConfigManager] ([common/Config.cpp], [Config.h]);
      [ConfigFile.v]: its constructor and loading on a file system.
    - [KBucket.v]: the k-bucket tree ([daemon/dht/KBucket.cpp], [DHTNode.h]);
      [KBucketTable.v]: a routing table as a plain list of buckets, the
      reference the tree is compared with.
    - [DHTService.v]: searches and replies ([daemon/dht/DHTService.cpp]).
    - [KeyProvider.v]: key history and renewal
      ([daemon/overlay/KeyProvider.cpp]), a renewal as one step;
      [KeyRotation.v]: the generator thread statement by statement, with the
      timer, the posted handlers and the readers of the I/O thread.
    - [Endpoint.v]: endpoints and their text form ([daemon/transport/]).
    - [Transport.v]: transport socket, UDP interface and connections, their
      timers and handlers, with the io service as a source of events;
      [Peers.v]: several sockets on a network that loses, duplicates, delays
      and reorders datagrams.
    - [ECDH.v]: session keys ([common/crypto/ECDH.cpp]).
    - [Overlay.v]: overlay sockets and connections ([daemon/overlay/]).
    - [NodeManager.v]: local nodes and their database ([daemon/p2p/]).
    - [APISocket.v]: framing of API messages and the search for the socket path
      ([common/api/UnixAPISocket.cpp]).
    - [APISession.v]: the daemon's side of the API ([daemon/api/]);
      [APINodes.v]: the sessions' tables and the node database together, and
      every outcome of a request.
    - [Client.v]: the library ([library/]): module [Session] for
      [P2PSession], module [UnixDaemon] for the connection, and nodes, contexts
      and the C interface over the class [DaemonIO], which states what a node
      needs of its daemon and is implemented by [api_io], the real API session.
    - [ClientNodes.v]: the node objects of one program against the daemon, which
      serves other clients in between, and local objects as their specification.
    - [System.v]: a client's threads, the two byte streams, the daemon and its
      other clients as one transition system over the functions of
      [Client.v], [APISocket.v] and [APISession.v], with its specification.
    - [Lifecycle.v]: which object owns which in the API server, from accept to
      the destructors, and the thread of a client's session.
    - [ServerRun.v]: [APISession.v], [Lifecycle.v] and the outstanding receives
      as one transition system, and a session on the bytes of its client.
    - [Discovery.v]: bootstrap, local peer discovery and [Daemon::run];
      [LPDLoop.v]: the announcement and receive loops as the io service runs
      them.
    - [DaemonRun.v]: the running daemon: the handlers of transport, discovery,
      key rotation and API in any order on one state.

    ** What the theorems show

    - Encodings: keys survive all text forms, Base58 loses exactly leading
      zero bytes, endpoints and key information survive their wire forms, and
      the API byte stream delivers messages of up to [INT_MAX] bytes in order.
    - Data structures: the k-bucket tree keeps its shape and bounds, adding
      terminates and stores what it should, and every sequence of operations
      does what it does on a plain routing table ([kbucket_table_equiv]); hashes are
      totally ordered and [^] is a metric on hashes of one length when its loop
      starts at zero; the
      connections, the node database and the identifiers of API sessions
      satisfy their invariants in every reachable state.
    - Functional behaviour, branch by branch: datagrams, overlay messages,
      sending, binding and lookup of nodes, API requests with their replies,
      bootstrap lines, configuration lookup, key renewal.
    - Across components: a node created, used and destroyed by a client has the
      stated effect in the daemon's database; the node objects of a program
      refine local objects, whatever other clients do
      ([client_nodes_refine]); a generated key can be bound; in
      every interleaving of client threads a reply reaches the thread whose
      request it answers; and the whole of client, streams and daemon refines a
      specification in which an exchange is one atomic call
      ([system_linearizable]) and makes progress ([system_progress]).  In the
      server every identifier leads to a live node of its session, no request
      reaches a deleted object ([api_requests_safe], [server_run_safe]), and
      what the bytes of one client can do to the others is listed
      ([client_stream_ends]).
      Between peers, no connection is registered and no message delivered that
      the client of the other peer did not ask for ([peers_authentic]).
    - Threads and timers: the statements of the key generator interleaved with
      the I/O thread refine whole renewals, a current key exists at every
      moment, no key is dropped while it is valid ([rotation_keeps_keys]) and
      rotation goes on; announcements are paced, one at a time; a connected peer
      has one keep-alive wait ([transport_connections]), where the expiry of a
      timer and its handler are separate steps; the
      objects of the API server are deleted once each.
    - Bounds: the depth and the contents of the k-bucket tree, the length of
      the key history, the rate of announcements.
    - Where the code does not do what it means to, theorems state what it does:
      [getClosest_never], [searches_never_end], [closest_node_not_nearest],
      [outgoing_connect_never_completes], [transport_failures],
      [overlay_never_established], [overlay_routes_by_source],
      [bind_conflicts], [api_failures], [client_unexpected_replies],
      [client_blocks_on_unknown_node], [lpd_parses_previous],
      [daemon_stays_isolated], [discovered_peer_fatal], [dropped_nodes_leak],
      [keyprovider_history_overflow],
      [system_hangs_after_close], [rotation_signal_arguments],
      [keyprovider_delete_leaves_handler], [reconnect_never_receives],
      [disconnect_then_delete], [config_directory_separator].

    ** Fuel and bounds

    [encode_fuel] gives the Base58 loop one turn per bit, and [encode_spec]
    shows it is enough.  [addNode] recurses once per bucket level; [add_fuel] is
    the number of hash bits below the bucket, and [addNode_total] shows it is
    enough for every node whose hash leaves the own path.  [getClosest] and
    [getClosestTo] do not return for any fuel, which is what their theorems
    state.  [receive_all] reads one message per unit of fuel, and so does
    [session_loop]; a message takes at least four bytes, so a quarter of the
    input's length and one more is enough ([client_stream_ends]).  The reference
    [table_add] recurses once per division of the last bucket and needs no more
    fuel than [addNode].  All other functions are total without fuel.

    [System.v], [ClientNodes.v], [KeyRotation.v], [ServerRun.v], [Peers.v] and
    [DaemonRun.v] have no bound on their runs except, in [System.v], the tokens
    of a session: the theorems cover runs of at most [2^32] exchanges, after
    which tokens repeat ([client_unexpected_replies] says what happens then).

    ** Not modelled

    The log lines of the components (only the text they start with), Windows
    branches, socket options (their failures are answers of the operating
    system); the code protobuf generates and the message [OverlayNode], which
    nothing uses; data races on the memory of one object (threads interleave by
    whole statements or map operations).  In [DaemonRun.v] a key renewal is one
    step; its statements are interleaved in [KeyRotation.v].  Destructors with
    an empty body and functions that are declared without a definition have no
    model.  Integers read from the configuration as [int] are taken to be
    non-negative.  The system clock is taken never to be set back.  Memory is
    taken to be allocated, also the buffer of the size a client announces, and
    a blocking write to an API client to return, with success or an error.
    Messages of more than [INT_MAX] bytes are outside what protobuf documents;
    [api_stream_roundtrip] says what the code does with them up to the parser,
    and [System.v] covers messages that fit. *)

From Stdlib Require Import ZArith Lia.
From Stdlib.Strings Require Import Byte.
From Stdlib.Strings Require String.
From stdpp Require Export base tactics option list numbers gmap strings sorting.

(** ** Outcomes of C++ code *)

(** The [std::error_category] objects the program throws with. *)
Inductive category := P2PErrorCategory | generic_category.

(** Exceptions that leave a function of the program. *)
Inductive exn :=
| system_error (code : Z) (cat : category)
| int_exn (code : Z)
| botan_exception
| error_condition_exn (code : Z) (cat : category)
| bad_function_call
| future_error
| ptree_bad_path
| ptree_bad_data
| bad_lexical_cast
| asio_error (code : Z)
| file_parser_error
| filesystem_error.

(** The kinds of undefined behaviour the program can run into. *)
Inductive ub :=
| null_deref
| past_end
| out_of_bounds
| bad_iterator
| use_after_free
| dangling_ref
| empty_optional
| signed_overflow
| uninitialised
| no_return.

(** What a call does: return, throw, reach undefined behaviour, call
    [std::terminate], or not return within the fuel given to the model. *)
Inductive outcome (A : Type) : Type :=
| Ret (a : A)
| Throw (e : exn)
| Undef (u : ub)
| Terminate
| OutOfFuel.
Arguments Ret {A} a.
Arguments Throw {A} e.
Arguments Undef {A} u.
Arguments Terminate {A}.
Arguments OutOfFuel {A}.

#[global] Instance category_eq_dec : EqDecision category.
Proof. solve_decision. Defined.
#[global] Instance exn_eq_dec : EqDecision exn.
Proof. solve_decision. Defined.
#[global] Instance ub_eq_dec : EqDecision ub.
Proof. solve_decision. Defined.
#[global] Instance outcome_eq_dec `{EqDecision A} : EqDecision (outcome A).
Proof. solve_decision. Defined.

#[global] Instance outcome_ret : MRet outcome := @Ret.
#[global] Instance outcome_bind : MBind outcome := λ A B f m,
  match m with
  | Ret a => f a
  | Throw e => Throw e
  | Undef u => Undef u
  | Terminate => Terminate
  | OutOfFuel => OutOfFuel
  end.
#[global] Instance outcome_fmap : FMap outcome := λ A B f m, m ≫= λ a, Ret (f a).

(** [try m h]: [m] with the exceptions of a [catch] clause handled by [h];
    [h] returns [None] for an exception the clause does not catch. *)
Definition try_catch {A} (m : outcome A) (h : exn → option (outcome A)) : outcome A :=
  match m with
  | Throw e => match h e with Some r => r | None => Throw e end
  | _ => m
  end.

Definition returns {A} (m : outcome A) : Prop := ∃ a, m = Ret a.

Lemma bind_Ret {A B} (m : outcome A) (f : A → outcome B) (b : B) :
  m ≫= f = Ret b ↔ ∃ a, m = Ret a ∧ f a = Ret b.
Proof.
  split; [destruct m; simpl; try discriminate; eauto|].
  by intros (a & -> & H).
Qed.

Lemma bind_OutOfFuel {A B} (m : outcome A) (f : A → outcome B) :
  m ≠ OutOfFuel → (∀ a, f a ≠ OutOfFuel) → m ≫= f ≠ OutOfFuel.
Proof. destruct m; simpl; naive_solver. Qed.

Lemma returns_bind {A B} (m : outcome A) (f : A → outcome B) :
  returns m → (∀ a, m = Ret a → returns (f a)) → returns (m ≫= f).
Proof. intros [a ->] Hf. by apply Hf. Qed.

(** Loops [for x in l: body]: a left fold in the outcome monad. *)
Fixpoint foldM {A S} (f : S → A → outcome S) (s : S) (l : list A) : outcome S :=
  match l with
  | [] => Ret s
  | x :: l => s' ← f s x; foldM f s' l
  end.

Lemma foldM_inv {A S} (f : S → A → outcome S) (P : S → Prop) (Q : A → Prop) s l s' :
  (∀ s x s', P s → Q x → f s x = Ret s' → P s') →
  P s → Forall Q l → foldM f s l = Ret s' → P s'.
Proof.
  intros Hf. revert s. induction l as [|x l IH]; intros s Hs Hl H; simpl in H; simplify_eq; [done|].
  apply bind_Ret in H as (s1 & H1 & H2). inversion Hl; subst. eauto.
Qed.

Lemma foldM_returns {A S} (f : S → A → outcome S) (P : S → Prop) (Q : A → Prop) s l :
  (∀ s x, P s → Q x → ∃ s', f s x = Ret s' ∧ P s') →
  P s → Forall Q l → ∃ s', foldM f s l = Ret s' ∧ P s'.
Proof.
  intros Hf. revert s. induction l as [|x l IH]; intros s Hs Hl; simpl; [by eauto|].
  inversion Hl as [|?? Hx Hl']; subst. destruct (Hf s x Hs Hx) as (s1 & -> & Hs1). simpl. by apply IH.
Qed.

Lemma foldM_app {A S} (f : S → A → outcome S) s l1 l2 :
  foldM f s (l1 ++ l2) = s' ← foldM f s l1; foldM f s' l2.
Proof.
  revert s. induction l1 as [|x l1 IH]; intros s; simpl; [done|].
  destruct (f s x); simpl; auto.
Qed.

(** ** Methods: state, effects and outcomes

    A method of an object with state [S] that performs effects [E] (messages
    sent, callbacks called, timers armed) and returns an [A]. *)

Definition M (S E A : Type) : Type := S → outcome (A * S * list E).

Section M.
Context {S E : Type}.

#[global] Instance M_ret : MRet (M S E) := λ A a s, Ret (a, s, []).
#[global] Instance M_bind : MBind (M S E) := λ A B f m s,
  match m s with
  | Ret (a, s1, e1) =>
      match f a s1 with
      | Ret (b, s2, e2) => Ret (b, s2, e1 ++ e2)
      | Throw x => Throw x
      | Undef u => Undef u
      | Terminate => Terminate
      | OutOfFuel => OutOfFuel
      end
  | Throw x => Throw x
  | Undef u => Undef u
  | Terminate => Terminate
  | OutOfFuel => OutOfFuel
  end.

Definition get : M S E S := λ s, Ret (s, s, []).
Definition modify (f : S → S) : M S E unit := λ s, Ret (tt, f s, []).
Definition emit (e : E) : M S E unit := λ s, Ret (tt, s, [e]).
Definition lift {A} (o : outcome A) : M S E A := λ s, a ← o; Ret (a, s, []).
Definition skip : M S E unit := λ s, Ret (tt, s, []).

(** Loops over a list. *)
Fixpoint forM {A} (l : list A) (f : A → M S E unit) : M S E unit :=
  match l with
  | [] => skip
  | x :: l => f x;; forM l f
  end.

Lemma M_bind_Ret {A B} (m : M S E A) (f : A → M S E B) s b s' es :
  (m ≫= f) s = Ret (b, s', es) ↔
  ∃ a s1 e1 e2, m s = Ret (a, s1, e1) ∧ f a s1 = Ret (b, s', e2) ∧ es = e1 ++ e2.
Proof.
  unfold mbind, M_bind. split.
  - destruct (m s) as [[[a s1] e1]| | | |] eqn:Hm; try done.
    destruct (f a s1) as [[[b1 s2] e2]| | | |] eqn:Hf; try done.
    intros [= <- <- <-]. by exists a, s1, e1, e2.
  - intros (a & s1 & e1 & e2 & -> & -> & ->). done.
Qed.

(** Equations that run a method step by step. *)
Definition after {A} (es : list E) (r : outcome (A * S * list E)) : outcome (A * S * list E) :=
  match r with
  | Ret (a, s, es') => Ret (a, s, es ++ es')
  | _ => r
  end.

Lemma run_bind {A B} (m : M S E A) (f : A → M S E B) s a s1 e1 :
  m s = Ret (a, s1, e1) → (m ≫= f) s = after e1 (f a s1).
Proof. intros H. unfold mbind, M_bind, after. rewrite H. by destruct (f a s1) as [[[b s2] e2]| | | |]. Qed.
Lemma run_assoc {A B C} (m : M S E A) (f : A → M S E B) (g : B → M S E C) s :
  ((m ≫= f) ≫= g) s = (m ≫= λ a, f a ≫= g) s.
Proof.
  unfold mbind, M_bind. destruct (m s) as [[[a s1] e1]| | | |]; try done.
  destruct (f a s1) as [[[b s2] e2]| | | |]; try done.
  destruct (g b s2) as [[[c s3] e3]| | | |]; try done. by rewrite app_assoc.
Qed.
Lemma after_nil {A} (r : outcome (A * S * list E)) : after [] r = r.
Proof. by destruct r as [[[a s] es]| | | |]. Qed.
Lemma run_ret {A B} (a : A) (f : A → M S E B) s : (mret a ≫= f) s = f a s.
Proof. erewrite run_bind by done. apply after_nil. Qed.
Lemma run_get {B} (f : S → M S E B) s : (get ≫= f) s = f s s.
Proof. erewrite run_bind by done. apply after_nil. Qed.
Lemma run_modify {B} g (f : unit → M S E B) s : (modify g ≫= f) s = f tt (g s).
Proof. erewrite run_bind by done. apply after_nil. Qed.
Lemma run_skip {B} (f : unit → M S E B) s : (skip ≫= f) s = f tt s.
Proof. erewrite run_bind by done. apply after_nil. Qed.
Lemma run_emit {B} e (f : unit → M S E B) s : (emit e ≫= f) s = after [e] (f tt s).
Proof. by erewrite run_bind by done. Qed.
Lemma run_lift {A B} (a : A) (f : A → M S E B) s : (lift (Ret a) ≫= f) s = f a s.
Proof. erewrite run_bind by done. apply after_nil. Qed.

(** [m] keeps the invariant [I] whenever it returns. *)
Definition preserves {A} (I : S → Prop) (m : M S E A) : Prop :=
  ∀ s a s' es, I s → m s = Ret (a, s', es) → I s'.

Lemma preserves_bind {A B} I (m : M S E A) (f : A → M S E B) :
  preserves I m → (∀ a, preserves I (f a)) → preserves I (m ≫= f).
Proof. intros Hm Hf s b s' es HI (a & s1 & e1 & e2 & H1 & H2 & _)%M_bind_Ret. by eapply Hf; [eapply Hm|]. Qed.
Lemma preserves_ret {A} I (a : A) : preserves I (mret a).
Proof. intros s x s' es HI [= <- <- <-]. done. Qed.
Lemma preserves_get I : preserves I get.
Proof. intros s x s' es HI [= <- <- <-]. done. Qed.
Lemma preserves_skip I : preserves I skip.
Proof. intros s x s' es HI [= <- <- <-]. done. Qed.
Lemma preserves_emit I e : preserves I (emit e).
Proof. intros s x s' es HI [= <- <- <-]. done. Qed.
Lemma preserves_lift {A} I (o : outcome A) : preserves I (lift o).
Proof.
  intros s x s' es HI H. unfold lift in H. apply bind_Ret in H as (a & _ & [= <- <- <-]). done.
Qed.
Lemma preserves_modify (I : S → Prop) f : (∀ s, I s → I (f s)) → preserves I (modify f).
Proof. intros Hf s x s' es HI [= <- <- <-]. auto. Qed.
Lemma preserves_forM {A} I (l : list A) f : (∀ x, preserves I (f x)) → preserves I (forM l f).
Proof.
  intros Hf. induction l as [|x l IH]; simpl; [apply preserves_skip|]. by apply preserves_bind.
Qed.
End M.

(** ** Machine integers *)

Declare Scope word_scope.
Delimit Scope word_scope with word.

Definition u16 (z : Z) : Z := z mod 2 ^ 16.
Definition u32 (z : Z) : Z := z mod 2 ^ 32.
Definition u64 (z : Z) : Z := z mod 2 ^ 64.
Definition i16 (z : Z) : Z := (z + 2 ^ 15) mod 2 ^ 16 - 2 ^ 15.
Definition i32 (z : Z) : Z := (z + 2 ^ 31) mod 2 ^ 32 - 2 ^ 31.
Definition INT_MAX : Z := 2 ^ 31 - 1.
(** [std::string::npos] for a 64-bit [size_t]. *)
Definition npos : Z := 2 ^ 64 - 1.

Notation "x +32 y" := (u32 (x + y)) (at level 50, left associativity) : word_scope.
Notation "x *32 y" := (u32 (x * y)) (at level 40, left associativity) : word_scope.

Definition in_u32 (z : Z) : Prop := (0 ≤ z < 2 ^ 32)%Z.

Lemma u32_range z : in_u32 (u32 z).
Proof. unfold in_u32, u32. apply Z.mod_pos_bound. lia. Qed.
Lemma u32_small z : in_u32 z → u32 z = z.
Proof. unfold in_u32, u32. apply Z.mod_small. Qed.
Lemma i32_small z : (- 2 ^ 31 ≤ z < 2 ^ 31)%Z → i32 z = z.
Proof. intros. unfold i32. rewrite Z.mod_small; lia. Qed.
Lemma i16_small z : (- 2 ^ 15 ≤ z < 2 ^ 15)%Z → i16 z = z.
Proof. intros. unfold i16. rewrite Z.mod_small; lia. Qed.

(** ** Bytes *)

Abbreviation byte := Byte.byte.
Abbreviation bytes := (list Byte.byte).

#[global] Instance byte_eq_dec : EqDecision byte := Byte.byte_eq_dec.
#[global] Program Instance byte_countable : Countable byte :=
  inj_countable Byte.to_N Byte.of_N _.
Next Obligation. intros x. apply Byte.of_to_N. Qed.

Definition byte_val (b : byte) : Z := Z.of_N (Byte.to_N b).
Definition byte_of (z : Z) : byte :=
  match Byte.of_N (Z.to_N (z mod 256)) with Some b => b | None => x00 end.

(** A C string literal as the bytes of a [std::string]. *)
Definition cstr (s : string) : bytes := String.list_byte_of_string s.

Lemma byte_val_range b : (0 ≤ byte_val b < 256)%Z.
Proof. unfold byte_val. pose proof (Byte.to_N_bounded b). lia. Qed.

Lemma byte_val_of z : byte_val (byte_of z) = (z mod 256)%Z.
Proof.
  unfold byte_of, byte_val. pose proof (Z.mod_pos_bound z 256 ltac:(lia)).
  destruct (Byte.of_N _) as [b|] eqn:E.
  - apply Byte.to_of_N in E. rewrite E. lia.
  - apply Byte.of_N_None_iff in E. lia.
Qed.

Lemma byte_of_val b : byte_of (byte_val b) = b.
Proof.
  unfold byte_of, byte_val. rewrite Z.mod_small by (pose proof (byte_val_range b); unfold byte_val in *; lia).
  by rewrite N2Z.id, Byte.of_to_N.
Qed.

#[global] Instance byte_val_inj : Inj (=) (=) byte_val.
Proof. intros x y H. by rewrite <-(byte_of_val x), H, byte_of_val. Qed.

Definition byte_xor (x y : byte) : byte := byte_of (Z.lxor (byte_val x) (byte_val y)).

Lemma byte_lxor_range x y : (0 ≤ Z.lxor (byte_val x) (byte_val y) < 256)%Z.
Proof.
  pose proof (byte_val_range x). pose proof (byte_val_range y).
  assert (0 ≤ Z.lxor (byte_val x) (byte_val y))%Z by (apply Z.lxor_nonneg; lia).
  split; [done|].
  destruct (decide (Z.lxor (byte_val x) (byte_val y) = 0)%Z) as [->|Hn]; [lia|].
  apply (Z.log2_lt_pow2 _ 8); [lia|].
  pose proof (Z.log2_lxor (byte_val x) (byte_val y) ltac:(lia) ltac:(lia)).
  assert (∀ b, Z.log2 (byte_val b) < 8)%Z.
  { intros b. pose proof (byte_val_range b).
    destruct (decide (byte_val b = 0)%Z) as [->|]; [done|]. apply Z.log2_lt_pow2; lia. }
  pose proof (H3 x). pose proof (H3 y). lia.
Qed.

Lemma byte_val_xor x y : byte_val (byte_xor x y) = Z.lxor (byte_val x) (byte_val y).
Proof. unfold byte_xor. rewrite byte_val_of. apply Z.mod_small, byte_lxor_range. Qed.

Lemma byte_xor_comm x y : byte_xor x y = byte_xor y x.
Proof. apply (inj byte_val). by rewrite !byte_val_xor, Z.lxor_comm. Qed.
Lemma byte_xor_nilpotent x : byte_xor x x = x00.
Proof. apply (inj byte_val). by rewrite byte_val_xor, Z.lxor_nilpotent. Qed.
Lemma byte_xor_cancel x y : byte_xor x (byte_xor x y) = y.
Proof. apply (inj byte_val). by rewrite !byte_val_xor, <-Z.lxor_assoc, Z.lxor_nilpotent, Z.lxor_0_l. Qed.

(** ** Big-endian numbers *)

Definition be_val (bs : bytes) : Z := foldl (λ acc b, acc * 256 + byte_val b)%Z 0%Z bs.

Fixpoint be_bytes (n : nat) (z : Z) : bytes :=
  match n with
  | O => []
  | S n => be_bytes n (z / 256) ++ [byte_of z]
  end.

(** Drop the leading zero bytes. *)
Fixpoint strip_zeros (bs : bytes) : bytes :=
  match bs with
  | x00 :: bs => strip_zeros bs
  | _ => bs
  end.

Lemma be_val_snoc bs b : be_val (bs ++ [b]) = (be_val bs * 256 + byte_val b)%Z.
Proof. unfold be_val. by rewrite foldl_app. Qed.

Lemma be_val_nonneg bs : (0 ≤ be_val bs)%Z.
Proof.
  induction bs as [|b bs IH] using rev_ind; [done|].
  rewrite be_val_snoc. pose proof (byte_val_range b). lia.
Qed.

Lemma be_val_bound bs : (be_val bs < 256 ^ Z.of_nat (length bs))%Z.
Proof.
  induction bs as [|b bs IH] using rev_ind; [done|].
  rewrite be_val_snoc, length_app, Nat2Z.inj_add, Z.pow_add_r by lia.
  pose proof (byte_val_range b). cbn [length Z.of_nat Pos.of_succ_nat]. lia.
Qed.

Lemma length_be_bytes n z : length (be_bytes n z) = n.
Proof. revert z. induction n; intros; simpl; [done|]. rewrite length_app, IHn. simpl. lia. Qed.

Lemma be_val_be_bytes n z : be_val (be_bytes n z) = (z mod 256 ^ Z.of_nat n)%Z.
Proof.
  revert z. induction n as [|n IH]; intros z; simpl be_bytes.
  - by rewrite Z.mod_1_r.
  - rewrite be_val_snoc, IH, byte_val_of, Nat2Z.inj_succ, Z.pow_succ_r by lia.
    rewrite Z.rem_mul_r by lia. lia.
Qed.

Lemma be_bytes_be_val bs : be_bytes (length bs) (be_val bs) = bs.
Proof.
  induction bs as [|b bs IH] using rev_ind; [done|].
  rewrite length_app, Nat.add_comm. simpl. rewrite be_val_snoc.
  pose proof (byte_val_range b).
  rewrite Z.div_add_l, Z.div_small, Z.add_0_r, IH by lia. f_equal. f_equal.
  apply (inj byte_val). rewrite byte_val_of, Z.add_comm, Z.mod_add, Z.mod_small; lia.
Qed.

Lemma be_val_inj bs1 bs2 : length bs1 = length bs2 → be_val bs1 = be_val bs2 → bs1 = bs2.
Proof. intros Hl Hv. rewrite <-(be_bytes_be_val bs1), Hl, Hv. apply be_bytes_be_val. Qed.

Lemma be_val_cons b bs : be_val (b :: bs) = (byte_val b * 256 ^ Z.of_nat (length bs) + be_val bs)%Z.
Proof.
  induction bs as [|c bs IH] using rev_ind; [cbn; lia|].
  rewrite app_comm_cons, !be_val_snoc, IH, length_app, Nat2Z.inj_add, Z.pow_add_r by lia.
  cbn [length Z.of_nat Pos.of_succ_nat]. lia.
Qed.

Lemma be_val_zeros n bs : be_val (replicate n x00 ++ bs) = be_val bs.
Proof. induction n as [|n IH]; [done|]. simpl. rewrite be_val_cons, IH. change (byte_val x00) with 0%Z. lia. Qed.

Lemma be_val_strip bs : be_val (strip_zeros bs) = be_val bs.
Proof.
  induction bs as [|b bs IH]; [done|].
  by destruct b.
Qed.

Lemma strip_zeros_head bs : head (strip_zeros bs) ≠ Some x00.
Proof. induction bs as [|b bs IH]; [done|]. by destruct b. Qed.

Lemma strip_zeros_id bs : head bs ≠ Some x00 → strip_zeros bs = bs.
Proof. destruct bs as [|b bs]; [done|]. by destruct b. Qed.

Lemma be_val_ge_head b bs : b ≠ x00 → (256 ^ Z.of_nat (length bs) ≤ be_val (b :: bs))%Z.
Proof.
  intros Hb. rewrite be_val_cons. pose proof (be_val_nonneg bs). pose proof (byte_val_range b).
  assert (byte_val b ≠ 0)%Z by (intros E; apply Hb, (inj byte_val); by rewrite E).
  assert (0 < 256 ^ Z.of_nat (length bs))%Z by (apply Z.pow_pos_nonneg; lia). nia.
Qed.

(** Two representations without leading zeros of one number are equal. *)
Lemma be_val_canonical bs1 bs2 :
  head bs1 ≠ Some x00 → head bs2 ≠ Some x00 → be_val bs1 = be_val bs2 → bs1 = bs2.
Proof.
  intros H1 H2 Hv. apply be_val_inj; [|done].
  assert (∀ c l, head c ≠ Some x00 → head l ≠ Some x00 → be_val c = be_val l → length c ≤ length l) as Hle.
  { intros [|b c] l Hc Hl E; [simpl; lia|].
    assert (b ≠ x00) as Hb by (intros ->; done).
    pose proof (be_val_ge_head b c Hb). pose proof (be_val_bound l).
    assert (256 ^ Z.of_nat (length c) < 256 ^ Z.of_nat (length l))%Z as Hp by lia.
    apply Z.pow_lt_mono_r_iff in Hp; simpl; lia. }
  pose proof (Hle bs1 bs2 H1 H2 Hv). pose proof (Hle bs2 bs1 H2 H1 (eq_sym Hv)). lia.
Qed.

(** ** Lists *)

(** [std::remove_if] on a container of raw pointers, without the [erase] that
    usually follows: the kept elements move to the front, and the positions
    after them keep the pointers they held. *)
Definition remove_if {A} (p : A → bool) (l : list A) : list A :=
  let kept := filter (λ x, p x = false) l in
  kept ++ drop (length kept) l.

Lemma length_remove_if {A} (p : A → bool) l : length (remove_if p l) = length l.
Proof.
  unfold remove_if. rewrite length_app, length_drop.
  pose proof (length_filter (λ x, p x = false) l). lia.
Qed.

Lemma elem_of_remove_if {A} (p : A → bool) l x : x ∈ remove_if p l → x ∈ l.
Proof.
  unfold remove_if. rewrite elem_of_app, list_elem_of_filter. intros [[_ H]|H]; [done|].
  apply (subseteq_drop (length (filter (λ x, p x = false) l)) l x H).
Qed.

Lemma filter_all {A} (P : A → Prop) `{∀ x, Decision (P x)} l : Forall P l → filter P l = l.
Proof. induction 1; [done|]. rewrite filter_cons_True by done. by f_equal. Qed.

Lemma remove_if_none {A} (p : A → bool) l : Forall (λ x, p x = false) l → remove_if p l = l.
Proof. intros H. unfold remove_if. rewrite (filter_all _ _ H), drop_all, app_nil_r. done. Qed.

(** [std::find] followed by [erase]: remove the first occurrence. *)
Fixpoint erase_first {A} `{EqDecision A} (x : A) (l : list A) : list A :=
  match l with
  | [] => []
  | y :: l => if decide (y = x) then l else y :: erase_first x l
  end.

Lemma erase_first_perm {A} `{EqDecision A} (x : A) l : x ∈ l → l ≡ₚ x :: erase_first x l.
Proof.
  induction l as [|y l IH]; intros Hx; [by apply elem_of_nil in Hx|]. simpl.
  case_decide as Hy; [by subst|].
  apply elem_of_cons in Hx as [->|Hx]; [done|]. rewrite (IH Hx) at 1. by constructor.
Qed.

Lemma erase_first_notin {A} `{EqDecision A} (x : A) l : x ∉ l → erase_first x l = l.
Proof.
  induction l as [|y l IH]; intros Hx; [done|]. simpl. apply not_elem_of_cons in Hx as [Hy Hx].
  rewrite decide_False by done. by rewrite IH.
Qed.

Lemma elem_of_erase_first {A} `{EqDecision A} (x y : A) l : y ∈ erase_first x l → y ∈ l.
Proof.
  induction l as [|z l IH]; simpl; [done|]. case_decide; rewrite ?elem_of_cons; naive_solver.
Qed.

(** ** Transition sequences *)

Inductive star {S L : Type} (R : S → L → S → Prop) : S → list L → S → Prop :=
| star_nil s : star R s [] s
| star_cons s1 s2 s3 l ls : R s1 l s2 → star R s2 ls s3 → star R s1 (l :: ls) s3.

Lemma star_invariant {S L} (R : S → L → S → Prop) (I : S → Prop) s ls s' :
  (∀ s l s', I s → R s l s' → I s') → I s → star R s ls s' → I s'.
Proof. intros HI Hs Hstar. induction Hstar; eauto. Qed.

Lemma star_app {S L} (R : S → L → S → Prop) s ls1 ls2 s' :
  star R s (ls1 ++ ls2) s' → ∃ s1, star R s ls1 s1 ∧ star R s1 ls2 s'.
Proof.
  revert s. induction ls1 as [|l ls1 IH]; intros s H; [exists s; split; [constructor|done]|].
  inversion H as [|? s2 ? ? ? H1 H2]; subst. destruct (IH _ H2) as (s3 & ? & ?). exists s3. split; [|done].
  by econstructor.
Qed.
Lemma star_trans {S L} (R : S → L → S → Prop) s1 ls1 s2 ls2 s3 :
  star R s1 ls1 s2 → star R s2 ls2 s3 → star R s1 (ls1 ++ ls2) s3.
Proof. intros H1 H2. induction H1; [done|]. simpl. econstructor; eauto. Qed.
Lemma star_one {S L} (R : S → L → S → Prop) s l s' : R s l s' → star R s [l] s'.
Proof. intros H. econstructor; [done|constructor]. Qed.

(** ** Automation *)

Create HintDb p2p discriminated.
Create Rewrite HintDb p2p_rw.
#[export] Hint Resolve u32_range be_val_nonneg be_val_bound byte_val_range
  star_nil star_cons strip_zeros_head : p2p.
#[export] Hint Resolve preserves_bind preserves_ret preserves_get preserves_skip preserves_emit
  preserves_lift preserves_modify preserves_forM : p2p.
#[export] Hint Rewrite @length_remove_if length_be_bytes be_val_snoc be_val_strip
  byte_val_of byte_of_val byte_val_xor : p2p_rw.

(** Run a method whose steps have known results. *)
Ltac run_step :=
  first
  [ rewrite run_assoc | rewrite run_get | rewrite run_modify | rewrite run_skip
  | rewrite run_emit | rewrite run_lift | rewrite run_ret | rewrite after_nil ].
Ltac run := repeat run_step.

(** Split a successful monadic computation into its steps. *)
Ltac inv_ret :=
  repeat match goal with
  | H : mbind _ _ = Ret _ |- _ =>
      let a := fresh "r" in let Ha := fresh "Hr" in
      apply bind_Ret in H as (a & Ha & H)
  | H : Ret _ = Ret _ |- _ => injection H as H
  | H : Undef _ = Ret _ |- _ => discriminate H
  | H : Throw _ = Ret _ |- _ => discriminate H
  | H : Terminate = Ret _ |- _ => discriminate H
  | H : OutOfFuel = Ret _ |- _ => discriminate H
  end.
