(* ===== verification/StdMap.v ===== *)
(** * [std::map] with integer keys

    The program keeps several [std::map<uint32_t, T>] and maps keyed by raw
    pointers, and in one place ([APISession::NodeRegister]) walks the map with
    an iterator.  Here a map is the list of its entries in the order of the
    iteration, with [insert] that, like [std::map::insert], leaves an existing
    entry alone, [assign] ([m[k] = v]), [erase] and [find]. *)

From S2P Require Import Prelude.
From Stdlib Require Import ZArith Lia.

Section StdMap.
Context {V : Type}.
Implicit Types (m : list (Z * V)) (k : Z) (v : V).

Fixpoint sm_find k m : option V :=
  match m with
  | [] => None
  | (k', v) :: m => if decide (k = k') then Some v else sm_find k m
  end.

Fixpoint sm_insert k v m : list (Z * V) :=
  match m with
  | [] => [(k, v)]
  | (k', v') :: m' =>
      if decide (k < k')%Z then (k, v) :: m
      else if decide (k = k') then m
      else (k', v') :: sm_insert k v m'
  end.

Fixpoint sm_assign k v m : list (Z * V) :=
  match m with
  | [] => [(k, v)]
  | (k', v') :: m' =>
      if decide (k < k')%Z then (k, v) :: m
      else if decide (k = k') then (k, v) :: m'
      else (k', v') :: sm_assign k v m'
  end.

Fixpoint sm_erase k m : list (Z * V) :=
  match m with
  | [] => []
  | (k', v') :: m' => if decide (k = k') then m' else (k', v') :: sm_erase k m'
  end.

(** The entries from [++it] to [end()], where [it] is at key [k]. *)
Fixpoint sm_after k m : list (Z * V) :=
  match m with
  | [] => []
  | (k', _) :: m' => if decide (k' ≤ k)%Z then sm_after k m' else m
  end.

Definition sm_sorted m : Prop := StronglySorted Z.lt m.*1.

Lemma sm_find_Some_key k v m : sm_find k m = Some v → k ∈ m.*1.
Proof.
  induction m as [|[k' v'] m IH]; simpl; [done|].
  case_decide; subst; rewrite elem_of_cons; naive_solver.
Qed.

Lemma sm_find_None k m : sm_find k m = None ↔ k ∉ m.*1.
Proof.
  induction m as [|[k' v'] m IH]; simpl; [set_solver|].
  case_decide; rewrite not_elem_of_cons; naive_solver.
Qed.

Lemma sm_find_is_Some k m : is_Some (sm_find k m) ↔ k ∈ m.*1.
Proof.
  destruct (sm_find k m) as [v|] eqn:E.
  - split; [|by eauto]. intros _. by eapply sm_find_Some_key.
  - apply sm_find_None in E. split; [by intros []|done].
Qed.

Lemma sm_insert_keys k v m k' : k' ∈ (sm_insert k v m).*1 ↔ k' = k ∨ k' ∈ m.*1.
Proof.
  induction m as [|[k1 v1] m IH]; simpl; [set_solver|].
  repeat case_decide; simpl; rewrite ?elem_of_cons; set_solver.
Qed.

Lemma sm_assign_keys k v m k' : k' ∈ (sm_assign k v m).*1 ↔ k' = k ∨ k' ∈ m.*1.
Proof.
  induction m as [|[k1 v1] m IH]; simpl; [set_solver|].
  repeat case_decide; simpl; rewrite ?elem_of_cons; set_solver.
Qed.

Lemma sm_sorted_cons k v m :
  sm_sorted ((k, v) :: m) ↔ sm_sorted m ∧ ∀ k', k' ∈ m.*1 → (k < k')%Z.
Proof.
  unfold sm_sorted. simpl. split.
  - intros H. inversion H; subst. split; [done|]. by apply Forall_forall.
  - intros [H1 H2]. constructor; [done|]. by apply Forall_forall.
Qed.

Lemma sm_insert_sorted k v m : sm_sorted m → sm_sorted (sm_insert k v m).
Proof.
  induction m as [|[k1 v1] m IH]; intros Hs; simpl; [apply sm_sorted_cons; set_solver|].
  pose proof Hs as Hs'. apply sm_sorted_cons in Hs as [Hs Hlt]. repeat case_decide.
  - apply sm_sorted_cons. split; [done|]. simpl. intros k'. rewrite elem_of_cons.
    intros [->|Hk]; [done|]. specialize (Hlt _ Hk). lia.
  - done.
  - apply sm_sorted_cons. split; [by auto|]. intros k'. rewrite sm_insert_keys.
    intros [->|]; [lia|auto].
Qed.

Lemma sm_assign_sorted k v m : sm_sorted m → sm_sorted (sm_assign k v m).
Proof.
  induction m as [|[k1 v1] m IH]; intros Hs; simpl; [apply sm_sorted_cons; set_solver|].
  pose proof Hs as Hs'. apply sm_sorted_cons in Hs as [Hs Hlt]. repeat case_decide.
  - apply sm_sorted_cons. split; [done|]. simpl. intros k'. rewrite elem_of_cons.
    intros [->|Hk]; [done|]. specialize (Hlt _ Hk). lia.
  - subst. by apply sm_sorted_cons.
  - apply sm_sorted_cons. split; [by auto|]. intros k'. rewrite sm_assign_keys.
    intros [->|]; [lia|auto].
Qed.

Lemma sm_erase_subset k m k' : k' ∈ (sm_erase k m).*1 → k' ∈ m.*1.
Proof.
  induction m as [|[k1 v1] m IH]; simpl; [done|].
  case_decide; simpl; rewrite ?elem_of_cons; naive_solver.
Qed.

Lemma sm_erase_sorted k m : sm_sorted m → sm_sorted (sm_erase k m).
Proof.
  induction m as [|[k1 v1] m IH]; intros Hs; simpl; [done|].
  apply sm_sorted_cons in Hs as [Hs Hlt]. case_decide; [done|].
  apply sm_sorted_cons. split; [by auto|]. eauto using sm_erase_subset.
Qed.

Lemma sm_erase_keys k m k' :
  sm_sorted m → k' ∈ (sm_erase k m).*1 ↔ k' ≠ k ∧ k' ∈ m.*1.
Proof.
  induction m as [|[k1 v1] m IH]; intros Hs; simpl; [set_solver|].
  apply sm_sorted_cons in Hs as [Hs Hlt]. case_decide; subst.
  - rewrite elem_of_cons. split; [|naive_solver]. intros H. specialize (Hlt _ H). split; [lia|auto].
  - simpl. rewrite !elem_of_cons, IH by done. naive_solver.
Qed.

Lemma sm_find_insert k v m : sm_find k m = None → sm_find k (sm_insert k v m) = Some v.
Proof.
  induction m as [|[k1 v1] m IH]; simpl; intros H; [by case_decide|].
  destruct (decide (k = k1)) as [|Hne]; [done|].
  destruct (decide (k < k1)%Z); simpl; case_decide; auto; done.
Qed.

Lemma sm_find_insert_taken k v v' m :
  sm_sorted m → sm_find k m = Some v' → sm_insert k v m = m.
Proof.
  induction m as [|[k1 v1] m IH]; intros Hs H; simpl in *; [done|].
  apply sm_sorted_cons in Hs as [Hs Hlt].
  destruct (decide (k = k1)) as [->|Hne]; [by case_decide; [lia|]|].
  assert (k1 < k)%Z by eauto using sm_find_Some_key.
  case_decide; [lia|]. by rewrite IH.
Qed.

Lemma sm_find_insert_ne k k' v m : k' ≠ k → sm_find k' (sm_insert k v m) = sm_find k' m.
Proof.
  intros Hne. induction m as [|[k1 v1] m IH]; simpl; [by case_decide|].
  repeat (case_decide; simpl); congruence.
Qed.

Lemma sm_find_assign k v m : sm_sorted m → sm_find k (sm_assign k v m) = Some v.
Proof.
  induction m as [|[k1 v1] m IH]; simpl; intros H; [by case_decide|].
  apply sm_sorted_cons in H as [Hs Hlt].
  repeat (case_decide; simpl); auto; done.
Qed.

Lemma sm_find_assign_ne k k' v m : k' ≠ k → sm_find k' (sm_assign k v m) = sm_find k' m.
Proof.
  intros Hne. induction m as [|[k1 v1] m IH]; simpl; [by case_decide|].
  repeat (case_decide; simpl); congruence.
Qed.

Lemma sm_find_erase k m : sm_sorted m → sm_find k (sm_erase k m) = None.
Proof. intros Hs. apply sm_find_None. rewrite sm_erase_keys by done. naive_solver. Qed.

Lemma sm_find_erase_ne k k' m : k' ≠ k → sm_find k' (sm_erase k m) = sm_find k' m.
Proof.
  intros Hne. induction m as [|[k1 v1] m IH]; simpl; [done|].
  repeat case_decide; simpl; subst; repeat case_decide; congruence.
Qed.

Lemma sm_erase_notin k m : sm_find k m = None → sm_erase k m = m.
Proof.
  induction m as [|[k1 v1] m IH]; simpl; [done|].
  case_decide; [done|]. intros. by rewrite IH.
Qed.

Lemma sm_after_sorted k m : sm_sorted m → sm_sorted (sm_after k m).
Proof.
  induction m as [|[k1 v1] m IH]; intros Hs; simpl; [done|].
  pose proof Hs as Hs'. apply sm_sorted_cons in Hs as [Hs Hlt]. case_decide; auto.
Qed.

Lemma sm_after_keys k m k' : sm_sorted m → k' ∈ (sm_after k m).*1 ↔ k' ∈ m.*1 ∧ (k < k')%Z.
Proof.
  induction m as [|[k1 v1] m IH]; intros Hs; simpl; [set_solver|].
  pose proof Hs as Hs'. apply sm_sorted_cons in Hs as [Hs Hlt]. case_decide.
  - rewrite IH, elem_of_cons by done. split; [naive_solver|]. intros [[->|?] ?]; [lia|done].
  - simpl. rewrite !elem_of_cons. split; [|naive_solver].
    intros [->|Hk]; [split; [by left|lia]|]. specialize (Hlt _ Hk). split; [by right|lia].
Qed.
End StdMap.

#[export] Hint Resolve sm_insert_sorted sm_assign_sorted sm_erase_sorted sm_after_sorted : p2p.
