(* ===== verification/Common.v ===== *)
(** * Common parts: error codes, version string, singletons, log lines

    Models [src/src/p2pnet.h] and [p2pnet.cpp] (error enumeration and
    category), [common/Version.h] and [version.h], [common/Singleton.h] and
    the text of [common/Loggable.cpp]. *)

From S2P Require Import Prelude.
From Stdlib Require Import ZArith Lia.
From Stdlib Require DecimalString DecimalN.

(** ** Decimal output of unsigned integers ([operator<<] of [std::ostream]) *)

Definition print_dec (n : N) : string := DecimalString.NilZero.string_of_uint (N.to_uint n).
Definition read_dec (s : string) : option N := N.of_uint <$> DecimalString.NilZero.uint_of_string s.

Lemma read_print_dec n : read_dec (print_dec n) = Some n.
Proof.
  unfold read_dec, print_dec. rewrite DecimalString.NilZero.usu.
  - simpl. f_equal. apply DecimalN.Unsigned.of_to.
  - destruct n as [|p]; [done|]. simpl. intros E.
    pose proof (DecimalN.Unsigned.of_to (Npos p)) as H. simpl in H. by rewrite E in H.
Qed.

#[global] Instance print_dec_inj : Inj (=) (=) print_dec.
Proof. intros x y H. apply (f_equal read_dec) in H. rewrite !read_print_dec in H. by simplify_eq. Qed.

(** ** Errors *)

Module Errors.

Inductive P2PError :=
| success
| daemon_connection_problem
| too_many_nodes
| too_many_sockets
| nonexistent_node
| nonexistent_socket
| nodemanager_db_non_consistent
| timed_out
| connection_reset
| no_such_interface
| no_transport
| not_connected
| message_parse_error.

#[global] Instance P2PError_eq_dec : EqDecision P2PError.
Proof. solve_decision. Defined.

(** The [(int)] cast of an enumerator. *)
Definition error_code (e : P2PError) : Z :=
  match e with
  | success => 0
  | daemon_connection_problem => 256
  | too_many_nodes => 257
  | too_many_sockets => 258
  | nonexistent_node => 259
  | nonexistent_socket => 260
  | nodemanager_db_non_consistent => 261
  | timed_out => 110
  | connection_reset => 104
  | no_such_interface => 180
  | no_transport => 181
  | not_connected => 107
  | message_parse_error => 107
  end.

Definition category_name (c : category) : string :=
  match c with P2PErrorCategory => "p2pnet" | generic_category => "generic" end.

Definition message_c (error_value : Z) : string :=
  if decide (error_value = error_code daemon_connection_problem) then "Daemon connection problem"
  else if decide (error_value = error_code too_many_nodes) then "Node limit exceeded"
  else if decide (error_value = error_code too_many_sockets) then "Socket limit on specific Node exceeded"
  else if decide (error_value = error_code nonexistent_node) then "Node doesn't exist"
  else if decide (error_value = error_code nonexistent_socket) then "Socket doesn't exist on specific Node"
  else if decide (error_value = error_code nodemanager_db_non_consistent) then "NodeManager DB is inconsistent"
  else "Unknown error".

Definition p2p_getErrorMessage (e : P2PError) : string := message_c (error_code e).

(** Errors a client can receive from the daemon's API carry a message of their
    own; the transport and overlay errors share the default one. *)
Definition api_error (e : P2PError) : bool :=
  match e with
  | daemon_connection_problem | too_many_nodes | too_many_sockets
  | nonexistent_node | nonexistent_socket | nodemanager_db_non_consistent => true
  | _ => false
  end.

Lemma getErrorMessage_unknown e :
  p2p_getErrorMessage e = "Unknown error" ↔ api_error e = false.
Proof. destruct e; vm_compute; split; congruence. Qed.

Lemma getErrorMessage_inj e1 e2 :
  api_error e1 = true → p2p_getErrorMessage e1 = p2p_getErrorMessage e2 → e1 = e2.
Proof. destruct e1, e2; vm_compute; congruence. Qed.

(** Numeric codes identify the error, with the one exception of the pair
    [not_connected] and [message_parse_error]. *)
Lemma error_code_inj e1 e2 :
  error_code e1 = error_code e2 →
  e1 = e2 ∨ (e1 = not_connected ∧ e2 = message_parse_error)
          ∨ (e1 = message_parse_error ∧ e2 = not_connected).
Proof. destruct e1, e2; simpl; intros; try lia; auto. Qed.

End Errors.

(** ** Version *)

Module Version.

Definition P2PNET_VERSION : Z := 0.
Definition P2PNET_CHANNEL : string := "dev".

Definition getMyVersion : Z := P2PNET_VERSION.

(** [std::setfill('0') << std::setw(w)]: pad on the left to width [w]. *)
Definition pad0 (w : nat) (s : string) : string :=
  String.concat "" (replicate (w - String.length s) "0") +:+ s.

Definition makeVersionString (major minor build : Z) (channel : string) : string :=
  print_dec (Z.to_N major) +:+ "." +:+ pad0 2 (print_dec (Z.to_N minor)) +:+ "." +:+
  pad0 4 (print_dec (Z.to_N build)) +:+ "-" +:+ channel.

(** The three numbers [getMyVersionString] computes from the version word. *)
Definition version_parts (version : Z) : Z * Z * Z :=
  let major := (version / 1000000)%Z in
  let minor := (u32 (version - major * 1000000) / 10000)%Z in
  let build := u32 (version - major * 1000000 - minor * 1000) in
  (major, minor, build).

Definition getMyVersionString : string :=
  let '(major, minor, build) := version_parts getMyVersion in
  makeVersionString major minor build P2PNET_CHANNEL.

(** The word [mamibild] of [version.h]. *)
Definition version_word (ma mi bild : Z) : Z := (ma * 1000000 + mi * 10000 + bild)%Z.

Lemma version_parts_word ma mi bild :
  (0 ≤ ma < 100)%Z → (0 ≤ mi < 100)%Z → (0 ≤ bild < 10000)%Z →
  version_parts (version_word ma mi bild) = (ma, mi, bild + mi * 9000)%Z.
Proof.
  intros. unfold version_parts, version_word.
  assert ((ma * 1000000 + mi * 10000 + bild) / 1000000 = ma)%Z as ->.
  { symmetry. apply Z.div_unique with (mi * 10000 + bild)%Z; lia. }
  rewrite (u32_small (_ - _)) by (unfold in_u32; lia).
  assert ((ma * 1000000 + mi * 10000 + bild - ma * 1000000) / 10000 = mi)%Z as ->.
  { symmetry. apply Z.div_unique with bild; lia. }
  rewrite u32_small by (unfold in_u32; lia). f_equal. lia.
Qed.

End Version.

(** ** Singletons *)

Module Singleton.

(** [Singleton<T>]: the function-local static pointer and the objects alive. *)
Record state := mkState { instance : option Z; live : gset Z; next_ptr : Z }.

Definition init : state := mkState None ∅ 1.

Definition getInstance (s : state) : Z * state :=
  match instance s with
  | Some p => (p, s)
  | None => (next_ptr s, mkState (Some (next_ptr s)) ({[next_ptr s]} ∪ live s) (next_ptr s + 1))
  end.

(** [clear]: [delete getInstance()]; deleting a dead object is undefined. *)
Definition clear (s : state) : outcome state :=
  let '(p, s) := getInstance s in
  if decide (p ∈ live s) then Ret (mkState (instance s) (live s ∖ {[p]}) (next_ptr s))
  else Undef use_after_free.

(** [SharedSingleton<T>]: a weak pointer; [strong] counts the clients' owners. *)
Record shared_state := mkShared { weak : option Z; strong : gmap Z nat; next_shared : Z }.

Definition lock (s : shared_state) : option Z :=
  match weak s with
  | Some p => match strong s !! p with Some (S _) => Some p | _ => None end
  | None => None
  end.

Definition sharedGetInstance (s : shared_state) : Z * shared_state :=
  match lock s with
  | Some p => (p, mkShared (weak s) (<[p := S (default 0 (strong s !! p))]> (strong s)) (next_shared s))
  | None =>
      let p := next_shared s in
      (p, mkShared (Some p) (<[p := 1]> (strong s)) (p + 1))
  end.

Lemma getInstance_stable s :
  let '(p, s') := getInstance s in getInstance s' = (p, s').
Proof. unfold getInstance. destruct (instance s) eqn:E; simpl; by rewrite ?E. Qed.

(** After [clear] the static pointer still holds the deleted object. *)
Lemma clear_then_dangling s s' :
  clear s = Ret s' → ((getInstance s').1 ∉ live (getInstance s').2) ∧ clear s' = Undef use_after_free.
Proof.
  unfold clear. destruct (getInstance s) as [p s1] eqn:E. case_decide; [|done].
  assert (instance s1 = Some p) as Hi.
  { unfold getInstance in E. destruct (instance s) eqn:Ei; naive_solver. }
  intros [= <-]. unfold getInstance. simpl. rewrite Hi. simpl.
  split; [set_solver|]. rewrite decide_False by set_solver. done.
Qed.

Lemma sharedGetInstance_live s :
  let '(p, s') := sharedGetInstance s in
  lock s' = Some p ∧ (lock s = Some p ∨ lock s = None ∧ p = next_shared s).
Proof.
  unfold sharedGetInstance. destruct (lock s) as [p|] eqn:E; unfold lock in *; simpl.
  - destruct (weak s) as [q|]; [|done]. destruct (strong s !! q) as [[|n]|] eqn:Hs; simplify_eq.
    rewrite lookup_insert_eq. auto.
  - rewrite lookup_insert_eq. auto.
Qed.

End Singleton.

(** ** Log lines *)

Module Loggable.

Inductive log_class := NONE | ERROR.

Definition log_tag (c : log_class) : string :=
  match c with ERROR => "(EE) " | NONE => "" end.

(** [demangled] is the result of [demangle(typeid( *this).name())]. *)
Definition getComponentName (demangled : string) : string :=
  if decide (String.substring 0 8 demangled = "p2pnet::")
  then String.substring 8 (String.length demangled - 8) demangled
  else demangled.

(** The prefix written to [std::clog]; [time] is the printed uptime. *)
Definition log_prefix (time component : string) (c : log_class) : string :=
  "(" +:+ time +:+ ") [" +:+ component +:+ "] " +:+ log_tag c.

(** [demangle]: [cxa] is [abi::__cxa_demangle], [None] for a non-zero status. *)
Definition demangle (cxa : string → option string) (name : string) : string :=
  match cxa name with Some res => res | None => name end.

(** The static clock, started by the first [Loggable] constructed; times of
    [std::chrono::steady_clock] in nanoseconds. *)
Record clock := mkClock { clock_started : bool; start_clock : Z }.
Definition clock_init : clock := mkClock false 0.
Definition Loggable_new (now : Z) (c : clock) : clock :=
  if clock_started c then c else mkClock true now.
Definition getTimeFromStart (now : Z) (c : clock) : Z := (now - start_clock c)%Z.

(** [log(log_class)]: what it writes before the caller's text; [show] prints
    the time span as a [float] of seconds. *)
Definition log (show : Z → string) (cxa : string → option string) (type_name : string) (now : Z) (c : clock)
    (k : log_class) : string :=
  log_prefix (show (getTimeFromStart now c)) (getComponentName (demangle cxa type_name)) k.

(** The clock starts once: later objects do not move it, so times of log lines
    are non-decreasing from the first object on. *)
Lemma clock_starts_once t ts now now' :
  (Forall (λ u, t ≤ u) ts → t ≤ now ≤ now' →
   start_clock (foldl (flip Loggable_new) clock_init (t :: ts)) = t ∧
   0 ≤ getTimeFromStart now (foldl (flip Loggable_new) clock_init (t :: ts))
     ≤ getTimeFromStart now' (foldl (flip Loggable_new) clock_init (t :: ts)))%Z.
Proof.
  intros _ Hn. assert (foldl (flip Loggable_new) (mkClock true t) ts = mkClock true t) as E
    by (induction ts as [|u ts IH]; [done|exact IH]).
  cbn [foldl]. change (flip Loggable_new clock_init t) with (mkClock true t). rewrite E.
  unfold getTimeFromStart. simpl. lia.
Qed.

Lemma substring_full s : String.substring 0 (String.length s) s = s.
Proof. induction s as [|a s IH]; simpl; [done|]. by rewrite IH. Qed.

Lemma getComponentName_strips s : getComponentName ("p2pnet::" +:+ s) = s.
Proof.
  assert (String.substring 0 8 ("p2pnet::" +:+ s) = "p2pnet::") as E by (simpl; by destruct s).
  unfold getComponentName. rewrite decide_True by done. simpl.
  rewrite Nat.sub_0_r. apply substring_full.
Qed.

End Loggable.
