(* ===== verification/Base58.v ===== *)
(** * Base58 ([common/crypto/base58.cpp])

    [Botan::BigInt] is a library class: a parameter ([BigInt]) with its
    documented big-endian [decode] and [encode].  Its arithmetic is that of the
    integers. *)

From S2P Require Import Prelude.
From Stdlib Require Import ZArith Lia.
From Stdlib.Strings Require Import Byte.

(** The part of [Botan::BigInt] the program relies on. *)
Class BigInt := {
  bi_decode : bytes → Z;
  bi_encode : Z → bytes;
  bi_decode_spec bs : bi_decode bs = be_val bs;
  bi_encode_val z : (0 ≤ z)%Z → be_val (bi_encode z) = z;
  bi_encode_min z : (0 ≤ z)%Z → head (bi_encode z) ≠ Some x00;
}.

Section Base58.
Context {BI : BigInt}.

Definition base58_alphabet : bytes :=
  cstr "123456789abcdefghijkmnopqrstuvwxyzABCDEFGHJKLMNPQRSTUVWXYZ".

(** [base58_alphabet[i]]: out of range is undefined. *)
Definition alphabet_at (i : Z) : outcome byte :=
  match base58_alphabet !! Z.to_nat i with
  | Some c => if decide (0 ≤ i)%Z then Ret c else Undef out_of_bounds
  | None => Undef out_of_bounds
  end.

(** [base58_alphabet.find(c)]. *)
Definition alphabet_find (c : byte) : Z :=
  match list_find (eq c) base58_alphabet with
  | Some (i, _) => Z.of_nat i
  | None => npos
  end.

(** The [while(big_data >= base_count)] loop; [result] is the deque. *)
Fixpoint encode_loop (fuel : nat) (big_data : Z) (result : bytes) : outcome (Z * bytes) :=
  match fuel with
  | O => OutOfFuel
  | S fuel =>
      if decide (58 ≤ big_data)%Z then
        c ← alphabet_at (big_data mod 58)%Z;
        encode_loop fuel (big_data / 58)%Z (c :: result)
      else Ret (big_data, result)
  end.

(** Enough turns of the loop: every turn at least halves the number. *)
Definition encode_fuel (big_data : Z) : nat := S (Z.to_nat (Z.log2 big_data)).

Definition encodeToBase58 (data : bytes) : outcome bytes :=
  let big_data := bi_decode data in
  '(rest, result) ← encode_loop (encode_fuel big_data) big_data [];
  if decide (0 < rest)%Z then c ← alphabet_at rest; Ret (c :: result)
  else Ret result.

(** The [for(int i = len-1; i >= 0; i--)] loop, over the characters in the
    order it visits them. *)
Fixpoint decode_loop (rev_chars : bytes) (big_data multi : Z) : Z :=
  match rev_chars with
  | [] => big_data
  | c :: rest => decode_loop rest (big_data + multi * alphabet_find c)%Z (multi * 58)%Z
  end.

Definition decodeFromBase58 (base58 : bytes) : bytes :=
  let len := i32 (Z.of_nat (length base58)) in
  bi_encode (decode_loop (rev (take (Z.to_nat len) base58)) 0 1).

(** *** The numbers behind the digits *)

(** Digits of [z] in base 58, most significant first. *)
Definition b58_val (cs : bytes) : Z := foldl (λ acc c, acc * 58 + alphabet_find c)%Z 0%Z cs.

Definition b58_char (c : byte) : Prop := (alphabet_find c < 58)%Z.

Lemma alphabet_facts :
  length base58_alphabet = 58 ∧ NoDup base58_alphabet.
Proof. split; [done|]. by apply (bool_decide_unpack (NoDup base58_alphabet)); vm_compute. Qed.

Lemma alphabet_at_find i : (0 ≤ i < 58)%Z → ∃ c, alphabet_at i = Ret c ∧ alphabet_find c = i.
Proof.
  intros Hi. destruct alphabet_facts as [Hlen Hnd]. unfold alphabet_at.
  destruct (lookup_lt_is_Some_2 base58_alphabet (Z.to_nat i)) as [c Hc]; [lia|].
  exists c. rewrite Hc, decide_True by lia. split; [done|].
  unfold alphabet_find. rewrite (proj2 (list_find_Some (eq c) _ (Z.to_nat i) c)); [lia|].
  split; [done|]. split; [done|]. intros j y Hj Hlt ->.
  pose proof (NoDup_lookup _ _ _ _ Hnd Hc Hj). lia.
Qed.

Lemma alphabet_find_nonneg c : (0 ≤ alphabet_find c)%Z.
Proof. unfold alphabet_find. destruct (list_find _ _) as [[i ?]|]; unfold npos; lia. Qed.

Lemma alphabet_find_inj c1 c2 : b58_char c1 → alphabet_find c1 = alphabet_find c2 → c1 = c2.
Proof.
  unfold b58_char, alphabet_find.
  destruct (list_find (eq c1) _) as [[i x]|] eqn:E1, (list_find (eq c2) _) as [[j y]|] eqn:E2;
    intros Hlt Heq; unfold npos in *; try lia.
  apply list_find_Some in E1 as (H1 & -> & _). apply list_find_Some in E2 as (H2 & -> & _).
  apply Nat2Z.inj in Heq. subst. congruence.
Qed.

Lemma b58_val_cons c cs :
  b58_val (c :: cs) = (alphabet_find c * 58 ^ Z.of_nat (length cs) + b58_val cs)%Z.
Proof.
  unfold b58_val. induction cs as [|d cs IH] using rev_ind; [cbn; lia|].
  rewrite app_comm_cons, !foldl_app, IH, length_app, Nat2Z.inj_add, Z.pow_add_r by lia.
  cbn [foldl length Z.of_nat Pos.of_succ_nat]. lia.
Qed.

Lemma decode_loop_spec cs acc multi :
  decode_loop (rev cs) acc multi = (acc + multi * b58_val cs)%Z.
Proof.
  revert acc multi. induction cs as [|c cs IH] using rev_ind; intros acc multi; [cbn; lia|].
  rewrite rev_app_distr. simpl. rewrite IH. unfold b58_val. rewrite foldl_app. simpl. lia.
Qed.

Lemma decode_spec cs :
  (Z.of_nat (length cs) < 2 ^ 31)%Z → decodeFromBase58 cs = bi_encode (b58_val cs).
Proof.
  intros Hlen. unfold decodeFromBase58. rewrite i32_small by lia.
  rewrite Nat2Z.id, take_ge by done. rewrite decode_loop_spec. f_equal. lia.
Qed.

(** The loop invariant: the number is [rest] followed by the digits pushed. *)
Lemma encode_loop_spec fuel n acc :
  (0 ≤ n)%Z → (Z.log2 n < Z.of_nat fuel)%Z → Forall b58_char acc →
  ∃ rest cs, encode_loop fuel n acc = Ret (rest, cs) ∧ (0 ≤ rest < 58)%Z ∧ Forall b58_char cs ∧
    (rest * 58 ^ Z.of_nat (length cs) + b58_val cs =
     n * 58 ^ Z.of_nat (length acc) + b58_val acc)%Z ∧ (0 < n → 0 < rest)%Z.
Proof.
  revert n acc. induction fuel as [|fuel IH]; intros n acc Hn Hf Hacc.
  { pose proof (Z.log2_nonneg n). lia. }
  simpl. case_decide as H58.
  - destruct (alphabet_at_find (n mod 58)) as (c & Hc & Hfind).
    { apply Z.mod_pos_bound. lia. }
    assert (Z.log2 (n / 58) < Z.of_nat fuel)%Z as Hlog.
    { assert (n / 58 ≤ n / 2)%Z by (apply Z.div_le_compat_l; lia).
      assert (Z.log2 (n / 58) ≤ Z.log2 (n / 2))%Z by (by apply Z.log2_le_mono).
      assert (Z.log2 58 ≤ Z.log2 n)%Z as H5 by (by apply Z.log2_le_mono).
      change (Z.log2 58) with 5%Z in H5.
      assert (Z.log2 (n / 2) = Z.max 0 (Z.log2 n - 1))%Z
        by (rewrite <-Z.div2_div, Z.div2_spec, Z.log2_shiftr; lia).
      lia. }
    assert (0 ≤ n mod 58 < 58)%Z by (apply Z.mod_pos_bound; lia).
    destruct (IH (n / 58)%Z (c :: acc)) as (rest & cs & Hl & Hr & Hcs & Hv & Hpos).
    { apply Z.div_pos; lia. } { done. }
    { constructor; [|done]. unfold b58_char. rewrite Hfind. lia. }
    exists rest, cs. rewrite Hc. simpl. split; [done|]. do 2 (split; [done|]). split.
    + rewrite Hv, b58_val_cons, Hfind. simpl length.
      rewrite Nat2Z.inj_succ, Z.pow_succ_r by lia.
      pose proof (Z.div_mod n 58). nia.
    + intros _. apply Hpos. apply Z.div_str_pos. lia.
  - exists n, acc. repeat split; try done; lia.
Qed.

(** The character '1' stands for the digit 0. *)
Definition b58_one : byte := byte_of 49.

Lemma alphabet_find_zero c : alphabet_find c = 0%Z ↔ c = b58_one.
Proof.
  split; [|intros ->; reflexivity]. intros H. symmetry. apply alphabet_find_inj.
  - reflexivity.
  - rewrite H. reflexivity.
Qed.

(** [encodeToBase58] returns, with alphabet characters only, no leading '1'
    and the value of its input. *)
Lemma encode_spec data :
  ∃ cs, encodeToBase58 data = Ret cs ∧ Forall b58_char cs ∧ b58_val cs = be_val data ∧
    head cs ≠ Some b58_one.
Proof.
  unfold encodeToBase58. rewrite bi_decode_spec. pose proof (be_val_nonneg data) as Hpos.
  destruct (decide (be_val data = 0)%Z) as [->|Hne].
  { exists []. by repeat split. }
  destruct (encode_loop_spec (encode_fuel (be_val data)) (be_val data) [])
    as (rest & cs & -> & Hr & Hcs & Hv & Hp); [done| |done|].
  { unfold encode_fuel. pose proof (Z.log2_nonneg (be_val data)). lia. }
  simpl. rewrite decide_True by lia.
  destruct (alphabet_at_find rest ltac:(lia)) as (c & -> & Hf). simpl. eexists. split; [done|].
  split; [|split].
  - constructor; [|done]. unfold b58_char. rewrite Hf. lia.
  - rewrite b58_val_cons, Hf, Hv. cbn. lia.
  - intros [= ->]. rewrite (proj2 (alphabet_find_zero _) eq_refl) in Hf. lia.
Qed.

Lemma b58_val_nonneg cs : (0 ≤ b58_val cs)%Z.
Proof.
  induction cs as [|c cs IH]; [done|]. rewrite b58_val_cons.
  pose proof (alphabet_find_nonneg c). assert (0 < 58 ^ Z.of_nat (length cs))%Z by (apply Z.pow_pos_nonneg; lia). nia.
Qed.

Lemma b58_val_ge c cs : c ≠ b58_one → (58 ^ Z.of_nat (length cs) ≤ b58_val (c :: cs))%Z.
Proof.
  intros Hc. rewrite b58_val_cons. pose proof (b58_val_nonneg cs). pose proof (alphabet_find_nonneg c).
  assert (alphabet_find c ≠ 0)%Z by (by rewrite alphabet_find_zero).
  assert (0 < 58 ^ Z.of_nat (length cs))%Z by (apply Z.pow_pos_nonneg; lia). nia.
Qed.

Lemma b58_val_snoc cs c : b58_val (cs ++ [c]) = (b58_val cs * 58 + alphabet_find c)%Z.
Proof. unfold b58_val. by rewrite foldl_app. Qed.

Lemma b58_val_canonical cs1 cs2 :
  Forall b58_char cs1 → Forall b58_char cs2 →
  head cs1 ≠ Some b58_one → head cs2 ≠ Some b58_one → b58_val cs1 = b58_val cs2 → cs1 = cs2.
Proof.
  assert (∀ cs c, head (cs ++ [c]) ≠ Some b58_one → (0 < b58_val (cs ++ [c]))%Z) as Hpos.
  { intros cs c Hh. assert (∃ d ds, cs ++ [c] = d :: ds) as (d & ds & E) by (destruct cs; eauto).
    rewrite E in *. assert (d ≠ b58_one) as Hd by (simpl in Hh; congruence).
    eapply Z.lt_le_trans; [|by apply b58_val_ge]. apply Z.pow_pos_nonneg; lia. }
  revert cs2. induction cs1 as [|c1 cs1 IH] using rev_ind; intros cs2 H1 H2 Hh1 Hh2 Hv.
  - destruct cs2 as [|c2 cs2 _] using rev_ind; [done|]. specialize (Hpos _ _ Hh2). cbn in Hv. lia.
  - destruct cs2 as [|c2 cs2 _] using rev_ind; [specialize (Hpos _ _ Hh1); cbn in Hv; lia|].
    rewrite !b58_val_snoc in Hv.
    apply Forall_app in H1 as [H1 [Hc1 _]%Forall_cons]. apply Forall_app in H2 as [H2 [Hc2 _]%Forall_cons].
    pose proof (alphabet_find_nonneg c1). pose proof (alphabet_find_nonneg c2). unfold b58_char in *.
    assert (b58_val cs1 = b58_val cs2 ∧ alphabet_find c1 = alphabet_find c2) as [Hv' Hc] by lia.
    apply alphabet_find_inj in Hc; [|done]. subst c2. f_equal. apply IH; try done.
    + by destruct cs1.
    + by destruct cs2.
Qed.

Lemma encode_length data cs : encodeToBase58 data = Ret cs → length cs ≤ 2 * length data.
Proof.
  destruct (encode_spec data) as (cs' & -> & _ & Hv & Hh). intros [= ->].
  destruct cs as [|c cs]; [simpl; lia|].
  assert (c ≠ b58_one) as Hc by (simpl in Hh; congruence). pose proof (b58_val_ge c cs Hc) as Hge.
  pose proof (be_val_bound data) as Hlt. rewrite Hv in Hge.
  destruct (decide (2 * length data ≤ length cs)) as [Hle|]; [|simpl; lia].
  assert (58 ^ Z.of_nat (2 * length data) ≤ 58 ^ Z.of_nat (length cs))%Z by (apply Z.pow_le_mono_r; lia).
  rewrite Nat2Z.inj_mul, Z.pow_mul_r in H by lia.
  assert (256 ^ Z.of_nat (length data) ≤ (58 ^ 2) ^ Z.of_nat (length data))%Z
    by (apply Z.pow_le_mono_l; lia).
  change (Z.of_nat 2) with 2%Z in H. lia.
Qed.

(** Decoding inverts encoding up to leading zero bytes, which a number does
    not have. *)
Lemma decode_encode data :
  (2 * Z.of_nat (length data) < 2 ^ 31)%Z →
  ∃ cs, encodeToBase58 data = Ret cs ∧ decodeFromBase58 cs = strip_zeros data.
Proof.
  intros Hlen. destruct (encode_spec data) as (cs & He & _ & Hv & _). exists cs. split; [done|].
  apply encode_length in He. rewrite decode_spec by lia. rewrite Hv.
  pose proof (be_val_nonneg data). apply be_val_canonical.
  - by apply bi_encode_min.
  - apply strip_zeros_head.
  - rewrite bi_encode_val, be_val_strip; done.
Qed.

(** Encoding inverts decoding on strings of the alphabet without leading '1'. *)
Lemma encode_decode cs :
  (Z.of_nat (length cs) < 2 ^ 31)%Z → Forall b58_char cs → head cs ≠ Some b58_one →
  encodeToBase58 (decodeFromBase58 cs) = Ret cs.
Proof.
  intros Hlen Hcs Hh. destruct (encode_spec (decodeFromBase58 cs)) as (cs' & -> & Hcs' & Hv & Hh').
  f_equal. apply b58_val_canonical; try done. rewrite Hv, decode_spec by done.
  apply bi_encode_val, b58_val_nonneg.
Qed.
End Base58.

(** A big-integer library: minimal big-endian bytes by repeated division. *)
Fixpoint nat_be (fuel : nat) (z : Z) : bytes :=
  match fuel with
  | O => []
  | S fuel => if decide (z ≤ 0)%Z then [] else nat_be fuel (z / 256) ++ [byte_of z]
  end.

Lemma nat_be_val fuel z : (0 ≤ z < 256 ^ Z.of_nat fuel)%Z → be_val (nat_be fuel z) = z.
Proof.
  revert z. induction fuel as [|fuel IH]; intros z Hz; simpl; [cbn in *; lia|].
  rewrite Nat2Z.inj_succ, Z.pow_succ_r in Hz by lia. case_decide; [cbn; lia|].
  rewrite be_val_snoc, byte_val_of, IH; [pose proof (Z.div_mod z 256); lia|].
  split; [apply Z.div_pos; lia|]. apply Z.div_lt_upper_bound; lia.
Qed.

Lemma nat_be_head fuel z : (z < 256 ^ Z.of_nat fuel)%Z → head (nat_be fuel z) ≠ Some x00.
Proof.
  revert z. induction fuel as [|fuel IH]; intros z Hz; simpl; [done|].
  rewrite Nat2Z.inj_succ, Z.pow_succ_r in Hz by lia. case_decide; [done|].
  assert (z / 256 < 256 ^ Z.of_nat fuel)%Z by (apply Z.div_lt_upper_bound; lia).
  specialize (IH (z / 256)%Z ltac:(lia)). destruct (nat_be fuel (z / 256)) as [|b l] eqn:E; [|done].
  assert (z / 256 = 0)%Z as E0.
  { rewrite <-(nat_be_val fuel (z / 256)), E; [done|]. split; [apply Z.div_pos; lia|done]. }
  simpl. intros [= Hb]. apply (f_equal byte_val) in Hb. rewrite byte_val_of in Hb.
  change (byte_val x00) with 0%Z in Hb. pose proof (Z.div_mod z 256). lia.
Qed.

Lemma nat_be_fuel z : (0 ≤ z)%Z → (z < 256 ^ Z.of_nat (S (Z.to_nat (Z.log2 z))))%Z.
Proof.
  intros Hz. destruct (decide (z = 0)%Z) as [->|]; [done|].
  pose proof (Z.log2_spec z ltac:(lia)). pose proof (Z.log2_nonneg z).
  rewrite Nat2Z.inj_succ, Z2Nat.id by done. eapply Z.lt_le_trans; [apply H|].
  apply Z.pow_le_mono_l. lia.
Qed.

#[global] Program Instance BigInt_Z : BigInt := {|
  bi_decode := be_val;
  bi_encode z := nat_be (S (Z.to_nat (Z.log2 z))) z;
|}.
Next Obligation. done. Qed.
Next Obligation. intros z Hz. apply nat_be_val. split; [done|]. by apply nat_be_fuel. Qed.
Next Obligation. intros z Hz. apply nat_be_head. by apply nat_be_fuel. Qed.
