(* ===== verification/Crypto.v ===== *)
(** * Hashes, keys and their text forms ([common/crypto/])

    [MathString<T>] is the template base class of every value with a binary
    form; [Hash], [AES], [PrivateKeyDSA], [PublicKeyDSA] and [ECDH] derive from
    it.  Botan's algorithms are parameters: the classes below name the calls
    the program makes and what it relies on. *)

From S2P Require Import Prelude Base58.
From Stdlib Require Import ZArith Lia.
From Stdlib.Strings Require Import Byte.

(** ** Library interfaces *)

(** [Botan::Hex_Encoder], [Base64_Encoder] and their decoders. *)
Class Codec := {
  hex_encode : bytes → bytes;
  hex_decode : bytes → bytes;
  b64_encode : bytes → bytes;
  b64_decode : bytes → bytes;
  hex_law bs : hex_decode (hex_encode bs) = bs;
  b64_law bs : b64_decode (b64_encode bs) = bs;
}.

(** [Botan::Keccak_1600(224)] and [Botan::CRC32]. *)
Class Digest := {
  keccak224 : bytes → bytes;
  crc32_process : bytes → bytes;
  keccak224_length bs : length (keccak224 bs) = 28;
  crc32_length bs : length (crc32_process bs) = 4;
}.

(** [Botan::ECDSA_PrivateKey] / [ECDSA_PublicKey] on secp256r1.  [X509::load_key]
    throws ([None]), loads a key of another algorithm ([Some None], the null
    pointer of the [dynamic_cast]) or an ECDSA key. *)
Class ECDSA := {
  sk : Type;
  pk : Type;
  sk_of_bigint : Z → sk;
  private_value : sk → Z;
  pk_of_sk : sk → pk;
  x509_ber : pk → bytes;
  x509_load : bytes → option (option pk);
  ec_sign : sk → bytes → bytes → bytes;
  ec_verify : pk → bytes → bytes → bool;
  private_value_range s : (0 < private_value s < 2 ^ 256)%Z;
  sk_of_private_value s : sk_of_bigint (private_value s) = s;
  x509_law p : x509_load (x509_ber p) = Some (Some p);
  ec_sign_law s rng msg : ec_verify (pk_of_sk s) msg (ec_sign s rng msg) = true;
}.

(** [get_cipher("AES-128/CBC", key, iv, ...)] in a [Botan::Pipe]. *)
Class Cipher := {
  cbc_encrypt : bytes → bytes → bytes → bytes;
  cbc_decrypt : bytes → bytes → bytes → option bytes;
  cbc_law key iv data : length key = 16 → length iv = 16 →
    cbc_decrypt key iv (cbc_encrypt key iv data) = Some data;
}.

(** ** [base16.cpp], [base64.cpp], [crc32.cpp] *)

Section Encoders.
Context {CO : Codec} {DG : Digest}.

Definition encodeToHex (data : bytes) : bytes := hex_encode data.
Definition decodeFromHex (hex_string : bytes) : bytes := hex_decode hex_string.
Definition encodeToBase64 (data : bytes) : bytes := b64_encode data.
Definition decodeFromBase64 (base64 : bytes) : bytes := b64_decode base64.

(** The four bytes of the digest, shifted and or-ed as [uint32_t]. *)
Definition computeCRC32 (data : bytes) : outcome Z :=
  match crc32_process data with
  | b0 :: b1 :: b2 :: b3 :: _ =>
      Ret (Z.lor (Z.lor (Z.lor (u32 (Z.shiftl (byte_val b0) 24)) (u32 (Z.shiftl (byte_val b1) 16)))
                 (u32 (Z.shiftl (byte_val b2) 8))) (byte_val b3))
  | _ => Undef out_of_bounds
  end.

Lemma lor_shift_add a b n : (0 ≤ n)%Z → (0 ≤ b < 2 ^ n)%Z → Z.lor (a * 2 ^ n) b = (a * 2 ^ n + b)%Z.
Proof.
  intros Hn Hb. rewrite <-Z.add_lor_land.
  assert (Z.land (a * 2 ^ n) b = 0)%Z as ->; [|lia].
  rewrite <-Z.shiftl_mul_pow2 by done. apply Z.bits_inj_0. intros i. rewrite Z.land_spec.
  destruct (decide (i < n)%Z); [by rewrite Z.shiftl_spec_low|].
  rewrite <-(Z.mod_small b (2 ^ n)), Z.mod_pow2_bits_high by lia. apply andb_false_r.
Qed.

Lemma computeCRC32_spec data : computeCRC32 data = Ret (be_val (crc32_process data)).
Proof.
  unfold computeCRC32. pose proof (crc32_length data) as Hlen.
  destruct (crc32_process data) as [|b0 [|b1 [|b2 [|b3 [|]]]]]; try discriminate Hlen. f_equal.
  pose proof (byte_val_range b0). pose proof (byte_val_range b1).
  pose proof (byte_val_range b2). pose proof (byte_val_range b3).
  rewrite !Z.shiftl_mul_pow2 by lia.
  rewrite !u32_small by (unfold in_u32; lia).
  rewrite lor_shift_add by lia.
  replace (byte_val b0 * 2 ^ 24 + byte_val b1 * 2 ^ 16)%Z
    with ((byte_val b0 * 256 + byte_val b1) * 2 ^ 16)%Z by lia.
  rewrite lor_shift_add by lia.
  replace ((byte_val b0 * 256 + byte_val b1) * 2 ^ 16 + byte_val b2 * 2 ^ 8)%Z
    with (((byte_val b0 * 256 + byte_val b1) * 256 + byte_val b2) * 2 ^ 8)%Z by lia.
  rewrite lor_shift_add by lia. cbn [be_val foldl]. unfold be_val. simpl. lia.
Qed.
End Encoders.

(** ** [MathString.h] *)

(** The two virtual functions of [MathString<T>] and [T]'s default constructor. *)
Class MathString (T : Type) := {
  ms_new : T;
  setAsBinaryVector : T → bytes → outcome T;
  toBinaryVector : T → outcome bytes;
}.

Section MathString.
Context {T : Type} `{MathString T} {BI : BigInt} {CO : Codec}.

Definition fromBinaryVector (v : bytes) : outcome T := setAsBinaryVector ms_new v.
Definition setAsBinaryString (t : T) (s : bytes) : outcome T := setAsBinaryVector t s.
Definition fromBinaryString (s : bytes) : outcome T := setAsBinaryString ms_new s.
Definition toBinaryString (t : T) : outcome bytes := toBinaryVector t.

Definition setAsHex (t : T) (s : bytes) : outcome T := setAsBinaryString t (decodeFromHex s).
Definition fromHex (s : bytes) : outcome T := setAsHex ms_new s.
Definition toHex (t : T) : outcome bytes := encodeToHex <$> toBinaryString t.

Definition setAsBase58 (t : T) (s : bytes) : outcome T := setAsBinaryString t (decodeFromBase58 s).
Definition fromBase58 (s : bytes) : outcome T := setAsBase58 ms_new s.
Definition toBase58 (t : T) : outcome bytes := b ← toBinaryString t; encodeToBase58 b.

Definition setAsBase64 (t : T) (s : bytes) : outcome T := setAsBinaryString t (decodeFromBase64 s).
Definition fromBase64 (s : bytes) : outcome T := setAsBase64 ms_new s.
Definition toBase64 (t : T) : outcome bytes := encodeToBase64 <$> toBinaryString t.

(** Hex and Base64 carry the binary form unchanged. *)
Lemma fromHex_toHex t b :
  toBinaryVector t = Ret b → (s ← toHex t; fromHex s) = fromBinaryVector b.
Proof.
  intros Hb. unfold toHex, toBinaryString. rewrite Hb. simpl.
  unfold fromHex, setAsHex, setAsBinaryString, decodeFromHex, encodeToHex. by rewrite hex_law.
Qed.
Lemma fromBase64_toBase64 t b :
  toBinaryVector t = Ret b → (s ← toBase64 t; fromBase64 s) = fromBinaryVector b.
Proof.
  intros Hb. unfold toBase64, toBinaryString. rewrite Hb. simpl.
  unfold fromBase64, setAsBase64, setAsBinaryString, decodeFromBase64, encodeToBase64. by rewrite b64_law.
Qed.
(** Base58 carries the number the binary form stands for. *)
Lemma fromBase58_toBase58 t b :
  toBinaryVector t = Ret b → (2 * Z.of_nat (length b) < 2 ^ 31)%Z →
  (s ← toBase58 t; fromBase58 s) = fromBinaryVector (strip_zeros b).
Proof.
  intros Hb Hlen. unfold toBase58, toBinaryString. rewrite Hb. simpl.
  destruct (decode_encode b Hlen) as (cs & -> & Hd). simpl.
  unfold fromBase58, setAsBase58, setAsBinaryString. by rewrite Hd.
Qed.
End MathString.

(** ** [Hash.cpp] *)

Module HashM.

Definition HASH_LENGTH : Z := 224.

(** [hasher] tells whether the [unique_ptr] to the Keccak object is set. *)
Record Hash := mkHash { hash : bytes; hasher : bool }.

#[global] Instance Hash_eq_dec : EqDecision Hash.
Proof. solve_decision. Defined.

(** [Hash::Hash()], the copy constructor (which leaves the hasher null), the
    move constructor, and the two assignments. *)
Definition Hash_new : Hash := mkHash [] true.
Definition Hash_copy (rhash : Hash) : Hash := mkHash (hash rhash) false.
Definition Hash_move (rhash : Hash) : Hash * Hash := (rhash, mkHash [] false).
Definition Hash_assign (this rhash : Hash) : Hash := mkHash (hash rhash) (hasher this).
Definition Hash_move_assign (this rhash : Hash) : Hash * Hash := (rhash, this).

Definition Hash_eq (this rhash : Hash) : bool := bool_decide (hash this = hash rhash).
(** [operator bool]. *)
Definition Hash_bool (this : Hash) : bool := negb (bool_decide (hash this = [])).
Definition Hash_clear (this : Hash) : Hash := mkHash [] (hasher this).

#[global] Instance Hash_MathString : MathString Hash := {|
  ms_new := Hash_new;
  setAsBinaryVector this v := Ret (mkHash v (hasher this));
  toBinaryVector this := Ret (hash this);
|}.

Section Compute.
Context {DG : Digest}.

Definition compute (this : Hash) (data : bytes) : outcome Hash :=
  if hasher this then setAsBinaryVector this (keccak224 data) else Undef null_deref.

Definition computeNew (data : bytes) : outcome Hash := compute Hash_new data.

Definition check (this : Hash) (data : bytes) : outcome bool :=
  h ← compute Hash_new data;
  b ← toBinaryString h;
  b' ← toBinaryString this;
  Ret (bool_decide (b = b')).

(** [Hash(PublicKeyDSA)]: [key] is the key's binary string. *)
Definition Hash_of_key (key : bytes) : outcome Hash := compute Hash_new key.

Lemma computeNew_spec data : computeNew data = Ret (mkHash (keccak224 data) true).
Proof. done. Qed.

(** [compute] works on constructed and moved-to objects, never on copies. *)
Lemma compute_copy h data : compute (Hash_copy h) data = Undef null_deref.
Proof. done. Qed.

Lemma check_spec h data : check h data = Ret (bool_decide (hash h = keccak224 data)).
Proof. unfold check. simpl. f_equal. apply bool_decide_ext. naive_solver. Qed.
End Compute.

(** [operator<]: [std::string] comparison, on unsigned characters. *)
Fixpoint lex_lt (a b : bytes) : bool :=
  match a, b with
  | [], [] => false
  | [], _ :: _ => true
  | _ :: _, [] => false
  | x :: a, y :: b =>
      if decide (byte_val x < byte_val y)%Z then true
      else if decide (byte_val x = byte_val y)%Z then lex_lt a b else false
  end.
Definition Hash_lt (this lhash : Hash) : bool := lex_lt (hash this) (hash lhash).

(** [operator^].  The loop variable is never initialised: [i0] is the value it
    happens to start with. *)
Definition xor_loop (i0 : nat) (this_v right_v result_v : bytes) : bytes :=
  foldl (λ r i, <[i := byte_xor (default x00 (this_v !! i)) (default x00 (right_v !! i))]> r)
        result_v (seq i0 (length result_v - i0)).

Definition Hash_xor (i0 : nat) (this rhash : Hash) : Hash :=
  let max_size := length (hash this) `max` length (hash rhash) in
  let this_v := resize max_size x00 (hash this) in
  let right_v := resize max_size x00 (hash rhash) in
  mkHash (xor_loop i0 this_v right_v (replicate max_size x00)) true.

(** *** The order *)

Lemma lex_lt_irrefl a : lex_lt a a = false.
Proof. induction a as [|x a IH]; simpl; [done|]. rewrite decide_False by lia. by rewrite decide_True. Qed.

Lemma lex_lt_trans a b c : lex_lt a b = true → lex_lt b c = true → lex_lt a c = true.
Proof.
  revert b c. induction a as [|x a IH]; intros [|y b] [|z c]; simpl; try done.
  repeat case_decide; try lia; try done. apply IH.
Qed.

Lemma lex_lt_total a b : lex_lt a b = true ∨ a = b ∨ lex_lt b a = true.
Proof.
  revert b. induction a as [|x a IH]; intros [|y b]; simpl; auto.
  repeat case_decide; try lia; auto.
  assert (x = y) as -> by (by apply (inj byte_val)). destruct (IH b) as [|[->|]]; auto.
Qed.

(** On hashes of one length the order is the numeric order of the
    big-endian values. *)
Lemma lex_lt_be_val a b :
  length a = length b → lex_lt a b = true ↔ (be_val a < be_val b)%Z.
Proof.
  revert b. induction a as [|x a IH]; intros [|y b] Hlen; simpl in Hlen; try lia; [done|].
  injection Hlen as Hlen. rewrite !be_val_cons, Hlen. simpl.
  pose proof (be_val_nonneg a). pose proof (be_val_nonneg b).
  pose proof (be_val_bound a) as Ha. rewrite Hlen in Ha. pose proof (be_val_bound b).
  repeat case_decide.
  - split; [intros _|done]. nia.
  - rewrite IH by done. nia.
  - split; [done|]. intros. nia.
Qed.

(** *** The exclusive or *)

Lemma xor_loop_lookup i0 tv rv res i :
  xor_loop i0 tv rv res !! i =
    if decide (i0 ≤ i < length res)
    then Some (byte_xor (default x00 (tv !! i)) (default x00 (rv !! i)))
    else res !! i.
Proof.
  unfold xor_loop. remember (length res - i0) as n eqn:En.
  assert (∀ r, length r = length res → i0 + n = length res ∨ n = 0 →
    foldl (λ r i, <[i := byte_xor (default x00 (tv !! i)) (default x00 (rv !! i))]> r) r (seq i0 n) !! i
    = if decide (i0 ≤ i < i0 + n) then Some (byte_xor (default x00 (tv !! i)) (default x00 (rv !! i)))
      else r !! i) as Hgen.
  { clear En. revert i0. induction n as [|n IH]; intros i0 r Hr Hn; simpl.
    - by rewrite decide_False by lia.
    - rewrite IH; [|by rewrite length_insert|lia]. repeat case_decide; try lia; try done.
      + assert (i = i0) as -> by lia. apply list_lookup_insert_eq. lia.
      + rewrite list_lookup_insert_ne by lia. done. }
  rewrite Hgen; [|done|lia]. repeat case_decide; try lia; done.
Qed.

Lemma length_xor_loop i0 tv rv res : length (xor_loop i0 tv rv res) = length res.
Proof.
  unfold xor_loop. generalize (length res - i0) as n. revert i0 res.
  intros i0 res n. revert i0 res. induction n as [|n IH]; intros i0 res; simpl; [done|].
  by rewrite IH, length_insert.
Qed.

(** With the loop variable at 0, [^] is the pointwise exclusive or of the
    operands, the shorter one padded with zeros at its end. *)
Lemma Hash_xor_resize a b : let n := length (hash a) `max` length (hash b) in
  hash (Hash_xor 0 a b) = zip_with byte_xor (resize n x00 (hash a)) (resize n x00 (hash b)).
Proof.
  intros n. unfold Hash_xor. fold n. cbn [hash]. apply list_eq. intros i. rewrite xor_loop_lookup, length_replicate.
  rewrite lookup_zip_with. case_decide as Hi.
  - destruct (lookup_lt_is_Some_2 (resize n x00 (hash a)) i) as [x Hx]; [rewrite length_resize; lia|].
    destruct (lookup_lt_is_Some_2 (resize n x00 (hash b)) i) as [y Hy]; [rewrite length_resize; lia|]. by rewrite Hx, Hy.
  - rewrite (lookup_ge_None_2 (resize n x00 (hash a))) by (rewrite length_resize; lia). simpl.
    apply lookup_ge_None_2. rewrite length_replicate. lia.
Qed.
Lemma Hash_xor_zip a b :
  length (hash a) = length (hash b) → hash (Hash_xor 0 a b) = zip_with byte_xor (hash a) (hash b).
Proof. intros Hlen. rewrite Hash_xor_resize, <-Hlen, Nat.max_id. by rewrite !resize_all_alt by lia. Qed.

(** Any other start value leaves the leading bytes of the distance zero. *)
Lemma Hash_xor_uninit i0 a b i :
  i < i0 → i < length (hash a) `max` length (hash b) → hash (Hash_xor i0 a b) !! i = Some x00.
Proof.
  intros Hi Hlen. simpl. rewrite xor_loop_lookup, decide_False by lia.
  by apply lookup_replicate.
Qed.

Lemma zip_xor_comm a b : zip_with byte_xor a b = zip_with byte_xor b a.
Proof. revert b. induction a as [|x a IH]; intros [|y b]; simpl; [done..|]. by rewrite byte_xor_comm, IH. Qed.

Lemma zip_xor_nilpotent a : zip_with byte_xor a a = replicate (length a) x00.
Proof. induction a as [|x a IH]; simpl; [done|]. by rewrite byte_xor_nilpotent, IH. Qed.

Lemma zip_xor_cancel a b : length a = length b → zip_with byte_xor a (zip_with byte_xor a b) = b.
Proof.
  revert b. induction a as [|x a IH]; intros [|y b] Hlen; simpl in *; try lia; [done|].
  rewrite byte_xor_cancel, IH by lia. done.
Qed.
Lemma zip_xor_zero a b : length a = length b → zip_with byte_xor a b = replicate (length a) x00 ↔ a = b.
Proof.
  intros Hlen. split; [|intros <-; apply zip_xor_nilpotent].
  rewrite <-zip_xor_nilpotent. intros E. apply (f_equal (zip_with byte_xor a)) in E. by rewrite !zip_xor_cancel in E.
Qed.

(** The triangle inequality, byte by byte. *)
Lemma byte_xor_sum x y : (byte_val (byte_xor x y) ≤ byte_val x + byte_val y)%Z.
Proof.
  rewrite byte_val_xor, <-(Z.add_lxor_2land (byte_val x) (byte_val y)).
  pose proof (byte_val_range x). pose proof (byte_val_range y).
  assert (0 ≤ Z.land (byte_val x) (byte_val y))%Z by (apply Z.land_nonneg; lia). lia.
Qed.
Lemma xor_triangle a b c : length a = length b → length a = length c →
  (be_val (zip_with byte_xor a c) ≤ be_val (zip_with byte_xor a b) + be_val (zip_with byte_xor b c))%Z.
Proof.
  revert b c. induction a as [|x a IH]; intros [|y b] [|z c] Hb Hc; try done. cbn [zip_with length] in *.
  rewrite !be_val_cons, !length_zip_with. replace (length a `min` length c) with (length a) by lia.
  replace (length a `min` length b) with (length a) by lia. replace (length b `min` length c) with (length a) by lia.
  specialize (IH b c ltac:(lia) ltac:(lia)).
  assert (byte_xor x z = byte_xor (byte_xor x y) (byte_xor y z)) as ->.
  { apply (inj byte_val). rewrite !byte_val_xor, Z.lxor_assoc, <-(Z.lxor_assoc (byte_val y) (byte_val y)).
    by rewrite Z.lxor_nilpotent, Z.lxor_0_l. }
  pose proof (byte_xor_sum (byte_xor x y) (byte_xor y z)). nia.
Qed.
End HashM.
Import HashM.

(** ** [AES.cpp] *)

Module AESM.
Section AES.
Context {CI : Cipher}.

Record AES := mkAES { key : bytes; iv : bytes }.
Definition AES_new : AES := mkAES [] [].
Definition keySize : nat := 16.
Definition vectorSize : nat := keySize * 2.

Definition isPresent (a : AES) : bool :=
  bool_decide (0 < length (key a)) && bool_decide (0 < length (iv a)).

Definition encrypt (a : AES) (data : bytes) : bytes := cbc_encrypt (key a) (iv a) data.
Definition decrypt (a : AES) (data : bytes) : option bytes := cbc_decrypt (key a) (iv a) data.

(** The iterator ranges run past the end of a vector shorter than 32 bytes. *)
#[global] Instance AES_MathString : MathString AES := {|
  ms_new := AES_new;
  setAsBinaryVector _ v :=
    if decide (length v < vectorSize) then Undef out_of_bounds
    else Ret (mkAES (take keySize v) (take (vectorSize - keySize) (drop keySize v)));
  toBinaryVector a := Ret (key a ++ iv a);
|}.

Lemma AES_roundtrip v : length v = 32 →
  ∃ a, fromBinaryVector (T:=AES) v = Ret a ∧ toBinaryVector a = Ret v ∧ isPresent a = true ∧
       length (key a) = 16 ∧ length (iv a) = 16.
Proof.
  intros Hlen. unfold fromBinaryVector. simpl.
  rewrite decide_False by (unfold vectorSize, keySize; lia). eexists. split; [done|].
  unfold isPresent. simpl. rewrite !length_take, length_drop, !Hlen. split; [|done].
  f_equal. assert (length (drop 16 v) = 16) as Hd by (rewrite length_drop, Hlen; done).
  rewrite (take_ge (drop keySize v)) by (unfold keySize, vectorSize in *; lia). apply take_drop.
Qed.

Lemma AES_decrypt_encrypt v a data :
  length v = 32 → fromBinaryVector (T:=AES) v = Ret a → decrypt a (encrypt a data) = Some data.
Proof.
  intros Hlen Ha. destruct (AES_roundtrip v Hlen) as (a' & Ha' & _ & _ & Hk & Hi).
  rewrite Ha' in Ha. injection Ha as <-. by apply cbc_law.
Qed.

Lemma AES_short v : length v < 32 → fromBinaryVector (T:=AES) v = Undef out_of_bounds.
Proof. intros Hlen. unfold fromBinaryVector. simpl. by rewrite decide_True. Qed.
End AES.
End AESM.

(** ** [PrivateKeyDSA.cpp] and [PublicKeyDSA.cpp] *)

Module KeyM.
Section Keys.
Context {BI : BigInt} {EC : ECDSA} {DG : Digest}.

Definition dsa_byte_length : nat := 32.

(** A key object owns a Botan key or, default constructed, none. *)
Definition PrivateKeyDSA : Type := option sk.
Definition PublicKeyDSA : Type := option pk.

(** Copy construction and assignment dereference the other object's pointer. *)
Definition PrivateKeyDSA_copy (r : PrivateKeyDSA) : outcome PrivateKeyDSA :=
  match r with Some s => Ret (Some s) | None => Undef null_deref end.
Definition PublicKeyDSA_copy (r : PublicKeyDSA) : outcome PublicKeyDSA :=
  match r with Some p => Ret (Some p) | None => Undef null_deref end.

Definition PrivateKeyDSA_eq (a b : PrivateKeyDSA) : outcome bool :=
  match a, b with
  | Some a, Some b => Ret (bool_decide (private_value a = private_value b))
  | _, _ => Undef null_deref
  end.

(** [generateKey] with the scalar the RNG chose. *)
Definition generateKey (rng : Z) : PrivateKeyDSA := Some (sk_of_bigint rng).

Definition derivePublicKey (k : PrivateKeyDSA) : outcome PublicKeyDSA :=
  match k with Some s => Ret (Some (pk_of_sk s)) | None => Undef null_deref end.

Definition sign (k : PrivateKeyDSA) (rng data : bytes) : outcome bytes :=
  match k with Some s => Ret (ec_sign s rng data) | None => Undef null_deref end.
Definition verify (k : PublicKeyDSA) (data signature : bytes) : outcome bool :=
  match k with Some p => Ret (ec_verify p data signature) | None => Undef null_deref end.

(** [toBinaryVector]: the scalar's bytes copied, from the back, to the end of a
    32-byte vector. *)
#[global] Instance PrivateKeyDSA_MathString : MathString PrivateKeyDSA := {|
  ms_new := None;
  setAsBinaryVector _ v := Ret (Some (sk_of_bigint (bi_decode v)));
  toBinaryVector k :=
    match k with
    | None => Undef null_deref
    | Some s =>
        let vectorized_val := bi_encode (private_value s) in
        if decide (length vectorized_val ≤ dsa_byte_length)
        then Ret (replicate (dsa_byte_length - length vectorized_val) x00 ++ vectorized_val)
        else Undef out_of_bounds
    end;
|}.

(** [X509::load_key] throws on bytes that are no key. *)
#[global] Instance PublicKeyDSA_MathString : MathString PublicKeyDSA := {|
  ms_new := None;
  setAsBinaryVector _ v :=
    match x509_load v with Some p => Ret p | None => Throw botan_exception end;
  toBinaryVector k := match k with Some p => Ret (x509_ber p) | None => Undef null_deref end;
|}.

(** [Hash(PublicKeyDSA)], also reached from a private key by conversion. *)
Definition Hash_of_public (k : PublicKeyDSA) : outcome Hash :=
  b ← toBinaryString k; Hash_of_key b.
Definition Hash_of_private (k : PrivateKeyDSA) : outcome Hash :=
  p ← derivePublicKey k; Hash_of_public p.

Lemma encode_private_length s : length (bi_encode (private_value s)) ≤ 32.
Proof.
  pose proof (private_value_range s) as Hr.
  pose proof (bi_encode_val (private_value s) ltac:(lia)) as Hv.
  pose proof (bi_encode_min (private_value s) ltac:(lia)) as Hm.
  destruct (bi_encode (private_value s)) as [|b bs] eqn:E; [simpl; lia|].
  assert (b ≠ x00) as Hb by (simpl in Hm; congruence).
  pose proof (be_val_ge_head b bs Hb) as Hge. rewrite Hv in Hge.
  destruct (decide (32 ≤ length bs)) as [Hl|]; [|simpl; lia].
  assert (256 ^ 32 ≤ 256 ^ Z.of_nat (length bs))%Z by (apply Z.pow_le_mono_r; lia).
  change (256 ^ 32)%Z with (2 ^ 256)%Z in *. lia.
Qed.

(** The binary form of a private key has 32 bytes and the key's value. *)
Lemma private_binary s :
  ∃ b, toBinaryVector (Some s : PrivateKeyDSA) = Ret b ∧ length b = 32 ∧ be_val b = private_value s.
Proof.
  pose proof (encode_private_length s) as Hlen. simpl. unfold dsa_byte_length.
  rewrite decide_True by done. eexists. split; [done|].
  rewrite length_app, length_replicate. split; [lia|]. rewrite be_val_zeros.
  apply bi_encode_val. pose proof (private_value_range s). lia.
Qed.

Lemma private_from_binary b s :
  be_val b = private_value s → fromBinaryVector (T:=PrivateKeyDSA) b = Ret (Some s).
Proof. intros Hv. unfold fromBinaryVector. simpl. by rewrite bi_decode_spec, Hv, sk_of_private_value. Qed.

Lemma private_roundtrip s :
  (b ← toBinaryString (Some s : PrivateKeyDSA); fromBinaryString b) = Ret (Some s : PrivateKeyDSA).
Proof.
  unfold toBinaryString, fromBinaryString. destruct (private_binary s) as (b & -> & _ & Hv).
  by apply private_from_binary.
Qed.

(** Private keys survive Base58 although leading zero bytes do not. *)
Lemma private_base58 {CO : Codec} s :
  (t ← toBase58 (Some s : PrivateKeyDSA); fromBase58 t) = Ret (Some s : PrivateKeyDSA).
Proof.
  destruct (private_binary s) as (b & Hb & Hlen & Hv).
  rewrite (fromBase58_toBase58 _ b Hb) by lia.
  apply private_from_binary. by rewrite be_val_strip.
Qed.

Lemma public_roundtrip p :
  (b ← toBinaryString (Some p : PublicKeyDSA); fromBinaryString b) = Ret (Some p : PublicKeyDSA).
Proof. simpl. unfold fromBinaryString, setAsBinaryString. simpl. by rewrite x509_law. Qed.

Lemma verify_sign s rng data :
  (p ← derivePublicKey (Some s); sig ← sign (Some s) rng data; verify p data sig) = Ret true.
Proof. simpl. by rewrite ec_sign_law. Qed.

Lemma Hash_of_private_spec s :
  Hash_of_private (Some s) = Ret (mkHash (keccak224 (x509_ber (pk_of_sk s))) true).
Proof. done. Qed.
End Keys.
End KeyM.

(** ** Small instances of the library interfaces

    They show that the interfaces can be satisfied; no theorem depends on
    them except through its concrete instances. *)

Module Toy.

Definition sk_range (z : Z) : Prop := (0 < z < 2 ^ 256)%Z.
Definition toy_sk : Type := dsig sk_range.

Lemma one_in_range : sk_range 1.
Proof. unfold sk_range. lia. Qed.

Definition toy_of_bigint (z : Z) : toy_sk :=
  match decide (sk_range z) with
  | left H => dexist z H
  | right _ => dexist 1%Z one_in_range
  end.

Lemma toy_of_val (s : toy_sk) : toy_of_bigint (proj1_sig s) = s.
Proof.
  unfold toy_of_bigint. destruct (decide _) as [H|H].
  - by apply dsig_eq.
  - destruct H. apply (proj2_dsig s).
Qed.

Definition toy_load (bs : bytes) : option (option toy_sk) :=
  match bs with [] => None | [_] => Some None | _ => Some (Some (toy_of_bigint (be_val bs))) end.
Lemma toy_load_bytes z : toy_load (be_bytes 32 z) = Some (Some (toy_of_bigint (be_val (be_bytes 32 z)))).
Proof.
  unfold toy_load. pose proof (length_be_bytes 32 z) as Hl.
  destruct (be_bytes 32 z) as [|? [|? ?]]; [discriminate Hl..|done].
Qed.

#[global] Program Instance toy_ECDSA : ECDSA := {|
  sk := toy_sk; pk := toy_sk;
  sk_of_bigint := toy_of_bigint;
  private_value s := proj1_sig s;
  pk_of_sk s := s;
  x509_ber p := be_bytes 32 (proj1_sig p);
  x509_load := toy_load;
  ec_sign s rng msg := be_bytes 32 (proj1_sig s) ++ msg;
  ec_verify p msg sig := bool_decide (sig = be_bytes 32 (proj1_sig p) ++ msg);
|}.
Next Obligation. intros s. apply (proj2_dsig s). Qed.
Next Obligation. apply toy_of_val. Qed.
Next Obligation.
  intros p. cbn beta. rewrite toy_load_bytes, be_val_be_bytes. pose proof (proj2_dsig p) as Hp.
  change (256 ^ Z.of_nat 32)%Z with (2 ^ 256)%Z. rewrite Z.mod_small.
  - do 2 f_equal. apply toy_of_val.
  - destruct Hp as [Hp1 Hp2]. split; [|exact Hp2]. by apply Z.lt_le_incl.
Qed.
Next Obligation. intros. by apply bool_decide_eq_true. Qed.

#[global] Program Instance toy_Digest : Digest := {|
  keccak224 bs := resize 28 x00 bs;
  crc32_process bs := resize 4 x00 bs;
|}.
Next Obligation. intros. apply length_resize. Qed.
Next Obligation. intros. apply length_resize. Qed.

#[global] Program Instance toy_Codec : Codec := {|
  hex_encode bs := bs; hex_decode bs := bs; b64_encode bs := bs; b64_decode bs := bs |}.
Next Obligation. done. Qed.
Next Obligation. done. Qed.

#[global] Program Instance toy_Cipher : Cipher := {|
  cbc_encrypt key iv data := rev data; cbc_decrypt key iv data := Some (rev data) |}.
Next Obligation. intros. cbn beta. f_equal. apply rev_involutive. Qed.

End Toy.

(** ** Properties *)

(** C22 Private keys survive every text form: the key read back from the
    binary, hexadecimal, Base64 or Base58 form of a key is the key, although
    Base58 drops leading zero bytes, because the 32-byte form is a number;
    the binary form always has 32 bytes. *)
Theorem private_key_roundtrips {BI : BigInt} {EC : ECDSA} {CO : Codec} (s : sk) :
  let key : KeyM.PrivateKeyDSA := Some s in
  (b ← toBinaryString key; fromBinaryString b) = Ret key ∧
  (t ← toHex key; fromHex t) = Ret key ∧
  (t ← toBase64 key; fromBase64 t) = Ret key ∧
  (t ← toBase58 key; fromBase58 t) = Ret key ∧
  (∃ b, toBinaryVector key = Ret b ∧ length b = 32 ∧ be_val b = private_value s).
Proof.
  intros key. pose proof (KeyM.private_binary s) as (b & Hb & Hlen & Hv).
  pose proof (KeyM.private_from_binary b s Hv) as Hf.
  split; [apply KeyM.private_roundtrip|].
  split; [unfold key; by erewrite fromHex_toHex|]. split; [unfold key; by erewrite fromBase64_toBase64|].
  split; [apply KeyM.private_base58|]. eauto.
Qed.

Lemma private_key_roundtrips_witness :
  ∃ b, toBinaryVector (Some (Toy.toy_of_bigint 77) : KeyM.PrivateKeyDSA) = Ret b ∧ be_val b = 77%Z.
Proof.
  destruct (private_key_roundtrips (BI := BigInt_Z) (EC := Toy.toy_ECDSA) (CO := Toy.toy_Codec)
    (Toy.toy_of_bigint 77)) as (_ & _ & _ & _ & b & H1 & _ & H2).
  exists b. split; [exact H1|]. rewrite H2. reflexivity.
Defined.

(** C28 Base58 of data of less than [2^30] bytes: encoding always returns, in at
    most twice as many characters, and decoding the result gives the data without its
    leading zero bytes; so a hash read back from its Base58 form is the hash
    exactly when it has no leading zero byte. *)
Theorem base58_roundtrip {BI : BigInt} {CO : Codec} (h : Hash)
    (Hlen : (2 * Z.of_nat (length (hash h)) < 2 ^ 31)%Z) :
  ∃ cs, encodeToBase58 (hash h) = Ret cs ∧ length cs ≤ 2 * length (hash h) ∧
    decodeFromBase58 cs = strip_zeros (hash h) ∧
    (t ← toBase58 h; fromBase58 t) = Ret (mkHash (strip_zeros (hash h)) true) ∧
    (strip_zeros (hash h) = hash h ↔ head (hash h) ≠ Some x00).
Proof.
  destruct (decode_encode (hash h) Hlen) as (cs & He & Hd). exists cs.
  split; [done|]. split; [by apply encode_length|]. split; [done|].
  split; [by rewrite (fromBase58_toBase58 (T:=Hash) h (hash h) ltac:(done) Hlen)|].
  split; [intros <-; apply strip_zeros_head|apply strip_zeros_id].
Qed.

Lemma base58_roundtrip_witness :
  (t ← toBase58 (mkHash [x00; x01; xff] true); fromBase58 t) = Ret (mkHash [x01; xff] true).
Proof.
  destruct (base58_roundtrip (BI := BigInt_Z) (CO := Toy.toy_Codec) (mkHash [x00; x01; xff] true))
    as (cs & _ & _ & _ & H & _).
  - simpl. lia.
  - exact H.
Defined.

(** Text to bytes and back: a string of Base58 characters without leading
    '1' is what encoding its decoded bytes gives, and the decoded bytes hold
    its value in base 58. *)
Theorem base58_parse_print {BI : BigInt} (cs : bytes) (Hlen : (Z.of_nat (length cs) < 2 ^ 31)%Z)
    (Hcs : Forall b58_char cs) (Hh : head cs ≠ Some b58_one) :
  encodeToBase58 (decodeFromBase58 cs) = Ret cs ∧ be_val (decodeFromBase58 cs) = b58_val cs.
Proof.
  split; [by apply encode_decode|]. rewrite decode_spec by done. apply bi_encode_val, b58_val_nonneg.
Qed.

Lemma base58_parse_print_witness :
  encodeToBase58 (decodeFromBase58 (cstr "3Z")) = Ret (cstr "3Z").
Proof.
  refine (proj1 (base58_parse_print (BI := BigInt_Z) (cstr "3Z") _ _ _)).
  - vm_compute. reflexivity.
  - repeat constructor; vm_compute; reflexivity.
  - vm_compute. discriminate.
Defined.

(** C33 The order of hashes is the strict total order [std::map] needs, and on
    hashes of one length the order of the numbers they stand for. *)
Theorem hash_order (a b c : Hash) :
  Hash_lt a a = false ∧
  (Hash_lt a b = true → Hash_lt b c = true → Hash_lt a c = true) ∧
  (Hash_lt a b = true ∨ Hash_eq a b = true ∨ Hash_lt b a = true) ∧
  (length (hash a) = length (hash b) → Hash_lt a b = true ↔ (be_val (hash a) < be_val (hash b))%Z).
Proof.
  split; [apply lex_lt_irrefl|]. split; [apply lex_lt_trans|]. split; [|apply lex_lt_be_val].
  unfold Hash_lt, Hash_eq. rewrite bool_decide_eq_true. apply lex_lt_total.
Qed.

(** C34 [operator^] is the Kademlia distance when its loop variable starts at
    zero: the bytewise exclusive or, the shorter hash padded with zeros at its
    end; symmetric; and zero exactly for hashes that are equal once padded.  On
    hashes of one length it is a metric: zero exactly for equal hashes, with a
    unique hash at every distance, and with the triangle inequality for the
    numbers the distances stand for.  The variable is never initialised, and a
    start value of [i0] forces the first [i0] bytes of every distance to
    zero. *)
Theorem hash_xor_metric (a b c : Hash) :
  let n := length (hash a) `max` length (hash b) in
  let padded h := resize n x00 (hash h) in
  hash (Hash_xor 0 a b) = zip_with byte_xor (padded a) (padded b) ∧
  Hash_xor 0 a b = Hash_xor 0 b a ∧
  (hash (Hash_xor 0 a b) = replicate n x00 ↔ padded a = padded b) ∧
  (length (hash a) = length (hash b) → length (hash a) = length (hash c) →
     (hash (Hash_xor 0 a b) = replicate n x00 ↔ Hash_eq a b = true) ∧
     (hash (Hash_xor 0 a b) = hash (Hash_xor 0 a c) → Hash_eq b c = true) ∧
     (be_val (hash (Hash_xor 0 a c)) ≤ be_val (hash (Hash_xor 0 a b)) + be_val (hash (Hash_xor 0 b c)))%Z) ∧
  (∀ i0 i, i < i0 → i < n → hash (Hash_xor i0 a b) !! i = Some x00).
Proof.
  intros n padded. split; [apply Hash_xor_resize|]. split; [|split; [|split]].
  - pose proof (Hash_xor_resize a b) as E1. pose proof (Hash_xor_resize b a) as E2. cbv zeta in E1, E2.
    rewrite zip_xor_comm, Nat.max_comm, <-E2 in E1. unfold Hash_xor in *. cbn [hash] in E1. by rewrite E1.
  - rewrite Hash_xor_resize. fold n. fold (padded a) (padded b).
    pose proof (zip_xor_zero (padded a) (padded b)) as Hz. unfold padded in Hz at 1 2 5. rewrite !length_resize in Hz. by apply Hz.
  - intros Hab Hac. assert (n = length (hash a)) as -> by (unfold n; lia).
    rewrite !Hash_xor_zip by congruence. unfold Hash_eq. rewrite !bool_decide_eq_true.
    split; [by apply zip_xor_zero|]. split; [|by apply xor_triangle].
    intros E. apply (f_equal (zip_with byte_xor (hash a))) in E. by rewrite !zip_xor_cancel in E by done.
  - intros i0 i Hi Hl. by apply Hash_xor_uninit.
Qed.

Lemma hash_xor_metric_witness :
  Hash_eq (mkHash [x05] true) (mkHash [x05] true) = true ∧
  hash (Hash_xor 0 (mkHash [x01] true) (mkHash [x01; x00] true)) = [x00; x00].
Proof.
  split.
  - apply (proj1 (proj1 (proj1 (proj2 (proj2 (proj2 (hash_xor_metric (mkHash [x05] true) (mkHash [x05] true) (mkHash [x03] true))))) eq_refl eq_refl))). vm_compute. reflexivity.
  - apply (proj2 (proj1 (proj2 (proj2 (hash_xor_metric (mkHash [x01] true) (mkHash [x01; x00] true) (mkHash [] true)))))).
    vm_compute. reflexivity.
Defined.
