(* ===== verification/KeyFormats.v ===== *)
(** * Formats and raw operations of the keys ([common/crypto/PrivateKeyDSA.cpp], [PublicKeyDSA.cpp])

    PEM and BER forms, signatures without padding, public-key encryption,
    validation and the moves of key objects. *)

From S2P Require Import Prelude Base58 Crypto.
Import HashM KeyM.
From Stdlib Require Import ZArith Lia.
From Stdlib.Strings Require Import Byte.

(** Further calls of Botan.  [PKCS8::load_key] reads PEM and BER; like
    [X509::load_key] it throws, or returns a key of some algorithm.  Encryption
    throws ([None]) where the algorithm does not provide it; [None] of
    decryption is the exception on a bad ciphertext. *)
Class KeyFormats {EC : ECDSA} := {
  pkcs8_pem : sk → bytes;
  pkcs8_ber : sk → bytes;
  pkcs8_load : bytes → option (option sk);
  x509_pem : pk → bytes;
  raw_sign : sk → bytes → bytes → bytes;
  raw_verify : pk → bytes → bytes → bool;
  eme_encrypt : string → pk → bytes → bytes → option bytes;
  eme_decrypt : string → sk → bytes → option bytes;
  check_key : pk → bool;
  keccak_name : Z → string;
  raw_law s rng msg : raw_verify (pk_of_sk s) msg (raw_sign s rng msg) = true;
  eme_law pad s rng msg c : eme_encrypt pad (pk_of_sk s) rng msg = Some c → eme_decrypt pad s c = Some msg;
  check_key_law s : check_key (pk_of_sk s) = true;
}.

Section KeyFormats.
Context {EC : ECDSA} {KF : KeyFormats}.

(** [Hash::getAlgoName]: the name of the hasher of a new hash. *)
Definition getAlgoName : string := keccak_name HASH_LENGTH.
Definition eme1 : string := "EME1(" +:+ getAlgoName +:+ ")".

(** What [*key_private] and [*key_public] are. *)
Definition deref {A} (k : option A) : outcome A :=
  match k with Some a => Ret a | None => Undef null_deref end.
(** A call of Botan that can throw. *)
Definition botan {A} (o : option A) : outcome A :=
  match o with Some a => Ret a | None => Throw botan_exception end.

(** *** [PrivateKeyDSA] *)

(** Moves swap the two pointers: (this, rvalue) afterwards. *)
Definition PrivateKeyDSA_move (rvalue : PrivateKeyDSA) : PrivateKeyDSA * PrivateKeyDSA := (rvalue, None).
Definition PrivateKeyDSA_move_assign (this rvalue : PrivateKeyDSA) : PrivateKeyDSA * PrivateKeyDSA := (rvalue, this).

Definition PrivateKeyDSA_decrypt (this : PrivateKeyDSA) (enc_data : bytes) : outcome bytes :=
  s ← deref this; botan (eme_decrypt eme1 s enc_data).
Definition signRaw (this : PrivateKeyDSA) (rng data : bytes) : outcome bytes :=
  s ← deref this; Ret (raw_sign s rng data).
Definition PrivateKeyDSA_fromPEM (this : PrivateKeyDSA) (pem : bytes) : outcome PrivateKeyDSA :=
  botan (pkcs8_load pem).
Definition PrivateKeyDSA_toPEM (this : PrivateKeyDSA) : outcome bytes :=
  s ← deref this; Ret (pkcs8_pem s).
Definition fromBER (this : PrivateKeyDSA) (ber_encoded : bytes) : outcome PrivateKeyDSA :=
  botan (pkcs8_load ber_encoded).
Definition toBER (this : PrivateKeyDSA) : outcome bytes :=
  s ← deref this; Ret (pkcs8_ber s).

(** *** [PublicKeyDSA] *)

Definition PublicKeyDSA_move (rvalue : PublicKeyDSA) : PublicKeyDSA * PublicKeyDSA := (rvalue, None).
Definition PublicKeyDSA_move_assign (this rvalue : PublicKeyDSA) : PublicKeyDSA * PublicKeyDSA := (rvalue, this).
Definition PublicKeyDSA_isPresent (this : PublicKeyDSA) : bool := bool_decide (is_Some this).
Definition PublicKeyDSA_encrypt (this : PublicKeyDSA) (rng data : bytes) : outcome bytes :=
  p ← deref this; botan (eme_encrypt eme1 p rng data).
Definition verifyRaw (this : PublicKeyDSA) (data signature : bytes) : outcome bool :=
  p ← deref this; Ret (raw_verify p data signature).
Definition PublicKeyDSA_fromPEM (this : PublicKeyDSA) (pem : bytes) : outcome PublicKeyDSA :=
  botan (x509_load pem).
Definition PublicKeyDSA_toPEM (this : PublicKeyDSA) : outcome bytes :=
  p ← deref this; Ret (x509_pem p).
Definition validate (this : PublicKeyDSA) : outcome bool :=
  p ← deref this; Ret (check_key p).
End KeyFormats.

(** ** An instance *)

Module ToyFormats.
#[global] Program Instance toy_formats : KeyFormats (EC:=Toy.toy_ECDSA) := {|
  pkcs8_pem s := be_bytes 32 (proj1_sig s);
  pkcs8_ber s := be_bytes 32 (proj1_sig s);
  pkcs8_load := Toy.toy_load;
  x509_pem p := be_bytes 32 (proj1_sig p);
  raw_sign s rng msg := be_bytes 32 (proj1_sig s) ++ msg;
  raw_verify p msg sig := bool_decide (sig = be_bytes 32 (proj1_sig p) ++ msg);
  eme_encrypt pad p rng msg := Some msg;
  eme_decrypt pad s c := Some c;
  check_key p := true;
  keccak_name n := "Keccak-1600(224)";
|}.
Next Obligation. intros. by apply bool_decide_eq_true. Qed.
Next Obligation. by intros ? ? ? ? ? [= ->]. Qed.
Next Obligation. done. Qed.
End ToyFormats.

(** ** Properties *)

(** Reading a key of another algorithm succeeds and takes away the key the
    object held, so that writing or validating it afterwards dereferences a null
    pointer; bytes that are no key throw. *)
Theorem key_read_failures {EC : ECDSA} {KF : KeyFormats} (this : PrivateKeyDSA) (that : PublicKeyDSA) (bs : bytes) :
  (x509_load bs = Some None →
     ∃ k, PublicKeyDSA_fromPEM that bs = Ret k ∧ PublicKeyDSA_isPresent k = false ∧
          PublicKeyDSA_toPEM k = Undef null_deref ∧ validate k = Undef null_deref) ∧
  (pkcs8_load bs = Some None →
     ∃ k, PrivateKeyDSA_fromPEM this bs = Ret k ∧ fromBER this bs = Ret k ∧
          PrivateKeyDSA_toPEM k = Undef null_deref ∧ toBER k = Undef null_deref) ∧
  (pkcs8_load bs = None → PrivateKeyDSA_fromPEM this bs = Throw botan_exception ∧ fromBER this bs = Throw botan_exception).
Proof.
  unfold PrivateKeyDSA_fromPEM, fromBER, PublicKeyDSA_fromPEM. split; [|split].
  - intros ->. by exists None.
  - intros ->. by exists None.
  - by intros ->.
Qed.

(** Raw signatures and encryption: what a key signs its public key verifies,
    what a public key encrypts its private key decrypts, the public key of a
    private key is valid, and a move takes the key and leaves what the target
    held. *)
Theorem raw_operations {EC : ECDSA} {KF : KeyFormats} (s : sk) (rng data c : bytes) (this : PrivateKeyDSA) :
  (p ← derivePublicKey (Some s); sig ← signRaw (Some s) rng data; verifyRaw p data sig) = Ret true ∧
  (p ← derivePublicKey (Some s); validate p) = Ret true ∧
  ((p ← derivePublicKey (Some s); PublicKeyDSA_encrypt p rng data) = Ret c → PrivateKeyDSA_decrypt (Some s) c = Ret data) ∧
  (PrivateKeyDSA_move_assign this (Some s)).1 = (PrivateKeyDSA_move (Some s)).1 ∧
  (PrivateKeyDSA_move_assign this (Some s)).2 = this.
Proof.
  cbn. rewrite raw_law, check_key_law. do 2 (split; [done|]). split; [|done].
  unfold PrivateKeyDSA_decrypt. cbn. intros H. destruct (eme_encrypt _ _ _ _) as [c'|] eqn:E; [|done].
  injection H as ->. by rewrite (eme_law _ _ _ _ _ E).
Qed.
