(* ===== verification/Config.v ===== *)
(** * Configuration ([common/Config.h], [Config.cpp])

    [boost::property_tree] is a library: a parameter [PTree] with the behaviour
    of [put] and [get] the program relies on. *)

From S2P Require Import Prelude Common.
From Stdlib Require Import ZArith Lia.

(** [q] names an ancestor of [p] in the dotted path syntax. *)
Definition path_ancestor (q p : string) : bool := String.prefix (q +:+ ".") p.

(** [put] writes one datum (and creates empty ancestors); [get<T>] converts
    the datum; numbers convert within the range of the type asked for. *)
Class PTree := {
  pt : Type;
  pt_empty : pt;
  pt_put : pt → string → string → pt;
  pt_get : pt → string → option string;
  of_bool : bool → string;
  of_num : N → string;
  to_bool : string → option bool;
  to_num : N → string → option N;
  pt_get_empty p : pt_get pt_empty p = None;
  pt_get_put t p d : pt_get (pt_put t p d) p = Some d;
  pt_get_put_ne t p q d : q ≠ p → path_ancestor q p = false → pt_get (pt_put t p d) q = pt_get t q;
  to_of_bool b : to_bool (of_bool b) = Some b;
  to_of_num m n : (n ≤ m)%N → to_num m (of_num n) = Some n;
}.

Inductive conf_value := VBool (b : bool) | VNum (n : N) | VStr (s : string).

(** The assignments of [initDefaults], in order. *)
Definition default_table : list (string * conf_value) :=
  [ ("policies.outgoing_only", VBool false);
    ("api.unix.enabled", VBool true);
    ("api.unix.user_sock_name", VStr "unix_api.sock");
    ("api.unix.disable_user_sock", VBool false);
    ("api.unix.system_sock_path", VStr "/var/run/p2pnet/unix_api.sock");
    ("transport.udp.enabled", VBool true);
    ("transport.udp.local_ip", VStr "0::0");
    ("transport.udp.port", VNum 2185);
    ("transport.udp.mtu", VNum 1438);
    ("transport.udp.keepalive_timer", VNum 3);
    ("transport.udp.inactivity_timeout", VNum 30);
    ("transport.udp.outgoing_only", VBool false);
    ("overlay.connection.limit", VNum 1000);
    ("overlay.connection.key_rotation_spam_limit", VNum 5);
    ("overlay.connection.timeout", VNum 120);
    ("overlay.key_provider.history_size", VNum 10);
    ("overlay.key_provider.renew_interval", VNum 600);
    ("p2p.allow_loopback", VBool true);
    ("p2p.listen.max_connections", VNum 128);
    ("discovery.bootstrap.filename", VStr "bootstrap.txt");
    ("discovery.udpv4.enabled", VBool true);
    ("discovery.udpv4.timer", VNum 10);
    ("discovery.udpv4.local_ip", VStr "0.0.0.0");
    ("discovery.udpv4.multicast.ip", VStr "239.192.152.144");
    ("discovery.udpv4.multicast.port", VNum 28915);
    ("discovery.udpv6.enabled", VBool true);
    ("discovery.udpv6.timer", VNum 10);
    ("discovery.udpv6.local_ip", VStr "0::0");
    ("discovery.udpv6.multicast.ip", VStr "ff08::BD02");
    ("discovery.udpv6.multicast.port", VNum 28915) ].

Inductive permissions_t := SYSTEM | USER.

(** What the process sees of its environment. *)
Record environment := mkEnv {
  env_config_dir : option string;
  env_home : option string;
  pw_dir : string;
  uid : Z;
}.

Definition getPermissions (e : environment) : permissions_t :=
  if decide (uid e = 0)%Z then SYSTEM else USER.

Definition getDefaultDirectory (e : environment) : string :=
  match env_config_dir e with
  | Some d => d
  | None =>
      match getPermissions e with
      | SYSTEM => "/etc/p2pnet/"
      | USER => (match env_home e with Some h => h | None => pw_dir e end) +:+ "/.p2pnet/"
      end
  end.

Definition getDefaultFile : string := "p2pnet.json".

Section Config.
Context {P : PTree}.

Definition conf_data (v : conf_value) : string :=
  match v with VBool b => of_bool b | VNum n => of_num n | VStr s => s end.

Definition put_all (t : pt) (l : list (string * conf_value)) : pt :=
  foldl (λ t e, pt_put t e.1 (conf_data e.2)) t l.

Definition initDefaults : pt := put_all pt_empty default_table.

Record ConfigManager := mkConfigManager {
  internal_config : pt;
  internal_config_defaults : pt;
  config_directory : string;
  config_file : string;
}.

Definition getDefaults (c : ConfigManager) : pt := internal_config_defaults c.
Definition setDirectory (c : ConfigManager) (d : string) : ConfigManager :=
  mkConfigManager (internal_config c) (internal_config_defaults c) d (config_file c).
Definition setFile (c : ConfigManager) (f : string) : ConfigManager :=
  mkConfigManager (internal_config c) (internal_config_defaults c) (config_directory c) f.
Definition getDirectory (c : ConfigManager) : string := config_directory c.
Definition getFile (c : ConfigManager) : string := config_file c.
Definition resetToDefaults (c : ConfigManager) : ConfigManager :=
  mkConfigManager pt_empty (internal_config_defaults c) (config_directory c) (config_file c).

(** [read_json]: the parsed file, or [None] for a [file_parser_error]. *)
Definition loadFromFile (c : ConfigManager) (read_json : string → option pt) : ConfigManager :=
  mkConfigManager
    (match read_json (config_directory c +:+ config_file c) with
     | Some t => t
     | None => internal_config_defaults c
     end)
    (internal_config_defaults c) (config_directory c) (config_file c).

Definition ConfigManager_new (e : environment) (read_json : string → option pt) : ConfigManager :=
  loadFromFile (mkConfigManager pt_empty initDefaults (getDefaultDirectory e) getDefaultFile) read_json.

(** [ptree::get<T>]. *)
Definition pt_get_as {T} (conv : string → option T) (t : pt) (path : string) : outcome T :=
  match pt_get t path with
  | None => Throw ptree_bad_path
  | Some d => match conv d with Some v => Ret v | None => Throw ptree_bad_data end
  end.

(** [ConfigManager::getValue<T>] (and [ConfigClient::getValue<T>]). *)
Definition getValue {T} (conv : string → option T) (c : ConfigManager) (path : string) : outcome T :=
  try_catch (pt_get_as conv (internal_config c) path)
    (λ e, match e with
          | ptree_bad_path => Some (pt_get_as conv (getDefaults c) path)
          | _ => None
          end).

(** The conversions the program instantiates [getValue] with. *)
Definition as_bool : string → option bool := to_bool.
Definition as_ushort : string → option N := to_num 65535.
Definition as_uint : string → option N := to_num 4294967295.
Definition as_int : string → option N := to_num 2147483647.
Definition as_string (s : string) : option string := Some s.

(** ** Lemmas *)

(** No later entry overwrites an earlier one or makes it an ancestor. *)
Fixpoint table_ok (l : list (string * conf_value)) : bool :=
  match l with
  | [] => true
  | (p, _) :: l =>
      forallb (λ e : string * conf_value, negb (bool_decide (p = e.1)) && negb (path_ancestor p e.1)) l && table_ok l
  end.

Lemma put_all_untouched t l q :
  forallb (λ e : string * conf_value, negb (bool_decide (q = e.1)) && negb (path_ancestor q e.1)) l = true →
  pt_get (put_all t l) q = pt_get t q.
Proof.
  unfold put_all. revert t. induction l as [|[p v] l IH]; intros t H; simpl in *; [done|].
  apply andb_true_iff in H as [[H1 H2]%andb_true_iff H3]. rewrite IH by done.
  apply negb_true_iff, bool_decide_eq_false in H1. apply negb_true_iff in H2.
  by apply pt_get_put_ne.
Qed.

Lemma put_all_get t l p v : table_ok l = true → (p, v) ∈ l → pt_get (put_all t l) p = Some (conf_data v).
Proof.
  revert t. induction l as [|[q w] l IH]; intros t Hok Hin; [by apply elem_of_nil in Hin|].
  simpl in Hok. apply andb_true_iff in Hok as [Hq Hok].
  change (put_all t ((q, w) :: l)) with (put_all (pt_put t q (conf_data w)) l).
  apply elem_of_cons in Hin as [[= -> ->]|Hin]; [|by apply IH].
  rewrite put_all_untouched by done. apply pt_get_put.
Qed.

Lemma default_table_ok : table_ok default_table = true.
Proof. vm_compute. reflexivity. Qed.

Lemma initDefaults_get p v : (p, v) ∈ default_table → pt_get initDefaults p = Some (conf_data v).
Proof. apply put_all_get, default_table_ok. Qed.

Lemma getValue_user {T} (conv : string → option T) c path d :
  pt_get (internal_config c) path = Some d →
  getValue conv c path = match conv d with Some v => Ret v | None => Throw ptree_bad_data end.
Proof. intros H. unfold getValue, pt_get_as. rewrite H. by destruct (conv d). Qed.

Lemma getValue_missing {T} (conv : string → option T) c path :
  pt_get (internal_config c) path = None → getValue conv c path = pt_get_as conv (getDefaults c) path.
Proof. intros H. unfold getValue. unfold pt_get_as at 1. by rewrite H. Qed.

(** The defaults, whether they are reached through the fallback or were copied
    into the configuration because the file could not be read. *)
Lemma getValue_default {T} (conv : string → option T) c path v x :
  internal_config_defaults c = initDefaults → (path, v) ∈ default_table →
  pt_get (internal_config c) path = None ∨ internal_config c = initDefaults →
  conv (conf_data v) = Some x → getValue conv c path = Ret x.
Proof.
  intros Hd Hin Hc Hx. apply initDefaults_get in Hin. destruct Hc as [Hc|Hc].
  - rewrite getValue_missing by done. unfold pt_get_as, getDefaults. by rewrite Hd, Hin, Hx.
  - erewrite getValue_user; [|by rewrite Hc]. by rewrite Hx.
Qed.
End Config.

(** ** A property tree: a finite map from paths *)

#[global] Program Instance PTree_gmap : PTree := {|
  pt := gmap string string;
  pt_empty := ∅;
  pt_put t p d := <[p := d]> t;
  pt_get t p := t !! p;
  of_bool b := if b then "true" else "false";
  of_num := print_dec;
  to_bool s := if decide (s = "true") then Some true else if decide (s = "false") then Some false else None;
  to_num m s := n ← read_dec s; if decide (n ≤ m)%N then Some n else None;
|}.
Next Obligation. done. Qed.
Next Obligation. intros. apply lookup_insert_eq. Qed.
Next Obligation. intros. by apply lookup_insert_ne. Qed.
Next Obligation. by intros []. Qed.
Next Obligation. intros m n H. simpl. rewrite read_print_dec. simpl. by rewrite decide_True. Qed.

(** ** Properties *)

(** Configuration lookup: a path of the user's file wins, and a value there
    that does not convert is an error, never replaced by the default; a path
    the file lacks, of any numeric default entry, yields the
    default of its type, in a fresh manager whose file could not be read, and
    after [resetToDefaults]. *)
Theorem getValue_precedence {P : PTree} (c : ConfigManager) (path : string) (n : N)
    (Hdef : internal_config_defaults c = initDefaults)
    (Hin : (path, VNum n) ∈ default_table) (Hn : (n ≤ 65535)%N) :
  (∀ d, pt_get (internal_config c) path = Some d →
     getValue as_ushort c path = match as_ushort d with Some v => Ret v | None => Throw ptree_bad_data end) ∧
  (pt_get (internal_config c) path = None → getValue as_ushort c path = Ret n) ∧
  getValue as_ushort (resetToDefaults c) path = Ret n ∧
  (∀ e, getValue as_ushort (ConfigManager_new e (λ _, None)) path = Ret n).
Proof.
  assert (as_ushort (conf_data (VNum n)) = Some n) as Hconv by (by apply to_of_num).
  split; [by intros d; apply getValue_user|].
  split; [intros H; eapply getValue_default; eauto|].
  split; [eapply getValue_default; eauto; left; apply pt_get_empty|].
  intros e. eapply getValue_default; eauto; by right.
Qed.

Lemma getValue_precedence_witness :
  getValue as_ushort (resetToDefaults (ConfigManager_new (mkEnv None (Some "/home/u") "" 1000) (λ _, None)))
    "transport.udp.port" = Ret 2185%N.
Proof.
  refine (proj1 (proj2 (proj2 (getValue_precedence
    (ConfigManager_new (mkEnv None (Some "/home/u") "" 1000) (λ _, None)) "transport.udp.port" 2185 _ _ _)))).
  - reflexivity.
  - apply list_elem_of_In. simpl. tauto.
  - lia.
Defined.
