(* ===== verification/ConfigFile.v ===== *)
(** * The configuration on disk ([common/Config.cpp])

    [Config.v] takes the parsed file as an argument.  Here the manager's
    constructor and [loadFromFile] run on a file system: the directory is
    created, the configuration file opened, read and parsed, and the defaults
    written to [defaults.json]. *)

From S2P Require Import Prelude Common Config.
From Stdlib Require Import ZArith Lia.

(** [read_json] and [write_json] of Boost.PropertyTree on text: [None] is a
    [json_parser_error], which a tree with both data and children or a malformed
    text gives. *)
Class JSON {P : PTree} := {
  json_print : pt → option string;
  json_parse : string → option pt;
  json_law t s : json_print t = Some s → json_parse s = Some t;
}.

(** A file, and what the process may do with it. *)
Record file := mkFile { content : string; readable : bool; writable : bool }.
(** [makeable]: directories that exist or can be created; [creatable]: paths at
    which a new file can be created. *)
Record FileSystem := mkFS {
  files : gmap string file;
  makeable : string → bool;
  creatable : string → bool;
}.

Section ConfigFile.
Context {P : PTree} {J : JSON}.

(** [std::fstream file(path)]: the default mode opens for reading and writing,
    and does not create. *)
Definition open_in_out (fs : FileSystem) (path : string) : option string :=
  f ← files fs !! path; if readable f && writable f then Some (content f) else None.

(** [read_json] of that stream; a stream that is not open fails to parse. *)
Definition read_json (fs : FileSystem) (path : string) : option pt :=
  open_in_out fs path ≫= json_parse.

(** [write_json(filename, tree)] opens the file for writing, which creates or
    truncates it, and then prints. *)
Definition write_json (fs : FileSystem) (path : string) (t : pt) : outcome FileSystem :=
  let perms :=
    match files fs !! path with
    | Some f => if writable f then Some (readable f) else None
    | None => if creatable fs path then Some true else None
    end in
  match perms, json_print t with
  | Some r, Some s => Ret (mkFS (<[path := mkFile s r true]> (files fs)) (makeable fs) (creatable fs))
  | _, _ => Throw file_parser_error
  end.

Definition create_directories (fs : FileSystem) (path : string) : outcome unit :=
  if makeable fs path then Ret tt else Throw filesystem_error.

(** [ConfigManager::loadFromFile]: [internal_config_defaults] when the file does
    not open or parse. *)
Definition load (fs : FileSystem) (c : ConfigManager) : outcome ConfigManager :=
  _ ← create_directories fs (config_directory c);
  Ret (mkConfigManager
         (match read_json fs (config_directory c +:+ config_file c) with
          | Some t => t
          | None => internal_config_defaults c
          end)
         (internal_config_defaults c) (config_directory c) (config_file c)).

(** [ConfigManager::ConfigManager]. *)
Definition construct (e : environment) (fs : FileSystem) : outcome (ConfigManager * FileSystem) :=
  c ← load fs (mkConfigManager pt_empty initDefaults (getDefaultDirectory e) getDefaultFile);
  fs' ← write_json fs (config_directory c +:+ "defaults.json") (getDefaults c);
  Ret (c, fs').

(** ** Lemmas *)

Lemma string_app_inj_l (a b c : string) : a +:+ b = a +:+ c → b = c.
Proof. induction a as [|x a IH]; simpl; [done|]. intros [= H]. auto. Qed.

Lemma load_refines fs c c' : load fs c = Ret c' → c' = loadFromFile c (read_json fs).
Proof. unfold load. intros H. apply bind_Ret in H as ([] & _ & [= <-]). done. Qed.

Lemma write_json_spec fs path t fs' : write_json fs path t = Ret fs' →
  (∀ q, q ≠ path → files fs' !! q = files fs !! q) ∧ makeable fs' = makeable fs ∧ creatable fs' = creatable fs ∧
  ∃ s r, json_print t = Some s ∧ files fs' !! path = Some (mkFile s r true) ∧
    ∀ f, files fs !! path = Some f → writable f = true ∧ r = readable f.
Proof.
  unfold write_json. destruct (files fs !! path) as [f|] eqn:Hf.
  - destruct (writable f) eqn:Hw; [|done]. destruct (json_print t) as [s|]; [|done]. intros [= <-]. simpl.
    split; [intros; by rewrite lookup_insert_ne|]. do 2 (split; [done|]).
    eexists _, _. rewrite lookup_insert_eq. do 2 (split; [done|]). intros ? [= <-]. done.
  - destruct (creatable fs path); [|done]. destruct (json_print t) as [s|]; [|done]. intros [= <-]. simpl.
    split; [intros; by rewrite lookup_insert_ne|]. do 2 (split; [done|]).
    eexists _, _. rewrite lookup_insert_eq. by do 2 (split; [done|]).
Qed.

Lemma read_json_other fs fs' path : files fs' !! path = files fs !! path → read_json fs' path = read_json fs path.
Proof. intros H. unfold read_json, open_in_out. by rewrite H. Qed.

Lemma construct_inv e fs c fs' : construct e fs = Ret (c, fs') →
  c = ConfigManager_new e (read_json fs) ∧ makeable fs (getDefaultDirectory e) = true ∧
  write_json fs (getDefaultDirectory e +:+ "defaults.json") initDefaults = Ret fs'.
Proof.
  unfold construct. intros H. apply bind_Ret in H as (c1 & Hl & H). apply bind_Ret in H as (fs1 & Hw & [= <- <-]).
  pose proof (load_refines _ _ _ Hl) as ->. split; [done|]. split; [|done].
  unfold load, create_directories in Hl. simpl in Hl. by destruct (makeable fs (getDefaultDirectory e)).
Qed.

Lemma write_json_again fs path t fs' : write_json fs path t = Ret fs' → write_json fs' path t = Ret fs'.
Proof.
  intros H. destruct (write_json_spec _ _ _ _ H) as (_ & _ & _ & s & r & Hs & Hf & _).
  unfold write_json. rewrite Hf, Hs. cbn [writable readable]. f_equal. destruct fs' as [fi mk cr]. simpl in *.
  f_equal. by apply insert_id.
Qed.
End ConfigFile.

(** ** An instance: a tree as one number *)

Module ToyJSON.
#[global] Program Instance toy_JSON : JSON (P:=PTree_gmap) := {|
  json_print (t : gmap string string) := Some (print_dec (Npos (encode t)));
  json_parse s := n ← read_dec s; match n with N0 => None | Npos p => decode p end;
|}.
Next Obligation.
  intros t s [= <-]. cbn beta. rewrite read_print_dec. cbn [mbind option_bind]. exact (decode_encode t).
Qed.
(** A user's machine without any configuration. *)
Definition env : environment := mkEnv None (Some "/home/u") "" 1000.
Definition fresh : FileSystem := mkFS ∅ (λ _, true) (λ _, true).
Definition defaults_path : string := "/home/u/.p2pnet/defaults.json".
Definition after : FileSystem :=
  mkFS {[defaults_path := mkFile (default "" (json_print initDefaults)) true true]} (λ _, true) (λ _, true).
Lemma construct_fresh : construct env fresh = Ret (ConfigManager_new env (read_json fresh), after).
Proof. reflexivity. Qed.
End ToyJSON.

(** ** Properties *)

(** C26 The configuration on disk: where the constructor returns, the manager is
    the one [Config.v] describes for the files it found, [defaults.json] now
    reads back as the defaults and no other file has changed, and constructing
    again finds and leaves everything as it is.  It throws when the directory
    cannot be made or when a [defaults.json] that is there cannot be written; and a configuration file
    that is readable but not writable is ignored. *)
Theorem config_files {P : PTree} {J : JSON} (e : environment) (fs fs' : FileSystem) (c : ConfigManager) :
  let dir := getDefaultDirectory e in
  (construct e fs = Ret (c, fs') →
     c = ConfigManager_new e (read_json fs) ∧
     (∀ q, q ≠ dir +:+ "defaults.json" → files fs' !! q = files fs !! q) ∧
     (∃ f, files fs' !! (dir +:+ "defaults.json") = Some f ∧ json_parse (content f) = Some initDefaults) ∧
     construct e fs' = Ret (c, fs')) ∧
  (makeable fs dir = false → construct e fs = Throw filesystem_error) ∧
  (∀ f, makeable fs dir = true → files fs !! (dir +:+ "defaults.json") = Some f → writable f = false →
     construct e fs = Throw file_parser_error) ∧
  (∀ f, files fs !! (dir +:+ "p2pnet.json") = Some f → writable f = false →
     internal_config (ConfigManager_new e (read_json fs)) = initDefaults).
Proof.
  intros dir. split; [|split; [|split]].
  - intros H. destruct (construct_inv _ _ _ _ H) as (-> & Hm & Hw).
    destruct (write_json_spec _ _ _ _ Hw) as (Hq & Hmk & _ & s & r & Hs & Hf & _).
    assert (read_json fs' (dir +:+ "p2pnet.json") = read_json fs (dir +:+ "p2pnet.json")) as Hr.
    { apply read_json_other, Hq. by intros ?%string_app_inj_l. }
    split; [done|]. split; [done|]. split; [eexists; split; [exact Hf|]; by apply json_law|].
    unfold construct, load, create_directories. cbn [config_directory config_file internal_config_defaults].
    fold dir. rewrite Hmk. fold dir in Hm. rewrite Hm. cbn [mbind outcome_bind].
    change (dir +:+ getDefaultFile) with (dir +:+ "p2pnet.json").
    cbn [config_directory getDefaults internal_config_defaults].
    fold dir in Hw. rewrite (write_json_again _ _ _ _ Hw). cbn [mbind outcome_bind]. rewrite Hr. done.
  - intros Hm. unfold construct, load, create_directories. cbn [config_directory]. fold dir. by rewrite Hm.
  - intros f Hm Hf Hw. unfold construct, load, create_directories. cbn [config_directory]. fold dir. rewrite Hm.
    cbn [mbind outcome_bind config_directory]. unfold write_json. by rewrite Hf, Hw.
  - intros f Hf Hw. unfold ConfigManager_new, loadFromFile. cbn [internal_config config_directory config_file].
    unfold read_json, open_in_out. change (getDefaultDirectory e +:+ getDefaultFile) with (dir +:+ "p2pnet.json").
    rewrite Hf. cbn [mbind option_bind]. by rewrite Hw, andb_false_r.
Qed.

Lemma config_files_witness :
  construct ToyJSON.env ToyJSON.after = Ret (ConfigManager_new ToyJSON.env (read_json ToyJSON.fresh), ToyJSON.after).
Proof.
  exact (proj2 (proj2 (proj2 (proj1 (config_files ToyJSON.env ToyJSON.fresh ToyJSON.after _) ToyJSON.construct_fresh)))).
Defined.

(** The directory is taken as it stands: a directory given without its final
    separator is a prefix of the file names, so the files are looked for and
    written beside it. *)
Theorem config_directory_separator {P : PTree} {J : JSON} (home pw : string) (u : Z) (fs fs' : FileSystem)
    (c : ConfigManager) (H : construct (mkEnv (Some "/tmp/conf") (Some home) pw u) fs = Ret (c, fs')) :
  config_directory c +:+ config_file c = "/tmp/confp2pnet.json" ∧ is_Some (files fs' !! "/tmp/confdefaults.json").
Proof.
  destruct (construct_inv _ _ _ _ H) as (-> & _ & Hw). split; [done|].
  destruct (write_json_spec _ _ _ _ Hw) as (_ & _ & _ & s & r & _ & Hf & _). by eexists.
Qed.
