(* ===== verification/KBucket.v ===== *)
(** * Kademlia k-buckets ([daemon/dht/KBucket.cpp], [DHTNode.h])

    A bucket is a leaf with a list of node pointers or a pair of buckets one
    bit deeper.  [DHTNode] is abstract: the hash and the reliability of the
    object behind a pointer are parameters. *)

From S2P Require Import Prelude.
From Stdlib Require Import ZArith Lia.
From Stdlib.Strings Require Import Byte.

Inductive Reliability := GOOD | QUESTIONABLE | BAD.

#[global] Instance Reliability_eq_dec : EqDecision Reliability.
Proof. solve_decision. Defined.

(** [DHTNode::getReliability], the body a subclass may call. *)
Definition DHTNode_getReliability : Reliability := GOOD.

(** The data members of [KBucket] other than [split_buckets]. *)
Record kb := mkKb {
  index : Z;
  k : Z;
  bucket_contents : list Z;
  splittable : bool;
  node_hash_ptr : bytes;
}.

Definition set_contents (h : kb) (c : list Z) : kb :=
  mkKb (index h) (k h) c (splittable h) (node_hash_ptr h).

(** [Split] when both pointers of [split_buckets] are set. *)
Inductive KBucket :=
| Leaf (h : kb)
| Split (h : kb) (first second : KBucket).

Definition hdr (b : KBucket) : kb := match b with Leaf h => h | Split h _ _ => h end.

Section KBucket.
Context (getHash : Z → bytes) (getReliability : Z → Reliability).

Definition isSplit (b : KBucket) : bool := match b with Leaf _ => false | Split _ _ _ => true end.

(** The public constructor. *)
Definition KBucket_new (node_hash : bytes) (k : Z) : KBucket := Leaf (mkKb 0 k [] true node_hash).

(** [hash.toBinaryVector()[bit_index / 8] >> (7 - bit_index % 8) & 1]. *)
Definition getBit (hash : bytes) (bit_index : Z) : outcome bool :=
  let split_byte := (bit_index / 8)%Z in
  let split_bit := (bit_index mod 8)%Z in
  match hash !! Z.to_nat split_byte with
  | Some b => Ret (bool_decide (Z.land (Z.shiftr (byte_val b) (7 - split_bit)) 1 ≠ 0)%Z)
  | None => Undef out_of_bounds
  end.

(** Which object [determineBucket] returns. *)
Inductive side := This | First | Second.

Definition determineBucket (b : KBucket) (hash : bytes) : outcome side :=
  match b with
  | Leaf _ => Ret This
  | Split h _ _ => bit ← getBit hash (index h + 1); Ret (if (bit : bool) then Second else First)
  end.

Definition push_back (b : KBucket) (node : Z) : KBucket :=
  match b with
  | Leaf h => Leaf (set_contents h (bucket_contents h ++ [node]))
  | Split h f s => Split (set_contents h (bucket_contents h ++ [node])) f s
  end.

(** [determineBucket(hash)->op()] on the object in place. *)
Definition at_bucket (b : KBucket) (hash : bytes) (op : KBucket → outcome KBucket) : outcome KBucket :=
  sd ← determineBucket b hash;
  match b, sd with
  | Split h f s, First => f' ← op f; Ret (Split h f' s)
  | Split h f s, Second => s' ← op s; Ret (Split h f s')
  | _, _ => op b
  end.

Definition split (b : KBucket) : outcome KBucket :=
  match b with
  | Split _ _ _ => Ret b
  | Leaf h =>
      if splittable h then
        my_hash_bit ← getBit (node_hash_ptr h) (index h + 1);
        let first := Leaf (mkKb (index h + 1) (k h) [] (negb my_hash_bit) (node_hash_ptr h)) in
        let second := Leaf (mkKb (index h + 1) (k h) [] my_hash_bit (node_hash_ptr h)) in
        b' ← foldM (λ b node, at_bucket b (getHash node) (λ c, Ret (push_back c node)))
                   (Split h first second) (bucket_contents h);
        match b' with
        | Split h f s => Ret (Split (set_contents h []) f s)
        | Leaf h => Ret (Leaf (set_contents h []))
        end
      else Ret b
  end.

Definition is_bad (node : Z) : bool := bool_decide (getReliability node = BAD).

(** [cleanup] erases inside the loop and then increments the erased iterator. *)
Fixpoint cleanup_loop (l : list Z) : outcome unit :=
  match l with
  | [] => Ret tt
  | node :: l => if is_bad node then Undef bad_iterator else cleanup_loop l
  end.
Definition cleanup (b : KBucket) : outcome KBucket :=
  _ ← cleanup_loop (bucket_contents (hdr b)); Ret b.

Fixpoint addNode (fuel : nat) (b : KBucket) (node : Z) (force : bool) : outcome KBucket :=
  match fuel with
  | O => OutOfFuel
  | S fuel =>
      match b with
      | Leaf h =>
          if decide (Z.of_nat (length (bucket_contents h)) < k h)%Z then Ret (push_back b node)
          else
            let b := Leaf (set_contents h (remove_if is_bad (bucket_contents h))) in
            let contents := bucket_contents (hdr b) in
            if decide (node ∈ contents) then Ret b
            else if bool_decide (k h ≤ Z.of_nat (length contents))%Z && splittable h then
              b' ← split b;
              at_bucket b' (getHash node) (λ c, addNode fuel c node force)
            else if bool_decide (Z.of_nat (length contents) < k h)%Z || force then Ret (push_back b node)
            else Ret b
      | Split _ _ _ => at_bucket b (getHash node) (λ c, addNode fuel c node force)
      end
  end.

Fixpoint removeNode (b : KBucket) (node : Z) : outcome KBucket :=
  match b with
  | Leaf h => Ret (Leaf (set_contents h (erase_first node (bucket_contents h))))
  | Split h f s =>
      bit ← getBit (getHash node) (index h + 1);
      if (bit : bool) then s' ← removeNode s node; Ret (Split h f s')
      else f' ← removeNode f node; Ret (Split h f' s)
  end.

(** The loop of [getClosest] on a leaf: [it] stays at [begin()]. *)
Fixpoint getClosest_loop (fuel : nat) (n i : Z) (contents result_list : list Z) : outcome (list Z) :=
  match fuel with
  | O => OutOfFuel
  | S fuel =>
      if bool_decide (i < n)%Z || negb (bool_decide (contents = [])) then
        match contents with
        | [] => Undef past_end
        | node :: _ =>
            if decide (i = INT_MAX)%Z then Undef signed_overflow
            else getClosest_loop fuel n (i + 1) contents (result_list ++ [node])
        end
      else Ret result_list
  end.

Fixpoint getClosest (fuel : nat) (b : KBucket) (hash : bytes) (n : Z) : outcome (list Z) :=
  match b with
  | Leaf h => getClosest_loop fuel n 0 (bucket_contents h) []
  | Split h f s =>
      bit ← getBit hash (index h + 1);
      result_list ← (if (bit : bool) then getClosest fuel s hash n else getClosest fuel f hash n);
      if decide (Z.of_nat (length result_list) < u64 n)%Z then
        appendix ← (if (bit : bool) then getClosest fuel f hash n else getClosest fuel s hash n);
        Ret (result_list ++ appendix)
      else Ret result_list
  end.

(** [node_list] is the [std::set] in iteration order. *)
Definition rebuild (fuel : nat) (b : KBucket) (node_hash : bytes) (node_list : list Z) : outcome KBucket :=
  foldM (λ b node, addNode fuel b node false) (Leaf (set_contents (hdr b) [])) node_list.

Fixpoint count (b : KBucket) : Z :=
  match b with
  | Leaf h => Z.of_nat (length (bucket_contents h))
  | Split _ f s => count f + count s
  end.

(** ** Specification *)

Fixpoint nodes (b : KBucket) : list Z :=
  match b with
  | Leaf h => bucket_contents h
  | Split _ f s => nodes f ++ nodes s
  end.

(** Bit [i] of a hash, most significant first. *)
Definition bit_at (hash : bytes) (i : Z) : bool :=
  match hash !! Z.to_nat (i / 8) with
  | Some b => Z.testbit (byte_val b) (7 - i mod 8)
  | None => false
  end.

Definition same_hdr (h1 h2 : kb) : Prop :=
  index h1 = index h2 ∧ k h1 = k h2 ∧ splittable h1 = splittable h2 ∧ node_hash_ptr h1 = node_hash_ptr h2.

(** Hashes have [L] bytes. *)
Context (L : nat).

Definition hash_ok (node : Z) : Prop := length (getHash node) = L.

Definition hdr_ok (h : kb) : Prop :=
  (0 ≤ index h < 8 * Z.of_nat L)%Z ∧ length (node_hash_ptr h) = L.

Definition child_of (h : kb) (sp : bool) (c : KBucket) : Prop :=
  same_hdr (mkKb (index h + 1) (k h) [] sp (node_hash_ptr h)) (hdr c).

(** The shape of the tree: levels count the bits, only buckets on the path of
    the own hash are splittable, and a node is on the side its bit names. *)
Fixpoint wf (b : KBucket) : Prop :=
  match b with
  | Leaf h => hdr_ok h ∧ Forall hash_ok (bucket_contents h)
  | Split h f s =>
      let my_bit := bit_at (node_hash_ptr h) (index h + 1) in
      hdr_ok h ∧ (index h + 1 < 8 * Z.of_nat L)%Z ∧ bucket_contents h = [] ∧ splittable h = true ∧
      child_of h (negb my_bit) f ∧ child_of h my_bit s ∧ wf f ∧ wf s ∧
      Forall (λ p, bit_at (getHash p) (index h + 1) = false) (nodes f) ∧
      Forall (λ p, bit_at (getHash p) (index h + 1) = true) (nodes s)
  end.

(** Every bucket of the tree with the bits that lead to it, and the bits of a
    hash that choose among the buckets [n] levels below level [i]. *)
Fixpoint subtrees (b : KBucket) : list (list bool * KBucket) :=
  ([], b) :: match b with
             | Leaf _ => []
             | Split _ f s => (prod_map (cons false) id <$> subtrees f) ++ (prod_map (cons true) id <$> subtrees s)
             end.
Fixpoint bits_from (hash : bytes) (i : Z) (n : nat) : list bool :=
  match n with O => [] | S n => bit_at hash (i + 1) :: bits_from hash (i + 1) n end.

(** The leaf a hash belongs to, and all leaves. *)
Fixpoint leaf_for (b : KBucket) (hash : bytes) : kb :=
  match b with
  | Leaf h => h
  | Split h f s => if bit_at hash (index h + 1) then leaf_for s hash else leaf_for f hash
  end.
Fixpoint leaves (b : KBucket) : list kb :=
  match b with Leaf h => [h] | Split _ f s => leaves f ++ leaves s end.

Fixpoint capacity (b : KBucket) : Prop :=
  match b with
  | Leaf h => (Z.of_nat (length (bucket_contents h)) ≤ k h)%Z
  | Split _ f s => capacity f ∧ capacity s
  end.

Lemma land_shiftr_testbit z i :
  (0 ≤ i)%Z → bool_decide (Z.land (Z.shiftr z i) 1 ≠ 0)%Z = Z.testbit z i.
Proof.
  intros Hi. assert (Z.land (Z.shiftr z i) 1 = Z.b2z (Z.testbit z i)) as ->.
  { change 1%Z with (Z.ones 1). rewrite Z.land_ones by lia. change (2 ^ 1)%Z with 2%Z.
    rewrite <-Z.bit0_mod. by rewrite Z.shiftr_spec, Z.add_0_l by lia. }
  by destruct (Z.testbit z i).
Qed.

Lemma getBit_spec hash i :
  getBit hash i = if decide (Z.to_nat (i / 8) < length hash) then Ret (bit_at hash i) else Undef out_of_bounds.
Proof.
  unfold getBit, bit_at. destruct (hash !! Z.to_nat (i / 8)) as [b|] eqn:E.
  - rewrite decide_True by (by eapply lookup_lt_Some). f_equal. apply land_shiftr_testbit.
    pose proof (Z.mod_pos_bound i 8). lia.
  - rewrite decide_False; [done|]. apply lookup_ge_None in E. lia.
Qed.

Lemma bit_in_range i : (0 ≤ i)%Z → Z.to_nat (i / 8) < L ↔ (i < 8 * Z.of_nat L)%Z.
Proof. intros. pose proof (Z.div_mod i 8). pose proof (Z.mod_pos_bound i 8). lia. Qed.

Lemma getBit_ok hash i :
  length hash = L → (0 ≤ i < 8 * Z.of_nat L)%Z → getBit hash i = Ret (bit_at hash i).
Proof. intros Hl Hi. rewrite getBit_spec, Hl, decide_True; [done|]. apply bit_in_range; lia. Qed.

Lemma getBit_Ret hash i bit :
  length hash = L → (0 ≤ i)%Z → getBit hash i = Ret bit → (i < 8 * Z.of_nat L)%Z ∧ bit = bit_at hash i.
Proof.
  intros Hl Hi. rewrite getBit_spec, Hl. case_decide as Hd; intros [= <-].
  split; [|done]. by apply bit_in_range.
Qed.

Lemma count_nodes b : count b = Z.of_nat (length (nodes b)).
Proof. induction b as [|h f IHf s IHs]; simpl; [done|]. rewrite IHf, IHs, length_app. lia. Qed.

Lemma same_hdr_refl h : same_hdr h h.
Proof. done. Qed.
Lemma same_hdr_trans h1 h2 h3 : same_hdr h1 h2 → same_hdr h2 h3 → same_hdr h1 h3.
Proof. intros (?&?&?&?) (?&?&?&?). repeat split; congruence. Qed.
Lemma wf_hdr b : wf b → hdr_ok (hdr b).
Proof. destruct b; simpl; tauto. Qed.

Lemma wf_hashes b : wf b → Forall hash_ok (nodes b).
Proof. induction b as [|h f IHf s IHs]; simpl; [tauto|]. intros. apply Forall_app. tauto. Qed.

(** What [wf] says of a bucket [c] that the bits [π] lead to from a bucket with
    header [h]. *)
Definition placed (h : kb) (π : list bool) (c : KBucket) : Prop :=
  index (hdr c) = (index h + Z.of_nat (length π))%Z ∧ k (hdr c) = k h ∧ node_hash_ptr (hdr c) = node_hash_ptr h ∧
  (splittable (hdr c) = true ↔ splittable h = true ∧ π = bits_from (node_hash_ptr h) (index h) (length π)) ∧
  Forall (λ p, bits_from (getHash p) (index h) (length π) = π) (nodes c).

Lemma placed_here b : placed (hdr b) [] b.
Proof. split; [simpl; lia|]. do 2 (split; [done|]). split; [simpl; tauto|]. by apply Forall_true. Qed.

Lemma placed_child (bit : bool) h d π c : let my_bit := bit_at (node_hash_ptr h) (index h + 1) in
  splittable h = true → child_of h (if bit then my_bit else negb my_bit) d →
  Forall (λ p, bit_at (getHash p) (index h + 1) = bit) (nodes c) →
  placed (hdr d) π c → placed h (bit :: π) c.
Proof.
  intros my_bit Hsp (Hi & Hk & Hs & Hn) Hb (H1 & H2 & H3 & H4 & H5). cbn [index k splittable node_hash_ptr] in *.
  rewrite <-Hi, <-Hk, <-Hs, <-Hn in *. unfold placed. cbn [length bits_from]. split; [lia|]. do 2 (split; [done|]). split.
  - rewrite H4, Hsp. fold my_bit. clearbody my_bit. generalize (bits_from (node_hash_ptr h) (index h + 1) (length π)).
    intros l. destruct bit, my_bit; cbn [negb]; split; intros [E1 E2]; simplify_eq; done.
  - rewrite Forall_forall in *. intros p Hp. by rewrite (Hb p Hp), (H5 p Hp).
Qed.

Lemma elem_of_subtrees h f s π c : (π, c) ∈ subtrees (Split h f s) ↔
  (π = [] ∧ c = Split h f s) ∨ (∃ π', π = false :: π' ∧ (π', c) ∈ subtrees f) ∨ (∃ π', π = true :: π' ∧ (π', c) ∈ subtrees s).
Proof.
  cbn [subtrees]. rewrite elem_of_cons, elem_of_app, !list_elem_of_fmap. split.
  - intros [[= -> ->]|[([π' c'] & [= -> ->] & H)|([π' c'] & [= -> ->] & H)]]; eauto 6.
  - intros [[-> ->]|[(π' & -> & H)|(π' & -> & H)]]; [by left|right; left; by exists (π', c)|right; right; by exists (π', c)].
Qed.
Lemma subtrees_nodes b π c : (π, c) ∈ subtrees b → nodes c ⊆ nodes b.
Proof.
  revert π c. induction b as [h|h f IHf s IHs]; intros π c.
  - by intros [= -> ->]%list_elem_of_singleton.
  - rewrite elem_of_subtrees. cbn [nodes]. intros [[-> ->]|[(π' & -> & H)|(π' & -> & H)]]; [done|apply IHf in H|apply IHs in H]; set_solver.
Qed.

Lemma wf_subtrees b π c : wf b → (π, c) ∈ subtrees b → placed (hdr b) π c.
Proof.
  revert π c. induction b as [h|h f IHf s IHs]; intros π c Hwf Hin.
  { apply list_elem_of_singleton in Hin as [= -> ->]. apply (placed_here (Leaf h)). }
  destruct Hwf as (_ & _ & _ & Hsp & Cf & Cs & Hf & Hs & Bf & Bs). rewrite Forall_forall in Bf, Bs.
  apply elem_of_subtrees in Hin as [[-> ->]|[(π' & -> & Hin)|(π' & -> & Hin)]]; [apply (placed_here (Split h f s))|..].
  - apply (placed_child false h f); [done|done| |by apply IHf].
    apply Forall_forall. intros p Hp. by apply Bf, (subtrees_nodes f π' c Hin).
  - apply (placed_child true h s); [done|done| |by apply IHs].
    apply Forall_forall. intros p Hp. by apply Bs, (subtrees_nodes s π' c Hin).
Qed.

Lemma capacity_leaves b kk : wf b → k (hdr b) = kk → capacity b ↔ Forall (λ h, (Z.of_nat (length (bucket_contents h)) ≤ kk)%Z) (leaves b).
Proof.
  revert kk. induction b as [h|h f IHf s IHs]; intros kk Hwf Hk; cbn [capacity leaves].
  - cbn in Hk. subst kk. by rewrite Forall_singleton.
  - destruct Hwf as (_ & _ & _ & _ & (_ & Kf & _) & (_ & Ks & _) & Hf & Hs & _). cbn in Hk, Kf, Ks.
    rewrite Forall_app, (IHf kk), (IHs kk); [done|done|congruence|done|congruence].
Qed.

(** ** [split] *)

Definition side_nodes (bit : bool) (i : Z) (l : list Z) : list Z :=
  filter (λ p, bit_at (getHash p) i = bit) l.

Lemma side_nodes_perm i l : side_nodes false i l ++ side_nodes true i l ≡ₚ l.
Proof.
  unfold side_nodes. induction l as [|x l IH]; [done|].
  rewrite !filter_cons. destruct (bit_at (getHash x) i) eqn:E; repeat case_decide; simplify_eq/=.
  - rewrite <-Permutation_middle. by constructor.
  - by constructor.
Qed.

Lemma Forall_side_nodes bit i l : Forall (λ p, bit_at (getHash p) i = bit) (side_nodes bit i l).
Proof. apply Forall_forall. intros x. unfold side_nodes.
  by intros [? _]%list_elem_of_filter. Qed.

Definition child (h : kb) (sp : bool) (c : list Z) : KBucket :=
  Leaf (mkKb (index h + 1) (k h) c sp (node_hash_ptr h)).

Lemma at_bucket_Split h f s hash op bit :
  getBit hash (index h + 1) = Ret bit →
  at_bucket (Split h f s) hash op =
    if bit then s' ← op s; Ret (Split h f s') else f' ← op f; Ret (Split h f' s).
Proof. intros E. unfold at_bucket. simpl. rewrite E. simpl. by destruct bit. Qed.

Lemma split_loop h sp1 sp2 c1 c2 l :
  hdr_ok h → (index h + 1 < 8 * Z.of_nat L)%Z → Forall hash_ok l →
  foldM (λ b node, at_bucket b (getHash node) (λ c, Ret (push_back c node)))
    (Split h (child h sp1 c1) (child h sp2 c2)) l =
  Ret (Split h (child h sp1 (c1 ++ side_nodes false (index h + 1) l))
               (child h sp2 (c2 ++ side_nodes true (index h + 1) l))).
Proof.
  intros [Hi _] Hlt. revert c1 c2. induction l as [|x l IH]; intros c1 c2 Hl.
  { simpl. by rewrite !app_nil_r. }
  inversion Hl as [|?? Hx Hl']; subst. cbn [foldM].
  pose proof (getBit_ok (getHash x) (index h + 1) Hx ltac:(lia)) as Hb.
  rewrite (at_bucket_Split _ _ _ _ _ _ Hb).
  unfold side_nodes in *. rewrite !filter_cons.
  destruct (bit_at (getHash x) (index h + 1)) eqn:E; simpl;
    (etransitivity; [by apply IH|]); by rewrite <-app_assoc.
Qed.

Lemma split_spec h :
  wf (Leaf h) → splittable h = true → (index h + 1 < 8 * Z.of_nat L)%Z →
  let my_bit := bit_at (node_hash_ptr h) (index h + 1) in
  split (Leaf h) =
    Ret (Split (set_contents h [])
           (child h (negb my_bit) (side_nodes false (index h + 1) (bucket_contents h)))
           (child h my_bit (side_nodes true (index h + 1) (bucket_contents h)))).
Proof.
  intros [Hh Hc] Hs Hlt my_bit. simpl. rewrite Hs. pose proof Hh as [Hi Hl].
  rewrite getBit_ok by (done || lia). simpl.
  pose proof (split_loop h (negb my_bit) my_bit [] [] (bucket_contents h) Hh Hlt Hc) as E.
  unfold child, my_bit in E. simpl in E. rewrite E. done.
Qed.

Lemma split_Ret_range h b' :
  wf (Leaf h) → splittable h = true → split (Leaf h) = Ret b' → (index h + 1 < 8 * Z.of_nat L)%Z.
Proof.
  intros [[Hi Hl] _] Hs H. simpl in H. rewrite Hs in H.
  apply bind_Ret in H as (bit & Hb & _). apply getBit_Ret in Hb; [tauto|done|lia].
Qed.

Lemma wf_split h b' :
  wf (Leaf h) → splittable h = true → split (Leaf h) = Ret b' →
  wf b' ∧ same_hdr h (hdr b') ∧ nodes b' ≡ₚ bucket_contents h ∧ isSplit b' = true ∧
  ((Z.of_nat (length (bucket_contents h)) ≤ k h)%Z → capacity b').
Proof.
  intros Hwf Hs H. pose proof (split_Ret_range h b' Hwf Hs H) as Hlt.
  rewrite split_spec in H by done. injection H as <-. destruct Hwf as [[Hi Hl] Hc].
  assert (∀ bit, Forall hash_ok (side_nodes bit (index h + 1) (bucket_contents h))) as Hsub.
  { intros bit. rewrite Forall_forall in *. intros p. unfold side_nodes.
    rewrite list_elem_of_filter. naive_solver. }
  split.
  - simpl. repeat split; simpl; try done; try lia; try apply Hsub; apply Forall_side_nodes.
  - split; [done|]. split; [apply side_nodes_perm|]. split; [done|]. simpl. intros Hk.
    pose proof (length_filter (λ p, bit_at (getHash p) (index h + 1) = false) (bucket_contents h)).
    pose proof (length_filter (λ p, bit_at (getHash p) (index h + 1) = true) (bucket_contents h)).
    unfold side_nodes. lia.
Qed.

(** ** [at_bucket]: an operation on one child keeps the tree well formed *)

Lemma at_bucket_inv h f s node op b' :
  wf (Split h f s) → hash_ok node → at_bucket (Split h f s) (getHash node) op = Ret b' →
  (bit_at (getHash node) (index h + 1) = false ∧ ∃ f', op f = Ret f' ∧ b' = Split h f' s) ∨
  (bit_at (getHash node) (index h + 1) = true ∧ ∃ s', op s = Ret s' ∧ b' = Split h f s').
Proof.
  intros Hwf Hn H. destruct Hwf as ([Hi _] & Hlt & _).
  pose proof (getBit_ok (getHash node) (index h + 1) Hn ltac:(lia)) as Hb.
  rewrite (at_bucket_Split _ _ _ _ _ _ Hb) in H. clear Hb.
  destruct (bit_at (getHash node) (index h + 1)) eqn:E; simpl in H; inv_ret; subst; [right|left]; eauto.
Qed.

Definition grows (node : Z) (b b' : KBucket) : Prop :=
  wf b' ∧ same_hdr (hdr b) (hdr b') ∧ ∀ p, p ∈ nodes b' → p = node ∨ p ∈ nodes b.

Lemma Forall_grow (P : Z → Prop) node l l' :
  Forall P l → P node → (∀ p, p ∈ l' → p = node ∨ p ∈ l) → Forall P l'.
Proof. rewrite !Forall_forall. naive_solver. Qed.

Lemma at_bucket_grows h f s node op b' :
  wf (Split h f s) → hash_ok node →
  (∀ c c', wf c → op c = Ret c' → grows node c c') →
  at_bucket (Split h f s) (getHash node) op = Ret b' → grows node (Split h f s) b'.
Proof.
  intros Hwf Hn Hop H. pose proof Hwf as (Hh & Hlt & Hnil & Hsp & Hcf & Hcs & Hf & Hs & Hbf & Hbs).
  destruct (at_bucket_inv h f s node op b' Hwf Hn H) as [[Hb (c' & Ho & ->)]|[Hb (c' & Ho & ->)]];
    apply Hop in Ho as (Hw' & Hhd & Hin); try done.
  - split; [|split; [done|]].
    + simpl. do 4 (split; [done|]). split; [by eapply same_hdr_trans|]. do 3 (split; [done|]).
      split; [|done]. by eapply Forall_grow.
    + simpl. intros p. rewrite !elem_of_app. intros [Hp|Hp]; [apply Hin in Hp|]; tauto.
  - split; [|split; [done|]].
    + simpl. do 5 (split; [done|]). split; [by eapply same_hdr_trans|]. do 3 (split; [done|]).
      by eapply Forall_grow.
    + simpl. intros p. rewrite !elem_of_app. intros [Hp|Hp]; [|apply Hin in Hp]; tauto.
Qed.

(** ** [addNode] *)

(** A full leaf after [std::remove_if]. *)
Definition cleaned (h : kb) : kb := set_contents h (remove_if is_bad (bucket_contents h)).

Lemma wf_set_contents h c :
  wf (Leaf h) → Forall hash_ok c → wf (Leaf (set_contents h c)).
Proof. intros [Hh _] Hc. split; [exact Hh|exact Hc]. Qed.

Lemma wf_push h node : wf (Leaf h) → hash_ok node → grows node (Leaf h) (push_back (Leaf h) node).
Proof.
  intros Hwf Hn. split; [|split; [done|]].
  - apply wf_set_contents; [done|]. apply Forall_app. split; [apply Hwf|]. by constructor.
  - simpl. intros p. rewrite elem_of_app, list_elem_of_singleton. tauto.
Qed.

Lemma wf_cleaned h node : wf (Leaf h) → grows node (Leaf h) (Leaf (cleaned h)).
Proof.
  intros Hwf. split; [|split; [done|]].
  - apply wf_set_contents; [done|]. destruct Hwf as [_ Hc]. rewrite Forall_forall in *.
    intros p Hp. by apply Hc, (elem_of_remove_if is_bad).
  - simpl. intros p Hp. right. by apply (elem_of_remove_if is_bad).
Qed.

Lemma grows_trans node b1 b2 b3 :
  grows node b1 b2 → grows node b2 b3 → grows node b1 b3.
Proof.
  intros (_ & H1 & Hn1) (Hw & H2 & Hn2). split; [done|]. split; [by eapply same_hdr_trans|].
  intros p Hp. apply Hn2 in Hp as [|Hp]; auto.
Qed.

(** The three ways [addNode] ends on a leaf with enough fuel. *)
Lemma addNode_leaf fuel h node force b' :
  addNode (S fuel) (Leaf h) node force = Ret b' →
  ((Z.of_nat (length (bucket_contents h)) < k h)%Z ∧ b' = push_back (Leaf h) node) ∨
  ((k h ≤ Z.of_nat (length (bucket_contents h)))%Z ∧
    ((node ∈ bucket_contents (cleaned h) ∧ b' = Leaf (cleaned h)) ∨
     ((node ∉ bucket_contents (cleaned h)) ∧ splittable h = false ∧
       b' = if force then push_back (Leaf (cleaned h)) node else Leaf (cleaned h)) ∨
     ((node ∉ bucket_contents (cleaned h)) ∧ splittable h = true ∧ ∃ b1, split (Leaf (cleaned h)) = Ret b1 ∧
       at_bucket b1 (getHash node) (λ c, addNode fuel c node force) = Ret b'))).
Proof.
  cbn [addNode]. case_decide as Hsz; [intros [= <-]; auto|]. intros H. right. split; [lia|].
  cbn [hdr bucket_contents set_contents] in H. fold (cleaned h) in H.
  change (remove_if is_bad (bucket_contents h)) with (bucket_contents (cleaned h)) in H.
  case_decide as Hin; [injection H as <-; auto|].
  assert (length (bucket_contents (cleaned h)) = length (bucket_contents h)) as Hlen
    by apply length_remove_if.
  rewrite Hlen, bool_decide_true, bool_decide_false in H by lia.
  destruct (splittable h) eqn:Hs; cbn [andb orb] in H.
  - right. right. apply bind_Ret in H as (b1 & H1 & H2). split; [done|]. split; [done|]. by exists b1.
  - right. left. destruct force; injection H as <-; auto.
Qed.

Lemma addNode_grows fuel node force b b' :
  hash_ok node → wf b → addNode fuel b node force = Ret b' → grows node b b'.
Proof.
  intros Hn. revert b b'. induction fuel as [|fuel IH]; intros b b' Hwf H; [done|].
  destruct b as [h|h f s]; [|by eapply at_bucket_grows; eauto].
  pose proof (wf_cleaned h node Hwf) as Hg.
  apply addNode_leaf in H as [[_ ->]|[_ [[_ ->]|[(_ & _ & ->)|(_ & Hs & b1 & H1 & H2)]]]].
  - by apply wf_push.
  - done.
  - destruct force; [|done]. eapply grows_trans; [done|]. apply wf_push; [apply Hg|done].
  - eapply grows_trans; [exact Hg|].
    destruct (wf_split (cleaned h) b1 (proj1 Hg) Hs H1) as (Hw1 & Hh1 & Hp1 & Hsp & _).
    eapply grows_trans with b1.
    + split; [done|]. split; [done|]. intros p Hp. right. simpl. by rewrite <-Hp1.
    + destruct b1 as [|h1 f1 s1]; [done|]. by eapply at_bucket_grows; eauto.
Qed.

(** Without force no leaf outgrows [k]. *)
Lemma addNode_capacity fuel node b b' :
  hash_ok node → wf b → capacity b → addNode fuel b node false = Ret b' → capacity b'.
Proof.
  intros Hn. revert b b'. induction fuel as [|fuel IH]; intros b b' Hwf Hcap H; [done|].
  assert (∀ h f s, wf (Split h f s) → capacity (Split h f s) →
    at_bucket (Split h f s) (getHash node) (λ c, addNode fuel c node false) = Ret b' → capacity b') as Hat.
  { intros h f s Hw [Hcf Hcs] Ha.
    destruct (at_bucket_inv h f s node _ b' Hw Hn Ha) as [[_ (c & Hc & ->)]|[_ (c & Hc & ->)]];
      destruct Hw as (_ & _ & _ & _ & _ & _ & Hf & Hs & _); split; eauto. }
  destruct b as [h|h f s]; [|by eapply Hat].
  pose proof (wf_cleaned h node Hwf) as [Hwc _]. pose proof (length_remove_if is_bad (bucket_contents h)) as Hl.
  apply addNode_leaf in H as [[Hlt ->]|[_ [[_ ->]|[(_ & _ & ->)|(_ & Hs & b1 & H1 & H2)]]]]; simpl in *.
  - rewrite length_app. simpl. lia.
  - lia.
  - lia.
  - destruct (wf_split (cleaned h) b1 Hwc Hs H1) as (Hw1 & _ & _ & Hsp & Hc1).
    destruct b1 as [|h1 f1 s1]; [done|]. eapply Hat; [done| |done]. apply Hc1. simpl. lia.
Qed.

(** The leaf of [node] is full, and stores the node already or may not be
    split. *)
Definition refused (node : Z) (force : bool) (b : KBucket) : Prop :=
  let h := leaf_for b (getHash node) in
  (k h ≤ Z.of_nat (length (bucket_contents h)))%Z ∧
  (node ∈ bucket_contents h ∨ force = false ∧ splittable h = false).

(** What [addNode] does to the stored pointers when no stored node is BAD. *)
Lemma addNode_perm fuel node force b b' :
  hash_ok node → wf b → Forall (λ p, is_bad p = false) (nodes b) →
  addNode fuel b node force = Ret b' →
  nodes b' ≡ₚ node :: nodes b ∨ (nodes b' ≡ₚ nodes b ∧ refused node force b').
Proof.
  intros Hn. revert b b'. induction fuel as [|fuel IH]; intros b b' Hwf Hgood H; [done|].
  assert (∀ h f s, wf (Split h f s) → Forall (λ p, is_bad p = false) (nodes (Split h f s)) →
    at_bucket (Split h f s) (getHash node) (λ c, addNode fuel c node force) = Ret b' →
    nodes b' ≡ₚ node :: nodes (Split h f s) ∨
    (nodes b' ≡ₚ nodes (Split h f s) ∧ refused node force b')) as Hat.
  { intros h f s Hw Hg Ha. simpl in Hg. apply Forall_app in Hg as [Hgf Hgs].
    destruct (at_bucket_inv h f s node _ b' Hw Hn Ha) as [[Hb (c & Hc & ->)]|[Hb (c & Hc & ->)]];
      destruct Hw as (_ & _ & _ & _ & _ & _ & Hf & Hs & _); unfold refused; cbn [nodes leaf_for]; rewrite Hb.
    - apply IH in Hc as [->|[-> Hx]]; try done; [by left|by right].
    - apply IH in Hc as [->|[-> Hx]]; try done; [left|by right].
      by rewrite Permutation_middle. }
  destruct b as [h|h f s]; [|by apply Hat].
  pose proof (wf_cleaned h node Hwf) as [Hwc _].
  assert (bucket_contents (cleaned h) = bucket_contents h) as Hcl by (by apply remove_if_none).
  assert (Z.of_nat (length (bucket_contents (cleaned h))) = Z.of_nat (length (bucket_contents h))) as Hlen by (by rewrite Hcl).
  apply addNode_leaf in H as [[_ ->]|[Hfull [[Hin ->]|[(_ & Hs & ->)|(_ & Hs & b1 & H1 & H2)]]]].
  - left. simpl. by rewrite Permutation_app_comm.
  - right. split; [cbn [nodes]; by rewrite Hcl|]. split; [cbn [leaf_for]; by rewrite Hlen|by left].
  - destruct force; cbn [push_back nodes bucket_contents set_contents].
    + left. rewrite Hcl. by rewrite Permutation_app_comm.
    + right. split; [by rewrite Hcl|]. split; [cbn [leaf_for]; by rewrite Hlen|by right].
  - destruct (wf_split (cleaned h) b1 Hwc Hs H1) as (Hw1 & _ & Hp1 & Hsp & _). rewrite Hcl in Hp1.
    destruct b1 as [|h1 f1 s1]; [done|]. simpl nodes at 2 4. rewrite <-Hp1. apply Hat; [done| |done].
    by rewrite Hp1.
Qed.

(** ** Termination and safety of [addNode] *)

(** Fuel for the bits below a bucket. *)
Definition add_fuel (b : KBucket) : nat := S (Z.to_nat (8 * Z.of_nat L - index (hdr b))).

Lemma at_bucket_fuel b node op :
  wf b → isSplit b = true → hash_ok node →
  (∀ c, wf c → index (hdr c) = (index (hdr b) + 1)%Z → op c ≠ OutOfFuel) →
  at_bucket b (getHash node) op ≠ OutOfFuel.
Proof.
  intros Hwf Hsp Hn Hop. destruct b as [|h f s]; [done|].
  pose proof Hwf as ([Hi _] & Hlt & _ & _ & (Hf1 & _) & (Hs1 & _) & Hf & Hs & _).
  pose proof (getBit_ok (getHash node) (index h + 1) Hn ltac:(lia)) as Hb.
  rewrite (at_bucket_Split _ _ _ _ _ _ Hb). simpl in *.
  destruct (bit_at (getHash node) _); apply bind_OutOfFuel; auto; done.
Qed.

Lemma split_fuel h : wf (Leaf h) → split (Leaf h) ≠ OutOfFuel.
Proof.
  intros Hwf. destruct (splittable h) eqn:Hs; [|simpl; by rewrite Hs].
  destruct (decide (index h + 1 < 8 * Z.of_nat L)%Z); [by rewrite split_spec|].
  simpl. rewrite Hs. destruct Hwf as [[Hi Hl] _].
  rewrite getBit_spec, decide_False; [done|]. rewrite Hl, bit_in_range; lia.
Qed.

Lemma addNode_terminates fuel node force b :
  hash_ok node → wf b → add_fuel b ≤ fuel → addNode fuel b node force ≠ OutOfFuel.
Proof.
  intros Hn. revert b. induction fuel as [|fuel IH]; intros b Hwf Hf; [unfold add_fuel in Hf; lia|].
  assert (∀ b1, wf b1 → isSplit b1 = true → index (hdr b1) = index (hdr b) →
    at_bucket b1 (getHash node) (λ c, addNode fuel c node force) ≠ OutOfFuel) as Hat.
  { intros b1 Hw1 Hsp Hi. apply at_bucket_fuel; [done..|]. intros c Hwc Hic. apply IH; [done|].
    unfold add_fuel in *. pose proof (wf_hdr c Hwc) as [? _]. lia. }
  destruct b as [h|h f s]; [|by apply Hat].
  pose proof (wf_cleaned h node Hwf) as [Hwc _].
  cbn [addNode]. fold (cleaned h). case_decide; [done|]. case_decide; [done|].
  destruct (_ && splittable h) eqn:Hs; [|by destruct (_ || force)].
  apply andb_true_iff in Hs as [_ Hs].
  destruct (split (Leaf (cleaned h))) as [b1| | | |] eqn:H1; simpl; try done.
  - destruct (wf_split (cleaned h) b1 Hwc Hs H1) as (Hw1 & Hh1 & _ & Hsp & _).
    apply Hat; [done..|]. by destruct Hh1 as [<- _].
  - by apply split_fuel in H1.
Qed.

(** A node whose hash leaves the path of the own hash at some bit below the
    bucket is never out of range. *)
Definition diverges (b : KBucket) (node : Z) : Prop :=
  splittable (hdr b) = true →
  ∃ d, (index (hdr b) < d < 8 * Z.of_nat L)%Z ∧ bit_at (getHash node) d ≠ bit_at (node_hash_ptr (hdr b)) d.

Lemma at_bucket_returns b node op :
  wf b → isSplit b = true → hash_ok node → diverges b node →
  (∀ c, wf c → index (hdr c) = (index (hdr b) + 1)%Z → diverges c node → returns (op c)) →
  returns (at_bucket b (getHash node) op).
Proof.
  intros Hwf Hsp Hn Hdiv Hop. destruct b as [|h f s]; [done|].
  pose proof Hwf as ([Hi _] & Hlt & _ & Hspl & (Hf1 & _ & Hf2 & Hf3) & (Hs1 & _ & Hs2 & Hs3) & Hf & Hs & _).
  pose proof (getBit_ok (getHash node) (index h + 1) Hn ltac:(lia)) as Hb.
  rewrite (at_bucket_Split _ _ _ _ _ _ Hb). simpl in *.
  destruct (Hdiv Hspl) as (d & Hd & Hne). simpl in *.
  assert (∀ c bit, wf c → (index h + 1)%Z = index (hdr c) → node_hash_ptr h = node_hash_ptr (hdr c) →
    (splittable (hdr c) = true → bit_at (node_hash_ptr h) (index h + 1) = bit) →
    bit_at (getHash node) (index h + 1) = bit → returns (op c)) as Hc.
  { intros c bit Hwc Hic Hhc Hspc Hbit. apply Hop; [done|lia|]. intros Hspl'.
    exists d. rewrite <-Hhc. split; [|done].
    assert (d ≠ index h + 1)%Z; [|lia]. intros ->. apply Hne. rewrite Hbit. by rewrite Hspc. }
  destruct (bit_at (getHash node) (index h + 1)) eqn:E.
  - apply returns_bind; [|by eexists]. eapply (Hc s true); auto. congruence.
  - apply returns_bind; [|by eexists]. eapply (Hc f false); auto. rewrite <-Hf2.
    by rewrite negb_true_iff.
Qed.

Lemma addNode_returns fuel node force b :
  hash_ok node → wf b → diverges b node → add_fuel b ≤ fuel →
  ∃ b', addNode fuel b node force = Ret b'.
Proof.
  intros Hn. change (∃ b', addNode fuel b node force = Ret b') with (returns (addNode fuel b node force)).
  revert b. induction fuel as [|fuel IH]; intros b Hwf Hdiv Hf; [unfold add_fuel in Hf; lia|].
  assert (∀ b1, wf b1 → isSplit b1 = true → same_hdr (hdr b) (hdr b1) →
    returns (at_bucket b1 (getHash node) (λ c, addNode fuel c node force))) as Hat.
  { intros b1 Hw1 Hsp (Hi & _ & Hs1 & Hn1). apply at_bucket_returns; [done..| |].
    - unfold diverges. by rewrite <-Hi, <-Hs1, <-Hn1.
    - intros c Hwc Hic Hdc. apply IH; [done..|].
      unfold add_fuel in *. pose proof (wf_hdr c Hwc) as [? _]. lia. }
  destruct b as [h|h f s]; [|by apply Hat].
  pose proof (wf_cleaned h node Hwf) as [Hwc _].
  cbn [addNode]. fold (cleaned h). case_decide; [by eexists|]. case_decide; [by eexists|].
  destruct (_ && splittable h) eqn:Hs; [|destruct (_ || force); by eexists].
  apply andb_true_iff in Hs as [_ Hs]. destruct (Hdiv Hs) as (d & Hd & _). simpl in Hd.
  assert (∃ b1, split (Leaf (cleaned h)) = Ret b1) as [b1 H1].
  { eexists. apply split_spec; [done..|]. simpl. lia. }
  rewrite H1. simpl. destruct (wf_split (cleaned h) b1 Hwc Hs H1) as (Hw1 & Hh1 & _ & Hsp & _).
  by apply Hat.
Qed.

(** ** [removeNode] *)

Lemma removeNode_spec b node :
  hash_ok node → wf b →
  ∃ b', removeNode b node = Ret b' ∧ grows node b b' ∧ (capacity b → capacity b') ∧
    (node ∈ nodes b → nodes b ≡ₚ node :: nodes b') ∧ (node ∉ nodes b → b' = b).
Proof.
  intros Hn. induction b as [h|h f IHf s IHs]; intros Hwf.
  - eexists. split; [done|]. simpl. split; [|split; [|split]].
    + split; [|split; [done|]].
      * apply wf_set_contents; [done|]. destruct Hwf as [_ Hc]. rewrite Forall_forall in *.
        intros p Hp. by apply Hc, (elem_of_erase_first node).
      * simpl. intros p Hp. right. by apply (elem_of_erase_first node).
    + intros Hc. destruct (decide (node ∈ bucket_contents h)) as [Hin|Hnin].
      * apply erase_first_perm, Permutation_length in Hin. simpl in Hin. lia.
      * by rewrite erase_first_notin.
    + apply erase_first_perm.
    + intros Hnin. rewrite erase_first_notin by done. by destruct h.
  - pose proof Hwf as (Hh & Hlt & Hnil & Hsp & Hcf & Hcs & Hf & Hs & Hbf & Hbs).
    pose proof Hh as [Hi _]. simpl. rewrite getBit_ok by (done || lia). simpl.
    rewrite Forall_forall in Hbf, Hbs.
    destruct (bit_at (getHash node) (index h + 1)) eqn:E.
    + destruct (IHs Hs) as (s' & -> & (Hw' & Hhd & Hin) & Hc' & Hp & Hid). simpl. eexists. split; [done|].
      assert (node ∉ nodes f) as Hnf by (intros Hx; apply Hbf in Hx; congruence).
      split; [split; [|split; [done|]]|split; [simpl; tauto|split]].
      * simpl. do 5 (split; [done|]). split; [by eapply same_hdr_trans|]. do 2 (split; [done|]).
        split; [by apply Forall_forall|]. eapply Forall_grow; [by apply Forall_forall|done|done].
      * simpl. intros p. rewrite !elem_of_app. intros [Hx|Hx]; [|apply Hin in Hx]; tauto.
      * simpl. rewrite elem_of_app. intros [?|Hx]; [done|]. by rewrite (Hp Hx), Permutation_middle.
      * simpl. rewrite elem_of_app. intros Hx. by rewrite Hid by tauto.
    + destruct (IHf Hf) as (f' & -> & (Hw' & Hhd & Hin) & Hc' & Hp & Hid). simpl. eexists. split; [done|].
      assert (node ∉ nodes s) as Hns by (intros Hx; apply Hbs in Hx; congruence).
      split; [split; [|split; [done|]]|split; [simpl; tauto|split]].
      * simpl. do 4 (split; [done|]). split; [by eapply same_hdr_trans|]. do 3 (split; [done|]).
        split; [|by apply Forall_forall]. eapply Forall_grow; [by apply Forall_forall|done|done].
      * simpl. intros p. rewrite !elem_of_app. intros [Hx|Hx]; [apply Hin in Hx|]; tauto.
      * simpl. rewrite elem_of_app. intros [Hx|?]; [|done]. by rewrite (Hp Hx).
      * simpl. rewrite elem_of_app. intros Hx. by rewrite Hid by tauto.
Qed.

(** ** [getClosest] *)

Lemma getClosest_loop_Ret fuel n i contents acc l :
  getClosest_loop fuel n i contents acc = Ret l → contents = [] ∧ l = acc ∧ (n ≤ i)%Z.
Proof.
  clear getHash getReliability L.
  revert i acc. induction fuel as [|fuel IH]; intros i acc H; [done|]. cbn [getClosest_loop] in H.
  destruct (bool_decide (i < n)%Z || negb (bool_decide (contents = []))) eqn:E.
  - destruct contents as [|x c]; [done|]. case_decide; [done|].
    apply IH in H as [? _]. done.
  - injection H as <-. apply orb_false_iff in E as [E1 E2]. apply bool_decide_eq_false in E1.
    apply negb_false_iff, bool_decide_eq_true in E2. repeat split; [done|lia].
Qed.

Lemma getClosest_Ret fuel b hash n l :
  getClosest fuel b hash n = Ret l → l = [] ∧ (n ≤ 0)%Z.
Proof.
  clear getHash getReliability L.
  revert l. induction b as [h|h f IHf s IHs]; intros l H; simpl in H.
  - by apply getClosest_loop_Ret in H as (_ & -> & ?).
  - apply bind_Ret in H as (bit & _ & H). apply bind_Ret in H as (r & Hr & H).
    assert (r = [] ∧ (n ≤ 0)%Z) as [-> Hn] by (destruct bit; auto). simpl in H.
    case_decide; inv_ret; [|auto].
    match goal with Ha : (if bit then _ else _) = Ret ?a |- _ =>
      assert (a = []) as -> by (destruct bit; naive_solver) end. naive_solver.
Qed.

(** A non-empty leaf makes the loop run until the counter overflows. *)
Lemma getClosest_loop_nonempty fuel n i x c acc :
  (i ≤ INT_MAX)%Z →
  getClosest_loop fuel n i (x :: c) acc =
    if decide (INT_MAX - i < Z.of_nat fuel)%Z then Undef signed_overflow else OutOfFuel.
Proof.
  clear getHash getReliability L. revert i acc. induction fuel as [|fuel IH]; intros i acc Hi.
  { rewrite decide_False; [done|lia]. }
  cbn [getClosest_loop]. rewrite orb_true_r. case_decide as Ho.
  - subst. by rewrite decide_True by lia.
  - rewrite IH by lia. repeat case_decide; try lia; done.
Qed.

(** ** [cleanup] *)

Lemma cleanup_spec b :
  cleanup b = if decide (Forall (λ p, is_bad p = false) (bucket_contents (hdr b)))
              then Ret b else Undef bad_iterator.
Proof.
  unfold cleanup. assert (∀ l, cleanup_loop l =
    if decide (Forall (λ p, is_bad p = false) l) then Ret tt else Undef bad_iterator) as ->;
    [|by case_decide].
  induction l as [|x l IH]; cbn [cleanup_loop]; [by rewrite decide_True by constructor|].
  destruct (is_bad x) eqn:E.
  - rewrite decide_False; [done|]. inversion 1; congruence.
  - rewrite IH. destruct (decide (Forall _ l)) as [Hl|Hl].
    + by rewrite decide_True by (by constructor).
    + rewrite decide_False; [done|]. by inversion 1.
Qed.

(** ** [rebuild] *)

Lemma rebuild_grows fuel b node_hash l b' :
  wf b → Forall hash_ok l → rebuild fuel b node_hash l = Ret b' →
  wf b' ∧ same_hdr (hdr b) (hdr b') ∧ ((0 ≤ k (hdr b))%Z → capacity b').
Proof.
  intros Hwf Hl H. pose proof (wf_hdr b Hwf) as Hh.
  revert H. unfold rebuild. apply (foldM_inv _
    (λ c, wf c ∧ same_hdr (hdr b) (hdr c) ∧ ((0 ≤ k (hdr b))%Z → capacity c)) hash_ok); [| |done].
  - intros c x c' (Hw & Hs & Hc) Hx Ha. pose proof (addNode_grows _ _ _ _ _ Hx Hw Ha) as (Hw' & Hs' & _).
    split; [done|]. split; [by eapply same_hdr_trans|]. intros Hk. exact (addNode_capacity _ _ _ _ Hx Hw (Hc Hk) Ha).
  - split; [split; [exact Hh|constructor]|]. split; [done|]. simpl. lia.
Qed.

Lemma rebuild_returns fuel b node_hash l :
  wf b → Forall (λ p, hash_ok p ∧ diverges b p) l → add_fuel b ≤ fuel →
  ∃ b', rebuild fuel b node_hash l = Ret b'.
Proof.
  intros Hwf Hl Hf. pose proof (wf_hdr b Hwf) as Hh. unfold rebuild.
  destruct (foldM_returns (λ b node, addNode fuel b node false)
    (λ c, wf c ∧ same_hdr (hdr b) (hdr c)) (λ p, hash_ok p ∧ diverges b p)
    (Leaf (set_contents (hdr b) [])) l) as (b' & Hb' & _); [| |done|by eauto].
  - intros c x (Hw & Hs) [Hx Hd]. destruct (addNode_returns fuel x false c) as [c' Hc']; try done.
    + unfold diverges in *. destruct Hs as (<- & _ & <- & <-). done.
    + unfold add_fuel in *. destruct Hs as (<- & _). done.
    + exists c'. split; [done|]. apply addNode_grows in Hc' as (Hw' & Hs' & _); [|done..].
      split; [done|]. by eapply same_hdr_trans.
  - split; [split; [exact Hh|constructor]|done].
Qed.

Lemma rebuild_small fuel b node_hash l :
  (Z.of_nat (length l) ≤ k (hdr b))%Z →
  rebuild (S fuel) b node_hash l = Ret (Leaf (set_contents (hdr b) l)).
Proof.
  intros Hl. unfold rebuild.
  assert (∀ c, (Z.of_nat (length c + length l) ≤ k (hdr b))%Z →
    foldM (λ b node, addNode (S fuel) b node false) (Leaf (set_contents (hdr b) c)) l =
    Ret (Leaf (set_contents (hdr b) (c ++ l)))) as Hgen; [|by apply (Hgen [])].
  clear Hl. induction l as [|x l IH]; intros c Hl; cbn [foldM]; [by rewrite app_nil_r|].
  cbn [addNode bucket_contents set_contents k]. cbn [length] in Hl. rewrite decide_True by lia.
  cbn [mbind outcome_bind push_back]. unfold set_contents at 2. cbn [index k splittable node_hash_ptr bucket_contents].
  rewrite (cons_middle x c l), app_assoc. apply IH. rewrite length_app. simpl. lia.
Qed.

(** ** Sequences of public operations *)

Inductive kop :=
| KAdd (node : Z) (force : bool)
| KRemove (node : Z)
| KRebuild (node_hash : bytes) (node_list : list Z).

Definition exec_kop (fuel : nat) (b : KBucket) (op : kop) : outcome KBucket :=
  match op with
  | KAdd node force => addNode fuel b node force
  | KRemove node => removeNode b node
  | KRebuild node_hash node_list => rebuild fuel b node_hash node_list
  end.

Definition kop_ok (op : kop) : Prop :=
  match op with
  | KAdd node _ | KRemove node => hash_ok node
  | KRebuild _ l => Forall hash_ok l
  end.
Definition unforced (op : kop) : Prop := match op with KAdd _ force => force = false | _ => True end.

Definition kstep (fuel : nat) (b : KBucket) (op : kop) (b' : KBucket) : Prop :=
  kop_ok op ∧ exec_kop fuel b op = Ret b'.

Lemma kstep_inv fuel b op b' :
  kstep fuel b op b' → wf b →
  wf b' ∧ same_hdr (hdr b) (hdr b') ∧
  (unforced op → (0 ≤ k (hdr b))%Z → capacity b → capacity b').
Proof.
  intros [Hok H] Hwf. destruct op as [node force|node|nh l]; simpl in *.
  - pose proof (addNode_grows _ _ _ _ _ Hok Hwf H) as (Hw & Hs & _).
    split; [done|]. split; [done|]. intros -> _ Hc. exact (addNode_capacity _ _ _ _ Hok Hwf Hc H).
  - destruct (removeNode_spec b node Hok Hwf) as (b1 & Hb1 & (Hw & Hs & _) & Hc & _).
    rewrite Hb1 in H. injection H as <-. auto.
  - destruct (rebuild_grows _ _ _ _ _ Hwf Hok H) as (Hw & Hs & Hc). auto.
Qed.

Lemma kstar_inv fuel b ops b' :
  star (kstep fuel) b ops b' → wf b →
  wf b' ∧ same_hdr (hdr b) (hdr b') ∧
  (Forall unforced ops → (0 ≤ k (hdr b))%Z → capacity b → capacity b').
Proof.
  induction 1 as [b|b1 b2 b3 op ops H1 _ IH]; intros Hwf; [done|].
  destruct (kstep_inv _ _ _ _ H1 Hwf) as (Hw & Hs & Hc). destruct (IH Hw) as (Hw' & Hs' & Hc').
  split; [done|]. split; [by eapply same_hdr_trans|]. intros Hu Hk Hcap.
  inversion Hu; subst. apply Hc'; [done| |auto]. destruct Hs as (_ & <- & _). done.
Qed.

Lemma wf_new own kk : 0 < L → length own = L → wf (KBucket_new own kk).
Proof. intros HL Ho. split; [|constructor]. split; simpl; [lia|done]. Qed.

(** *** Size of the tree *)

Fixpoint depth (b : KBucket) : nat := match b with Leaf _ => 0 | Split _ f s => S (depth f `max` depth s) end.

(** One child of a bucket is not splittable, hence a leaf. *)
Lemma wf_unsplittable b : wf b → splittable (hdr b) = false → ∃ h, b = Leaf h.
Proof. destruct b as [h|h f s]; [by eauto|]. simpl. intros (_ & _ & _ & -> & _). done. Qed.

Lemma wf_size b : wf b →
  (Z.of_nat (depth b) < 8 * Z.of_nat L - index (hdr b))%Z ∧ length (leaves b) = S (depth b) ∧
  (capacity b → (count b ≤ k (hdr b) * (Z.of_nat (depth b) + 1))%Z).
Proof.
  induction b as [h|h f IHf s IHs]; intros Hwf.
  { pose proof (wf_hdr _ Hwf) as Hh. destruct Hh as [Hi _]. simpl in *. split; [lia|]. split; [done|]. lia. }
  simpl in Hwf. destruct Hwf as (_ & Hi & _ & _ & Hcf & Hcs & Hf & Hs & _).
  destruct (IHf Hf) as (Hdf & Hlf & Hbf). destruct (IHs Hs) as (Hds & Hls & Hbs). destruct Hcf as (If & Kf & Sf & _), Hcs as (Is & Ks & Ss & _).
  cbn [index k splittable] in If, Kf, Sf, Is, Ks, Ss. rewrite <-If, <-Kf in *. rewrite <-Is, <-Ks in *.
  cbn [depth count hdr capacity leaves]. rewrite length_app, Hlf, Hls. split; [lia|].
  destruct (bit_at _ _); symmetry in Sf, Ss; cbn [negb] in Sf, Ss.
  - destruct (wf_unsplittable f Hf Sf) as [h' ->]. cbn [capacity count hdr depth] in *. split; [lia|].
    intros [Hc1 Hc2]. specialize (Hbs Hc2). nia.
  - destruct (wf_unsplittable s Hs Ss) as [h' ->]. cbn [capacity count hdr depth] in *. split; [lia|].
    intros [Hc1 Hc2]. specialize (Hbf Hc1). nia.
Qed.
End KBucket.

(** ** Properties *)

(** C24 Bounds of the k-bucket tree: after any sequence of operations that
    returns, the tree is less than [8 * L] levels deep for hashes of [L] bytes
    and has one leaf per level and one more; if no call was forced, each leaf
    holds at most [k] nodes, so that the tree holds at most [k] times its number
    of leaves. *)
Theorem kbucket_bounds (getHash : Z → bytes) (getReliability : Z → Reliability)
    (L fuel : nat) (own : bytes) (kk : Z) (ops : list kop) (b : KBucket)
    (HL : 0 < L) (Hown : length own = L) (Hk : (0 ≤ kk)%Z)
    (Hrun : star (kstep getHash getReliability L fuel) (KBucket_new own kk) ops b) :
  depth b < 8 * L ∧ length (leaves b) = S (depth b) ∧
  (Forall unforced ops →
     Forall (λ h, (Z.of_nat (length (bucket_contents h)) ≤ kk)%Z) (leaves b) ∧
     (count b ≤ kk * Z.of_nat (length (leaves b)) ≤ kk * (8 * Z.of_nat L))%Z).
Proof.
  destruct (kstar_inv _ _ _ _ _ _ _ Hrun (wf_new getHash L own kk HL Hown)) as (Hw & (Hi & Hkk & _) & Hc).
  simpl in Hi, Hkk. destruct (wf_size getHash L b Hw) as (Hd & Hl & Hb). split; [lia|]. split; [done|].
  intros Hu. assert (capacity b) as Hcap by (by apply Hc). split; [by eapply capacity_leaves|].
  specialize (Hb Hcap). rewrite <-Hkk in Hb. rewrite Hl. split; nia.
Qed.

Lemma kbucket_bounds_witness :
  ∃ b : KBucket, depth b < 8 ∧ depth b = 1.
Proof.
  pose (H := λ p : Z, [byte_of p]). pose (R := λ _ : Z, GOOD).
  destruct (kbucket_bounds H R 1 20 [x00] 2 [KAdd 64 false; KAdd 1 false; KAdd 3 false]
    (Split (mkKb 0 2 [] true [x00]) (Leaf (mkKb 1 2 [1; 3]%Z true [x00])) (Leaf (mkKb 1 2 [64]%Z false [x00])))
    ltac:(lia) eq_refl ltac:(lia)) as (Hd & _).
  - repeat (eapply star_cons; [split; [reflexivity|vm_compute; reflexivity]|]). apply star_nil.
  - eexists. split; [exact Hd|reflexivity].
Defined.

(** C3 The shape of the k-bucket tree is an invariant: whatever sequence of
    [addNode], [removeNode] and [rebuild] calls returns, starting from a new
    bucket for an [L]-byte own hash, every bucket's index is its level, the
    splittable buckets are exactly those on the path of the own hash, every
    node stored below a bucket has the bits that lead to it, and the own hash
    and [k] never change; an inner bucket stores nothing itself; and if no call
    is forced, no leaf holds more than [k] nodes. *)
Theorem kbucket_invariant (getHash : Z → bytes) (getReliability : Z → Reliability)
    (L fuel : nat) (own : bytes) (kk : Z) (ops : list kop) (b : KBucket)
    (HL : 0 < L) (Hown : length own = L)
    (Hrun : star (kstep getHash getReliability L fuel) (KBucket_new own kk) ops b) :
  wf getHash L b ∧
  (∀ π c, (π, c) ∈ subtrees b →
     index (hdr c) = Z.of_nat (length π) ∧ k (hdr c) = kk ∧ node_hash_ptr (hdr c) = own ∧
     (splittable (hdr c) = true ↔ π = bits_from own 0 (length π)) ∧
     Forall (λ p, bits_from (getHash p) 0 (length π) = π) (nodes c)) ∧
  (Forall unforced ops → (0 ≤ kk)%Z → Forall (λ h, (Z.of_nat (length (bucket_contents h)) ≤ kk)%Z) (leaves b)).
Proof.
  destruct (kstar_inv _ _ _ _ _ _ _ Hrun (wf_new getHash L own kk HL Hown)) as (Hw & (Hi & Hk & Hs & Hh) & Hc).
  cbn in Hi, Hk, Hs, Hh. split; [done|]. split.
  - intros π c Hin. destruct (wf_subtrees getHash getReliability L b π c Hw Hin) as (H1 & H2 & H3 & H4 & H5).
    rewrite <-Hi, <-Hh, <-Hs in *. split; [done|]. split; [congruence|]. split; [done|]. split; [|done].
    rewrite H4. split; [tauto|]. by split.
  - intros Hu H0. eapply capacity_leaves; [done|done|]. by apply Hc.
Qed.

Lemma kbucket_invariant_witness :
  ∃ b, Forall (λ h, (Z.of_nat (length (bucket_contents h)) ≤ 2)%Z) (leaves b) ∧ isSplit b = true ∧ count b = 3%Z.
Proof.
  pose (H := λ p : Z, [byte_of p]). pose (R := λ _ : Z, GOOD).
  destruct (kbucket_invariant H R 1 20 [x00] 2 [KAdd 64 false; KAdd 1 false; KAdd 3 false]
    (Split (mkKb 0 2 [] true [x00]) (Leaf (mkKb 1 2 [1; 3]%Z true [x00])) (Leaf (mkKb 1 2 [64]%Z false [x00])))
    ltac:(lia) eq_refl) as (_ & _ & Hc).
  - repeat (eapply star_cons; [split; [reflexivity|vm_compute; reflexivity]|]). apply star_nil.
  - eexists. split; [apply Hc; [repeat constructor|lia]|]. split; reflexivity.
Defined.

(** C7 [addNode] terminates without undefined behaviour: on a well-formed
    bucket, for a node whose hash differs from the own hash in some bit below
    the bucket's level (or whenever the bucket is not splittable), as many
    recursive calls as there are bits left are enough, and when no stored node
    is BAD the stored nodes are, up to order, the old ones with the new node
    added, or the old ones unchanged, and then the leaf the node belongs to is
    full and either stores the node already or is not splittable and the call
    was not forced. *)
Theorem addNode_total (getHash : Z → bytes) (getReliability : Z → Reliability)
    (L : nat) (b : KBucket) (node : Z) (force : bool)
    (Hwf : wf getHash L b) (Hn : hash_ok getHash L node) (Hd : diverges getHash L b node)
    (Hgood : Forall (λ p, is_bad getReliability p = false) (nodes b)) :
  ∃ b', addNode getHash getReliability (add_fuel L b) b node force = Ret b' ∧ wf getHash L b' ∧
    (nodes b' ≡ₚ node :: nodes b ∨
     nodes b' ≡ₚ nodes b ∧
     let h := leaf_for b' (getHash node) in
     (k h ≤ Z.of_nat (length (bucket_contents h)))%Z ∧
     (node ∈ bucket_contents h ∨ force = false ∧ splittable h = false)).
Proof.
  destruct (addNode_returns getHash getReliability L (add_fuel L b) node force b) as [b' Hb']; try done.
  exists b'. split; [done|].
  split; [by eapply addNode_grows|by eapply addNode_perm].
Qed.

Lemma addNode_total_witness :
  ∃ b', addNode (λ p, [byte_of p]) (λ _, GOOD) 9 (KBucket_new [x00] 1) 5 false = Ret b'.
Proof.
  destruct (addNode_total (λ p, [byte_of p]) (λ _, GOOD) 1 (KBucket_new [x00] 1) 5 false) as (b' & H & _).
  - apply wf_new; [lia|reflexivity].
  - reflexivity.
  - intros _. exists 7%Z. split; [simpl; lia|vm_compute; congruence].
  - constructor.
  - exists b'. exact H.
Defined.

(** Removing a node that was just added restores the stored nodes: after
    [addNode] of a node that was not stored, if it was stored at all,
    [removeNode] returns and leaves, up to order, the nodes there were before
    (no stored node BAD); [count] goes up by one and down by one. *)
Theorem addNode_removeNode (getHash : Z → bytes) (getReliability : Z → Reliability)
    (L fuel : nat) (b b1 : KBucket) (node : Z) (force : bool)
    (Hwf : wf getHash L b) (Hn : hash_ok getHash L node) (Hnew : node ∉ nodes b)
    (Hgood : Forall (λ p, is_bad getReliability p = false) (nodes b))
    (Hadd : addNode getHash getReliability fuel b node force = Ret b1) (Hin : node ∈ nodes b1) :
  ∃ b2, removeNode getHash b1 node = Ret b2 ∧ wf getHash L b2 ∧ nodes b2 ≡ₚ nodes b ∧
        count b1 = (count b + 1)%Z ∧ count b2 = count b.
Proof.
  pose proof (addNode_grows _ _ _ _ _ _ _ _ Hn Hwf Hadd) as (Hw1 & _).
  destruct (removeNode_spec getHash getReliability L b1 node Hn Hw1) as (b2 & Hr & (Hw2 & _) & _ & Hp & _).
  apply Hp in Hin as Hp2.
  destruct (addNode_perm _ _ _ _ _ _ _ _ Hn Hwf Hgood Hadd) as [Hp1|[Hp1 _]].
  - rewrite Hp1 in Hp2. apply Permutation_cons_inv in Hp2.
    exists b2. split; [done|]. split; [done|]. split; [done|].
    apply Permutation_length in Hp1, Hp2. rewrite !count_nodes. simpl in Hp1. lia.
  - rewrite Hp1 in Hin. done.
Qed.

Lemma addNode_removeNode_witness :
  ∃ b1 b2, addNode (λ p, [byte_of p]) (λ _, GOOD) 9 (KBucket_new [x00] 1) 5 false = Ret b1 ∧
           removeNode (λ p, [byte_of p]) b1 5 = Ret b2 ∧ count b2 = 0%Z.
Proof.
  destruct (addNode_removeNode (λ p, [byte_of p]) (λ _, GOOD) 1 9 (KBucket_new [x00] 1)
    (Leaf (mkKb 0 1 [5]%Z true [x00])) 5 false) as (b2 & H1 & _ & _ & _ & H2).
  - apply wf_new; [lia|reflexivity].
  - reflexivity.
  - simpl. apply not_elem_of_nil.
  - constructor.
  - vm_compute. reflexivity.
  - simpl. by apply list_elem_of_singleton.
  - eexists _, b2. split; [reflexivity|]. split; [exact H1|exact H2].
Defined.

(** [getClosest] never produces a node: with a positive count no call on
    any bucket returns, within any number of steps; and a call that does
    return (count at most zero, empty leaves) returns the empty list.  On a
    non-empty leaf the loop runs until its counter overflows. *)
Theorem getClosest_never (fuel : nat) (b : KBucket) (hash : bytes) (n : Z) :
  (∀ l, getClosest fuel b hash n = Ret l → l = [] ∧ (n ≤ 0)%Z) ∧
  (∀ h x c, b = Leaf h → bucket_contents h = x :: c →
    getClosest fuel b hash n =
      if decide (INT_MAX < Z.of_nat fuel)%Z then Undef signed_overflow else OutOfFuel).
Proof.
  split; [by intros l; apply getClosest_Ret|]. intros h x c -> Hc. simpl. rewrite Hc.
  rewrite getClosest_loop_nonempty by (vm_compute; congruence). by rewrite Z.sub_0_r.
Qed.

(** [rebuild] of at most [k] nodes returns one leaf with exactly these
    nodes, in the order of the set; in general it returns for nodes whose
    hashes leave the own path below the bucket.  In both cases the bucket keeps
    the hash it had: the [node_hash] argument has no effect. *)
Theorem rebuild_spec (getHash : Z → bytes) (getReliability : Z → Reliability)
    (L : nat) (b : KBucket) (node_hash : bytes) (l : list Z) (Hwf : wf getHash L b)
    (Hl : Forall (λ p, hash_ok getHash L p ∧ diverges getHash L b p) l) :
  ∃ b', rebuild getHash getReliability (add_fuel L b) b node_hash l = Ret b' ∧ wf getHash L b' ∧
    node_hash_ptr (hdr b') = node_hash_ptr (hdr b) ∧
    ((0 ≤ k (hdr b))%Z → capacity b') ∧
    ((Z.of_nat (length l) ≤ k (hdr b))%Z → b' = Leaf (set_contents (hdr b) l)).
Proof.
  destruct (rebuild_returns getHash getReliability L (add_fuel L b) b node_hash l) as [b' Hb']; try done.
  exists b'. split; [done|].
  assert (Forall (hash_ok getHash L) l) as Hok by (eapply Forall_impl; [exact Hl|]; naive_solver).
  destruct (rebuild_grows _ _ _ _ _ _ _ _ Hwf Hok Hb') as (Hw & (_ & _ & _ & Hh) & Hc).
  split; [done|]. split; [done|]. split; [done|]. intros Hk. unfold add_fuel in Hb'.
  rewrite rebuild_small in Hb' by done. by injection Hb'.
Qed.

Lemma rebuild_spec_witness :
  ∃ b', rebuild (λ p, [byte_of p]) (λ _, GOOD) 9 (KBucket_new [x00] 2) [xff] [1; 3; 7]%Z = Ret b' ∧
        node_hash_ptr (hdr b') = [x00].
Proof.
  destruct (rebuild_spec (λ p, [byte_of p]) (λ _, GOOD) 1 (KBucket_new [x00] 2) [xff] [1; 3; 7]%Z)
    as (b' & H1 & _ & H2 & _).
  - apply wf_new; [lia|reflexivity].
  - repeat constructor; intros _; exists 7%Z; (split; [simpl; lia|vm_compute; congruence]).
  - exists b'. split; [exact H1|exact H2].
Defined.
