(* ===== verification/KBucketTable.v ===== *)
(** * The k-bucket tree as a routing table

    The tree of [daemon/dht/KBucket.cpp] splits only along the path of the own
    hash, so that it stands for a list of buckets: bucket [j] for the nodes
    whose hash shares exactly [j] bits with the own one (from the second bit on),
    the last bucket for the rest.  Here the tree's operations are compared with
    operations on such a list that never look at bits, only at the number of
    shared ones. *)

From S2P Require Import Prelude KBucket.
From Stdlib Require Import ZArith Lia.
From Stdlib.Strings Require Import Byte.

Lemma filter_ext_in {A} (P1 P2 : A → Prop) `{!∀ x, Decision (P1 x), !∀ x, Decision (P2 x)} (l : list A) :
  (∀ x, x ∈ l → P1 x ↔ P2 x) → filter P1 l = filter P2 l.
Proof.
  induction l as [|x l IH]; intros Heq; [done|]. rewrite !filter_cons, IH by set_solver.
  assert (P1 x ↔ P2 x) as Hx by set_solver. repeat case_decide; tauto || done.
Qed.

Section Table.
Context (getHash : Z → bytes) (getReliability : Z → Reliability) (L : nat) (own : bytes) (kk : Z).
Abbreviation is_bad := (is_bad getReliability).
Abbreviation wf := (wf getHash L).

(** ** The reference *)

(** How many of [n] bits from bit [i] on agree before the first that differs. *)
Fixpoint agree (n : nat) (i : Z) (hash : bytes) : nat :=
  match n with
  | O => 0
  | S n => if Bool.eqb (bit_at own i) (bit_at hash i) then S (agree n (i + 1) hash) else 0
  end.
(** Shared bits below level [i]. *)
Definition shared (i : Z) (node : Z) : nat := agree (8 * L - 1 - Z.to_nat i) (i + 1) (getHash node).

Definition table : Type := list (list Z).
Definition place (i : Z) (t : table) (node : Z) : nat := Nat.min (shared i node) (length t - 1).

(** Add to the bucket of the node; a full last bucket is divided first. *)
Fixpoint table_add (fuel : nat) (i : Z) (t : table) (node : Z) (force : bool) : option table :=
  match fuel with
  | O => None
  | S fuel =>
      let j := place i t node in
      let c := t !!! j in
      if decide (Z.of_nat (length c) < kk)%Z then Some (<[j := c ++ [node]]> t)
      else
        let c := remove_if is_bad c in
        if decide (node ∈ c) then Some (<[j := c]> t)
        else if decide (S j = length t) then
          if decide (i + Z.of_nat j + 1 < 8 * Z.of_nat L)%Z then
            table_add fuel i (take j t ++ [filter (λ p, shared i p = j) c; filter (λ p, shared i p ≠ j) c]) node force
          else None
        else Some (<[j := if force then c ++ [node] else c]> t)
  end.

Definition table_remove (i : Z) (t : table) (node : Z) : table := alter (erase_first node) (place i t node) t.
Definition table_rebuild (fuel : nat) (l : list Z) : option table :=
  foldl (λ r node, t ← r; table_add fuel 0 t node false) (Some [[]]) l.

Definition table_exec (fuel : nat) (t : table) (op : kop) : option table :=
  match op with
  | KAdd node force => table_add fuel 0 t node force
  | KRemove node => Some (table_remove 0 t node)
  | KRebuild _ node_list => table_rebuild fuel node_list
  end.
Definition table_run (fuel : nat) (t : table) (ops : list kop) : option table :=
  foldl (λ r op, t ← r; table_exec fuel t op) (Some t) ops.

(** ** The table of a tree *)

Fixpoint flatten (b : KBucket) : table :=
  match b with
  | Leaf h => [bucket_contents h]
  | Split h f s => if bit_at (node_hash_ptr h) (index h + 1) then nodes f :: flatten s else nodes s :: flatten f
  end.

Lemma flatten_nodes b : concat (flatten b) ≡ₚ nodes b.
Proof.
  induction b as [h|h f IHf s IHs]; cbn [flatten nodes concat]; [by rewrite app_nil_r|].
  destruct (bit_at _ _); cbn [concat]; [by rewrite IHs|]. rewrite IHf. apply Permutation_app_comm.
Qed.
Lemma flatten_length b : 0 < length (flatten b).
Proof. destruct b; cbn [flatten]; [simpl; lia|]. destruct (bit_at _ _); simpl; lia. Qed.

Lemma elem_of_bucket (t : table) j c p : t !! j = Some c → p ∈ c → p ∈ concat t.
Proof.
  revert j. induction t as [|c' t IH]; intros [|j] Hj Hp; [done|done|..]; cbn [concat]; apply elem_of_app.
  - injection Hj as ->. by left.
  - right. by eapply IH.
Qed.

(** A subtree for the own hash, as [rebuild] and the constructor make it. *)
Definition mine (b : KBucket) : Prop := k (hdr b) = kk ∧ node_hash_ptr (hdr b) = own ∧ splittable (hdr b) = true.

Lemma shared_step i node : (0 ≤ i)%Z → (i + 1 < 8 * Z.of_nat L)%Z →
  shared i node = if Bool.eqb (bit_at own (i + 1)) (bit_at (getHash node) (i + 1)) then S (shared (i + 1) node) else 0.
Proof.
  intros Hi Hlt. unfold shared. replace (8 * L - 1 - Z.to_nat i) with (S (8 * L - 1 - Z.to_nat (i + 1))) by lia. done.
Qed.

(** The two subtrees of a split, seen from the own path. *)
Lemma mine_split h f s : wf (Split h f s) → mine (Split h f s) →
  let my := bit_at own (index h + 1) in
  ∃ hf near, (if my then f = Leaf hf ∧ s = near else s = Leaf hf ∧ f = near) ∧
    flatten (Split h f s) = bucket_contents hf :: flatten near ∧
    wf (Leaf hf) ∧ k hf = kk ∧ splittable hf = false ∧ wf near ∧ mine near ∧ index (hdr near) = (index h + 1)%Z ∧
    (0 ≤ index h)%Z ∧ (index h + 1 < 8 * Z.of_nat L)%Z ∧
    Forall (λ p, bit_at (getHash p) (index h + 1) = my) (nodes near) ∧
    Forall (λ p, bit_at (getHash p) (index h + 1) = negb my) (bucket_contents hf).
Proof.
  intros Hwf (Hk & Ho & _). cbn [hdr] in *. pose proof Hwf as ([Hi _] & Hlt & _ & _ & Hcf & Hcs & Hf & Hs & Hbf & Hbs).
  destruct Hcf as (If & Kf & Sf & Of), Hcs as (Is & Ks & Ss & Os). cbn [index k splittable node_hash_ptr] in *.
  cbn [flatten]. rewrite Ho in *. destruct (bit_at own (index h + 1)); cbn [negb] in *.
  - destruct (wf_unsplittable getHash L f Hf (eq_sym Sf)) as [hf ->]. exists hf, s. cbn [hdr nodes] in *.
    do 3 (split; [done|]). do 2 (split; [congruence|]). split; [done|].
    split; [by repeat split; congruence|]. split; [done|]. split; [lia|]. done.
  - destruct (wf_unsplittable getHash L s Hs (eq_sym Ss)) as [hf ->]. exists hf, f. cbn [hdr nodes] in *.
    do 3 (split; [done|]). do 2 (split; [congruence|]). split; [done|].
    split; [by repeat split; congruence|]. split; [done|]. split; [lia|]. done.
Qed.

(** ** Where the nodes are *)

Lemma flatten_places b j c p : wf b → mine b → flatten b !! j = Some c → p ∈ c →
  j ≤ shared (index (hdr b)) p ∧ (S j < length (flatten b) → shared (index (hdr b)) p = j).
Proof.
  revert j c. induction b as [h|h f IHf s IHs]; intros j c Hwf Hm Hj Hp.
  { cbn [flatten] in *. apply list_lookup_singleton_Some in Hj as [-> <-]. simpl. split; lia. }
  destruct (mine_split h f s Hwf Hm) as (hf & near & Hside & Hfl & _ & _ & _ & Hwn & Hmn & Hin & Hi & Hlt & Hnear & Hfar).
  rewrite Hfl in *. cbn [hdr]. rewrite (shared_step _ p Hi Hlt). destruct j as [|j].
  - injection Hj as <-. rewrite Forall_forall in Hfar. rewrite (Hfar _ Hp). destruct (bit_at own _); simpl; split; lia.
  - cbn [length]. change ((bucket_contents hf :: flatten near) !! S j) with (flatten near !! j) in Hj.
    assert (p ∈ nodes near) as Hpn.
    { rewrite <-flatten_nodes. by eapply elem_of_bucket. }
    rewrite Forall_forall in Hnear. rewrite (Hnear _ Hpn), eqb_reflx, <-Hin.
    assert (j ≤ shared (index (hdr near)) p ∧ (S j < length (flatten near) → shared (index (hdr near)) p = j)) as [H1 H2].
    { destruct (bit_at own (index h + 1)); destruct Hside as [_ ->]; [by eapply IHs|by eapply IHf]. }
    split; [lia|]. intros. rewrite H2; lia.
Qed.

(** ** [addNode] *)

Lemma place_cons_near i c t node : (0 ≤ i)%Z → (i + 1 < 8 * Z.of_nat L)%Z → 0 < length t →
  bit_at (getHash node) (i + 1) = bit_at own (i + 1) → place i (c :: t) node = S (place (i + 1) t node).
Proof.
  intros Hi Hlt Ht Hb. unfold place. rewrite (shared_step _ node Hi Hlt), Hb, eqb_reflx. cbn [length]. lia.
Qed.

(** Adding a node that agrees in one more bit leaves the first bucket alone. *)
Lemma table_add_cons fuel i c t node force : (0 ≤ i)%Z → (i + 1 < 8 * Z.of_nat L)%Z → 0 < length t →
  bit_at (getHash node) (i + 1) = bit_at own (i + 1) →
  Forall (λ p, bit_at (getHash p) (i + 1) = bit_at own (i + 1)) (concat t) →
  table_add fuel i (c :: t) node force = (c ::.) <$> table_add fuel (i + 1) t node force.
Proof.
  intros Hi Hlt Ht Hb. revert t Ht. induction fuel as [|fuel IH]; intros t Ht Hall; [done|]. cbn [table_add].
  rewrite (place_cons_near i c t node Hi Hlt Ht Hb). set (j := place (i + 1) t node).
  assert (j < length t) as Hj by (unfold j, place; lia).
  destruct (lookup_lt_is_Some_2 t j Hj) as [x Hx]. rewrite (list_lookup_total_correct _ _ _ Hx).
  rewrite (list_lookup_total_correct (c :: t) (S j) x) by done.
  case_decide; [done|]. set (y := remove_if is_bad x). case_decide; [done|].
  assert (Forall (λ p, bit_at (getHash p) (i + 1) = bit_at own (i + 1)) y) as Hy.
  { rewrite Forall_forall in *. intros p Hp. apply Hall. eapply elem_of_bucket; [exact Hx|].
    by apply (elem_of_remove_if is_bad). }
  assert (∀ p, p ∈ y → shared i p = S (shared (i + 1) p)) as Hsh.
  { intros p Hp. rewrite (shared_step _ p Hi Hlt). rewrite Forall_forall in Hy. by rewrite (Hy p Hp), eqb_reflx. }
  cbn [length]. destruct (decide (S j = length t)) as [El|El];
    [rewrite decide_True by lia|rewrite decide_False by lia; done].
  destruct (decide (i + Z.of_nat (S j) + 1 < 8 * Z.of_nat L)%Z);
    [rewrite decide_True by lia|rewrite decide_False by lia; done].
  cbn [take app]. rewrite <-IH.
  - do 3 f_equal. f_equal; [|f_equal]; apply filter_ext_in; intros p Hp; rewrite (Hsh p Hp); lia.
  - rewrite length_app. simpl. lia.
  - rewrite Forall_forall in *. intros p. rewrite concat_app, elem_of_app. cbn [concat].
    rewrite !elem_of_app, !list_elem_of_filter. intros [Hp|[[_ Hp]|[[_ Hp]|Hp]]]; [|by apply Hy|by apply Hy|by apply elem_of_nil in Hp].
    apply Hall. rewrite <-(take_drop j t), concat_app. apply elem_of_app. by left.
Qed.

(** A node of the other side goes to the first bucket, which is never divided. *)
Lemma table_add_far fuel fuel' i hf t node force b' : (0 ≤ i)%Z → (i + 1 < 8 * Z.of_nat L)%Z → 0 < length t →
  bit_at (getHash node) (i + 1) ≠ bit_at own (i + 1) → k hf = kk → splittable hf = false → fuel ≤ fuel' →
  addNode getHash getReliability fuel (Leaf hf) node force = Ret b' →
  table_add fuel' i (bucket_contents hf :: t) node force = Some (nodes b' :: t).
Proof.
  intros Hi Hlt Ht Hb Hk Hs Hf H. destruct fuel as [|fuel]; [done|]. destruct fuel' as [|fuel']; [lia|]. cbn [table_add].
  assert (place i (bucket_contents hf :: t) node = 0) as ->.
  { unfold place. rewrite (shared_step _ node Hi Hlt). destruct (Bool.eqb _ _) eqn:E; [|done]. by apply eqb_prop in E. }
  rewrite (list_lookup_total_correct _ 0 (bucket_contents hf)) by done.
  apply addNode_leaf in H as [[Hsz ->]|[Hsz [[Hin ->]|[(Hin & _ & ->)|(_ & Hs' & _)]]]]; rewrite Hk in Hsz.
  - by rewrite decide_True by lia.
  - rewrite decide_False by lia. by rewrite decide_True.
  - rewrite decide_False by lia. rewrite decide_False by done. cbn [length]. rewrite decide_False by lia. by destruct force.
  - congruence.
Qed.

(** What [addNode] does with this fuel the table does with as much. *)
Definition simulates (fuel : nat) (node : Z) (force : bool) : Prop :=
  ∀ b b' fuel', wf b → mine b → addNode getHash getReliability fuel b node force = Ret b' → fuel ≤ fuel' →
    table_add fuel' (index (hdr b)) (flatten b) node force = Some (flatten b').

Lemma simulates_split fuel node force h f s b' fuel' : hash_ok getHash L node → simulates fuel node force →
  wf (Split h f s) → mine (Split h f s) →
  at_bucket (Split h f s) (getHash node) (λ c, addNode getHash getReliability fuel c node force) = Ret b' → fuel ≤ fuel' →
  table_add fuel' (index h) (flatten (Split h f s)) node force = Some (flatten b').
Proof.
  intros Hn IH Hwf Hm H Hf.
  destruct (mine_split h f s Hwf Hm) as (hf & near & Hside & -> & Hwl & Hkf & Hsf & Hwn & Hmn & Hin & Hi & Hlt & Hnear & _).
  assert (node_hash_ptr h = own) as Ho by apply Hm. pose proof (flatten_length near) as Hlen.
  assert (∀ near', bit_at (getHash node) (index h + 1) = bit_at own (index h + 1) →
    addNode getHash getReliability fuel near node force = Ret near' →
    table_add fuel' (index h) (bucket_contents hf :: flatten near) node force = Some (bucket_contents hf :: flatten near')) as Hgo.
  { intros near' Hb Hadd. rewrite table_add_cons by (try done; by rewrite flatten_nodes). rewrite <-Hin.
    by rewrite (IH near near' fuel' Hwn Hmn Hadd Hf). }
  destruct (at_bucket_inv getHash L h f s node _ b' Hwf Hn H) as [[Hb (c & Hc & ->)]|[Hb (c & Hc & ->)]]; cbn [flatten]; rewrite Ho;
    destruct (bit_at own (index h + 1)) eqn:Eo; destruct Hside as [-> ->].
  - eapply table_add_far; [done|done|done|congruence|done|done|exact Hf|exact Hc].
  - by apply Hgo; [congruence|].
  - by apply Hgo; [congruence|].
  - eapply table_add_far; [done|done|done|congruence|done|done|exact Hf|exact Hc].
Qed.

Lemma addNode_simulates fuel node force : hash_ok getHash L node → simulates fuel node force.
Proof.
  intros Hn. induction fuel as [|fuel IH]; intros b b' fuel' Hwf Hm H Hf; [done|]. destruct fuel' as [|fuel']; [lia|].
  destruct b as [h|h f s].
  2: { cbn [addNode] in H. eapply simulates_split; [done| |done|done|exact H|]; [exact IH|lia]. }
  destruct Hm as (Hk & Ho & Hs). cbn [hdr] in *. cbn [flatten table_add]. change (place (index h) [bucket_contents h] node) with
    (Nat.min (shared (index h) node) 0). rewrite Nat.min_0_r.
  rewrite (list_lookup_total_correct [bucket_contents h] 0 (bucket_contents h)) by done.
  apply addNode_leaf in H as [[Hsz ->]|[Hsz [[Hin ->]|[(_ & Hs' & _)|(Hin & _ & b1 & H1 & H2)]]]]; [..|congruence|]; rewrite Hk in Hsz.
  - by rewrite decide_True by lia.
  - rewrite decide_False by lia. by rewrite decide_True.
  - rewrite decide_False by lia. rewrite decide_False by done. rewrite decide_True by done.
    pose proof (proj1 (wf_cleaned getHash getReliability L h node Hwf)) as Hwc.
    pose proof (split_Ret_range getHash L (cleaned getReliability h) b1 Hwc Hs H1) as Hlt. cbn [cleaned set_contents index] in Hlt.
    rewrite decide_True by lia. destruct (wf_split getHash getReliability L (cleaned getReliability h) b1 Hwc Hs H1) as (Hw1 & _ & _ & Hsp & _).
    rewrite (split_spec getHash L) in H1 by done. injection H1 as <-.
    assert (0 ≤ index h)%Z as Hi by apply Hwf.
    eapply simulates_split in H2; [|done|exact IH|done|done|]; [|instantiate (1 := fuel'); lia].
    rewrite <-H2. cbn [set_contents cleaned index bucket_contents]. f_equal. cbn [take app flatten node_hash_ptr set_contents index cleaned child nodes bucket_contents]. rewrite Ho.
    unfold side_nodes. destruct (bit_at own (index h + 1)) eqn:Eo; (f_equal; [|f_equal]); apply filter_ext_in; intros p Hp;
      rewrite (shared_step _ p Hi Hlt), Eo; destruct (bit_at (getHash p) (index h + 1)); simpl; split; (done || lia).
Qed.

(** ** [removeNode] and [rebuild] *)

Lemma removeNode_table b b' node : wf b → mine b → hash_ok getHash L node → removeNode getHash b node = Ret b' →
  flatten b' = table_remove (index (hdr b)) (flatten b) node.
Proof.
  revert b'. induction b as [h|h f IHf s IHs]; intros b' Hwf Hm Hn H.
  { injection H as <-. unfold table_remove, place. cbn [flatten length]. by rewrite Nat.min_0_r. }
  destruct (mine_split h f s Hwf Hm) as (hf & near & Hside & -> & Hwl & Hkf & Hsf & Hwn & Hmn & Hin & Hi & Hlt & _).
  assert (node_hash_ptr h = own) as Ho by apply Hm. pose proof (flatten_length near) as Hlen. cbn [hdr].
  unfold table_remove. cbn [removeNode] in H. rewrite (getBit_ok L) in H by (done || lia). cbn [mbind outcome_bind] in H.
  assert (∀ x, bit_at (getHash node) (index h + 1) ≠ bit_at own (index h + 1) → removeNode getHash (Leaf hf) node = Ret x →
    nodes x :: flatten near = alter (erase_first node) (place (index h) (bucket_contents hf :: flatten near) node) (bucket_contents hf :: flatten near)) as Hfar.
  { intros x Hb [= <-]. unfold place. rewrite (shared_step _ node Hi Hlt). destruct (Bool.eqb _ _) eqn:E; [by apply eqb_prop in E|done]. }
  assert (∀ x, bit_at (getHash node) (index h + 1) = bit_at own (index h + 1) →
    flatten x = table_remove (index (hdr near)) (flatten near) node →
    bucket_contents hf :: flatten x = alter (erase_first node) (place (index h) (bucket_contents hf :: flatten near) node) (bucket_contents hf :: flatten near)) as Hnear.
  { intros x Hb ->. rewrite place_cons_near by done. unfold table_remove. by rewrite Hin. }
  destruct (bit_at (getHash node) (index h + 1)) eqn:Eb; apply bind_Ret in H as (x & Hx & [= <-]); cbn [flatten]; rewrite Ho;
    destruct (bit_at own (index h + 1)) eqn:Eo; destruct Hside as [-> ->]; try (by apply Hfar); apply Hnear; auto.
Qed.

(** Trees that stand for tables at the root. *)
Definition rooted (b : KBucket) : Prop := wf b ∧ mine b ∧ index (hdr b) = 0%Z.

Lemma rooted_add fuel b b' node force : rooted b → hash_ok getHash L node →
  addNode getHash getReliability fuel b node force = Ret b' →
  rooted b' ∧ table_add fuel 0 (flatten b) node force = Some (flatten b').
Proof.
  intros (Hwf & Hm & Hi) Hn H. pose proof (addNode_simulates fuel node force Hn b b' fuel Hwf Hm H ltac:(lia)) as Ht.
  rewrite Hi in Ht. split; [|done].
  destruct (addNode_grows getHash getReliability L fuel node force b b' Hn Hwf H) as (Hw & (H1 & H2 & H3 & H4) & _).
  destruct Hm as (Hk & Ho & Hs). split; [done|]. split; [|congruence]. repeat split; congruence.
Qed.

Lemma rooted_adds fuel l b b' : rooted b → Forall (hash_ok getHash L) l →
  foldM (λ b node, addNode getHash getReliability fuel b node false) b l = Ret b' →
  rooted b' ∧ foldl (λ r node, t ← r; table_add fuel 0 t node false) (Some (flatten b)) l = Some (flatten b').
Proof.
  intros Hb Hl. revert b Hb. induction Hl as [|x l Hx _ IH]; intros b Hb H; [by injection H as <-|].
  cbn [foldM] in H. apply bind_Ret in H as (b1 & H1 & H2). destruct (rooted_add _ _ _ _ _ Hb Hx H1) as [Hb1 Ht].
  cbn [foldl mbind option_bind]. rewrite Ht. by apply IH.
Qed.

Lemma rooted_step fuel b op b' : rooted b → kstep getHash getReliability L fuel b op b' →
  rooted b' ∧ table_exec fuel (flatten b) op = Some (flatten b').
Proof.
  intros Hb [Hok H]. pose proof Hb as (Hwf & (Hk & Ho & Hs) & Hi). destruct op as [node force|node|nh l]; cbn [exec_kop kop_ok table_exec] in *.
  - by apply rooted_add.
  - destruct (removeNode_spec getHash getReliability L b node Hok Hwf) as (b1 & Hb1 & (Hw & (H1 & H2 & H3 & H4) & _) & _).
    rewrite Hb1 in H. injection H as <-. split; [split; [done|split; [repeat split|]]; congruence|].
    rewrite <-Hi. by rewrite <-(removeNode_table b b1 node).
  - eapply (rooted_adds fuel l (Leaf (set_contents (hdr b) []))) in H; [exact H| |done].
    split; [split; [by apply wf_hdr in Hwf|constructor]|]. by repeat split.
Qed.
Lemma rooted_star fuel b ops b' : rooted b → star (kstep getHash getReliability L fuel) b ops b' →
  rooted b' ∧ table_run fuel (flatten b) ops = Some (flatten b').
Proof.
  intros Hb Hst. revert Hb. induction Hst as [|b1 b2 b3 op ops H1 _ IH]; intros Hb; [done|].
  destruct (rooted_step _ _ _ _ Hb H1) as [Hb2 Ht]. unfold table_run. cbn [foldl mbind option_bind]. rewrite Ht. by apply IH.
Qed.
End Table.

(** ** Properties *)

(** C15 The k-bucket tree is a Kademlia routing table: any sequence of
    [addNode], [removeNode] and [rebuild] calls that returns has the effect of
    the corresponding operations on a plain list of buckets, which looks only at
    how many bits a node's hash shares with the own hash; in it bucket [j] holds
    the nodes sharing exactly [j] bits after the first, the last bucket the
    nodes sharing at least as many, and together they are the stored nodes. *)
Theorem kbucket_table_equiv (getHash : Z → bytes) (getReliability : Z → Reliability)
    (L fuel : nat) (own : bytes) (kk : Z) (ops : list kop) (b : KBucket)
    (HL : 0 < L) (Hown : length own = L)
    (Hrun : star (kstep getHash getReliability L fuel) (KBucket_new own kk) ops b) :
  table_run getHash getReliability L own kk fuel [[]] ops = Some (flatten b) ∧
  concat (flatten b) ≡ₚ nodes b ∧
  (∀ j c p, flatten b !! j = Some c → p ∈ c →
     j ≤ shared getHash L own 0 p ∧ (S j < length (flatten b) → shared getHash L own 0 p = j)).
Proof.
  destruct (rooted_star getHash getReliability L own kk fuel (KBucket_new own kk) ops b) as [(Hwf & Hm & Hi) Ht]; [|done|].
  { split; [by apply wf_new|]. by repeat split. }
  split; [exact Ht|]. split; [apply flatten_nodes|]. intros j c p Hj Hp. rewrite <-Hi. by eapply flatten_places.
Qed.

(** A bucket of two for the hash 0 that has split once. *)
Lemma kbucket_table_equiv_witness :
  table_run (λ p, [byte_of p]) (λ _, GOOD) 1 [x00] 2 20 [[]] [KAdd 64 false; KAdd 1 false; KAdd 3 false; KRemove 1]
    = Some [[64]; [3]]%Z.
Proof.
  refine (proj1 (kbucket_table_equiv (λ p, [byte_of p]) (λ _, GOOD) 1 20 [x00] 2
    [KAdd 64 false; KAdd 1 false; KAdd 3 false; KRemove 1]
    (Split (mkKb 0 2 [] true [x00]) (Leaf (mkKb 1 2 [3]%Z true [x00])) (Leaf (mkKb 1 2 [64]%Z false [x00]))) _ eq_refl _)); [lia|].
  repeat (eapply star_cons; [split; [reflexivity|vm_compute; reflexivity]|]). apply star_nil.
Defined.
