(* ===== verification/DHTService.v ===== *)
(** * The DHT service ([daemon/dht/DHTService.cpp], [DHTService.h])

    [DHTService] is an abstract class: [send] and [foundNode] are pure virtual
    and appear as effects, [getClosestTo] is virtual and [process] takes the
    implementation the object dispatches to.  [i0] is the value of the
    uninitialised loop variable of [Hash::operator^]. *)

From S2P Require Import Prelude StdMap Crypto KBucket.
Import HashM.
From Stdlib Require Import ZArith Lia.
From Stdlib.Strings Require Import Byte.

Inductive DHTMessageType :=
| STORE | FIND_NODE | FIND_VALUE | DELETE | FIND_NODE_REPLY | FIND_VALUE_REPLY.

#[global] Instance DHTMessageType_eq_dec : EqDecision DHTMessageType.
Proof. solve_decision. Defined.

(** The protobuf message [DHTPart]. *)
Record DHTPart := mkDHTPart {
  ns : option bytes;
  part_hash : option bytes;
  message_type : DHTMessageType;
  serialized_contact_list : list bytes;
}.

Inductive RPC_Status := READY | SENT_REQUEST.

#[global] Instance RPC_Status_eq_dec : EqDecision RPC_Status.
Proof. solve_decision. Defined.

(** [Search]; the map's [operator[]] value-initialises it. *)
Record Search := mkSearch {
  searching_hash : bytes;
  closest_node : option Z;
  shortlist : list (Z * RPC_Status);
}.

Record DHTService := mkDHTService {
  alpha : Z; k : Z; B : Z;
  tExpire : Z; tRefresh : Z; tReplicate : Z; tRepublish : Z;
  searches : list Search;
  k_buckets : option KBucket;
}.

Definition system_ns : bytes := cstr "system".

(** The constructor, and its default arguments; subclasses set [k_buckets]. *)
Definition DHTService_new (alpha k B tExpire tRefresh tReplicate tRepublish : Z) : DHTService :=
  mkDHTService (u16 alpha) (u16 k) (u16 B) tExpire tRefresh tReplicate tRepublish [] None.
Definition DHTService_default : DHTService := DHTService_new 3 20 224 86400 3600 3600 86410.

Inductive dht_effect :=
| Send (dest : bytes) (part : DHTPart)
| FoundNode (contact : bytes).

Section DHTService.
Context (getHash : Z → bytes) (getSerializedContact : Z → bytes).

(** [DHTService::getClosestTo]: the body calls itself. *)
Fixpoint getClosestTo (fuel : nat) (hash : bytes) (count : Z) : outcome (list Z) :=
  match fuel with
  | O => OutOfFuel
  | S fuel => getClosestTo fuel hash count
  end.

Definition findAny (find_hash dest_hash : bytes) (action : DHTMessageType) : dht_effect :=
  Send dest_hash (mkDHTPart None (Some find_hash) action []).

Definition findNode (find_hash dest_hash : bytes) : dht_effect := findAny find_hash dest_hash FIND_NODE.
Definition findValue (find_hash dest_hash : bytes) : dht_effect := findAny find_hash dest_hash FIND_VALUE.

(** [node->getHash() ^ find_hash < closest_distance]: [<] binds tighter than
    [^], so this is [bool(node->getHash()) ^ (find_hash < closest_distance)]. *)
Definition closer (i0 : nat) (find_hash : bytes) (closest node : Z) : bool :=
  let closest_distance := Hash_xor i0 (mkHash (getHash closest) false) (mkHash find_hash false) in
  xorb (Hash_bool (mkHash (getHash node) false)) (Hash_lt (mkHash find_hash false) closest_distance).

(** The body of the loop over the closest nodes. *)
Definition search_visit (i0 : nat) (find_hash : bytes) (s : Search) (node : Z) : Search :=
  mkSearch (searching_hash s)
    (match closest_node s with
     | Some c => if closer i0 find_hash c node then Some node else Some c
     | None => Some node
     end)
    (sm_assign node READY (shortlist s)).

(** The loop over the shortlist, which [auto node] copies entry by entry. *)
Definition search_requests (s : Search) (action : DHTMessageType) : list dht_effect :=
  (λ e : Z * RPC_Status, findAny (searching_hash s) (getHash e.1) action) <$>
    filter (λ e : Z * RPC_Status, e.2 = READY) (shortlist s).

Definition findAnyIterative (fuel i0 : nat) (s : DHTService) (find_hash : bytes)
    (action : DHTMessageType) : outcome (DHTService * list dht_effect) :=
  match k_buckets s with
  | None => Undef null_deref
  | Some b =>
      l ← getClosest fuel b find_hash (alpha s);
      let this_search := foldl (search_visit i0 find_hash) (mkSearch find_hash None []) l in
      Ret (mkDHTService (alpha s) (k s) (B s) (tExpire s) (tRefresh s) (tReplicate s) (tRepublish s)
             (searches s ++ [this_search]) (k_buckets s),
           search_requests this_search action)
  end.

Definition findNodeIterative (fuel i0 : nat) (s : DHTService) (find_hash : bytes) :=
  findAnyIterative fuel i0 s find_hash FIND_NODE.
Definition findValueIterative (fuel i0 : nat) (s : DHTService) (find_hash : bytes) :=
  findAnyIterative fuel i0 s find_hash FIND_VALUE.

(** The operations the base class leaves empty. *)
Definition storeValue (value dest_hash : bytes) : list dht_effect := [].
Definition pingNode (dest_hash : bytes) : list dht_effect := [].
Definition storeValueIterative (value : bytes) : list dht_effect := [].

(** [process]; [closest] is the [getClosestTo] of the object's class, and the
    [uint16_t k] becomes its [int16_t] argument. *)
Definition process (closest : bytes → Z → outcome (list Z)) (s : DHTService)
    (from : bytes) (dht_part : DHTPart) : outcome (list dht_effect) :=
  let find (reply_type : DHTMessageType) :=
    kClosest ← closest (default [] (part_hash dht_part)) (i16 (k s));
    Ret [Send from (mkDHTPart (Some system_ns) (Some (default [] (part_hash dht_part))) reply_type
                      (getSerializedContact <$> kClosest))] in
  match message_type dht_part with
  | FIND_NODE => find FIND_NODE_REPLY
  | FIND_VALUE => find FIND_VALUE_REPLY
  | FIND_NODE_REPLY => Ret (FoundNode <$> serialized_contact_list dht_part)
  | FIND_VALUE_REPLY => Ret []
  | STORE | DELETE => Ret []
  end.

(** ** Lemmas *)

Lemma getClosestTo_diverges fuel hash count : getClosestTo fuel hash count = OutOfFuel.
Proof. clear getHash getSerializedContact. induction fuel; simpl; auto. Qed.

Lemma visit_shortlist i0 fh l s :
  sm_sorted (shortlist s) → Forall (λ e : Z * RPC_Status, e.2 = READY) (shortlist s) →
  let s' := foldl (search_visit i0 fh) s l in
  searching_hash s' = searching_hash s ∧ sm_sorted (shortlist s') ∧
  Forall (λ e : Z * RPC_Status, e.2 = READY) (shortlist s') ∧
  (∀ p, p ∈ (shortlist s').*1 ↔ p ∈ l ∨ p ∈ (shortlist s).*1).
Proof.
  clear getSerializedContact. revert s. induction l as [|x l IH]; intros s Hs Hr; simpl.
  { repeat split; try done; [by right|by intros [?%elem_of_nil|]]. }
  destruct (IH (search_visit i0 fh s x)) as (H1 & H2 & H3 & H4); simpl.
  - by apply sm_assign_sorted.
  - clear IH Hs. induction (shortlist s) as [|[k1 v1] m IHm]; simpl; [by repeat constructor|].
    inversion Hr; subst. repeat case_decide; repeat constructor; simpl in *; auto.
  - split; [done|]. split; [done|]. split; [done|]. intros p. rewrite H4. simpl.
    rewrite sm_assign_keys, elem_of_cons. tauto.
Qed.
End DHTService.

(** ** Properties *)

(** The requests of an iterative search: whatever nodes the bucket yields
    and whatever the uninitialised loop variable holds, the shortlist holds
    each of them once, in pointer order and READY, and one request with the
    searched hash is sent to each of them and to nobody else. *)
Theorem search_sends_each_once (getHash : Z → bytes) (i0 : nat) (find_hash : bytes)
    (action : DHTMessageType) (l : list Z) :
  let s := foldl (search_visit getHash i0 find_hash) (mkSearch find_hash None []) l in
  StronglySorted Z.lt (shortlist s).*1 ∧ (∀ p, p ∈ (shortlist s).*1 ↔ p ∈ l) ∧
  search_requests getHash s action =
    (λ p, Send (getHash p) (mkDHTPart None (Some find_hash) action [])) <$> (shortlist s).*1.
Proof.
  intros s. destruct (visit_shortlist getHash i0 find_hash l (mkSearch find_hash None []))
    as (H1 & H2 & H3 & H4); [constructor|constructor|]. fold s in H1, H2, H3, H4.
  split; [done|]. split.
  - intros p. rewrite H4. simpl. split; [|by left]. by intros [|?%elem_of_nil].
  - unfold search_requests. rewrite filter_all by done. rewrite H1. simpl. by rewrite <-list_fmap_compose.
Qed.

(** No iterative search ends: with a positive [alpha] (the default is 3)
    [findAnyIterative] returns on no bucket and for no hash, because the
    bucket's [getClosest] does not; and the [getClosestTo] of the base class
    never returns, so a node that does not override it never answers a
    FIND_NODE or FIND_VALUE request. *)
Theorem searches_never_end (getHash getSerializedContact : Z → bytes) (fuel i0 : nat) (s : DHTService)
    (hash from : bytes) (action : DHTMessageType) (part : DHTPart) :
  ((0 < alpha s)%Z → ∀ r, findAnyIterative getHash fuel i0 s hash action ≠ Ret r) ∧
  (message_type part = FIND_NODE ∨ message_type part = FIND_VALUE →
   process getSerializedContact (getClosestTo fuel) s from part = OutOfFuel).
Proof.
  split.
  - intros Ha r Hr. unfold findAnyIterative in Hr. destruct (k_buckets s); [|done].
    apply bind_Ret in Hr as (l & Hl & _). apply getClosest_Ret in Hl. lia.
  - intros [E|E]; unfold process; rewrite E; simpl; by rewrite getClosestTo_diverges.
Qed.

(** A class that answers: when the overriding [getClosestTo] returns nodes,
    a FIND_NODE or FIND_VALUE request is answered by exactly one message, to
    the asking node, with the query's hash, the system namespace, the matching
    reply type and the contacts of these nodes in order; the override is asked
    for [k] nodes as long as [k] fits an [int16_t].  A FIND_NODE_REPLY reports
    every contact, in order, and sends nothing. *)
Theorem process_replies (getSerializedContact : Z → bytes) (closest : bytes → Z → outcome (list Z))
    (s : DHTService) (from hash : bytes) (part : DHTPart) (l : list Z)
    (Hk : (0 ≤ k s < 2 ^ 15)%Z) (Hhash : part_hash part = Some hash)
    (Hl : closest hash (k s) = Ret l) :
  (message_type part = FIND_NODE →
    process getSerializedContact closest s from part =
      Ret [Send from (mkDHTPart (Some system_ns) (Some hash) FIND_NODE_REPLY (getSerializedContact <$> l))]) ∧
  (message_type part = FIND_VALUE →
    process getSerializedContact closest s from part =
      Ret [Send from (mkDHTPart (Some system_ns) (Some hash) FIND_VALUE_REPLY (getSerializedContact <$> l))]) ∧
  (message_type part = FIND_NODE_REPLY →
    process getSerializedContact closest s from part = Ret (FoundNode <$> serialized_contact_list part)).
Proof.
  unfold process. rewrite Hhash, i16_small by lia. simpl. rewrite Hl.
  repeat split; by intros ->.
Qed.

Lemma process_replies_witness :
  process (λ p, [byte_of p]) (λ _ _, Ret [7]%Z) DHTService_default [x01]
    (mkDHTPart None (Some [x05]) FIND_NODE []) =
  Ret [Send [x01] (mkDHTPart (Some system_ns) (Some [x05]) FIND_NODE_REPLY [[x07]])].
Proof.
  destruct (process_replies (λ p, [byte_of p]) (λ _ _, Ret [7]%Z) DHTService_default [x01] [x05]
    (mkDHTPart None (Some [x05]) FIND_NODE []) [7]%Z) as (H & _ & _).
  - vm_compute. split; [discriminate|reflexivity].
  - reflexivity.
  - reflexivity.
  - apply H. reflexivity.
Defined.

(** The closest node of a search is not the closest: the comparison parses
    as [bool(hash) ^ (find_hash < distance)], so a node with a hash replaces
    the current one exactly when the searched hash is not below the current
    distance, whatever its own distance; two nodes and a searched hash show a
    search that ends with the farther one although [^] itself is right. *)
Theorem closest_node_not_nearest :
  (∀ (getHash : Z → bytes) i0 find_hash c p, getHash p ≠ [] →
    closer getHash i0 find_hash c p =
      negb (Hash_lt (mkHash find_hash false)
              (Hash_xor i0 (mkHash (getHash c) false) (mkHash find_hash false)))) ∧
  ∃ (getHash : Z → bytes) (find_hash : bytes) (near far : Z),
    let s := foldl (search_visit getHash 0 find_hash) (mkSearch find_hash None []) [near; far] in
    closest_node s = Some far ∧
    Hash_lt (Hash_xor 0 (mkHash (getHash near) false) (mkHash find_hash false))
            (Hash_xor 0 (mkHash (getHash far) false) (mkHash find_hash false)) = true.
Proof.
  split.
  - intros gh i0 fh c p Hp. unfold closer, Hash_bool. simpl. by rewrite bool_decide_false.
  - exists (λ p, [byte_of p]), [x09], 8%Z, 240%Z. vm_compute. done.
Qed.
