(* ===== verification/KeyProvider.v ===== *)
(** * Key rotation ([daemon/overlay/KeyProvider.cpp], [KeyProvider.h])

    Time points are nanoseconds of [std::chrono::system_clock]; intervals are
    seconds.  The generator thread is joined before its effects are used, so a
    renewal is one step; the time it reads and the scalar its generator draws
    are arguments. *)

From S2P Require Import Prelude Common Crypto Config.
Import HashM KeyM.
From Stdlib Require Import ZArith Lia.
From Stdlib.Strings Require Import Byte.

Definition ns_per_s : Z := 1000000000.
(** [system_clock::to_time_t] and [from_time_t]. *)
Definition to_time_t (t : Z) : Z := Z.quot t ns_per_s.
Definition from_time_t (t : Z) : Z := t * ns_per_s.

(** [Handshake.SignedHandshake.KeyInfo]. *)
Record KeyInfoPB := mkKeyInfoPB { ecdsa_key : bytes; pb_expiration_time : Z; pb_lose_time : Z }.

Section KeyProvider.
Context {EC : ECDSA} {DG : Digest} {P : PTree}.

Record KeyInfo := mkKeyInfo {
  private_key : PrivateKeyDSA;
  public_key : PublicKeyDSA;
  th : Hash;
  expiration_time : Z;
  lose_time : Z;
}.

(** A default-constructed [KeyInfo]. *)
Definition KeyInfo_new : KeyInfo := mkKeyInfo None None Hash_new 0 0.

(** The implicit copy constructor copies every member. *)
Definition KeyInfo_copy (ki : KeyInfo) : outcome KeyInfo :=
  sk ← PrivateKeyDSA_copy (private_key ki);
  pk ← PublicKeyDSA_copy (public_key ki);
  Ret (mkKeyInfo sk pk (Hash_copy (th ki)) (expiration_time ki) (lose_time ki)).

Definition fromProtobuf (this : KeyInfo) (pb : KeyInfoPB) : outcome KeyInfo :=
  pk ← setAsBinaryString (public_key this) (ecdsa_key pb);
  h ← Hash_of_public pk;
  Ret (mkKeyInfo (private_key this) pk h
         (from_time_t (pb_expiration_time pb)) (from_time_t (pb_lose_time pb))).

Definition toProtobuf (this : KeyInfo) : outcome KeyInfoPB :=
  b ← toBinaryString (public_key this);
  Ret (mkKeyInfoPB b (to_time_t (expiration_time this)) (to_time_t (lose_time this))).

Record KeyProvider := mkKeyProvider {
  history : list KeyInfo;
  max_history_size : Z;
  expiration_interval : Z;
  lose_interval : Z;
  timer_expiry : option Z;
}.

(** The rotation signal is posted to the I/O thread as a closure. *)
Inductive kp_effect := PostRotation.

Definition renewKeys (s : KeyProvider) (now rng : Z) : outcome (KeyProvider * list kp_effect) :=
  let new_sk := generateKey rng in
  new_pk ← derivePublicKey new_sk;
  new_th ← Hash_of_private new_sk;
  let new_info := mkKeyInfo new_sk new_pk new_th
    (now + expiration_interval s * ns_per_s) (now + lose_interval s * ns_per_s) in
  let effects := if decide (history s = []) then [] else [PostRotation] in
  let pushed := new_info :: history s in
  let history' := if decide (max_history_size s < Z.of_nat (length pushed))%Z
                  then removelast pushed else pushed in
  match history' with
  | [] => Undef null_deref                       (* [history.front()] of the log line *)
  | _ :: _ => Ret (mkKeyProvider history' (max_history_size s) (expiration_interval s)
                     (lose_interval s) (Some (expiration_time new_info)), effects)
  end.

(** The posted closure: it reads [history.front()] when it runs, and the local
    [new_info] of a [renewKeys] call that may have returned. *)
Definition rotation_closure (s : KeyProvider) (new_info : option KeyInfo) : outcome (KeyInfo * KeyInfo) :=
  match new_info, history s with
  | Some n, f :: _ => Ret (f, n)
  | None, _ => Undef dangling_ref
  | _, [] => Undef null_deref
  end.

(** The constructor: [loopGenerate] and the [join] of its thread. *)
Definition KeyProvider_new (c : ConfigManager) (now rng : Z) : outcome (KeyProvider * list kp_effect) :=
  hs ← getValue as_uint c "overlay.key_provider.history_size";
  ri ← getValue as_uint c "overlay.key_provider.renew_interval";
  let max := (Z.of_N hs +32 1)%word in
  renewKeys (mkKeyProvider [] max (Z.of_N ri) (Z.of_N ri *32 max)%word None) now rng.

Definition getKeyInfo (s : KeyProvider) (offset : Z) : outcome (option KeyInfo) :=
  match history s !! Z.to_nat offset with
  | Some ki => c ← KeyInfo_copy ki; Ret (Some c)
  | None => Ret None
  end.

Definition getKeyInfo_th (s : KeyProvider) (recent_th : Hash) : outcome (option KeyInfo) :=
  match list_find (λ ki, Hash_eq (th ki) recent_th = true) (history s) with
  | Some (_, ki) => c ← KeyInfo_copy ki; Ret (Some c)
  | None => Ret None
  end.

(** ** Lemmas *)

(** A key pair with the hash of its public key. *)
Definition key_ok (ki : KeyInfo) : Prop :=
  ∃ s, private_key ki = Some s ∧ public_key ki = Some (pk_of_sk s) ∧
       hash (th ki) = keccak224 (x509_ber (pk_of_sk s)).

Definition new_key (s : KeyProvider) (now rng : Z) : KeyInfo :=
  mkKeyInfo (Some (sk_of_bigint rng)) (Some (pk_of_sk (sk_of_bigint rng)))
    (mkHash (keccak224 (x509_ber (pk_of_sk (sk_of_bigint rng)))) true)
    (now + expiration_interval s * ns_per_s) (now + lose_interval s * ns_per_s).

Lemma new_key_ok s now rng : key_ok (new_key s now rng).
Proof. by eexists. Qed.

Lemma key_ok_copy ki : key_ok ki →
  KeyInfo_copy ki = Ret (mkKeyInfo (private_key ki) (public_key ki) (Hash_copy (th ki)) (expiration_time ki) (lose_time ki)).
Proof. intros (s & Hs & Hp & _). unfold KeyInfo_copy. by rewrite Hs, Hp. Qed.

Definition kp_wf (s : KeyProvider) : Prop :=
  (1 ≤ max_history_size s)%Z ∧ (Z.of_nat (length (history s)) ≤ max_history_size s)%Z ∧
  Forall key_ok (history s).

Lemma renewKeys_unfold s now rng :
  renewKeys s now rng =
    let pushed := new_key s now rng :: history s in
    let history' := if decide (max_history_size s < Z.of_nat (length pushed))%Z
                    then removelast pushed else pushed in
    match history' with
    | [] => Undef null_deref
    | _ :: _ => Ret (mkKeyProvider history' (max_history_size s) (expiration_interval s)
                       (lose_interval s) (Some (now + expiration_interval s * ns_per_s)%Z),
                     if decide (history s = []) then [] else [PostRotation])
    end.
Proof. reflexivity. Qed.

(** Trimming drops at most the oldest key. *)
Lemma trim_eq {A} m (x : A) h : (1 ≤ m)%Z → (Z.of_nat (length h) ≤ m)%Z →
  (if decide (m < Z.of_nat (length (x :: h)))%Z then removelast (x :: h) else x :: h) = take (Z.to_nat m) (x :: h).
Proof.
  intros Hm Hl. case_decide as Hd; cbn [length] in Hd.
  - rewrite removelast_firstn_len. f_equal. simpl. lia.
  - rewrite take_ge; [done|]. simpl. lia.
Qed.

(** One renewal: the new key in front of as many old ones as there is room for. *)
Lemma renewKeys_spec s now rng : kp_wf s →
  ∃ s', renewKeys s now rng = Ret (s', if decide (history s = []) then [] else [PostRotation]) ∧
    history s' = take (Z.to_nat (max_history_size s)) (new_key s now rng :: history s) ∧
    max_history_size s' = max_history_size s ∧ expiration_interval s' = expiration_interval s ∧
    lose_interval s' = lose_interval s ∧
    timer_expiry s' = Some (now + expiration_interval s * ns_per_s)%Z ∧ kp_wf s'.
Proof.
  intros (Hmax & Hlen & Hok). pose proof (new_key_ok s now rng) as Hnew.
  set (new := new_key s now rng) in *.
  rewrite renewKeys_unfold. fold new. cbv zeta. rewrite trim_eq by done.
  destruct (Z.to_nat (max_history_size s)) as [|m] eqn:Em; [lia|]. cbn [take].
  eexists. split; [done|]. cbn [history max_history_size expiration_interval lose_interval timer_expiry].
  do 5 (split; [done|]). split; [done|]. split.
  - cbn [history length max_history_size]. rewrite length_take. lia.
  - cbn [history]. constructor; [done|]. by apply Forall_take.
Qed.

Lemma renewKeys_overflow s now rng :
  max_history_size s = 0%Z → history s = [] → renewKeys s now rng = Undef null_deref.
Proof. intros Hm Hh. unfold renewKeys. simpl. by rewrite Hm, Hh. Qed.

(** A run of renewals at the given times. *)
Definition renewals (s : KeyProvider) (l : list (Z * Z)) : outcome KeyProvider :=
  foldM (λ s e, r ← renewKeys s e.1 e.2; Ret r.1) s l.

(** The keys a run generates, newest first, in front of [acc]. *)
Definition generated (s : KeyProvider) (l : list (Z * Z)) (acc : list KeyInfo) : list KeyInfo :=
  foldl (λ acc e, new_key s e.1 e.2 :: acc) acc l.

Lemma generated_intervals s s' l acc :
  expiration_interval s' = expiration_interval s → lose_interval s' = lose_interval s →
  generated s' l acc = generated s l acc.
Proof.
  intros H1 H2. unfold generated. revert acc. induction l as [|e l IH]; intros acc; simpl; [done|].
  rewrite <-IH. by unfold new_key; rewrite H1, H2.
Qed.

Lemma renewals_spec s l acc : kp_wf s → history s = take (Z.to_nat (max_history_size s)) acc →
  ∃ s', renewals s l = Ret s' ∧ kp_wf s' ∧ max_history_size s' = max_history_size s ∧
    history s' = take (Z.to_nat (max_history_size s)) (generated s l acc).
Proof.
  revert s acc. induction l as [|[now rng] l IH]; intros s acc Hwf Hacc; [by exists s|].
  destruct (renewKeys_spec s now rng Hwf) as (s1 & H1 & Hh & Hm & He & Hl & _ & Hwf1).
  unfold renewals. cbn [foldM fst snd]. rewrite H1. cbn [mbind outcome_bind fst].
  destruct (IH s1 (new_key s now rng :: acc) Hwf1) as (s' & H' & Hwf' & Hm' & Hh').
  { rewrite Hh, Hm, Hacc. destruct Hwf as [Hmax _].
    destruct (Z.to_nat (max_history_size s)) as [|m] eqn:E; [lia|]. cbn [take].
    by rewrite take_take, Nat.min_l by lia. }
  exists s'. split; [exact H'|]. split; [done|]. split; [congruence|].
  rewrite Hh', Hm. f_equal. exact (generated_intervals s s1 l (new_key s now rng :: acc) He Hl).
Qed.

(** Times at which the timer lets renewals happen: never before the previous
    key expired. *)
Fixpoint paced (interval last : Z) (l : list (Z * Z)) : Prop :=
  match l with
  | [] => True
  | (now, _) :: l => (last + interval * ns_per_s ≤ now)%Z ∧ paced interval now l
  end.

Lemma paced_generated s last l acc :
  (0 ≤ expiration_interval s)%Z → paced (expiration_interval s) last l →
  (∀ j ki, acc !! j = Some ki →
     (lose_time ki + Z.of_nat j * (expiration_interval s * ns_per_s) ≤ last + lose_interval s * ns_per_s)%Z) →
  ∀ j ki, generated s l acc !! j = Some ki →
    (lose_time ki + Z.of_nat j * (expiration_interval s * ns_per_s)
       ≤ List.last (last :: l.*1) last + lose_interval s * ns_per_s)%Z.
Proof.
  intros Hi. revert last acc. induction l as [|[now rng] l IH]; intros last acc Hp Hacc; [exact Hacc|].
  destruct Hp as [Hnow Hp].
  intros j ki Hj. specialize (IH now (new_key s now rng :: acc) Hp).
  replace (List.last (last :: ((now, rng) :: l).*1) last) with (List.last (now :: l.*1) now).
  { apply IH; [|exact Hj]. intros [|i] k Hk; simpl in Hk.
    - injection Hk as <-. simpl. lia.
    - apply Hacc in Hk. rewrite Nat2Z.inj_succ. lia. }
  cbn [fmap list_fmap fst]. generalize (l.*1). clear. intros l. change (now :: l) with ([now] ++ l).
  revert now. induction l as [|x l IH]; intros now; [done|].
  change (List.last ([now] ++ x :: l) now) with (List.last (x :: l) now).
  change (List.last (last :: [now] ++ x :: l) last) with (List.last (x :: l) last).
  clear. revert x. induction l as [|y l IH]; intros x; [done|]. apply (IH y).
Qed.

(** A key that is not lost at the last renewal is among the newest
    [max_history_size] ones. *)
Lemma kept_index (hs ri now rng : Z) (l : list (Z * Z)) (s0 : KeyProvider) (es : list kp_effect) (j : nat) (ki : KeyInfo) :
  (0 ≤ hs)%Z → (0 ≤ ri)%Z →
  renewKeys (mkKeyProvider [] (hs + 1) ri (ri * (hs + 1)) None) now rng = Ret (s0, es) →
  paced ri now l → generated s0 l (history s0) !! j = Some ki → (List.last (now :: l.*1) now < lose_time ki)%Z →
  j < Z.to_nat (hs + 1).
Proof.
  intros Hhs Hri Hnew Hpaced Hj Hlost. set (s1 := mkKeyProvider [] (hs + 1) ri _ None) in Hnew.
  assert (kp_wf s1) as Hwf1 by (repeat split; simpl; [lia|lia|constructor]).
  destruct (renewKeys_spec s1 now rng Hwf1) as (s0' & H0 & Hh0 & _ & He0 & Hl0 & _).
  rewrite H0 in Hnew. injection Hnew as <- _. simpl in He0, Hl0.
  assert (history s0' = [new_key s1 now rng]) as Hh1.
  { rewrite Hh0. cbn [s1 history max_history_size]. rewrite take_ge; [done|]. simpl. lia. }
  assert (lose_time ki + Z.of_nat j * (ri * ns_per_s)
            ≤ List.last (now :: l.*1) now + ri * (hs + 1) * ns_per_s)%Z as Hb.
  { pose proof (paced_generated s0' now l (history s0')) as Hpg. rewrite He0, Hl0 in Hpg.
    eapply Hpg; [lia|done| |done].
    rewrite Hh1. intros [|i] k Hk; simpl in Hk; [|done]. injection Hk as <-. simpl. lia. }
  unfold ns_per_s in *. destruct (decide (hs + 1 ≤ Z.of_nat j)%Z); [|lia].
  assert (ri * (hs + 1) ≤ Z.of_nat j * ri)%Z by nia. lia.
Qed.

(** Every entry of the history is found by its hash. *)
Lemma getKeyInfo_th_found (s : KeyProvider) (ki : KeyInfo) : Forall key_ok (history s) → ki ∈ history s →
  ∃ ki', getKeyInfo_th s (th ki) = Ret (Some ki') ∧ key_ok ki' ∧ hash (th ki') = hash (th ki).
Proof.
  intros Hok Hin. unfold getKeyInfo_th.
  destruct (list_find _ (history s)) as [[i ki']|] eqn:E.
  - apply list_find_Some in E as (Hi & Heq & _).
    assert (key_ok ki') as Hki' by (rewrite Forall_forall in Hok; apply Hok, list_elem_of_lookup; eauto).
    rewrite (key_ok_copy _ Hki'). eexists. split; [done|]. apply bool_decide_eq_true in Heq.
    split; [|done]. destruct Hki' as (x & ? & ? & ?). by exists x.
  - apply list_find_None in E. rewrite Forall_forall in E. exfalso. apply (E ki Hin).
    by apply bool_decide_eq_true.
Qed.
(** The front entry is what [getKeyInfo()] copies. *)
Lemma getKeyInfo_front (s : KeyProvider) (ki : KeyInfo) (h : list KeyInfo) : history s = ki :: h → key_ok ki →
  ∃ ki', getKeyInfo s 0 = Ret (Some ki') ∧ key_ok ki'.
Proof.
  intros E Hki. unfold getKeyInfo. rewrite E. change ((ki :: h) !! Z.to_nat 0) with (Some ki). cbv iota beta.
  rewrite (key_ok_copy _ Hki). eexists. split; [done|]. destruct Hki as (x & ? & ? & ?). by exists x.
Qed.
End KeyProvider.

(** ** Properties *)

(** C16 The current key always exists: for any configured history size below
    the largest [unsigned int], the constructor returns, and after any number
    of renewals the history holds between one and [history_size + 1] entries,
    each a key pair with the hash of its public key; [getKeyInfo()] then
    returns such a key, and [getKeyInfo(th)] finds every entry by its hash. *)
Theorem keyprovider_current_key {EC : ECDSA} {DG : Digest} {P : PTree}
    (c : ConfigManager) (hs ri : N) (now rng : Z) (l : list (Z * Z))
    (Hhs : getValue as_uint c "overlay.key_provider.history_size" = Ret hs)
    (Hri : getValue as_uint c "overlay.key_provider.renew_interval" = Ret ri)
    (Hmax : (Z.of_N hs + 1 < 2 ^ 32)%Z) :
  ∃ s0 s, KeyProvider_new c now rng = Ret (s0, []) ∧ renewals s0 l = Ret s ∧
    (1 ≤ Z.of_nat (length (history s)) ≤ Z.of_N hs + 1)%Z ∧ Forall key_ok (history s) ∧
    (∃ ki, getKeyInfo s 0 = Ret (Some ki) ∧ key_ok ki) ∧
    (∀ ki, ki ∈ history s → ∃ ki', getKeyInfo_th s (th ki) = Ret (Some ki') ∧ key_ok ki' ∧
                                   hash (th ki') = hash (th ki)).
Proof.
  unfold KeyProvider_new. rewrite Hhs, Hri. cbn [mbind outcome_bind].
  rewrite (u32_small (Z.of_N hs + 1)) by (unfold in_u32; lia).
  set (s1 := mkKeyProvider [] (Z.of_N hs + 1) (Z.of_N ri) _ None).
  assert (kp_wf s1) as Hwf1 by (repeat split; simpl; [lia|lia|constructor]).
  destruct (renewKeys_spec s1 now rng Hwf1) as (s0 & H0 & Hh0 & Hm0 & _ & _ & _ & Hwf0).
  destruct (renewals_spec s0 l (history s0) Hwf0) as (s & Hs & Hwf & Hms & Hh).
  { rewrite take_ge; [done|]. destruct Hwf0. lia. }
  exists s0, s. split; [exact H0|]. split; [done|]. destruct Hwf as (Hm & Hlen & Hok).
  assert (history s ≠ []) as Hne.
  { rewrite Hh. destruct Hwf0 as [Hm1 _]. destruct (Z.to_nat (max_history_size s0)) as [|m] eqn:E; [lia|].
    assert (generated s0 l (history s0) ≠ []) as Hg.
    { assert (history s0 ≠ []) as Hne0.
      { rewrite Hh0. simpl. rewrite Z2Nat.inj_add by lia. simpl. by rewrite Nat.add_comm. }
      revert Hne0. generalize (history s0). unfold generated. clear. induction l as [|e l IH]; intros acc Hacc; [done|].
      simpl. by apply IH. }
    by destruct (generated s0 l (history s0)). }
  split; [destruct (history s); [done|]; simpl in *; simpl in Hm0; lia|]. split; [done|]. split.
  - destruct (history s) as [|ki h] eqn:E; [done|]. inversion Hok; subst. by eapply getKeyInfo_front.
  - intros ki. by apply getKeyInfo_th_found.
Qed.

Definition toy_config : ConfigManager := ConfigManager_new (mkEnv None (Some "/root") "" 0) (λ _, None).

Lemma keyprovider_current_key_witness :
  ∃ s0 s, KeyProvider_new toy_config 5 7 = Ret (s0, []) ∧ renewals s0 [(9, 8)%Z] = Ret s.
Proof.
  destruct (keyprovider_current_key toy_config 10 600 5 7 [(9, 8)%Z])
    as (s0 & s & H1 & H2 & _).
  - vm_compute. reflexivity.
  - vm_compute. reflexivity.
  - simpl. lia.
  - exists s0, s. split; [exact H1|exact H2].
Defined.

(** No key leaves the history before it is lost: when [renew_interval *
    (history_size + 1)] fits an [unsigned int] and no renewal happens before
    the previous key expired (what the timer waits for), every key generated
    whose lose time lies after the last renewal is still in the history. *)
Theorem keys_kept_until_lost {EC : ECDSA} {DG : Digest} {P : PTree}
    (hs ri now rng : Z) (l : list (Z * Z)) (s0 s : KeyProvider)
    (Hhs : (0 ≤ hs)%Z) (Hri : (0 ≤ ri)%Z)
    (Hmax : in_u32 (ri * (hs + 1)))
    (Hnew : renewKeys (mkKeyProvider [] (hs + 1) ri (ri *32 (hs + 1))%word None) now rng = Ret (s0, []))
    (Hpaced : paced ri now l) (Hrun : renewals s0 l = Ret s) (ki : KeyInfo) :
  ki ∈ generated s0 l (history s0) → (List.last (now :: l.*1) now < lose_time ki)%Z → ki ∈ history s.
Proof.
  intros Hgen Hlost. rewrite u32_small in Hnew by done. apply list_elem_of_lookup in Hgen as [j Hj].
  pose proof (kept_index _ _ _ _ _ _ _ _ _ Hhs Hri Hnew Hpaced Hj Hlost) as Hlt.
  set (s1 := mkKeyProvider [] (hs + 1) ri _ None) in Hnew.
  assert (kp_wf s1) as Hwf1 by (repeat split; simpl; [lia|lia|constructor]).
  destruct (renewKeys_spec s1 now rng Hwf1) as (s0' & H0 & _ & Hm0 & _ & _ & _ & Hwf0).
  rewrite H0 in Hnew. injection Hnew as <-. simpl in Hm0.
  destruct (renewals_spec s0' l (history s0') Hwf0) as (s' & Hs & _ & _ & Hh).
  { rewrite take_ge; [done|]. destruct Hwf0. lia. }
  rewrite Hrun in Hs. injection Hs as <-. rewrite Hh, Hm0.
  apply list_elem_of_lookup. exists j. by rewrite lookup_take, decide_True.
Qed.

(** A provider of two keys, renewed every ten seconds, after its first key. *)
Definition toy_key : KeyInfo := new_key (mkKeyProvider [] 2 10 20 None) 0 3.
Definition toy_provider : KeyProvider := mkKeyProvider [toy_key] 2 10 20 (Some 10000000000%Z).

Lemma keys_kept_until_lost_witness :
  ∃ s, renewals toy_provider [(10000000000, 4)%Z] = Ret s ∧ toy_key ∈ history s.
Proof.
  destruct (renewals_spec toy_provider [(10000000000, 4)%Z] [toy_key]) as (s & Hs & _).
  - split; [simpl; lia|]. split; [simpl; lia|]. repeat constructor. apply new_key_ok.
  - reflexivity.
  - exists s. split; [exact Hs|].
    apply (keys_kept_until_lost 1 10 0 3 [(10000000000, 4)%Z] toy_provider s).
    + lia.
    + lia.
    + unfold in_u32. lia.
    + reflexivity.
    + split; [vm_compute; discriminate|exact I].
    + exact Hs.
    + apply list_elem_of_In. right. left. reflexivity.
    + reflexivity.
Defined.

(** Key information on the wire: reading what [toProtobuf] wrote gives the
    same public key, the hash of that key whatever hash was stored, the times
    cut to whole seconds, and keeps the receiver's private key. *)
Theorem keyinfo_protobuf_roundtrip {EC : ECDSA} {DG : Digest} {P : PTree}
    (this ki : KeyInfo) (p : pk) (Hp : public_key ki = Some p) :
  (pb ← toProtobuf ki; fromProtobuf this pb) =
    Ret (mkKeyInfo (private_key this) (Some p) (mkHash (keccak224 (x509_ber p)) true)
           (from_time_t (to_time_t (expiration_time ki))) (from_time_t (to_time_t (lose_time ki)))) ∧
  (∀ t, (0 ≤ t)%Z → (from_time_t (to_time_t t) ≤ t < from_time_t (to_time_t t) + ns_per_s)%Z).
Proof.
  split.
  - unfold toProtobuf, fromProtobuf. rewrite Hp. simpl. unfold setAsBinaryString. simpl.
    by rewrite x509_law.
  - intros t Ht. unfold from_time_t, to_time_t. rewrite Z.quot_div_nonneg by (unfold ns_per_s; lia).
    pose proof (Z.div_mod t ns_per_s). pose proof (Z.mod_pos_bound t ns_per_s). unfold ns_per_s in *. lia.
Qed.

Lemma keyinfo_protobuf_roundtrip_witness :
  ∃ ki', (pb ← toProtobuf 
               (mkKeyInfo (EC:=Toy.toy_ECDSA) None (Some (Toy.toy_of_bigint 9)) Hash_new 1500000000 2);
          fromProtobuf KeyInfo_new pb) = Ret ki' ∧ expiration_time ki' = 1000000000%Z.
Proof.
  destruct (keyinfo_protobuf_roundtrip KeyInfo_new
    (mkKeyInfo (EC:=Toy.toy_ECDSA) None (Some (Toy.toy_of_bigint 9)) Hash_new 1500000000 2) (Toy.toy_of_bigint 9) eq_refl) as [H _].
  eexists. split; [exact H|reflexivity].
Defined.

(** The largest configured history size breaks the provider: with
    [history_size] equal to [UINT_MAX] the maximum wraps to zero, the new key
    is pushed and popped again, and the log line reads the front of an empty
    deque. *)
Theorem keyprovider_history_overflow {EC : ECDSA} {DG : Digest} {P : PTree}
    (c : ConfigManager) (ri : N) (now rng : Z)
    (Hhs : getValue as_uint c "overlay.key_provider.history_size" = Ret 4294967295%N)
    (Hri : getValue as_uint c "overlay.key_provider.renew_interval" = Ret ri) :
  KeyProvider_new c now rng = Undef null_deref.
Proof. unfold KeyProvider_new. rewrite Hhs, Hri. simpl. by apply renewKeys_overflow. Qed.

Lemma keyprovider_history_overflow_witness :
  KeyProvider_new 
    (mkConfigManager {["overlay.key_provider.history_size" := "4294967295"]} initDefaults "" "") 0 1
  = Undef null_deref.
Proof. apply (keyprovider_history_overflow _ 600); vm_compute; reflexivity. Defined.
