(* ===== verification/KeyRotation.v ===== *)
(** * The threads of the key provider ([daemon/overlay/KeyProvider.cpp])

    [KeyProvider.v] has a renewal as one step.  Here the generator thread runs
    [renewKeys] statement by statement while the I/O thread fires the timer,
    joins and starts the generator ([loopGenerate]), runs the posted rotation
    closure and reads keys.  A statement of one thread is one step: races on the
    memory of the deque itself are outside the model. *)

From S2P Require Import Prelude Common Crypto Config KeyProvider.
Import HashM KeyM.
From Stdlib Require Import ZArith Lia.
From Stdlib.Strings Require Import Byte.

Section Rotation.
Context {EC : ECDSA} {DG : Digest}.

(** The next statement of [renewKeys]; from the second on, the local
    [new_info] exists. *)
Inductive phase :=
| PStart
| PDispatch (new_info : KeyInfo)
| PPush (new_info : KeyInfo)
| PPop (new_info : KeyInfo)
| PExpires (new_info : KeyInfo)
| PWait (new_info : KeyInfo)
| PLog (new_info : KeyInfo).
(** [generator_thread]: not joinable, running, or finished and not joined. *)
Inductive generator := NotJoinable | Running (p : phase) | Finished.
(** Handlers queued in the io service: the rotation closure of the n-th call of
    [renewKeys], with a reference to its [new_info], and [loopGenerate]. *)
Inductive handler := Rotation (call : nat) | LoopGenerate.

(** [waiting]: an [async_wait] is pending; [joining]: the I/O thread is blocked
    in [join]; [clock]: the system clock,
    taken never to be set back. *)
Record World := mkWorld {
  provider : KeyProvider;
  gen : generator;
  call : nat;
  posted : list handler;
  waiting : bool;
  joining : bool;
  alive : bool;
  clock : Z;
}.

Definition set_history (h : list KeyInfo) (s : KeyProvider) : KeyProvider :=
  mkKeyProvider h (max_history_size s) (expiration_interval s) (lose_interval s) (timer_expiry s).
Definition set_expiry (t : Z) (s : KeyProvider) : KeyProvider :=
  mkKeyProvider (history s) (max_history_size s) (expiration_interval s) (lose_interval s) (Some t).

(** [timer.cancel()], also done by [expires_at] and by the timer's destructor:
    a pending wait completes with [operation_aborted], which the bound handler
    does not look at. *)
Definition cancel (w : World) : World :=
  mkWorld (provider w) (gen w) (call w) (if waiting w then posted w ++ [LoopGenerate] else posted w)
    false (joining w) (alive w) (clock w).

Definition at_next (p : phase) (s : KeyProvider) (w : World) : World :=
  mkWorld s (Running p) (call w) (posted w) (waiting w) (joining w) (alive w) (clock w).

(** One statement of [renewKeys]; [rng] is what the key generator draws. *)
Definition renewKeys_step (rng : Z) (p : phase) (w : World) : outcome World :=
  let s := provider w in
  match p with
  | PStart =>
      let new_sk := generateKey rng in
      new_pk ← derivePublicKey new_sk;
      new_th ← Hash_of_private new_sk;
      Ret (at_next (PDispatch (mkKeyInfo new_sk new_pk new_th (clock w + expiration_interval s * ns_per_s)
             (clock w + lose_interval s * ns_per_s))) s w)
  | PDispatch ni =>
      let w' := at_next (PPush ni) s w in
      Ret (if decide (history s = []) then w'
           else mkWorld s (gen w') (call w) (posted w ++ [Rotation (call w)]) (waiting w) (joining w) (alive w) (clock w))
  | PPush ni => Ret (at_next (PPop ni) (set_history (ni :: history s) s) w)
  | PPop ni =>
      Ret (at_next (PExpires ni)
             (if decide (max_history_size s < Z.of_nat (length (history s)))%Z
              then set_history (removelast (history s)) s else s) w)
  | PExpires ni => Ret (at_next (PWait ni) (set_expiry (expiration_time ni) s) (cancel w))
  | PWait ni =>
      Ret (mkWorld s (Running (PLog ni)) (call w) (posted w) true (joining w) (alive w) (clock w))
  | PLog ni =>
      match history s with
      | [] => Undef null_deref
      | _ :: _ => Ret (mkWorld s Finished (call w) (posted w) (waiting w) (joining w) (alive w) (clock w))
      end
  end.

(** [loopGenerate] up to the [join], and the start of the thread. *)
Definition start_thread (w : World) : World :=
  mkWorld (provider w) (Running PStart) (S (call w)) (posted w) (waiting w) false (alive w) (clock w).
Definition loopGenerate (w : World) : World :=
  match gen w with
  | NotJoinable => start_thread w
  | _ => mkWorld (provider w) (gen w) (call w) (posted w) (waiting w) true (alive w) (clock w)
  end.

(** The local [new_info] of the running call. *)
Definition info (p : phase) : option KeyInfo :=
  match p with
  | PStart => None
  | PDispatch ni | PPush ni | PPop ni | PExpires ni | PWait ni | PLog ni => Some ni
  end.
Definition new_info_of (n : nat) (w : World) : option KeyInfo :=
  match gen w with Running p => if decide (n = call w) then info p else None | _ => None end.

(** One queued handler of the io service, with the arguments of the signal:
    they are passed by value, so both are copied. *)
Definition run_handler (h : handler) (w : World) : outcome (World * option (KeyInfo * KeyInfo)) :=
  if alive w then
    match h with
    | Rotation n =>
        '(f, ni) ← rotation_closure (provider w) (new_info_of n w);
        f' ← KeyInfo_copy f; ni' ← KeyInfo_copy ni; Ret (w, Some (f', ni'))
    | LoopGenerate => Ret (loopGenerate w, None)
    end
  else Undef use_after_free.

Definition set_posted (l : list handler) (w : World) : World :=
  mkWorld (provider w) (gen w) (call w) l (waiting w) (joining w) (alive w) (clock w).
Definition set_clock (t : Z) (w : World) : World :=
  mkWorld (provider w) (gen w) (call w) (posted w) (waiting w) (joining w) (alive w) t.

(** [~KeyProvider] once its [join] has returned (the thread is not running),
    with the destructors of its members. *)
Definition KeyProvider_delete (w : World) : World :=
  let w1 := cancel w in
  mkWorld (provider w1) NotJoinable (call w1) (posted w1) (waiting w1) (joining w1) false (clock w1).

Inductive label :=
| Generate (now rng : Z)
| Generator
| Timer
| Signal (args : option (KeyInfo * KeyInfo))
| Joined
| Get (offset : Z) (ki : option KeyInfo)
| Tick.

Inductive step : World → label → World → Prop :=
| kr_generate w rng w' :
    gen w = Running PStart → renewKeys_step rng PStart w = Ret w' → step w (Generate (clock w) rng) w'
| kr_statement w rng p w' :
    gen w = Running p → p ≠ PStart → renewKeys_step rng p w = Ret w' → step w Generator w'
| kr_timer w t :
    waiting w = true → timer_expiry (provider w) = Some t → (t ≤ clock w)%Z → step w Timer (cancel w)
| kr_handler w h hs w' args :
    joining w = false → posted w = h :: hs → run_handler h (set_posted hs w) = Ret (w', args) →
    step w (Signal args) w'
| kr_joined w : joining w = true → gen w = Finished → step w Joined (start_thread w)
| kr_get w offset ki :
    joining w = false → getKeyInfo (provider w) offset = Ret ki → step w (Get offset ki) w
| kr_tick w t : (clock w ≤ t)%Z → step w Tick (set_clock t w).

(** After the constructor, which joined the first generator. *)
Definition World_new (s : KeyProvider) (now : Z) : World := mkWorld s NotJoinable 1 [] true false true now.
(** Before it: the members are initialised and [loopGenerate] started a thread. *)
Definition World_init (s : KeyProvider) (now : Z) : World := mkWorld s (Running PStart) 1 [] false false true now.

(** ** The invariant *)

(** The provider while the call that started from [base] is in phase [p]. *)
Definition at_phase (base : KeyProvider) (p : phase) : KeyProvider :=
  let trimmed ni := set_history (take (Z.to_nat (max_history_size base)) (ni :: history base)) base in
  match p with
  | PStart | PDispatch _ | PPush _ => base
  | PPop ni => set_history (ni :: history base) base
  | PExpires ni => trimmed ni
  | PWait ni | PLog ni => set_expiry (expiration_time ni) (trimmed ni)
  end.

Definition renewed (l : label) : option (Z * Z) := match l with Generate now rng => Some (now, rng) | _ => None end.
Definition last_time (t0 : Z) (l : list (Z * Z)) : Z := List.last (t0 :: l.*1) t0.

(** The renewals so far: completed, or the last one in progress. *)
Inductive staged (s0 : KeyProvider) (l : list (Z * Z)) (w : World) : Prop :=
| staged_between :
    (gen w = NotJoinable ∨ gen w = Finished ∨ gen w = Running PStart) → renewals s0 l = Ret (provider w) →
    staged s0 l w
| staged_during p ni base l' now rng :
    gen w = Running p → info p = Some ni → l = l' ++ [(now, rng)] → renewals s0 l' = Ret base →
    ni = new_key base now rng → provider w = at_phase base p → staged s0 l w.

(** The closure of the running or last call, if it has not run yet. *)
Definition rots (w : World) : Prop :=
  posted w = [] ∨ posted w = [Rotation (call w)] ∧
    match gen w with Finished | Running (PPush _ | PPop _ | PExpires _ | PWait _ | PLog _) => True | _ => False end.
Definition due (w : World) : Prop := ∃ t, timer_expiry (provider w) = Some t ∧ (t ≤ clock w)%Z.
(** The generator has armed the timer. *)
Definition armed (w : World) : Prop :=
  match gen w with NotJoinable | Finished | Running (PLog _) => True | _ => False end.

(** Exactly one of the generator, the timer, the queue and the joining I/O
    thread will bring about the next renewal. *)
Inductive token (w : World) : Prop :=
| at_generator p :
    gen w = Running p → ¬ armed w → waiting w = false → joining w = false → rots w → (p = PStart → due w) → token w
| at_timer : armed w → waiting w = true → joining w = false → rots w → token w
| at_queue hs :
    armed w → waiting w = false → joining w = false → posted w = hs ++ [LoopGenerate] → rots (set_posted hs w) → due w →
    token w
| at_join :
    armed w → gen w ≠ NotJoinable → waiting w = false → joining w = true → posted w = [] → due w → token w.

Record winv (s0 : KeyProvider) (t0 : Z) (l : list (Z * Z)) (w : World) : Prop := {
  winv_alive : alive w = true;
  winv_staged : staged s0 l w;
  winv_token : token w;
  winv_paced : paced (expiration_interval s0) t0 l;
}.

(** *** The provider between renewals *)

Definition started (s0 : KeyProvider) (t0 : Z) : Prop :=
  kp_wf s0 ∧ history s0 ≠ [] ∧ timer_expiry s0 = Some (t0 + expiration_interval s0 * ns_per_s)%Z.

Lemma last_time_snoc t0 l now rng : last_time t0 (l ++ [(now, rng)]) = now.
Proof.
  unfold last_time. rewrite fmap_app. change (t0 :: l.*1 ++ [(now, rng)].*1) with ((t0 :: l.*1) ++ [now]).
  apply List.last_last.
Qed.
Lemma renewals_snoc s0 l now rng base s' es :
  renewals s0 l = Ret base → renewKeys base now rng = Ret (s', es) → renewals s0 (l ++ [(now, rng)]) = Ret s'.
Proof.
  intros H1 H2. unfold renewals in *. rewrite foldM_app, H1. cbn [mbind outcome_bind foldM fst snd].
  by rewrite H2.
Qed.

Lemma renewals_started s0 t0 l s : started s0 t0 → renewals s0 l = Ret s →
  kp_wf s ∧ history s ≠ [] ∧ max_history_size s = max_history_size s0 ∧
  expiration_interval s = expiration_interval s0 ∧ lose_interval s = lose_interval s0 ∧
  timer_expiry s = Some (last_time t0 l + expiration_interval s0 * ns_per_s)%Z.
Proof.
  intros (Hwf & Hne & Ht). revert s. induction l as [|[now rng] l IH] using rev_ind; intros s H.
  { injection H as <-. by rewrite Ht. }
  unfold renewals in H. rewrite foldM_app in H. apply bind_Ret in H as (s1 & H1 & H2).
  destruct (IH s1 H1) as (Hwf1 & Hne1 & Hm1 & He1 & Hl1 & Ht1).
  destruct (renewKeys_spec s1 now rng Hwf1) as (s2 & H3 & Hh & Hm & He & Hl & Hx & Hwf2).
  cbn [foldM fst snd] in H2. rewrite H3 in H2. injection H2 as <-.
  rewrite last_time_snoc, Hx, He1. split; [done|]. split; [|split; [congruence|split; [congruence|split; [congruence|done]]]].
  rewrite Hh. destruct Hwf1 as [Hmax _]. by destruct (Z.to_nat (max_history_size s1)) eqn:E; [lia|].
Qed.

Lemma paced_snoc i t0 l now rng :
  paced i t0 l → (last_time t0 l + i * ns_per_s ≤ now)%Z → paced i t0 (l ++ [(now, rng)]).
Proof.
  revert t0. induction l as [|[n r] l IH]; intros t0 Hp Hn; [by split|].
  destruct Hp as [H1 H2]. split; [done|]. apply IH; [done|].
  assert (last_time t0 ((n, r) :: l) = last_time n l) as <-; [|done].
  destruct l as [|x l _] using rev_ind; [done|]. destruct x as [a b].
  change ((n, r) :: l ++ [(a, b)]) with (((n, r) :: l) ++ [(a, b)]). by rewrite !last_time_snoc.
Qed.

(** The last phase of a call holds the result of [renewKeys]. *)
Lemma at_phase_done base now rng : kp_wf base →
  ∃ es, renewKeys base now rng = Ret (at_phase base (PLog (new_key base now rng)), es).
Proof.
  intros Hwf. destruct (renewKeys_spec base now rng Hwf) as (s' & H & Hh & Hm & He & Hl & Ht & _).
  eexists. rewrite H. repeat f_equal. destruct s' as [h m e lo t]. simpl in *. by subst.
Qed.

(** *** Every step keeps the invariant *)

(** The queue of a running call stays while the call goes on. *)
Lemma rots_next w w' : rots w → posted w' = posted w → call w' = call w →
  match gen w' with Finished | Running (PPush _ | PPop _ | PExpires _ | PWait _ | PLog _) => True | _ => False end →
  rots w'.
Proof. intros [H|[H _]] Hp Hc Hg; [left|right]; by rewrite Hp, ?Hc, H. Qed.

Lemma staged_ext s0 l w w' : gen w' = gen w → provider w' = provider w → staged s0 l w → staged s0 l w'.
Proof.
  intros Hg Hp [H1 H2|p ni base l' now rng H1 H2 H3 H4 H5 H6].
  - apply staged_between; rewrite ?Hg, ?Hp; done.
  - eapply staged_during; rewrite ?Hg, ?Hp; done.
Qed.

Lemma winv_new s0 t0 now : started s0 t0 → winv s0 t0 [] (World_new s0 now).
Proof.
  intros (_ & _ & _). constructor; [done| |by apply at_timer; [..|left]|done].
  by apply staged_between; [left|].
Qed.

Lemma winv_generate s0 t0 l w rng w' :
  started s0 t0 → winv s0 t0 l w → gen w = Running PStart → renewKeys_step rng PStart w = Ret w' →
  winv s0 t0 (l ++ [(clock w, rng)]) w'.
Proof.
  intros Hs0 [Ha Hst Htok Hp] Hg [= <-]. destruct Hst as [_ Hl|p ni ? ? ? ? Hg' Hi]; [|rewrite Hg' in Hg; by injection Hg as ->].
  destruct (renewals_started _ _ _ _ Hs0 Hl) as (_ & _ & _ & He & _ & Ht).
  assert (due w ∧ waiting w = false ∧ joining w = false ∧ posted w = []) as (Hdue & Hw & Hj & Hq).
  { destruct Htok as [p Hg' _ ? ? [?|[_ Hr]] Hd|Harm|? Harm|Harm]; try (unfold armed in Harm; by rewrite Hg in Harm).
    - rewrite Hg in Hg'. injection Hg' as <-. auto.
    - by rewrite Hg in Hr. }
  constructor; [done|..].
  - by eapply staged_during.
  - by eapply at_generator; [done|intros []|..|left|].
  - destruct Hdue as (t & Ht' & Hle). apply paced_snoc; [done|]. rewrite Ht in Ht'. injection Ht' as <-. done.
Qed.

Lemma winv_statement s0 t0 l w rng p w' :
  started s0 t0 → winv s0 t0 l w → gen w = Running p → p ≠ PStart → renewKeys_step rng p w = Ret w' →
  winv s0 t0 l w'.
Proof.
  intros Hs0 [Ha Hst Htok Hp] Hg Hne Hstep.
  destruct Hst as [[H|[H|H]] _|p' ni base l' now rng' Hg' Hi -> Hb -> Hpr];
    [rewrite Hg in H; congruence..|]. rewrite Hg in Hg'. injection Hg' as <-.
  destruct (renewals_started _ _ _ _ Hs0 Hb) as ((Hm & Hlen & Hok) & Hne' & Hm0 & _).
  assert (match p with PLog _ => False | _ => True end → waiting w = false ∧ joining w = false ∧ rots w) as Hgen.
  { intros Hnl. destruct Htok as [|Harm|? Harm|Harm]; [done|..]; unfold armed in Harm; rewrite Hg in Harm; by destruct p. }
  destruct p as [|ni|ni|ni|ni|ni|ni]; [done|..]; injection Hi as ->; cbn [renewKeys_step] in Hstep;
    try (destruct (Hgen I) as (Hw & Hj & Hr)); rewrite ?Hpr in Hstep; cbn [at_phase] in *.
  - rewrite decide_False in Hstep by done. injection Hstep as <-.
    constructor; [done| | |done]; [by eapply staged_during|].
    eapply at_generator; [done|intros []|done|done| |done]. destruct Hr as [Hr|[_ Hr]]; [|by rewrite Hg in Hr].
    right. simpl. by rewrite Hr.
  - injection Hstep as <-. constructor; [done| | |done]; [by eapply staged_during|].
    eapply at_generator; [done|intros []|done|done| |done]. by eapply rots_next.
  - assert ((if decide (max_history_size base < Z.of_nat (length (new_key base now rng' :: history base)))%Z
             then set_history (removelast (new_key base now rng' :: history base)) base
             else set_history (new_key base now rng' :: history base) base) =
            set_history (take (Z.to_nat (max_history_size base)) (new_key base now rng' :: history base)) base) as E.
    { pose proof (trim_eq (max_history_size base) (new_key base now rng') (history base) Hm Hlen) as E.
      destruct (decide _); by rewrite <-E. }
    cbn [set_history max_history_size history expiration_interval lose_interval timer_expiry] in Hstep.
    injection Hstep as <-. constructor; [done| | |done].
    + eapply staged_during; try done.
    + eapply at_generator; [done|intros []|done|done| |done]. by eapply rots_next.
  - injection Hstep as <-. constructor; [done| | |done]; [by eapply staged_during|].
    eapply at_generator; [done|intros []|done|done| |done].
    eapply rots_next; [exact Hr|simpl; by rewrite Hw|done|done].
  - injection Hstep as <-. constructor; [done| | |done]; [by eapply staged_during|].
    apply at_timer; [done|done|done|]. by eapply rots_next.
  - destruct (at_phase_done base now rng' ltac:(done)) as (es & Hdone). cbn [at_phase] in Hdone.
    match type of Hstep with match ?h with _ => _ end = _ => destruct h; [done|] end. injection Hstep as <-. constructor; [done| | |done].
    + apply staged_between; [by right; left|]. cbn [provider]. by eapply renewals_snoc.
    + destruct Htok as [? ? Harm ? ? ? ?|? ? ? Hr|hs ? ? ? Hq Hr Hd|? ? ? ? ? Hd];
        [destruct Harm; unfold armed; by rewrite Hg|apply at_timer|eapply (at_queue _ hs)|apply at_join]; try done.
      * by eapply rots_next.
      * by eapply rots_next.
      * unfold due in Hd. rewrite Hpr in Hd. exact Hd.
      * unfold due in Hd. rewrite Hpr in Hd. exact Hd.
Qed.

Lemma winv_timer s0 t0 l w t :
  winv s0 t0 l w → waiting w = true → timer_expiry (provider w) = Some t → (t ≤ clock w)%Z → winv s0 t0 l (cancel w).
Proof.
  intros [Ha Hst Htok Hp] Hw Ht Hle. constructor; [done| | |done]; [by eapply staged_ext; [..|exact Hst]|].
  destruct Htok as [| Harm _ Hj Hr| |]; try congruence.
  eapply (at_queue _ (posted w)); [done|done|done|simpl; by rewrite Hw|done|]. by exists t.
Qed.

Lemma rotation_args w ni p : gen w = Running p → info p = Some ni → new_info_of (call w) w = Some ni.
Proof. intros Hg Hi. unfold new_info_of. by rewrite Hg, decide_True. Qed.

Lemma run_rotation w n hs w' args :
  run_handler (Rotation n) (set_posted hs w) = Ret (w', args) → w' = set_posted hs w.
Proof.
  unfold run_handler. destruct (alive _); [|done].
  intros H. apply bind_Ret in H as ([f ni] & _ & H). apply bind_Ret in H as (f' & _ & H).
  by apply bind_Ret in H as (ni' & _ & [= <- <-]).
Qed.

Lemma winv_handler s0 t0 l w h hs w' args :
  winv s0 t0 l w → joining w = false → posted w = h :: hs → run_handler h (set_posted hs w) = Ret (w', args) →
  winv s0 t0 l w'.
Proof.
  intros [Ha Hst Htok Hp] Hj Hq Hrun.
  destruct Htok as [p Hg Harm Hw _ [Hr|[Hr Hc]] Hd|Harm Hw _ [Hr|[Hr Hc]]|hs' Harm Hw _ Hq' Hr Hd|]; try congruence.
  - rewrite Hr in Hq. injection Hq as <- <-. apply run_rotation in Hrun as ->.
    constructor; [done|by eapply staged_ext; [..|exact Hst]| |done]. by eapply at_generator; [..|left|].
  - rewrite Hr in Hq. injection Hq as <- <-. apply run_rotation in Hrun as ->.
    constructor; [done|by eapply staged_ext; [..|exact Hst]| |done]. by apply at_timer; [..|left].
  - rewrite Hq' in Hq. destruct Hr as [Hr|[Hr Hc]]; cbn [posted set_posted call] in Hr; subst hs'.
    + injection Hq as <- <-. unfold run_handler in Hrun. cbn [alive set_posted] in Hrun. rewrite Ha in Hrun.
      injection Hrun as <- <-. unfold loopGenerate, start_thread. cbn [gen set_posted].
      destruct (gen w) as [|p|] eqn:Hg; (constructor; [done| | |done]).
      * destruct Hst as [_ Hl|? ? ? ? ? ? Hg']; [|congruence]. apply staged_between; [by right; right|done].
      * eapply at_generator; [done|intros []|done|done|by left|done].
      * by eapply staged_ext; [..|exact Hst].
      * unfold armed in Harm. rewrite Hg in Harm. by apply at_join.
      * by eapply staged_ext; [..|exact Hst].
      * by apply at_join.
    + injection Hq as <- <-. apply run_rotation in Hrun as ->.
      constructor; [done|by eapply staged_ext; [..|exact Hst]| |done]. by eapply (at_queue _ []); [..|left|].
Qed.

Lemma winv_joined s0 t0 l w : winv s0 t0 l w → joining w = true → gen w = Finished → winv s0 t0 l (start_thread w).
Proof.
  intros [Ha Hst Htok Hp] Hj Hg. destruct Htok as [| | |Harm Hn Hw _ Hq Hd]; try congruence.
  constructor; [done| | |done].
  - destruct Hst as [_ Hl|? ? ? ? ? ? Hg']; [|congruence]. apply staged_between; [by right; right|done].
  - by eapply at_generator; [done|intros []|..|left|].
Qed.

Lemma winv_tick s0 t0 l w t : winv s0 t0 l w → (clock w ≤ t)%Z → winv s0 t0 l (set_clock t w).
Proof.
  intros [Ha Hst Htok Hp] Ht. constructor; [done|by eapply staged_ext; [..|exact Hst]| |done].
  assert (due w → due (set_clock t w)) as Hdue by (intros (e & He & Hle); exists e; simpl; split; [done|lia]).
  destruct Htok; [eapply at_generator|eapply at_timer|eapply at_queue|eapply at_join]; eauto.
Qed.

Lemma winv_step s0 t0 l w lab w' :
  started s0 t0 → winv s0 t0 l w → step w lab w' → winv s0 t0 (l ++ omap renewed [lab]) w'.
Proof.
  intros Hs0 Hw Hstep. destruct Hstep; cbn [omap list_omap renewed]; rewrite ?app_nil_r;
    eauto using winv_generate, winv_statement, winv_timer, winv_handler, winv_joined, winv_tick.
Qed.

Lemma winv_star s0 t0 l w ls w' :
  started s0 t0 → star step w ls w' → winv s0 t0 l w → winv s0 t0 (l ++ omap renewed ls) w'.
Proof.
  intros Hs0 Hstar. revert l. induction Hstar as [w|w1 w2 w3 lab ls Hstep _ IH]; intros l Hw.
  { by rewrite app_nil_r. }
  change (lab :: ls) with ([lab] ++ ls). rewrite omap_app, app_assoc. eauto using winv_step.
Qed.

(** *** Consequences *)

(** In every state there is a current key, and the history is at most one
    longer than its limit. *)
Lemma winv_current s0 t0 l w : started s0 t0 → winv s0 t0 l w →
  ∃ ki h, history (provider w) = ki :: h ∧ Forall key_ok (ki :: h) ∧
    (Z.of_nat (length h) ≤ max_history_size s0)%Z ∧ max_history_size (provider w) = max_history_size s0.
Proof.
  intros Hs0 [_ Hst _ _]. destruct Hst as [_ Hl|p ni base l' now rng Hg Hi -> Hb -> Hpr].
  - destruct (renewals_started _ _ _ _ Hs0 Hl) as ((_ & Hlen & Hok) & Hne & Hm & _).
    destruct (history (provider w)) as [|ki h]; [done|]. exists ki, h. simpl in Hlen. repeat split; [done|lia|done].
  - destruct (renewals_started _ _ _ _ Hs0 Hb) as ((Hm1 & Hlen & Hok) & Hne & Hm & _).
    pose proof (new_key_ok base now rng) as Hnew. rewrite Hpr.
    assert (∃ ki h, history base = ki :: h ∧ Forall key_ok (ki :: h) ∧ (Z.of_nat (length h) ≤ max_history_size s0)%Z ∧
      max_history_size base = max_history_size s0) as Hbase.
    { destruct (history base) as [|ki h]; [done|]. exists ki, h. simpl in Hlen. repeat split; [done|lia|done]. }
    assert (∃ m, Z.to_nat (max_history_size base) = S m) as [m Em] by (exists (Z.to_nat (max_history_size base) - 1); lia).
    destruct p; cbn [at_phase set_expiry set_history history max_history_size]; try exact Hbase; injection Hi as ->;
      rewrite ?Em; cbn [take]; eexists _, _; (split; [reflexivity|]); (split; [constructor; [done|]|]);
      rewrite ?length_take; try (by apply Forall_take); try done; split; try done; lia.
Qed.

Lemma statement_step rng p w w' :
  gen w = Running p → p ≠ PStart → renewKeys_step rng p w = Ret w' → step w Generator w'.
Proof. apply kr_statement. Qed.

(** A run without [Generate] to the start of the next call. *)
Definition reaches_start (w : World) : Prop :=
  ∃ ls w', star step w ls w' ∧ omap renewed ls = [] ∧ gen w' = Running PStart.

Lemma reaches_step w lab w' : step w lab w' → renewed lab = None → reaches_start w' → reaches_start w.
Proof.
  intros Hs Hl (ls & w2 & Hst & Ho & Hg). exists (lab :: ls), w2. split; [by econstructor|].
  cbn [omap list_omap]. by rewrite Hl.
Qed.

Lemma log_step s0 t0 l w ni : started s0 t0 → winv s0 t0 l w → gen w = Running (PLog ni) →
  step w Generator (mkWorld (provider w) Finished (call w) (posted w) (waiting w) (joining w) (alive w) (clock w)).
Proof.
  intros Hs0 Hw Hg. destruct (winv_current _ _ _ _ Hs0 Hw) as (ki & h & Hh & _).
  apply (statement_step 0 (PLog ni)); [done|done|]. cbn [renewKeys_step]. by rewrite Hh.
Qed.

Lemma reaches_join s0 t0 l w : started s0 t0 → winv s0 t0 l w → joining w = true → reaches_start w.
Proof.
  intros Hs0 Hw Hj. pose proof Hw as [_ _ Htok _]. destruct Htok as [| | |Harm Hn Hwait _ Hq Hd]; try congruence.
  assert (∀ w', joining w' = true → gen w' = Finished → reaches_start w') as Hfin.
  { intros w' Hj' Hg'. eapply reaches_step; [by apply kr_joined|done|]. exists [], (start_thread w').
    split; [constructor|done]. }
  unfold armed in Harm. destruct (gen w) as [|[]|] eqn:Hg; try done; [|by apply Hfin].
  eapply reaches_step; [by eapply log_step|done|]. by apply Hfin.
Qed.

Lemma reaches_queue s0 t0 l w : started s0 t0 → winv s0 t0 l w → posted w = [LoopGenerate] → reaches_start w.
Proof.
  intros Hs0 Hw Hq. destruct (joining w) eqn:Hj; [by eapply reaches_join|].
  assert (run_handler LoopGenerate (set_posted [] w) = Ret (loopGenerate (set_posted [] w), None)) as Hrun
    by (unfold run_handler; cbn [alive set_posted]; by rewrite (winv_alive _ _ _ _ Hw)).
  pose proof (kr_handler w LoopGenerate [] _ _ Hj Hq Hrun) as Hstep.
  eapply reaches_step; [exact Hstep|done|]. pose proof (winv_handler _ _ _ _ _ _ _ _ Hw Hj Hq Hrun) as Hw'.
  unfold loopGenerate in *. cbn [gen set_posted] in *.
  destruct (gen w) as [|p|] eqn:Hg; [exists [], (start_thread (set_posted [] w)); split; [constructor|done]|..];
    eapply reaches_join; eauto.
Qed.

Lemma winv_expiry s0 t0 l w : started s0 t0 → winv s0 t0 l w → is_Some (timer_expiry (provider w)).
Proof.
  intros Hs0 [_ Hst _ _]. destruct Hst as [_ Hl|p ni base l' now rng Hg Hi -> Hb -> Hpr].
  - destruct (renewals_started _ _ _ _ Hs0 Hl) as (_ & _ & _ & _ & _ & ->). by eexists.
  - destruct (renewals_started _ _ _ _ Hs0 Hb) as (_ & _ & _ & _ & _ & E). rewrite Hpr. by destruct p; simpl; rewrite ?E; eexists.
Qed.

Lemma reaches_timer s0 t0 l w : started s0 t0 → winv s0 t0 l w → waiting w = true → posted w = [] → reaches_start w.
Proof.
  intros Hs0 Hw Hwait Hq. destruct (winv_expiry _ _ _ _ Hs0 Hw) as [t Ht].
  set (w1 := set_clock (Z.max (clock w) t) w).
  assert (winv s0 t0 l w1) as Hw1 by (apply winv_tick; [done|lia]).
  assert (timer_expiry (provider w1) = Some t ∧ (t ≤ clock w1)%Z) as [Ht1 Hc1] by (simpl; split; [done|lia]).
  eapply (reaches_step _ Tick w1); [apply kr_tick; lia|done|].
  eapply (reaches_step _ Timer); [by eapply kr_timer|done|].
  eapply reaches_queue; [done|by eapply winv_timer|]. simpl. by rewrite Hwait, Hq.
Qed.

(** The arguments of the signal, by what the generator has done. *)
Definition signal_args (w : World) (r : outcome (World * option (KeyInfo * KeyInfo))) (w' : World) : Prop :=
  match gen w with
  | Running (PPush ni) =>
      ∃ old h old' ni', history (provider w) = old :: h ∧ KeyInfo_copy old = Ret old' ∧ KeyInfo_copy ni = Ret ni' ∧
        r = Ret (w', Some (old', ni'))
  | Running (PPop ni | PExpires ni | PWait ni | PLog ni) =>
      ∃ ni', KeyInfo_copy ni = Ret ni' ∧ r = Ret (w', Some (ni', ni'))
  | Finished => r = Undef dangling_ref
  | _ => False
  end.

Lemma winv_rotation s0 t0 l w n hs : winv s0 t0 l w → posted w = Rotation n :: hs →
  n = call w ∧ joining w = false ∧
  match gen w with Finished | Running (PPush _ | PPop _ | PExpires _ | PWait _ | PLog _) => True | _ => False end.
Proof.
  intros [_ _ Htok _] Hq. destruct Htok as [p Hg Harm Hw Hj [Hr|[Hr Hc]] Hd|Harm Hw Hj [Hr|[Hr Hc]]|hs' Harm Hw Hj Hq' Hr Hd|];
    try congruence; [rewrite Hr in Hq; by injection Hq as <- <-..|].
  destruct Hr as [Hr|[Hr Hc]]; cbn [posted set_posted call] in Hr; subst hs'; rewrite Hq' in Hq; [done|].
  by injection Hq as <- <-.
Qed.

Lemma rotation_front base p now rng : (1 ≤ max_history_size base)%Z →
  info p = Some (new_key base now rng) → match p with PPop _ | PExpires _ | PWait _ | PLog _ => True | _ => False end →
  ∃ h, history (at_phase base p) = new_key base now rng :: h.
Proof.
  intros Hm Hi Hp. assert (∃ m, Z.to_nat (max_history_size base) = S m) as [m Em] by (exists (Z.to_nat (max_history_size base) - 1); lia).
  destruct p; try done; injection Hi as ->; cbn [at_phase set_expiry set_history history]; rewrite ?Em; by eexists.
Qed.

Lemma rotation_outcome s0 t0 l w n hs : started s0 t0 → winv s0 t0 l w → posted w = Rotation n :: hs →
  signal_args w (run_handler (Rotation n) (set_posted hs w)) (set_posted hs w).
Proof.
  intros Hs0 Hw Hq. destruct (winv_rotation _ _ _ _ _ _ Hw Hq) as (-> & _ & Hgen).
  destruct (winv_current _ _ _ _ Hs0 Hw) as (ki & h & Hh & Hok & _). apply Forall_cons in Hok as [Hki _].
  destruct Hw as [Ha Hst _ _]. unfold signal_args, run_handler. cbn [alive set_posted]. rewrite Ha.
  destruct Hst as [[Hg|[Hg|Hg]] Hl|p ni base l' now rng Hg Hi -> Hb -> Hpr]; rewrite Hg in Hgen; try done.
  { rewrite Hg. unfold new_info_of. cbn [gen set_posted]. by rewrite Hg. }
  change (new_info_of (call w) (set_posted hs w)) with (new_info_of (call w) w). rewrite Hg, (rotation_args _ _ _ Hg Hi).
  unfold rotation_closure. cbn [provider set_posted]. pose proof (key_ok_copy _ (new_key_ok base now rng)) as Hc.
  destruct (renewals_started _ _ _ _ Hs0 Hb) as ((Hm1 & _) & _).
  pose proof (rotation_front base p now rng Hm1 Hi) as Hf. rewrite <-Hpr in Hf.
  destruct p; try done; injection Hi as ->;
    [|destruct (Hf I) as [h' ->]; eexists; (split; [exact Hc|]); cbn [mbind outcome_bind]; by rewrite Hc..].
  rewrite Hh. eexists _, _, _, _. split; [done|]. split; [apply (key_ok_copy _ Hki)|]. split; [exact Hc|].
  cbn [mbind outcome_bind]. by rewrite (key_ok_copy _ Hki), Hc.
Qed.

Lemma rotation_runs s0 t0 l w n hs :
  started s0 t0 → winv s0 t0 l w → posted w = Rotation n :: hs → gen w ≠ Finished →
  ∃ args, step w (Signal args) (set_posted hs w) ∧ winv s0 t0 l (set_posted hs w).
Proof.
  intros Hs0 Hw Hq Hg. pose proof (rotation_outcome _ _ _ _ _ _ Hs0 Hw Hq) as Ho.
  destruct (winv_rotation _ _ _ _ _ _ Hw Hq) as (_ & Hj & Hgen).
  assert (∃ args, run_handler (Rotation n) (set_posted hs w) = Ret (set_posted hs w, args)) as [args Hr].
  { unfold signal_args in Ho. destruct (gen w) as [|[]|]; try done; naive_solver. }
  exists args. split; [by eapply kr_handler|by eapply winv_handler].
Qed.

(** The statements from [p] on, with an empty queue. *)
Lemma reaches_generator s0 t0 l w p :
  started s0 t0 → winv s0 t0 l w → gen w = Running p → p ≠ PStart → posted w = [] → reaches_start w.
Proof.
  intros Hs0.
  assert (∀ w p w', winv s0 t0 l w → gen w = Running p → p ≠ PStart → renewKeys_step 0 p w = Ret w' →
    (winv s0 t0 l w' → reaches_start w') → reaches_start w) as Hnext.
  { intros w1 q w2 Hw Hg Hq Hs Hr. eapply reaches_step; [by eapply statement_step|done|]. apply Hr. by eapply winv_statement. }
  assert (∀ w ni, winv s0 t0 l w → gen w = Running (PLog ni) → posted w = [] → reaches_start w) as HLog.
  { intros w1 ni Hw Hg Hq. pose proof Hw as [_ _ Htok _].
    destruct Htok as [? ? Harm|Harm Hwait|hs ? ? ? Hq'|? ? ? Hj].
    - destruct Harm. unfold armed. by rewrite Hg.
    - by eapply reaches_timer.
    - rewrite Hq' in Hq. by destruct hs.
    - by eapply reaches_join. }
  assert (∀ w ni, winv s0 t0 l w → gen w = Running (PWait ni) → posted w = [] → reaches_start w) as HWait
    by (intros; eapply Hnext; try done; by intros; eapply HLog).
  assert (∀ w ni, winv s0 t0 l w → gen w = Running (PExpires ni) → posted w = [] → reaches_start w) as HExpires.
  { intros w1 ni Hw Hg Hq. eapply Hnext; try done. intros Hw'. eapply HWait; [done|done|]. simpl. rewrite Hq.
    pose proof Hw as [_ _ Htok _]. destruct Htok as [|Harm|? ? ->|? ? ->]; [by rewrite H1| |done|done].
    unfold armed in Harm. by rewrite Hg in Harm. }
  assert (∀ w ni, winv s0 t0 l w → gen w = Running (PPop ni) → posted w = [] → reaches_start w) as HPop
    by (intros; eapply Hnext; try done; by intros; eapply HExpires).
  assert (∀ w ni, winv s0 t0 l w → gen w = Running (PPush ni) → posted w = [] → reaches_start w) as HPush
    by (intros; eapply Hnext; try done; by intros; eapply HPop).
  intros Hw Hg Hp Hq. destruct p as [|ni|ni|ni|ni|ni|ni]; [done| |eauto..].
  destruct (winv_current _ _ _ _ Hs0 Hw) as (ki & h & Hh & _).
  eapply Hnext; try done. rewrite decide_False by (by rewrite Hh). cbn [gen at_next]. rewrite Hq. cbn [app]. intros Hw'.
  destruct (rotation_runs _ _ _ _ (call w) [] Hs0 Hw' eq_refl ltac:(done)) as (args & Hstep & Hw2).
  eapply reaches_step; [exact Hstep|done|]. by eapply HPush.
Qed.

Lemma reaches_fresh s0 t0 l w :
  started s0 t0 → winv s0 t0 l w → (∀ n hs, posted w = Rotation n :: hs → gen w ≠ Finished) → reaches_start w.
Proof.
  intros Hs0 Hw Hfresh.
  assert (∀ w, winv s0 t0 l w → posted w = [] ∨ posted w = [LoopGenerate] → reaches_start w) as Hclean.
  { clear w Hw Hfresh. intros w Hw [Hq|Hq]; [|by eapply reaches_queue].
    destruct (gen w) as [|p|] eqn:Hg; [|destruct (decide (info p = None)) as [Hi|Hi]|].
    - pose proof Hw as [_ _ Htok _]. destruct Htok as [| |hs ? ? ? Hq'|]; try congruence; [by eapply reaches_timer|].
      rewrite Hq' in Hq. by destruct hs.
    - exists [], w. split; [constructor|]. split; [done|]. by destruct p.
    - eapply reaches_generator; [done|done|done| |done]. by intros ->.
    - pose proof Hw as [_ _ Htok _]. destruct Htok as [| |hs ? ? ? Hq'|]; try congruence; [by eapply reaches_timer| |by eapply reaches_join].
      rewrite Hq' in Hq. by destruct hs. }
  destruct (posted w) as [|[n|] hs] eqn:Hq; [by apply Hclean; auto|..].
  - destruct (rotation_runs _ _ _ _ n hs Hs0 Hw Hq ltac:(eauto)) as (args & Hstep & Hw2).
    eapply reaches_step; [exact Hstep|done|]. apply Hclean; [done|]. cbn [posted set_posted].
    destruct Hw as [_ _ Htok _]. destruct Htok as [? ? ? ? ? [Hr|[Hr _]]|? ? ? [Hr|[Hr _]]|hs' ? ? ? Hq' [Hr|[Hr _]]|]; try congruence.
    + rewrite Hr in Hq. injection Hq as _ <-. by left.
    + rewrite Hr in Hq. injection Hq as _ <-. by left.
    + cbn [posted set_posted] in Hr. subst. by rewrite Hq' in Hq.
    + cbn [posted set_posted call] in Hr. subst. rewrite Hq' in Hq. injection Hq as _ <-. by right.
  - apply Hclean; [done|]. right. destruct Hw as [_ _ Htok _].
    destruct Htok as [? ? ? ? ? [Hr|[Hr _]]|? ? ? [Hr|[Hr _]]|hs' ? ? ? Hq' [Hr|[Hr _]]|]; try congruence.
    + cbn [posted set_posted] in Hr. subst. by rewrite Hq' in Hq.
    + cbn [posted set_posted call] in Hr. subst. by rewrite Hq' in Hq.
Qed.

(** *** Keys that are not lost *)

Lemma statement_clock rng p w w' : renewKeys_step rng p w = Ret w' → clock w' = clock w.
Proof.
  intros H. destruct p; cbn [renewKeys_step] in H; [injection H as <-; by try case_decide..|].
  destruct (history (provider w)); [done|by injection H as <-].
Qed.
Lemma handler_clock h hs w w' args : run_handler h (set_posted hs w) = Ret (w', args) → clock w' = clock w.
Proof.
  unfold run_handler. destruct (alive _); [|done]. destruct h as [n|]; intros H.
  - apply bind_Ret in H as ([f ni] & _ & H). apply bind_Ret in H as (? & _ & H). apply bind_Ret in H as (? & _ & H).
    by injection H as <- _.
  - injection H as <- _. unfold loopGenerate. by destruct (gen _).
Qed.
(** The clock does not go back, so that no renewal lies in the future. *)
Lemma clock_star w ls w' : star step w ls w' →
  (clock w ≤ clock w')%Z ∧ Forall (λ e, e.1 ≤ clock w')%Z (omap renewed ls).
Proof.
  induction 1 as [w|w1 w2 w3 l ls Hstep _ [IH1 IH2]]; [split; [lia|constructor]|].
  assert (clock w1 ≤ clock w2 ∧ ∀ e, renewed l = Some e → e.1 ≤ clock w2)%Z as [H1 H2].
  { destruct Hstep as [w rng w' _ [= <-]|w rng p w' _ _ Hs|w t _ _ _|w h hs w' args _ _ Hs|w _ _|w o ki _ _|w t Ht].
    - split; [simpl; lia|]. intros e [= <-]. simpl. lia.
    - rewrite (statement_clock _ _ _ _ Hs). by split; [lia|].
    - by split; [simpl; lia|].
    - rewrite (handler_clock _ _ _ _ _ Hs). by split; [lia|].
    - by split; [simpl; lia|].
    - by split; [lia|].
    - by split. }
  split; [lia|]. cbn [omap list_omap]. destruct (renewed l) as [e|]; [|done]. constructor; [|done].
  specialize (H2 e eq_refl). lia.
Qed.
Lemma last_time_le t0 l t : (t0 ≤ t)%Z → Forall (λ e, e.1 ≤ t)%Z l → (last_time t0 l ≤ t)%Z.
Proof.
  intros H0 Hl. destruct l as [|[n r] l _] using rev_ind; [done|]. rewrite last_time_snoc.
  apply Forall_app in Hl as [_ Hl]. by inversion Hl.
Qed.

(** The generator has made this key and not stored it yet. *)
Definition unstored (w : World) (ki : KeyInfo) : Prop := gen w = Running (PDispatch ki) ∨ gen w = Running (PPush ki).

(** The history holds the newest [max_history_size] keys, whatever the phase. *)
Lemma winv_newest s0 t0 l w j ki :
  started s0 t0 → winv s0 t0 l w → generated s0 l (history s0) !! j = Some ki → j < Z.to_nat (max_history_size s0) →
  ki ∈ history (provider w) ∨ unstored w ki.
Proof.
  intros Hs0 Hw Hj Hlt. pose proof Hs0 as (Hwf & _ & _). assert (history s0 = take (Z.to_nat (max_history_size s0)) (history s0)) as Hh0.
  { symmetry. apply take_ge. destruct Hwf. lia. }
  destruct (winv_staged _ _ _ _ Hw) as [_ Hl|p ni base l' now rng Hg Hi -> Hb -> Hpr].
  { left. destruct (renewals_spec s0 l _ Hwf Hh0) as (s & Hs & _ & _ & Hh). rewrite Hl in Hs. injection Hs as <-. rewrite Hh.
    apply list_elem_of_lookup. exists j. by rewrite lookup_take, decide_True. }
  destruct (renewals_spec s0 l' _ Hwf Hh0) as (s & Hs & _ & Hm & Hh). rewrite Hb in Hs. injection Hs as <-.
  destruct (renewals_started _ _ _ _ Hs0 Hb) as (_ & _ & _ & He & Hlo & _).
  unfold generated in Hj. rewrite foldl_app in Hj. cbn [foldl fst snd] in Hj. fold (generated s0 l' (history s0)) in Hj.
  assert (new_key s0 now rng = new_key base now rng) as Hk by (unfold new_key; by rewrite He, Hlo). rewrite Hk in Hj.
  set (ni := new_key base now rng) in *.
  assert (ki = ni ∨ ki ∈ take (Z.to_nat (max_history_size s0) - 1) (generated s0 l' (history s0))) as Hcase.
  { destruct j as [|j]; [left; by injection Hj|right]. apply list_elem_of_lookup. exists j. rewrite lookup_take, decide_True; [done|lia]. }
  assert (ki = ni ∨ ki ∈ history base) as Hcase1.
  { destruct Hcase as [?|Hin]; [by left|right]. rewrite Hh.
    apply list_elem_of_lookup in Hin as [i [Hi' ?]%lookup_take_Some]. apply list_elem_of_lookup. exists i.
    apply lookup_take_Some. split; [done|lia]. }
  assert (ki ∈ take (Z.to_nat (max_history_size s0)) (ni :: history base)) as Htrim.
  { destruct (Z.to_nat (max_history_size s0)) as [|m] eqn:E; [lia|]. cbn [take]. rewrite Hh, take_take, Nat.min_l by lia.
    replace (S m - 1) with m in Hcase by lia. destruct Hcase as [->|?]; set_solver. }
  rewrite <-Hm in Htrim. unfold unstored. rewrite Hg, Hpr.
  destruct p; try done; injection Hi as ->; cbn [at_phase set_expiry set_history history]; try (by left).
  - destruct Hcase1 as [->|?]; [right; by left|by left].
  - destruct Hcase1 as [->|?]; [right; by right|by left].
  - left. destruct Hcase1 as [->|?]; set_solver.
Qed.

Lemma winv_keys_ok s0 t0 l w : started s0 t0 → winv s0 t0 l w → Forall key_ok (history (provider w)).
Proof. intros Hs0 Hw. destruct (winv_current _ _ _ _ Hs0 Hw) as (ki & h & -> & Hok & _). done. Qed.
End Rotation.

(** ** The constructor *)

Section Constructor.
Context {EC : ECDSA} {DG : Digest}.

Lemma kp_wf_empty max ri li : (1 ≤ max)%Z → kp_wf (mkKeyProvider [] max ri li None).
Proof. intros H. repeat split; simpl; [done|lia|constructor]. Qed.

Lemma started_new max ri li now rng s0 es :
  (1 ≤ max)%Z → renewKeys (mkKeyProvider [] max ri li None) now rng = Ret (s0, es) → started s0 now.
Proof.
  intros Hmax H. destruct (renewKeys_spec _ now rng (kp_wf_empty max ri li Hmax)) as (s & H' & Hh & _ & He & _ & Ht & Hwf).
  rewrite H in H'. injection H' as -> _. split; [done|]. rewrite Hh, Ht, He. simpl.
  split; [|done]. by destruct (Z.to_nat max) eqn:E; [lia|].
Qed.

(** The first call, statement by statement, leaves what [World_new] starts
    from, for the constructor to join. *)
Lemma constructor_run max ri li now rng s0 es :
  (1 ≤ max)%Z → renewKeys (mkKeyProvider [] max ri li None) now rng = Ret (s0, es) →
  star step (World_init (mkKeyProvider [] max ri li None) now) (Generate now rng :: replicate 6 Generator)
    (mkWorld s0 Finished 1 [] true false true now).
Proof.
  intros Hmax H. set (s := mkKeyProvider [] max ri li None) in *. destruct (at_phase_done s now rng (kp_wf_empty _ _ _ Hmax)) as [es' E].
  rewrite H in E. injection E as -> _. set (ni := new_key s now rng).
  eapply star_cons; [by apply (kr_generate (World_init s now) rng)|].
  eapply star_cons; [by eapply (statement_step 0 (PDispatch ni))|].
  eapply star_cons; [by eapply (statement_step 0 (PPush ni))|].
  eapply star_cons.
  { eapply (statement_step 0 (PPop ni)); [done|done|]. cbn [renewKeys_step]. by rewrite decide_False by (simpl; lia). }
  eapply star_cons; [by eapply (statement_step 0 (PExpires ni))|].
  eapply star_cons; [by eapply (statement_step 0 (PWait ni))|].
  apply star_one. eapply (statement_step 0 (PLog ni)); [done|done|]. cbn. repeat f_equal.
  by rewrite take_ge by (simpl; lia).
Qed.
End Constructor.

(** A provider of two keys, renewed every ten seconds, and a run in which its
    timer fires and the second renewal has posted its closure. *)
Module RotationDemo.
Definition base : KeyProvider (EC:=Toy.toy_ECDSA) := toy_provider.
Definition ni : KeyInfo (EC:=Toy.toy_ECDSA) := new_key (DG:=Toy.toy_Digest) base 10000000000 4.
Definition labels : list (label (EC:=Toy.toy_ECDSA)) :=
  [Tick; Timer; Signal None; Generate 10000000000 4; Generator].
Definition posted_world : World (EC:=Toy.toy_ECDSA) :=
  mkWorld base (Running (PPush ni)) 2 [Rotation 2] false false true 10000000000.

Lemma new_ok : renewKeys (DG:=Toy.toy_Digest) (mkKeyProvider [] 2 10 20 None) 0 3 = Ret (base, []).
Proof. reflexivity. Qed.
Lemma run : star (step (DG:=Toy.toy_Digest)) (World_new base 0) labels posted_world.
Proof.
  eapply star_cons; [apply (kr_tick _ 10000000000); discriminate|].
  eapply star_cons; [apply (kr_timer _ 10000000000); [reflexivity|reflexivity|discriminate]|].
  eapply star_cons; [eapply kr_handler; [reflexivity|reflexivity|reflexivity]|].
  match goal with |- star _ ?w _ _ => eapply star_cons; [apply (kr_generate w 4); reflexivity|] end.
  apply star_one. eapply (kr_statement _ 0 (PDispatch ni)); [reflexivity|discriminate|reflexivity].
Qed.
End RotationDemo.

(** ** Properties *)

(** C4 Key rotation across its threads: however the statements of the generator,
    the timer, the handlers and the readers interleave, no renewal begins before
    the previous key has expired, a finished generator leaves the provider in the
    state the same renewals give as single steps, and in every intermediate
    state [getKeyInfo()] returns a key pair with its hash and the history is at
    most one key over its limit. *)
Theorem rotation_refines_renewals {EC : ECDSA} {DG : Digest} (max ri li now rng : Z) (s0 : KeyProvider)
    (es : list kp_effect) (ls : list label) (w : World)
    (Hmax : (1 ≤ max)%Z) (Hnew : renewKeys (mkKeyProvider [] max ri li None) now rng = Ret (s0, es))
    (H : star step (World_new s0 now) ls w) :
  paced (expiration_interval s0) now (omap renewed ls) ∧
  ((∀ p, gen w ≠ Running p) → renewals s0 (omap renewed ls) = Ret (provider w)) ∧
  (∃ ki, getKeyInfo (provider w) 0 = Ret (Some ki) ∧ key_ok ki) ∧
  (Z.of_nat (length (history (provider w))) ≤ max_history_size (provider w) + 1)%Z.
Proof.
  pose proof (started_new _ _ _ _ _ _ _ Hmax Hnew) as Hs0.
  pose proof (winv_star _ _ [] _ _ _ Hs0 H (winv_new _ _ now Hs0)) as Hw. simpl in Hw.
  split; [apply (winv_paced _ _ _ _ Hw)|]. split.
  - intros Hg. destruct (winv_staged _ _ _ _ Hw) as [_ Hl|p ? ? ? ? ? Hg']; [done|]. by destruct (Hg p).
  - destruct (winv_current _ _ _ _ Hs0 Hw) as (ki & h & Hh & Hok & Hlen & Hm). apply Forall_cons in Hok as [Hki _].
    split; [|rewrite Hh, Hm; simpl; lia]. by eapply getKeyInfo_front.
Qed.

Lemma rotation_refines_renewals_witness :
  ∃ ki, getKeyInfo (provider RotationDemo.posted_world) 0 = Ret (Some ki) ∧ key_ok (DG:=Toy.toy_Digest) ki.
Proof.
  exact (proj1 (proj2 (proj2 (rotation_refines_renewals 2 10 20 0 3 _ _ _ _ ltac:(lia) RotationDemo.new_ok RotationDemo.run)))).
Defined.

(** C27 The rotation signal: when the I/O thread comes to the closure a renewal
    posted, that renewal is the latest one, and the arguments depend on how far
    it has come: before it pushed the new key the signal gets the old and the
    new key, after that the new key twice, and after it returned the closure
    reads a variable that no longer exists. *)
Theorem rotation_signal_arguments {EC : ECDSA} {DG : Digest} (max ri li now rng : Z) (s0 : KeyProvider)
    (es : list kp_effect) (ls : list label) (w : World) (n : nat) (hs : list handler)
    (Hmax : (1 ≤ max)%Z) (Hnew : renewKeys (mkKeyProvider [] max ri li None) now rng = Ret (s0, es))
    (H : star step (World_new s0 now) ls w) (Hq : posted w = Rotation n :: hs) :
  n = call w ∧ joining w = false ∧ signal_args w (run_handler (Rotation n) (set_posted hs w)) (set_posted hs w).
Proof.
  pose proof (started_new _ _ _ _ _ _ _ Hmax Hnew) as Hs0.
  pose proof (winv_star _ _ [] _ _ _ Hs0 H (winv_new _ _ now Hs0)) as Hw.
  destruct (winv_rotation _ _ _ _ _ _ Hw Hq) as (-> & Hj & _).
  split; [done|]. split; [done|]. by eapply rotation_outcome.
Qed.

Lemma rotation_signal_arguments_witness :
  signal_args RotationDemo.posted_world
    (run_handler (Rotation 2) (set_posted [] RotationDemo.posted_world)) (set_posted [] RotationDemo.posted_world).
Proof.
  exact (proj2 (proj2 (rotation_signal_arguments 2 10 20 0 3 _ _ _ _ 2 [] ltac:(lia) RotationDemo.new_ok RotationDemo.run eq_refl))).
Defined.

(** C23 Rotation does not stop: from every reachable state, unless the closure of
    a renewal that has returned is next in the queue, the threads can go on to
    generate another key, whichever one the generator draws. *)
Theorem rotation_never_stops {EC : ECDSA} {DG : Digest} (max ri li now rng : Z) (s0 : KeyProvider)
    (es : list kp_effect) (ls : list label) (w : World) (rng' : Z)
    (Hmax : (1 ≤ max)%Z) (Hnew : renewKeys (mkKeyProvider [] max ri li None) now rng = Ret (s0, es))
    (H : star step (World_new s0 now) ls w) (Hfresh : ∀ n hs, posted w = Rotation n :: hs → gen w ≠ Finished) :
  ∃ ls' now' w', star step w (ls' ++ [Generate now' rng']) w' ∧ omap renewed ls' = [].
Proof.
  pose proof (started_new _ _ _ _ _ _ _ Hmax Hnew) as Hs0.
  pose proof (winv_star _ _ [] _ _ _ Hs0 H (winv_new _ _ now Hs0)) as Hw.
  destruct (reaches_fresh _ _ _ _ Hs0 Hw Hfresh) as (ls' & w1 & Hst & Ho & Hg).
  eexists ls', (clock w1), _. split; [|done]. eapply star_trans; [exact Hst|]. by apply star_one, kr_generate.
Qed.

Lemma rotation_never_stops_witness :
  ∃ ls' now' w', star (step (DG:=Toy.toy_Digest)) RotationDemo.posted_world (ls' ++ [Generate now' 9]) w' ∧
    omap renewed ls' = [].
Proof.
  refine (rotation_never_stops 2 10 20 0 3 _ _ _ _ 9 _ RotationDemo.new_ok RotationDemo.run _); [lia|].
  intros n hs _. discriminate.
Defined.

(** C17 No key is dropped while it is valid: when [renew_interval * (history_size
    + 1)] fits an [unsigned int], then however the generator, the timer, the
    handlers and the readers interleave, every key generated so far whose lose
    time lies in the future is found by its hash, unless the generator has just
    made it and not stored it yet. *)
Theorem rotation_keeps_keys {EC : ECDSA} {DG : Digest} (hs ri now rng : Z) (s0 : KeyProvider)
    (es : list kp_effect) (ls : list label) (w : World) (ki : KeyInfo)
    (Hhs : (0 ≤ hs)%Z) (Hri : (0 ≤ ri)%Z) (Hfits : in_u32 (ri * (hs + 1)))
    (Hnew : renewKeys (mkKeyProvider [] (hs + 1) ri (ri *32 (hs + 1))%word None) now rng = Ret (s0, es))
    (H : star step (World_new s0 now) ls w)
    (Hgen : ki ∈ generated s0 (omap renewed ls) (history s0)) (Hvalid : (clock w < lose_time ki)%Z) :
  ki ∈ history (provider w) ∧
    (∃ ki', getKeyInfo_th (provider w) (th ki) = Ret (Some ki') ∧ key_ok ki' ∧ hash (th ki') = hash (th ki)) ∨
  unstored w ki.
Proof.
  rewrite u32_small in Hnew by done. pose proof (started_new (hs + 1) _ _ _ _ _ _ ltac:(lia) Hnew) as Hs0.
  pose proof (winv_star _ _ [] _ _ _ Hs0 H (winv_new _ _ now Hs0)) as Hw. simpl in Hw.
  destruct (renewKeys_spec _ now rng (kp_wf_empty (hs + 1) ri (ri * (hs + 1)) ltac:(lia)))
    as (s & H' & _ & Hm & He & _). rewrite Hnew in H'. injection H' as <- _. simpl in Hm, He.
  destruct (clock_star _ _ _ H) as [Hc1 Hc2]. pose proof (last_time_le now _ _ Hc1 Hc2) as Hlast.
  apply list_elem_of_lookup in Hgen as [j Hj]. pose proof (winv_paced _ _ _ _ Hw) as Hp. rewrite He in Hp.
  pose proof (kept_index _ _ _ _ _ _ _ _ _ Hhs Hri Hnew Hp Hj ltac:(unfold last_time in Hlast; lia)) as Hlt.
  rewrite <-Hm in Hlt. destruct (winv_newest _ _ _ _ _ _ Hs0 Hw Hj Hlt) as [Hin|?]; [left|by right].
  split; [done|]. apply getKeyInfo_th_found; [by eapply winv_keys_ok|done].
Qed.

Lemma rotation_keeps_keys_witness : toy_key ∈ history (provider RotationDemo.posted_world).
Proof.
  destruct (rotation_keeps_keys 1 10 0 3 _ _ _ _ toy_key ltac:(lia) ltac:(lia) ltac:(unfold in_u32; lia)
              RotationDemo.new_ok RotationDemo.run) as [[Hin _]|[Hu|Hu]].
  - apply list_elem_of_In. right. left. reflexivity.
  - reflexivity.
  - exact Hin.
  - discriminate Hu.
  - discriminate Hu.
Defined.

(** The destructor leaves a handler behind: after [~KeyProvider], with the
    generator joined, a [loopGenerate] of the deleted provider is in the queue
    of the io service, and every handler there uses the deleted provider. *)
Theorem keyprovider_delete_leaves_handler {EC : ECDSA} {DG : Digest} (max ri li now rng : Z) (s0 : KeyProvider)
    (es : list kp_effect) (ls : list label) (w : World)
    (Hmax : (1 ≤ max)%Z) (Hnew : renewKeys (mkKeyProvider [] max ri li None) now rng = Ret (s0, es))
    (H : star step (World_new s0 now) ls w) (Hg : ∀ p, gen w ≠ Running p) (Hj : joining w = false) :
  LoopGenerate ∈ posted (KeyProvider_delete w) ∧
  ∀ h hs, run_handler h (set_posted hs (KeyProvider_delete w)) = Undef use_after_free.
Proof.
  pose proof (started_new _ _ _ _ _ _ _ Hmax Hnew) as Hs0.
  pose proof (winv_star _ _ [] _ _ _ Hs0 H (winv_new _ _ now Hs0)) as [_ _ Htok _].
  split; [|done]. simpl. destruct Htok as [p Hp|_ -> _ _|hs _ -> _ -> _ _|]; [by destruct (Hg p)|set_solver..|congruence].
Qed.

Lemma keyprovider_delete_leaves_handler_witness :
  LoopGenerate ∈ posted (KeyProvider_delete (World_new RotationDemo.base 0)).
Proof.
  refine (proj1 (keyprovider_delete_leaves_handler 2 10 20 0 3 _ _ [] _ _ RotationDemo.new_ok (star_nil _ _) _ _));
    [lia|intros p; discriminate|reflexivity].
Defined.
