(* ===== verification/Endpoint.v ===== *)
(** * Endpoints and their text form

    [daemon/transport/InterfaceEndpoint.h], [ip/IPInterfaceEndpoint.cpp],
    [udp/UDPInterfaceEndpoint.cpp] and [SocketEndpoint.cpp].
    [boost::asio::ip::address] and [boost::lexical_cast] are parameters. *)

From S2P Require Import Prelude Common Crypto.
Import HashM.
From Stdlib Require Import ZArith Lia.
From Stdlib.Strings Require Import Byte.
From Stdlib Require DecimalString.

Definition colon : byte := x3a.
Definition percent : byte := x25.

(** [address::to_string], [address::from_string] (which throws on other
    text) and [lexical_cast<uint16_t>]. *)
Class NetLib := {
  address : Type;
  address_eq_dec :: EqDecision address;
  any_address : address;
  is_v4 : address → bool;
  address_text : address → bytes;
  address_parse : bytes → option address;
  lexical_cast_u16 : bytes → option Z;
  address_law a : percent ∉ address_text a → address_parse (address_text a) = Some a;
  lexical_law n : (n < 65536)%N → lexical_cast_u16 (cstr (print_dec n)) = Some (Z.of_N n);
}.

(** [std::string::find] and [rfind] of a character, and [substr]; positions
    are [size_t]. *)
Definition str_find (c : byte) (s : bytes) : Z :=
  match list_find (eq c) s with Some (i, _) => Z.of_nat i | None => npos end.
Definition str_rfind (c : byte) (s : bytes) : Z :=
  match list_find (eq c) (reverse s) with
  | Some (i, _) => Z.of_nat (length s) - 1 - Z.of_nat i
  | None => npos
  end.
Definition substr (s : bytes) (pos count : Z) : bytes :=
  take (Z.to_nat count) (drop (Z.to_nat pos) s).

Section Endpoint.
Context {NL : NetLib}.

Record IPInterfaceEndpoint := mkEndpoint { prefix : bytes; ip : address; port : Z }.

Definition udp_prefix : bytes := cstr "UDP".

(** The constructors of [UDPInterfaceEndpoint] and its [clone]. *)
Definition UDPInterfaceEndpoint_new : IPInterfaceEndpoint := mkEndpoint udp_prefix any_address 0.
Definition UDPInterfaceEndpoint_of (a : address) (p : Z) : IPInterfaceEndpoint := mkEndpoint udp_prefix a p.
Definition clone (e : IPInterfaceEndpoint) : IPInterfaceEndpoint := UDPInterfaceEndpoint_of (ip e) (port e).

Definition getAsioIP (e : IPInterfaceEndpoint) : address := ip e.
Definition setAsioIP (e : IPInterfaceEndpoint) (a : address) : IPInterfaceEndpoint := mkEndpoint (prefix e) a (port e).
(** The constructor from text: [address::from_string] throws. *)
Definition UDPInterfaceEndpoint_of_string (s : bytes) (p : Z) : outcome IPInterfaceEndpoint :=
  match address_parse s with Some a => Ret (UDPInterfaceEndpoint_of a p) | None => Throw (asio_error 22) end.

Definition isIPv4 (e : IPInterfaceEndpoint) : bool := is_v4 (ip e).
Definition isIPv6 (e : IPInterfaceEndpoint) : bool := negb (is_v4 (ip e)).
Definition getIPString (e : IPInterfaceEndpoint) : bytes := address_text (ip e).
Definition setPort (e : IPInterfaceEndpoint) (p : Z) : IPInterfaceEndpoint := mkEndpoint (prefix e) (ip e) p.

(** [setIPString] cuts an IPv6 zone, [ip.substr(0, ip.find('%'))]. *)
Definition setIPString (e : IPInterfaceEndpoint) (s : bytes) : outcome IPInterfaceEndpoint :=
  match address_parse (substr s 0 (str_find percent s)) with
  | Some a => Ret (mkEndpoint (prefix e) a (port e))
  | None => Throw (asio_error 22)
  end.

Definition ip_toString (e : IPInterfaceEndpoint) : bytes :=
  prefix e ++ [colon] ++ getIPString e ++ [colon] ++ cstr (print_dec (Z.to_N (port e))).

Definition ip_fromString (e : IPInterfaceEndpoint) (s : bytes) : outcome IPInterfaceEndpoint :=
  let prefix_delim := str_find colon s in
  let port_delim := str_rfind colon s in
  match lexical_cast_u16 (substr s (u64 (port_delim + 1)) (u64 (Z.of_nat (length s) - port_delim))) with
  | Some p =>
      setIPString (setPort e p) (substr s (u64 (prefix_delim + 1)) (u64 (port_delim - prefix_delim - 1)))
  | None => Throw bad_lexical_cast
  end.

(** ** [SocketEndpoint] *)

Record SocketEndpoint := mkSocketEndpoint { interface_endpoint : option IPInterfaceEndpoint }.

(** Copying clones the interface endpoint through its pointer. *)
Definition SocketEndpoint_copy (t : SocketEndpoint) : outcome SocketEndpoint :=
  match interface_endpoint t with
  | Some e => Ret (mkSocketEndpoint (Some (clone e)))
  | None => Undef null_deref
  end.
(** The constructor with a parent only, and [operator=], which drops what
    [this] held. *)
Definition SocketEndpoint_new : SocketEndpoint := mkSocketEndpoint None.
Definition SocketEndpoint_assign (this t : SocketEndpoint) : outcome SocketEndpoint :=
  match interface_endpoint t with
  | Some e => Ret (mkSocketEndpoint (Some (clone e)))
  | None => Undef null_deref
  end.
Definition SocketEndpoint_of (e : IPInterfaceEndpoint) : SocketEndpoint := mkSocketEndpoint (Some (clone e)).

Definition se_toString (t : SocketEndpoint) : outcome bytes :=
  match interface_endpoint t with Some e => Ret (ip_toString e) | None => Undef null_deref end.
Definition se_getPrefix (t : SocketEndpoint) : bytes :=
  match interface_endpoint t with Some e => prefix e | None => [] end.
Definition se_bool (t : SocketEndpoint) : bool := bool_decide (is_Some (interface_endpoint t)).

Definition se_eq (a b : SocketEndpoint) : bool :=
  match interface_endpoint a, interface_endpoint b with
  | Some x, Some y => bool_decide (ip_toString x = ip_toString y)
  | None, None => true
  | _, _ => false
  end.
Definition se_lt (a b : SocketEndpoint) : bool :=
  match interface_endpoint a, interface_endpoint b with
  | Some x, Some y => lex_lt (ip_toString x) (ip_toString y)
  | _, _ => false
  end.

(** [resetEndpoint(name)]; [interfaces] tells which prefixes are registered. *)
Definition resetEndpoint (has_interface : bytes → bool) (name : bytes) : outcome SocketEndpoint :=
  if has_interface name then Ret (mkSocketEndpoint (Some UDPInterfaceEndpoint_new))
  else Throw (int_exn (Errors.error_code Errors.no_such_interface)).

Definition se_fromString (has_interface : bytes → bool) (s : bytes) : outcome SocketEndpoint :=
  let p := substr s 0 (str_find colon s) in
  t ← resetEndpoint has_interface p;
  match interface_endpoint t with
  | Some e => e' ← ip_fromString e s; Ret (mkSocketEndpoint (Some e'))
  | None => Undef null_deref
  end.

(** ** Lemmas *)

Lemma list_find_first c (l1 l2 : bytes) : c ∉ l1 → list_find (eq c) (l1 ++ c :: l2) = Some (length l1, c).
Proof.
  intros Hc. apply list_find_Some. split; [by apply list_lookup_middle|]. split; [done|].
  intros j y Hj Hlt ->. apply Hc. rewrite lookup_app_l in Hj by done.
  by apply list_elem_of_lookup_2 in Hj.
Qed.

Lemma str_find_app c l1 l2 : c ∉ l1 → str_find c (l1 ++ c :: l2) = Z.of_nat (length l1).
Proof. intros Hc. unfold str_find. by rewrite list_find_first. Qed.

Lemma str_rfind_app c l1 l2 : c ∉ l2 → str_rfind c (l1 ++ c :: l2) = Z.of_nat (length l1).
Proof.
  intros Hc. unfold str_rfind. rewrite reverse_app, reverse_cons, <-app_assoc. simpl.
  rewrite list_find_first by (by rewrite elem_of_reverse).
  rewrite length_app, length_reverse. simpl. lia.
Qed.

Lemma str_find_none c s : c ∉ s → str_find c s = npos.
Proof.
  intros Hc. unfold str_find. destruct (list_find (eq c) s) as [[i y]|] eqn:E; [|done].
  apply list_find_Some in E as (Hi & -> & _). by apply list_elem_of_lookup_2 in Hi.
Qed.

(** Decimal numerals consist of digits. *)
Definition is_digit (b : byte) : Prop := (48 ≤ byte_val b ≤ 57)%Z.

Lemma cstr_digits d : Forall is_digit (cstr (DecimalString.NilEmpty.string_of_uint d)).
Proof. induction d; cbn; try constructor; try done; unfold is_digit; split; vm_compute; congruence. Qed.

Lemma print_dec_digits n : Forall is_digit (cstr (print_dec n)).
Proof.
  unfold print_dec, DecimalString.NilZero.string_of_uint.
  destruct (N.to_uint n) as [| | | | | | | | | |] eqn:E; rewrite <-?E; try apply cstr_digits.
  repeat constructor; vm_compute; congruence.
Qed.

Lemma no_colon_digits n : colon ∉ cstr (print_dec n).
Proof.
  intros H. pose proof (print_dec_digits n) as Hd. rewrite Forall_forall in Hd. apply Hd in H.
  unfold is_digit in H. vm_compute in H. naive_solver.
Qed.

(** An endpoint of the UDP interface without IPv6 zone; the texts are far
    below the size of the address space. *)
Definition udp_ok (e : IPInterfaceEndpoint) : Prop :=
  prefix e = udp_prefix ∧ (percent ∉ address_text (ip e)) ∧ (0 ≤ port e < 65536)%Z ∧
  (Z.of_nat (length (ip_toString e)) < 2 ^ 63)%Z.

Lemma u64_small z : (0 ≤ z < 2 ^ 64)%Z → u64 z = z.
Proof. apply Z.mod_small. Qed.

Lemma substr_middle (l1 l2 l3 : bytes) :
  substr (l1 ++ l2 ++ l3) (Z.of_nat (length l1)) (Z.of_nat (length l2)) = l2.
Proof. unfold substr. by rewrite !Nat2Z.id, drop_app_length, take_app_length. Qed.

Lemma substr_tail (l1 l2 : bytes) n :
  (Z.of_nat (length l2) ≤ n)%Z → substr (l1 ++ l2) (Z.of_nat (length l1)) n = l2.
Proof. intros H. unfold substr. rewrite Nat2Z.id, drop_app_length, take_ge; [done|lia]. Qed.

Lemma setIPString_text e a :
  percent ∉ address_text a → (Z.of_nat (length (address_text a)) < 2 ^ 63)%Z →
  setIPString e (address_text a) = Ret (mkEndpoint (prefix e) a (port e)).
Proof.
  intros Ha Hl. unfold setIPString. rewrite str_find_none by done.
  rewrite (substr_tail [] (address_text a)) by (unfold npos; lia). by rewrite address_law.
Qed.

Lemma ip_fromString_toString e e0 :
  udp_ok e → ip_fromString e0 (ip_toString e) = Ret (mkEndpoint (prefix e0) (ip e) (port e)).
Proof.
  intros (Hp & Ha & Hport & Hlen). unfold ip_fromString.
  assert (colon ∉ prefix e) as Hc by (rewrite Hp; by apply (bool_decide_unpack (colon ∉ udp_prefix))).
  set (digits := cstr (print_dec (Z.to_N (port e)))).
  assert (ip_toString e = prefix e ++ colon :: (address_text (ip e) ++ colon :: digits)) as Es by done.
  assert (ip_toString e = (prefix e ++ colon :: address_text (ip e)) ++ colon :: digits) as Es2
    by (rewrite Es; by rewrite <-app_assoc).
  assert (str_find colon (ip_toString e) = Z.of_nat (length (prefix e))) as ->
    by (rewrite Es; by apply str_find_app).
  assert (str_rfind colon (ip_toString e) = Z.of_nat (length (prefix e ++ colon :: address_text (ip e)))) as ->
    by (rewrite Es2; apply str_rfind_app, no_colon_digits).
  set (l1 := prefix e ++ [colon]). set (l2 := l1 ++ address_text (ip e) ++ [colon]).
  assert (length (ip_toString e) = length l2 + length digits) as Elen
    by (rewrite Es; unfold l2, l1; rewrite !length_app; simpl; rewrite !length_app; simpl; lia).
  assert (Z.of_nat (length (prefix e ++ colon :: address_text (ip e))) + 1 = Z.of_nat (length l2))%Z as E2
    by (unfold l2, l1; rewrite !length_app; simpl; lia).
  assert (Z.of_nat (length (prefix e)) + 1 = Z.of_nat (length l1))%Z as E1
    by (unfold l1; rewrite length_app; simpl; lia).
  assert (Z.of_nat (length (prefix e ++ colon :: address_text (ip e))) - Z.of_nat (length (prefix e)) - 1 =
          Z.of_nat (length (address_text (ip e))))%Z as E3
    by (rewrite length_app; simpl; lia).
  assert (length (address_text (ip e)) < length l2) as Hl2 by (unfold l2; rewrite !length_app; simpl; lia).
  assert (length l1 ≤ length l2) by (unfold l2; rewrite length_app; lia).
  rewrite E2, E1, E3, !u64_small by lia.
  assert (ip_toString e = l2 ++ digits) as Et by (rewrite Es; unfold l2, l1; by rewrite <-!app_assoc).
  assert (ip_toString e = l1 ++ address_text (ip e) ++ colon :: digits) as Em
    by (rewrite Es; unfold l1; by rewrite <-!app_assoc).
  assert (∀ n, (Z.of_nat (length digits) ≤ n)%Z →
            substr (ip_toString e) (Z.of_nat (length l2)) n = digits) as A1
    by (intros; rewrite Et; by apply substr_tail).
  assert (substr (ip_toString e) (Z.of_nat (length l1)) (Z.of_nat (length (address_text (ip e)))) =
          address_text (ip e)) as A2 by (rewrite Em; apply substr_middle).
  rewrite A1, A2 by lia. unfold digits. rewrite lexical_law by lia. rewrite Z2N.id by lia.
  rewrite setIPString_text by (done || lia). done.
Qed.

Lemma endpoint_prefix e :
  udp_ok e → substr (ip_toString e) 0 (str_find colon (ip_toString e)) = udp_prefix.
Proof.
  intros (Hp & _).
  assert (colon ∉ prefix e) as Hc by (rewrite Hp; by apply (bool_decide_unpack (colon ∉ udp_prefix))).
  unfold ip_toString. change ([colon] ++ ?x) with (colon :: x). rewrite str_find_app by done.
  pose proof (substr_middle [] (prefix e) ([colon] ++ getIPString e ++ [colon] ++ cstr (print_dec (Z.to_N (port e))))) as H.
  simpl in H. rewrite <-Hp. exact H.
Qed.

Lemma se_fromString_toString has_interface e :
  udp_ok e → has_interface udp_prefix = true →
  se_fromString has_interface (ip_toString e) = Ret (mkSocketEndpoint (Some e)).
Proof.
  intros Hok Hi. pose proof Hok as (Hp & _). unfold se_fromString. rewrite endpoint_prefix by done.
  unfold resetEndpoint. rewrite Hi. simpl. rewrite ip_fromString_toString by done. simpl.
  destruct e as [p a q]. simpl in *. by rewrite Hp.
Qed.

Lemma ip_toString_inj e1 e2 : udp_ok e1 → udp_ok e2 → ip_toString e1 = ip_toString e2 → e1 = e2.
Proof.
  intros H1 H2 E. pose proof (se_fromString_toString (λ _, true) e1 H1 eq_refl) as R1.
  pose proof (se_fromString_toString (λ _, true) e2 H2 eq_refl) as R2. rewrite E in R1. congruence.
Qed.
End Endpoint.

(** A network library whose addresses are numbers, written in decimal. *)
Module ToyNet.
#[global] Program Instance toy_NetLib : NetLib := {|
  address := N;
  any_address := 0%N;
  is_v4 _ := true;
  address_text a := cstr (print_dec a);
  address_parse s := Some (default 0%N (read_dec (String.string_of_list_byte s)));
  lexical_cast_u16 s := n ← read_dec (String.string_of_list_byte s);
    if decide (n < 65536)%N then Some (Z.of_N n) else None;
|}.
Next Obligation. intros. cbn beta. unfold cstr. by rewrite String.string_of_list_byte_of_string, read_print_dec. Qed.
Next Obligation.
  intros n Hn. cbn beta. unfold cstr. rewrite String.string_of_list_byte_of_string, read_print_dec. simpl.
  by rewrite decide_True.
Qed.

Definition toy_endpoint (a : N) (p : Z) : IPInterfaceEndpoint (NL:=toy_NetLib) :=
  UDPInterfaceEndpoint_of (NL:=toy_NetLib) a p.
End ToyNet.

(** ** Properties *)

(** C32 Endpoints survive their text form: reading "UDP:address:port" back,
    through [SocketEndpoint::fromString], gives the endpoint it was printed
    from, IPv6 addresses with their colons included (no zone, a port of 16
    bits, the UDP interface registered); without a UDP interface it throws
    [no_such_interface]. *)
Theorem endpoint_text_roundtrip {NL : NetLib} (has_interface : bytes → bool) (e : IPInterfaceEndpoint)
    (Hok : udp_ok e) :
  (has_interface udp_prefix = true →
    (s ← se_toString (mkSocketEndpoint (Some e)); se_fromString has_interface s)
      = Ret (mkSocketEndpoint (Some e))) ∧
  (has_interface udp_prefix = false →
    (s ← se_toString (mkSocketEndpoint (Some e)); se_fromString has_interface s)
      = Throw (int_exn 180)).
Proof.
  split; intros Hi; simpl; [by apply se_fromString_toString|].
  unfold se_fromString. rewrite endpoint_prefix by done. unfold resetEndpoint. by rewrite Hi.
Qed.

Lemma endpoint_text_roundtrip_witness :
  (s ← se_toString (mkSocketEndpoint (Some (ToyNet.toy_endpoint 10%N 2185)));
   se_fromString (λ _, true) s) = Ret (mkSocketEndpoint (Some (ToyNet.toy_endpoint 10%N 2185))).
Proof.
  refine (proj1 (endpoint_text_roundtrip (λ _, true) (ToyNet.toy_endpoint 10%N 2185) _) eq_refl).
  split; [reflexivity|]. split; [|split; [simpl; lia|vm_compute; reflexivity]].
  by apply (bool_decide_unpack (percent ∉ address_text (ip (ToyNet.toy_endpoint 10%N 2185)))).
Defined.

(** The comparison of endpoints that keys the connection map is a strict
    total order on UDP endpoints: irreflexive, transitive, and two endpoints
    neither of which is below the other are the same address and port. *)
Theorem endpoint_order {NL : NetLib} (a b c : IPInterfaceEndpoint)
    (Ha : udp_ok a) (Hb : udp_ok b) :
  let se e := mkSocketEndpoint (Some e) in
  se_lt (se a) (se a) = false ∧
  (se_lt (se a) (se b) = true → se_lt (se b) (se c) = true → se_lt (se a) (se c) = true) ∧
  (se_lt (se a) (se b) = false → se_lt (se b) (se a) = false → a = b) ∧
  (se_eq (se a) (se b) = true ↔ a = b).
Proof.
  intros se. split; [apply lex_lt_irrefl|]. split; [apply lex_lt_trans|]. split.
  - unfold se, se_lt. cbn [interface_endpoint]. intros H1 H2.
    destruct (lex_lt_total (ip_toString a) (ip_toString b)) as [|[E|]]; [congruence| |congruence].
    by apply ip_toString_inj.
  - unfold se, se_eq. cbn [interface_endpoint]. rewrite bool_decide_eq_true. split; [by apply ip_toString_inj|by intros ->].
Qed.

Lemma endpoint_order_witness :
  se_eq (mkSocketEndpoint (Some (ToyNet.toy_endpoint 1%N 2)))
        (mkSocketEndpoint (Some (ToyNet.toy_endpoint 1%N 2))) = true.
Proof.
  refine (proj2 (proj2 (proj2 (proj2 (endpoint_order (ToyNet.toy_endpoint 1%N 2)
    (ToyNet.toy_endpoint 1%N 2) (ToyNet.toy_endpoint 1%N 2) _ _)))) eq_refl).
  all: split; [reflexivity|]; split; [|split; [simpl; lia|vm_compute; reflexivity]];
    by apply (bool_decide_unpack (percent ∉ address_text (ip (ToyNet.toy_endpoint 1%N 2)))).
Defined.
