(* ===== verification/Transport.v ===== *)
(** * Transport sockets, the UDP interface and its connections
    ([daemon/transport/Socket.cpp], [Connection.cpp], [udp/UDPInterface.cpp],
    [udp/UDPConnection.cpp])

    Interfaces and connections are shared objects: the heap maps identifiers to
    their state, and a connection is destroyed when nothing refers to it.
    Callbacks are [std::function] objects: [Some k] for a callable [k], [None]
    for an empty one.  The asynchronous operations of asio are tasks: a pending
    receive, a pending send (which keeps its connection alive), the handlers
    posted when a timer expires, which no later [cancel()] takes back, and those
    posted with [operation_aborted] when a timer is cancelled or re-armed. *)

From S2P Require Import Prelude Common Crypto Config Endpoint.
From Stdlib Require Import ZArith Lia.

Definition UDP_KEEPALIVE_MSG : bytes := cstr "UDP_KEEPALIVE".
Definition UDP_CONNECT_MSG : bytes := cstr "UDP_CONNECT".
Definition UDP_DISCONNECT_MSG : bytes := cstr "UDP_DISCONNECT".

Section Transport.
Context {NL : NetLib} {P : PTree}.

Abbreviation callback := (option Z).

(** The handlers that wait on [conn_receive_timeout]. *)
Inductive recv_wait := KeepaliveWait | ConnectWait.

Record UDPConnection := mkUDPConnection {
  endpoint : IPInterfaceEndpoint;
  parent_interface : Z;
  connecting_callback : callback;
  m_connected : bool;
  conn_send_timer : bool;
  conn_receive_timeout : option recv_wait;
}.

Record UDPInterface := mkUDPInterface {
  mtu : Z;
  keepalive_timer : Z;
  inactivity_timeout : Z;
  local : address * Z;
  zygote_connections : gset Z;
  receive_callback : callback;
  disconnect_callback : callback;
  parent_socket : bool;
}.

(** Work the io service still has to do. *)
Inductive task :=
| Receive (iface : Z)
| Sending (iface conn : Z) (data : bytes) (cb : callback)
| ExpiredSend (conn : Z)
| ExpiredRecv (conn : Z) (w : recv_wait)
| AbortedSend (conn : Z)
| AbortedRecv (conn : Z) (w : recv_wait).

#[global] Instance recv_wait_eq_dec : EqDecision recv_wait.
Proof. solve_decision. Defined.
#[global] Instance task_eq_dec : EqDecision task.
Proof. solve_decision. Defined.

(** The transport [Socket] and the objects it reaches.  [held] are the
    connections its clients were given through callbacks and still hold. *)
Record Socket := mkSocket {
  interfaces : gmap bytes (option Z);
  connections : gmap bytes Z;
  ifaces : gmap Z UDPInterface;
  conns : gmap Z UDPConnection;
  tasks : list task;
  held : gset Z;
  next_id : Z;
}.

Inductive effect :=
| SendTo (iface : Z) (a : address) (p : Z) (data : bytes)
| SendTimerArmed (conn : Z) (seconds : Z)
| RecvTimerArmed (conn : Z) (seconds : Z) (w : recv_wait)
| CallReceive (k : Z) (error : Z) (conn : Z) (message : bytes)
| CallDisconnect (k : Z) (error : Z) (conn : Z)
| CallConnect (k : Z) (error : Z) (conn : Z)
| CallSend (k : Z) (error : Z) (conn : Z) (message : bytes) (n : Z).

Abbreviation TM := (M Socket effect).

(** ** State accessors *)

Definition set_interfaces (f : gmap bytes (option Z) → gmap bytes (option Z)) (s : Socket) : Socket :=
  mkSocket (f (interfaces s)) (connections s) (ifaces s) (conns s) (tasks s) (held s) (next_id s).
Definition set_connections (f : gmap bytes Z → gmap bytes Z) (s : Socket) : Socket :=
  mkSocket (interfaces s) (f (connections s)) (ifaces s) (conns s) (tasks s) (held s) (next_id s).
Definition set_ifaces (f : gmap Z UDPInterface → gmap Z UDPInterface) (s : Socket) : Socket :=
  mkSocket (interfaces s) (connections s) (f (ifaces s)) (conns s) (tasks s) (held s) (next_id s).
Definition set_conns (f : gmap Z UDPConnection → gmap Z UDPConnection) (s : Socket) : Socket :=
  mkSocket (interfaces s) (connections s) (ifaces s) (f (conns s)) (tasks s) (held s) (next_id s).
Definition set_tasks (f : list task → list task) (s : Socket) : Socket :=
  mkSocket (interfaces s) (connections s) (ifaces s) (conns s) (f (tasks s)) (held s) (next_id s).
Definition set_held (f : gset Z → gset Z) (s : Socket) : Socket :=
  mkSocket (interfaces s) (connections s) (ifaces s) (conns s) (tasks s) (f (held s)) (next_id s).

Definition post (t : task) : TM unit := modify (set_tasks (λ ts, ts ++ [t])).
Definition give (c : Z) : TM unit := modify (set_held (λ h, {[c]} ∪ h)).

(** Access through a connection or interface pointer; the object may be gone. *)
Definition conn_at (c : Z) : TM UDPConnection :=
  s ← get; lift (match conns s !! c with Some x => Ret x | None => Undef use_after_free end).
Definition iface_at (i : Z) : TM UDPInterface :=
  s ← get; lift (match ifaces s !! i with Some x => Ret x | None => Undef null_deref end).
Definition update_conn (c : Z) (f : UDPConnection → UDPConnection) : TM unit :=
  x ← conn_at c; modify (set_conns (<[c := f x]>)).
Definition update_iface (i : Z) (f : UDPInterface → UDPInterface) : TM unit :=
  x ← iface_at i; modify (set_ifaces (<[i := f x]>)).

Definition set_connected (b : bool) (x : UDPConnection) : UDPConnection :=
  mkUDPConnection (endpoint x) (parent_interface x) (connecting_callback x) b
    (conn_send_timer x) (conn_receive_timeout x).
Definition set_send_timer (b : bool) (x : UDPConnection) : UDPConnection :=
  mkUDPConnection (endpoint x) (parent_interface x) (connecting_callback x) (m_connected x)
    b (conn_receive_timeout x).
Definition set_receive_timeout (w : option recv_wait) (x : UDPConnection) : UDPConnection :=
  mkUDPConnection (endpoint x) (parent_interface x) (connecting_callback x) (m_connected x)
    (conn_send_timer x) w.
Definition set_callbacks (r d : callback) (x : UDPInterface) : UDPInterface :=
  mkUDPInterface (mtu x) (keepalive_timer x) (inactivity_timeout x) (local x)
    (zygote_connections x) r d (parent_socket x).
Definition set_parent (x : UDPInterface) : UDPInterface :=
  mkUDPInterface (mtu x) (keepalive_timer x) (inactivity_timeout x) (local x)
    (zygote_connections x) (receive_callback x) (disconnect_callback x) true.

(** [conn_send_timer.cancel()] and [conn_receive_timeout.cancel()]: the waiting
    handler is posted with [operation_aborted]. *)
Definition cancel_send (c : Z) : TM unit :=
  x ← conn_at c;
  (if conn_send_timer x then post (AbortedSend c) else skip);;
  update_conn c (set_send_timer false).
Definition cancel_recv (c : Z) : TM unit :=
  x ← conn_at c;
  (match conn_receive_timeout x with Some w => post (AbortedRecv c w) | None => skip end);;
  update_conn c (set_receive_timeout None).

(** [expires_from_now(seconds)] (which cancels) and [async_wait(handler)]. *)
Definition arm_send (c seconds : Z) : TM unit :=
  cancel_send c;; update_conn c (set_send_timer true);; emit (SendTimerArmed c seconds).
Definition arm_recv (c seconds : Z) (w : recv_wait) : TM unit :=
  cancel_recv c;; update_conn c (set_receive_timeout (Some w));; emit (RecvTimerArmed c seconds w).

(** The lambda given to the sends of the protocol's own messages: it ignores
    its arguments. *)
Definition ignore_sent : callback := Some 0%Z.

(** Call a [std::function]; a client's callable may keep the connection. *)
Definition call (cb : callback) (f : Z → effect) (c : Z) : TM unit :=
  match cb with
  | Some k => emit (f k);; if decide (k = 0)%Z then skip else give c
  | None => lift (Throw bad_function_call)
  end.

(** ** [Socket] *)

(** [UDPInterface::createEndpoint] and [UDPConnection::connected]. *)
Definition createEndpoint : IPInterfaceEndpoint := UDPInterfaceEndpoint_new.
Definition connected (x : UDPConnection) : bool := m_connected x.
Definition getInterface (s : Socket) (prefix : bytes) : option Z := default None (interfaces s !! prefix).

Definition registerInterface (i : Z) : TM unit :=
  modify (set_interfaces (λ m, match m !! udp_prefix with Some _ => m | None => <[udp_prefix := Some i]> m end));;
  update_iface i set_parent.

Definition getConnection (s : Socket) (e : IPInterfaceEndpoint) : option Z := connections s !! ip_toString e.

Definition registerConnection (c : Z) : TM unit :=
  x ← conn_at c;
  modify (set_connections (λ m,
    match m !! ip_toString (endpoint x) with Some _ => m | None => <[ip_toString (endpoint x) := c]> m end)).
Definition unregisterConnection (c : Z) : TM unit :=
  x ← conn_at c;
  modify (set_connections (delete (ip_toString (endpoint x)))).

(** ** [UDPInterface] *)

Definition UDPInterface_new (cfg : ConfigManager) : outcome UDPInterface :=
  ip_s ← getValue as_string cfg "transport.udp.local_ip";
  a ← (match address_parse (cstr ip_s) with Some a => Ret a | None => Throw (asio_error 22) end : outcome address);
  p ← getValue as_ushort cfg "transport.udp.port";
  m ← getValue as_ushort cfg "transport.udp.mtu";
  k ← getValue as_int cfg "transport.udp.keepalive_timer";
  t ← getValue as_int cfg "transport.udp.inactivity_timeout";
  Ret (mkUDPInterface (Z.of_N m) (Z.of_N k) (Z.of_N t) (a, Z.of_N p) ∅ None None false).

Definition receive (i : Z) : TM unit := post (Receive i).

(** The datagram is the text at the time of the call. *)
Definition UDPInterface_send (i c : Z) (data : bytes) (cb : callback) : TM unit :=
  x ← conn_at c;
  emit (SendTo i (ip (endpoint x)) (port (endpoint x)) data);;
  post (Sending i c data cb).

Definition UDPInterface_setReceiveCallback (cb : callback) (i : Z) : TM unit :=
  update_iface i (λ x, set_callbacks cb (disconnect_callback x) x);; receive i.
Definition UDPInterface_setDisconnectCallback (cb : callback) (i : Z) : TM unit :=
  update_iface i (λ x, set_callbacks (receive_callback x) cb x).

Definition handleSend (cb : callback) (error c : Z) (message : bytes) (n : Z) : TM unit :=
  call cb (λ k, CallSend k error c message n) c.

(** A [std::make_shared<UDPConnection>]. *)
Definition new_connection (e : IPInterfaceEndpoint) (i : Z) : TM Z := λ s,
  Ret (next_id s,
       mkSocket (interfaces s) (connections s) (ifaces s)
         (<[next_id s := mkUDPConnection e i None false false None]> (conns s))
         (tasks s) (held s) (next_id s + 1), []).

(** ** [UDPConnection] *)

Definition send (c : Z) (data : bytes) (cb : callback) : TM unit :=
  x ← conn_at c; _ ← iface_at (parent_interface x);
  UDPInterface_send (parent_interface x) c data cb.

Definition sendKeepAlive (c : Z) (aborted : bool) : TM unit :=
  if aborted then skip else
  x ← conn_at c; udp_interface ← iface_at (parent_interface x);
  send c UDP_KEEPALIVE_MSG ignore_sent;;
  arm_send c (keepalive_timer udp_interface).

(** [Connection::onConnect] and [onDisconnect]. *)
Definition locked_parent (c : Z) : TM unit :=
  x ← conn_at c; i ← iface_at (parent_interface x);
  if (parent_socket i : bool) then skip else lift (Undef null_deref).
Definition onConnect (c : Z) : TM unit := locked_parent c;; registerConnection c.
Definition onDisconnect (c : Z) : TM unit := locked_parent c;; unregisterConnection c.

Definition receivedConnect (c : Z) : TM unit :=
  update_conn c (set_connected true);; onConnect c;; sendKeepAlive c false.

Definition receivedKeepAlive (c : Z) : TM unit :=
  x ← conn_at c; udp_interface ← iface_at (parent_interface x);
  arm_recv c (inactivity_timeout udp_interface) KeepaliveWait;;
  update_conn c (set_connected true).

Definition receivedDisconnect (c : Z) : TM unit :=
  x ← conn_at c; udp_interface ← iface_at (parent_interface x);
  cancel_send c;; cancel_recv c;;
  call (disconnect_callback udp_interface)
    (λ k, CallDisconnect k (Errors.error_code Errors.connection_reset) c) c;;
  update_conn c (set_connected false);;
  onDisconnect c.

(** The callback is not stored. *)
Definition UDPConnection_connect (c : Z) (cb : callback) : TM unit :=
  x ← conn_at c; udp_interface ← iface_at (parent_interface x);
  arm_recv c (inactivity_timeout udp_interface) ConnectWait;;
  send c UDP_CONNECT_MSG ignore_sent.

(** The handlers of [conn_receive_timeout].  [KeepaliveWait] refers to the
    local variable of [receivedKeepAlive]; [ConnectWait] uses the connection. *)
Definition recv_handler (c : Z) (w : recv_wait) (aborted : bool) : TM unit :=
  match w, aborted with
  | KeepaliveWait, true => skip
  | KeepaliveWait, false => lift (Undef dangling_ref)
  | ConnectWait, false =>
      x ← conn_at c;
      call (connecting_callback x) (λ k, CallConnect k (Errors.error_code Errors.timed_out) c) c;;
      update_conn c (set_connected false)
  | ConnectWait, true =>
      x ← conn_at c;
      call (connecting_callback x) (λ k, CallConnect k 0 c) c;;
      update_conn c (set_connected true);; onConnect c;; sendKeepAlive c false
  end.

(** ** Handlers of the interface *)

Definition handleReceive (cfg : ConfigManager) (i : Z) (error : Z) (message : bytes) (a : address) (p : Z) : TM unit :=
  x ← iface_at i;
  (if (parent_socket x : bool) then skip else lift (Undef null_deref));;
  s ← get;
  (match getConnection s (UDPInterfaceEndpoint_of a p) with
   | Some c =>
       if decide (message = UDP_KEEPALIVE_MSG) then receivedKeepAlive c
       else if decide (message = UDP_DISCONNECT_MSG) then receivedDisconnect c
       else call (receive_callback x) (λ k, CallReceive k error c message) c
   | None =>
       if decide (message = UDP_CONNECT_MSG) then
         outgoing_only ← lift (getValue as_bool cfg "transport.udp.outgoing_only");
         if (outgoing_only : bool) then skip else
         c ← new_connection (UDPInterfaceEndpoint_of a p) i;
         receivedConnect c
       else skip
   end);;
  receive i.

(** [UDPInterface::connect]; the connection gets a copy of the endpoint. *)
Definition UDPInterface_connect (i : Z) (e : IPInterfaceEndpoint) (cb : callback) : TM unit :=
  c ← new_connection (clone e) i;
  UDPConnection_connect c cb.

(** [Socket::connect]: [interfaces\[prefix\]] creates a missing entry. *)
Definition connect (e : SocketEndpoint) (cb : callback) : TM unit :=
  e' ← lift (SocketEndpoint_copy e);
  s ← get;
  modify (set_interfaces (λ m, match m !! se_getPrefix e' with Some _ => m | None => <[se_getPrefix e' := None]> m end));;
  match getInterface s (se_getPrefix e'), interface_endpoint e' with
  | Some i, Some ep => UDPInterface_connect i ep cb
  | _, _ => lift (Undef null_deref)
  end.

(** The loops over [boost::adaptors::values(interfaces)]; a null entry is
    dereferenced. *)
Definition interface_list (s : Socket) : list (option Z) := (map_to_list (interfaces s)).*2.
Definition on_interface (f : Z → TM unit) (i : option Z) : TM unit :=
  match i with Some i => f i | None => lift (Undef null_deref) end.
Definition setReceiveCallback (cb : callback) : TM unit :=
  s ← get; forM (interface_list s) (on_interface (UDPInterface_setReceiveCallback cb)).
Definition setDisconnectCallback (cb : callback) : TM unit :=
  s ← get; forM (interface_list s) (on_interface (UDPInterface_setDisconnectCallback cb)).

(** ** Lifetime *)

Definition task_keeps (c : Z) (t : task) : bool :=
  match t with Sending _ c' _ _ => bool_decide (c' = c) | _ => false end.
Definition referenced (s : Socket) (c : Z) : Prop :=
  c ∈ (map_to_list (connections s)).*2 ∨ c ∈ held s ∨ existsb (task_keeps c) (tasks s) = true.
#[global] Instance referenced_dec s c : Decision (referenced s c).
Proof. apply _. Defined.

(** The destructor of the timers posts their handlers. *)
Definition destroy (s : Socket) (c : Z) : Socket :=
  match conns s !! c with
  | None => s
  | Some x =>
      set_conns (delete c) (set_tasks (λ ts, ts
        ++ (if conn_send_timer x then [AbortedSend c] else [])
        ++ (match conn_receive_timeout x with Some w => [AbortedRecv c w] | None => [] end)) s)
  end.
Definition collect : TM unit := modify (λ s,
  foldl destroy s (filter (λ c, ¬ referenced s c) ((map_to_list (conns s)).*1))).

(** ** The io service *)

Inductive event :=
| Datagram (iface error : Z) (message : bytes) (a : address) (p : Z)
| Sent (n : nat) (error transferred : Z)
| SendTimer (conn : Z)
| RecvTimer (conn : Z)
| Waited (n : nat)
| ClientConnect (e : SocketEndpoint) (cb : callback)
| ClientSend (conn : Z) (data : bytes) (cb : callback)
| ClientDrop (conn : Z)
| ClientReceiveCallback (cb : callback)
| ClientDisconnectCallback (cb : callback).

(** A timer that expires posts its handler; every other event runs its handler,
    [Waited] that of a timer.  An event that cannot happen does nothing. *)
Definition run_event (cfg : ConfigManager) (ev : event) : TM unit :=
  s ← get;
  match ev with
  | Datagram i error message a p =>
      if bool_decide (Receive i ∈ tasks s) then
        modify (set_tasks (erase_first (Receive i)));; handleReceive cfg i error message a p
      else skip
  | Sent n error transferred =>
      match tasks s !! n with
      | Some (Sending i c data cb) =>
          modify (set_tasks (delete n));; handleSend cb error c data transferred
      | _ => skip
      end
  | SendTimer c =>
      match conns s !! c with
      | Some x => if conn_send_timer x then update_conn c (set_send_timer false);; post (ExpiredSend c) else skip
      | None => skip
      end
  | RecvTimer c =>
      match conns s !! c with
      | Some x =>
          match conn_receive_timeout x with
          | Some w => update_conn c (set_receive_timeout None);; post (ExpiredRecv c w)
          | None => skip
          end
      | None => skip
      end
  | Waited n =>
      match tasks s !! n with
      | Some (ExpiredSend c) => modify (set_tasks (delete n));; sendKeepAlive c false
      | Some (ExpiredRecv c w) => modify (set_tasks (delete n));; recv_handler c w false
      | Some (AbortedSend c) => modify (set_tasks (delete n));; sendKeepAlive c true
      | Some (AbortedRecv c w) => modify (set_tasks (delete n));; recv_handler c w true
      | _ => skip
      end
  | ClientConnect e cb => connect e cb
  | ClientSend c data cb => if bool_decide (c ∈ held s) then send c data cb else skip
  | ClientDrop c => modify (set_held (λ h, h ∖ {[c]}))
  | ClientReceiveCallback cb => setReceiveCallback cb
  | ClientDisconnectCallback cb => setDisconnectCallback cb
  end.

Definition io_step (cfg : ConfigManager) (ev : event) : TM unit := run_event cfg ev;; collect.

(** ** What the methods do *)

Lemma run_conn_at {B} c x (f : UDPConnection → TM B) s :
  conns s !! c = Some x → (conn_at c ≫= f) s = f x s.
Proof. intros H. unfold conn_at. run. rewrite H. by run. Qed.
Lemma run_iface_at {B} i x (f : UDPInterface → TM B) s :
  ifaces s !! i = Some x → (iface_at i ≫= f) s = f x s.
Proof. intros H. unfold iface_at. run. rewrite H. by run. Qed.

Lemma update_conn_run c f s x :
  conns s !! c = Some x → update_conn c f s = Ret (tt, set_conns (<[c := f x]>) s, []).
Proof. intros H. unfold update_conn. by rewrite (run_conn_at c x). Qed.

Lemma cancel_send_run c s x :
  conns s !! c = Some x →
  cancel_send c s = Ret (tt,
    set_conns (<[c := set_send_timer false x]>)
      (set_tasks (λ ts, ts ++ if conn_send_timer x then [AbortedSend c] else []) s), []).
Proof.
  intros H. unfold cancel_send. rewrite (run_conn_at c x) by done.
  destruct (conn_send_timer x); unfold post; run; erewrite update_conn_run by (by simpl).
  - done.
  - unfold set_tasks, set_conns. simpl. by rewrite app_nil_r.
Qed.

Lemma cancel_recv_run c s x :
  conns s !! c = Some x →
  cancel_recv c s = Ret (tt,
    set_conns (<[c := set_receive_timeout None x]>)
      (set_tasks (λ ts, ts ++ match conn_receive_timeout x with Some w => [AbortedRecv c w] | None => [] end) s), []).
Proof.
  intros H. unfold cancel_recv. rewrite (run_conn_at c x) by done.
  destruct (conn_receive_timeout x); unfold post; run; erewrite update_conn_run by (by simpl).
  - done.
  - unfold set_tasks, set_conns. simpl. by rewrite app_nil_r.
Qed.

Lemma arm_send_run c sec s x :
  conns s !! c = Some x →
  arm_send c sec s = Ret (tt,
    set_conns (<[c := set_send_timer true x]>)
      (set_tasks (λ ts, ts ++ if conn_send_timer x then [AbortedSend c] else []) s), [SendTimerArmed c sec]).
Proof.
  intros H. unfold arm_send. erewrite run_bind by (by apply cancel_send_run). rewrite after_nil.
  erewrite run_bind by (apply update_conn_run; simpl; by rewrite lookup_insert_eq). rewrite after_nil.
  unfold emit, set_conns, set_tasks. simpl. by rewrite insert_insert_eq.
Qed.

Lemma arm_recv_run c sec w s x :
  conns s !! c = Some x →
  arm_recv c sec w s = Ret (tt,
    set_conns (<[c := set_receive_timeout (Some w) x]>)
      (set_tasks (λ ts, ts ++ match conn_receive_timeout x with Some w => [AbortedRecv c w] | None => [] end) s),
    [RecvTimerArmed c sec w]).
Proof.
  intros H. unfold arm_recv. erewrite run_bind by (by apply cancel_recv_run). rewrite after_nil.
  erewrite run_bind by (apply update_conn_run; simpl; by rewrite lookup_insert_eq). rewrite after_nil.
  unfold emit, set_conns, set_tasks. simpl. by rewrite insert_insert_eq.
Qed.

Lemma send_run c data cb s x i :
  conns s !! c = Some x → ifaces s !! parent_interface x = Some i →
  send c data cb s = Ret (tt, set_tasks (λ ts, ts ++ [Sending (parent_interface x) c data cb]) s,
    [SendTo (parent_interface x) (ip (endpoint x)) (port (endpoint x)) data]).
Proof.
  intros H Hi. unfold send. rewrite (run_conn_at c x), (run_iface_at _ i) by done.
  unfold UDPInterface_send. rewrite (run_conn_at c x) by done. by run.
Qed.

Definition keepalive_effects (c : Z) (x : UDPConnection) (i : UDPInterface) : list effect :=
  [SendTo (parent_interface x) (ip (endpoint x)) (port (endpoint x)) UDP_KEEPALIVE_MSG;
   SendTimerArmed c (keepalive_timer i)].

Lemma sendKeepAlive_run c s x i :
  conns s !! c = Some x → ifaces s !! parent_interface x = Some i →
  sendKeepAlive c false s = Ret (tt,
    set_conns (<[c := set_send_timer true x]>)
      (set_tasks (λ ts, ts ++ [Sending (parent_interface x) c UDP_KEEPALIVE_MSG ignore_sent]
                           ++ if conn_send_timer x then [AbortedSend c] else []) s),
    keepalive_effects c x i).
Proof.
  intros H Hi. unfold sendKeepAlive. rewrite (run_conn_at c x), (run_iface_at _ i) by done.
  erewrite run_bind by (by eapply send_run). erewrite arm_send_run by (by simpl).
  unfold set_conns, set_tasks. simpl. by rewrite <-app_assoc.
Qed.

Lemma locked_parent_run {B} c x i (f : unit → TM B) s :
  conns s !! c = Some x → ifaces s !! parent_interface x = Some i → parent_socket i = true →
  (locked_parent c ≫= f) s = f tt s.
Proof.
  intros H Hi Hp. erewrite run_bind; [apply after_nil|].
  unfold locked_parent. rewrite (run_conn_at c x), (run_iface_at _ i) by done. by rewrite Hp.
Qed.

Lemma receivedConnect_run c s x i :
  conns s !! c = Some x → ifaces s !! parent_interface x = Some i → parent_socket i = true →
  connections s !! ip_toString (endpoint x) = None → conn_send_timer x = false →
  receivedConnect c s = Ret (tt,
    mkSocket (interfaces s) (<[ip_toString (endpoint x) := c]> (connections s)) (ifaces s)
      (<[c := set_send_timer true (set_connected true x)]> (conns s))
      (tasks s ++ [Sending (parent_interface x) c UDP_KEEPALIVE_MSG ignore_sent]) (held s) (next_id s),
    keepalive_effects c x i).
Proof.
  intros H Hi Hp Hn Ht. unfold receivedConnect.
  erewrite run_bind by (by apply update_conn_run). rewrite after_nil.
  unfold onConnect. rewrite run_assoc.
  erewrite locked_parent_run by (simpl; rewrite ?lookup_insert_eq; done).
  unfold registerConnection. rewrite run_assoc.
  erewrite run_conn_at by (simpl; by rewrite lookup_insert_eq). run.
  erewrite sendKeepAlive_run by (simpl; rewrite ?lookup_insert_eq; done).
  unfold set_conns, set_tasks, set_connections. simpl. rewrite Hn, Ht, insert_insert_eq. done.
Qed.

Lemma receivedKeepAlive_run c s x i :
  conns s !! c = Some x → ifaces s !! parent_interface x = Some i →
  receivedKeepAlive c s = Ret (tt,
    set_conns (<[c := set_connected true (set_receive_timeout (Some KeepaliveWait) x)]>)
      (set_tasks (λ ts, ts ++ match conn_receive_timeout x with Some w => [AbortedRecv c w] | None => [] end) s),
    [RecvTimerArmed c (inactivity_timeout i) KeepaliveWait]).
Proof.
  intros H Hi. unfold receivedKeepAlive. rewrite (run_conn_at c x), (run_iface_at _ i) by done.
  erewrite run_bind by (by apply arm_recv_run).
  erewrite update_conn_run by (simpl; by rewrite lookup_insert_eq).
  unfold set_conns, set_tasks. simpl. by rewrite insert_insert_eq.
Qed.

Definition given (k c : Z) (h : gset Z) : gset Z := if decide (k = 0)%Z then h else {[c]} ∪ h.

Lemma call_run k f c s : call (Some k) f c s = Ret (tt, set_held (given k c) s, [f k]).
Proof. unfold call, given. run. case_decide; [|done]. destruct s. done. Qed.

Lemma receivedDisconnect_run c s x i k :
  conns s !! c = Some x → ifaces s !! parent_interface x = Some i → parent_socket i = true →
  disconnect_callback i = Some k →
  receivedDisconnect c s = Ret (tt,
    mkSocket (interfaces s) (delete (ip_toString (endpoint x)) (connections s)) (ifaces s)
      (<[c := set_connected false (set_receive_timeout None (set_send_timer false x))]> (conns s))
      (tasks s ++ (if conn_send_timer x then [AbortedSend c] else [])
               ++ match conn_receive_timeout x with Some w => [AbortedRecv c w] | None => [] end)
      (given k c (held s)) (next_id s),
    [CallDisconnect k 104 c]).
Proof.
  intros H Hi Hp Hk. unfold receivedDisconnect.
  rewrite (run_conn_at c x), (run_iface_at _ i) by done.
  erewrite run_bind by (by apply cancel_send_run). rewrite after_nil.
  erewrite run_bind by (apply cancel_recv_run; simpl; by rewrite lookup_insert_eq). rewrite after_nil.
  rewrite Hk. erewrite run_bind by apply call_run.
  erewrite run_bind by (apply update_conn_run; simpl; by rewrite lookup_insert_eq). rewrite after_nil.
  unfold onDisconnect.
  erewrite locked_parent_run by (simpl; rewrite ?lookup_insert_eq; done).
  unfold unregisterConnection. erewrite run_conn_at by (simpl; by rewrite lookup_insert_eq).
  unfold modify. simpl. unfold set_connections, set_conns, set_tasks, set_held. simpl.
  rewrite !insert_insert_eq, app_assoc. done.
Qed.

(** ** The invariant *)

Definition live_iface (s : Socket) (i : Z) : Prop := ∃ x, ifaces s !! i = Some x ∧ parent_socket x = true.

Definition good_task (s : Socket) (t : task) : Prop :=
  match t with
  | Receive i => live_iface s i
  | Sending _ c _ _ => is_Some (conns s !! c)
  | ExpiredSend c => (c < next_id s)%Z
  | ExpiredRecv _ _ | AbortedSend _ => True
  | AbortedRecv c w => w = ConnectWait → conns s !! c = None ∧ (c < next_id s)%Z
  end.

Definition good_conn (s : Socket) (c : Z) (x : UDPConnection) : Prop :=
  (c < next_id s)%Z ∧ connecting_callback x = None ∧ live_iface s (parent_interface x) ∧
  (m_connected x = true ↔ connections s !! ip_toString (endpoint x) = Some c) ∧
  (conn_receive_timeout x = Some ConnectWait → m_connected x = false).

(** The registered connections are exactly the connected ones, each under its
    own endpoint; whatever a client or a
    pending send refers to is alive. *)
Record Inv (s : Socket) : Prop := {
  inv_registered : ∀ t c, connections s !! t = Some c →
    ∃ x, conns s !! c = Some x ∧ ip_toString (endpoint x) = t;
  inv_conns : ∀ c x, conns s !! c = Some x → good_conn s c x;
  inv_tasks : ∀ t, t ∈ tasks s → good_task s t;
  inv_held : ∀ c, c ∈ held s → is_Some (conns s !! c);
  inv_ifaces : interfaces s = {[udp_prefix := Some 0%Z]};
  inv_udp : live_iface s 0;
}.

Lemma Inv_tasks s f :
  Inv s → (∀ t, t ∈ f (tasks s) → t ∈ tasks s ∨ good_task s t) → Inv (set_tasks f s).
Proof.
  intros [] H. constructor; simpl; try done. intros t Ht.
  destruct (H t Ht) as [?|?]; [|done]. by apply inv_tasks0.
Qed.

Lemma Inv_held s c : Inv s → is_Some (conns s !! c) → ∀ k, Inv (set_held (given k c) s).
Proof.
  intros [] H k. constructor; simpl; try done. unfold given. case_decide; [done|]. set_solver.
Qed.

(** Changing a connection in a way its registration does not depend on. *)
Lemma Inv_set_conn s c x x' :
  Inv s → conns s !! c = Some x → endpoint x' = endpoint x →
  parent_interface x' = parent_interface x → connecting_callback x' = None →
  m_connected x' = m_connected x →
  (conn_receive_timeout x' = Some ConnectWait → m_connected x = false) →
  Inv (set_conns (<[c := x']>) s).
Proof.
  intros [] H He Hp Hcb Hm Hw. constructor; simpl; try done.
  - intros t c' Hc. destruct (inv_registered0 t c' Hc) as (y & Hy & Ey).
    destruct (decide (c' = c)) as [->|Hne].
    + exists x'. rewrite lookup_insert_eq. simplify_eq. by rewrite He.
    + exists y. by rewrite lookup_insert_ne.
  - intros c' y Hy. destruct (decide (c' = c)) as [->|Hne].
    + rewrite lookup_insert_eq in Hy. injection Hy as <-.
      destruct (inv_conns0 c x H) as (? & ? & ? & ? & ?). unfold good_conn, live_iface in *. simpl.
      rewrite He, Hp, Hm. done.
    + rewrite lookup_insert_ne in Hy by done. by apply inv_conns0.
  - intros t Ht'. specialize (inv_tasks0 t Ht'). destruct t as [|? c' ? ?|c'|c' w|c'|c' w]; simpl in *; try done; try lia.
    + by apply lookup_insert_is_Some'; right.
    + intros Hw'. destruct (inv_tasks0 Hw') as [Hn ?]. split; [|done].
      rewrite lookup_insert_ne; [done|]. intros ->. congruence.
  - intros c' Hc'. apply lookup_insert_is_Some'. right. by apply inv_held0.
Qed.

Lemma Inv_new s e i :
  Inv s → live_iface s i →
  Inv (mkSocket (interfaces s) (connections s) (ifaces s)
         (<[next_id s := mkUDPConnection e i None false false None]> (conns s))
         (tasks s) (held s) (next_id s + 1)).
Proof.
  intros [] Hi.
  assert (conns s !! next_id s = None) as Hn.
  { destruct (conns s !! next_id s) as [x|] eqn:E; [|done]. apply inv_conns0 in E as [? _]. lia. }
  constructor; simpl; try done.
  - intros t c Hc. destruct (inv_registered0 t c Hc) as (y & Hy & Ey).
    exists y. rewrite lookup_insert_ne; [done|]. congruence.
  - intros c y Hy. destruct (decide (c = next_id s)) as [->|Hne].
    + rewrite lookup_insert_eq in Hy. injection Hy as <-. unfold good_conn. simpl.
      split; [lia|]. split; [done|]. split; [done|]. split; [|done].
      split; [done|]. intros Hc. destruct (inv_registered0 _ _ Hc) as (z & Hz & _). congruence.
    + rewrite lookup_insert_ne in Hy by done. destruct (inv_conns0 c y Hy) as (? & ? & ? & ? & ?).
      unfold good_conn, live_iface in *. simpl. naive_solver lia.
  - intros t Ht. specialize (inv_tasks0 t Ht). destruct t as [|? c' ? ?|c'|c' w|c'|c' w]; simpl in *; try done; try lia.
    + by apply lookup_insert_is_Some'; right.
    + intros Hw'. destruct (inv_tasks0 Hw') as [Hn' ?]. split; [|lia].
      rewrite lookup_insert_ne; [done|]. lia.
  - intros c' Hc'. apply lookup_insert_is_Some'. right. by apply inv_held0.
Qed.

(** Replacing connection [c] keeps alive what was alive, and leaves dead what
    was dead. *)
Lemma lookup_replaced s c x x' c' :
  conns s !! c = Some x → is_Some (<[c := x']> (conns s) !! c') ↔ is_Some (conns s !! c').
Proof. intros H. rewrite lookup_insert_is_Some'. naive_solver. Qed.

Lemma good_task_replaced s c x x' cs t :
  conns s !! c = Some x → good_task s t →
  good_task (mkSocket (interfaces s) cs (ifaces s) (<[c := x']> (conns s)) (tasks s) (held s) (next_id s)) t.
Proof.
  intros H Ht. destruct t as [|? c' ? ?|c'|c' w|c'|c' w]; simpl in *; try done; try lia.
  - by apply (lookup_replaced s c x).
  - intros Hw. destruct (Ht Hw) as [Hn ?]. split; [|done]. rewrite lookup_insert_ne; [done|]. congruence.
Qed.

Lemma Inv_register s c x :
  Inv s → conns s !! c = Some x → connections s !! ip_toString (endpoint x) = None →
  conn_receive_timeout x = None →
  Inv (mkSocket (interfaces s) (<[ip_toString (endpoint x) := c]> (connections s)) (ifaces s)
         (<[c := set_send_timer true (set_connected true x)]> (conns s)) (tasks s) (held s) (next_id s)).
Proof.
  intros [] H Hn Hw. constructor; simpl; try done.
  - intros t c' Hc. destruct (decide (t = ip_toString (endpoint x))) as [->|Ht].
    + rewrite lookup_insert_eq in Hc. injection Hc as <-. rewrite lookup_insert_eq. eauto.
    + rewrite lookup_insert_ne in Hc by done. destruct (inv_registered0 t c' Hc) as (y & Hy & Ey).
      exists y. rewrite lookup_insert_ne; [done|]. congruence.
  - intros c' y Hy. unfold good_conn. simpl. destruct (decide (c' = c)) as [->|Hne].
    + rewrite lookup_insert_eq in Hy. injection Hy as <-. simpl. rewrite lookup_insert_eq, Hw.
      destruct (inv_conns0 c x H) as (? & ? & ? & _). by repeat split.
    + rewrite lookup_insert_ne in Hy by done. destruct (inv_conns0 c' y Hy) as (? & ? & ? & Hm & ?).
      repeat split; try done; destruct (decide (ip_toString (endpoint y) = ip_toString (endpoint x))) as [E|E].
      * intros Hy'. apply Hm in Hy'. congruence.
      * rewrite lookup_insert_ne by done. apply Hm.
      * rewrite E, lookup_insert_eq. congruence.
      * rewrite lookup_insert_ne by done. apply Hm.
  - intros t Ht. eapply good_task_replaced; eauto.
  - intros c' Hc'. apply (lookup_replaced s c x); auto.
Qed.

Lemma Inv_unregister s c x x' :
  Inv s → conns s !! c = Some x → m_connected x = true →
  endpoint x' = endpoint x → parent_interface x' = parent_interface x → connecting_callback x' = None →
  m_connected x' = false →
  Inv (mkSocket (interfaces s) (delete (ip_toString (endpoint x)) (connections s)) (ifaces s)
         (<[c := x']> (conns s)) (tasks s) (held s) (next_id s)).
Proof.
  intros [] H Hx He Hp Hcb Hm. assert (connections s !! ip_toString (endpoint x) = Some c) as Hreg
    by (by apply inv_conns0 in H as (_ & _ & _ & H%proj1 & _); auto).
  constructor; simpl; try done.
  - intros t c' [Hne Hc]%lookup_delete_Some. destruct (inv_registered0 t c' Hc) as (y & Hy & Ey).
    exists y. rewrite lookup_insert_ne; [done|]. congruence.
  - intros c' y Hy. unfold good_conn. simpl. destruct (decide (c' = c)) as [->|Hne].
    + rewrite lookup_insert_eq in Hy. injection Hy as <-. rewrite He, Hp, lookup_delete_eq, Hm.
      destruct (inv_conns0 c x H) as (? & ? & ? & _). by repeat split.
    + rewrite lookup_insert_ne in Hy by done. destruct (inv_conns0 c' y Hy) as (? & ? & ? & Hm' & ?).
      repeat split; try done; destruct (decide (ip_toString (endpoint y) = ip_toString (endpoint x))) as [E|E].
      * intros Hy'. apply Hm' in Hy'. congruence.
      * rewrite lookup_delete_ne by done. apply Hm'.
      * rewrite E, lookup_delete_eq. congruence.
      * rewrite lookup_delete_ne by done. apply Hm'.
  - intros t Ht'. eapply good_task_replaced; eauto.
  - intros c' Hc'. apply (lookup_replaced s c x); auto.
Qed.

Lemma existsb_keeps c ts : existsb (task_keeps c) ts = true ↔ ∃ i d cb, Sending i c d cb ∈ ts.
Proof.
  rewrite existsb_exists. split.
  - intros (t & Ht & Hk). destruct t; simpl in Hk; try done. apply bool_decide_eq_true in Hk as ->.
    exists iface, data, cb. by apply list_elem_of_In.
  - intros (i & d & cb & Ht). exists (Sending i c d cb). split; [by apply list_elem_of_In|].
    simpl. by apply bool_decide_eq_true.
Qed.

Lemma Inv_destroy s c : Inv s → ¬ referenced s c → Inv (destroy s c).
Proof.
  intros HI Hr. unfold destroy. destruct (conns s !! c) as [x|] eqn:H; [|done]. destruct HI.
  assert (∀ c', referenced s c' → is_Some (conns s !! c') → is_Some (delete c (conns s) !! c')) as Hlive.
  { intros c' Hr' ?. rewrite lookup_delete_ne; [done|]. by intros ->. }
  assert (∀ t c', connections s !! t = Some c' → referenced s c') as Hreg.
  { intros t c' Ht. left. apply list_elem_of_fmap. exists (t, c'). split; [done|]. by apply elem_of_map_to_list. }
  constructor; simpl; try done.
  - intros t c' Hc. destruct (inv_registered0 t c' Hc) as (y & Hy & Ey).
    exists y. rewrite lookup_delete_ne; [done|]. intros ->. eauto.
  - intros c' y [Hne Hy]%lookup_delete_Some. by apply inv_conns0.
  - intros t. rewrite !elem_of_app. intros [Ht|Ht].
    + pose proof (inv_tasks0 t Ht) as Hg. destruct t as [|i c' d cb|c'|c' w|c'|c' w]; simpl in *; try done.
      * apply Hlive; [|done]. do 2 right. apply existsb_keeps. eauto.
      * intros Hw. destruct (Hg Hw) as [Hn ?]. split; [|done]. rewrite lookup_delete_None. auto.
    + destruct Ht as [Ht|Ht].
      * destruct (conn_send_timer x); [|by apply elem_of_nil in Ht].
        by apply list_elem_of_singleton in Ht as ->.
      * destruct (conn_receive_timeout x) as [w|]; [|by apply elem_of_nil in Ht].
        apply list_elem_of_singleton in Ht as ->. simpl. intros _. rewrite lookup_delete_eq.
        split; [done|]. by apply inv_conns0 in H as [? _].
  - intros c' Hc'. apply Hlive; [|by apply inv_held0]. by right; left.
Qed.

Lemma referenced_destroy s c c' : referenced (destroy s c) c' ↔ referenced s c'.
Proof.
  unfold destroy. destruct (conns s !! c) as [x|]; [|done]. unfold referenced. simpl.
  rewrite !existsb_app. assert (∀ b, (b || (existsb (task_keeps c') (if conn_send_timer x then [AbortedSend c] else [])
    || existsb (task_keeps c') match conn_receive_timeout x with Some w => [AbortedRecv c w] | None => [] end)) = b) as ->.
  { intros b. destruct (conn_send_timer x), (conn_receive_timeout x), b; done. }
  done.
Qed.

(** Collecting destroys unreferenced connections one by one. *)
Lemma collect_ind (Q : Socket → Prop) s s' es :
  (∀ s c, Q s → ¬ referenced s c → Q (destroy s c)) → Q s → collect s = Ret (tt, s', es) → Q s'.
Proof.
  intros HQ HI [= <- <-].
  assert (Forall (λ c, ¬ referenced s c) (filter (λ c, ¬ referenced s c) ((map_to_list (conns s)).*1))) as Hf.
  { apply Forall_forall. intros c. rewrite list_elem_of_filter. tauto. }
  revert HI Hf. generalize (filter (λ c, ¬ referenced s c) ((map_to_list (conns s)).*1)).
  intros l. revert s. induction l as [|c l IH]; intros s HI Hf; [done|]. simpl.
  inversion Hf as [|?? Hc Hl]; subst. apply IH; [by apply HQ|].
  eapply Forall_impl; [exact Hl|]. intros c' Hc'. by rewrite referenced_destroy.
Qed.
Lemma Inv_collect s s' es : Inv s → collect s = Ret (tt, s', es) → Inv s' ∧ es = [].
Proof. intros HI H. split; [by eapply (collect_ind Inv); [apply Inv_destroy|..]|by injection H]. Qed.

(** ** Every event keeps the invariant *)

Definition no_connect (e : effect) : Prop := match e with CallConnect _ _ _ => False | _ => True end.

Definition safe_result (r : outcome (unit * Socket * list effect)) : Prop :=
  match r with Ret (_, s, es) => Inv s ∧ Forall no_connect es | _ => True end.

Lemma safe_after es r : Forall no_connect es → safe_result r → safe_result (after es r).
Proof. destruct r as [[[a s] es']| | | |]; simpl; try done. intros ? []. by rewrite Forall_app. Qed.

Lemma safe_bind (m : TM unit) (f : unit → TM unit) s :
  safe_result (m s) → (∀ s', Inv s' → safe_result (f tt s')) → safe_result ((m ≫= f) s).
Proof.
  intros Hm Hf. destruct (m s) as [[[[] s1] e1]| | | |] eqn:E;
    [|unfold mbind, M_bind; by rewrite E..].
  rewrite (run_bind _ _ _ _ _ _ E). destruct Hm. apply safe_after; auto.
Qed.

Lemma conn_parts s c x : Inv s → conns s !! c = Some x →
  connecting_callback x = None ∧ live_iface s (parent_interface x) ∧
  (m_connected x = true ↔ connections s !! ip_toString (endpoint x) = Some c) ∧
  (conn_receive_timeout x = Some ConnectWait → m_connected x = false).
Proof. intros HI H. by destruct (inv_conns s HI c x H) as [_ ?]. Qed.

Lemma live_iface_tasks s f i : live_iface (set_tasks f s) i ↔ live_iface s i.
Proof. done. Qed.

Lemma receive_safe s i : Inv s → live_iface s i → safe_result (receive i s).
Proof.
  intros HI Hi. split; [|by constructor]. apply Inv_tasks; [done|].
  intros t. rewrite elem_of_app, list_elem_of_singleton. intros [?| ->]; [by left|by right].
Qed.

Lemma call_safe s cb f c :
  Inv s → is_Some (conns s !! c) → (∀ k, no_connect (f k)) → safe_result (call cb f c s).
Proof.
  intros HI Hc Hf. destruct cb as [k|]; [|done]. rewrite call_run. split; [by apply Inv_held|]. by constructor.
Qed.

(** The wait of a connected connection is no [ConnectWait]. *)
Lemma aborted_recv_good s s' c x t :
  Inv s → conns s !! c = Some x → m_connected x = true →
  t ∈ match conn_receive_timeout x with Some w => [AbortedRecv c w] | None => [] end → good_task s' t.
Proof.
  intros HI Hx Hc Ht. destruct (conn_parts s c x HI Hx) as (_ & _ & _ & Hw).
  destruct (conn_receive_timeout x) as [w|]; [|by apply elem_of_nil in Ht].
  apply list_elem_of_singleton in Ht as ->. simpl. intros ->. rewrite Hw in Hc; done.
Qed.

Lemma receivedKeepAlive_safe s t d :
  Inv s → connections s !! t = Some d → safe_result (receivedKeepAlive d s).
Proof.
  intros HI Hd. destruct (inv_registered s HI t d Hd) as (x & Hx & Ex).
  destruct (conn_parts s d x HI Hx) as (Hcb & (i & Hi & _) & Hm & Hw).
  assert (m_connected x = true) as Hc by (apply Hm; by rewrite Ex).
  erewrite receivedKeepAlive_run by done. split; [|by repeat constructor].
  eapply Inv_set_conn; simpl; eauto; try done.
  apply Inv_tasks; [done|]. intros u. rewrite elem_of_app. intros [?|Ht']; [by left|right].
  by eapply aborted_recv_good.
Qed.

Lemma receivedDisconnect_safe s t d :
  Inv s → connections s !! t = Some d → safe_result (receivedDisconnect d s).
Proof.
  intros HI Hd. destruct (inv_registered s HI t d Hd) as (x & Hx & Ex).
  destruct (conn_parts s d x HI Hx) as (Hcb & (i & Hi & Hp) & Hm & Hw).
  assert (m_connected x = true) as Hc by (apply Hm; by rewrite Ex).
  destruct (disconnect_callback i) as [k|] eqn:Hk.
  - erewrite receivedDisconnect_run by done. split; [|by repeat constructor].
    pose proof (Inv_held s d HI (ex_intro _ x Hx) k) as HI'.
    pose proof (Inv_unregister _ d x (set_connected false (set_receive_timeout None (set_send_timer false x)))
                  HI' Hx Hc) as HU.
    apply (Inv_tasks _ (λ ts, ts ++ (if conn_send_timer x then [AbortedSend d] else [])
      ++ match conn_receive_timeout x with Some w => [AbortedRecv d w] | None => [] end)) in HU; [exact HU|..]; try done.
    intros u. simpl. rewrite !elem_of_app. intros [?|[Hu|Hu]]; [by left|right..].
    + destruct (conn_send_timer x); [|by apply elem_of_nil in Hu]. by apply list_elem_of_singleton in Hu as ->.
    + by eapply aborted_recv_good.
  - unfold receivedDisconnect. rewrite (run_conn_at d x), (run_iface_at _ i) by done.
    erewrite run_bind by (by apply cancel_send_run). rewrite after_nil.
    erewrite run_bind by (apply cancel_recv_run; simpl; by rewrite lookup_insert_eq). by rewrite Hk.
Qed.

(** Accepting a connection. *)
Lemma accept_run s a p i ix :
  Inv s → ifaces s !! i = Some ix → parent_socket ix = true →
  getConnection s (UDPInterfaceEndpoint_of a p) = None →
  let e := UDPInterfaceEndpoint_of a p in
  let x := mkUDPConnection e i None true true None in
  (c ← new_connection e i; receivedConnect c) s = Ret (tt,
    mkSocket (interfaces s) (<[ip_toString e := next_id s]> (connections s)) (ifaces s)
      (<[next_id s := x]> (conns s))
      (tasks s ++ [Sending i (next_id s) UDP_KEEPALIVE_MSG ignore_sent]) (held s) (next_id s + 1),
    [SendTo i a p UDP_KEEPALIVE_MSG; SendTimerArmed (next_id s) (keepalive_timer ix)]).
Proof.
  intros HI Hi Hp Hn e x. erewrite run_bind by done. rewrite after_nil.
  erewrite receivedConnect_run by (simpl; rewrite ?lookup_insert_eq; done). simpl.
  by rewrite insert_insert_eq.
Qed.

Lemma accept_safe s a p i ix :
  Inv s → ifaces s !! i = Some ix → parent_socket ix = true →
  getConnection s (UDPInterfaceEndpoint_of a p) = None →
  safe_result ((c ← new_connection (UDPInterfaceEndpoint_of a p) i; receivedConnect c) s).
Proof.
  intros HI Hi Hp Hn. erewrite accept_run by done. split; [|by repeat constructor].
  pose proof (Inv_new s (UDPInterfaceEndpoint_of a p) i HI (ex_intro _ ix (conj Hi Hp))) as HN.
  pose proof (Inv_register _ (next_id s) _ HN (lookup_insert_eq _ _ _) Hn eq_refl) as HR.
  apply (Inv_tasks _ (λ ts, ts ++ [Sending i (next_id s) UDP_KEEPALIVE_MSG ignore_sent])) in HR.
  - revert HR. unfold set_tasks. simpl. by rewrite insert_insert_eq.
  - intros t. simpl. rewrite elem_of_app, list_elem_of_singleton. intros [?| ->]; [by left|right].
    simpl. by rewrite lookup_insert_eq.
Qed.

Lemma handleReceive_safe cfg s i error message a p :
  Inv s → live_iface s i → safe_result (handleReceive cfg i error message a p s).
Proof.
  intros HI (ix & Hi & Hp). unfold handleReceive. rewrite (run_iface_at _ ix) by done. rewrite Hp. run.
  assert (∀ m : TM unit, safe_result (m s) → (∀ u s' es, m s = Ret (u, s', es) → ifaces s' = ifaces s) →
    safe_result ((m;; receive i) s)) as Hthen.
  { intros m Hm Hif. destruct (m s) as [[[[] s1] e1]| | | |] eqn:E; [|unfold mbind, M_bind; by rewrite E..].
    rewrite (run_bind _ _ _ _ _ _ E). destruct Hm as [HI1 He]. apply safe_after; [done|].
    apply receive_safe; [done|]. exists ix. by rewrite (Hif tt s1 e1 eq_refl). }
  destruct (getConnection s _) as [c|] eqn:Hc.
  - destruct (inv_registered s HI _ c Hc) as (x & Hx & Ex).
    destruct (conn_parts s c x HI Hx) as (_ & (jx & Hj & Hjp) & _).
    apply Hthen; repeat case_decide.
    + by eapply receivedKeepAlive_safe.
    + by eapply receivedDisconnect_safe.
    + by apply call_safe.
    + intros u s' es. erewrite receivedKeepAlive_run by done. by intros [= <- <-].
    + intros u s' es. destruct (disconnect_callback jx) as [k|] eqn:Hk.
      * erewrite receivedDisconnect_run by done. by intros [= <- <-].
      * unfold receivedDisconnect. rewrite (run_conn_at c x), (run_iface_at _ jx) by done.
        erewrite run_bind by (by apply cancel_send_run). rewrite after_nil.
        erewrite run_bind by (apply cancel_recv_run; simpl; by rewrite lookup_insert_eq). by rewrite Hk.
    + intros u s' es. destruct (receive_callback ix); [|done]. rewrite call_run. by intros [= <- <-].
  - apply Hthen; case_decide; try done.
    + destruct (getValue as_bool cfg _) as [b| | | |]; try done. run.
      destruct b; [done|]. by eapply accept_safe.
    + destruct (getValue as_bool cfg _) as [b| | | |]; try done. run.
      destruct b; [by intros u s' es [= <- <-]|]. intros u s' es.
      erewrite accept_run by done. by intros [= <- <-].
    + by intros u s' es [= <- <-].
Qed.

Lemma connect_result i e cb s ix :
  ifaces s !! i = Some ix →
  UDPInterface_connect i e cb s = Ret (tt,
    mkSocket (interfaces s) (connections s) (ifaces s)
      (<[next_id s := mkUDPConnection (clone e) i None false false (Some ConnectWait)]> (conns s))
      (tasks s ++ [Sending i (next_id s) UDP_CONNECT_MSG ignore_sent]) (held s) (next_id s + 1),
    [RecvTimerArmed (next_id s) (inactivity_timeout ix) ConnectWait; SendTo i (ip e) (port e) UDP_CONNECT_MSG]).
Proof.
  intros Hi. unfold UDPInterface_connect. erewrite run_bind by done. rewrite after_nil.
  unfold UDPConnection_connect. erewrite run_conn_at, run_iface_at
    by (simpl; rewrite ?lookup_insert_eq; done).
  erewrite run_bind by (apply arm_recv_run; simpl; by rewrite lookup_insert_eq).
  erewrite send_run by (simpl; rewrite ?lookup_insert_eq; done).
  unfold set_conns, set_tasks. simpl. by rewrite app_nil_r, insert_insert_eq.
Qed.

Lemma UDPInterface_connect_safe s i e cb :
  Inv s → live_iface s i → safe_result (UDPInterface_connect i e cb s).
Proof.
  intros HI Hl. pose proof Hl as (ix & Hi & Hp). erewrite connect_result by done.
  split; [|by repeat constructor].
  pose proof (Inv_new s (clone e) i HI Hl) as HN.
  eapply (Inv_set_conn _ (next_id s) _ (mkUDPConnection (clone e) i None false false (Some ConnectWait))) in HN;
    [|simpl; by rewrite lookup_insert_eq|done..].
  apply (Inv_tasks _ (λ ts, ts ++ [Sending i (next_id s) UDP_CONNECT_MSG ignore_sent])) in HN.
  - revert HN. unfold set_tasks, set_conns. simpl. by rewrite insert_insert_eq.
  - intros t. simpl. rewrite elem_of_app, list_elem_of_singleton. intros [?| ->]; [by left|right].
    simpl. by rewrite lookup_insert_eq.
Qed.

Lemma connect_run s e ep cb :
  Inv s → interface_endpoint e = Some ep →
  connect e cb s = UDPInterface_connect 0 (clone ep) cb s.
Proof.
  intros HI He. unfold connect, SocketEndpoint_copy. rewrite He. run. cbn [se_getPrefix interface_endpoint clone prefix].
  unfold getInterface. rewrite (inv_ifaces s HI). change (prefix _) with udp_prefix.
  rewrite lookup_singleton_eq. cbn [default]. f_equal.
  unfold set_interfaces. rewrite (inv_ifaces s HI), lookup_singleton_eq, <-(inv_ifaces s HI). by destruct s.
Qed.

Lemma connect_safe s e cb : Inv s → safe_result (connect e cb s).
Proof.
  intros HI. destruct (interface_endpoint e) as [ep|] eqn:He.
  - rewrite (connect_run s e ep) by done. apply UDPInterface_connect_safe; [done|by apply inv_udp].
  - unfold connect, SocketEndpoint_copy. by rewrite He.
Qed.

Lemma Inv_iface s i x x' :
  Inv s → ifaces s !! i = Some x → parent_socket x' = parent_socket x → Inv (set_ifaces (<[i := x']>) s).
Proof.
  intros HI Hi Hp.
  assert (∀ j, live_iface s j → live_iface (set_ifaces (<[i := x']>) s) j) as Hl.
  { intros j (y & Hy & Ey). unfold live_iface. simpl. destruct (decide (j = i)) as [->|].
    - exists x'. rewrite lookup_insert_eq. simplify_eq. by rewrite Hp.
    - exists y. by rewrite lookup_insert_ne. }
  destruct HI. constructor; simpl; try done.
  - intros c y Hy. destruct (inv_conns0 c y Hy) as (H1 & H2 & H3 & H4).
    split; [done|]. split; [done|]. split; [by apply Hl|done].
  - intros t Ht. specialize (inv_tasks0 t Ht). destruct t; simpl in *; auto.
  - auto.
Qed.

Lemma set_callback_safe s g i :
  Inv s → live_iface s i → (∀ x, parent_socket (g x) = parent_socket x) →
  safe_result (update_iface i g s) ∧
  ∀ u s' es, update_iface i g s = Ret (u, s', es) → live_iface s' i.
Proof.
  intros HI (x & Hi & Hp) Hg. unfold update_iface. rewrite (run_iface_at _ x) by done.
  split; [split; [|by constructor]; by eapply Inv_iface|].
  intros u s' es [= <- <- <-]. exists (g x). simpl. rewrite lookup_insert_eq. by rewrite Hg.
Qed.

(** The loops that set a callback. *)
Lemma callbacks_safe (f : Z → TM unit) s l :
  (∀ s i, Inv s → live_iface s i → safe_result (f i s)) →
  (∀ s i u s' es, f i s = Ret (u, s', es) → ∀ j, live_iface s j → live_iface s' j) →
  Inv s → Forall (λ o, ∀ i, o = Some i → live_iface s i) l →
  safe_result (forM l (on_interface f) s).
Proof.
  intros Hf Hmono. revert s. induction l as [|o l IH]; intros s HI Hl; [by split|]. simpl.
  inversion Hl as [|?? Ho Hl']; subst. destruct o as [i|]; [|done]. cbn [on_interface].
  pose proof (Hf s i HI (Ho i eq_refl)) as Hs.
  destruct (f i s) as [[[[] s1] e1]| | | |] eqn:E; [|unfold mbind, M_bind; by rewrite E..].
  rewrite (run_bind _ _ _ _ _ _ E). destruct Hs as [HI1 He1]. apply safe_after; [done|]. apply IH; [done|].
  eapply Forall_impl; [exact Hl'|]. cbn. intros o' Ho' j ->. eapply Hmono; eauto.
Qed.

Lemma update_iface_live i g s u s' es j :
  (∀ x, parent_socket (g x) = parent_socket x) →
  update_iface i g s = Ret (u, s', es) → live_iface s j → live_iface s' j.
Proof.
  intros Hg H (x & Hx & Hp). unfold update_iface in H.
  destruct (ifaces s !! i) as [y|] eqn:Hi.
  - rewrite (run_iface_at _ y) in H by done. injection H as <- <- <-. unfold live_iface. simpl.
    destruct (decide (j = i)) as [->|].
    + exists (g y). rewrite lookup_insert_eq, Hg. by simplify_eq.
    + exists x. by rewrite lookup_insert_ne.
  - unfold iface_at in H. rewrite run_assoc, run_get, Hi in H. done.
Qed.

Lemma interface_list_live s : Inv s → Forall (λ o, ∀ i, o = Some i → live_iface s i) (interface_list s).
Proof.
  intros HI. apply Forall_forall. intros o Ho i ->. unfold interface_list in Ho.
  rewrite (inv_ifaces s HI), map_to_list_singleton in Ho.
  apply list_elem_of_singleton in Ho as [= ->]. by apply inv_udp.
Qed.

Lemma setReceiveCallback_safe s cb : Inv s → safe_result (setReceiveCallback cb s).
Proof.
  intros HI. unfold setReceiveCallback. run. apply callbacks_safe; [| |done|by apply interface_list_live].
  - intros s1 i HI1 Hi. unfold UDPInterface_setReceiveCallback.
    destruct (set_callback_safe s1 (λ x, set_callbacks cb (disconnect_callback x) x) i HI1 Hi) as [Hs Hl]; [done|].
    destruct (update_iface _ _ s1) as [[[[] s2] e2]| | | |] eqn:E; [|unfold mbind, M_bind; by rewrite E..].
    rewrite (run_bind _ _ _ _ _ _ E). destruct Hs. apply safe_after; [done|]. apply receive_safe; eauto.
  - intros s1 i u s2 es H j Hj. unfold UDPInterface_setReceiveCallback in H.
    apply M_bind_Ret in H as ([] & s3 & e1 & e2 & H1 & [= <- <- <-] & _).
    apply live_iface_tasks. eapply update_iface_live; [|exact H1|done]. done.
Qed.

Lemma setDisconnectCallback_safe s cb : Inv s → safe_result (setDisconnectCallback cb s).
Proof.
  intros HI. unfold setDisconnectCallback. run. apply callbacks_safe; [| |done|by apply interface_list_live].
  - intros s1 i HI1 Hi. by apply set_callback_safe.
  - intros s1 i u s2 es H j Hj. eapply update_iface_live; [|exact H|done]. done.
Qed.

Lemma recv_handler_safe s c w b :
  Inv s → (∀ x, conns s !! c = Some x → connecting_callback x = None) → safe_result (recv_handler c w b s).
Proof.
  intros HI Hc. destruct w, b; try done; unfold recv_handler.
  all: destruct (conns s !! c) as [x|] eqn:Hx;
    [rewrite (run_conn_at c x) by done; by rewrite (Hc x eq_refl)|].
  all: unfold conn_at; run; by rewrite Hx.
Qed.

Lemma sendKeepAlive_dead s c : conns s !! c = None → sendKeepAlive c false s = Undef use_after_free.
Proof. intros H. unfold sendKeepAlive, conn_at. run. by rewrite H. Qed.

Lemma sendKeepAlive_safe s c : Inv s → safe_result (sendKeepAlive c false s).
Proof.
  intros HI. destruct (conns s !! c) as [x|] eqn:Hx; [|by rewrite sendKeepAlive_dead].
  destruct (conn_parts s c x HI Hx) as (Hcb & (i & Hi & Hp) & _ & Hw).
  erewrite sendKeepAlive_run by done. split; [|by repeat constructor].
  eapply Inv_set_conn; simpl; eauto; try done. apply Inv_tasks; [done|].
  intros t. rewrite elem_of_app, elem_of_cons. intros [?|[->|Ht]]; [by left|right; by exists x|right].
  destruct (conn_send_timer x); [by apply list_elem_of_singleton in Ht as ->|by apply elem_of_nil in Ht].
Qed.

Lemma Inv_fewer_tasks s f : Inv s → f (tasks s) ⊆ tasks s → Inv (set_tasks f s).
Proof. intros HI H. apply Inv_tasks; [done|]. intros t Ht. left. by apply H. Qed.

Lemma delete_subseteq {A} n (l : list A) : delete n l ⊆ l.
Proof. intros x Hx. rewrite delete_take_drop, elem_of_app in Hx.
  destruct Hx as [Hx|Hx]; [by apply subseteq_take in Hx|by apply subseteq_drop in Hx]. Qed.

Lemma erase_first_subseteq {A} `{EqDecision A} (x : A) l : erase_first x l ⊆ l.
Proof. intros y. apply elem_of_erase_first. Qed.

Lemma run_event_safe cfg ev s : Inv s → safe_result (run_event cfg ev s).
Proof.
  intros HI. unfold run_event. run. destruct ev as [i error m a p|n error tr|c|c|n|e cb|c d cb|c|cb|cb].
  - case_bool_decide as Hr; [|by split]. run.
    apply handleReceive_safe; [apply Inv_fewer_tasks; [done|apply erase_first_subseteq]|].
    apply live_iface_tasks. exact (inv_tasks s HI _ Hr).
  - destruct (tasks s !! n) as [[| | | | |]|] eqn:E; try by split. run. unfold handleSend.
    apply call_safe; [apply Inv_fewer_tasks; [done|apply delete_subseteq]| |done].
    apply list_elem_of_lookup_2 in E. exact (inv_tasks s HI _ E).
  - destruct (conns s !! c) as [x|] eqn:Hx; [|by split]. destruct (conn_send_timer x) eqn:Ht; [|by split].
    destruct (conn_parts s c x HI Hx) as (Hcb & _ & _ & Hw). erewrite run_bind by (by apply update_conn_run). rewrite after_nil.
    split; [|by constructor]. apply Inv_tasks; [by eapply Inv_set_conn|].
    intros t. rewrite elem_of_app, list_elem_of_singleton. intros [?| ->]; [by left|right]. by apply (inv_conns s HI c x).
  - destruct (conns s !! c) as [x|] eqn:Hx; [|by split].
    destruct (conn_receive_timeout x) as [w|] eqn:Hw; [|by split].
    destruct (conn_parts s c x HI Hx) as (Hcb & _).
    erewrite run_bind by (by apply update_conn_run). rewrite after_nil.
    split; [|by constructor]. apply Inv_tasks; [by eapply Inv_set_conn|].
    intros t. rewrite elem_of_app, list_elem_of_singleton. intros [?| ->]; [by left|by right].
  - assert (Inv (set_tasks (delete n) s)) as HI' by (apply Inv_fewer_tasks; [done|apply delete_subseteq]).
    assert (∀ c x, conns (set_tasks (delete n) s) !! c = Some x → connecting_callback x = None) as Hcb
      by (intros c x Hx; by destruct (conn_parts s c x HI Hx)).
    destruct (tasks s !! n) as [[| |c|c w|c|c w]|] eqn:E; try by split.
    + run. by apply sendKeepAlive_safe.
    + run. apply recv_handler_safe; [done|apply Hcb].
    + run. apply recv_handler_safe; [done|apply Hcb].
  - by apply connect_safe.
  - case_bool_decide as Hh; [|by split]. destruct (inv_held s HI c Hh) as [x Hx].
    destruct (conn_parts s c x HI Hx) as (_ & (i & Hi & _) & _).
    erewrite send_run by done. split; [|by repeat constructor].
    apply Inv_tasks; [done|]. intros t. rewrite elem_of_app, list_elem_of_singleton.
    intros [?| ->]; [by left|right]. by exists x.
  - split; [|by constructor]. destruct HI. constructor; simpl; try done. set_solver.
  - by apply setReceiveCallback_safe.
  - by apply setDisconnectCallback_safe.
Qed.

Lemma io_step_safe cfg ev s : Inv s → safe_result (io_step cfg ev s).
Proof.
  intros HI. apply safe_bind; [by apply run_event_safe|]. intros s' HI'.
  destruct (collect s') as [[[[] s2] es]| | | |] eqn:E; try done.
  apply Inv_collect in E as [? ->]; done.
Qed.

(** The socket after [registerInterface] and a sequence of events. *)
Definition Socket_new (x : UDPInterface) : Socket := mkSocket ∅ ∅ {[0%Z := x]} ∅ [] ∅ 1.
Definition io_run (cfg : ConfigManager) (evs : list event) : TM unit :=
  registerInterface 0;; forM evs (io_step cfg).

Lemma registerInterface_run x :
  registerInterface 0 (Socket_new x) = Ret (tt,
    mkSocket {[udp_prefix := Some 0%Z]} ∅ {[0%Z := set_parent x]} ∅ [] ∅ 1, []).
Proof.
  unfold registerInterface. run. unfold update_iface.
  erewrite run_iface_at by (simpl; by rewrite lookup_singleton_eq).
  unfold modify, set_interfaces, set_ifaces. simpl. rewrite lookup_empty, insert_empty. by rewrite insert_singleton_eq.
Qed.

Lemma Inv_start x : Inv (mkSocket {[udp_prefix := Some 0%Z]} ∅ {[0%Z := set_parent x]} ∅ [] ∅ 1).
Proof.
  constructor; simpl; try done.
  - intros t Ht. by apply elem_of_nil in Ht.
  - exists (set_parent x). split; [apply lookup_singleton_eq|done].
Qed.

Lemma io_run_safe cfg evs x : safe_result (io_run cfg evs (Socket_new x)).
Proof.
  unfold io_run. erewrite run_bind by apply registerInterface_run. rewrite after_nil.
  generalize (Inv_start x). generalize (mkSocket {[udp_prefix := Some 0%Z]} ∅ {[0%Z := set_parent x]} ∅ [] ∅ 1).
  induction evs as [|ev evs IH]; intros s HI; simpl; [by split|].
  apply safe_bind; [by apply io_step_safe|done].
Qed.

(** ** When an event fails *)

Lemma collect_run s : collect s = Ret (tt,
  foldl destroy s (filter (λ c, ¬ referenced s c) ((map_to_list (conns s)).*1)), []).
Proof. done. Qed.

Lemma io_step_returns cfg ev s s1 es :
  run_event cfg ev s = Ret (tt, s1, es) → returns (io_step cfg ev s).
Proof. intros H. unfold io_step. erewrite run_bind by done. rewrite collect_run. by eexists. Qed.

Lemma io_step_fails cfg ev s :
  ¬ returns (run_event cfg ev s) → ¬ returns (io_step cfg ev s).
Proof.
  intros H [[[[] s'] es] E]. apply M_bind_Ret in E as ([] & s1 & e1 & e2 & E & _). apply H. by eexists.
Qed.

(** The handlers of timers that are never of use. *)
Lemma recv_handler_outgoing s c aborted : Inv s → recv_handler c ConnectWait aborted s =
  match conns s !! c with Some _ => Throw bad_function_call | None => Undef use_after_free end.
Proof.
  intros HI. destruct (conns s !! c) as [x|] eqn:Hx.
  - destruct (conn_parts s c x HI Hx) as (Hcb & _).
    destruct aborted; unfold recv_handler; rewrite (run_conn_at c x) by done; by rewrite Hcb.
  - destruct aborted; unfold recv_handler, conn_at; run; by rewrite Hx.
Qed.
(** The wait of an outgoing connection: its timeout calls an empty callback, its
    abortion finds the connection gone. *)
Lemma connect_timeout_fails cfg s n c : Inv s → tasks s !! n = Some (ExpiredRecv c ConnectWait) →
  io_step cfg (Waited n) s = match conns s !! c with Some _ => Throw bad_function_call | None => Undef use_after_free end.
Proof.
  intros HI Hn. unfold io_step, run_event. run. rewrite Hn. run.
  assert (Inv (set_tasks (delete n) s)) as HI' by (apply Inv_fewer_tasks; [done|apply delete_subseteq]).
  unfold mbind, M_bind. rewrite (recv_handler_outgoing _ c false HI'). cbn [set_tasks conns]. by destruct (conns s !! c).
Qed.
Lemma connect_aborted_freed cfg s n c : Inv s → tasks s !! n = Some (AbortedRecv c ConnectWait) →
  io_step cfg (Waited n) s = Undef use_after_free.
Proof.
  intros HI Hn. destruct (inv_tasks s HI _ (list_elem_of_lookup_2 _ _ _ Hn) eq_refl) as [Hc _].
  unfold io_step, run_event. run. rewrite Hn. run. unfold recv_handler, conn_at. run. simpl. by rewrite Hc.
Qed.
Lemma late_keepalive_freed cfg s n c : tasks s !! n = Some (ExpiredSend c) → conns s !! c = None →
  io_step cfg (Waited n) s = Undef use_after_free.
Proof.
  intros Hn Hc. unfold io_step, run_event. run. rewrite Hn. run. unfold mbind, M_bind. by rewrite sendKeepAlive_dead.
Qed.
(** An expiry posts the handler. *)
Lemma recv_timer_run cfg s c x w : conns s !! c = Some x → conn_receive_timeout x = Some w →
  run_event cfg (RecvTimer c) s = Ret (tt, set_tasks (λ ts, ts ++ [ExpiredRecv c w])
    (set_conns (<[c := set_receive_timeout None x]>) s), []).
Proof.
  intros Hx Hw. unfold run_event. run. rewrite Hx, Hw. erewrite run_bind by (by apply update_conn_run). by rewrite after_nil.
Qed.

(** Both callbacks of an interface are set. *)
Definition callbacks_set (s : Socket) : Prop :=
  ∀ i x, ifaces s !! i = Some x → is_Some (receive_callback x) ∧ is_Some (disconnect_callback x).

(** The handler of an inactivity timeout, of a keep-alive or an outgoing
    connection that is gone; an empty send callback; an empty endpoint. *)
Definition fails (s : Socket) (ev : event) : Prop :=
  match ev with
  | Waited n => (∃ c w, tasks s !! n = Some (ExpiredRecv c w)) ∨ (∃ c, tasks s !! n = Some (AbortedRecv c ConnectWait)) ∨
      (∃ c, tasks s !! n = Some (ExpiredSend c) ∧ conns s !! c = None)
  | Sent n _ _ => ∃ i c data, tasks s !! n = Some (Sending i c data None)
  | ClientConnect e _ => interface_endpoint e = None
  | _ => False
  end.

Lemma handleReceive_returns cfg s i error m a p b :
  Inv s → live_iface s i → callbacks_set s →
  getValue as_bool cfg "transport.udp.outgoing_only" = Ret b →
  ∃ s' es, handleReceive cfg i error m a p s = Ret (tt, s', es).
Proof.
  intros HI (ix & Hi & Hp) Hcb Hb. unfold handleReceive. rewrite (run_iface_at _ ix) by done. rewrite Hp. run.
  assert (∀ n : TM unit, (∃ s1 e1, n s = Ret (tt, s1, e1)) → ∃ s' es, (n;; receive i) s = Ret (tt, s', es)) as Hthen.
  { intros n (s1 & e1 & E). rewrite (run_bind _ _ _ _ _ _ E). simpl. eauto. }
  destruct (getConnection s _) as [c|] eqn:Hc; apply Hthen; repeat case_decide; eauto.
  - destruct (inv_registered s HI _ c Hc) as (x & Hx & _).
    destruct (conn_parts s c x HI Hx) as (_ & (jx & Hj & _) & _). erewrite receivedKeepAlive_run by done. eauto.
  - destruct (inv_registered s HI _ c Hc) as (x & Hx & _).
    destruct (conn_parts s c x HI Hx) as (_ & (jx & Hj & Hjp) & _).
    destruct (Hcb _ jx Hj) as [_ [k Hk]]. erewrite receivedDisconnect_run by done. eauto.
  - destruct (Hcb _ ix Hi) as [[k ->] _]. rewrite call_run. eauto.
  - rewrite Hb. run. destruct b; [simpl; eauto|]. erewrite accept_run by done. eauto.
Qed.

Lemma setReceiveCallback_run s cb : Inv s → ∃ x, ifaces s !! 0%Z = Some x ∧
  setReceiveCallback cb s = Ret (tt, set_tasks (λ ts, ts ++ [Receive 0])
    (set_ifaces (<[0%Z := set_callbacks cb (disconnect_callback x) x]>) s), []).
Proof.
  intros HI. unfold setReceiveCallback. run. unfold interface_list.
  rewrite (inv_ifaces s HI), map_to_list_singleton. cbn [fmap list_fmap snd forM on_interface].
  destruct (inv_udp s HI) as (x & Hx & _). unfold UDPInterface_setReceiveCallback, update_iface, receive, post.
  exists x. split; [done|]. rewrite !run_assoc. erewrite run_iface_at by done. by run.
Qed.

Lemma setDisconnectCallback_run s cb : Inv s → ∃ x, ifaces s !! 0%Z = Some x ∧
  setDisconnectCallback cb s = Ret (tt, set_ifaces (<[0%Z := set_callbacks (receive_callback x) cb x]>) s, []).
Proof.
  intros HI. unfold setDisconnectCallback. run. unfold interface_list.
  rewrite (inv_ifaces s HI), map_to_list_singleton. cbn [fmap list_fmap snd forM on_interface].
  destruct (inv_udp s HI) as (x & Hx & _). unfold UDPInterface_setDisconnectCallback, update_iface.
  exists x. split; [done|]. rewrite !run_assoc. erewrite run_iface_at by done. by run.
Qed.

Lemma recv_handler_fails s c w :
  (∀ x, conns s !! c = Some x → connecting_callback x = None) →
  ¬ returns (recv_handler c w false s) ∧ ¬ returns (recv_handler c ConnectWait true s).
Proof.
  intros Hc. assert (∀ f : UDPConnection → TM unit, (∀ x, connecting_callback x = None → ¬ returns (f x s)) →
    ¬ returns ((conn_at c ≫= f) s)) as Hat.
  { intros f Hf. destruct (conns s !! c) as [x|] eqn:Hx; [rewrite (run_conn_at c x) by done; by apply Hf, Hc|].
    unfold conn_at. run. rewrite Hx. by intros [? ?]. }
  split; [destruct w; [by intros [? ?]|]|]; apply Hat; intros x ->; by intros [? ?].
Qed.

Lemma run_event_returns cfg ev s b :
  Inv s → callbacks_set s → getValue as_bool cfg "transport.udp.outgoing_only" = Ret b →
  ¬ fails s ev → ∃ s' es, run_event cfg ev s = Ret (tt, s', es).
Proof.
  intros HI Hcb Hb Hf. unfold run_event. run. destruct ev as [i error m a p|n error tr|c|c|n|e cb|c d cb|c|cb|cb].
  - case_bool_decide as Hr; [|simpl; eauto]. run.
    eapply handleReceive_returns; [| | |done]; [apply Inv_fewer_tasks; [done|apply erase_first_subseteq]| |done].
    apply live_iface_tasks. exact (inv_tasks s HI _ Hr).
  - destruct (tasks s !! n) as [[| | | | |]|] eqn:E; try by (simpl; eauto). run. unfold handleSend.
    destruct cb as [k|]; [|exfalso; apply Hf; simpl; eauto]. rewrite call_run. eauto.
  - destruct (conns s !! c) as [x|] eqn:Hx; [|simpl; eauto]. destruct (conn_send_timer x) eqn:Ht; [|simpl; eauto].
    erewrite run_bind by (by apply update_conn_run). simpl. eauto.
  - destruct (conns s !! c) as [x|] eqn:Hx; [|simpl; eauto].
    destruct (conn_receive_timeout x) as [w|] eqn:Hw; [|simpl; eauto].
    erewrite run_bind by (by apply update_conn_run). simpl. eauto.
  - destruct (tasks s !! n) as [[| |c|c w|c|c w]|] eqn:E; try by (run; simpl; eauto).
    + run. destruct (conns s !! c) as [x|] eqn:Hx; [|exfalso; apply Hf; simpl; eauto].
      destruct (conn_parts s c x HI Hx) as (_ & (i & Hi & _) & _). erewrite sendKeepAlive_run by done. eauto.
    + exfalso. apply Hf. simpl. eauto.
    + destruct w; [run; simpl; eauto|]. exfalso. apply Hf. simpl. eauto.
  - simpl in Hf. destruct (interface_endpoint e) as [ep|] eqn:He; [|done]. rewrite (connect_run s e ep) by done.
    destruct (inv_udp s HI) as (ix & Hi & _). erewrite connect_result by done. eauto.
  - case_bool_decide as Hh; [|simpl; eauto]. destruct (inv_held s HI c Hh) as [x Hx].
    destruct (conn_parts s c x HI Hx) as (_ & (i & Hi & _) & _). erewrite send_run by done. eauto.
  - simpl. eauto.
  - destruct (setReceiveCallback_run s cb HI) as (x & _ & ->). eauto.
  - destruct (setDisconnectCallback_run s cb HI) as (x & _ & ->). eauto.
Qed.

Lemma run_event_fails cfg ev s : Inv s → fails s ev → ¬ returns (run_event cfg ev s).
Proof.
  intros HI Hf. unfold run_event. run. destruct ev as [i error m a p|n error tr|c|c|n|e cb|c d cb|c|cb|cb]; simpl in Hf; try done.
  - destruct Hf as (i & c & data & ->). run. by intros [? ?].
  - assert (∀ c x, conns (set_tasks (delete n) s) !! c = Some x → connecting_callback x = None) as Hcb
      by (intros c x Hx; by destruct (conn_parts s c x HI Hx)).
    destruct Hf as [(c & w & ->)|[(c & ->)|(c & -> & Hc)]]; run.
    + apply recv_handler_fails, Hcb.
    + apply recv_handler_fails; [exact KeepaliveWait|apply Hcb].
    + rewrite sendKeepAlive_dead by done. by intros [? ?].
  - unfold connect, SocketEndpoint_copy. rewrite Hf. by intros [? ?].
Qed.
(** ** Keep-alive waits *)

(** Expiries of the keep-alive timer of [c] whose handler has not run. *)
Definition expired (c : Z) (ts : list task) : nat := length (filter (λ t, t = ExpiredSend c) ts).
#[local] Arguments expired : simpl never.
(** The running timer of a connection and its expiries. *)
Definition running (s : Socket) (c : Z) : nat :=
  match conns s !! c with Some x => if conn_send_timer x then 1 else 0 | None => 0 end.
Definition keepalive_waits (s : Socket) (c : Z) : nat := running s c + expired c (tasks s).

Lemma expired_app c ts us : expired c (ts ++ us) = expired c ts + expired c us.
Proof. unfold expired. by rewrite filter_app, length_app. Qed.
Lemma expired_one c t : expired c [t] = if decide (t = ExpiredSend c) then 1 else 0.
Proof. unfold expired. rewrite filter_cons. by case_decide. Qed.
Lemma expired_cons c t ts : expired c (t :: ts) = (if decide (t = ExpiredSend c) then 1 else 0) + expired c ts.
Proof. by rewrite <-expired_one, <-expired_app. Qed.
Lemma expired_delete c ts n t : ts !! n = Some t →
  expired c ts = expired c (delete n ts) + if decide (t = ExpiredSend c) then 1 else 0.
Proof.
  intros Hn. rewrite <-expired_one, delete_take_drop, expired_app.
  rewrite <-(take_drop_middle ts n t Hn) at 1. change (t :: drop (S n) ts) with ([t] ++ drop (S n) ts).
  rewrite !expired_app. lia.
Qed.
Lemma expired_erase c i ts : expired c (erase_first (Receive i) ts) = expired c ts.
Proof.
  induction ts as [|t ts IH]; [done|]. cbn [erase_first]. case_decide as E; [by subst t|].
  change (t :: erase_first (Receive i) ts) with ([t] ++ erase_first (Receive i) ts). change (t :: ts) with ([t] ++ ts).
  by rewrite !expired_app, IH.
Qed.
Lemma expired_in c ts : ExpiredSend c ∈ ts ↔ expired c ts ≠ 0.
Proof.
  unfold expired. split.
  - intros Hin. destruct (filter _ ts) eqn:E; [|done].
    assert (ExpiredSend c ∈ filter (λ t, t = ExpiredSend c) ts) as H by (by apply list_elem_of_filter). rewrite E in H. by apply elem_of_nil in H.
  - intros Hne. destruct (filter _ ts) as [|t l] eqn:E; [done|].
    assert (t ∈ filter (λ t, t = ExpiredSend c) ts) as H by (rewrite E; apply elem_of_cons; by left).
    by apply list_elem_of_filter in H as [-> ?].
Qed.
Lemma expired_fresh s c : Inv s → (next_id s ≤ c)%Z → expired c (tasks s) = 0.
Proof.
  intros HI Hc. destruct (decide (expired c (tasks s) = 0)) as [|Hne]; [done|].
  apply expired_in in Hne. apply (inv_tasks s HI) in Hne. simpl in Hne. lia.
Qed.
Lemma expired_aborted c d (x : UDPConnection) :
  expired c (if conn_send_timer x then [AbortedSend d] else []) = 0 ∧
  expired c (match conn_receive_timeout x with Some w => [AbortedRecv d w] | None => [] end) = 0.
Proof. by destruct (conn_send_timer x), (conn_receive_timeout x). Qed.

(** A connected connection has one keep-alive wait, any other at most one. *)
Definition Waits (s : Socket) : Prop :=
  ∀ c x, conns s !! c = Some x → keepalive_waits s c ≤ 1 ∧ (m_connected x = true → keepalive_waits s c = 1).

(** What an event does to the waits: a disconnect keeps only the expiries that
    were posted before it, a disconnected connection stays as it is, and a new
    connection waits if it is connected. *)
Definition evolves (s s' : Socket) : Prop :=
  ∀ c x', conns s' !! c = Some x' →
    match conns s !! c with
    | Some x =>
        if m_connected x then keepalive_waits s' c = if m_connected x' then keepalive_waits s c else expired c (tasks s)
        else m_connected x' = false ∧ keepalive_waits s' c = keepalive_waits s c
    | None => (next_id s ≤ c)%Z ∧ keepalive_waits s' c = if m_connected x' then 1 else 0
    end.

Lemma evolves_Waits s s' : Waits s → evolves s s' → Waits s'.
Proof.
  intros Hw He c x' Hx'. specialize (He c x' Hx'). destruct (conns s !! c) as [x|] eqn:Hx.
  - destruct (Hw c x Hx) as [H1 H2]. destruct (m_connected x).
    + destruct (m_connected x'); rewrite He; [auto|]. split; [|done]. unfold keepalive_waits in H1. lia.
    + destruct He as [-> ->]. by split.
  - destruct He as [_ ->]. destruct (m_connected x'); by split; [lia|].
Qed.

(** Nothing about timers changes. *)
Lemma evolves_same s s' : conns s' = conns s → (∀ c, expired c (tasks s') = expired c (tasks s)) → evolves s s'.
Proof.
  intros Hc Ht c x' Hx'. assert (keepalive_waits s' c = keepalive_waits s c) as E
    by (unfold keepalive_waits, running; by rewrite Hc, Ht).
  rewrite Hc in Hx'. rewrite Hx', E. by destruct (m_connected x').
Qed.
(** One connection changes. *)
Lemma evolves_update s s' c x x' : conns s !! c = Some x → conns s' = <[c := x']> (conns s) →
  (∀ d, d ≠ c → expired d (tasks s') = expired d (tasks s)) →
  (let waits := (if conn_send_timer x' then 1 else 0) + expired c (tasks s') in
   if m_connected x then waits = if m_connected x' then keepalive_waits s c else expired c (tasks s)
   else m_connected x' = false ∧ waits = keepalive_waits s c) → evolves s s'.
Proof.
  intros Hx Hc Ht H d y Hy. rewrite Hc in Hy. destruct (decide (d = c)) as [->|Hne].
  - rewrite lookup_insert_eq in Hy. injection Hy as <-. rewrite Hx. unfold keepalive_waits at 1 3, running. by rewrite Hc, lookup_insert_eq.
  - rewrite lookup_insert_ne in Hy by done. rewrite Hy. assert (keepalive_waits s' d = keepalive_waits s d) as ->
      by (unfold keepalive_waits, running; by rewrite Hc, lookup_insert_ne, Ht by done). by destruct (m_connected y).
Qed.
(** One connection is new. *)
Lemma evolves_new s s' x' : Inv s → conns s' = <[next_id s := x']> (conns s) →
  (∀ d, expired d (tasks s') = expired d (tasks s)) → conn_send_timer x' = m_connected x' → evolves s s'.
Proof.
  intros HI Hc Ht Hx' d y Hy. rewrite Hc in Hy. destruct (decide (d = next_id s)) as [->|Hne].
  - rewrite lookup_insert_eq in Hy. injection Hy as <-. destruct (conns s !! next_id s) as [z|] eqn:E.
    { apply (inv_conns s HI) in E as [? _]. lia. }
    split; [lia|]. unfold keepalive_waits, running. rewrite Hc, lookup_insert_eq, Ht, Hx', expired_fresh by (done || lia).
    by destruct (m_connected x').
  - rewrite lookup_insert_ne in Hy by done. rewrite Hy. assert (keepalive_waits s' d = keepalive_waits s d) as ->
      by (unfold keepalive_waits, running; by rewrite Hc, lookup_insert_ne, Ht by done). by destruct (m_connected y).
Qed.
(** Connections are destroyed. *)
Lemma evolves_fewer s s1 s2 : evolves s s1 → conns s2 ⊆ conns s1 → (∀ c, expired c (tasks s2) = expired c (tasks s1)) → evolves s s2.
Proof.
  intros He Hsub Ht c x' Hx'. pose proof (lookup_weaken _ _ _ _ Hx' Hsub) as Hx1. specialize (He c x' Hx1).
  assert (keepalive_waits s2 c = keepalive_waits s1 c) as ->; [|done].
  unfold keepalive_waits, running. by rewrite Hx', Hx1, Ht.
Qed.

Lemma datagram_evolves cfg s i error m a p s' es : Inv s → live_iface s i →
  handleReceive cfg i error m a p s = Ret (tt, s', es) → evolves s s'.
Proof.
  intros HI (ix & Hi & Hp) H. unfold handleReceive in H. rewrite (run_iface_at _ ix) in H by done.
  rewrite Hp, run_skip, run_get in H. apply M_bind_Ret in H as ([] & s1 & e1 & e2 & H & [= <- <-] & ->).
  cut (evolves s s1).
  { intros He. eapply evolves_fewer; [exact He|done|]. intros c. cbn [set_tasks tasks]. by rewrite expired_app, expired_one, Nat.add_0_r. }
  unfold getConnection in H. destruct (connections s !! ip_toString (UDPInterfaceEndpoint_of a p)) as [c|] eqn:Hc.
  - destruct (inv_registered s HI _ c Hc) as (x & Hx & Ex). destruct (conn_parts s c x HI Hx) as (_ & (jx & Hj & Hjp) & Hm & _).
    assert (m_connected x = true) as Hcon by (apply Hm; by rewrite Ex).
    case_decide; [|case_decide].
    + erewrite receivedKeepAlive_run in H by done. injection H as <- <-. eapply (evolves_update s _ c x); [exact Hx|reflexivity|..].
      * intros d _. cbn [set_conns set_tasks tasks]. rewrite expired_app. destruct (expired_aborted d c x). lia.
      * cbn. rewrite Hcon, expired_app. destruct (expired_aborted c c x). unfold keepalive_waits, running. rewrite Hx. lia.
    + destruct (disconnect_callback jx) as [k|] eqn:Hk.
      * erewrite receivedDisconnect_run in H by done. injection H as <- <-. eapply (evolves_update s _ c x); [exact Hx|reflexivity|..].
        -- intros d _. cbn [tasks]. rewrite !expired_app. destruct (expired_aborted d c x). lia.
        -- cbn. rewrite Hcon, !expired_app. destruct (expired_aborted c c x). lia.
      * unfold receivedDisconnect in H. rewrite (run_conn_at c x), (run_iface_at _ jx), Hk in H by done.
        do 2 (apply M_bind_Ret in H as ([] & ? & ? & ? & _ & H & _)). done.
    + destruct (receive_callback ix) as [k|]; [|done]. rewrite call_run in H. injection H as <- <-. by apply evolves_same.
  - case_decide; [|injection H as <- <-; by apply evolves_same].
    apply M_bind_Ret in H as (b & s2 & e3 & e4 & H2 & H & ->). unfold lift in H2. apply bind_Ret in H2 as (b' & _ & [= <- <- <-]).
    destruct b'; [injection H as <- <-; by apply evolves_same|]. erewrite accept_run in H by done. injection H as <- <-.
    eapply (evolves_new s); [done|reflexivity| |done]. intros d. cbn [tasks]. by rewrite expired_app, expired_one, Nat.add_0_r.
Qed.

Lemma event_evolves cfg ev s s' es : Inv s → Waits s → run_event cfg ev s = Ret (tt, s', es) → evolves s s'.
Proof.
  intros HI Hw H. unfold run_event in H. rewrite run_get in H.
  destruct ev as [i error m a p|n error tr|c|c|n|e cb|c d cb|c|cb|cb].
  - case_bool_decide as Hr; [|injection H as <- <-; by apply evolves_same]. rewrite run_modify in H.
    pose proof (Inv_fewer_tasks s (erase_first (Receive i)) HI (erase_first_subseteq _ _)) as HI'.
    pose proof (datagram_evolves cfg _ i error m a p s' es HI' (inv_tasks s HI _ Hr) H) as He.
    intros c x' Hx'. specialize (He c x' Hx'). unfold keepalive_waits, running in *. cbn [set_tasks conns tasks next_id] in He.
    by rewrite expired_erase in He.
  - destruct (tasks s !! n) as [[i|i c data cb|c|c w|c|c w]|] eqn:E; try (injection H as <- <-; by apply evolves_same).
    rewrite run_modify in H. unfold handleSend in H. destruct cb as [k|]; [|done]. rewrite call_run in H. injection H as <- <-.
    apply evolves_same; [done|]. intros d. cbn. rewrite (expired_delete d _ _ _ E). by rewrite decide_False, Nat.add_0_r.
  - destruct (conns s !! c) as [x|] eqn:Hx; [|injection H as <- <-; by apply evolves_same].
    destruct (conn_send_timer x) eqn:Ht; [|injection H as <- <-; by apply evolves_same].
    erewrite run_bind in H by (by apply update_conn_run). rewrite after_nil in H. injection H as <- <-.
    eapply (evolves_update s _ c x); [exact Hx|reflexivity|..].
    + intros d Hd. cbn [set_tasks set_conns tasks]. rewrite expired_app, expired_one, decide_False by congruence. lia.
    + cbn. rewrite expired_app, expired_one, decide_True by done. unfold keepalive_waits, running. rewrite Hx, Ht.
      destruct (m_connected x); [lia|split; [done|lia]].
  - destruct (conns s !! c) as [x|] eqn:Hx; [|injection H as <- <-; by apply evolves_same].
    destruct (conn_receive_timeout x) as [w|] eqn:Ht; [|injection H as <- <-; by apply evolves_same].
    erewrite run_bind in H by (by apply update_conn_run). rewrite after_nil in H. injection H as <- <-.
    eapply (evolves_update s _ c x); [exact Hx|reflexivity|..].
    + intros d Hd. cbn [set_tasks set_conns tasks]. rewrite expired_app, expired_one. by rewrite decide_False, Nat.add_0_r.
    + cbn. rewrite expired_app, expired_one, decide_False by done. unfold keepalive_waits, running. rewrite Hx.
      destruct (m_connected x); [lia|split; [done|lia]].
  - destruct (tasks s !! n) as [[i|i c data cb|c|c w|c|c w]|] eqn:E; try (injection H as <- <-; by apply evolves_same); rewrite run_modify in H.
    + destruct (conns s !! c) as [x|] eqn:Hx; [|by rewrite sendKeepAlive_dead in H].
      destruct (conn_parts s c x HI Hx) as (_ & (i & Hi & _) & _). destruct (Hw c x Hx) as [Hle _].
      unfold keepalive_waits, running in Hle. rewrite Hx, (expired_delete c _ _ _ E), decide_True in Hle by done.
      erewrite sendKeepAlive_run in H by done. injection H as <- <-. eapply (evolves_update s _ c x); [exact Hx|reflexivity|..].
      * intros d Hd. cbn [set_tasks set_conns tasks]. rewrite (expired_delete d _ _ _ E), expired_app, expired_cons, decide_False by congruence.
        destruct (expired_aborted d c x) as [-> _]. by rewrite decide_False by congruence.
      * cbn [set_tasks set_conns tasks conn_send_timer set_send_timer m_connected]. rewrite expired_app, expired_cons, decide_False by done.
        destruct (expired_aborted c c x) as [-> _].
        unfold keepalive_waits, running. rewrite Hx, (expired_delete c _ _ _ E), decide_True by done.
        destruct (conn_send_timer x); [lia|]. destruct (m_connected x); [lia|split; [done|lia]].
    + exfalso. refine (proj1 (recv_handler_fails _ c w _) (ex_intro _ _ H)). intros x Hx. by destruct (conn_parts s c x HI Hx).
    + injection H as <- <-. apply evolves_same; [done|]. intros d. cbn. by rewrite (expired_delete d _ _ _ E), decide_False, Nat.add_0_r.
    + destruct w; [|exfalso; refine (proj2 (recv_handler_fails _ c ConnectWait _) (ex_intro _ _ H)); intros x Hx; by destruct (conn_parts s c x HI Hx)].
      injection H as <- <-. apply evolves_same; [done|]. intros d. cbn. by rewrite (expired_delete d _ _ _ E), decide_False, Nat.add_0_r.
  - destruct (interface_endpoint e) as [ep|] eqn:Hep; [|unfold connect, SocketEndpoint_copy in H; by rewrite Hep in H].
    destruct (inv_udp s HI) as (ix & Hix & _). rewrite (connect_run s e ep cb HI Hep) in H. erewrite connect_result in H by done.
    injection H as <- <-. eapply (evolves_new s); [done|reflexivity| |done]. intros d. cbn [tasks]. by rewrite expired_app, expired_one, Nat.add_0_r.
  - case_bool_decide as Hh; [|injection H as <- <-; by apply evolves_same]. destruct (inv_held s HI c Hh) as [x Hx].
    destruct (conn_parts s c x HI Hx) as (_ & (ix & Hix & _) & _). erewrite send_run in H by done. injection H as <- <-.
    apply evolves_same; [done|]. intros d'. cbn [set_tasks tasks]. by rewrite expired_app, expired_one, Nat.add_0_r.
  - injection H as <- <-. by apply evolves_same.
  - destruct (setReceiveCallback_run s cb HI) as (x & _ & E). rewrite E in H. injection H as <- <-. apply evolves_same; [done|].
    intros d. cbn [set_tasks set_ifaces tasks]. by rewrite expired_app, expired_one, Nat.add_0_r.
  - destruct (setDisconnectCallback_run s cb HI) as (x & _ & E). rewrite E in H. injection H as <- <-. by apply evolves_same.
Qed.

Lemma io_step_evolves cfg ev s s' es : Inv s → Waits s → io_step cfg ev s = Ret (tt, s', es) → evolves s s'.
Proof.
  intros HI Hw ([] & s1 & e1 & e2 & H1 & H2 & ->)%M_bind_Ret. apply event_evolves in H1; [|done..].
  destruct (collect_ind (λ s', conns s' ⊆ conns s1 ∧ ∀ c, expired c (tasks s') = expired c (tasks s1)) s1 s' e2) as [Hc Ht]; [|done|done|].
  - intros s2 c [Hc Ht] _. unfold destroy. destruct (conns s2 !! c) as [x|]; [|done]. split.
    + etransitivity; [apply fin_maps.delete_subseteq|done].
    + intros d. cbn [set_conns set_tasks tasks]. rewrite !expired_app, Ht. destruct (expired_aborted d c x). lia.
  - by eapply evolves_fewer.
Qed.

Lemma io_run_Waits cfg evs x s es : io_run cfg evs (Socket_new x) = Ret (tt, s, es) → Inv s ∧ Waits s.
Proof.
  unfold io_run. erewrite run_bind by apply registerInterface_run. rewrite after_nil.
  generalize (Inv_start x). set (s0 := mkSocket _ _ _ _ _ _ _). assert (Waits s0) as Hw by (intros c y Hy; done).
  clearbody s0. revert s0 es Hw. induction evs as [|ev evs IH]; intros s0 es Hw HI H; [by injection H as <- <-|].
  cbn [forM] in H. apply M_bind_Ret in H as ([] & s1 & e1 & e2 & H1 & H2 & ->).
  pose proof (io_step_safe cfg ev s0 HI) as Hs. rewrite H1 in Hs. destruct Hs as [HI1 _].
  eapply IH; [|done|done]. eapply evolves_Waits; [exact Hw|]. by eapply io_step_evolves.
Qed.
(** Collecting takes back no task. *)
Lemma collect_tasks s s' es t : collect s = Ret (tt, s', es) → t ∈ tasks s → t ∈ tasks s'.
Proof.
  intros H Ht. apply (collect_ind (λ s', t ∈ tasks s') s s' es); [|done|done].
  intros s1 c Ht1 _. unfold destroy. destruct (conns s1 !! c) as [x|]; [|done]. cbn. apply elem_of_app. by left.
Qed.
Lemma recv_timer_posts cfg s c x w : conns s !! c = Some x → conn_receive_timeout x = Some w →
  ∃ s', io_step cfg (RecvTimer c) s = Ret (tt, s', []) ∧ ExpiredRecv c w ∈ tasks s'.
Proof.
  intros Hx Hw. unfold io_step. erewrite run_bind by (by apply recv_timer_run). rewrite after_nil, collect_run.
  eexists. split; [done|]. eapply collect_tasks; [apply collect_run|]. cbn. apply elem_of_app. right. by apply list_elem_of_singleton.
Qed.
End Transport.

(** ** Properties *)

(** C9 The connections of the transport socket are consistent at every moment:
    after any sequence of datagrams, timer expiries, handlers, completions and
    client calls, the connection registered under an endpoint's text is the one
    connected connection with that endpoint and conversely, every connected
    connection has exactly one keep-alive wait (a running timer, or an expiry
    whose handler has not run yet) and any other at most one, and every
    connection a client still holds is alive.  A disconnected connection stays
    so, with the wait it has; and a disconnect leaves it a wait, and so further
    keep-alives, exactly when the timer had expired before. *)
Theorem transport_connections {NL : NetLib} {P : PTree} (cfg : ConfigManager) (iface : UDPInterface)
    (evs : list event) (s : Socket) (es : list effect)
    (H : io_run cfg evs (Socket_new iface) = Ret (tt, s, es)) :
  (∀ t c, connections s !! t = Some c ↔
     ∃ x, conns s !! c = Some x ∧ ip_toString (endpoint x) = t ∧ m_connected x = true) ∧
  (∀ c x, conns s !! c = Some x →
     keepalive_waits s c ≤ 1 ∧ (m_connected x = true → keepalive_waits s c = 1)) ∧
  (∀ c, c ∈ held s → is_Some (conns s !! c)) ∧
  (∀ ev s' es' c x x', io_step cfg ev s = Ret (tt, s', es') → conns s !! c = Some x → conns s' !! c = Some x' →
     (m_connected x = false → m_connected x' = false ∧ keepalive_waits s' c = keepalive_waits s c) ∧
     (m_connected x = true → m_connected x' = false → keepalive_waits s' c = 1 ↔ ExpiredSend c ∈ tasks s)).
Proof.
  destruct (io_run_Waits cfg evs iface s es H) as [HI Hw]. split; [|split; [exact Hw|split; [by apply inv_held|]]].
  - intros t c. split.
    + intros Hc. destruct (inv_registered s HI t c Hc) as (x & Hx & Ex).
      destruct (conn_parts s c x HI Hx) as (_ & _ & Hm & _). exists x. split; [done|]. split; [done|].
      apply Hm. by rewrite Ex.
    + intros (x & Hx & <- & Hm). by apply (conn_parts s c x HI Hx).
  - intros ev s' es' c x x' Hstep Hx Hx'. pose proof (io_step_evolves cfg ev s s' es' HI Hw Hstep c x' Hx') as He.
    rewrite Hx in He. destruct (Hw c x Hx) as [Hle _]. split; [intros E; by rewrite E in He|].
    intros E E'. rewrite E, E' in He. rewrite He, expired_in. unfold keepalive_waits in Hle. lia.
Qed.

(** Outgoing UDP connections never complete: however the io service
    schedules the work, no connect callback is ever called; the timeout of a
    pending outgoing connection posts a handler that throws
    [bad_function_call] (the callback is not stored) or, once the connection is
    destroyed, uses a freed object, as the aborted wait of a destroyed one
    does. *)
Theorem outgoing_connect_never_completes {NL : NetLib} {P : PTree} (cfg : ConfigManager) (iface : UDPInterface)
    (evs : list event) (s : Socket) (es : list effect)
    (H : io_run cfg evs (Socket_new iface) = Ret (tt, s, es)) :
  (∀ k error c, CallConnect k error c ∉ es) ∧
  (∀ c x, conns s !! c = Some x → conn_receive_timeout x = Some ConnectWait →
     m_connected x = false ∧
     ∃ s', io_step cfg (RecvTimer c) s = Ret (tt, s', []) ∧ ExpiredRecv c ConnectWait ∈ tasks s') ∧
  (∀ n c, tasks s !! n = Some (ExpiredRecv c ConnectWait) →
     io_step cfg (Waited n) s =
       match conns s !! c with Some _ => Throw bad_function_call | None => Undef use_after_free end) ∧
  (∀ n c, tasks s !! n = Some (AbortedRecv c ConnectWait) →
     io_step cfg (Waited n) s = Undef use_after_free).
Proof.
  pose proof (io_run_safe cfg evs iface) as HI. rewrite H in HI. destruct HI as [HI He].
  split; [|split; [|split]].
  - intros k error c Hin. rewrite Forall_forall in He. by apply He in Hin.
  - intros c x Hx Hw. destruct (conn_parts s c x HI Hx) as (_ & _ & _ & Hm). split; [auto|]. by eapply recv_timer_posts.
  - intros n c Hn. by eapply connect_timeout_fails.
  - intros n c Hn. by eapply connect_aborted_freed.
Qed.

(** C36 With both callbacks set, an event of the transport returns to the io
    service exactly when it is none of five: the handler of an inactivity
    timeout (it reads a dead local variable, or an unset callback), the aborted
    handler of an outgoing connection, the handler of a keep-alive timer that
    expired before its connection was destroyed, the completion of a send with
    an empty callback, and a connect to an empty endpoint. *)
Theorem transport_failures {NL : NetLib} {P : PTree} (cfg : ConfigManager) (iface : UDPInterface)
    (evs : list event) (s : Socket) (es : list effect) (b : bool) (ev : event)
    (H : io_run cfg evs (Socket_new iface) = Ret (tt, s, es)) (Hcb : callbacks_set s)
    (Hb : getValue as_bool cfg "transport.udp.outgoing_only" = Ret b) :
  returns (io_step cfg ev s) ↔ ¬ fails s ev.
Proof.
  pose proof (io_run_safe cfg evs iface) as HI. rewrite H in HI. destruct HI as [HI _]. split.
  - intros Hr Hf. exact (io_step_fails cfg ev s (run_event_fails cfg ev s HI Hf) Hr).
  - intros Hf. destruct (run_event_returns cfg ev s b HI Hcb Hb Hf) as (s1 & e1 & E). by eapply io_step_returns.
Qed.

(** C30 What a datagram does, by branch, in every reachable state with a
    pending receive: from a connected peer a keep-alive re-arms the inactivity
    timeout with the time configured for its interface, a disconnect reports
    [connection_reset] once, stops both timers and unregisters the peer,
    anything else reaches the receive callback unchanged; from an
    unknown peer a connect request is answered with a keep-alive and
    registered, unless only outgoing connections are allowed, and anything
    else is dropped; in every case the next receive is started. *)
Theorem udp_receive {NL : NetLib} {P : PTree} (cfg : ConfigManager) (iface : UDPInterface)
    (evs : list event) (s : Socket) (es : list effect) (i error p : Z) (a : address) (m : bytes)
    (x : UDPInterface) (b : bool)
    (H : io_run cfg evs (Socket_new iface) = Ret (tt, s, es)) (Hi : ifaces s !! i = Some x)
    (Hr : Receive i ∈ tasks s) (Hb : getValue as_bool cfg "transport.udp.outgoing_only" = Ret b) :
  let e := UDPInterfaceEndpoint_of a p in
  let runs es Q := ∃ s', run_event cfg (Datagram i error m a p) s = Ret (tt, s', es) ∧
                         Receive i ∈ tasks s' ∧ (Q s' : Prop) in
  (∀ c xc jx, getConnection s e = Some c → m = UDP_KEEPALIVE_MSG →
     conns s !! c = Some xc → ifaces s !! parent_interface xc = Some jx →
     runs [RecvTimerArmed c (inactivity_timeout jx) KeepaliveWait] (λ s', getConnection s' e = Some c ∧
       ∃ xc', conns s' !! c = Some xc' ∧ conn_receive_timeout xc' = Some KeepaliveWait ∧ m_connected xc' = true)) ∧
  (∀ c xc jx k, getConnection s e = Some c → m = UDP_DISCONNECT_MSG →
     conns s !! c = Some xc → ifaces s !! parent_interface xc = Some jx → disconnect_callback jx = Some k →
     runs [CallDisconnect k (Errors.error_code Errors.connection_reset) c] (λ s', getConnection s' e = None ∧
       ∃ xc', conns s' !! c = Some xc' ∧ conn_send_timer xc' = false ∧ conn_receive_timeout xc' = None ∧ m_connected xc' = false)) ∧
  (∀ c k, getConnection s e = Some c → m ≠ UDP_KEEPALIVE_MSG → m ≠ UDP_DISCONNECT_MSG →
     receive_callback x = Some k →
     runs [CallReceive k error c m] (λ s', getConnection s' e = Some c)) ∧
  (getConnection s e = None → m = UDP_CONNECT_MSG → b = false →
     runs [SendTo i a p UDP_KEEPALIVE_MSG; SendTimerArmed (next_id s) (keepalive_timer x)]
       (λ s', getConnection s' e = Some (next_id s))) ∧
  (getConnection s e = None → m ≠ UDP_CONNECT_MSG ∨ b = true →
     runs [] (λ s', connections s' = connections s ∧ conns s' = conns s)).
Proof.
  pose proof (io_run_safe cfg evs iface) as HI0. rewrite H in HI0. destruct HI0 as [HI0 _].
  pose proof (Inv_fewer_tasks s (erase_first (Receive i)) HI0 (erase_first_subseteq _ _)) as HI.
  destruct (inv_tasks s HI0 _ Hr) as (x' & Hx' & Hp). assert (x' = x) as -> by congruence.
  intros e runs. unfold runs, run_event. clear runs.
  rewrite run_get, (bool_decide_true _ Hr). cbn [bool_decide]. rewrite run_modify. unfold handleReceive.
  rewrite (run_iface_at _ x) by done. rewrite Hp, run_skip, run_get.
  change (getConnection (set_tasks _ s)) with (getConnection s). fold e.
  split; [|split; [|split; [|split]]].
  - intros c xc jx Hc -> Hxc Hj. rewrite Hc. eexists.
    rewrite decide_True by done. erewrite run_bind by (by eapply receivedKeepAlive_run).
    split; [done|]. split; [simpl; apply elem_of_app; right; by apply list_elem_of_singleton|]. split; [done|].
    eexists. split; [apply lookup_insert_eq|done].
  - intros c xc jx k Hc -> Hxc Hj Hk. rewrite Hc. destruct (conn_parts s c xc HI0 Hxc) as (_ & (jx' & Hj' & Hjp) & _).
    assert (jx' = jx) as -> by congruence. eexists. rewrite decide_False, decide_True by done.
    erewrite run_bind by (by eapply receivedDisconnect_run).
    split; [done|]. split; [simpl; apply elem_of_app; right; by apply list_elem_of_singleton|].
    destruct (inv_registered s HI0 _ c Hc) as (y & Hy & Ey). assert (y = xc) as -> by congruence.
    unfold getConnection. simpl. rewrite Ey, lookup_delete_eq. split; [done|]. eexists. split; [apply lookup_insert_eq|done].
  - intros c k Hc Hm1 Hm2 Hk. rewrite Hc, Hk. rewrite !decide_False by done.
    eexists. erewrite run_bind by apply call_run.
    split; [done|]. split; [|done]. simpl. apply elem_of_app. right. by apply list_elem_of_singleton.
  - intros Hc -> ->. rewrite Hc, Hb. rewrite decide_True by done. eexists.
    rewrite run_assoc, run_lift. erewrite run_bind by (by eapply accept_run).
    split; [done|]. split; [simpl; apply elem_of_app; right; by apply list_elem_of_singleton|].
    unfold getConnection. simpl. by rewrite lookup_insert_eq.
  - intros Hc Hor. rewrite Hc.
    exists (set_tasks (λ ts, ts ++ [Receive i]) (set_tasks (erase_first (Receive i)) s)). split; [|split; [|by split]].
    + destruct Hor as [Hm| ->]; [rewrite decide_False by done; by rewrite run_skip|].
      case_decide; [|by rewrite run_skip]. rewrite Hb, run_assoc, run_lift. by rewrite run_skip.
    + simpl. apply elem_of_app. right. by apply list_elem_of_singleton.
Qed.

(** Two runs of the socket: a peer connects; a client connects to a peer. *)
Module Demo.
#[local] Existing Instance ToyNet.toy_NetLib.
Definition cfg : ConfigManager := ConfigManager_new (mkEnv None (Some "/home/u") "" 1000) (λ _, None).
Definition iface : UDPInterface (NL:=ToyNet.toy_NetLib) :=
  mkUDPInterface (NL:=ToyNet.toy_NetLib) 1438 3 30 (0%N, 2185%Z) ∅ None None false.
Definition accepted : list (event (NL:=ToyNet.toy_NetLib)) :=
  [ClientReceiveCallback (Some 1%Z); ClientDisconnectCallback (Some 2%Z);
   Datagram (NL:=ToyNet.toy_NetLib) 0 0 UDP_CONNECT_MSG 7%N 99].
Definition connecting : list (event (NL:=ToyNet.toy_NetLib)) :=
  [ClientConnect (mkSocketEndpoint (Some (ToyNet.toy_endpoint 7 99))) (Some 5%Z)].
Definition result evs := io_run (NL:=ToyNet.toy_NetLib) cfg evs (Socket_new iface).
Definition state evs : Socket (NL:=ToyNet.toy_NetLib) :=
  match result evs with Ret (_, s, _) => s | _ => Socket_new iface end.
Definition effects evs : list (effect (NL:=ToyNet.toy_NetLib)) :=
  match result evs with Ret (_, _, es) => es | _ => [] end.

Lemma result_ok evs :
  match result evs with Ret _ => true | _ => false end = true →
  io_run cfg evs (Socket_new iface) = Ret (tt, state evs, effects evs).
Proof.
  intros Hb. unfold state, effects. fold (result evs).
  destruct (result evs) as [[[[] s] es]| | | |]; [reflexivity|discriminate Hb..].
Defined.

Lemma lookup_ok {A} (m : gmap Z A) k (d : A) : bool_decide (is_Some (m !! k)) = true → m !! k = Some (default d (m !! k)).
Proof. by destruct (m !! k). Defined.

Lemma callbacks_ok (s : Socket (NL:=ToyNet.toy_NetLib)) :
  bool_decide (map_Forall (λ _ x, is_Some (receive_callback x) ∧ is_Some (disconnect_callback x)) (ifaces s)) = true →
  callbacks_set s.
Proof. intros H. by apply bool_decide_eq_true in H. Defined.
End Demo.

Lemma transport_connections_witness :
  ∃ c, connections (Demo.state Demo.accepted) !! ip_toString (ToyNet.toy_endpoint 7 99) = Some c ∧
    ∃ x, conns (Demo.state Demo.accepted) !! c = Some x ∧ m_connected x = true.
Proof.
  exists 1%Z. assert (connections (Demo.state Demo.accepted) !! ip_toString (ToyNet.toy_endpoint 7 99) = Some 1%Z) as Hc
    by (vm_compute; reflexivity).
  split; [exact Hc|].
  assert (match Demo.result Demo.accepted with Ret _ => true | _ => false end = true) as Hr by (vm_compute; reflexivity).
  destruct (proj1 (proj1 (transport_connections Demo.cfg Demo.iface _ _ _ (Demo.result_ok Demo.accepted Hr))
    _ 1%Z) Hc) as (x & Hx & _ & Hm).
  exists x. split; assumption.
Defined.

Lemma outgoing_connect_never_completes_witness :
  ∃ s', io_step Demo.cfg (RecvTimer 1) (Demo.state Demo.connecting) = Ret (tt, s', []) ∧ ExpiredRecv 1 ConnectWait ∈ tasks s'.
Proof.
  assert (match Demo.result Demo.connecting with Ret _ => true | _ => false end = true) as Hr by (vm_compute; reflexivity).
  assert (conns (Demo.state Demo.connecting) !! 1%Z = Some (default
    (mkUDPConnection (ToyNet.toy_endpoint 7 99) 0 None false false None) (conns (Demo.state Demo.connecting) !! 1%Z))) as Hc
    by (apply Demo.lookup_ok; vm_compute; reflexivity).
  refine (proj2 (proj1 (proj2 (outgoing_connect_never_completes Demo.cfg Demo.iface _ _ _
    (Demo.result_ok Demo.connecting Hr))) 1%Z _ Hc _)).
  vm_compute. reflexivity.
Defined.

Lemma transport_failures_witness :
  returns (io_step Demo.cfg (SendTimer 1) (Demo.state Demo.accepted)).
Proof.
  assert (match Demo.result Demo.accepted with Ret _ => true | _ => false end = true) as Hr by (vm_compute; reflexivity).
  refine (proj2 (transport_failures Demo.cfg Demo.iface _ _ _ false (SendTimer 1)
    (Demo.result_ok Demo.accepted Hr) _ _) (λ f, f)).
  - apply Demo.callbacks_ok. vm_compute. reflexivity.
  - vm_compute. reflexivity.
Defined.

Lemma udp_receive_witness :
  ∃ s', run_event Demo.cfg (Datagram (NL:=ToyNet.toy_NetLib) 0 0 (cstr "hello") 7%N 99) (Demo.state Demo.accepted) =
          Ret (tt, s', [CallReceive 1 0 1 (cstr "hello")]).
Proof.
  assert (match Demo.result Demo.accepted with Ret _ => true | _ => false end = true) as Hr by (vm_compute; reflexivity).
  assert (ifaces (Demo.state Demo.accepted) !! 0%Z =
          Some (default Demo.iface (ifaces (Demo.state Demo.accepted) !! 0%Z))) as Hi
    by (apply Demo.lookup_ok; vm_compute; reflexivity).
  destruct (proj1 (proj2 (proj2 (udp_receive (NL:=ToyNet.toy_NetLib) Demo.cfg Demo.iface _ _ _ 0 0 99 7%N (cstr "hello") _ false
    (Demo.result_ok Demo.accepted Hr) Hi ltac:(apply (bool_decide_unpack (Receive 0 ∈ tasks (Demo.state Demo.accepted))); vm_compute; exact I)
    ltac:(vm_compute; reflexivity)))) 1%Z 1%Z) as (s' & Hs & _).
  - vm_compute. reflexivity.
  - vm_compute. discriminate.
  - vm_compute. discriminate.
  - vm_compute. reflexivity.
  - exists s'. exact Hs.
Defined.
