(* ===== verification/Peers.v ===== *)
(** * Peers on a network

    Several transport sockets ([daemon/transport/]) joined by a network that may
    lose, duplicate, delay and reorder datagrams but does not make them up.
    Each peer runs the handlers of its io service; what it sends becomes
    available for delivery to the peer with the destination's address. *)

From S2P Require Import Prelude Common Config Endpoint Transport.
From Stdlib Require Import ZArith Lia.

(** ** What one event can register, send and deliver *)

Section Events.
Context {NL : NetLib} {P : PTree}.

(** Effects of events that neither deliver a message nor send anything but a
    keep-alive. *)
Definition ordinary (e : effect) : Prop :=
  match e with SendTo _ _ _ d => d = UDP_KEEPALIVE_MSG | CallReceive _ _ _ _ => False | _ => True end.

(** [m] leaves the registered connections alone, with ordinary effects. *)
Definition still {A} (m : M Socket effect A) : Prop :=
  ∀ s a s' es, m s = Ret (a, s', es) → connections s' = connections s ∧ Forall ordinary es.

Lemma still_bind {A B} (m : M Socket effect A) (f : A → M Socket effect B) : still m → (∀ a, still (f a)) → still (m ≫= f).
Proof.
  intros Hm Hf s b s' es (a & s1 & e1 & e2 & H1 & H2 & ->)%M_bind_Ret. apply Hm in H1 as [C1 E1]. apply Hf in H2 as [C2 E2].
  split; [congruence|by apply Forall_app].
Qed.
Lemma still_pure {A} (m : M Socket effect A) : (∀ s a s' es, m s = Ret (a, s', es) → connections s' = connections s ∧ es = []) → still m.
Proof. intros Hm s a s' es H. destruct (Hm s a s' es H) as [? ->]. split; [done|constructor]. Qed.
Lemma still_get : still get.
Proof. apply still_pure. by intros s a s' es [= <- <- <-]. Qed.
Lemma still_skip : still skip.
Proof. apply still_pure. by intros s a s' es [= <- <- <-]. Qed.
Lemma still_ret {A} (a : A) : still (mret a).
Proof. apply still_pure. by intros s b s' es [= <- <- <-]. Qed.
Lemma still_lift {A} (o : outcome A) : still (lift o).
Proof. apply still_pure. intros s a s' es H. unfold lift in H. by apply bind_Ret in H as (? & _ & [= _ <- <-]). Qed.
Lemma still_modify f : (∀ s, connections (f s) = connections s) → still (modify f).
Proof. intros Hf. apply still_pure. intros s a s' es [= _ <- <-]. by split. Qed.
Lemma still_emit e : ordinary e → still (emit e).
Proof. intros He s a s' es [= _ <- <-]. split; [done|by repeat constructor]. Qed.
Lemma still_forM {A} (l : list A) f : (∀ x, still (f x)) → still (forM l f).
Proof. intros Hf. induction l as [|x l IH]; cbn [forM]; [apply still_skip|]. by apply still_bind. Qed.
Lemma still_new_connection e i : still (new_connection e i).
Proof. apply still_pure. by intros s a s' es [= _ <- <-]. Qed.

Ltac still_step :=
  match goal with
  | |- still (_ ≫= _) => apply still_bind; [|intros ?]
  | |- still get => apply still_get
  | |- still skip => apply still_skip
  | |- still (mret _) => apply still_ret
  | |- still (lift _) => apply still_lift
  | |- still (modify _) => apply still_modify; done
  | |- still (emit _) => apply still_emit; done
  | |- still (if ?b then _ else _) => destruct b
  | |- still (match ?x with _ => _ end) => destruct x
  end.
Ltac stay := repeat still_step.

Lemma still_conn_at c : still (conn_at c).
Proof. unfold conn_at. stay. Qed.
Lemma still_iface_at i : still (iface_at i).
Proof. unfold iface_at. stay. Qed.
Lemma still_update_conn c f : still (update_conn c f).
Proof. unfold update_conn. apply still_bind; [apply still_conn_at|intros x]. stay. Qed.
Lemma still_cancel_send c : still (cancel_send c).
Proof.
  unfold cancel_send, post. apply still_bind; [apply still_conn_at|intros x]. apply still_bind; [stay|intros _; apply still_update_conn].
Qed.
Lemma still_cancel_recv c : still (cancel_recv c).
Proof.
  unfold cancel_recv, post. apply still_bind; [apply still_conn_at|intros x]. apply still_bind; [stay|intros _; apply still_update_conn].
Qed.
Lemma still_call cb f c : (∀ k, ordinary (f k)) → still (call cb f c).
Proof.
  intros Hf. unfold call, give. destruct cb as [k|]; [|apply still_lift]. apply still_bind; [by apply still_emit|intros _]. stay.
Qed.
Lemma still_sendKeepAlive c b : still (sendKeepAlive c b).
Proof.
  unfold sendKeepAlive. destruct b; [apply still_skip|]. unfold send, UDPInterface_send, post, arm_send.
  repeat (apply still_conn_at || apply still_iface_at || apply still_cancel_send || apply still_update_conn || still_step).
Qed.
Lemma still_receivedKeepAlive c : still (receivedKeepAlive c).
Proof.
  unfold receivedKeepAlive, arm_recv.
  repeat (apply still_conn_at || apply still_iface_at || apply still_cancel_recv || apply still_update_conn || still_step).
Qed.
Lemma still_callbacks (f : Z → M Socket effect unit) l : (∀ i, still (f i)) → still (forM l (on_interface f)).
Proof. intros Hf. apply still_forM. intros [i|]; [apply Hf|apply still_lift]. Qed.
Lemma still_update_iface i f : still (update_iface i f).
Proof. unfold update_iface. apply still_bind; [apply still_iface_at|intros x]. stay. Qed.
Lemma still_collect : still collect.
Proof.
  intros s [] s' es H. split; [|injection H as _ <-; constructor].
  apply (collect_ind (λ s', connections s' = connections s) s s' es); [|done|done].
  intros s1 c <- _. unfold destroy. by destruct (conns s1 !! c).
Qed.

(** The text under which a connection to a peer is registered. *)
Abbreviation peer_key a p := (ip_toString (UDPInterfaceEndpoint_of a p)).

(** What a client asked its socket to send. *)
Definition requested (ev : event) (a : address) (p : Z) (d : bytes) : Prop :=
  match ev with
  | ClientConnect e _ => d = UDP_CONNECT_MSG ∧ ∃ ep, interface_endpoint e = Some ep ∧ ip ep = a ∧ port ep = p
  | ClientSend _ d' _ => d' = d
  | _ => False
  end.

Record event_facts (ev : event) (s s' : Socket) (es : list effect) : Prop := {
  ef_registers : ∀ k c, connections s' !! k = Some c → connections s !! k = Some c ∨
    ∃ i error a p, ev = Datagram i error UDP_CONNECT_MSG a p ∧ k = peer_key a p;
  ef_delivers : ∀ k error c m, CallReceive k error c m ∈ es →
    ∃ i a p, ev = Datagram i error m a p ∧ connections s !! peer_key a p = Some c ∧ m ≠ UDP_KEEPALIVE_MSG;
  ef_sends : ∀ i a p d, SendTo i a p d ∈ es → d = UDP_KEEPALIVE_MSG ∨ requested ev a p d;
}.

Lemma facts_ordinary ev s s' es : connections s' ⊆ connections s → Forall ordinary es → event_facts ev s s' es.
Proof.
  rewrite Forall_forall. intros Hc He. constructor.
  - intros k c Hk. left. by eapply lookup_weaken.
  - intros k error c m Hin. by apply He in Hin.
  - intros i a p d Hin. left. by apply He in Hin.
Qed.
Lemma facts_still {A} ev (m : M Socket effect A) s a s' es : still m → m s = Ret (a, s', es) → event_facts ev s s' es.
Proof. intros Hm H. apply Hm in H as [Hc He]. apply facts_ordinary; [by rewrite Hc|done]. Qed.

Lemma facts_same ev s s1 s' es : connections s' = connections s1 → event_facts ev s s1 es → event_facts ev s s' es.
Proof. intros Hc [H1 H2 H3]. constructor; [by rewrite Hc|done|done]. Qed.

(** A datagram; the next receive is started in every case. *)
Lemma facts_datagram cfg i error m a p s s' es : Inv s → live_iface s i →
  handleReceive cfg i error m a p s = Ret (tt, s', es) → event_facts (Datagram i error m a p) s s' es.
Proof.
  intros HI (ix & Hi & Hp) H. unfold handleReceive in H. rewrite (run_iface_at _ ix) in H by done.
  rewrite Hp, run_skip, run_get in H. apply M_bind_Ret in H as ([] & s1 & e1 & e2 & H & [= <- <-] & ->). rewrite app_nil_r.
  apply (facts_same _ _ s1); [done|]. unfold getConnection in H.
  destruct (connections s !! peer_key a p) as [c|] eqn:Hc.
  - case_decide as Hm; [by eapply facts_still; [apply still_receivedKeepAlive|]|]. case_decide as Hm2.
    + destruct (inv_registered s HI _ c Hc) as (x & Hx & Ex). destruct (conn_parts s c x HI Hx) as (_ & (jx & Hj & Hjp) & _).
      destruct (disconnect_callback jx) as [k|] eqn:Hk.
      * erewrite receivedDisconnect_run in H by done. injection H as <- <-. apply facts_ordinary; [apply fin_maps.delete_subseteq|by repeat constructor].
      * unfold receivedDisconnect in H. rewrite (run_conn_at c x), (run_iface_at _ jx), Hk in H by done.
        do 2 (apply M_bind_Ret in H as ([] & ? & ? & ? & _ & H & _)). done.
    + destruct (receive_callback ix) as [k|]; [|done]. rewrite call_run in H. injection H as <- <-. constructor.
      * intros k' c' Hk'. by left.
      * intros k' error' c' m' [= -> -> -> ->]%list_elem_of_singleton. by exists i, a, p.
      * by intros i' a' p' d Hin%list_elem_of_singleton.
  - case_decide as Hm; [subst m|by eapply facts_still; [apply still_skip|]].
    apply M_bind_Ret in H as (b & s2 & e3 & e4 & H2 & H & ->). unfold lift in H2. apply bind_Ret in H2 as (b' & _ & [= <- <- <-]).
    destruct b'; [injection H as <- <-; by apply facts_ordinary|]. erewrite accept_run in H by done. injection H as <- <-. constructor.
    + intros k c. cbn [Transport.connections]. rewrite lookup_insert_Some. intros [[<- _]|[_ Hk]]; [right; by eexists _, _, _, _|by left].
    + intros k error' c m Hin. cbn [app] in Hin. set_solver.
    + intros i' a' p' d Hin. left. cbn [app] in Hin. rewrite !elem_of_cons in Hin. by destruct Hin as [[= _ _ _ ->]|[?|?%elem_of_nil]].
Qed.

Lemma facts_event cfg ev s s' es : Inv s → run_event cfg ev s = Ret (tt, s', es) → event_facts ev s s' es.
Proof.
  intros HI H. unfold run_event in H. rewrite run_get in H.
  destruct ev as [i error m a p|n error tr|c|c|n|e cb|c d cb|c|cb|cb].
  - case_bool_decide as Hr; [|by eapply facts_still; [apply still_skip|]]. rewrite run_modify in H.
    pose proof (Inv_fewer_tasks s (erase_first (Receive i)) HI (erase_first_subseteq _ _)) as HI'.
    destruct (facts_datagram cfg i error m a p _ s' es HI' (inv_tasks s HI _ Hr) H) as [H1 H2 H3]. by constructor.
  - destruct (tasks s !! n) as [[i|i c d cb|c|c w|c|c w]|]; try (by eapply facts_still; [apply still_skip|]).
    rewrite run_modify in H. unfold handleSend in H. apply still_call in H as [Hc He]; [|done]. apply facts_ordinary; [by rewrite Hc|done].
  - destruct (conns s !! c) as [x|]; [|by eapply facts_still; [apply still_skip|]].
    destruct (conn_send_timer x); [|by eapply facts_still; [apply still_skip|]].
    eapply facts_still; [|exact H]. apply still_bind; [apply still_update_conn|intros _; by apply still_modify].
  - destruct (conns s !! c) as [x|]; [|by eapply facts_still; [apply still_skip|]].
    destruct (conn_receive_timeout x) as [w|]; [|by eapply facts_still; [apply still_skip|]].
    eapply facts_still; [|exact H]. apply still_bind; [apply still_update_conn|intros _; by apply still_modify].
  - assert (∀ c y, conns (set_tasks (delete n) s) !! c = Some y → connecting_callback y = None) as Hcb
      by (intros c y Hy; by destruct (conn_parts s c y HI Hy) as [? _]).
    destruct (tasks s !! n) as [[i|i c d cb|c|c w|c|c w]|]; try (by eapply facts_still; [apply still_skip|]); rewrite run_modify in H.
    + apply still_sendKeepAlive in H as [Hc He]. apply facts_ordinary; [by rewrite Hc|done].
    + exfalso. exact (proj1 (recv_handler_fails _ c w (Hcb c)) (ex_intro _ _ H)).
    + apply still_sendKeepAlive in H as [Hc He]. apply facts_ordinary; [by rewrite Hc|done].
    + destruct w; [injection H as <- <-; by apply facts_ordinary|]. exfalso.
      exact (proj2 (recv_handler_fails _ c ConnectWait (Hcb c)) (ex_intro _ _ H)).
  - destruct (interface_endpoint e) as [ep|] eqn:Hep; [|unfold connect, SocketEndpoint_copy in H; by rewrite Hep in H].
    destruct (inv_udp s HI) as (ix & Hix & _). rewrite (connect_run s e ep cb HI Hep) in H. erewrite connect_result in H by done.
    injection H as <- <-. constructor.
    + intros k c Hk. by left.
    + intros k error c m Hin. rewrite !elem_of_cons in Hin. by destruct Hin as [?|[?|?%elem_of_nil]].
    + intros i a p d Hin. right. rewrite !elem_of_cons in Hin. destruct Hin as [?|[[= -> -> -> ->]|?%elem_of_nil]]; [done| |done].
      split; [done|]. by exists ep.
  - case_bool_decide as Hh; [|by eapply facts_still; [apply still_skip|]]. destruct (inv_held s HI c Hh) as [x Hx].
    destruct (conn_parts s c x HI Hx) as (_ & (ix & Hix & _) & _). erewrite send_run in H by done. injection H as <- <-. constructor.
    + intros k c' Hk. by left.
    + by intros k error c' m ?%list_elem_of_singleton.
    + intros i a p d' [= -> -> -> ->]%list_elem_of_singleton. by right.
  - eapply facts_still; [|exact H]. by apply still_modify.
  - eapply facts_still; [|exact H]. apply still_bind; [apply still_get|intros s0]. apply still_callbacks. intros i.
    apply still_bind; [apply still_update_iface|intros _; by apply still_modify].
  - eapply facts_still; [|exact H]. apply still_bind; [apply still_get|intros s0]. apply still_callbacks. intros i. apply still_update_iface.
Qed.

Lemma facts_step cfg ev s s' es : Inv s → io_step cfg ev s = Ret (tt, s', es) → Inv s' ∧ event_facts ev s s' es.
Proof.
  intros HI H. pose proof (io_step_safe cfg ev s HI) as Hs. rewrite H in Hs. split; [apply Hs|].
  apply M_bind_Ret in H as ([] & s1 & e1 & e2 & H1 & H2 & ->). pose proof (still_collect _ _ _ _ H2) as [Hc _].
  injection H2 as _ <-. rewrite app_nil_r. eapply facts_same; [exact Hc|]. by eapply facts_event.
Qed.
End Events.

(** ** The network *)

Section Network.
Context {NL : NetLib} {P : PTree}.
(** The peers' configurations, and the address under which the network knows
    each. *)
Variables (cfg : Z → ConfigManager) (addr : Z → address * Z).
Abbreviation endpoint_of h := (UDPInterfaceEndpoint_of (addr h).1 (addr h).2).

Record datagram := mkDatagram { from : Z; to : address * Z; payload : bytes }.
(** [sent]: everything ever sent; a datagram may be delivered any number of
    times, or never. *)
Record Network := mkNetwork { peers : gmap Z Socket; sent : list datagram }.

Definition sent_by (h : Z) (es : list effect) : list datagram :=
  omap (λ e, match e with SendTo _ a p d => Some (mkDatagram h (a, p) d) | _ => None end) es.
Definition deliverable (n : Network) (h : Z) (ev : event) : Prop :=
  match ev with
  | Datagram _ _ m a p => ∃ g, addr g = (a, p) ∧ mkDatagram g (addr h) m ∈ sent n
  | _ => True
  end.
Inductive step : Network → Z * event * list effect → Network → Prop :=
| peer_step n h s ev s' es : peers n !! h = Some s → deliverable n h ev → io_step (cfg h) ev s = Ret (tt, s', es) →
    step n (h, ev, es) (mkNetwork (<[h := s']> (peers n)) (sent n ++ sent_by h es)).

(** Sockets with their interface registered. *)
Definition Peer_new (x : UDPInterface) : Socket :=
  match registerInterface 0 (Socket_new x) with Ret (_, s, _) => s | _ => Socket_new x end.
Definition Network_new (interfaces : gmap Z UDPInterface) : Network := mkNetwork (Peer_new <$> interfaces) [].

Lemma elem_of_sent_by h es dg : dg ∈ sent_by h es ↔ ∃ i, from dg = h ∧ SendTo i (to dg).1 (to dg).2 (payload dg) ∈ es.
Proof.
  unfold sent_by. rewrite list_elem_of_omap. split.
  - intros (e & He & Hd). destruct e; try done. injection Hd as <-. by eexists.
  - intros (i & <- & Hin). eexists. split; [exact Hin|]. by destruct dg as [? [? ?] ?].
Qed.

(** *** Nothing is made up *)

(** The client of [g] called an operation by which [g] sent [d] to [h]. *)
Definition asked (ls : list (Z * event * list effect)) (g h : Z) (d : bytes) : Prop :=
  ∃ ev es i, (g, ev, es) ∈ ls ∧ SendTo i (addr h).1 (addr h).2 d ∈ es ∧ requested ev (addr h).1 (addr h).2 d.

Variable hosts : gset Z.
Record honest (ls : list (Z * event * list effect)) (n : Network) : Prop := {
  hn_peers : dom (peers n) = hosts;
  hn_inv : ∀ h s, peers n !! h = Some s → Inv s;
  hn_conns : ∀ h s k c, peers n !! h = Some s → connections s !! k = Some c →
    ∃ g, k = ip_toString (endpoint_of g) ∧ mkDatagram g (addr h) UDP_CONNECT_MSG ∈ sent n;
  hn_from : ∀ dg, dg ∈ sent n → from dg ∈ hosts;
  hn_sent : ∀ dg, dg ∈ sent n → payload dg = UDP_KEEPALIVE_MSG ∨
    ∃ ev es i, (from dg, ev, es) ∈ ls ∧ SendTo i (to dg).1 (to dg).2 (payload dg) ∈ es ∧ requested ev (to dg).1 (to dg).2 (payload dg);
  hn_delivered : ∀ h ev es k error c m, (h, ev, es) ∈ ls → CallReceive k error c m ∈ es → m ≠ UDP_KEEPALIVE_MSG ∧
    ∃ g g', addr g = addr g' ∧ mkDatagram g (addr h) m ∈ sent n ∧ mkDatagram g' (addr h) UDP_CONNECT_MSG ∈ sent n;
}.

Hypothesis addr_ok : ∀ h, h ∈ hosts → udp_ok (endpoint_of h).
Lemma peer_key_inj g g' : g ∈ hosts → g' ∈ hosts → ip_toString (endpoint_of g) = ip_toString (endpoint_of g') → addr g = addr g'.
Proof. intros Hg Hg' E. apply ip_toString_inj in E; [|by apply addr_ok..]. injection E. destruct (addr g), (addr g'). cbn. congruence. Qed.

Lemma honest_new interfaces : dom interfaces = hosts → honest [] (Network_new interfaces).
Proof.
  intros Hdom. assert (∀ h s, peers (Network_new interfaces) !! h = Some s → Inv s ∧ connections s = ∅) as Hp.
  { intros h s Hs. cbn [Network_new peers] in Hs. rewrite lookup_fmap in Hs. apply fmap_Some in Hs as (x & _ & ->).
    unfold Peer_new. rewrite registerInterface_run. split; [apply Inv_start|done]. }
  constructor.
  - cbn [Network_new peers]. by rewrite dom_fmap_L.
  - intros h s Hs. by destruct (Hp h s Hs).
  - intros h s k c Hs Hk. destruct (Hp h s Hs) as [_ E]. by rewrite E in Hk.
  - intros dg Hd. cbn [Network_new sent] in Hd. by apply elem_of_nil in Hd.
  - intros dg Hd. cbn [Network_new sent] in Hd. by apply elem_of_nil in Hd.
  - intros h ev es k error c m Hin. by apply elem_of_nil in Hin.
Qed.

Lemma honest_step ls n l n' : honest ls n → step n l n' → honest (ls ++ [l]) n'.
Proof.
  intros [Hpeers Hi Hc Hf Hs Hd] Hst. destruct Hst as [n h s ev s' es Hh Hdel H].
  destruct (facts_step (cfg h) ev s s' es (Hi h s Hh) H) as [HI' [F1 F2 F3]].
  apply elem_of_dom_2 in Hh as Hhost. constructor; cbn [peers sent].
  - rewrite dom_insert_L. set_solver.
  - intros h' s1. rewrite lookup_insert_Some. intros [[<- <-]|[_ H1]]; [done|by eapply Hi].
  - intros h' s1 k c. rewrite lookup_insert_Some. intros [[<- <-]|[_ H1]] Hk.
    + apply F1 in Hk as [Hk|(i & error & a & p & -> & ->)].
      * destruct (Hc h s k c Hh Hk) as (g & ? & ?). exists g. split; [done|]. apply elem_of_app. by left.
      * destruct Hdel as (g & Hg & Hin). exists g. rewrite Hg. split; [done|]. apply elem_of_app. by left.
    + destruct (Hc h' s1 k c H1 Hk) as (g & ? & ?). exists g. split; [done|]. apply elem_of_app. by left.
  - intros dg. rewrite elem_of_app, elem_of_sent_by. intros [Hin|(i & -> & _)]; [by apply Hf|by rewrite <-Hpeers].
  - intros dg. rewrite elem_of_app, elem_of_sent_by. intros [Hin|(i & Hfrom & Hin)].
    + destruct (Hs dg Hin) as [?|(ev' & es' & i & ? & ?)]; [by left|right]. exists ev', es', i. split; [|done]. apply elem_of_app. by left.
    + destruct (F3 _ _ _ _ Hin) as [?|Hr]; [by left|right]. exists ev, es, i. split; [|done]. rewrite Hfrom. apply elem_of_app. right.
      by apply list_elem_of_singleton.
  - intros h' ev' es' k error c m [Hin|[= -> -> ->]%list_elem_of_singleton]%elem_of_app Hcall.
    + destruct (Hd _ _ _ _ _ _ _ Hin Hcall) as (Hm & g & g' & ? & ? & ?). split; [done|]. exists g, g'. rewrite !elem_of_app. auto.
    + apply F2 in Hcall as (i & a & p & -> & Hk & Hm). split; [done|]. destruct Hdel as (g & Hg & Hgin).
      destruct (Hc h s _ c Hh Hk) as (g' & Hkey & Hin'). exists g, g'. rewrite !elem_of_app. split; [|auto].
      apply peer_key_inj; [by apply (Hf (mkDatagram g (addr h) m))|by apply (Hf (mkDatagram g' (addr h) UDP_CONNECT_MSG))|]. by rewrite Hg.
Qed.
Lemma honest_star ls n ls' n' : honest ls n → star step n ls' n' → honest (ls ++ ls') n'.
Proof.
  intros Hn Hst. revert ls Hn. induction Hst as [n|n1 n2 n3 l ls' H1 _ IH]; intros ls Hn; [by rewrite app_nil_r|].
  rewrite cons_middle, app_assoc. apply IH. by eapply honest_step.
Qed.

(** *** A connect request that arrives *)

Lemma request_accepted c i error a p s : Inv s → Receive i ∈ tasks s → getConnection s (UDPInterfaceEndpoint_of a p) = None →
  getValue as_bool c "transport.udp.outgoing_only" = Ret false →
  ∃ s' es k x, io_step c (Datagram i error UDP_CONNECT_MSG a p) s = Ret (tt, s', es) ∧
    getConnection s' (UDPInterfaceEndpoint_of a p) = Some k ∧ conns s' !! k = Some x ∧ connected x = true ∧
    SendTo i a p UDP_KEEPALIVE_MSG ∈ es.
Proof.
  intros HI Hr Hn Hcfg. destruct (inv_tasks s HI _ Hr) as (ix & Hix & Hp).
  pose proof (Inv_fewer_tasks s (erase_first (Receive i)) HI (erase_first_subseteq _ _)) as HI'.
  assert (∃ s1, run_event c (Datagram i error UDP_CONNECT_MSG a p) s =
      Ret (tt, s1, [SendTo i a p UDP_KEEPALIVE_MSG; SendTimerArmed (next_id s) (keepalive_timer ix)]) ∧
    connections s1 !! ip_toString (UDPInterfaceEndpoint_of a p) = Some (next_id s)) as (s1 & H1 & Hc1).
  { unfold run_event. rewrite run_get, (bool_decide_true _ Hr), run_modify. unfold handleReceive.
    rewrite (run_iface_at _ ix) by done. rewrite Hp, run_skip, run_get. change (getConnection (set_tasks _ s)) with (getConnection s).
    rewrite Hn, decide_True, Hcfg, run_assoc, run_lift by done. eexists. erewrite run_bind by (by eapply accept_run).
    split; [done|]. cbn. apply lookup_insert_eq. }
  destruct (collect s1) as [[[[] s2] es2]| | | |] eqn:E; try done.
  assert (io_step c (Datagram i error UDP_CONNECT_MSG a p) s =
    Ret (tt, s2, [SendTo i a p UDP_KEEPALIVE_MSG; SendTimerArmed (next_id s) (keepalive_timer ix)] ++ es2)) as H2.
  { unfold io_step. rewrite (run_bind _ _ _ _ _ _ H1), E. done. }
  destruct (facts_step _ _ _ _ _ HI H2) as [HI2 _]. destruct (still_collect _ _ _ _ E) as [Hc2 _]. rewrite <-Hc2 in Hc1.
  destruct (inv_registered s2 HI2 _ _ Hc1) as (x & Hx & Ex). eexists s2, _, (next_id s), x. split; [exact H2|]. split; [done|].
  split; [done|]. destruct (conn_parts s2 _ x HI2 Hx) as (_ & _ & Hm & _). split; [apply Hm; by rewrite Ex|]. by apply elem_of_cons; left.
Qed.
End Network.

(** ** Properties *)

(** C10 Connections between peers are authentic: in a network that may lose,
    duplicate, delay and reorder datagrams, whatever the peers' clients, timers
    and handlers do, a peer has a connection registered for another peer only
    if a call of that peer's client sent it a connect request, and a message is
    given to a client only if a call of the client of one peer sent both it and
    a connect request to this peer.  A request that arrives at a listening peer
    registers a connection and is answered; the answer, like every other
    message, registers none at the requesting peer, so that two peers are
    connected to each other only if both asked. *)
Theorem peers_authentic {NL : NetLib} {P : PTree} (cfg : Z → ConfigManager) (addr : Z → address * Z)
    (interfaces : gmap Z UDPInterface) (ls : list (Z * event * list effect)) (n : Network)
    (Haddr : ∀ h, is_Some (interfaces !! h) → udp_ok (UDPInterfaceEndpoint_of (addr h).1 (addr h).2))
    (Hinj : ∀ g h, is_Some (interfaces !! g) → is_Some (interfaces !! h) → addr g = addr h → g = h)
    (H : star (step cfg addr) (Network_new interfaces) ls n) :
  let endpoint_of g := UDPInterfaceEndpoint_of (addr g).1 (addr g).2 in
  (∀ h s g c, peers n !! h = Some s → is_Some (interfaces !! g) → getConnection s (endpoint_of g) = Some c → asked addr ls g h UDP_CONNECT_MSG) ∧
  (∀ h ev es k error c m, (h, ev, es) ∈ ls → CallReceive k error c m ∈ es →
     ∃ g, asked addr ls g h UDP_CONNECT_MSG ∧ asked addr ls g h m) ∧
  (∀ h s g i error, peers n !! h = Some s → Receive i ∈ tasks s → mkDatagram g (addr h) UDP_CONNECT_MSG ∈ sent n →
     getConnection s (endpoint_of g) = None → getValue as_bool (cfg h) "transport.udp.outgoing_only" = Ret false →
     ∃ es n' s' c x, step cfg addr n (h, Datagram i error UDP_CONNECT_MSG (addr g).1 (addr g).2, es) n' ∧ peers n' !! h = Some s' ∧
       getConnection s' (endpoint_of g) = Some c ∧ conns s' !! c = Some x ∧ connected x = true ∧
       mkDatagram h (addr g) UDP_KEEPALIVE_MSG ∈ sent n') ∧
  (∀ h ev es n' s s', step cfg addr n (h, ev, es) n' → peers n !! h = Some s → peers n' !! h = Some s' →
     (∀ i error a p, ev ≠ Datagram i error UDP_CONNECT_MSG a p) → connections s' ⊆ connections s).
Proof.
  intros endpoint_of. assert (∀ h, h ∈ dom interfaces → udp_ok (endpoint_of h)) as Hok by (intros h Hh; by apply Haddr, elem_of_dom).
  destruct (honest_star cfg addr _ Hok _ _ _ _ (honest_new addr _ interfaces eq_refl) H) as [_ Hi Hc Hf Hs Hd]. cbn [app] in *.
  assert (∀ g h d, mkDatagram g (addr h) d ∈ sent n → is_Some (interfaces !! g)) as Hfrom.
  { intros g h d Hin. apply Hf in Hin. by apply elem_of_dom. }
  assert (∀ g h d, mkDatagram g (addr h) d ∈ sent n → d ≠ UDP_KEEPALIVE_MSG → asked addr ls g h d) as Hask.
  { intros g h d Hin Hne. destruct (Hs _ Hin) as [?|(ev & es & i & ?)]; [done|]. by exists ev, es, i. }
  split; [|split; [|split]].
  - intros h s g c Hh Hgi Hg. destruct (Hc h s _ c Hh Hg) as (g' & Hk & Hin). apply (peer_key_inj addr _ Hok) in Hk;
      [|by apply elem_of_dom|apply elem_of_dom; by eapply Hfrom]. apply Hinj in Hk as <-; [by apply Hask|done|by eapply Hfrom].
  - intros h ev es k error c m Hin Hcall. destruct (Hd _ _ _ _ _ _ _ Hin Hcall) as (Hm & g & g' & E & Hg & Hg').
    apply Hinj in E as <-; [|by eapply Hfrom..]. exists g. split; by apply Hask.
  - intros h s g i error Hh Hr Hin Hn Hcfg.
    destruct (request_accepted (cfg h) i error _ _ s (Hi h s Hh) Hr Hn Hcfg) as (s' & es & k & x & H1 & H2 & H3 & H4 & H5).
    eexists es, _, s', k, x. split; [apply peer_step with s; [done| |exact H1]|].
    + exists g. split; [by destruct (addr g)|done].
    + split; [apply lookup_insert_eq|]. do 3 (split; [done|]). apply elem_of_app. right. apply elem_of_sent_by. by exists i.
  - intros h ev es n' s s' Hst Hh Hh' Hev. inversion Hst as [n0 h0 s0 ev0 s1 es0 Hp _ Hio]; subst. cbn [peers] in Hh'.
    rewrite lookup_insert_eq in Hh'. injection Hh' as <-. assert (s0 = s) as -> by congruence.
    destruct (facts_step _ _ _ _ _ (Hi h s Hh) Hio) as [_ [F1 _ _]]. apply map_subseteq_spec. intros k c Hk.
    destruct (F1 k c Hk) as [?|(i & error & a & p & -> & _)]; [done|]. by destruct (Hev i error a p).
Qed.

(** Peer 2 listens and peer 1 asks for a connection to it. *)
Module PeersDemo.
#[local] Existing Instance ToyNet.toy_NetLib.
Definition addr (h : Z) : address * Z := (Z.to_N h, 99%Z).
Definition cfg (h : Z) : ConfigManager := Transport.Demo.cfg.
Definition interfaces : gmap Z (UDPInterface (NL:=ToyNet.toy_NetLib)) := {[1%Z := Transport.Demo.iface; 2%Z := Transport.Demo.iface]}.
Definition peer : Socket (NL:=ToyNet.toy_NetLib) := Peer_new Transport.Demo.iface.
Definition result (ev : event (NL:=ToyNet.toy_NetLib)) (s : Socket (NL:=ToyNet.toy_NetLib)) :
    Socket (NL:=ToyNet.toy_NetLib) * list (effect (NL:=ToyNet.toy_NetLib)) :=
  match io_step Transport.Demo.cfg ev s with Ret (_, s', es) => (s', es) | _ => (s, []) end.
Definition listen : event (NL:=ToyNet.toy_NetLib) := ClientReceiveCallback (Some 1%Z).
Definition request : event (NL:=ToyNet.toy_NetLib) := ClientConnect (mkSocketEndpoint (Some (ToyNet.toy_endpoint 2 99))) (Some 5%Z).
Definition labels : list (Z * event (NL:=ToyNet.toy_NetLib) * list effect) :=
  [(2%Z, listen, (result listen peer).2); (1%Z, request, (result request peer).2)].
Definition after_event (h : Z) (ev : event) (n : Network (NL:=ToyNet.toy_NetLib)) : Network (NL:=ToyNet.toy_NetLib) :=
  mkNetwork (<[h := (result ev peer).1]> (peers n)) (sent n ++ sent_by h (result ev peer).2).
Definition network : Network (NL:=ToyNet.toy_NetLib) := after_event 1 request (after_event 2 listen (Network_new interfaces)).

Lemma result_step n h ev : peers n !! h = Some peer → match ev with Datagram _ _ _ _ _ => False | _ => True end →
  match io_step Transport.Demo.cfg ev peer with Ret _ => true | _ => false end = true →
  step cfg addr n (h, ev, (result ev peer).2) (after_event h ev n).
Proof.
  intros Hh Hev Hr. apply peer_step with peer; [done|by destruct ev|]. unfold result, cfg.
  by destruct (io_step Transport.Demo.cfg ev peer) as [[[[] s'] es]| | | |].
Qed.
Lemma labels_run : star (step cfg addr) (Network_new interfaces) labels network.
Proof.
  eapply star_cons; [apply (result_step _ 2 listen); [done|done|vm_compute; reflexivity]|].
  apply star_one. apply (result_step _ 1 request); [done|done|vm_compute; reflexivity].
Qed.
Lemma addr_ok h : is_Some (interfaces !! h) → udp_ok (UDPInterfaceEndpoint_of (addr h).1 (addr h).2).
Proof.
  unfold interfaces. rewrite lookup_insert_is_Some, lookup_singleton_is_Some.
  intros [<-|[_ <-]]; (split; [done|split; [|split; [done|vm_compute; reflexivity]]]); apply (bool_decide_unpack _); vm_compute; exact I.
Qed.
Lemma peer2 : peers network !! 2%Z = Some (result listen peer).1.
Proof. unfold network, after_event. cbn [peers]. by rewrite lookup_insert_ne, lookup_insert_eq. Qed.
Lemma peer2_listens : Receive 0 ∈ tasks (result listen peer).1.
Proof. apply list_elem_of_In. vm_compute. by left. Qed.
Definition to_peer2 (e : effect (NL:=ToyNet.toy_NetLib)) : bool :=
  match e with SendTo _ a p d => bool_decide ((a : N) = 2%N) && bool_decide (p = 99%Z) && bool_decide (d = UDP_CONNECT_MSG) | _ => false end.
Lemma to_peer2_sent es : existsb to_peer2 es = true → mkDatagram 1 (addr 2) UDP_CONNECT_MSG ∈ sent_by 1 es.
Proof.
  rewrite existsb_exists. intros (e & Hin & He). destruct e as [i a p d| | | | | |]; try discriminate He. cbn [to_peer2] in He.
  rewrite !andb_true_iff, !bool_decide_eq_true in He. destruct He as [[-> ->] ->].
  apply elem_of_sent_by. exists i. split; [reflexivity|]. by apply list_elem_of_In.
Qed.
Lemma request_to_peer2 : existsb to_peer2 (result request peer).2 = true.
Proof. vm_compute. reflexivity. Qed.
Lemma request_sent : mkDatagram 1 (addr 2) UDP_CONNECT_MSG ∈ sent network.
Proof. unfold network, after_event. cbn [sent]. apply elem_of_app. right. apply to_peer2_sent, request_to_peer2. Qed.
Lemma peer2_free : getConnection (result listen peer).1 (UDPInterfaceEndpoint_of (addr 1).1 (addr 1).2) = None.
Proof. vm_compute. reflexivity. Qed.
Lemma peer2_accepts : getValue as_bool (cfg 2) "transport.udp.outgoing_only" = Ret false.
Proof. vm_compute. reflexivity. Qed.
Lemma addr_inj g h : is_Some (interfaces !! g) → is_Some (interfaces !! h) → addr g = addr h → g = h.
Proof.
  unfold interfaces. rewrite !lookup_insert_is_Some, !lookup_singleton_is_Some.
  intros [<-|[_ <-]] [<-|[_ <-]]; done.
Qed.
End PeersDemo.

(** The request reaches peer 2, which then has a connection to peer 1. *)
Lemma peers_authentic_witness :
  ∃ es n' s' c, step PeersDemo.cfg PeersDemo.addr PeersDemo.network (2%Z, Datagram 0 0 UDP_CONNECT_MSG 1%N 99, es) n' ∧
    peers n' !! 2%Z = Some s' ∧ getConnection s' (UDPInterfaceEndpoint_of 1%N 99) = Some c.
Proof.
  destruct (peers_authentic PeersDemo.cfg PeersDemo.addr PeersDemo.interfaces PeersDemo.labels PeersDemo.network PeersDemo.addr_ok
    PeersDemo.addr_inj PeersDemo.labels_run) as (_ & _ & Hreq & _).
  destruct (Hreq 2%Z _ 1%Z 0%Z 0%Z PeersDemo.peer2 PeersDemo.peer2_listens PeersDemo.request_sent PeersDemo.peer2_free PeersDemo.peer2_accepts)
    as (es & n' & s' & c & _ & H1 & H2 & H3 & _).
  exists es, n', s', c. split; [exact H1|]. split; [exact H2|exact H3].
Defined.
