(* ===== verification/ECDH.v ===== *)
(** * Session keys ([common/crypto/ECDH.h], [ECDH.cpp])

    The Botan key object is a parameter; an [ECDH] holds one or nothing. *)

From S2P Require Import Prelude Crypto.
From Stdlib Require Import ZArith Lia.
From Stdlib.Strings Require Import Byte.

(** [Botan::ECDH_PrivateKey] on secp256r1, [PK_Key_Agreement] with KDF2, and
    PKCS#8; [load_key] may hold a key of another kind. *)
Class ECDHLib := {
  dh_sk : Type;
  dh_of_rng : Z → dh_sk;
  dh_public_value : dh_sk → bytes;
  dh_agree : dh_sk → nat → bytes → bytes → bytes;
  pkcs8_encode : dh_sk → bytes;
  pkcs8_load : bytes → option (option dh_sk);
  dh_agree_law a b n session :
    dh_agree a n (dh_public_value b) session = dh_agree b n (dh_public_value a) session;
  dh_agree_length a n other session : length (dh_agree a n other session) = n;
  pkcs8_law k : pkcs8_load (pkcs8_encode k) = Some (Some k);
}.

Section ECDH.
Context {DH : ECDHLib}.

Definition ECDH : Type := option dh_sk.
Definition ECDH_new : ECDH := None.

(** Copy construction and assignment dereference the other object's key; the
    moves swap. *)
Definition ECDH_copy (r : ECDH) : outcome ECDH :=
  match r with Some k => Ret (Some k) | None => Undef null_deref end.
Definition ECDH_move (this r : ECDH) : ECDH * ECDH := (r, this).

Definition ECDH_isPresent (k : ECDH) : bool := bool_decide (is_Some k).
Definition ECDH_generateKey (rng : Z) : ECDH := Some (dh_of_rng rng).
Definition generateNewKey (rng : Z) : ECDH := ECDH_generateKey rng.

Definition deriveSymmetricKey (k : ECDH) (key_length : nat) (other_pubkey session_param : bytes) : outcome bytes :=
  match k with Some s => Ret (dh_agree s key_length other_pubkey session_param) | None => Undef null_deref end.
Definition ECDH_derivePublicKey (k : ECDH) : outcome bytes :=
  match k with Some s => Ret (dh_public_value s) | None => Undef null_deref end.

#[global] Instance ECDH_MathString : MathString ECDH := {|
  ms_new := ECDH_new;
  setAsBinaryVector _ v := match pkcs8_load v with Some k => Ret k | None => Throw botan_exception end;
  toBinaryVector k := match k with Some s => Ret (pkcs8_encode s) | None => Undef null_deref end;
|}.
(** The constructor from the binary form. *)
Definition ECDH_of (v : bytes) : outcome ECDH := setAsBinaryVector ECDH_new v.

(** The two ends of an exchange, each with the other's public value. *)
Definition session_key (mine : ECDH) (other_pub session : bytes) : outcome AESM.AES :=
  k ← deriveSymmetricKey mine AESM.vectorSize other_pub session;
  fromBinaryVector (T:=AESM.AES) k.
End ECDH.

(** A toy exchange: the shared secret is the same constant block. *)
Module ToyDH.
#[global] Program Instance toy_ECDH : ECDHLib := {|
  dh_sk := bytes;
  dh_of_rng z := [byte_of z];
  dh_public_value k := k;
  dh_agree _ n _ _ := replicate n x01;
  pkcs8_encode k := k;
  pkcs8_load b := Some (Some b);
|}.
Next Obligation. done. Qed.
Next Obligation. intros. apply length_replicate. Qed.
Next Obligation. done. Qed.
End ToyDH.

(** ** Properties *)

(** Two nodes that generate ECDH keys and derive 32 bytes from each other's
    public value obtain the same AES key, and what one encrypts with it the
    other decrypts; an ECDH key survives its binary form, also through the
    constructor that takes it, and an ECDH object
    without key can neither derive, nor be copied or serialised. *)
Theorem session_keys_agree {DH : ECDHLib} {CI : Cipher} (rng1 rng2 : Z) (session data : bytes) :
  let a := generateNewKey rng1 in let b := generateNewKey rng2 in
  (∃ k, (pub ← ECDH_derivePublicKey b; session_key a pub session) = Ret k ∧
        (pub ← ECDH_derivePublicKey a; session_key b pub session) = Ret k ∧
        AESM.decrypt k (AESM.encrypt k data) = Some data) ∧
  (v ← toBinaryString a; fromBinaryString v) = Ret a ∧
  (v ← toBinaryVector a; ECDH_of v) = Ret a ∧
  (∀ n pub, deriveSymmetricKey ECDH_new n pub session = Undef null_deref) ∧
  ECDH_copy ECDH_new = Undef null_deref ∧ toBinaryString ECDH_new = Undef null_deref.
Proof.
  intros a b. split.
  - simpl. unfold session_key. simpl. rewrite dh_agree_law.
    set (v := dh_agree (dh_of_rng rng2) AESM.vectorSize (dh_public_value (dh_of_rng rng1)) session).
    assert (length v = 32) as Hv by apply dh_agree_length.
    destruct (AESM.AES_roundtrip v Hv) as (k & Hk & _). exists k. split; [exact Hk|]. split; [exact Hk|].
    by eapply AESM.AES_decrypt_encrypt.
  - split; [|split; [|by repeat split]].
    + unfold fromBinaryString, setAsBinaryString, toBinaryString. simpl. by rewrite pkcs8_law.
    + unfold ECDH_of. simpl. by rewrite pkcs8_law.
Qed.

Lemma session_keys_agree_witness :
  (v ← toBinaryString (generateNewKey (DH:=ToyDH.toy_ECDH) 3); fromBinaryString v)
    = Ret (generateNewKey (DH:=ToyDH.toy_ECDH) 3).
Proof.
  exact (proj1 (proj2 (session_keys_agree (DH:=ToyDH.toy_ECDH) (CI:=Toy.toy_Cipher) 3 4 [] []))).
Defined.
