(* ===== verification/Overlay.v ===== *)
(** * The overlay: sockets and connections between nodes
    ([daemon/overlay/Socket.cpp], [Connection.cpp], [Processor.h],
    [PayloadParams.h])

    Connections are shared objects on a heap; a connection's destructor only
    sets its own state, so the heap keeps them.  The transport connections are
    seen through their virtual interface: identifiers, with [tconnected] for
    their [connected()].  Log lines are left out. *)

From S2P Require Import Prelude Common Crypto Config ECDH KeyProvider.
Import HashM KeyM.
From Stdlib Require Import ZArith Lia.
From Stdlib.Strings Require Import Byte.

(** ** Messages ([OverlayProtocol.proto], [Handshake.proto]) *)

Record Payload := mkPayload { type : Z; content : bytes }.
Record Header := mkHeader { src_th : bytes; dest_th : option bytes }.
Record Body := mkBody { open_multipayload : list Payload; encrypted_multipayload : bytes }.
Record OverlayMessage := mkMessage { header : Header; body : Body }.

Inductive Stage := INIT | REPLY | PUBKEY_ROTATION | CONNECTION_REQUEST.
Record Handshake := mkHandshake {
  stage : Stage; key_info : KeyInfoPB; ecdh_key : bytes; new_key_signature : bytes }.

(** The generated (de)serialisers. *)
Class OverlayProto := {
  parse_message : bytes → option OverlayMessage;
  serialize_message : OverlayMessage → bytes;
  parse_multipayload : bytes → list Payload;
  serialize_multipayload : list Payload → bytes;
  serialize_signed : KeyInfoPB → bytes → bytes;
  serialize_handshake : Handshake → bytes;
}.

(** [enum class PayloadType]; casting an [uint32] keeps its value. *)
Inductive PayloadType := UNKNOWN | HANDSHAKE | ONION | DHT.
Definition PayloadType_code (t : PayloadType) : Z :=
  match t with UNKNOWN => 255 | HANDSHAKE => 1 | ONION => 2 | DHT => 3 end.

Record Processor := mkProcessor { processor_id : Z; isEncryptionMandatory : bool }.

(** [Connection::State]. *)
Inductive State :=
| CLOSED | SEARCHING_TRANSPORT | FOUND_TRANSPORT | HANDSHAKE_INIT_SENT
| HANDSHAKE_REPLY_SENT | ESTABLISHED | LOST.

#[global] Instance State_eq_dec : EqDecision State.
Proof. solve_decision. Defined.

Section Overlay.
Context {EC : ECDSA} {DG : Digest} {P : PTree} {CI : Cipher} {DH : ECDHLib} {PB : OverlayProto}.

Abbreviation callback := (option Z).

Record Connection := mkConnection {
  state : State;
  node_info : KeyInfo;
  session_ecdh_key : ECDH;
  session_aes_key : AESM.AES;
  transport_connections : list Z;
  connect_callbacks : list (callback * Z);
  callback_timer : option callback;
}.

Definition Connection_new (h : Hash) : Connection :=
  mkConnection CLOSED
    (mkKeyInfo None None (Hash_assign Hash_new h) 0 0)
    ECDH_new AESM.AES_new [] [] None.

Record Socket := mkSocket {
  maximum_connections : Z;
  key_provider : KeyProvider;
  connections : gmap bytes Z;
  processors : list (Z * Processor);
  heap : gmap Z Connection;
  next_id : Z;
}.

Inductive effect :=
| TransportSend (t : Z) (data : bytes) (conn : Z) (cb : callback)
| CallSend (k : Z) (error : Z) (conn : Z) (message : bytes) (n : Z)
| PostSend (cb : callback) (error : Z) (conn : Z)
| CallConnect (k : Z) (error : Z) (conn : Z)
| ArmTimer (conn : Z) (at_time : Z)
| CallProcessor (p : Z) (conn : Z) (h : Header) (pl : Payload).

Abbreviation OM := (M Socket effect).

(** ** State accessors *)

Definition set_heap (f : gmap Z Connection → gmap Z Connection) (s : Socket) : Socket :=
  mkSocket (maximum_connections s) (key_provider s) (connections s) (processors s) (f (heap s)) (next_id s).
Definition set_registered (f : gmap bytes Z → gmap bytes Z) (s : Socket) : Socket :=
  mkSocket (maximum_connections s) (key_provider s) (f (connections s)) (processors s) (heap s) (next_id s).

Definition conn_at (c : Z) : OM Connection :=
  s ← get; lift (match heap s !! c with Some x => Ret x | None => Undef use_after_free end).
Definition update (c : Z) (f : Connection → Connection) : OM unit :=
  x ← conn_at c; modify (set_heap (<[c := f x]>)).

Definition with_state (st : State) (x : Connection) : Connection :=
  mkConnection st (node_info x) (session_ecdh_key x) (session_aes_key x)
    (transport_connections x) (connect_callbacks x) (callback_timer x).
Definition with_node_info (ki : KeyInfo) (x : Connection) : Connection :=
  mkConnection (state x) ki (session_ecdh_key x) (session_aes_key x)
    (transport_connections x) (connect_callbacks x) (callback_timer x).
Definition with_ecdh (k : ECDH) (x : Connection) : Connection :=
  mkConnection (state x) (node_info x) k (session_aes_key x)
    (transport_connections x) (connect_callbacks x) (callback_timer x).
Definition with_transports (l : list Z) (x : Connection) : Connection :=
  mkConnection (state x) (node_info x) (session_ecdh_key x) (session_aes_key x)
    l (connect_callbacks x) (callback_timer x).
Definition with_callbacks (l : list (callback * Z)) (t : option callback) (x : Connection) : Connection :=
  mkConnection (state x) (node_info x) (session_ecdh_key x) (session_aes_key x)
    (transport_connections x) l t.

Definition call (cb : callback) (f : Z → effect) : OM unit :=
  match cb with Some k => emit (f k) | None => lift (Throw bad_function_call) end.

Definition connected (x : Connection) : bool := bool_decide (state x = ESTABLISHED).

(** [onConnect] and [onDisconnect] are empty. *)
Definition setState (c : Z) (st : State) : OM unit := update c (with_state st).

(** ** [Socket]: registration and sending *)

(** [std::multimap] keeps equal keys in order of insertion. *)
Definition registerProcessor (t : PayloadType) (p : Processor) : OM unit :=
  modify (λ s, mkSocket (maximum_connections s) (key_provider s) (connections s)
    (processors s ++ [(PayloadType_code t, p)]) (heap s) (next_id s)).
Definition getProcessors (s : Socket) (t : Z) : list Processor :=
  (filter (λ e, e.1 = t) (processors s)).*2.

Section Transport.
Variable tconnected : Z → bool.

Definition Socket_send (message : OverlayMessage) (cb : callback) (c : Z) : OM unit :=
  x ← conn_at c;
  let alive := filter (λ t, tconnected t = true) (transport_connections x) in
  forM alive (λ t, emit (TransportSend t (serialize_message message) c cb));;
  (if decide (alive = []) then
     setState c SEARCHING_TRANSPORT;;
     call cb (λ k, CallSend k (Errors.error_code Errors.no_transport) c [] 0)
   else skip).

(** ** [Connection] *)

Definition genMessageSkel_th (from to : Hash) : outcome Header :=
  f ← toBinaryString from; t ← toBinaryString to; Ret (mkHeader f (Some t)).

(** [*(getKeyProvider()->getKeyInfo())], returned by value; [node_info],
    returned by value. *)
Definition localKeyInfo (s : Socket) : outcome KeyInfo :=
  ki ← getKeyInfo (key_provider s) 0;
  match ki with Some ki => KeyInfo_copy ki | None => Undef null_deref end.
Definition remoteKeyInfo (x : Connection) : outcome KeyInfo := KeyInfo_copy (node_info x).

Definition genMessageSkel (c : Z) : OM Header :=
  s ← get; x ← conn_at c;
  l ← lift (localKeyInfo s);
  r ← lift (remoteKeyInfo x);
  lift (genMessageSkel_th (th l) (th r)).

Definition Connection_send (c : Z) (message : OverlayMessage) (cb : callback) : OM unit :=
  Socket_send message cb c.

Definition send_payload (c : Z) (payload : Payload) (cb : callback) (encrypted force_non_connected : bool) : OM unit :=
  h ← genMessageSkel c;
  x ← conn_at c;
  if encrypted && connected x then
    Connection_send c (mkMessage h (mkBody [] (AESM.encrypt (session_aes_key x) (serialize_multipayload [payload])))) cb
  else if negb encrypted && (connected x || force_non_connected) then
    Connection_send c (mkMessage h (mkBody [payload] [])) cb
  else emit (PostSend cb (Errors.error_code Errors.not_connected) c).

Definition updateTransport (c t : Z) (verified : bool) : OM unit :=
  update c (λ x,
    let l := erase_first t (transport_connections x) in
    with_transports (if verified then t :: l else l ++ [t]) x);;
  x ← conn_at c;
  if decide (state x = SEARCHING_TRANSPORT) then setState c FOUND_TRANSPORT else skip.

(** The payloads of a message, each with whether it was encrypted. *)
Definition payloads (x : Connection) (b : Body) : outcome (list (Payload * bool)) :=
  let open := (λ p, (p, false)) <$> open_multipayload b in
  if connected x then
    match AESM.decrypt (session_aes_key x) (encrypted_multipayload b) with
    | Some d => Ret (open ++ ((λ p, (p, true)) <$> parse_multipayload d))
    | None => Throw botan_exception
    end
  else Ret open.

(** [processHandshake] is empty. *)
Definition fire (c : Z) (h : Header) (pl : Payload * bool) : OM unit :=
  s ← get;
  forM (getProcessors s (type pl.1)) (λ p,
    if negb (isEncryptionMandatory p && negb pl.2) then emit (CallProcessor (processor_id p) c h pl.1) else skip).

Definition Connection_process (c origin : Z) (h : Header) (b : Body) : OM unit :=
  updateTransport c origin false;;
  _ ← lift (fromBinaryString (T:=Hash) (src_th h));
  dest ← lift (match dest_th h with Some d => fromBinaryString (T:=Hash) d | None => Ret Hash_new end);
  if Hash_bool dest then
    x ← conn_at c;
    pls ← lift (payloads x b);
    forM pls (fire c h)
  else skip.

(** [expires_at] cancels the previous wait, whose handler then does nothing. *)
Definition connectTimeout (c : Z) (cb : callback) (aborted : bool) : OM unit :=
  if aborted then skip else call cb (λ k, CallConnect k (Errors.error_code Errors.timed_out) c).

Definition ignore_sent : callback := Some 0%Z.

(** [now], the ECDH scalar and the signature's randomness are arguments. *)
Definition Connection_connect (cfg : ConfigManager) (now rng : Z) (nonce : bytes) (c : Z) (cb : callback) : OM unit :=
  x ← conn_at c;
  if decide (state x = ESTABLISHED) then call cb (λ k, CallConnect k 0 c) else
  timeout ← lift (getValue as_uint cfg "overlay.connection.timeout");
  let timeout_time := (now + Z.of_N timeout * ns_per_s)%Z in
  update c (λ x, with_callbacks (connect_callbacks x ++ [(cb, timeout_time)]) (Some cb) x);;
  emit (ArmTimer c timeout_time);;
  if decide (state x = FOUND_TRANSPORT) then
    s ← get;
    l ← lift (localKeyInfo s);
    pb ← lift (toProtobuf l);
    update c (with_ecdh (ECDH_generateKey rng));;
    x ← conn_at c;
    ecdh ← lift (ECDH_derivePublicKey (session_ecdh_key x));
    sig ← lift (sign (private_key l) nonce (serialize_signed pb ecdh));
    send_payload c (mkPayload (PayloadType_code HANDSHAKE)
      (serialize_handshake (mkHandshake INIT pb ecdh sig))) ignore_sent false true;;
    setState c HANDSHAKE_INIT_SENT
  else skip.

Definition disconnect (c : Z) : OM unit := setState c CLOSED.
(** [~Connection]. *)
Definition Connection_delete (c : Z) : OM unit := disconnect c;; modify (set_heap (delete c)).

Definition updateExpirationTime (c t : Z) : OM unit :=
  update c (λ x, if decide (t > expiration_time (node_info x))%Z then
    with_node_info (mkKeyInfo (private_key (node_info x)) (public_key (node_info x)) (th (node_info x))
      t (lose_time (node_info x))) x else x).
Definition updateLoseTime (c t : Z) : OM unit :=
  update c (λ x, with_node_info (mkKeyInfo (private_key (node_info x)) (public_key (node_info x))
    (th (node_info x)) (expiration_time (node_info x)) t) x).

(** ** [Socket]: receiving and connecting *)

Definition new_connection (h : Hash) : OM Z := λ s,
  Ret (next_id s, mkSocket (maximum_connections s) (key_provider s) (connections s) (processors s)
    (<[next_id s := Connection_new h]> (heap s)) (next_id s + 1), []).

(** The iterator stays at the end when the connection is created. *)
Definition processSelf (origin : Z) (h : Header) (b : Body) : OM unit :=
  src ← lift (fromBinaryString (T:=Hash) (src_th h));
  s ← get;
  match connections s !! hash src with
  | None =>
      c ← new_connection src;
      modify (set_registered (λ m, <[hash src := c]> m));;
      lift (Undef past_end)
  | Some c => Connection_process c origin h b
  end.
Definition processRelay (origin : Z) (h : Header) (b : Body) : OM unit := skip.
Definition processRequest (cfg : ConfigManager) (origin : Z) (h : Header) (b : Body) : OM unit :=
  _ ← lift (getValue as_bool cfg "policies.outgoing_only"); skip.

Definition Socket_process (cfg : ConfigManager) (origin : Z) (data : bytes) : OM unit :=
  match parse_message data with
  | None => skip
  | Some m =>
      _ ← lift (fromBinaryString (T:=Hash) (src_th (header m)));
      dest ← lift (match dest_th (header m) with
                   | Some _ => fromBinaryString (T:=Hash) (src_th (header m))
                   | None => Ret Hash_new
                   end);
      s ← get;
      ki ← lift (getKeyInfo (key_provider s) 0);
      ki ← lift (match ki with Some ki => Ret ki | None => Undef null_deref end);
      if Hash_eq dest (th ki) then processSelf origin (header m) (body m)
      else if Hash_bool dest then processRelay origin (header m) (body m)
      else processRequest cfg origin (header m) (body m)
  end.

(** A connection that is not registered is created for this call. *)
Definition Socket_connect (cfg : ConfigManager) (now rng : Z) (nonce : bytes) (dest : Hash) (cb : callback) : OM unit :=
  s ← get;
  c ← (match connections s !! hash dest with Some c => mret c | None => new_connection dest end);
  Connection_connect cfg now rng nonce c cb.
End Transport.

(** [Socket::Socket]. *)
Definition Socket_new (cfg : ConfigManager) (now rng : Z) : outcome Socket :=
  kp ← KeyProvider_new cfg now rng;
  m ← getValue as_uint cfg "overlay.connection.limit";
  Ret (mkSocket (Z.of_N m) kp.1 ∅ [] ∅ 1).

(** ** The operations the rest of the daemon can call *)

Inductive op :=
| OpProcess (origin : Z) (data : bytes)
| OpSocketConnect (now rng : Z) (nonce : bytes) (dest : Hash) (cb : callback)
| OpConnect (now rng : Z) (nonce : bytes) (c : Z) (cb : callback)
| OpSend (c : Z) (m : OverlayMessage) (cb : callback)
| OpSendPayload (c : Z) (p : Payload) (cb : callback) (encrypted force_non_connected : bool)
| OpDisconnect (c : Z)
| OpUpdateTransport (c t : Z) (verified : bool)
| OpUpdateExpirationTime (c t : Z)
| OpUpdateLoseTime (c t : Z)
| OpRegisterProcessor (t : PayloadType) (p : Processor)
| OpTimer (c : Z)
| OpRenewKeys (now rng : Z).

Definition run_op (cfg : ConfigManager) (e : (Z → bool) * op) : OM unit :=
  let tconnected := e.1 in
  match e.2 with
  | OpProcess origin data => Socket_process cfg origin data
  | OpSocketConnect now rng nonce dest cb => Socket_connect tconnected cfg now rng nonce dest cb
  | OpConnect now rng nonce c cb => Connection_connect tconnected cfg now rng nonce c cb
  | OpSend c m cb => Connection_send tconnected c m cb
  | OpSendPayload c p cb encrypted force => send_payload tconnected c p cb encrypted force
  | OpDisconnect c => disconnect c
  | OpUpdateTransport c t verified => updateTransport c t verified
  | OpUpdateExpirationTime c t => updateExpirationTime c t
  | OpUpdateLoseTime c t => updateLoseTime c t
  | OpRegisterProcessor t p => registerProcessor t p
  | OpTimer c =>
      x ← conn_at c;
      match callback_timer x with
      | Some cb => update c (λ x, with_callbacks (connect_callbacks x) None x);; connectTimeout c cb false
      | None => skip
      end
  | OpRenewKeys now rng =>
      s ← get;
      r ← lift (renewKeys (key_provider s) now rng);
      modify (λ s, mkSocket (maximum_connections s) r.1 (connections s) (processors s) (heap s) (next_id s))
  end.

(** Each operation runs with the transport's state of its moment. *)
Definition run_ops (cfg : ConfigManager) (ops : list ((Z → bool) * op)) : OM unit := forM ops (run_op cfg).

(** ** What no operation can change *)

Definition conn_ok (x : Connection) : Prop :=
  private_key (node_info x) = None ∧ NoDup (transport_connections x) ∧
  (state x = CLOSED ∨ state x = SEARCHING_TRANSPORT ∨ state x = FOUND_TRANSPORT).

Record Inv (s : Socket) : Prop := {
  inv_connections : connections s = ∅;
  inv_heap : ∀ c x, heap s !! c = Some x → conn_ok x ∧ (c < next_id s)%Z;
}.

(** Connections stay, and their expiration times never go back. *)
Definition extends (s s' : Socket) : Prop :=
  ∀ c x, heap s !! c = Some x →
    ∃ x', heap s' !! c = Some x' ∧ hash (th (node_info x')) = hash (th (node_info x)) ∧
          (expiration_time (node_info x) ≤ expiration_time (node_info x'))%Z.

(** No processor runs and no connect callback hears of a success. *)
Definition silent (e : effect) : Prop :=
  match e with CallProcessor _ _ _ _ => False | CallConnect _ error _ => error ≠ 0%Z | _ => True end.

Definition steps {A} (m : OM A) : Prop :=
  ∀ s a s' es, Inv s → m s = Ret (a, s', es) → Inv s' ∧ extends s s' ∧ Forall silent es.
Definition never {A} (m : OM A) : Prop := ∀ s, Inv s → ¬ returns (m s).

#[global] Instance extends_preorder : PreOrder extends.
Proof.
  split; [intros s c x Hx; exists x; split; [done|]; split; [done|lia]|].
  intros s1 s2 s3 H1 H2 c x Hx. destruct (H1 c x Hx) as (x2 & Hx2 & E2 & ?).
  destruct (H2 c x2 Hx2) as (x3 & Hx3 & E3 & ?). exists x3. split; [done|]. split; [congruence|lia].
Qed.

Lemma steps_bind {A B} (m : OM A) (f : A → OM B) : steps m → (∀ a, steps (f a)) → steps (m ≫= f).
Proof.
  intros Hm Hf s b s' es HI (a & s1 & e1 & e2 & H1 & H2 & ->)%M_bind_Ret.
  destruct (Hm _ _ _ _ HI H1) as (HI1 & Hx1 & He1). destruct (Hf a _ _ _ _ HI1 H2) as (HI2 & Hx2 & He2).
  split; [done|]. split; [by etrans|]. by apply Forall_app.
Qed.
Lemma steps_pure {A} (m : OM A) :
  (∀ s a s' es, m s = Ret (a, s', es) → s' = s ∧ Forall silent es) → steps m.
Proof. intros H s a s' es HI Hm. destruct (H _ _ _ _ Hm) as [-> ?]. split; [done|]. split; [reflexivity|done]. Qed.
Lemma steps_ret {A} (a : A) : steps (mret a).
Proof. apply steps_pure. by intros ???? [= <- <- <-]. Qed.
Lemma steps_skip : steps skip.
Proof. apply steps_pure. by intros ???? [= <- <- <-]. Qed.
Lemma steps_emit e : silent e → steps (emit e).
Proof. intros He. apply steps_pure. intros ???? [= <- <- <-]. split; [done|by constructor]. Qed.
Lemma steps_lift {A} (o : outcome A) : steps (lift o).
Proof.
  apply steps_pure. intros s a s' es H. unfold lift in H. apply bind_Ret in H as (b & _ & [= <- <- <-]). done.
Qed.
Lemma steps_call cb f : (∀ k, silent (f k)) → steps (call cb f).
Proof. intros Hf. destruct cb; [by apply steps_emit|apply steps_lift]. Qed.
Lemma steps_forM {A} (l : list A) f : (∀ x, steps (f x)) → steps (forM l f).
Proof. intros Hf. induction l as [|x l IH]; simpl; [apply steps_skip|]. by apply steps_bind. Qed.
Lemma steps_get {B} (f : Socket → OM B) : (∀ s, Inv s → steps (f s)) → steps (get ≫= f).
Proof. intros Hf s b s' es HI H. rewrite run_get in H. by eapply (Hf s HI). Qed.
Lemma steps_conn_at {B} c (f : Connection → OM B) : (∀ x, conn_ok x → steps (f x)) → steps (conn_at c ≫= f).
Proof.
  intros Hf s b s' es HI H. unfold conn_at in H. rewrite run_assoc, run_get in H.
  destruct (heap s !! c) as [x|] eqn:Hx; [|done]. rewrite run_lift in H.
  eapply (Hf x); [|done|done]. by apply (inv_heap s HI c).
Qed.
Lemma steps_update c f :
  (∀ x, conn_ok x → conn_ok (f x) ∧ hash (th (node_info (f x))) = hash (th (node_info x)) ∧
     (expiration_time (node_info x) ≤ expiration_time (node_info (f x)))%Z) → steps (update c f).
Proof.
  intros Hf s a s' es HI H. unfold update, conn_at in H. rewrite run_assoc, run_get in H.
  destruct (heap s !! c) as [x|] eqn:Hx; [|done]. rewrite run_lift in H. injection H as <- <- <-.
  destruct (inv_heap s HI c x Hx) as [Hok Hlt]. destruct (Hf x Hok) as (Hok' & Hth & Hexp).
  split; [|split; [|done]].
  - destruct HI as [Hc Hh]. constructor; simpl; [done|]. intros c' y.
    rewrite lookup_insert_Some. intros [[<- <-]|[_ Hy]]; [done|by apply Hh].
  - intros c' y Hy. simpl. destruct (decide (c' = c)) as [->|Hne].
    + rewrite lookup_insert_eq. simplify_eq. eauto.
    + rewrite lookup_insert_ne by done. exists y. split; [done|]. split; [done|lia].
Qed.
Lemma steps_never {A B} (m : OM A) (f : A → OM B) : never m → steps (m ≫= f).
Proof.
  intros Hm s b s' es HI (a & s1 & e1 & e2 & H1 & _)%M_bind_Ret. exfalso. apply (Hm s HI). by eexists.
Qed.

Lemma steps_setState c st :
  st = CLOSED ∨ st = SEARCHING_TRANSPORT ∨ st = FOUND_TRANSPORT → steps (setState c st).
Proof. intros Hst. apply steps_update. intros x (Hk & Ht & _). split; [done|]. split; [done|simpl; lia]. Qed.

Lemma steps_new h : steps (new_connection h).
Proof.
  intros s a s' es HI [= <- <- <-]. split; [|split; [|done]].
  - destruct HI as [Hc Hh]. constructor; simpl; [done|]. intros c y.
    rewrite lookup_insert_Some. intros [[<- <-]|[_ Hy]].
    + split; [|lia]. split; [done|]. split; [by constructor|auto].
    + destruct (Hh c y Hy). split; [done|lia].
  - intros c x Hx. exists x. simpl. rewrite lookup_insert_ne; [split; [done|]; split; [done|lia]|].
    intros E. apply (inv_heap s HI) in Hx as [_ ?]. lia.
Qed.

Lemma steps_Socket_send tc m cb c : steps (Socket_send tc m cb c).
Proof.
  apply steps_conn_at. intros x _. apply steps_bind; [apply steps_forM; intros; by apply steps_emit|intros _].
  case_decide; [|apply steps_skip]. apply steps_bind; [apply steps_setState; auto|intros _].
  by apply steps_call.
Qed.

(** The copy of [node_info] copies its missing private key. *)
Lemma never_skel c : never (genMessageSkel c).
Proof.
  intros s HI [[[h s'] es] H]. unfold genMessageSkel, conn_at in H. rewrite run_get, run_assoc, run_get in H.
  destruct (heap s !! c) as [x|] eqn:Hx; [|done]. rewrite run_lift in H.
  apply M_bind_Ret in H as (l & s1 & e1 & e2 & _ & H & _).
  apply (inv_heap s HI) in Hx as [[Hk _] _].
  unfold remoteKeyInfo, KeyInfo_copy in H. by rewrite Hk in H.
Qed.
Lemma never_send_payload tc c p cb e f : never (send_payload tc c p cb e f).
Proof.
  intros s HI [[[h s'] es] H]. apply M_bind_Ret in H as (a & s1 & e1 & e2 & H1 & _).
  apply (never_skel c s HI). by eexists.
Qed.

Lemma steps_connect tc cfg now rng nonce c cb : steps (Connection_connect tc cfg now rng nonce c cb).
Proof.
  apply steps_conn_at. intros x (_ & _ & Hst).
  rewrite decide_False by (destruct Hst as [->|[->| ->]]; done).
  apply steps_bind; [apply steps_lift|intros timeout].
  apply steps_bind; [apply steps_update; intros y (? & ? & ?); split; [done|]; split; [done|simpl; lia]|intros _].
  apply steps_bind; [by apply steps_emit|intros _]. case_decide; [|apply steps_skip].
  apply steps_get. intros s HI. apply steps_bind; [apply steps_lift|intros l].
  apply steps_bind; [apply steps_lift|intros pb].
  apply steps_bind; [apply steps_update; intros y (? & ? & ?); split; [done|]; split; [done|simpl; lia]|intros _].
  apply steps_conn_at. intros y _. apply steps_bind; [apply steps_lift|intros ecdh].
  apply steps_bind; [apply steps_lift|intros sg]. apply steps_never, never_send_payload.
Qed.

Lemma steps_Socket_connect tc cfg now rng nonce dest cb : steps (Socket_connect tc cfg now rng nonce dest cb).
Proof.
  apply steps_get. intros s HI. rewrite (inv_connections s HI), lookup_empty.
  apply steps_bind; [apply steps_new|intros c; apply steps_connect].
Qed.

Lemma steps_processSelf origin h b : steps (processSelf origin h b).
Proof.
  apply steps_bind; [apply steps_lift|intros src]. apply steps_get. intros s HI.
  rewrite (inv_connections s HI), lookup_empty. intros s1 a s' es HI1 H.
  apply M_bind_Ret in H as (c & s2 & e1 & e2 & _ & H & _). by rewrite run_modify in H.
Qed.

Lemma steps_Socket_process cfg origin data : steps (Socket_process cfg origin data).
Proof.
  unfold Socket_process. destruct (parse_message data) as [m|]; [|apply steps_skip].
  apply steps_bind; [apply steps_lift|intros _]. apply steps_bind; [apply steps_lift|intros dest].
  apply steps_get. intros s HI. apply steps_bind; [apply steps_lift|intros oki].
  apply steps_bind; [apply steps_lift|intros ki].
  destruct (Hash_eq dest (th ki)); [apply steps_processSelf|].
  destruct (Hash_bool dest); [apply steps_skip|].
  apply steps_bind; [apply steps_lift|intros _; apply steps_skip].
Qed.

Lemma NoDup_erase_first (t : Z) l : NoDup l → NoDup (erase_first t l) ∧ t ∉ erase_first t l.
Proof.
  induction 1 as [|y l Hy Hl [IH1 IH2]]; simpl; [split; [constructor|set_solver]|].
  case_decide as E; [by subst|]. split; [constructor; [|done]; by intros ?%elem_of_erase_first|].
  rewrite not_elem_of_cons. auto.
Qed.

Lemma NoDup_moved (t : Z) (verified : bool) l :
  NoDup l → NoDup (if verified then t :: erase_first t l else erase_first t l ++ [t]).
Proof.
  intros [H1 H2]%(NoDup_erase_first t). destruct verified; [by constructor|].
  apply NoDup_app. split; [done|]. split; [set_solver|]. apply NoDup_singleton.
Qed.

Lemma steps_updateTransport c t v : steps (updateTransport c t v).
Proof.
  apply steps_bind.
  - apply steps_update. intros x (? & ? & ?). split; [|split; [done|simpl; lia]].
    split; [done|]. split; [|done]. by apply NoDup_moved.
  - intros _. apply steps_conn_at. intros x _. case_decide; [apply steps_setState; auto|apply steps_skip].
Qed.

Lemma steps_run_op cfg e : steps (run_op cfg e).
Proof.
  destruct e as [tc o]. unfold run_op. simpl.
  destruct o as [origin data|now rng nonce dest cb|now rng nonce c cb|c m cb|c p cb enc force|c|c t v|c t|c t|t p|c|now rng].
  - apply steps_Socket_process.
  - apply steps_Socket_connect.
  - apply steps_connect.
  - apply steps_Socket_send.
  - intros s a s' es HI H. exfalso. apply (never_send_payload tc c p cb enc force s HI). by eexists.
  - apply steps_setState; auto.
  - apply steps_updateTransport.
  - apply steps_update. intros x (Hk & Hn & Hs). case_decide; (split; [by split|]); simpl; split; (done || lia).
  - apply steps_update. intros x (Hk & Hn & Hs). split; [by split|]. simpl. split; (done || lia).
  - intros s a s' es HI [= <- <- <-]. destruct HI. split; [by constructor|]. split; [|done].
    intros c x Hx. exists x. split; [done|]. split; [done|lia].
  - apply steps_conn_at. intros x _. destruct (callback_timer x) as [cb|]; [|apply steps_skip].
    apply steps_bind; [apply steps_update; intros y (? & ? & ?); split; [done|]; split; [done|simpl; lia]|intros _].
    apply steps_call. done.
  - apply steps_get. intros s0 HI0. apply steps_bind; [apply steps_lift|intros r].
    intros s a s' es HI [= <- <- <-]. destruct HI. split; [by constructor|]. split; [|done].
    intros c x Hx. exists x. split; [done|]. split; [done|lia].
Qed.

Lemma steps_run_ops cfg ops : steps (run_ops cfg ops).
Proof. apply steps_forM. apply steps_run_op. Qed.

Lemma overlay_Inv_new cfg now rng s : Socket_new cfg now rng = Ret s → Inv s.
Proof. intros H. unfold Socket_new in H. inv_ret. subst s. by constructor. Qed.

(** ** What single operations do *)

Lemma run_oconn_at {B} c x (f : Connection → OM B) s : heap s !! c = Some x → (conn_at c ≫= f) s = f x s.
Proof. intros H. unfold conn_at. run. rewrite H. by run. Qed.

Lemma update_run c f s x : heap s !! c = Some x → update c f s = Ret (tt, set_heap (<[c := f x]>) s, []).
Proof. intros H. unfold update. by rewrite (run_oconn_at c x). Qed.

Lemma forM_emit {A} (f : A → effect) l (s : Socket) : forM l (λ a, emit (f a)) s = Ret (tt, s, f <$> l).
Proof. induction l as [|a l IH]; [done|]. simpl. run. by rewrite IH. Qed.






(** Connecting to a hash without registered connection: a fresh connection
    that only waits for its timeout. *)
Lemma Socket_connect_run tc cfg now rng nonce dest cb s t :
  connections s !! hash dest = None → getValue as_uint cfg "overlay.connection.timeout" = Ret t →
  let deadline := (now + Z.of_N t * ns_per_s)%Z in
  Socket_connect tc cfg now rng nonce dest cb s = Ret (tt,
    mkSocket (maximum_connections s) (key_provider s) (connections s) (processors s)
      (<[next_id s := with_callbacks [(cb, deadline)] (Some cb) (Connection_new dest)]> (heap s)) (next_id s + 1),
    [ArmTimer (next_id s) deadline]).
Proof.
  intros Hc Ht deadline. unfold Socket_connect. rewrite run_get, Hc. erewrite run_bind by done. rewrite after_nil.
  unfold Connection_connect. erewrite run_oconn_at by (apply lookup_insert_eq).
  rewrite decide_False by done. rewrite Ht, run_lift.
  erewrite run_bind by (apply update_run; apply lookup_insert_eq). rewrite after_nil, run_emit.
  rewrite decide_False by done. unfold skip, set_heap. simpl. by rewrite insert_insert_eq.
Qed.
End Overlay.

(** A protocol without content, to instantiate the theorems. *)
Module ToyOverlay.
#[global] Instance toy_proto : OverlayProto := {|
  parse_message b := match b with [] => None | _ => Some (mkMessage (mkHeader b (Some b)) (mkBody [] [])) end;
  serialize_message m := src_th (header m);
  parse_multipayload _ := [];
  serialize_multipayload _ := [];
  serialize_signed _ _ := [];
  serialize_handshake _ := [];
|}.
End ToyOverlay.

(** ** Properties *)

(** C40 Overlay connections are never established: from a new socket, whatever
    is received, connected, sent, updated or timed out, every connection stays
    closed, searching for a transport or with a transport found; none is ever
    registered under its hash, no connect callback reports success, and no
    payload processor is called. *)
Theorem overlay_never_established {EC : ECDSA} {DG : Digest} {P : PTree} {CI : Cipher} {DH : ECDHLib} {PB : OverlayProto}
    (cfg : ConfigManager) (now rng : Z) (ops : list ((Z → bool) * op)) (s0 s : Socket) (es : list effect)
    (H0 : Socket_new cfg now rng = Ret s0) (H : run_ops cfg ops s0 = Ret (tt, s, es)) :
  (∀ c x, heap s !! c = Some x →
     state x = CLOSED ∨ state x = SEARCHING_TRANSPORT ∨ state x = FOUND_TRANSPORT) ∧
  connections s = ∅ ∧
  (∀ k c, CallConnect k 0 c ∉ es) ∧ (∀ p c h pl, CallProcessor p c h pl ∉ es).
Proof.
  destruct (steps_run_ops cfg ops s0 tt s es (overlay_Inv_new _ _ _ _ H0) H) as (HI & _ & He).
  rewrite Forall_forall in He. split; [|split; [|split]].
  - intros c x Hx. by destruct (inv_heap s HI c x Hx) as [(_ & _ & ?) _].
  - apply HI.
  - intros k c Hin. by apply He in Hin.
  - intros p c h pl Hin. by apply He in Hin.
Qed.

Lemma toy_socket : ∃ s0, Socket_new toy_config 5 7 = Ret s0 ∧ connections s0 = ∅ ∧ heap s0 = ∅ ∧ next_id s0 = 1%Z.
Proof.
  unfold Socket_new, KeyProvider_new.
  assert (getValue as_uint toy_config "overlay.key_provider.history_size" = Ret 10%N) as -> by (vm_compute; reflexivity).
  assert (getValue as_uint toy_config "overlay.key_provider.renew_interval" = Ret 600%N) as -> by (vm_compute; reflexivity).
  assert (getValue as_uint toy_config "overlay.connection.limit" = Ret 1000%N) as -> by (vm_compute; reflexivity).
  simpl. eexists. repeat split.
Defined.

Definition toy_ops : list ((Z → bool) * op) := [((λ _, false), OpSocketConnect 5 3 [] (mkHash [x01] true) (Some 1%Z))].

Lemma toy_run s0 : connections s0 = ∅ →
  ∃ s, run_ops (PB:=ToyOverlay.toy_proto) toy_config toy_ops s0 = Ret (tt, s, [ArmTimer (next_id s0) 120000000005]) ∧
       is_Some (heap s !! next_id s0) ∧ connections s = ∅.
Proof.
  intros Hc. assert (getValue as_uint toy_config "overlay.connection.timeout" = Ret 120%N) as Ht by (vm_compute; reflexivity).
  eexists. unfold run_ops, toy_ops. cbn [forM]. erewrite run_bind.
  2: { apply (Socket_connect_run (λ _, false) toy_config 5 3 [] (mkHash [x01] true) (Some 1%Z) s0 120); [by rewrite Hc|exact Ht]. }
  split; [reflexivity|]. split; [cbn [heap]; rewrite lookup_insert_eq; by eexists|exact Hc].
Qed.

Lemma overlay_never_established_witness :
  ∃ s0 s es, Socket_new toy_config 5 7 = Ret s0 ∧ run_ops (PB:=ToyOverlay.toy_proto) toy_config toy_ops s0 = Ret (tt, s, es) ∧
    ∀ k c, CallConnect k 0 c ∉ es.
Proof.
  destruct toy_socket as (s0 & H0 & Hc & _ & _). destruct (toy_run s0 Hc) as (s & Hs & _).
  exists s0, s, [ArmTimer (next_id s0) 120000000005]. split; [exact H0|]. split; [exact Hs|].
  exact (proj1 (proj2 (proj2 (overlay_never_established (PB:=ToyOverlay.toy_proto) toy_config 5 7 toy_ops s0 s _ H0 Hs)))).
Defined.

(** The state of an overlay connection only improves: over any run of
    operations a connection keeps its hash, its expiration time never
    decreases (an earlier one is refused), and no transport is listed twice. *)
Theorem overlay_expiration_monotone {EC : ECDSA} {DG : Digest} {P : PTree} {CI : Cipher} {DH : ECDHLib} {PB : OverlayProto}
    (cfg : ConfigManager) (now rng : Z) (ops1 ops2 : list ((Z → bool) * op)) (s0 s1 s2 : Socket)
    (es1 es2 : list effect) (c : Z) (x : Connection)
    (H0 : Socket_new cfg now rng = Ret s0) (H1 : run_ops cfg ops1 s0 = Ret (tt, s1, es1))
    (H2 : run_ops cfg ops2 s1 = Ret (tt, s2, es2)) (Hx : heap s1 !! c = Some x) :
  ∃ x', heap s2 !! c = Some x' ∧ hash (th (node_info x')) = hash (th (node_info x)) ∧
    (expiration_time (node_info x) ≤ expiration_time (node_info x'))%Z ∧ NoDup (transport_connections x').
Proof.
  destruct (steps_run_ops cfg ops1 s0 tt s1 es1 (overlay_Inv_new _ _ _ _ H0) H1) as (HI1 & _ & _).
  destruct (steps_run_ops cfg ops2 s1 tt s2 es2 HI1 H2) as (HI2 & Hext & _).
  destruct (Hext c x Hx) as (x' & Hx' & Hth & Hexp). exists x'.
  destruct (inv_heap s2 HI2 c x' Hx') as [(_ & Hn & _) _]. done.
Qed.

Lemma overlay_expiration_monotone_witness :
  ∃ s0 s1 s2 es c x', run_ops (PB:=ToyOverlay.toy_proto) toy_config toy_ops s0 = Ret (tt, s1, es) ∧
    heap s2 !! c = Some x' ∧ NoDup (transport_connections x').
Proof.
  destruct toy_socket as (s0 & H0 & Hc & _ & _). destruct (toy_run s0 Hc) as (s1 & Hs1 & [x Hx] & Hc1).
  destruct (toy_run s1 Hc1) as (s2 & Hs2 & _).
  destruct (overlay_expiration_monotone (PB:=ToyOverlay.toy_proto) toy_config 5 7 toy_ops toy_ops s0 s1 s2 _ _ _ x H0 Hs1 Hs2 Hx)
    as (x' & Hx' & _ & _ & Hn).
  exists s0, s1, s2. eexists. exists (next_id s0), x'. split; [exact Hs1|]. split; [exact Hx'|exact Hn].
Defined.


(** A socket with one registered processor and one connection. *)
Definition toy_overlay : Socket :=
  mkSocket 10 toy_provider ∅ [(PayloadType_code DHT, mkProcessor 8 false); (PayloadType_code DHT, mkProcessor 9 true)]
    {[1%Z := Connection_new (mkHash [x01] true)]} 2.


(** Sending on a connection: the serialised message goes, in list order, to
    every transport of the connection that is up, and the connection does not
    change; when none is up the connection goes back to searching for one and
    the callback hears [no_transport] at once (an empty callback throws). *)
Theorem overlay_send {EC : ECDSA} {DG : Digest} {P : PTree} {DH : ECDHLib} {PB : OverlayProto}
    (tconnected : Z → bool) (s : Socket) (c : Z) (x : Connection) (m : OverlayMessage) (cb : option Z)
    (Hx : heap s !! c = Some x) :
  let alive := filter (λ t, tconnected t = true) (transport_connections x) in
  (alive ≠ [] → Connection_send tconnected c m cb s =
     Ret (tt, s, (λ t, TransportSend t (serialize_message m) c cb) <$> alive)) ∧
  (alive = [] → ∀ k, cb = Some k → Connection_send tconnected c m cb s =
     Ret (tt, set_heap (<[c := with_state SEARCHING_TRANSPORT x]>) s,
          [CallSend k (Errors.error_code Errors.no_transport) c [] 0])) ∧
  (alive = [] → cb = None → Connection_send tconnected c m cb s = Throw bad_function_call).
Proof.
  intros alive. unfold Connection_send, Socket_send. rewrite (run_oconn_at c x) by done. fold alive.
  erewrite run_bind by apply forM_emit. split; [|split].
  - intros Hne. rewrite decide_False by done. unfold skip, after. by rewrite app_nil_r.
  - intros -> k ->. simpl. unfold setState. erewrite run_bind by (by apply update_run). done.
  - intros -> ->. simpl. unfold setState. erewrite run_bind by (by apply update_run). done.
Qed.

Lemma overlay_send_witness :
  ∃ s', Connection_send (PB:=ToyOverlay.toy_proto) (λ _, true) 1 (mkMessage (mkHeader [] None) (mkBody [] [])) (Some 4%Z) toy_overlay
    = Ret (tt, s', [CallSend 4 181 1 [] 0]).
Proof.
  eexists. refine (proj1 (proj2 (overlay_send (PB:=ToyOverlay.toy_proto) (λ _, true) toy_overlay 1
    (Connection_new (mkHash [x01] true)) (mkMessage (mkHeader [] None) (mkBody [] [])) (Some 4%Z) _)) _ 4%Z _).
  - reflexivity.
  - reflexivity.
  - reflexivity.
Defined.

(** Incoming messages are routed by their sender's hash: a message that does
    not parse is ignored; every message from a hash other than the node's own,
    even one addressed to the node, changes nothing and calls nobody; and one
    that claims the node's own hash, with no connection registered for it,
    dereferences an end iterator. *)
Theorem overlay_routes_by_source {EC : ECDSA} {DG : Digest} {P : PTree} {CI : Cipher} {DH : ECDHLib} {PB : OverlayProto}
    (cfg : ConfigManager) (s : Socket) (origin : Z) (data : bytes) (ki : KeyInfo) (b : bool)
    (Hki : getKeyInfo (key_provider s) 0 = Ret (Some ki)) (Hth : hash (th ki) ≠ [])
    (Hcfg : getValue as_bool cfg "policies.outgoing_only" = Ret b) :
  (parse_message data = None → Socket_process cfg origin data s = Ret (tt, s, [])) ∧
  (∀ m, parse_message data = Some m → src_th (header m) ≠ hash (th ki) →
     Socket_process cfg origin data s = Ret (tt, s, [])) ∧
  (∀ m d, parse_message data = Some m → src_th (header m) = hash (th ki) → dest_th (header m) = Some d →
     connections s !! hash (th ki) = None →
     Socket_process cfg origin data s = Undef past_end).
Proof.
  unfold Socket_process. split; [by intros ->|]. split.
  - intros m -> Hsrc. unfold fromBinaryString, setAsBinaryString.
    cbn [setAsBinaryVector Hash_MathString ms_new hasher Hash_new]. rewrite run_lift.
    destruct (dest_th (header m)) as [d|]; rewrite run_lift, run_get, Hki, !run_lift;
      unfold Hash_eq, Hash_bool; cbn [hash Hash_new].
    + rewrite bool_decide_false by done. destruct (decide (src_th (header m) = [])) as [E|E].
      * rewrite E, bool_decide_true by done. unfold processRequest. cbn [negb]. by rewrite Hcfg, run_lift.
      * by rewrite bool_decide_false by done.
    + rewrite bool_decide_false by done. rewrite bool_decide_true by done. cbn [negb].
      unfold processRequest. by rewrite Hcfg, run_lift.
  - intros m d -> Hsrc Hd Hc. rewrite Hd. unfold fromBinaryString, setAsBinaryString.
    cbn [setAsBinaryVector Hash_MathString ms_new hasher Hash_new].
    rewrite !run_lift, run_get, Hki, !run_lift. unfold Hash_eq. cbn [hash]. rewrite bool_decide_true by done.
    unfold processSelf, fromBinaryString, setAsBinaryString.
    cbn [setAsBinaryVector Hash_MathString ms_new hasher Hash_new].
    rewrite run_lift, run_get. cbn [hash]. by rewrite Hsrc, Hc.
Qed.

Lemma overlay_routes_by_source_witness :
  Socket_process (PB:=ToyOverlay.toy_proto) toy_config 5 [x01] toy_overlay = Ret (tt, toy_overlay, []).
Proof.
  assert (∃ ki, getKeyInfo (key_provider toy_overlay) 0 = Ret (Some ki) ∧ length (hash (th ki)) = 28) as (ki & Hki & Hl).
  { eexists. split; [reflexivity|]. apply keccak224_length. }
  refine (proj1 (proj2 (overlay_routes_by_source (PB:=ToyOverlay.toy_proto) toy_config toy_overlay 5 [x01] ki false Hki _ _))
    (mkMessage (mkHeader [x01] (Some [x01])) (mkBody [] [])) _ _).
  - intros E. rewrite E in Hl. discriminate Hl.
  - vm_compute. reflexivity.
  - reflexivity.
  - intros E. cbn in E. rewrite <-E in Hl. discriminate Hl.
Defined.
