(* ===== verification/NodeManager.v ===== *)
(** * Local nodes ([daemon/p2p/Node.cpp], [NodeManager.cpp], [Socket.cpp],
    [Connection.h], [LoopbackConnection.cpp])

    Nodes, sockets and connections are raw pointers to heap objects; a deleted
    node is no longer in the heap.  A socket's [connection] pointer is [None]
    while it is uninitialised. *)

From S2P Require Import Prelude Common Crypto Config.
Import HashM KeyM.
From Stdlib Require Import ZArith Lia.

Section NodeManager.
Context {EC : ECDSA} {DG : Digest} {P : PTree}.

Record Node := mkNode {
  bound_private_key : PrivateKeyDSA;
  bound_sh : Hash;
  api_session : option Z;
  max_connections : Z;
  loopback_param : option bool;
  connected_sockets : gmap bytes Z;
  incoming_connections : list Z;
}.

Record Socket := mkSocket { parent_node : Z; connection : option Z }.

Record NodeManager := mkNodeManager {
  nodes_bound : gmap bytes Z;
  nodes_unbound : gset Z;
  heap : gmap Z Node;
  sockets : gmap Z Socket;
  p2p_connections : gmap Z Hash;
  next_ptr : Z;
}.

Definition NodeManager_new : NodeManager := mkNodeManager ∅ ∅ ∅ ∅ ∅ 1.
Definition Node_new (api : option Z) : Node := mkNode None Hash_new api 0 None ∅ [].

Definition set_bound (f : gmap bytes Z → gmap bytes Z) (s : NodeManager) : NodeManager :=
  mkNodeManager (f (nodes_bound s)) (nodes_unbound s) (heap s) (sockets s) (p2p_connections s) (next_ptr s).
Definition set_unbound (f : gset Z → gset Z) (s : NodeManager) : NodeManager :=
  mkNodeManager (nodes_bound s) (f (nodes_unbound s)) (heap s) (sockets s) (p2p_connections s) (next_ptr s).
Definition set_heap (f : gmap Z Node → gmap Z Node) (s : NodeManager) : NodeManager :=
  mkNodeManager (nodes_bound s) (nodes_unbound s) (f (heap s)) (sockets s) (p2p_connections s) (next_ptr s).

Definition node_at (s : NodeManager) (n : Z) : outcome Node :=
  match heap s !! n with Some x => Ret x | None => Undef use_after_free end.

(** [std::map::insert] keeps an existing entry. *)
Definition map_insert (k : bytes) (n : Z) (m : gmap bytes Z) : gmap bytes Z :=
  match m !! k with Some _ => m | None => <[k := n]> m end.

(** ** [NodeManager] *)

Definition db_non_consistent : exn :=
  system_error (Errors.error_code Errors.nodemanager_db_non_consistent) P2PErrorCategory.

Definition bindNode (s : NodeManager) (n : Z) (sh : Hash) : outcome NodeManager :=
  if decide (n ∈ nodes_unbound s) then
    Ret (set_unbound (λ u, u ∖ {[n]}) (set_bound (map_insert (hash sh) n) s))
  else
    x ← node_at s n;
    match nodes_bound s !! hash (bound_sh x) with
    | Some _ => Ret (set_bound (λ m, map_insert (hash sh) n (delete (hash (bound_sh x)) m)) s)
    | None => Throw db_non_consistent
    end.

Definition unbindNode (s : NodeManager) (n : Z) : outcome NodeManager :=
  x ← node_at s n;
  match nodes_bound s !! hash (bound_sh x) with
  | Some _ => Ret (set_bound (λ m, map_insert (hash (bound_sh x)) n (delete (hash (bound_sh x)) m)) s)
  | None => Ret s
  end.

Definition createNode (s : NodeManager) (api : option Z) : Z * NodeManager :=
  (next_ptr s, mkNodeManager (nodes_bound s) ({[next_ptr s]} ∪ nodes_unbound s)
     (<[next_ptr s := Node_new api]> (heap s)) (sockets s) (p2p_connections s) (next_ptr s + 1)).

(** [delete node]. *)
Definition delete_node (s : NodeManager) (n : Z) : outcome NodeManager :=
  _ ← node_at s n; Ret (set_heap (delete n) s).

Definition destroyNode (s : NodeManager) (n : Z) : outcome NodeManager :=
  s1 ← (if decide (n ∈ nodes_unbound s) then Ret (set_unbound (λ u, u ∖ {[n]}) s)
        else
          x ← node_at s n;
          match nodes_bound s !! hash (bound_sh x) with
          | Some _ => Ret (set_bound (delete (hash (bound_sh x))) s)
          | None => Throw db_non_consistent
          end);
  delete_node s1 n.

Definition getBoundNode (s : NodeManager) (sh : Hash) : option Z := nodes_bound s !! hash sh.

(** The destructor. *)
Definition NodeManager_delete (s : NodeManager) : outcome NodeManager :=
  s1 ← foldM delete_node s ((map_to_list (nodes_bound s)).*2);
  foldM delete_node s1 (elements (nodes_unbound s1)).

(** ** [Node] *)

Definition isBound (x : Node) : bool := Hash_bool (bound_sh x).
Definition getLocalSH (x : Node) : Hash := Hash_copy (bound_sh x).

Definition with_key (k : PrivateKeyDSA) (h : Hash) (x : Node) : Node :=
  mkNode k h (api_session x) (max_connections x) (loopback_param x) (connected_sockets x) (incoming_connections x).

(** The keys are set before the manager hears of the binding. *)
Definition Node_bind (s : NodeManager) (n : Z) (private_key : PrivateKeyDSA) : outcome NodeManager :=
  x ← node_at s n;
  k ← PrivateKeyDSA_copy private_key;
  pub ← derivePublicKey private_key;
  sh ← Hash_of_public pub;
  bindNode (set_heap (<[n := with_key k sh x]>) s) n (Hash_copy sh).

Definition Node_listen (s : NodeManager) (n max : Z) : outcome NodeManager :=
  x ← node_at s n;
  Ret (set_heap (<[n := mkNode (bound_private_key x) (bound_sh x) (api_session x) max (loopback_param x)
                         (connected_sockets x) (incoming_connections x)]>) s).

Definition with_loopback (l : option bool) (x : Node) : Node :=
  mkNode (bound_private_key x) (bound_sh x) (api_session x) (max_connections x) l
    (connected_sockets x) (incoming_connections x).
(** [get_value_or] evaluates its argument. *)
Definition loopback (cfg : ConfigManager) (x : Node) : outcome bool :=
  d ← getValue as_bool cfg "p2p.allow_loopback"; Ret (default d (loopback_param x)).
Definition set_loopback (s : NodeManager) (n : Z) (b : bool) : outcome NodeManager :=
  x ← node_at s n; Ret (set_heap (<[n := with_loopback (Some b) x]>) s).
Definition resetLoopback (s : NodeManager) (n : Z) : outcome NodeManager :=
  x ← node_at s n; Ret (set_heap (<[n := with_loopback None x]>) s).

(** ** [Socket] *)

Definition new_socket (s : NodeManager) (x : Socket) : Z * NodeManager :=
  (next_ptr s, mkNodeManager (nodes_bound s) (nodes_unbound s) (heap s)
     (<[next_ptr s := x]> (sockets s)) (p2p_connections s) (next_ptr s + 1)).
Definition new_loopback (s : NodeManager) : Z * NodeManager :=
  (next_ptr s, mkNodeManager (nodes_bound s) (nodes_unbound s) (heap s) (sockets s)
     (<[next_ptr s := Hash_new]> (p2p_connections s)) (next_ptr s + 1)).

(** [Socket(Node*, SH)]: a loopback connection when both nodes allow it. *)
Definition Socket_to (cfg : ConfigManager) (s : NodeManager) (n : Z) (sh : Hash) : outcome (Z * NodeManager) :=
  x ← node_at s n;
  mine ← loopback cfg x;
  if (mine : bool) then
    match getBoundNode s sh with
    | Some m =>
        y ← node_at s m;
        other ← loopback cfg y;
        if (other : bool) then
          let '(c, s1) := new_loopback s in Ret (new_socket s1 (mkSocket n (Some c)))
        else Ret (new_socket s (mkSocket n None))
    | None => Ret (new_socket s (mkSocket n None))
    end
  else Ret (new_socket s (mkSocket n None)).

(** [Socket(Node*, Connection* )] does not store the connection. *)
Definition Socket_from (s : NodeManager) (n c : Z) : Z * NodeManager := new_socket s (mkSocket n None).

Definition getRemoteSH (s : NodeManager) (sock : Z) : outcome Hash :=
  match sockets s !! sock with
  | None => Undef use_after_free
  | Some x =>
      match connection x with
      | None => Undef uninitialised
      | Some c => match p2p_connections s !! c with Some h => Ret (Hash_copy h) | None => Undef use_after_free end
      end
  end.

Definition Node_connect (cfg : ConfigManager) (s : NodeManager) (n : Z) (sh : Hash) : outcome NodeManager :=
  r ← Socket_to cfg s n sh; Ret r.2.

Definition Node_accept (s : NodeManager) (n : Z) : outcome NodeManager :=
  x ← node_at s n;
  match incoming_connections x with
  | [] => Undef past_end
  | c :: rest =>
      let '(sock, s1) := Socket_from s n c in
      remote ← getRemoteSH s1 sock;
      Ret (set_heap (<[n := mkNode (bound_private_key x) (bound_sh x) (api_session x) (max_connections x)
             (loopback_param x) (map_insert (hash remote) sock (connected_sockets x)) rest]>) s1)
  end.

(** ** Consistency of the database *)

Record Inv (s : NodeManager) : Prop := {
  inv_unbound : ∀ n, n ∈ nodes_unbound s → is_Some (heap s !! n);
  inv_bound : ∀ sh n, nodes_bound s !! sh = Some n →
    (n ∉ nodes_unbound s) ∧ ∃ x, heap s !! n = Some x ∧ hash (bound_sh x) = sh;
  inv_heap : ∀ n x, heap s !! n = Some x →
    (n < next_ptr s)%Z ∧ (n ∈ nodes_unbound s ∨ nodes_bound s !! hash (bound_sh x) = Some n);
}.

(** The hash a private key binds to. *)
Definition key_sh (k : sk) : bytes := keccak224 (x509_ber (pk_of_sk k)).

Lemma Node_bind_unfold s n k x :
  heap s !! n = Some x →
  Node_bind s n (Some k) =
    bindNode (set_heap (<[n := with_key (Some k) (mkHash (key_sh k) true) x]>) s) n (mkHash (key_sh k) false).
Proof. intros H. unfold Node_bind, node_at. by rewrite H. Qed.

Lemma nm_Inv_new : Inv NodeManager_new.
Proof. constructor; simpl; try set_solver. Qed.

Lemma Inv_create s api : Inv s → Inv (createNode s api).2.
Proof.
  intros []. assert (heap s !! next_ptr s = None) as Hfresh.
  { destruct (heap s !! next_ptr s) eqn:E; [|done]. apply inv_heap0 in E as [? _]. lia. }
  constructor; simpl.
  - intros n [->%elem_of_singleton|Hn]%elem_of_union; [by rewrite lookup_insert_eq|].
    apply lookup_insert_is_Some'. auto.
  - intros sh n Hn. destruct (inv_bound0 sh n Hn) as (? & x & Hx & ?).
    assert (n ≠ next_ptr s) by congruence. split; [set_solver|]. exists x. by rewrite lookup_insert_ne.
  - intros n x. rewrite lookup_insert_Some. intros [[<- <-]|[Hne Hx]]; [split; [lia|set_solver]|].
    destruct (inv_heap0 n x Hx) as [? [?|?]]; (split; [lia|set_solver]).
Qed.

(** Replacing a node without touching its hash. *)
Lemma Inv_update s n x y :
  Inv s → heap s !! n = Some x → hash (bound_sh y) = hash (bound_sh x) → Inv (set_heap (<[n := y]>) s).
Proof.
  intros [] Hx Hy. constructor; simpl.
  - intros m Hm. apply lookup_insert_is_Some'. auto.
  - intros sh m Hm. destruct (inv_bound0 sh m Hm) as (? & z & Hz & ?). split; [done|].
    destruct (decide (m = n)) as [->|]; [|by exists z; rewrite lookup_insert_ne].
    exists y. rewrite lookup_insert_eq. simplify_eq. by rewrite Hy.
  - intros m z. rewrite lookup_insert_Some. intros [[<- <-]|[_ Hz]]; [rewrite Hy|]; by apply inv_heap0.
Qed.

Lemma destroyNode_run s n :
  Inv s → is_Some (heap s !! n) → ∃ s', destroyNode s n = Ret s' ∧ Inv s' ∧ heap s' = delete n (heap s) ∧
    (∀ sh m, nodes_bound s' !! sh = Some m ↔ nodes_bound s !! sh = Some m ∧ m ≠ n) ∧ next_ptr s' = next_ptr s.
Proof.
  intros HI [x Hx]. pose proof HI as [HU HB HH]. unfold destroyNode, delete_node, node_at.
  destruct (HH n x Hx) as [_ Hin]. case_decide as Hu.
  - eexists. simpl. rewrite Hx. split; [reflexivity|]. split; [|split; [done|split; [|done]]].
    + constructor; simpl.
      * intros m Hm. rewrite lookup_delete_ne by set_solver. apply HU. set_solver.
      * intros sh m Hm. destruct (HB sh m Hm) as (? & y & ? & ?). assert (m ≠ n) by congruence.
        split; [set_solver|]. exists y. by rewrite lookup_delete_ne.
      * intros m y [Hne Hy]%lookup_delete_Some. destruct (HH m y Hy) as [? [?|?]]; (split; [done|set_solver]).
    + intros sh m. simpl. split; [|tauto]. intros Hm. split; [done|]. intros ->. by apply (HB sh n Hm).
  - destruct Hin as [?|Hb]; [done|]. rewrite Hx. simpl. rewrite Hb. simpl. rewrite Hx. eexists.
    split; [reflexivity|]. split; [|split; [done|split; [|done]]].
    + constructor; simpl.
      * intros m Hm. rewrite lookup_delete_ne by congruence. by apply HU.
      * intros sh m [Hne Hm]%lookup_delete_Some. destruct (HB sh m Hm) as (? & y & Hy & Ey).
        split; [done|]. exists y. rewrite lookup_delete_ne; [done|]. intros ->. simplify_eq.
      * intros m y [Hne Hy]%lookup_delete_Some. destruct (HH m y Hy) as [? [?|Hm]]; (split; [done|auto]).
        right. rewrite lookup_delete_ne; [done|]. intros E. rewrite E in Hb. congruence.
    + intros sh m. simpl. rewrite lookup_delete_Some. split.
      * intros [Hne Hm]. split; [done|]. intros ->. destruct (HB sh n Hm) as (_ & y & Hy & Ey). simplify_eq.
      * intros [Hm Hne]. split; [|done]. intros <-. congruence.
Qed.

Lemma bind_unbound_run s n k :
  Inv s → n ∈ nodes_unbound s → nodes_bound s !! key_sh k = None →
  ∃ s', Node_bind s n (Some k) = Ret s' ∧ Inv s' ∧ nodes_bound s' = <[key_sh k := n]> (nodes_bound s) ∧
    nodes_unbound s' = nodes_unbound s ∖ {[n]} ∧ dom (heap s') = dom (heap s) ∧ next_ptr s' = next_ptr s ∧
    (∃ x, heap s' !! n = Some x ∧ isBound x = true ∧ hash (getLocalSH x) = key_sh k).
Proof.
  intros HI Hu Hfree. pose proof HI as [HU HB HH]. destruct (HU n Hu) as [x Hx].
  rewrite (Node_bind_unfold s n k x) by done. unfold bindNode. cbn [nodes_unbound set_heap].
  rewrite decide_True by done. eexists. split; [reflexivity|]. unfold map_insert. simpl. rewrite Hfree.
  split; [|split; [done|split; [done|split; [|split; [done|]]]]].
  - constructor; simpl; rewrite ?Hfree.
    + intros m Hm. apply lookup_insert_is_Some'. right. apply HU. set_solver.
    + intros sh m. rewrite lookup_insert_Some. intros [[<- <-]|[Hne Hm]].
      * split; [set_solver|]. eexists. by rewrite lookup_insert_eq.
      * destruct (HB sh m Hm) as (? & y & Hy & ?). assert (m ≠ n) by congruence.
        split; [set_solver|]. exists y. by rewrite lookup_insert_ne.
    + intros m y. rewrite lookup_insert_Some. intros [[<- <-]|[Hne Hy]].
      * split; [by eapply HH|]. right. simpl. by rewrite lookup_insert_eq.
      * destruct (HH m y Hy) as [? [?|Hm]]; (split; [done|]); [set_solver|]. right.
        rewrite lookup_insert_ne; [done|]. intros E. rewrite E in Hfree. congruence.
  - rewrite dom_insert_L. apply elem_of_dom_2 in Hx. set_solver.
  - eexists. rewrite lookup_insert_eq. split; [reflexivity|]. split; [|done].
    unfold isBound, Hash_bool. cbn [with_key bound_sh hash]. rewrite bool_decide_false; [done|].
    intros E. pose proof (keccak224_length (x509_ber (pk_of_sk k))) as Hl. unfold key_sh in E. by rewrite E in Hl.
Qed.

Lemma Inv_ptr s sk cn p :
  Inv s → (next_ptr s ≤ p)%Z → Inv (mkNodeManager (nodes_bound s) (nodes_unbound s) (heap s) sk cn p).
Proof. intros [] Hp. constructor; simpl; try done. intros n x Hx. apply inv_heap0 in Hx as [? ?]. split; [lia|done]. Qed.

Lemma rebind_same_run s n k x :
  Inv s → heap s !! n = Some x → n ∉ nodes_unbound s → hash (bound_sh x) = key_sh k →
  ∃ s', Node_bind s n (Some k) = Ret s' ∧ Inv s' ∧ nodes_bound s' = nodes_bound s.
Proof.
  intros HI Hx Hu Hk. rewrite (Node_bind_unfold s n k x) by done. unfold bindNode. cbn [nodes_unbound set_heap].
  rewrite decide_False by done. unfold node_at. cbn [heap set_heap]. rewrite lookup_insert_eq. cbn -[lookup insert delete].
  destruct (inv_heap s HI n x Hx) as [_ [?|Hb]]; [done|]. rewrite Hk in Hb. rewrite Hb.
  assert (map_insert (key_sh k) n (delete (key_sh k) (nodes_bound s)) = nodes_bound s) as E.
  { unfold map_insert. rewrite lookup_delete_eq, insert_delete_eq. by apply insert_id. }
  eexists. split; [reflexivity|]. split; [|exact E].
  pose proof (Inv_update s n x (with_key (Some k) (mkHash (key_sh k) true) x) HI Hx (eq_sym Hk)) as HU.
  unfold set_bound. cbn [nodes_bound set_heap nodes_unbound heap sockets p2p_connections next_ptr]. rewrite E. exact HU.
Qed.

(** ** Sequences of calls *)

Inductive nm_op :=
| Create (api : option Z)
| Destroy (n : Z)
| Bind (n : Z) (k : sk)
| Listen (n max : Z)
| SetLoopback (n : Z) (b : bool)
| ResetLoopback (n : Z)
| Connect (n : Z) (sh : Hash).

Definition run_op (cfg : ConfigManager) (s : NodeManager) (o : nm_op) : outcome NodeManager :=
  match o with
  | Create api => Ret (createNode s api).2
  | Destroy n => destroyNode s n
  | Bind n k => Node_bind s n (Some k)
  | Listen n max => Node_listen s n max
  | SetLoopback n b => set_loopback s n b
  | ResetLoopback n => resetLoopback s n
  | Connect n sh => Node_connect cfg s n sh
  end.

(** Calls on live nodes, where a node is bound once (or again to the key it
    has) and to a hash no other node holds. *)
Definition allowed (s : NodeManager) (o : nm_op) : Prop :=
  match o with
  | Create _ => True
  | Bind n k =>
      (n ∈ nodes_unbound s ∧ nodes_bound s !! key_sh k = None) ∨
      ((n ∉ nodes_unbound s) ∧ ∃ x, heap s !! n = Some x ∧ hash (bound_sh x) = key_sh k)
  | Destroy n | Listen n _ | SetLoopback n _ | ResetLoopback n | Connect n _ => is_Some (heap s !! n)
  end.

Lemma allowed_runs cfg s o b :
  getValue as_bool cfg "p2p.allow_loopback" = Ret b → Inv s → allowed s o →
  ∃ s', run_op cfg s o = Ret s' ∧ Inv s'.
Proof.
  intros Hb HI Ho. destruct o as [api|n|n k|n max|n l|n|n sh]; simpl in *.
  - eexists. split; [done|]. by apply Inv_create.
  - destruct (destroyNode_run s n HI Ho) as (s' & ? & ? & _). eauto.
  - destruct Ho as [[Hu Hf]|(Hu & x & Hx & Hk)].
    + destruct (bind_unbound_run s n k HI Hu Hf) as (s' & ? & ? & _). eauto.
    + destruct (rebind_same_run s n k x HI Hx Hu Hk) as (s' & ? & ? & _). eauto.
  - destruct Ho as [x Hx]. unfold Node_listen, node_at. rewrite Hx. simpl. eexists. split; [done|]. by eapply Inv_update.
  - destruct Ho as [x Hx]. unfold set_loopback, node_at. rewrite Hx. simpl. eexists. split; [done|]. by eapply Inv_update.
  - destruct Ho as [x Hx]. unfold resetLoopback, node_at. rewrite Hx. simpl. eexists. split; [done|]. by eapply Inv_update.
  - destruct Ho as [x Hx]. unfold Node_connect, Socket_to, loopback, node_at. rewrite Hx. simpl. rewrite Hb. simpl.
    destruct (default b (loopback_param x)); [|eexists; split; [done|]; apply Inv_ptr; [done|lia]].
    destruct (getBoundNode s sh) as [m|] eqn:Em; [|eexists; split; [done|]; apply Inv_ptr; [done|lia]].
    destruct (inv_bound s HI _ _ Em) as (_ & y & Hy & _). rewrite Hy. simpl.
    destruct (default b (loopback_param y)); eexists; (split; [done|]).
    + apply (Inv_ptr s _ _ (next_ptr s + 1 + 1)%Z HI). lia.
    + apply Inv_ptr; [done|lia].
Qed.

Inductive reachable (cfg : ConfigManager) : NodeManager → Prop :=
| reachable_new : reachable cfg NodeManager_new
| reachable_step s o s' : reachable cfg s → allowed s o → run_op cfg s o = Ret s' → reachable cfg s'.

Lemma reachable_Inv cfg s b :
  getValue as_bool cfg "p2p.allow_loopback" = Ret b → reachable cfg s → Inv s.
Proof.
  intros Hb. induction 1 as [|s o s' _ IH Ho Hs]; [apply nm_Inv_new|].
  destruct (allowed_runs cfg s o b Hb IH Ho) as (s1 & H1 & ?). congruence.
Qed.
End NodeManager.

(** ** Properties *)

(** Two nodes, of which one is bound. *)
Module Demo.
Definition cfg : ConfigManager := ConfigManager_new (mkEnv None (Some "/home/u") "" 1000) (λ _, None).
Definition two : NodeManager (EC:=Toy.toy_ECDSA) :=
  (createNode (EC:=Toy.toy_ECDSA) (createNode (EC:=Toy.toy_ECDSA) NodeManager_new None).2 (Some 7%Z)).2.
Definition key : sk (ECDSA:=Toy.toy_ECDSA) := Toy.toy_of_bigint 5.

Lemma cfg_ok : getValue as_bool cfg "p2p.allow_loopback" = Ret true.
Proof. vm_compute. reflexivity. Defined.
Lemma two_reachable : reachable (EC:=Toy.toy_ECDSA) (DG:=Toy.toy_Digest) cfg two.
Proof.
  apply (reachable_step cfg (createNode (EC:=Toy.toy_ECDSA) NodeManager_new None).2 (Create (Some 7%Z)) two);
    [|exact I|reflexivity].
  apply (reachable_step cfg (NodeManager_new (EC:=Toy.toy_ECDSA)) (Create None)); [apply reachable_new|exact I|reflexivity].
Defined.
Lemma in_two : 1%Z ∈ nodes_unbound two ∧ 2%Z ∈ nodes_unbound two.
Proof. by apply (bool_decide_unpack (1%Z ∈ nodes_unbound two ∧ 2%Z ∈ nodes_unbound two)). Defined.

Lemma one_bound : ∃ s x, reachable (DG:=Toy.toy_Digest) cfg s ∧ 2%Z ∈ nodes_unbound s ∧ heap s !! 2%Z = Some x ∧
  nodes_bound s !! key_sh (DG:=Toy.toy_Digest) key = Some 1%Z.
Proof.
  destruct (bind_unbound_run (DG:=Toy.toy_Digest) two 1 key (reachable_Inv cfg two true cfg_ok two_reachable) (proj1 in_two) eq_refl)
    as (s & Hs & HI & Hb & Hu & _).
  assert (2%Z ∈ nodes_unbound s) as H2 by (rewrite Hu; apply elem_of_difference; split; [apply in_two|set_solver]).
  destruct (inv_unbound s HI _ H2) as [x Hx]. exists s, x. split; [|split; [done|split; [done|]]].
  - eapply (reachable_step cfg two (Bind 1 key)); [apply two_reachable| |exact Hs]. left. split; [apply in_two|reflexivity].
  - rewrite Hb. apply lookup_insert_eq.
Qed.
End Demo.

(** C8 The node database stays consistent under calls on live nodes that bind
    each node once and to a hash of its own: every such call succeeds, every
    live node is either unbound or found under exactly the hash it carries,
    never both, and a hash leads only to live nodes. *)
Theorem node_database_consistent {EC : ECDSA} {DG : Digest} {P : PTree} (cfg : ConfigManager) (b : bool) (s : NodeManager)
    (Hb : getValue as_bool cfg "p2p.allow_loopback" = Ret b) (Hs : reachable cfg s) :
  (∀ n x, heap s !! n = Some x →
     (n ∈ nodes_unbound s ∧ ∀ sh, nodes_bound s !! sh ≠ Some n) ∨
     ((n ∉ nodes_unbound s) ∧ ∀ sh, nodes_bound s !! sh = Some n ↔ sh = hash (bound_sh x))) ∧
  (∀ sh n, getBoundNode s sh = Some n → is_Some (heap s !! n)) ∧
  (∀ o, allowed s o → ∃ s', run_op cfg s o = Ret s' ∧ reachable cfg s').
Proof.
  pose proof (reachable_Inv cfg s b Hb Hs) as HI. split; [|split].
  - intros n x Hx. destruct (decide (n ∈ nodes_unbound s)) as [Hu|Hu].
    + left. split; [done|]. intros sh Hn. by apply (inv_bound s HI) in Hn as [? _].
    + right. split; [done|]. intros sh. destruct (inv_heap s HI n x Hx) as [_ [?|Hn]]; [done|].
      split; [|by intros ->]. intros Hn'. destruct (inv_bound s HI _ _ Hn') as (_ & y & Hy & <-). congruence.
  - intros sh n Hn. destruct (inv_bound s HI _ _ Hn) as (_ & x & ? & _). eauto.
  - intros o Ho. destruct (allowed_runs cfg s o b Hb HI Ho) as (s' & ? & _). exists s'. split; [done|].
    by eapply reachable_step.
Qed.

Lemma node_database_consistent_witness :
  reachable Demo.cfg Demo.two ∧ ∀ sh n, getBoundNode Demo.two sh = Some n → is_Some (heap Demo.two !! n).
Proof.
  split; [exact Demo.two_reachable|].
  exact (proj1 (proj2 (node_database_consistent Demo.cfg true Demo.two Demo.cfg_ok Demo.two_reachable))).
Defined.

(** Binding and lookup: after an unbound node is bound to a key whose hash
    is free, the node reports that hash and a lookup by it finds the node, and
    every other lookup is unchanged; destroying the node frees it, removes the
    hash and nothing else. *)
Theorem bind_lookup_destroy {EC : ECDSA} {DG : Digest} {P : PTree} (cfg : ConfigManager) (b : bool)
    (s : NodeManager) (n : Z) (k : sk)
    (Hb : getValue as_bool cfg "p2p.allow_loopback" = Ret b) (Hs : reachable cfg s)
    (Hu : n ∈ nodes_unbound s) (Hf : nodes_bound s !! key_sh k = None) :
  ∃ s1 s2, Node_bind s n (Some k) = Ret s1 ∧ destroyNode s1 n = Ret s2 ∧
    (∃ x, heap s1 !! n = Some x ∧ isBound x = true ∧ hash (getLocalSH x) = key_sh k) ∧
    (∀ sh, getBoundNode s1 sh = if decide (hash sh = key_sh k) then Some n else getBoundNode s sh) ∧
    (∀ sh, getBoundNode s2 sh = getBoundNode s sh) ∧ heap s2 !! n = None.
Proof.
  pose proof (reachable_Inv cfg s b Hb Hs) as HI.
  destruct (bind_unbound_run s n k HI Hu Hf) as (s1 & H1 & HI1 & Hbd & _ & _ & _ & x & Hx & Hxb & Hxs).
  destruct (destroyNode_run s1 n HI1 (ex_intro _ x Hx)) as (s2 & H2 & _ & Hh & Hb2 & _).
  exists s1, s2. split; [done|]. split; [done|]. split; [by exists x|]. unfold getBoundNode. rewrite Hbd.
  split; [|split; [|by rewrite Hh, lookup_delete_eq]].
  - intros sh. rewrite lookup_insert. repeat case_decide; congruence.
  - intros sh. apply option_eq. intros m. rewrite Hb2, Hbd, lookup_insert_Some. split.
    + intros [[[<- <-]|[_ Hm]] Hne]; [done|done].
    + intros Hm. split.
      * right. split; [|done]. intros E. rewrite E in Hf. congruence.
      * intros ->. by apply (inv_bound s HI) in Hm as [? _].
Qed.

Lemma bind_lookup_destroy_witness :
  ∃ s1, Node_bind (DG:=Toy.toy_Digest) Demo.two 1 (Some Demo.key) = Ret s1 ∧
    getBoundNode s1 (mkHash (key_sh (DG:=Toy.toy_Digest) Demo.key) true) = Some 1%Z.
Proof.
  destruct (bind_lookup_destroy Demo.cfg true Demo.two 1 Demo.key Demo.cfg_ok Demo.two_reachable (proj1 Demo.in_two) eq_refl)
    as (s1 & s2 & H1 & _ & _ & Hg & _).
  exists s1. split; [exact H1|]. rewrite Hg. rewrite decide_True; reflexivity.
Defined.

(** The bindings outside that discipline: binding a bound node to a second,
    free key is refused with the inconsistency error, and binding an unbound
    node to a hash another node holds is accepted although the hash keeps
    leading to the other node, so that destroying the newcomer removes the
    other node's entry. *)
Theorem bind_conflicts {EC : ECDSA} {DG : Digest} {P : PTree} (cfg : ConfigManager) (b : bool)
    (s : NodeManager) (n : Z) (x : Node) (k : sk)
    (Hb : getValue as_bool cfg "p2p.allow_loopback" = Ret b) (Hs : reachable cfg s) (Hx : heap s !! n = Some x) :
  ((n ∉ nodes_unbound s) → nodes_bound s !! key_sh k = None →
     Node_bind s n (Some k) = Throw (system_error 261 P2PErrorCategory)) ∧
  (∀ m, n ∈ nodes_unbound s → nodes_bound s !! key_sh k = Some m →
     ∃ s1 s2, Node_bind s n (Some k) = Ret s1 ∧ getBoundNode s1 (mkHash (key_sh k) true) = Some m ∧
       destroyNode s1 n = Ret s2 ∧ getBoundNode s2 (mkHash (key_sh k) true) = None ∧ is_Some (heap s2 !! m)).
Proof.
  pose proof (reachable_Inv cfg s b Hb Hs) as HI. split.
  - intros Hu Hf. rewrite (Node_bind_unfold s n k x) by done. unfold bindNode. cbn [nodes_unbound set_heap].
    rewrite decide_False by done. unfold node_at. cbn [heap set_heap]. rewrite lookup_insert_eq. cbn -[lookup].
    by rewrite Hf.
  - intros m Hu Hm. destruct (inv_bound s HI _ _ Hm) as (Hmu & y & Hy & _). assert (m ≠ n) as Hne by congruence.
    rewrite (Node_bind_unfold s n k x) by done. unfold bindNode. cbn [nodes_unbound set_heap].
    rewrite decide_True by done. eexists. eexists. split; [reflexivity|].
    unfold getBoundNode, map_insert. cbn [nodes_bound set_unbound set_bound set_heap hash]. rewrite Hm.
    split; [done|]. unfold destroyNode, delete_node, node_at.
    cbn [nodes_bound nodes_unbound heap set_unbound set_bound set_heap]. rewrite decide_False by set_solver.
    rewrite lookup_insert_eq. cbn -[lookup insert delete]. rewrite Hm, Hm. cbn -[lookup insert delete].
    rewrite lookup_insert_eq. cbn -[lookup insert delete]. split; [reflexivity|].
    cbn [nodes_bound heap set_heap set_bound set_unbound]. rewrite lookup_delete_eq. split; [done|].
    rewrite lookup_delete_ne, lookup_insert_ne by done. by exists y.
Qed.

Lemma bind_conflicts_witness :
  ∃ s s1 s2 : NodeManager (EC:=Toy.toy_ECDSA), Node_bind (DG:=Toy.toy_Digest) s 2 (Some Demo.key) = Ret s1 ∧ destroyNode s1 2 = Ret s2 ∧
    getBoundNode s2 (mkHash (key_sh (DG:=Toy.toy_Digest) Demo.key) true) = None.
Proof.
  destruct Demo.one_bound as (s & x & Hr & Hu & Hx & Hb).
  destruct (proj2 (bind_conflicts Demo.cfg true s 2 x Demo.key Demo.cfg_ok Hr Hx) 1%Z Hu Hb)
    as (s1 & s2 & H1 & _ & H2 & H3 & _).
  exists s, s1, s2. split; [exact H1|]. split; [exact H2|exact H3].
Defined.
