(* ===== verification/APISocket.v ===== *)
(** * API messages and their transfer over Unix sockets
    ([common/api/APIMessage.proto], [common/api/UnixAPISocket.cpp] and the
    path loops of [daemon/api/UnixAPIServer.cpp] and
    [library/daemon_conn/P2PUnixDaemon.cpp])

    The generated protobuf class is a record of optional fields; its
    (de)serialiser is a parameter.  A socket's input is the list of bytes that
    arrive before the peer closes it. *)

From S2P Require Import Prelude Common Crypto Config.
From Stdlib Require Import ZArith Lia.
From Stdlib.Strings Require Import Byte.

(** ** [APIMessage] *)

Inductive MessageType :=
| NODE_REGISTER | NODE_UNREGISTER | NODE_CONNECT | NODE_ACCEPT | NODE_LISTEN | NODE_BIND | SOCKET_UNREGISTER.

Record APIError := mkAPIError { error_code : Z; error_what : string; error_category : string }.
Record ConnectBody := mkConnectBody { c_node_id : option Z; c_sh : option bytes; c_socket_id : option Z }.
Record BindBody := mkBindBody {
  b_node_id : option Z; binary_private_key : option bytes; b58_private_key : option bytes }.

Record APIMessage := mkAPIMessage {
  type : option MessageType;
  message_token : option Z;
  error : option APIError;
  reply : option bool;
  node_register : option Z;                   (** [node_id] *)
  node_unregister : option Z;                 (** [node_id] *)
  node_connect : option ConnectBody;
  node_accept : option ConnectBody;
  node_listen : option (option Z * option Z); (** [node_id], [max_connections] *)
  node_bind : option BindBody;
  socket_unregister : option (Z * Z);         (** [node_id], [socket_id] *)
}.

Definition APIMessage_new : APIMessage := mkAPIMessage None None None None None None None None None None None.

(** Accessors give the default for an absent field. *)
Definition get_type (m : APIMessage) : MessageType := default NODE_REGISTER (type m).
Definition get_token (m : APIMessage) : Z := default 0%Z (message_token m).
Definition set_type (t : MessageType) (m : APIMessage) : APIMessage :=
  mkAPIMessage (Some t) (message_token m) (error m) (reply m) (node_register m) (node_unregister m)
    (node_connect m) (node_accept m) (node_listen m) (node_bind m) (socket_unregister m).
Definition set_message_token (t : Z) (m : APIMessage) : APIMessage :=
  mkAPIMessage (type m) (Some t) (error m) (reply m) (node_register m) (node_unregister m)
    (node_connect m) (node_accept m) (node_listen m) (node_bind m) (socket_unregister m).
Definition set_error (e : APIError) (m : APIMessage) : APIMessage :=
  mkAPIMessage (type m) (message_token m) (Some e) (reply m) (node_register m) (node_unregister m)
    (node_connect m) (node_accept m) (node_listen m) (node_bind m) (socket_unregister m).
Definition set_node_register (i : Z) (m : APIMessage) : APIMessage :=
  mkAPIMessage (type m) (message_token m) (error m) (reply m) (Some i) (node_unregister m)
    (node_connect m) (node_accept m) (node_listen m) (node_bind m) (socket_unregister m).
Definition set_node_unregister (i : Z) (m : APIMessage) : APIMessage :=
  mkAPIMessage (type m) (message_token m) (error m) (reply m) (node_register m) (Some i)
    (node_connect m) (node_accept m) (node_listen m) (node_bind m) (socket_unregister m).
Definition set_node_connect (b : ConnectBody) (m : APIMessage) : APIMessage :=
  mkAPIMessage (type m) (message_token m) (error m) (reply m) (node_register m) (node_unregister m)
    (Some b) (node_accept m) (node_listen m) (node_bind m) (socket_unregister m).
Definition set_node_accept (b : ConnectBody) (m : APIMessage) : APIMessage :=
  mkAPIMessage (type m) (message_token m) (error m) (reply m) (node_register m) (node_unregister m)
    (node_connect m) (Some b) (node_listen m) (node_bind m) (socket_unregister m).
Definition set_node_listen (i n : Z) (m : APIMessage) : APIMessage :=
  mkAPIMessage (type m) (message_token m) (error m) (reply m) (node_register m) (node_unregister m)
    (node_connect m) (node_accept m) (Some (Some i, Some n)) (node_bind m) (socket_unregister m).
Definition set_node_bind (b : BindBody) (m : APIMessage) : APIMessage :=
  mkAPIMessage (type m) (message_token m) (error m) (reply m) (node_register m) (node_unregister m)
    (node_connect m) (node_accept m) (node_listen m) (Some b) (socket_unregister m).
Definition set_socket_unregister (i s : Z) (m : APIMessage) : APIMessage :=
  mkAPIMessage (type m) (message_token m) (error m) (reply m) (node_register m) (node_unregister m)
    (node_connect m) (node_accept m) (node_listen m) (node_bind m) (Some (i, s)).

(** [SerializeAsString] and [ParseFromArray(data, size)], whose result is not
    checked; [size] is an [int].  Messages above 2 GiB are beyond protobuf's
    documented limit, and what a negative size does is not specified. *)
Class APIProto := {
  serialize : APIMessage → bytes;
  ParseFromArray : bytes → Z → APIMessage;
  parse_serialize m : (Z.of_nat (length (serialize m)) ≤ INT_MAX)%Z →
    ParseFromArray (serialize m) (Z.of_nat (length (serialize m))) = m;
}.

(** ** Byte order *)

(** How the machine stores an [uint32_t], and [htonl]/[ntohl] on it. *)
Inductive endian := Little | Big.
Definition store32 (e : endian) (z : Z) : bytes :=
  match e with Little => reverse (be_bytes 4 z) | Big => be_bytes 4 z end.
Definition load32 (e : endian) (bs : bytes) : Z :=
  match e with Little => be_val (reverse bs) | Big => be_val bs end.
Definition bswap32 (z : Z) : Z := be_val (reverse (be_bytes 4 z)).
Definition htonl (e : endian) (z : Z) : Z := match e with Little => bswap32 z | Big => z end.
Definition ntohl (e : endian) (z : Z) : Z := htonl e z.

(** ** [UnixAPISocket] *)

Definition MESSAGE_SIZE_LENGTH : nat := 4.

(** An [std::error_condition]: [None] for no error. *)
Definition condition : Type := option (Z * category).
Definition stdErrorFromBoostError (code : Z) : condition :=
  if decide (code = 0)%Z then None else Some (code, generic_category).
Definition eof : Z := 2.

Definition generateSendString (e : endian) (from : bytes) : bytes :=
  let native_size := u32 (Z.of_nat (length from)) in
  let size_netlong := htonl e native_size in
  store32 e size_netlong ++ from.

(** [boost::asio::read] of [n] bytes: the bytes, or [eof]. *)
Definition read (n : nat) (input : bytes) : (bytes + Z) * bytes :=
  if decide (n ≤ length input) then (inl (take n input), drop n input) else (inr eof, []).

Section Socket.
Context {AP : APIProto}.

Definition receive (e : endian) (input : bytes) : (APIMessage * condition) * bytes :=
  match read MESSAGE_SIZE_LENGTH input with
  | (inr err, rest) => ((APIMessage_new, stdErrorFromBoostError err), rest)
  | (inl char_message_size, rest) =>
      let size := ntohl e (load32 e char_message_size) in
      match read (Z.to_nat size) rest with
      | (inr err, rest) => ((APIMessage_new, stdErrorFromBoostError err), rest)
      | (inl buffer, rest) => ((ParseFromArray buffer (i32 size), None), rest)
      end
  end.

(** The handlers of [asyncReceive]: the size, then the message, with the number
    of bytes read as an [uint32_t]. *)
Definition handleReceive (r : (bytes + Z) * bytes) : (APIMessage * condition) * bytes :=
  match r with
  | (inr err, rest) => ((APIMessage_new, stdErrorFromBoostError err), rest)
  | (inl message, rest) =>
      let size := u32 (Z.of_nat (length message)) in
      ((ParseFromArray message (i32 size), stdErrorFromBoostError 0), rest)
  end.
Definition handleReceiveSize (e : endian) (r : (bytes + Z) * bytes) : (APIMessage * condition) * bytes :=
  match r with
  | (inr err, rest) => ((APIMessage_new, stdErrorFromBoostError err), rest)
  | (inl char_message_size, rest) =>
      handleReceive (read (Z.to_nat (ntohl e (load32 e char_message_size))) rest)
  end.
Definition asyncReceive (e : endian) (input : bytes) : (APIMessage * condition) * bytes :=
  handleReceiveSize e (read MESSAGE_SIZE_LENGTH input).

(** [send]: the bytes written, when the write succeeds. *)
Definition send (e : endian) (data : APIMessage) : bytes := generateSendString e (serialize data).

(** [asyncSend]: the buffer is a local variable, so that only what the
    initiating call could write at once, [n] bytes, is safe. *)
Definition asyncSend (e : endian) (data : APIMessage) (n : nat) : outcome bytes :=
  let s := generateSendString e (serialize data) in
  if decide (length s ≤ n) then Ret s else Undef dangling_ref.

(** ** Lemmas *)

Lemma load_store e z : in_u32 z → load32 e (store32 e z) = z.
Proof.
  intros Hz. destruct e; unfold load32, store32; rewrite ?reverse_involutive, be_val_be_bytes;
    apply Z.mod_small; exact Hz.
Qed.

Lemma bswap32_range z : in_u32 (bswap32 z).
Proof.
  unfold bswap32, in_u32. split; [apply be_val_nonneg|].
  pose proof (be_val_bound (reverse (be_bytes 4 z))) as H. by rewrite length_reverse, length_be_bytes in H.
Qed.

Lemma bswap32_involutive z : in_u32 z → bswap32 (bswap32 z) = z.
Proof.
  intros Hz. unfold bswap32.
  pose proof (be_bytes_be_val (reverse (be_bytes 4 z))) as H. rewrite length_reverse, length_be_bytes in H.
  rewrite H, reverse_involutive, be_val_be_bytes. apply Z.mod_small. exact Hz.
Qed.

(** The size prefix is big-endian on both kinds of machine. *)
Lemma store_htonl e z : in_u32 z → store32 e (htonl e z) = be_bytes 4 z.
Proof.
  intros Hz. destruct e; [|done]. unfold store32, htonl, bswap32.
  pose proof (be_bytes_be_val (reverse (be_bytes 4 z))) as H. rewrite length_reverse, length_be_bytes in H.
  rewrite H. apply reverse_involutive.
Qed.
Lemma ntohl_load e z : in_u32 z → ntohl e (load32 e (be_bytes 4 z)) = z.
Proof.
  intros Hz. rewrite <-(store_htonl e z Hz), load_store.
  - destruct e; [by apply bswap32_involutive|done].
  - destruct e; [apply bswap32_range|exact Hz].
Qed.

Lemma read_app n (l rest : bytes) : length l = n → read n (l ++ rest) = (inl l, rest).
Proof.
  intros <-. unfold read. rewrite decide_True by (rewrite length_app; lia).
  by rewrite take_app_length, drop_app_length.
Qed.

Lemma read_inl n (input b rest : bytes) : read n input = (inl b, rest) → length b = n.
Proof. unfold read. case_decide as H; intros [= <- <-]. rewrite length_take. lia. Qed.
Lemma size_range e (bs : bytes) : length bs = MESSAGE_SIZE_LENGTH → in_u32 (ntohl e (load32 e bs)).
Proof.
  intros Hl. destruct e; [apply bswap32_range|]. unfold in_u32. cbn. split; [apply be_val_nonneg|].
  pose proof (be_val_bound bs) as H. by rewrite Hl in H.
Qed.

Lemma asyncReceive_receive e input : asyncReceive e input = receive e input.
Proof.
  unfold asyncReceive, receive, handleReceiveSize, handleReceive.
  destruct (read MESSAGE_SIZE_LENGTH input) as [[b|err] rest] eqn:E; [|done].
  apply read_inl in E. pose proof (size_range e b E) as Hz.
  destruct (read _ rest) as [[b'|err'] rest'] eqn:E'; [|done]. apply read_inl in E'.
  rewrite E', Z2Nat.id by apply Hz. by rewrite u32_small.
Qed.

(** A frame sent by one kind of machine and received by another; the prefix
    holds the size modulo [2^32], and the parser takes it as an [int]. *)
Lemma receive_frame e1 e2 p rest :
  receive e2 (generateSendString e1 p ++ rest) =
    let size := u32 (Z.of_nat (length p)) in let n := Z.to_nat size in
    ((ParseFromArray (take n p) (i32 size), None), drop n p ++ rest).
Proof.
  unfold receive, generateSendString. set (z := u32 (Z.of_nat (length p))).
  assert (in_u32 z) as Hz by apply u32_range.
  rewrite store_htonl by done. rewrite <-app_assoc.
  rewrite read_app by apply length_be_bytes. rewrite ntohl_load by done.
  assert (Z.to_nat z ≤ length p) as Hle.
  { unfold z, u32. pose proof (Z.mod_le (Z.of_nat (length p)) (2 ^ 32) ltac:(lia) ltac:(lia)). lia. }
  unfold read. rewrite decide_True by (rewrite length_app; lia).
  by rewrite take_app_le, drop_app_le by lia.
Qed.

Lemma receive_send e1 e2 m rest :
  (Z.of_nat (length (serialize m)) ≤ INT_MAX)%Z → receive e2 (send e1 m ++ rest) = ((m, None), rest).
Proof.
  intros Hl. unfold send. rewrite receive_frame. unfold INT_MAX in Hl. rewrite u32_small by (unfold in_u32; lia).
  cbv zeta. rewrite Nat2Z.id, take_ge, drop_ge by lia. rewrite i32_small by lia. by rewrite parse_serialize.
Qed.

(** Receive until the peer closes. *)
Fixpoint receive_all (e : endian) (fuel : nat) (input : bytes) : list APIMessage :=
  match fuel with
  | O => []
  | S fuel =>
      match receive e input with
      | ((m, None), rest) => m :: receive_all e fuel rest
      | _ => []
      end
  end.
End Socket.

(** ** Socket paths *)

Section Paths.
Context {P : PTree}.

Definition getSocketPathList (env : environment) (cfg : ConfigManager) : outcome (list string) :=
  user ← (match getPermissions env with
          | USER =>
              disabled ← getValue as_bool cfg "api.unix.disable_user_sock";
              if (disabled : bool) then Ret []
              else (n ← getValue as_string cfg "api.unix.user_sock_name"; Ret [config_directory cfg +:+ n])
          | SYSTEM => Ret []
          end : outcome (list string));
  sys ← getValue as_string cfg "api.unix.system_sock_path";
  Ret (user ++ [sys]).
End Paths.

(** The loop of the server's constructor and of the client's [connect]: [open]
    is the attempt, [Some code] its failure. *)
Fixpoint path_loop (open : string → option Z) (paths : list string) : option string + Z :=
  match paths with
  | [] => inl None
  | p :: rest =>
      match open p with
      | None => inl (Some p)
      | Some code => match rest with [] => inr code | _ => path_loop open rest end
      end
  end.

(** [UnixAPIServer::UnixAPIServer] and [P2PUnixDaemon::connect]; what follows
    the loop needs the socket it opened. *)
Definition UnixAPIServer_open (open : string → option Z) (paths : list string) : outcome string :=
  match path_loop open paths with
  | inl (Some p) => Ret p
  | inl None => Undef null_deref
  | inr code => Throw (asio_error code)
  end.
Definition P2PUnixDaemon_connect (open : string → option Z) (paths : list string) : outcome (option string) :=
  match path_loop open paths with
  | inl p => Ret p
  | inr code => Throw (system_error code generic_category)
  end.

Lemma path_loop_spec open paths :
  match path_loop open paths with
  | inl (Some p) => ∃ i, paths !! i = Some p ∧ open p = None ∧
                      ∀ j q, j < i → paths !! j = Some q → open q ≠ None
  | inl None => paths = []
  | inr code => Forall (λ q, open q ≠ None) paths ∧ ∃ p, last paths = Some p ∧ open p = Some code
  end.
Proof.
  induction paths as [|p rest IH]; [done|]. simpl. destruct (open p) as [code|] eqn:Hp.
  - destruct rest as [|q rest']; [split; [by repeat constructor; rewrite Hp|by exists p]|].
    destruct (path_loop open (q :: rest')) as [[r|]|c]; [|done|].
    + destruct IH as (i & Hi & Hr & Hb). exists (S i). split; [done|]. split; [done|].
      intros [|j] x Hj Hx; [simpl in Hx; simplify_eq; congruence|]. apply (Hb j); [lia|done].
    + destruct IH as [Hall (x & Hl & Hx)]. split; [constructor; [by rewrite Hp|done]|]. exists x. by rewrite last_cons_cons.
  - exists 0. split; [done|]. split; [done|]. intros; lia.
Qed.

(** ** A serialiser: the code of a countable type, bit by bit *)

Module ToyAPI.
#[global] Instance MessageType_eq_dec : EqDecision MessageType.
Proof. solve_decision. Defined.
#[global] Instance APIError_eq_dec : EqDecision APIError.
Proof. solve_decision. Defined.
#[global] Instance ConnectBody_eq_dec : EqDecision ConnectBody.
Proof. solve_decision. Defined.
#[global] Instance BindBody_eq_dec : EqDecision BindBody.
Proof. solve_decision. Defined.
#[global] Instance APIMessage_eq_dec : EqDecision APIMessage.
Proof. solve_decision. Defined.

Definition type_code (t : MessageType) : nat :=
  match t with NODE_REGISTER => 0 | NODE_UNREGISTER => 1 | NODE_CONNECT => 2 | NODE_ACCEPT => 3
  | NODE_LISTEN => 4 | NODE_BIND => 5 | SOCKET_UNREGISTER => 6 end.
#[global] Instance MessageType_countable : Countable MessageType.
Proof.
  refine (inj_countable' type_code
    (λ n, match n with 0 => NODE_REGISTER | 1 => NODE_UNREGISTER | 2 => NODE_CONNECT | 3 => NODE_ACCEPT
          | 4 => NODE_LISTEN | 5 => NODE_BIND | _ => SOCKET_UNREGISTER end) _). by intros [].
Defined.
#[global] Instance APIError_countable : Countable APIError.
Proof.
  refine (inj_countable' (λ e, (error_code e, error_what e, error_category e)) (λ '(c, w, k), mkAPIError c w k) _). by intros [].
Defined.
#[global] Instance ConnectBody_countable : Countable ConnectBody.
Proof.
  refine (inj_countable' (λ e, (c_node_id e, c_sh e, c_socket_id e)) (λ '(c, w, k), mkConnectBody c w k) _). by intros [].
Defined.
#[global] Instance BindBody_countable : Countable BindBody.
Proof.
  refine (inj_countable' (λ e, (b_node_id e, binary_private_key e, b58_private_key e)) (λ '(c, w, k), mkBindBody c w k) _). by intros [].
Defined.
#[global] Instance APIMessage_countable : Countable APIMessage.
Proof.
  refine (inj_countable'
    (λ m, (type m, message_token m, (error m, reply m), (node_register m, node_unregister m, node_connect m, node_accept m),
           (node_listen m, node_bind m, socket_unregister m)))
    (λ '(t, k, (e, y), (r, u, c, a), (l, b, s)), mkAPIMessage t k e y r u c a l b s) _). by intros [].
Defined.

Fixpoint bits (p : positive) : bytes :=
  match p with xH => [] | xO p => x00 :: bits p | xI p => x01 :: bits p end.
Fixpoint unbits (bs : bytes) : positive :=
  match bs with [] => xH | x00 :: bs => xO (unbits bs) | _ :: bs => xI (unbits bs) end.
Lemma unbits_bits p : unbits (bits p) = p.
Proof. induction p; simpl; congruence. Qed.

#[global] Program Instance toy_API : APIProto := {|
  serialize m := bits (encode m);
  ParseFromArray bs n := default APIMessage_new (decode (unbits (take (Z.to_nat n) bs)));
|}.
Next Obligation. intros m _. cbn beta. by rewrite Nat2Z.id, take_ge, unbits_bits, decode_encode by done. Qed.
End ToyAPI.

(** ** Properties *)

(** C5 The API byte stream is faithful: the messages one side sends, each with
    a serialised size of at most [INT_MAX] bytes, arrive at the other side in
    order and unchanged, through the blocking and the asynchronous receive
    alike, whatever the byte orders of the two machines, after which the end of
    the stream is reported as an error.  Of a larger message the first bytes,
    as many as its size modulo [2^32], are given to the parser, with that
    number converted to an [int], and the remaining bytes are left in the
    stream. *)
Theorem api_stream_roundtrip {AP : APIProto} (e1 e2 : endian) (ms : list APIMessage)
    (Hms : Forall (λ m, (Z.of_nat (length (serialize m)) ≤ INT_MAX)%Z) ms) :
  receive_all e2 (S (length ms)) (concat (send e1 <$> ms)) = ms ∧
  (∀ rest m, m ∈ ms → asyncReceive e2 (send e1 m ++ rest) = ((m, None), rest)) ∧
  receive e2 [] = ((APIMessage_new, Some (eof, generic_category)), []) ∧
  (∀ p rest, receive e2 (generateSendString e1 p ++ rest) =
     let size := u32 (Z.of_nat (length p)) in let n := Z.to_nat size in
     ((ParseFromArray (take n p) (i32 size), None), drop n p ++ rest)).
Proof.
  split; [|split; [|split; [done|intros; apply receive_frame]]].
  - induction Hms as [|m ms Hm Hms IH]; [done|]. cbn [length fmap list_fmap concat].
    change (receive_all e2 (S (S (length ms))) (send e1 m ++ concat (send e1 <$> ms)) = m :: ms).
    cbn [receive_all]. rewrite receive_send by done. by f_equal.
  - intros rest m Hin. rewrite asyncReceive_receive. apply receive_send.
    rewrite Forall_forall in Hms. by apply Hms.
Qed.

Lemma api_stream_roundtrip_witness :
  receive_all Big 2 (concat (send Little <$> [set_message_token 3 APIMessage_new])) = [set_message_token 3 APIMessage_new].
Proof.
  exact (proj1 (api_stream_roundtrip (AP:=ToyAPI.toy_API) Little Big [set_message_token 3 APIMessage_new]
    ltac:(constructor; [vm_compute; discriminate|constructor]))).
Defined.

(** The path loops of server and client: with at least one candidate path
    they use the first one that opens, and fail, with the error of the last
    one, exactly when none opens; and the candidates are the user's socket
    (for a user, unless disabled) followed by the system socket, never none. *)
Theorem socket_paths {P : PTree} (env : environment) (cfg : ConfigManager) (paths : list string)
    (open : string → option Z)
    (Hp : getSocketPathList env cfg = Ret paths) :
  paths ≠ [] ∧
  (∀ p, UnixAPIServer_open open paths = Ret p ↔
     ∃ i, paths !! i = Some p ∧ open p = None ∧ ∀ j q, j < i → paths !! j = Some q → open q ≠ None) ∧
  (∀ p, P2PUnixDaemon_connect open paths = Ret (Some p) ↔ UnixAPIServer_open open paths = Ret p) ∧
  (∀ code, P2PUnixDaemon_connect open paths = Throw (system_error code generic_category) ↔
     UnixAPIServer_open open paths = Throw (asio_error code)) ∧
  ((∃ code, UnixAPIServer_open open paths = Throw (asio_error code)) ↔ Forall (λ q, open q ≠ None) paths).
Proof.
  assert (paths ≠ []) as Hne.
  { unfold getSocketPathList in Hp. inv_ret. subst. by destruct r. }
  pose proof (path_loop_spec open paths) as Hl. unfold UnixAPIServer_open, P2PUnixDaemon_connect.
  destruct (path_loop open paths) as [[p|]|code]; [|done|].
  - destruct Hl as (i & Hi & Ho & Hb). split; [done|]. split; [|split; [|split]].
    + intros q. split; [intros [= <-]; eauto|]. intros (j & Hj & Hq & Hbj). f_equal.
      destruct (lt_eq_lt_dec i j) as [[?|?]|?]; [|congruence|].
      * by destruct (Hbj i p).
      * by destruct (Hb j q).
    + intros q. split; congruence.
    + intros code. split; congruence.
    + split; [by intros [? ?]|]. intros Hall. rewrite Forall_lookup in Hall. by destruct (Hall i p Hi).
  - destruct Hl as [Hall (p & _ & _)]. split; [done|]. split; [|split; [|split]].
    + intros q. split; [done|]. intros (j & Hj & Hq & _). rewrite Forall_lookup in Hall. by destruct (Hall j q Hj).
    + intros q. split; congruence.
    + intros c. split; congruence.
    + split; eauto.
Qed.

Lemma socket_paths_witness :
  UnixAPIServer_open (λ p, if decide (p = "/var/run/p2pnet/unix_api.sock") then None else Some 13%Z)
    ["/home/u/.p2pnet/unix_api.sock"; "/var/run/p2pnet/unix_api.sock"] = Ret "/var/run/p2pnet/unix_api.sock".
Proof.
  refine (proj2 (proj1 (proj2 (socket_paths (mkEnv None (Some "/home/u") "" 1000)
    (ConfigManager_new (mkEnv None (Some "/home/u") "" 1000) (λ _, None)) _ _ _)) _) _).
  - vm_compute. reflexivity.
  - exists 1. split; [reflexivity|]. split; [reflexivity|].
    intros [|j] q Hj Hq; [|lia]. injection Hq as <-. vm_compute. discriminate.
Defined.
