(* ===== verification/APISession.v ===== *)
(** * The daemon's API sessions ([daemon/api/APISession.cpp], [APIServer.cpp],
    [UnixAPIServer.cpp])

    The daemon's state is the node database and the live sessions; a session
    that was dropped is deleted.  [write_ok] tells which writes to a client's
    socket succeed. *)

From S2P Require Import Prelude StdMap Common Crypto Config NodeManager APISocket.
Import HashM KeyM.
From Stdlib Require Import ZArith Lia.

Section APISession.
Context {EC : ECDSA} {DG : Digest} {P : PTree}.

Record node_t := mkNode_t { node : Z; next_socket_id : Z; sockets : gmap Z Z }.

Record APISession := mkAPISession { nodes : list (Z * node_t); next_node_id : Z }.
Definition APISession_new : APISession := mkAPISession [] 1.

Record Daemon := mkDaemon { manager : NodeManager; sessions : gmap Z APISession; next_session : Z }.
Definition Daemon_new : Daemon := mkDaemon NodeManager_new ∅ 1.

Inductive effect :=
| Written (session : Z) (m : APIMessage)
| Receiving (session : Z).

Abbreviation DM := (M Daemon effect).

Definition set_manager (n : NodeManager) (s : Daemon) : Daemon := mkDaemon n (sessions s) (next_session s).
Definition set_sessions (f : gmap Z APISession → gmap Z APISession) (s : Daemon) : Daemon :=
  mkDaemon (manager s) (f (sessions s)) (next_session s).

Definition session_at (sid : Z) : DM APISession :=
  s ← get; lift (match sessions s !! sid with Some x => Ret x | None => Undef use_after_free end).
Definition update_session (sid : Z) (f : APISession → APISession) : DM unit :=
  x ← session_at sid; modify (set_sessions (<[sid := f x]>)).
Definition on_manager (f : NodeManager → outcome NodeManager) : DM unit :=
  s ← get; n ← lift (f (manager s)); modify (set_manager n).

Section Write.
Variable write_ok : Z → APIMessage → bool.

(** [APIServer::dropSession]: erase and delete. *)
Definition dropSession (sid : Z) : DM unit :=
  _ ← session_at sid; modify (set_sessions (delete sid)).

(** [UnixAPISession::send]. *)
Definition send (sid : Z) (m : APIMessage) : DM unit :=
  _ ← session_at sid;
  if write_ok sid m then emit (Written sid m) else dropSession sid.

(** The reply of [remoteThrow] is built and not sent. *)
Definition remoteThrow_reply (request : APIMessage) (e : Errors.P2PError) : APIMessage :=
  set_message_token (get_token request) (set_type (get_type request)
    (set_error (mkAPIError (Errors.error_code e) (Errors.message_c (Errors.error_code e))
                  (Errors.category_name P2PErrorCategory)) APIMessage_new)).
Definition remoteThrow (request : APIMessage) (e : Errors.P2PError) : DM unit :=
  let _ := remoteThrow_reply request e in skip.

(** The loop over the successors of the new node. *)
Fixpoint next_free (next : Z) (it : list (Z * node_t)) : Z :=
  match it with
  | [] => next
  | (k, _) :: it =>
      if decide (next = 0)%Z then next
      else if decide (k ≤ next)%Z then next_free (next +32 1)%word it else next
  end.

Definition NodeRegister (sid : Z) (request : APIMessage) : DM unit :=
  x ← session_at sid;
  if decide (next_node_id x = 0)%Z then remoteThrow request Errors.too_many_nodes else
  let node_id := next_node_id x in
  s ← get;
  let '(n, nm) := createNode (manager s) (Some sid) in
  modify (set_manager nm);;
  update_session sid (λ x, mkAPISession (sm_insert node_id (mkNode_t n 1 ∅) (nodes x)) (next_node_id x));;
  send sid (set_node_register node_id request);;
  update_session sid (λ x, mkAPISession (nodes x)
    (next_free (next_node_id x +32 1)%word (sm_after node_id (nodes x)))).

Definition NodeUnRegister (sid : Z) (request : APIMessage) : DM unit :=
  let node_id := default 0%Z (node_unregister request) in
  x ← session_at sid;
  match sm_find node_id (nodes x) with
  | None => remoteThrow request Errors.nonexistent_node
  | Some t =>
      on_manager (λ nm, destroyNode nm (node t));;
      update_session sid (λ x, mkAPISession (sm_erase node_id (nodes x))
        (if decide (next_node_id x > node_id ∨ next_node_id x = 0)%Z then node_id else next_node_id x));;
      send sid request
  end.

(** A [throw] without exception to rethrow. *)
Definition NodeConnect (sid : Z) (request : APIMessage) : DM unit := lift Terminate.
Definition NodeAccept (sid : Z) (request : APIMessage) : DM unit := lift Terminate.

Definition NodeListen (sid : Z) (request : APIMessage) : DM unit :=
  let '(i, mc) := default (None, None) (node_listen request) in
  x ← session_at sid;
  match sm_find (default 0%Z i) (nodes x) with
  | None => remoteThrow request Errors.nonexistent_node
  | Some t => on_manager (λ nm, Node_listen nm (node t) (default 0%Z mc));; send sid request
  end.

Definition NodeBind (sid : Z) (request : APIMessage) : DM unit :=
  let b := default (mkBindBody None None None) (node_bind request) in
  x ← session_at sid;
  match sm_find (default 0%Z (b_node_id b)) (nodes x) with
  | None => remoteThrow request Errors.nonexistent_node
  | Some t =>
      match binary_private_key b, b58_private_key b with
      | Some k, _ => key ← lift (fromBinaryString (T:=PrivateKeyDSA) k);
                     on_manager (λ nm, Node_bind nm (node t) key)
      | None, Some k => key ← lift (fromBase58 (T:=PrivateKeyDSA) k);
                        on_manager (λ nm, Node_bind nm (node t) key)
      | None, None => skip
      end;;
      send sid request
  end.

Definition SocketUnRegister (sid : Z) (request : APIMessage) : DM unit := skip.

Definition process (sid : Z) (request : APIMessage) : DM unit :=
  match get_type request with
  | NODE_REGISTER => NodeRegister sid request
  | NODE_UNREGISTER => NodeUnRegister sid request
  | NODE_CONNECT => NodeConnect sid request
  | NODE_ACCEPT => NodeAccept sid request
  | NODE_LISTEN => NodeListen sid request
  | NODE_BIND => NodeBind sid request
  | SOCKET_UNREGISTER => SocketUnRegister sid request
  end.

(** ** [UnixAPIServer] *)

Definition receiveLoop (sid : Z) : DM unit := _ ← session_at sid; emit (Receiving sid).

Definition handleAccept : DM unit :=
  s ← get;
  modify (λ s, mkDaemon (manager s) (<[next_session s := APISession_new]> (sessions s)) (next_session s + 1));;
  receiveLoop (next_session s).

Definition handleReceive (sid : Z) (m : APIMessage) (err : condition) : DM unit :=
  match err with
  | Some _ => dropSession sid
  | None => process sid m;; receiveLoop sid
  end.
End Write.

(** ** Node identifiers *)

(** The identifiers of a session are [1..2^32-1]; [next_node_id] is the
    smallest unused one, or 0 when all are used. *)
Definition ids_ok (x : APISession) : Prop :=
  sm_sorted (nodes x) ∧
  (∀ i, i ∈ (nodes x).*1 → 1 ≤ i < 2 ^ 32)%Z ∧
  (0 ≤ next_node_id x < 2 ^ 32)%Z ∧
  (next_node_id x ∉ (nodes x).*1) ∧
  (∀ i, 1 ≤ i < (if decide (next_node_id x = 0) then 2 ^ 32 else next_node_id x) → i ∈ (nodes x).*1)%Z.

Lemma ids_new : ids_ok APISession_new.
Proof.
  split; [constructor|]. split; [intros i Hi; by apply elem_of_nil in Hi|]. split; [simpl; lia|].
  split; [intros Hi; by apply elem_of_nil in Hi|]. simpl. intros i ?. lia.
Qed.

(** The loop finds the first gap behind [m]: before it, every identifier after
    [m] is among the successors. *)
Lemma next_free_spec it m next :
  sm_sorted it → (∀ k, k ∈ it.*1 → m < k < 2 ^ 32)%Z → (m + 1 = next)%Z → (0 ≤ m < 2 ^ 32)%Z →
  let r := next_free (u32 next) it in
  (0 ≤ r < 2 ^ 32)%Z ∧ (r ∉ it.*1) ∧ (r = 0 ∨ m < r)%Z ∧
  (∀ i, m < i < (if decide (r = 0) then 2 ^ 32 else r) → i ∈ it.*1)%Z.
Proof.
  revert m next. induction it as [|[k v] it IH]; intros m next Hs Hk Hm Hr.
  - cbn [next_free]. unfold u32. destruct (decide (next = 2 ^ 32)%Z) as [->|].
    + rewrite Z_mod_same_full. split; [lia|]. split; [apply not_elem_of_nil|]. split; [auto|]. simpl. lia.
    + rewrite Z.mod_small by lia. split; [lia|]. split; [apply not_elem_of_nil|]. split; [lia|].
      case_decide; lia.
  - apply sm_sorted_cons in Hs as [Hs Hlt].
    assert (m < k < 2 ^ 32)%Z as Hkr by (apply Hk; simpl; set_solver).
    assert (u32 next = next) as -> by (apply u32_small; unfold in_u32; lia).
    cbn [next_free]. rewrite decide_False by lia. case_decide as Hd.
    + assert (k = next) as -> by lia.
      destruct (IH next (next + 1)%Z) as (H1 & H2 & H3 & H4); [done| |done|lia|].
      { intros k' Hk'. split; [by apply Hlt|]. apply Hk. simpl. set_solver. }
      split; [done|]. split; [|split].
      * simpl. rewrite not_elem_of_cons. split; [lia|done].
      * lia.
      * intros i Hi. simpl. destruct (decide (i = next)) as [->|]; [set_solver|].
        apply elem_of_cons. right. apply H4. lia.
    + rewrite decide_False by lia. split; [lia|]. split; [|split; [lia|lia]].
      simpl. rewrite not_elem_of_cons. split; [lia|]. intros Hin. apply Hlt in Hin. lia.
Qed.

Definition registered (x : APISession) (t : node_t) : APISession :=
  let id := next_node_id x in
  let l := sm_insert id t (nodes x) in
  mkAPISession l (next_free (id +32 1)%word (sm_after id l)).

Lemma ids_register x t : ids_ok x → next_node_id x ≠ 0%Z → ids_ok (registered x t).
Proof.
  intros (Hs & Hk & Hr & Hn & Ha) Hne. unfold registered. set (id := next_node_id x) in *.
  set (l := sm_insert id t (nodes x)). rewrite decide_False in Ha by done.
  assert (sm_sorted l) as Hl by by apply sm_insert_sorted.
  assert (∀ i, i ∈ l.*1 ↔ i = id ∨ i ∈ (nodes x).*1) as Hkeys by apply sm_insert_keys.
  destruct (next_free_spec (sm_after id l) id (id + 1)%Z) as (H1 & H2 & H3 & H4).
  { by apply sm_after_sorted. }
  { intros k. rewrite sm_after_keys by done. intros [[->|Hin]%Hkeys ?]; [lia|]. apply Hk in Hin. lia. }
  { done. }
  { lia. }
  set (r := next_free (id +32 1)%word (sm_after id l)) in *.
  split; [done|]. cbn [nodes next_node_id]. split; [|split; [done|split]].
  - intros i [->|Hin]%Hkeys; [lia|by apply Hk].
  - intros Hin. destruct H3 as [E|Hgt].
    + rewrite E in Hin. apply Hkeys in Hin as [?|Hin]; [lia|]. apply Hk in Hin. lia.
    + apply H2. apply sm_after_keys; [done|]. split; [done|lia].
  - intros i Hi. apply Hkeys. destruct (Z.lt_trichotomy i id) as [?|[?|?]]; [right; apply Ha; lia|by left|].
    apply Hkeys. apply (sm_after_keys id l i); [done|]. apply H4. lia.
Qed.

Definition unregistered (x : APISession) (id : Z) : APISession :=
  mkAPISession (sm_erase id (nodes x))
    (if decide (next_node_id x > id ∨ next_node_id x = 0)%Z then id else next_node_id x).

Lemma ids_unregister x id : ids_ok x → id ∈ (nodes x).*1 → ids_ok (unregistered x id).
Proof.
  intros (Hs & Hk & Hr & Hn & Ha) Hid. pose proof (Hk id Hid) as Hidr. unfold unregistered.
  assert (∀ i, i ∈ (sm_erase id (nodes x)).*1 ↔ i ≠ id ∧ i ∈ (nodes x).*1) as Hkeys by (intros; by apply sm_erase_keys).
  split; [by apply sm_erase_sorted|]. cbn [nodes next_node_id].
  split; [intros i [_ Hin]%Hkeys; by apply Hk|].
  destruct (decide (next_node_id x > id ∨ next_node_id x = 0)%Z) as [Hd|Hd].
  - split; [lia|]. split; [rewrite Hkeys; naive_solver|].
    rewrite decide_False by lia. intros i Hi. apply Hkeys. split; [lia|]. apply Ha. case_decide; lia.
  - split; [lia|]. split; [rewrite Hkeys; naive_solver|].
    rewrite decide_False in * by lia. intros i Hi. apply Hkeys. split; [|by apply Ha].
    intros ->. assert (id ≠ next_node_id x) by congruence. lia.
Qed.

(** ** What the handlers do *)

Lemma run_session_at {B} sid x (f : APISession → DM B) s :
  sessions s !! sid = Some x → (session_at sid ≫= f) s = f x s.
Proof. intros H. unfold session_at. run. rewrite H. by run. Qed.
Lemma run_session_gone {B} sid (f : APISession → DM B) s :
  sessions s !! sid = None → (session_at sid ≫= f) s = Undef use_after_free.
Proof. intros H. unfold session_at. run. by rewrite H. Qed.
Lemma update_session_run sid f s x :
  sessions s !! sid = Some x → update_session sid f s = Ret (tt, set_sessions (<[sid := f x]>) s, []).
Proof. intros H. unfold update_session. by rewrite (run_session_at sid x). Qed.

Lemma session_send_run ok sid m s x :
  sessions s !! sid = Some x →
  send ok sid m s = if ok sid m then Ret (tt, s, [Written sid m]) else Ret (tt, set_sessions (delete sid) s, []).
Proof.
  intros H. unfold send. rewrite (run_session_at sid x) by done. destruct (ok sid m); [done|].
  unfold dropSession. by rewrite (run_session_at sid x).
Qed.

Lemma NodeRegister_run ok sid req s x :
  sessions s !! sid = Some x → next_node_id x ≠ 0%Z →
  NodeRegister ok sid req s =
    if ok sid (set_node_register (next_node_id x) req) then
      Ret (tt, mkDaemon (createNode (manager s) (Some sid)).2
                 (<[sid := registered x (mkNode_t (createNode (manager s) (Some sid)).1 1 ∅)]> (sessions s)) (next_session s),
           [Written sid (set_node_register (next_node_id x) req)])
    else Undef use_after_free.
Proof.
  intros H Hn. unfold NodeRegister. rewrite (run_session_at sid x) by done. rewrite decide_False by done. run.
  destruct (createNode (manager s) (Some sid)) as [n nm]. cbn [fst snd]. run.
  erewrite run_bind by (apply update_session_run; exact H). rewrite after_nil.
  unfold mbind at 1, M_bind at 1. erewrite session_send_run by (apply lookup_insert_eq).
  destruct (ok sid (set_node_register (next_node_id x) req)).
  - erewrite update_session_run by (apply lookup_insert_eq).
    unfold set_sessions, set_manager, registered. simpl. by rewrite insert_insert_eq.
  - unfold update_session. rewrite run_session_gone; [done|]. apply lookup_delete_eq.
Qed.

Lemma on_manager_run f s nm : f (manager s) = Ret nm → on_manager f s = Ret (tt, set_manager nm s, []).
Proof. intros H. unfold on_manager. run. rewrite H. by run. Qed.

Lemma NodeUnRegister_run ok sid req s x i t nm :
  sessions s !! sid = Some x → node_unregister req = Some i → sm_find i (nodes x) = Some t →
  destroyNode (manager s) (node t) = Ret nm →
  NodeUnRegister ok sid req s =
    let s' := mkDaemon nm (<[sid := unregistered x i]> (sessions s)) (next_session s) in
    if ok sid req then Ret (tt, s', [Written sid req]) else Ret (tt, set_sessions (delete sid) s', []).
Proof.
  intros H Hid Ht Hnm. unfold NodeUnRegister. rewrite Hid. change (default 0%Z (Some i)) with i.
  rewrite (run_session_at sid x) by done. rewrite Ht.
  erewrite run_bind by (by apply on_manager_run). rewrite after_nil.
  erewrite run_bind by (apply update_session_run; exact H). rewrite after_nil.
  erewrite session_send_run by (apply lookup_insert_eq). done.
Qed.

(** ** Every request keeps the identifiers in order *)

Definition DInv (s : Daemon) : Prop := ∀ sid x, sessions s !! sid = Some x → ids_ok x.

(** Session [sid] is handled; the others are as they were. *)
Definition only (sid : Z) (s s' : Daemon) : Prop :=
  ∀ o, o ≠ sid → sessions s' !! o = sessions s !! o.

Definition keeps (sid : Z) (m : DM unit) : Prop :=
  ∀ s s' es, DInv s → m s = Ret (tt, s', es) → DInv s' ∧ only sid s s'.

Lemma keeps_same sid m : (∀ s s' es, m s = Ret (tt, s', es) → sessions s' = sessions s) → keeps sid m.
Proof.
  intros Hm s s' es HI H. apply Hm in H. split; [|by intros o _; rewrite H].
  intros o x. rewrite H. apply HI.
Qed.
Lemma keeps_bind sid m f : keeps sid m → (∀ u, keeps sid (f u)) → keeps sid (m ≫= f).
Proof.
  intros Hm Hf s s' es HI ([] & s1 & e1 & e2 & H1 & H2 & _)%M_bind_Ret.
  destruct (Hm _ _ _ HI H1) as [HI1 Ho1]. destruct (Hf tt _ _ _ HI1 H2) as [HI2 Ho2].
  split; [done|]. intros o Ho. by rewrite Ho2, Ho1.
Qed.
Lemma keeps_skip sid : keeps sid skip.
Proof. apply keeps_same. by intros s s' es [= <- <-]. Qed.
Lemma keeps_lift {A} sid (o : outcome A) (f : A → DM unit) : (∀ a, keeps sid (f a)) → keeps sid (lift o ≫= f).
Proof.
  intros Hf s s' es HI (a & s1 & e1 & e2 & H1 & H2 & _)%M_bind_Ret. unfold lift in H1.
  apply bind_Ret in H1 as (b & _ & [= <- <- <-]). by eapply Hf.
Qed.
Lemma keeps_manager sid f : keeps sid (on_manager f).
Proof.
  apply keeps_same. intros s s' es H. unfold on_manager in H. rewrite run_get in H.
  apply M_bind_Ret in H as (nm & s1 & e1 & e2 & H1 & [= <- <-] & _). unfold lift in H1.
  apply bind_Ret in H1 as (b & _ & [= <- <- <-]). done.
Qed.
Lemma keeps_drop sid : keeps sid (dropSession sid).
Proof.
  intros s s' es HI H. unfold dropSession in H. destruct (sessions s !! sid) as [x|] eqn:Hx;
    [|by rewrite run_session_gone in H]. rewrite (run_session_at sid x) in H by done. injection H as <- <-.
  split; [|intros o Ho; simpl; by rewrite lookup_delete_ne]. intros o y. simpl.
  intros [_ Hy]%lookup_delete_Some. by eapply HI.
Qed.
Lemma keeps_send ok sid m : keeps sid (send ok sid m).
Proof.
  intros s s' es HI H. unfold send in H. destruct (sessions s !! sid) as [x|] eqn:Hx;
    [|by rewrite run_session_gone in H]. rewrite (run_session_at sid x) in H by done.
  destruct (ok sid m); [|by eapply keeps_drop]. injection H as <- <-. by split.
Qed.
Lemma keeps_session sid (f : APISession → DM unit) :
  (∀ s s' es x, DInv s → sessions s !! sid = Some x → f x s = Ret (tt, s', es) → DInv s' ∧ only sid s s') →
  keeps sid (session_at sid ≫= f).
Proof.
  intros Hf s s' es HI H. destruct (sessions s !! sid) as [x|] eqn:Hx;
    [|by rewrite run_session_gone in H]. rewrite (run_session_at sid x) in H by done. by eapply Hf.
Qed.

Lemma DInv_set s sid x nm :
  DInv s → ids_ok x →
  DInv (mkDaemon nm (<[sid := x]> (sessions s)) (next_session s)) ∧
  only sid s (mkDaemon nm (<[sid := x]> (sessions s)) (next_session s)).
Proof.
  intros HI Hx. split; [|intros o Ho; simpl; by rewrite lookup_insert_ne].
  intros o y. simpl. rewrite lookup_insert_Some. intros [[_ <-]|[_ Hy]]; [done|by eapply HI].
Qed.

Lemma keeps_register ok sid req : keeps sid (NodeRegister ok sid req).
Proof.
  intros s s' es HI H. destruct (sessions s !! sid) as [x|] eqn:Hx;
    [|unfold NodeRegister in H; by rewrite run_session_gone in H].
  destruct (decide (next_node_id x = 0)%Z) as [E|E].
  - unfold NodeRegister in H. rewrite (run_session_at sid x) in H by done. rewrite decide_True in H by done.
    injection H as <- <-. by split.
  - rewrite (NodeRegister_run ok sid req s x) in H by done.
    destruct (ok sid _); [|done]. injection H as <- <-. apply DInv_set; [done|]. apply ids_register; [|done]. by eapply HI.
Qed.

Lemma keeps_unregister ok sid req : keeps sid (NodeUnRegister ok sid req).
Proof.
  apply keeps_session. intros s s' es x HI Hx. set (id := default 0%Z (node_unregister req)).
  destruct (sm_find id (nodes x)) as [t|] eqn:Ht; [|by intros [= <- <-]].
  intros ([] & s1 & e1 & e2 & H1 & H & _)%M_bind_Ret.
  unfold on_manager in H1. rewrite run_get in H1.
  apply M_bind_Ret in H1 as (nm & s2 & e3 & e4 & H1 & [= <- <-] & _). unfold lift in H1.
  apply bind_Ret in H1 as (b & _ & [= <- <- <-]).
  apply M_bind_Ret in H as ([] & s3 & e5 & e6 & H2 & H3 & _).
  rewrite (update_session_run sid _ _ x) in H2 by done. injection H2 as <- <-.
  destruct (DInv_set s sid (unregistered x id) b HI) as [HI3 Ho3].
  { apply ids_unregister; [by eapply HI|]. by eapply sm_find_Some_key. }
  destruct (keeps_send ok sid req _ _ _ HI3 H3) as [? Ho]. split; [done|]. intros o Hne. by rewrite Ho, Ho3.
Qed.

Lemma keeps_process ok sid m : keeps sid (process ok sid m).
Proof.
  unfold process. destruct (get_type m).
  - apply keeps_register.
  - apply keeps_unregister.
  - by intros s s' es HI H.
  - by intros s s' es HI H.
  - unfold NodeListen. destruct (default _ (node_listen m)) as [i mc]. apply keeps_session. intros s s' es x HI Hx.
    destruct (sm_find _ _) as [t|]; [|by intros [= <- <-]].
    revert s s' es HI Hx. intros s s' es HI _. apply keeps_bind; [apply keeps_manager|intros; apply keeps_send|done].
  - unfold NodeBind. apply keeps_session. intros s s' es x HI Hx.
    destruct (sm_find _ _) as [t|]; [|by intros [= <- <-]]. revert HI.
    apply keeps_bind; [|intros; apply keeps_send].
    destruct (binary_private_key _); [apply keeps_lift; intros; apply keeps_manager|].
    destruct (b58_private_key _); [apply keeps_lift; intros; apply keeps_manager|apply keeps_skip].
  - apply keeps_skip.
Qed.

Lemma keeps_receiveLoop sid : keeps sid (receiveLoop sid).
Proof. apply keeps_session. intros s s' es x HI _ [= <- <-]. by split. Qed.

Lemma keeps_handleReceive ok sid m err : keeps sid (handleReceive ok sid m err).
Proof.
  destruct err; [apply keeps_drop|]. apply keeps_bind; [apply keeps_process|intros; apply keeps_receiveLoop].
Qed.

(** The io service of the API: connections of clients, and what arrives. *)
Inductive server_event :=
| Accepted
| Arrived (ok : Z → APIMessage → bool) (sid : Z) (m : APIMessage) (err : condition).

Definition serve (e : server_event) : DM unit :=
  match e with
  | Accepted => handleAccept
  | Arrived ok sid m err => handleReceive ok sid m err
  end.
Definition serve_all (es : list server_event) : DM unit := forM es serve.

Lemma DInv_accept s s' es : DInv s → handleAccept s = Ret (tt, s', es) → DInv s'.
Proof.
  intros HI H. unfold handleAccept in H. rewrite run_get, run_modify in H. unfold receiveLoop in H.
  rewrite (run_session_at _ APISession_new) in H by (simpl; apply lookup_insert_eq). injection H as <- <-.
  intros sid x. simpl. rewrite lookup_insert_Some. intros [[_ <-]|[_ Hx]]; [apply ids_new|by eapply HI].
Qed.

Lemma DInv_serve_all evs s s' es : DInv s → serve_all evs s = Ret (tt, s', es) → DInv s'.
Proof.
  revert s es. induction evs as [|e evs IH]; intros s es HI H; [by injection H as <- <-|].
  cbn in H. apply M_bind_Ret in H as ([] & s1 & e1 & e2 & H1 & H2 & _). eapply IH; [|exact H2].
  destruct e as [|ok sid m err]; [by eapply DInv_accept|]. by eapply keeps_handleReceive in H1 as [? _].
Qed.

(** ** Served requests *)

Lemma receiveLoop_run sid x s : sessions s !! sid = Some x → receiveLoop sid s = Ret (tt, s, [Receiving sid]).
Proof. intros H. unfold receiveLoop. by rewrite (run_session_at sid x). Qed.

Definition new_node_t (s : Daemon) : node_t := mkNode_t (next_ptr (manager s)) 1 ∅.

Lemma serve_register ok sid req s x :
  sessions s !! sid = Some x → next_node_id x ≠ 0%Z → get_type req = NODE_REGISTER →
  ok sid (set_node_register (next_node_id x) req) = true →
  serve (Arrived ok sid req None) s = Ret (tt,
    mkDaemon (createNode (manager s) (Some sid)).2 (<[sid := registered x (new_node_t s)]> (sessions s)) (next_session s),
    [Written sid (set_node_register (next_node_id x) req); Receiving sid]).
Proof.
  intros Hx Hne Ht Hok. cbn [serve handleReceive]. unfold process. rewrite Ht.
  erewrite run_bind by (rewrite (NodeRegister_run ok sid req s x) by done; by rewrite Hok).
  by erewrite receiveLoop_run by (apply lookup_insert_eq).
Qed.

Lemma serve_unregister ok sid req s x i t nm :
  sessions s !! sid = Some x → get_type req = NODE_UNREGISTER → node_unregister req = Some i →
  sm_find i (nodes x) = Some t → destroyNode (manager s) (node t) = Ret nm → ok sid req = true →
  serve (Arrived ok sid req None) s = Ret (tt,
    mkDaemon nm (<[sid := unregistered x i]> (sessions s)) (next_session s), [Written sid req; Receiving sid]).
Proof.
  intros Hx Ht Hi Hf Hnm Hok. cbn [serve handleReceive]. unfold process. rewrite Ht.
  erewrite run_bind by (erewrite (NodeUnRegister_run ok sid req s x) by done; cbv zeta; by rewrite Hok).
  by erewrite receiveLoop_run by (apply lookup_insert_eq).
Qed.

Lemma serve_listen ok sid req s x i n t nm :
  sessions s !! sid = Some x → get_type req = NODE_LISTEN → node_listen req = Some (Some i, Some n) →
  sm_find i (nodes x) = Some t → Node_listen (manager s) (node t) n = Ret nm → ok sid req = true →
  serve (Arrived ok sid req None) s = Ret (tt, set_manager nm s, [Written sid req; Receiving sid]).
Proof.
  intros Hx Ht Hi Hf Hnm Hok. cbn [serve handleReceive]. unfold process. rewrite Ht. unfold NodeListen. rewrite Hi.
  change (default (None, None) (Some (Some i, Some n))) with (Some i, Some n). cbv iota.
  change (default 0%Z (Some i)) with i. change (default 0%Z (Some n)) with n.
  rewrite run_assoc, (run_session_at sid x), Hf by done. rewrite run_assoc.
  erewrite run_bind by (by apply on_manager_run). rewrite after_nil.
  erewrite run_bind by (erewrite session_send_run by (exact Hx); by rewrite Hok).
  by erewrite receiveLoop_run by (exact Hx).
Qed.

Lemma serve_bind_b58 ok sid req s x i b58 key t nm :
  sessions s !! sid = Some x → get_type req = NODE_BIND → node_bind req = Some (mkBindBody (Some i) None (Some b58)) →
  sm_find i (nodes x) = Some t → fromBase58 (T:=PrivateKeyDSA) b58 = Ret key →
  Node_bind (manager s) (node t) key = Ret nm → ok sid req = true →
  serve (Arrived ok sid req None) s = Ret (tt, set_manager nm s, [Written sid req; Receiving sid]).
Proof.
  intros Hx Ht Hi Hf Hkey Hnm Hok. cbn [serve handleReceive]. unfold process. rewrite Ht. unfold NodeBind. rewrite Hi.
  change (default (mkBindBody None None None) (Some (mkBindBody (Some i) None (Some b58)))) with (mkBindBody (Some i) None (Some b58)).
  cbn [b_node_id binary_private_key b58_private_key]. change (default 0%Z (Some i)) with i.
  rewrite run_assoc, (run_session_at sid x), Hf by done. rewrite Hkey, !run_assoc, run_lift.
  erewrite run_bind by (by apply on_manager_run). rewrite after_nil.
  erewrite run_bind by (erewrite session_send_run by (exact Hx); by rewrite Hok).
  by erewrite receiveLoop_run by (exact Hx).
Qed.

(** The node a registration creates can be destroyed. *)
Lemma destroy_created (nm : NodeManager) api :
  let s1 := (createNode nm api).2 in
  destroyNode s1 (next_ptr nm) = Ret (set_heap (delete (next_ptr nm)) (set_unbound (λ u, u ∖ {[next_ptr nm]}) s1)).
Proof.
  intros s1. unfold destroyNode. rewrite decide_True by (simpl; set_solver). simpl. unfold delete_node, node_at. simpl.
  by rewrite lookup_insert_eq.
Qed.
End APISession.

(** A key that was not there, inserted and erased again. *)
Lemma sm_erase_insert {V} k (v : V) m : sm_find k m = None → sm_erase k (sm_insert k v m) = m.
Proof.
  induction m as [|[k1 v1] m IH]; intros H; simpl in *; [by rewrite decide_True|].
  destruct (decide (k = k1)) as [|Hne]; [done|]. destruct (decide (k < k1)%Z); simpl.
  - by rewrite decide_True.
  - rewrite decide_False by done. by rewrite IH.
Qed.

Lemma unregistered_registered x t : ids_ok x → next_node_id x ≠ 0%Z → unregistered (registered x t) (next_node_id x) = x.
Proof.
  intros Hok Hne. pose proof Hok as (Hs & Hk & Hr & Hn & _).
  pose proof (ids_register x t Hok Hne) as (_ & _ & Hr' & Hn' & Ha').
  unfold unregistered. rewrite decide_True.
  - unfold registered. cbn [nodes]. rewrite sm_erase_insert by (by apply sm_find_None). by destruct x.
  - assert (next_node_id (registered x t) ≠ next_node_id x) as Hd.
    { intros E. apply Hn'. rewrite E. unfold registered. cbn [nodes]. apply sm_insert_keys. by left. }
    destruct (decide (next_node_id (registered x t) = 0)%Z) as [|Hz]; [by right|]. left.
    destruct (Z.lt_trichotomy (next_node_id (registered x t)) (next_node_id x)) as [Hlt|[?|?]]; [|done|lia].
    exfalso. destruct Hok as (_ & _ & _ & _ & Ha). rewrite decide_False in Ha by done.
    apply Hn'. unfold registered at 2. cbn [nodes]. apply sm_insert_keys. right. apply Ha. lia.
Qed.

(** ** Properties *)

(** C2 Node identifiers of the API: whatever the clients send and however
    their sockets fail, every live session hands out identifiers in
    [1..2^32-1]; its next identifier is unused and every smaller one is in
    use, and it is 0 exactly when all are in use. *)
Theorem api_node_ids {EC : ECDSA} {DG : Digest}
    (evs : list server_event) (s : Daemon) (es : list effect) (sid : Z) (x : APISession)
    (H : serve_all evs Daemon_new = Ret (tt, s, es)) (Hx : sessions s !! sid = Some x) :
  (∀ i, i ∈ (nodes x).*1 → 1 ≤ i < 2 ^ 32)%Z ∧
  (next_node_id x ≠ 0%Z → (next_node_id x ∉ (nodes x).*1) ∧ (1 ≤ next_node_id x < 2 ^ 32)%Z ∧
     ∀ i, (1 ≤ i < next_node_id x)%Z → i ∈ (nodes x).*1) ∧
  (next_node_id x = 0%Z ↔ ∀ i, (1 ≤ i < 2 ^ 32)%Z → i ∈ (nodes x).*1).
Proof.
  assert (DInv s) as HI. { eapply DInv_serve_all; [|exact H]. by intros ? ?. }
  destruct (HI sid x Hx) as (_ & Hk & Hr & Hn & Ha). split; [done|]. split.
  - intros Hne. rewrite decide_False in Ha by done. split; [done|]. split; [lia|done].
  - split; [intros E; by rewrite E in Ha|]. intros Hall.
    destruct (decide (next_node_id x = 0)%Z); [done|]. exfalso. apply Hn, Hall. lia.
Qed.

(** A client connects and registers a node. *)
Module Demo.
#[local] Existing Instances Toy.toy_ECDSA Toy.toy_Digest.
Definition all_ok : Z → APIMessage → bool := λ _ _, true.
Definition request : APIMessage := set_message_token 7 (set_type NODE_REGISTER APIMessage_new).
Definition evs : list server_event := [Accepted; Arrived all_ok 1 request None].
Definition result := serve_all (EC:=Toy.toy_ECDSA) (DG:=Toy.toy_Digest) evs (Daemon_new (EC:=Toy.toy_ECDSA)).
Definition state : Daemon (EC:=Toy.toy_ECDSA) := match result with Ret (_, s, _) => s | _ => Daemon_new end.
Definition effects : list effect := match result with Ret (_, _, es) => es | _ => [] end.
Definition session : APISession := default APISession_new (sessions state !! 1%Z).

Lemma served_ok : serve_all evs (Daemon_new (EC:=Toy.toy_ECDSA)) = Ret (tt, state, effects).
Proof.
  assert (match result with Ret _ => true | _ => false end = true) as Hb by (vm_compute; reflexivity).
  unfold state, effects. fold result. destruct result as [[[[] s] es]| | | |]; [reflexivity|discriminate Hb..].
Defined.
Lemma session_ok : sessions state !! 1%Z = Some session.
Proof.
  assert (bool_decide (is_Some (sessions state !! 1%Z)) = true) as Hb by (vm_compute; reflexivity).
  unfold session. destruct (sessions state !! 1%Z); [reflexivity|discriminate Hb].
Defined.
End Demo.

Lemma api_node_ids_witness : (2%Z ∉ (nodes Demo.session).*1) ∧ next_node_id Demo.session = 2%Z.
Proof.
  assert (next_node_id Demo.session = 2%Z) as E by (vm_compute; reflexivity). split; [|exact E].
  rewrite <-E. refine (proj1 (proj1 (proj2 (api_node_ids _ _ _ _ _ Demo.served_ok Demo.session_ok)) _)).
  rewrite E. discriminate.
Defined.

(** C11 Registering and unregistering a node: the reply is the request, token
    included, with the smallest free identifier; the new node is fresh,
    unbound and belongs to the session; the other identifiers and the other
    sessions are unchanged; and unregistering that identifier is acknowledged,
    deletes the node and leaves every session as it was. *)
Theorem api_register_unregister {EC : ECDSA} {DG : Digest}
    (evs : list server_event) (s : Daemon) (es : list effect) (sid : Z) (x : APISession)
    (ok : Z → APIMessage → bool) (req req' : APIMessage)
    (H : serve_all evs Daemon_new = Ret (tt, s, es)) (Hx : sessions s !! sid = Some x)
    (Hok : ∀ m, ok sid m = true) (Hne : next_node_id x ≠ 0%Z)
    (Ht : get_type req = NODE_REGISTER) (Ht' : get_type req' = NODE_UNREGISTER)
    (Hid : node_unregister req' = Some (next_node_id x)) :
  let reply := set_node_register (next_node_id x) req in
  message_token reply = message_token req ∧
  ∃ s1 x1 t s2,
    serve (Arrived ok sid req None) s = Ret (tt, s1, [Written sid reply; Receiving sid]) ∧
    sessions s1 = <[sid := x1]> (sessions s) ∧
    sm_find (next_node_id x) (nodes x1) = Some t ∧
    (∀ i, i ≠ next_node_id x → sm_find i (nodes x1) = sm_find i (nodes x)) ∧
    heap (manager s1) !! node t = Some (Node_new (Some sid)) ∧ node t ∈ nodes_unbound (manager s1) ∧
    serve (Arrived ok sid req' None) s1 = Ret (tt, s2, [Written sid req'; Receiving sid]) ∧
    sessions s2 = sessions s ∧ heap (manager s2) !! node t = None.
Proof.
  assert (DInv s) as HI. { eapply DInv_serve_all; [|exact H]. by intros ? ?. }
  pose proof (HI sid x Hx) as Hids. intros reply. split; [done|].
  set (t := new_node_t s). set (x1 := registered x t).
  set (s1 := mkDaemon (createNode (manager s) (Some sid)).2 (<[sid := x1]> (sessions s)) (next_session s)).
  assert (sm_find (next_node_id x) (nodes x1) = Some t) as Hf by (apply sm_find_insert, sm_find_None; apply Hids).
  eexists s1, x1, t, _. split; [by apply serve_register|]. split; [done|]. split; [done|].
  split; [intros i Hi; by apply sm_find_insert_ne|]. split; [simpl; by rewrite lookup_insert_eq|].
  split; [simpl; set_solver|]. split; [|split].
  - eapply serve_unregister; [apply lookup_insert_eq|done|done|exact Hf|apply destroy_created|done].
  - cbn [sessions s1]. rewrite insert_insert_eq. unfold x1. rewrite unregistered_registered by done.
    by apply insert_id.
  - simpl. apply lookup_delete_eq.
Qed.

Lemma api_register_unregister_witness :
  ∃ s1, serve (Arrived Demo.all_ok 1 Demo.request None) Demo.state =
          Ret (tt, s1, [Written 1 (set_node_register 2 Demo.request); Receiving 1]).
Proof.
  assert (next_node_id Demo.session = 2%Z) as E by (vm_compute; reflexivity).
  destruct (api_register_unregister Demo.evs Demo.state Demo.effects 1 Demo.session Demo.all_ok Demo.request
    (set_node_unregister 2 (set_type NODE_UNREGISTER APIMessage_new)) Demo.served_ok Demo.session_ok)
    as (_ & s1 & x1 & t & s2 & H1 & _).
  - reflexivity.
  - rewrite E. discriminate.
  - reflexivity.
  - reflexivity.
  - rewrite E. reflexivity.
  - rewrite E in H1. exists s1. exact H1.
Defined.

(** C37 What the API does with requests it cannot serve: a request naming an
    unknown node, and a registration when all identifiers are used, change
    nothing and are never answered (the error reply is built but not sent);
    connect and accept requests terminate the daemon; and a registration whose
    reply cannot be written uses the deleted session. *)
Theorem api_failures {EC : ECDSA} {DG : Digest}
    (s : Daemon) (sid : Z) (x : APISession) (ok : Z → APIMessage → bool) (req : APIMessage)
    (Hx : sessions s !! sid = Some x) :
  (∀ id, sm_find id (nodes x) = None →
     (get_type req = NODE_UNREGISTER ∧ node_unregister req = Some id) ∨
     (get_type req = NODE_LISTEN ∧ ∃ n, node_listen req = Some (Some id, n)) ∨
     (get_type req = NODE_BIND ∧ ∃ b, node_bind req = Some b ∧ b_node_id b = Some id) →
     serve (Arrived ok sid req None) s = Ret (tt, s, [Receiving sid])) ∧
  (get_type req = NODE_REGISTER → next_node_id x = 0%Z →
     serve (Arrived ok sid req None) s = Ret (tt, s, [Receiving sid])) ∧
  (get_type req = NODE_CONNECT ∨ get_type req = NODE_ACCEPT → serve (Arrived ok sid req None) s = Terminate) ∧
  (get_type req = NODE_REGISTER → next_node_id x ≠ 0%Z → (∀ m, ok sid m = false) →
     serve (Arrived ok sid req None) s = Undef use_after_free).
Proof.
  assert (receiveLoop sid s = Ret (tt, s, [Receiving sid])) as Hl.
  { unfold receiveLoop. by rewrite (run_session_at sid x). }
  cbn [serve handleReceive]. unfold process. split; [|split; [|split]].
  - intros i Hi [[-> Hr]|[[-> [n Hr]]|[-> (b & Hr & Hbi)]]].
    + unfold NodeUnRegister. rewrite Hr. change (default 0%Z (Some i)) with i.
      rewrite run_assoc, (run_session_at sid x), Hi by done. unfold remoteThrow. by rewrite run_skip.
    + unfold NodeListen. rewrite Hr. change (default (None, None) (Some (Some i, n))) with (Some i, n).
      cbv iota. change (default 0%Z (Some i)) with i.
      rewrite run_assoc, (run_session_at sid x), Hi by done. unfold remoteThrow. by rewrite run_skip.
    + unfold NodeBind. rewrite Hr. change (default (mkBindBody None None None) (Some b)) with b.
      cbv zeta. rewrite Hbi. change (default 0%Z (Some i)) with i.
      rewrite run_assoc, (run_session_at sid x), Hi by done. unfold remoteThrow. by rewrite run_skip.
  - intros -> E. unfold NodeRegister. rewrite run_assoc, (run_session_at sid x), decide_True by done.
    unfold remoteThrow. by rewrite run_skip.
  - by intros [-> | ->].
  - intros -> E Hf. unfold mbind, M_bind. rewrite (NodeRegister_run ok sid req s x) by done. by rewrite Hf.
Qed.

Lemma api_failures_witness :
  serve (Arrived Demo.all_ok 1 (set_type NODE_ACCEPT APIMessage_new) None) Demo.state = Terminate.
Proof.
  refine (proj1 (proj2 (proj2 (api_failures Demo.state 1 Demo.session Demo.all_ok
    (set_type NODE_ACCEPT APIMessage_new) Demo.session_ok))) _).
  right. reflexivity.
Defined.
