(* ===== verification/APINodes.v ===== *)
(** * The sessions of the API and the node database

    A session's table holds raw pointers to nodes of the database
    ([APISession::node_t::node], [daemon/api/APISession.h]); a node holds the
    session that created it ([daemon/p2p/Node.h]).  Here the two are kept
    together through every request, accept and drop, and every outcome of a
    request is classified. *)

From S2P Require Import Prelude StdMap Common Crypto Config NodeManager APISocket APISession.
Import HashM KeyM.
From Stdlib Require Import ZArith Lia.

Section APINodes.
Context {EC : ECDSA} {DG : Digest}.

(** Session [sid] is live and calls node [n] by identifier [i]. *)
Definition entry (d : Daemon) (sid i n : Z) : Prop :=
  ∃ x t, sessions d !! sid = Some x ∧ sm_find i (nodes x) = Some t ∧ node t = n.

(** Every entry leads to a live node of its session, no two entries share a
    node, and the nodes of a live session are in its table. *)
Record linked (d : Daemon) : Prop := {
  lk_entry : ∀ sid i n, entry d sid i n → ∃ y, heap (manager d) !! n = Some y ∧ api_session y = Some sid;
  lk_inj : ∀ sid i i' n, entry d sid i n → entry d sid i' n → i = i';
  lk_fresh : ∀ n y, heap (manager d) !! n = Some y → (n < next_ptr (manager d))%Z;
  lk_owner : ∀ n y, heap (manager d) !! n = Some y → ∃ sid, api_session y = Some sid ∧ (sid < next_session d)%Z ∧
    (is_Some (sessions d !! sid) → ∃ i, entry d sid i n);
  lk_session : ∀ sid, is_Some (sessions d !! sid) → (sid < next_session d)%Z;
  lk_ids : DInv d;
}.

Lemma linked_new : linked Daemon_new.
Proof.
  assert (∀ sid i n, ¬ entry Daemon_new sid i n) as Hno.
  { intros sid i n (x & t & H & _). cbn [Daemon_new sessions] in H. by rewrite lookup_empty in H. }
  constructor.
  - intros sid i n H. by destruct (Hno sid i n).
  - intros sid i i' n H. by destruct (Hno sid i n).
  - intros n y H. cbn [Daemon_new manager NodeManager_new heap] in H. by rewrite lookup_empty in H.
  - intros n y H. cbn [Daemon_new manager NodeManager_new heap] in H. by rewrite lookup_empty in H.
  - intros sid. cbn [Daemon_new sessions]. rewrite lookup_empty. by intros [? ?].
  - intros sid x H. cbn [Daemon_new sessions] in H. by rewrite lookup_empty in H.
Qed.

(** *** What the calls of the manager do to the heap *)

(** Node [n] changes and keeps its session. *)
Definition retouched (n : Z) (nm nm' : NodeManager) : Prop :=
  next_ptr nm' = next_ptr nm ∧
  ∃ x y, heap nm !! n = Some x ∧ heap nm' = <[n := y]> (heap nm) ∧ api_session y = api_session x.

Lemma retouched_session n nm nm' m : retouched n nm nm' → api_session <$> heap nm' !! m = api_session <$> heap nm !! m.
Proof.
  intros (_ & x & y & Hx & -> & Hy). destruct (decide (m = n)) as [->|Hne]; [|by rewrite lookup_insert_ne].
  rewrite lookup_insert_eq, Hx. simpl. by rewrite Hy.
Qed.

(** A bind of a live node returns or finds the database inconsistent. *)
Lemma Node_bind_cases nm n k x : heap nm !! n = Some x →
  (∃ nm', Node_bind nm n (Some k) = Ret nm' ∧ retouched n nm nm') ∨ Node_bind nm n (Some k) = Throw db_non_consistent.
Proof.
  intros Hx. rewrite (Node_bind_unfold nm n k x) by done. set (nm1 := set_heap _ nm).
  assert (∃ bound unbound, bindNode nm1 n (mkHash (key_sh k) false) =
      Ret (mkNodeManager bound unbound (heap nm1) (NodeManager.sockets nm) (p2p_connections nm) (next_ptr nm))
    ∨ bindNode nm1 n (mkHash (key_sh k) false) = Throw db_non_consistent) as (bd & ub & [->| ->]); [|left|by right].
  - unfold bindNode, node_at. cbn [nm1 set_heap heap]. rewrite lookup_insert_eq.
    case_decide; cbn [mbind outcome_bind]; [eexists _, _; by left|]. cbn [nodes_bound set_heap].
    case_match; [eexists _, _; by left|exists ∅, ∅; by right].
  - eexists. split; [reflexivity|]. split; [done|]. by eexists x, _.
Qed.

Lemma Node_listen_cases nm n max x : heap nm !! n = Some x → ∃ nm', Node_listen nm n max = Ret nm' ∧ retouched n nm nm'.
Proof.
  intros Hx. unfold Node_listen, node_at. rewrite Hx. eexists. split; [reflexivity|]. split; [done|].
  by eexists x, _.
Qed.

Lemma destroyNode_cases nm n x : heap nm !! n = Some x →
  (∃ nm', destroyNode nm n = Ret nm' ∧ heap nm' = delete n (heap nm) ∧ next_ptr nm' = next_ptr nm) ∨
  destroyNode nm n = Throw db_non_consistent.
Proof.
  intros Hx. unfold destroyNode, delete_node, node_at. rewrite Hx. case_decide; cbn [mbind outcome_bind].
  - left. cbn [set_unbound heap]. rewrite Hx. by eexists.
  - destruct (nodes_bound nm !! hash (bound_sh x)); [left|by right]. cbn [mbind outcome_bind set_bound heap].
    rewrite Hx. by eexists.
Qed.

(** *** The invariant through the operations *)

Lemma linked_manager d nm k : linked d → retouched k (manager d) nm → linked (set_manager nm d).
Proof.
  intros [He Hi Hf Ho Hs Hd] Hr. pose proof (λ m, retouched_session _ _ _ m Hr) as Hh. destruct Hr as [Hp _].
  assert (∀ n y, heap nm !! n = Some y → ∃ y0, heap (manager d) !! n = Some y0 ∧ api_session y = api_session y0) as Hback.
  { intros n y Hy. specialize (Hh n). rewrite Hy in Hh. simpl in Hh. symmetry in Hh.
    apply fmap_Some in Hh as (y0 & ? & ?). by exists y0. }
  constructor; cbn [set_manager manager sessions next_session]; [|exact Hi| | |done|done].
  - intros sid i n H. destruct (He sid i n H) as (y & Hy & Ha). specialize (Hh n). rewrite Hy in Hh. simpl in Hh.
    apply fmap_Some in Hh as (y' & ? & ?). exists y'. split; [done|congruence].
  - intros n y Hy. destruct (Hback n y Hy) as (y0 & H0 & _). rewrite Hp. by eapply Hf.
  - intros n y Hy. destruct (Hback n y Hy) as (y0 & H0 & Ha). destruct (Ho n y0 H0) as (sid & ? & ? & Hen).
    exists sid. split; [congruence|]. split; [done|]. exact Hen.
Qed.

Lemma entry_same d sid x : sessions d !! sid = Some x → ∀ i n, entry d sid i n ↔ ∃ t, sm_find i (nodes x) = Some t ∧ node t = n.
Proof.
  intros Hx i n. split.
  - intros (x' & t & H & ? & ?). rewrite Hx in H. injection H as <-. by exists t.
  - intros (t & ? & ?). by exists x, t.
Qed.

(** A registration adds one entry, an unregistration removes one. *)
Lemma entry_register d sid x s i n : DInv d → sessions d !! sid = Some x →
  entry (mkDaemon (createNode (manager d) (Some sid)).2 (<[sid := registered x (new_node_t d)]> (sessions d)) (next_session d)) s i n ↔
  entry d s i n ∨ (s = sid ∧ i = next_node_id x ∧ n = next_ptr (manager d)).
Proof.
  intros Hd Hx. assert (sm_find (next_node_id x) (nodes x) = None) as Hid by (apply sm_find_None; apply (Hd sid x Hx)).
  unfold entry. cbn [sessions]. destruct (decide (s = sid)) as [->|Hn]; [|rewrite lookup_insert_ne by done; naive_solver].
  rewrite lookup_insert_eq, Hx. split.
  - intros (y & t & [= <-] & Hfi & <-). unfold registered in Hfi. cbn [nodes] in Hfi.
    destruct (decide (i = next_node_id x)) as [->|Hn']; [|rewrite sm_find_insert_ne in Hfi by done; left; by eexists _, _].
    rewrite sm_find_insert in Hfi by done. injection Hfi as <-. by right.
  - intros [(y & t & [= <-] & Hfi & <-)|(_ & -> & ->)].
    + eexists _, t. split; [done|]. split; [|done]. unfold registered. cbn [nodes]. rewrite sm_find_insert_ne; [done|].
      congruence.
    + eexists _, (new_node_t d). split; [done|]. split; [|done]. unfold registered. cbn [nodes]. by apply sm_find_insert.
Qed.
Lemma entry_unregister d sid x i nm s j n : DInv d → sessions d !! sid = Some x →
  entry (mkDaemon nm (<[sid := unregistered x i]> (sessions d)) (next_session d)) s j n ↔ entry d s j n ∧ ¬ (s = sid ∧ j = i).
Proof.
  intros Hd Hx. pose proof (Hd sid x Hx) as Hids. unfold entry. cbn [sessions].
  destruct (decide (s = sid)) as [->|Hn]; [|rewrite lookup_insert_ne by done; naive_solver].
  rewrite lookup_insert_eq, Hx. unfold unregistered. split.
  - intros (y & u & [= <-] & Hfi & <-). cbn [nodes] in Hfi. destruct (decide (j = i)) as [->|Hn'].
    + by rewrite sm_find_erase in Hfi by apply Hids.
    + rewrite sm_find_erase_ne in Hfi by done. split; [by eexists _, _|naive_solver].
  - intros [(y & u & [= <-] & Hfi & <-) Hn']. eexists _, u. split; [done|]. split; [|done]. cbn [nodes].
    rewrite sm_find_erase_ne; [done|naive_solver].
Qed.

Lemma linked_register d sid x : linked d → sessions d !! sid = Some x → next_node_id x ≠ 0%Z →
  linked (mkDaemon (createNode (manager d) (Some sid)).2 (<[sid := registered x (new_node_t d)]> (sessions d)) (next_session d)).
Proof.
  intros [He Hi Hf Ho Hs Hd] Hx Hne. set (d' := mkDaemon _ _ _).
  assert (heap (manager d) !! next_ptr (manager d) = None) as Hfree.
  { destruct (heap (manager d) !! next_ptr (manager d)) eqn:E; [|done]. apply Hf in E. lia. }
  assert (∀ s i n, entry d' s i n ↔ entry d s i n ∨ (s = sid ∧ i = next_node_id x ∧ n = next_ptr (manager d))) as Hent
    by (intros; by apply entry_register).
  constructor.
  - intros s i n H. apply Hent in H. cbn [d' manager createNode snd heap]. destruct H as [H|(-> & -> & ->)].
    + destruct (He _ _ _ H) as (y & Hy & Ha). exists y. rewrite lookup_insert_ne; [done|congruence].
    + exists (Node_new (Some sid)). by rewrite lookup_insert_eq.
  - intros s i i' n [H|(-> & -> & ->)]%Hent [H'|(E & -> & E')]%Hent; [by eapply Hi|..|done].
    + subst. apply He in H as (y & Hy & _). congruence.
    + apply He in H' as (y & Hy & _). congruence.
  - intros n y. cbn [d' manager createNode snd heap]. rewrite lookup_insert_Some. cbn [next_ptr].
    intros [[<- _]|[_ Hy]]; [lia|]. apply Hf in Hy. lia.
  - intros n y. cbn [d' manager createNode snd heap]. rewrite lookup_insert_Some. intros [[<- <-]|[_ Hy]].
    + exists sid. split; [done|]. split; [apply Hs; by eexists|]. intros _. exists (next_node_id x). apply Hent. by right.
    + destruct (Ho n y Hy) as (s & Ha & Hlt & Hen). exists s. split; [done|]. split; [done|]. intros Hl.
      destruct Hen as [i Hien]; [|exists i; apply Hent; by left]. cbn [d' sessions] in Hl.
      destruct (decide (s = sid)) as [->|Hn]; [by eexists|by rewrite lookup_insert_ne in Hl].
  - intros s. cbn [d' sessions next_session]. intros [<-|[_ Hl]]%lookup_insert_is_Some; [apply Hs; by eexists|by apply Hs].
  - apply DInv_set; [done|]. apply ids_register; [by eapply Hd|done].
Qed.

Lemma linked_unregister d sid x i t nm : linked d → sessions d !! sid = Some x → sm_find i (nodes x) = Some t →
  heap nm = delete (node t) (heap (manager d)) → next_ptr nm = next_ptr (manager d) →
  linked (mkDaemon nm (<[sid := unregistered x i]> (sessions d)) (next_session d)).
Proof.
  intros [He Hi Hf Ho Hs Hd] Hx Ht Hh Hp. set (d' := mkDaemon _ _ _).
  pose proof (Hd sid x Hx) as Hids. assert (entry d sid i (node t)) as Hit by (by exists x, t).
  assert (∀ s j n, entry d' s j n ↔ entry d s j n ∧ ¬ (s = sid ∧ j = i)) as Hent by (intros; by apply entry_unregister).
  assert (∀ s j n, entry d' s j n → n ≠ node t) as Hother.
  { intros s j n H ->. apply Hent in H as [H Hn]. destruct (He _ _ _ H) as (y & Hy & Ha).
    destruct (He _ _ _ Hit) as (y' & Hy' & Ha'). assert (s = sid) as -> by congruence. by rewrite (Hi sid j i _ H Hit) in Hn; tauto. }
  constructor.
  - intros s j n H. pose proof (Hother _ _ _ H) as Hn. apply Hent in H as [H _].
    destruct (He _ _ _ H) as (y & Hy & Ha). exists y. cbn [d' manager]. by rewrite Hh, lookup_delete_ne.
  - intros s j j' n [H _]%Hent [H' _]%Hent. by eapply Hi.
  - intros n y. cbn [d' manager]. rewrite Hh, Hp, lookup_delete_Some. intros [_ Hy]. by eapply Hf.
  - intros n y. cbn [d' manager]. rewrite Hh, lookup_delete_Some. intros [Hn Hy]. destruct (Ho n y Hy) as (s & Ha & Hlt & Hen).
    exists s. split; [done|]. split; [done|]. intros Hl. destruct Hen as [j Hj].
    { cbn [d' sessions] in Hl. destruct (decide (s = sid)) as [->|Hne]; [by eexists|by rewrite lookup_insert_ne in Hl]. }
    exists j. apply Hent. split; [done|]. intros [-> ->]. apply Hn. destruct Hit as (x1 & t1 & ? & ? & <-).
    destruct Hj as (x2 & t2 & ? & ? & <-). by simplify_eq.
  - intros s. cbn [d' sessions next_session]. intros [<-|[_ Hl]]%lookup_insert_is_Some; [apply Hs; by eexists|by apply Hs].
  - apply DInv_set; [done|]. apply ids_unregister; [done|]. by eapply sm_find_Some_key.
Qed.

Lemma linked_drop d sid : linked d → linked (set_sessions (delete sid) d).
Proof.
  intros [He Hi Hf Ho Hs Hd]. set (d' := set_sessions _ d).
  assert (∀ s i n, entry d' s i n ↔ entry d s i n ∧ s ≠ sid) as Hent.
  { intros s i n. unfold entry. cbn [d' set_sessions sessions]. setoid_rewrite lookup_delete_Some. naive_solver. }
  constructor; cbn [d' set_sessions manager next_session].
  - intros s i n [H _]%Hent. by eapply He.
  - intros s i i' n [H _]%Hent [H' _]%Hent. by eapply Hi.
  - done.
  - intros n y Hy. destruct (Ho n y Hy) as (s & Ha & Hlt & Hen). exists s. split; [done|]. split; [done|].
    unfold d'. cbn [set_sessions sessions]. intros [Hn Hl]%lookup_delete_is_Some. destruct (Hen Hl) as [i Hien]. exists i. apply Hent. by split.
  - intros s. unfold d'. cbn [set_sessions sessions]. intros [_ Hl]%lookup_delete_is_Some. by apply Hs.
  - intros s y H. unfold d' in H. cbn [set_sessions sessions] in H. apply lookup_delete_Some in H as [_ H]. by eapply Hd.
Qed.

Lemma linked_accept d : linked d →
  linked (mkDaemon (manager d) (<[next_session d := APISession_new]> (sessions d)) (next_session d + 1)).
Proof.
  intros [He Hi Hf Ho Hs Hd]. set (d' := mkDaemon _ _ _).
  assert (sessions d !! next_session d = None) as Hfree.
  { apply eq_None_not_Some. intros Hl%Hs. lia. }
  assert (∀ s i n, entry d' s i n ↔ entry d s i n) as Hent.
  { intros s i n. unfold entry. cbn [d' sessions]. setoid_rewrite lookup_insert_Some. split; [|naive_solver].
    intros (x & t & [[<- <-]|[_ Hx]] & Ht & Hn); [done|by exists x, t]. }
  constructor.
  - intros s i n H%Hent. by eapply He.
  - intros s i i' n H%Hent H'%Hent. by eapply Hi.
  - done.
  - intros n y Hy. destruct (Ho n y Hy) as (s & Ha & Hlt & Hen). exists s. split; [done|]. cbn [d' next_session sessions].
    split; [lia|]. intros [E|[_ Hl]]%lookup_insert_is_Some; [lia|]. destruct (Hen Hl) as [i Hien]. exists i. by apply Hent.
  - intros s. cbn [d' sessions next_session]. intros [<-|[_ Hl]]%lookup_insert_is_Some; [lia|]. apply Hs in Hl. lia.
  - intros s y. cbn [d' sessions]. rewrite lookup_insert_Some. intros [[_ <-]|[_ Hy]]; [apply ids_new|by eapply Hd].
Qed.

(** *** Every outcome of a request *)

(** A step on behalf of session [sid] leaves the nodes of all others alone. *)
Definition isolated (sid : Z) (d d' : Daemon) : Prop :=
  ∀ n y, heap (manager d) !! n = Some y → api_session y ≠ Some sid → heap (manager d') !! n = Some y.

(** A request that returns keeps the sessions and the links, touches only nodes
    of its own session, writes at most one message and waits for the next; it throws only when the database finds
    itself inconsistent, terminates only for connect and accept, and reaches
    undefined behaviour only after a write that failed. *)
Definition handled (ok : Z → APIMessage → bool) (sid : Z) (m : APIMessage) (d : Daemon)
    (o : outcome (unit * Daemon * list effect)) : Prop :=
  match o with
  | Ret (_, d', es) =>
      linked d' ∧ dom (sessions d') = dom (sessions d) ∧ next_session d' = next_session d ∧ isolated sid d d' ∧
      ∃ reply : option APIMessage, es = option_list (Written sid <$> reply) ++ [Receiving sid]
  | Throw e => e = db_non_consistent ∧ (get_type m = NODE_UNREGISTER ∨ get_type m = NODE_BIND)
  | Undef u => u = use_after_free ∧ ∃ r, ok sid r = false
  | Terminate => get_type m = NODE_CONNECT ∨ get_type m = NODE_ACCEPT
  | OutOfFuel => False
  end.

Lemma dom_update d sid x y : sessions d !! sid = Some x → dom (<[sid := y]> (sessions d)) = dom (sessions d).
Proof. intros Hx. rewrite dom_insert_L. apply elem_of_dom_2 in Hx. set_solver. Qed.

(** A handler that waits for the next request without answering. *)
Lemma handled_silent ok sid m d x : linked d → sessions d !! sid = Some x → handled ok sid m d (receiveLoop sid d).
Proof.
  intros Hd Hx. rewrite (receiveLoop_run sid x) by done. do 3 (split; [done|]). split; [by intros n y|]. by exists None.
Qed.
(** The end of the handlers that answer. *)
Lemma handled_reply ok sid m r d d' x' : linked d' → sessions d' !! sid = Some x' →
  dom (sessions d') = dom (sessions d) → next_session d' = next_session d → isolated sid d d' →
  handled ok sid m d ((send ok sid r;; receiveLoop sid) d').
Proof.
  intros Hd Hx Hdom Hn Hi. unfold mbind, M_bind. rewrite (session_send_run _ _ _ _ x') by done.
  destruct (ok sid r) eqn:E.
  - rewrite (receiveLoop_run sid x') by done. do 4 (split; [done|]). by exists (Some r).
  - unfold receiveLoop. rewrite run_session_gone by (apply lookup_delete_eq). split; [done|]. by exists r.
Qed.
(** A call on the database, then the end of the handler. *)
Lemma handled_manager ok sid m r d x f i n : linked d → sessions d !! sid = Some x → entry d sid i n →
  (∃ nm, f (manager d) = Ret nm ∧ retouched n (manager d) nm) ∨
  (f (manager d) = Throw db_non_consistent ∧ (get_type m = NODE_UNREGISTER ∨ get_type m = NODE_BIND)) →
  handled ok sid m d ((on_manager f;; send ok sid r;; receiveLoop sid) d).
Proof.
  intros Hd Hx Hi [(nm & Hf & Hr)|[Hf Ht]].
  - erewrite run_bind by (by apply on_manager_run). rewrite after_nil.
    apply (handled_reply _ _ _ _ _ _ x); [by eapply linked_manager|done..|]. intros k y Hk Hy.
    destruct Hr as (_ & x0 & y0 & _ & Hh & _). cbn [set_manager manager]. rewrite Hh, lookup_insert_ne; [done|]. intros <-.
    destruct (lk_entry _ Hd _ _ _ Hi) as (y1 & ? & ?). congruence.
  - unfold on_manager. unfold mbind, M_bind. simpl. rewrite Hf. by split.
Qed.

Lemma handled_register ok sid m d x : linked d → sessions d !! sid = Some x →
  handled ok sid m d ((NodeRegister ok sid m;; receiveLoop sid) d).
Proof.
  intros Hd Hx. destruct (decide (next_node_id x = 0)%Z) as [E|E].
  - unfold NodeRegister. rewrite run_assoc, (run_session_at sid x), decide_True by done. unfold remoteThrow. rewrite run_skip.
    by eapply handled_silent.
  - unfold mbind, M_bind. rewrite (NodeRegister_run ok sid m d x) by done. destruct (ok sid _) eqn:Eok; [|split; [done|by eexists]].
    erewrite receiveLoop_run by (apply lookup_insert_eq). split; [by apply linked_register|]. cbn [sessions next_session].
    split; [by eapply dom_update|]. split; [done|]. split; [|by eexists (Some _)].
    intros n y Hn _. cbn [manager createNode snd heap]. rewrite lookup_insert_ne; [done|].
    apply (lk_fresh _ Hd) in Hn. lia.
Qed.

Lemma handled_unregister ok sid m d x : linked d → sessions d !! sid = Some x → get_type m = NODE_UNREGISTER →
  handled ok sid m d ((NodeUnRegister ok sid m;; receiveLoop sid) d).
Proof.
  intros Hd Hx Hm. unfold NodeUnRegister. set (i := default 0%Z (node_unregister m)). rewrite run_assoc, (run_session_at sid x) by done.
  destruct (sm_find i (nodes x)) as [t|] eqn:Ht; [|unfold remoteThrow; rewrite run_skip; by eapply handled_silent].
  destruct (lk_entry d Hd sid i (node t)) as (y & Hy & Ha); [by exists x, t|]. rewrite !run_assoc.
  destruct (destroyNode_cases _ _ _ Hy) as [(nm & Hnm & Hh & Hp)|Hnm].
  - erewrite run_bind by (by apply on_manager_run). rewrite after_nil, run_assoc.
    erewrite run_bind by (apply update_session_run; exact Hx). rewrite after_nil.
    eapply (handled_reply ok sid m m d (mkDaemon nm (<[sid := unregistered x i]> (sessions d)) (next_session d)));
      [by eapply linked_unregister|apply lookup_insert_eq|by eapply dom_update|done|].
    intros n z Hn Hz. cbn [manager]. rewrite Hh, lookup_delete_ne; [done|congruence].
  - unfold on_manager, mbind, M_bind. simpl. rewrite Hnm. split; [done|by left].
Qed.

Lemma handled_message ok sid m d x : linked d → sessions d !! sid = Some x →
  handled ok sid m d (serve (Arrived ok sid m None) d).
Proof.
  intros Hd Hx. cbn [serve handleReceive]. unfold process. destruct (get_type m) eqn:Hm.
  - by eapply handled_register.
  - by eapply handled_unregister.
  - unfold NodeConnect, lift, mbind, M_bind. simpl. by left.
  - unfold NodeAccept, lift, mbind, M_bind. simpl. by right.
  - unfold NodeListen. destruct (default _ (node_listen m)) as [i mc]. rewrite run_assoc, (run_session_at sid x) by done.
    destruct (sm_find _ _) as [t|] eqn:Ht; [|unfold remoteThrow; rewrite run_skip; by eapply handled_silent].
    assert (entry d sid (default 0%Z i) (node t)) as Hit by (by exists x, t).
    destruct (lk_entry d Hd _ _ _ Hit) as (y & Hy & _). rewrite run_assoc.
    eapply handled_manager; [done|done|exact Hit|]. left. by eapply Node_listen_cases.
  - unfold NodeBind. set (b := default _ (node_bind m)). cbv zeta. rewrite run_assoc, (run_session_at sid x) by done.
    destruct (sm_find _ _) as [t|] eqn:Ht; [|unfold remoteThrow; rewrite run_skip; by eapply handled_silent].
    assert (entry d sid (default 0%Z (b_node_id b)) (node t)) as Hit by (by exists x, t).
    destruct (lk_entry d Hd _ _ _ Hit) as (y & Hy & _).
    rewrite run_assoc.
    assert (∀ k : sk, handled ok sid m d ((on_manager (λ nm, Node_bind nm (node t) (Some k));; send ok sid m;; receiveLoop sid) d)) as Hbind.
    { intros k. eapply handled_manager; [done|done|exact Hit|]. destruct (Node_bind_cases (manager d) (node t) k y Hy) as [?|?]; [by left|].
      right. split; [done|by right]. }
    destruct (binary_private_key b) as [k|]; [rewrite run_assoc; cbn; rewrite run_lift; apply Hbind|].
    destruct (b58_private_key b) as [k|]; [rewrite run_assoc; cbn; rewrite run_lift; apply Hbind|].
    rewrite run_skip. eapply handled_reply; [done|exact Hx|done|done|]. by intros n z.
  - unfold SocketUnRegister. rewrite run_skip. by eapply handled_silent.
Qed.

Lemma serve_drop ok sid m d x e : sessions d !! sid = Some x →
  serve (Arrived ok sid m (Some e)) d = Ret (tt, set_sessions (delete sid) d, []).
Proof. intros Hx. cbn [serve handleReceive]. unfold dropSession. by rewrite (run_session_at sid x). Qed.
Lemma serve_accept d :
  serve Accepted d = Ret (tt, mkDaemon (manager d) (<[next_session d := APISession_new]> (sessions d)) (next_session d + 1),
                          [Receiving (next_session d)]).
Proof.
  cbn [serve]. unfold handleAccept. rewrite run_get, run_modify. unfold receiveLoop.
  by rewrite (run_session_at _ APISession_new) by (simpl; apply lookup_insert_eq).
Qed.
(** An event for a session that is not there uses a deleted session. *)
Lemma serve_gone ok sid m d err : sessions d !! sid = None → match serve (Arrived ok sid m err) d with Ret _ => False | _ => True end.
Proof.
  intros Hx. destruct err as [e|]; cbn [serve handleReceive].
  - unfold dropSession. by rewrite run_session_gone.
  - destruct ((process ok sid m;; receiveLoop sid) d) as [[[[] d'] es]| | | |] eqn:E; try done.
    apply M_bind_Ret in E as ([] & s1 & e1 & e2 & H1 & H2 & _).
    unfold process in H1. destruct (get_type m); try done;
      unfold NodeRegister, NodeUnRegister, NodeListen, NodeBind in H1; try (destruct (default _ (node_listen m)) as [? ?]);
      try (by rewrite run_session_gone in H1).
    injection H1 as <- _. unfold receiveLoop in H2. by rewrite run_session_gone in H2.
Qed.

Lemma linked_serve e d d' es : linked d → serve e d = Ret (tt, d', es) → linked d'.
Proof.
  intros Hd H. destruct e as [|ok sid m err]; [rewrite serve_accept in H; injection H as <- _; by apply linked_accept|].
  destruct (sessions d !! sid) as [x|] eqn:Hx; [|pose proof (serve_gone ok sid m d err Hx) as Hg; by rewrite H in Hg].
  destruct err as [c|]; [rewrite (serve_drop ok sid m d x c Hx) in H; injection H as <- _; by apply linked_drop|].
  pose proof (handled_message ok sid m d x Hd Hx) as Hm. rewrite H in Hm. apply Hm.
Qed.
Lemma linked_serve_all evs d d' es : linked d → serve_all evs d = Ret (tt, d', es) → linked d'.
Proof.
  revert d es. induction evs as [|e evs IH]; intros d es Hd H; [by injection H as <- <-|].
  cbn in H. apply M_bind_Ret in H as ([] & s1 & e1 & e2 & H1 & H2 & _). eapply IH; [|exact H2]. by eapply linked_serve.
Qed.

(** *** Nodes whose session is gone *)

(** Node [n] was created for session [sid], which has been dropped. *)
Definition orphan (d : Daemon) (sid n : Z) : Prop :=
  (∃ y, heap (manager d) !! n = Some y ∧ api_session y = Some sid) ∧ sessions d !! sid = None.

Lemma orphan_serve e d d' es sid n : linked d → serve e d = Ret (tt, d', es) → orphan d sid n → orphan d' sid n.
Proof.
  intros Hd H [(y & Hy & Ha) Hn]. destruct (lk_owner _ Hd _ _ Hy) as (s & Hs & Hlt & _). assert (s = sid) as -> by congruence.
  destruct e as [|ok sid' m err].
  - rewrite serve_accept in H. injection H as <- _. split; [by exists y|]. cbn [sessions]. rewrite lookup_insert_ne by lia. done.
  - destruct (sessions d !! sid') as [x|] eqn:Hx; [|pose proof (serve_gone ok sid' m d err Hx) as Hg; by rewrite H in Hg].
    assert (sid ≠ sid') as Hne by congruence. destruct err as [c|].
    + rewrite (serve_drop ok sid' m d x c Hx) in H. injection H as <- _. split; [by exists y|].
      cbn [set_sessions sessions]. by rewrite lookup_delete_ne.
    + pose proof (handled_message ok sid' m d x Hd Hx) as Hm. rewrite H in Hm. destruct Hm as (_ & Hdom & _ & Hi & _).
      split; [exists y; split; [apply (Hi _ _ Hy); congruence|done]|].
      apply not_elem_of_dom. rewrite Hdom. by apply not_elem_of_dom.
Qed.
Lemma orphan_serve_all evs d d' es sid n : linked d → serve_all evs d = Ret (tt, d', es) → orphan d sid n → orphan d' sid n.
Proof.
  revert d es. induction evs as [|e evs IH]; intros d es Hd H Ho; [by injection H as <- <-|].
  cbn in H. apply M_bind_Ret in H as ([] & s1 & e1 & e2 & H1 & H2 & _).
  eapply IH; [by eapply linked_serve|exact H2|by eapply orphan_serve].
Qed.
Lemma orphan_entry d sid n : linked d → orphan d sid n → ∀ sid' i, ¬ entry d sid' i n.
Proof.
  intros Hd [(y & Hy & Ha) Hn] sid' i He. destruct (lk_entry _ Hd _ _ _ He) as (y' & Hy' & Ha').
  assert (sid' = sid) as -> by congruence. destruct He as (x & t & Hx & _). congruence.
Qed.
End APINodes.

(** ** Properties *)

(** C19 The daemon's requests are safe: after any run of connections, requests
    and disconnections, every identifier of a session leads to a live node that
    this session created, and every node of a session has exactly one
    identifier; a request of any content, on any session, returns, throws the
    inconsistency error, terminates (connect, accept) or has failed to write its
    reply, and when it returns it has changed no node of another session. *)
Theorem api_requests_safe {EC : ECDSA} {DG : Digest} (evs : list server_event) (d : Daemon) (es : list effect)
    (H : serve_all evs Daemon_new = Ret (tt, d, es)) :
  (∀ sid i n, entry d sid i n → ∃ y, heap (manager d) !! n = Some y ∧ api_session y = Some sid) ∧
  (∀ sid n y, is_Some (sessions d !! sid) → heap (manager d) !! n = Some y → api_session y = Some sid →
     exists! i, entry d sid i n) ∧
  (∀ ok sid m, is_Some (sessions d !! sid) → handled ok sid m d (serve (Arrived ok sid m None) d)).
Proof.
  pose proof (linked_serve_all _ _ _ _ linked_new H) as Hd. split; [by apply lk_entry|]. split.
  - intros sid n y Hs Hy Ha. destruct (lk_owner _ Hd _ _ Hy) as (sid' & Ha' & _ & He).
    assert (sid' = sid) as -> by congruence. destruct (He Hs) as [i Hi]. exists i. split; [done|]. intros j Hj.
    by eapply (lk_inj _ Hd).
  - intros ok sid m [x Hx]. by eapply handled_message.
Qed.

Lemma api_requests_safe_witness :
  handled Demo.all_ok 1 Demo.request Demo.state (serve (Arrived Demo.all_ok 1 Demo.request None) Demo.state).
Proof.
  apply (api_requests_safe _ _ _ Demo.served_ok). rewrite Demo.session_ok. eexists. reflexivity.
Defined.

(** Nodes outlive their session: when a session is dropped its nodes stay in
    the database, and no later run of the daemon deletes one of them or gives
    any client an identifier for it. *)
Theorem dropped_nodes_leak {EC : ECDSA} {DG : Digest} (evs evs' : list server_event) (d d1 d2 : Daemon)
    (es e1 e2 : list effect) (ok : Z → APIMessage → bool) (sid i n : Z) (m : APIMessage) (code : Z * category)
    (H : serve_all evs Daemon_new = Ret (tt, d, es)) (Hn : entry d sid i n)
    (Hdrop : serve (Arrived ok sid m (Some code)) d = Ret (tt, d1, e1)) (H' : serve_all evs' d1 = Ret (tt, d2, e2)) :
  is_Some (heap (manager d2) !! n) ∧ ∀ sid' j, ¬ entry d2 sid' j n.
Proof.
  pose proof (linked_serve_all _ _ _ _ linked_new H) as Hd. pose proof (linked_serve _ _ _ _ Hd Hdrop) as Hd1.
  assert (orphan d1 sid n) as Ho.
  { destruct (lk_entry _ Hd _ _ _ Hn) as (y & Hy & Ha). destruct Hn as (x & t & Hx & _).
    rewrite (serve_drop ok sid m d x code Hx) in Hdrop. injection Hdrop as <- _. split; [by exists y|].
    cbn [set_sessions sessions]. apply lookup_delete_eq. }
  pose proof (orphan_serve_all _ _ _ _ _ _ Hd1 H' Ho) as Ho2. split; [destruct Ho2 as [(y & ? & _) _]; by exists y|].
  apply (orphan_entry _ sid); [by eapply linked_serve_all|done].
Qed.

Lemma dropped_nodes_leak_witness :
  ∃ d1 n, serve (Arrived Demo.all_ok 1 APIMessage_new (Some (104%Z, generic_category))) Demo.state = Ret (tt, d1, []) ∧
    is_Some (heap (manager d1) !! n).
Proof.
  assert (bool_decide (is_Some (sm_find 1 (nodes Demo.session))) = true) as Hb by (vm_compute; reflexivity).
  apply bool_decide_eq_true in Hb as [t Ht].
  pose proof (serve_drop Demo.all_ok 1 APIMessage_new _ _ (104%Z, generic_category) Demo.session_ok) as Hd.
  eexists _, (node t). split; [exact Hd|].
  refine (proj1 (dropped_nodes_leak Demo.evs [] Demo.state _ _ _ _ [] Demo.all_ok 1 1 (node t) _ _ Demo.served_ok _ Hd eq_refl)).
  exists Demo.session, t. split; [exact Demo.session_ok|]. split; [exact Ht|reflexivity].
Defined.
