(* ===== verification/Client.v ===== *)
(** * The client library ([library/P2PSession.cpp], [P2PDaemon.cpp],
    [daemon_conn/P2PUnixDaemon.cpp], [P2PAutoDaemon.cpp], [P2PNode.cpp],
    [P2PSocket.cpp], [P2PContext.cpp], [Crypto.cpp])

    The threads of a client and the thread of its socket interleave in steps;
    the calls on nodes use the daemon through an interface. *)

From S2P Require Import Prelude StdMap Common Base58 Crypto Config NodeManager APISocket APISession.
Import HashM KeyM.
From Stdlib Require Import ZArith Lia.
From Stdlib.Strings Require Import Byte.

(** ** [P2PSession]: requests and replies *)

Module Session.

(** A promise: whether its future was taken, and its value. *)
Record promise := mkPromise { retrieved : bool; value : option APIMessage }.

(** [exchanges] are the calls of [clientExchange] that wait for a reply, by
    thread, each with its token. *)
Record P2PSession := mkP2PSession {
  awaiting_receive : gmap Z promise;
  next_msg_token : Z;
  exchanges : gmap Z Z;
}.
Definition P2PSession_new : P2PSession := mkP2PSession ∅ 0 ∅.

Definition markMessage (s : P2PSession) (m : APIMessage) : Z * APIMessage * P2PSession :=
  let token := next_msg_token s in
  (token, set_message_token token m, mkP2PSession (awaiting_receive s) (token +32 1)%word (exchanges s)).

(** [clientExchange] up to [reply_future.get()]: the marked message is sent.
    The insertion keeps a promise that is already there. *)
Definition exchange_begin (s : P2PSession) (thread : Z) (request : APIMessage) : outcome (APIMessage * P2PSession) :=
  let '(token, m, s1) := markMessage s request in
  let p := default (mkPromise false None) (awaiting_receive s1 !! token) in
  if retrieved p then Throw future_error else
  Ret (m, mkP2PSession (<[token := mkPromise true (value p)]> (awaiting_receive s1)) (next_msg_token s1)
            (<[thread := token]> (exchanges s1))).

(** The rest of [clientExchange], when the reply is there. *)
Definition exchange_end (s : P2PSession) (thread : Z) : option (outcome APIMessage * P2PSession) :=
  token ← exchanges s !! thread;
  p ← awaiting_receive s !! token;
  reply ← value p;
  let s' := mkP2PSession (delete token (awaiting_receive s)) (next_msg_token s) (delete thread (exchanges s)) in
  Some (match error reply with
        | Some e => Throw (system_error (error_code e) P2PErrorCategory)
        | None => Ret reply
        end, s').

(** [handleReceive]: the result tells whether the receive loop goes on. *)
Definition operation_aborted : Z := 125.
Definition handleReceive (s : P2PSession) (m : APIMessage) (err : condition) : outcome (bool * P2PSession) :=
  s1 ← (match message_token m with
        | None => Ret s
        | Some token =>
            match awaiting_receive s !! token with
            | None => Undef past_end
            | Some p =>
                match value p with
                | Some _ => Throw future_error
                | None => Ret (mkP2PSession (<[token := mkPromise (retrieved p) (Some m)]> (awaiting_receive s))
                                 (next_msg_token s) (exchanges s))
                end
            end
        end : outcome P2PSession);
  Ret (bool_decide (default 0%Z (fst <$> err) ≠ operation_aborted), s1).

(** ** Interleavings *)

Inductive label :=
| Begin (thread : Z) (request sent : APIMessage)
| Receive (m : APIMessage)
| End (thread : Z) (result : outcome APIMessage).

(** A thread starts an exchange when it is not in one. *)
Inductive step : P2PSession → label → P2PSession → Prop :=
| step_begin s thread request sent s' :
    exchanges s !! thread = None →
    exchange_begin s thread request = Ret (sent, s') → step s (Begin thread request sent) s'
| step_receive s m err b s' : handleReceive s m err = Ret (b, s') → step s (Receive m) s'
| step_end s thread r s' : exchange_end s thread = Some (r, s') → step s (End thread r) s'.

Definition begun (ls : list label) : nat := length (filter (λ l, match l with Begin _ _ _ => true | _ => false end = true) ls).

(** [n] exchanges were begun: the tokens in use are below [n] and belong to
    one waiting thread each. *)
Record Inv (n : Z) (s : P2PSession) : Prop := {
  inv_token : next_msg_token s = u32 n;
  inv_below : ∀ t k, exchanges s !! t = Some k → (0 ≤ k < n)%Z;
  inv_inj : ∀ t1 t2 k, exchanges s !! t1 = Some k → exchanges s !! t2 = Some k → t1 = t2;
  inv_await : ∀ k, is_Some (awaiting_receive s !! k) ↔ ∃ t, exchanges s !! t = Some k;
  inv_value : ∀ k p m, awaiting_receive s !! k = Some p → value p = Some m → message_token m = Some k;
}.

Lemma Inv_begin n s thread request sent s' :
  Inv n s → (0 ≤ n < 2 ^ 32)%Z → exchanges s !! thread = None →
  exchange_begin s thread request = Ret (sent, s') →
  Inv (n + 1) s' ∧ message_token sent = Some n ∧ exchanges s' !! thread = Some n.
Proof.
  intros [] Hn Hthr. unfold exchange_begin, markMessage. rewrite inv_token0, u32_small by (unfold in_u32; lia).
  assert (awaiting_receive s !! n = None) as Hfree.
  { destruct (awaiting_receive s !! n) eqn:E; [|done].
    destruct (proj1 (inv_await0 n)) as [t Ht]; [by eauto|]. apply inv_below0 in Ht. lia. }
  cbn [awaiting_receive]. rewrite Hfree. simpl. intros [= <- <-].
  split; [|split; [done|apply lookup_insert_eq]]. constructor; simpl.
  - done.
  - intros t k. rewrite lookup_insert_Some. intros [[_ <-]|[_ Hk]]; [lia|]. apply inv_below0 in Hk. lia.
  - intros t1 t2 k. rewrite !lookup_insert_Some. intros [[<- <-]|[H1 H1']] [[<- H2]|[H2 H2']]; try done.
    + apply inv_below0 in H2'. lia.
    + subst. apply inv_below0 in H1'. lia.
    + by eapply inv_inj0.
  - intros k. rewrite lookup_insert_is_Some'. split.
    + intros [<-|[t Ht]%inv_await0]; [exists thread; apply lookup_insert_eq|].
      exists t. rewrite lookup_insert_ne; [done|]. congruence.
    + intros [t Ht]. rewrite lookup_insert_Some in Ht. destruct Ht as [[_ ?]|[_ Ht]]; [by left|].
      right. apply inv_await0. eauto.
  - intros k p m. rewrite lookup_insert_Some. intros [[_ <-]|[_ Hp]] Hv; [done|]. by eapply inv_value0.
Qed.

Lemma Inv_receive n s m err b s' :
  Inv n s → handleReceive s m err = Ret (b, s') → Inv n s' ∧ exchanges s' = exchanges s.
Proof.
  intros [] H. unfold handleReceive in H. inv_ret. subst.
  destruct (message_token m) as [k|] eqn:Hm; [|by injection Hr as ->].
  destruct (awaiting_receive s !! k) as [p|] eqn:Hp; [|done]. destruct (value p) as [|]; [done|].
  injection Hr as <-. split; [|done]. constructor; simpl; try done.
  - intros k'. rewrite lookup_insert_is_Some'. rewrite <-inv_await0. split; [|by right].
    intros [<-|?]; [by rewrite Hp|done].
  - intros k' p' m'. rewrite lookup_insert_Some. intros [[<- <-]|[_ Hp']] Hv; [by injection Hv as <-|].
    by eapply inv_value0.
Qed.

Lemma Inv_end n s thread r s' :
  Inv n s → exchange_end s thread = Some (r, s') →
  Inv n s' ∧ exchanges s' = delete thread (exchanges s) ∧
  ∃ k reply, exchanges s !! thread = Some k ∧ message_token reply = Some k ∧
    r = match error reply with Some e => Throw (system_error (error_code e) P2PErrorCategory) | None => Ret reply end.
Proof.
  intros [] H. unfold exchange_end in H.
  destruct (exchanges s !! thread) as [k|] eqn:Hk; [|done]. simpl in H.
  destruct (awaiting_receive s !! k) as [p|] eqn:Hp; [|done]. simpl in H.
  destruct (value p) as [reply|] eqn:Hv; [|done]. simpl in H. injection H as <- <-.
  split; [|split; [done|]; exists k, reply; split; [done|]; split; [by eapply inv_value0|done]].
  constructor; simpl; try done.
  - intros t k'. rewrite lookup_delete_Some. intros [_ ?]. by eapply inv_below0.
  - intros t1 t2 k'. rewrite !lookup_delete_Some. intros [_ ?] [_ ?]. by eapply inv_inj0.
  - intros k'. split.
    + intros [q Hq]. apply lookup_delete_Some in Hq as [Hne Hq]. destruct (proj1 (inv_await0 k')) as [t Ht]; [by eauto|].
      exists t. rewrite lookup_delete_ne; [done|]. congruence.
    + intros [t Ht]. apply lookup_delete_Some in Ht as [Hne Ht]. rewrite lookup_delete_ne.
      * apply inv_await0. eauto.
      * intros ->. apply Hne. by eapply inv_inj0.
  - intros k' q m'. rewrite lookup_delete_Some. intros [_ ?]. by apply inv_value0.
Qed.

Lemma Inv_star s ls s' n :
  Inv n s → (0 ≤ n)%Z → (n + Z.of_nat (begun ls) ≤ 2 ^ 32)%Z → star step s ls s' → Inv (n + Z.of_nat (begun ls)) s'.
Proof.
  intros HI Hn Hb Hs. revert n HI Hn Hb. induction Hs as [s|s1 s2 s3 l ls Hstep Hs IH]; intros n HI Hn Hb.
  - simpl. by rewrite Z.add_0_r.
  - destruct Hstep as [s thread request sent s' Hthr Hstep|s m err b s' Hstep|s thread r s' Hstep].
    + assert (Z.of_nat (begun (Begin thread request sent :: ls)) = 1 + Z.of_nat (begun ls))%Z as E
        by (unfold begun; rewrite filter_cons_True by done; simpl; lia).
      rewrite E in *. rewrite Z.add_assoc. eapply IH; [|lia|lia].
      eapply Inv_begin in Hstep as [? _]; [done|done|lia|done].
    + change (begun (Receive m :: ls)) with (begun ls) in *. eapply IH; [|done|done].
      by eapply Inv_receive in Hstep as [? _].
    + change (begun (End thread r :: ls)) with (begun ls) in *. eapply IH; [|done|done].
      by eapply Inv_end in Hstep as [? _].
Qed.

Lemma session_Inv_new : Inv 0 P2PSession_new.
Proof.
  constructor; simpl; try done. intros k. split; [by intros [? ?]|by intros [? ?]].
Qed.

(** The steps in which [thread] neither begins nor ends an exchange. *)
Definition not_of (thread : Z) (l : label) : Prop :=
  match l with Begin t _ _ | End t _ => t ≠ thread | Receive _ => True end.

(** While [thread] waits with token [k], a reply it can find was received. *)
Lemma waiting s ls s' n thread k (seen : list label) :
  star step s ls s' → Inv n s → (0 ≤ n)%Z → (n + Z.of_nat (begun ls) ≤ 2 ^ 32)%Z → Forall (not_of thread) ls →
  exchanges s !! thread = Some k →
  (∀ p m, awaiting_receive s !! k = Some p → value p = Some m → Receive m ∈ seen) →
  exchanges s' !! thread = Some k ∧
  (∀ p m, awaiting_receive s' !! k = Some p → value p = Some m → Receive m ∈ seen ++ ls).
Proof.
  intros Hs. revert n seen. induction Hs as [s|s1 s2 s3 l ls Hstep Hs IH]; intros n seen HI Hn Hb Hl Hk Hv.
  { rewrite app_nil_r. by split. }
  inversion Hl as [|?? Hl1 Hl2]; subst. rewrite cons_middle, app_assoc.
  destruct Hstep as [s thr request sent s' Hthr Hstep|s m err b s' Hstep|s thr r s' Hstep].
  - assert (Z.of_nat (begun (Begin thr request sent :: ls)) = 1 + Z.of_nat (begun ls))%Z as E
      by (unfold begun; rewrite filter_cons_True by done; simpl; lia).
    rewrite E in Hb. destruct (Inv_begin n s thr request sent s' HI ltac:(lia) Hthr Hstep) as (HI' & _ & _).
    unfold exchange_begin, markMessage in Hstep. rewrite (inv_token n s HI), u32_small in Hstep by (unfold in_u32; lia).
    assert (k ≠ n) as Hne by (apply (inv_below n s HI) in Hk; lia).
    destruct (retrieved _); [done|]. injection Hstep as <- <-.
    eapply (IH (n + 1)%Z (seen ++ [_])); [done|lia|lia|done| |].
    + simpl. by rewrite lookup_insert_ne.
    + simpl. rewrite lookup_insert_ne by done. intros p m Hp Hpv. apply elem_of_app. left. by eapply Hv.
  - change (begun (Receive m :: ls)) with (begun ls) in Hb.
    destruct (Inv_receive n s m err b s' HI Hstep) as [HI' He].
    eapply (IH n (seen ++ [_])); [done|done|done|done|by rewrite He|].
    unfold handleReceive in Hstep. inv_ret. subst.
    destruct (message_token m) as [k'|]; [|injection Hr as ->; intros p m' Hp Hpv; apply elem_of_app; left; by eapply Hv].
    destruct (awaiting_receive s !! k') as [q|]; [|done]. destruct (value q); [done|]. injection Hr as <-. simpl.
    intros p m'. rewrite lookup_insert_Some. intros [[_ <-]|[_ Hp]] Hpv; apply elem_of_app.
    + right. injection Hpv as <-. by apply list_elem_of_singleton.
    + left. by eapply Hv.
  - change (begun (End thr r :: ls)) with (begun ls) in Hb.
    destruct (Inv_end n s thr r s' HI Hstep) as (HI' & He & k' & reply & Hk' & _).
    assert (k ≠ k') as Hne by (intros ->; apply Hl1; by eapply (inv_inj n s HI)).
    eapply (IH n (seen ++ [_])); [done|done|done|done|by rewrite He, lookup_delete_ne|].
    unfold exchange_end in Hstep. rewrite Hk' in Hstep. simpl in Hstep.
    destruct (awaiting_receive s !! k') as [q|]; [|done]. simpl in Hstep. destruct (value q); [|done].
    simpl in Hstep. injection Hstep as <- <-. simpl. rewrite lookup_delete_ne by done.
    intros p m Hp Hpv. apply elem_of_app. left. by eapply Hv.
Qed.

Lemma begun_app ls1 ls2 : begun (ls1 ++ ls2) = begun ls1 + begun ls2.
Proof. unfold begun. by rewrite filter_app, length_app. Qed.
End Session.

(** ** Properties of sessions *)

(** C6 Replies reach the right thread: in every interleaving of the threads
    that exchange messages with the thread that receives them, with at most
    [2^32] exchanges in total, what [clientExchange] returns, or throws, is a
    message that was received after its own request was sent and carries the
    token of that request. *)
Theorem client_exchange_matching (ls1 ls2 : list Session.label) (thread : Z) (request sent : APIMessage)
    (r : outcome APIMessage) (s : Session.P2PSession)
    (H : star Session.step Session.P2PSession_new
           (ls1 ++ Session.Begin thread request sent :: ls2 ++ [Session.End thread r]) s)
    (Hb : (Z.of_nat (Session.begun (ls1 ++ Session.Begin thread request sent :: ls2)) ≤ 2 ^ 32)%Z)
    (Hl : Forall (Session.not_of thread) ls2) :
  ∃ reply, Session.Receive reply ∈ ls2 ∧ message_token reply = message_token sent ∧
    r = match error reply with
        | Some e => Throw (system_error (error_code e) P2PErrorCategory)
        | None => Ret reply
        end.
Proof.
  apply star_app in H as (s1 & H1 & H2). inversion H2 as [|? s2 ? ? ? Hbegin H3]; subst. clear H2.
  apply star_app in H3 as (s3 & H3 & H4). inversion H4 as [|? s4 ? ? ? Hend _]; subst. clear H4.
  rewrite Session.begun_app in Hb.
  assert (Session.begun (Session.Begin thread request sent :: ls2) = S (Session.begun ls2)) as E
    by (unfold Session.begun; by rewrite filter_cons_True).
  rewrite E in Hb. set (n := Z.of_nat (Session.begun ls1)).
  assert (Session.Inv n s1) as HI1
    by (apply (Session.Inv_star _ _ _ 0 Session.session_Inv_new); [lia|lia|exact H1]).
  inversion Hbegin as [s' thr rq sn s'' Hthr Hbeg| |]; subst.
  destruct (Session.Inv_begin _ _ _ _ _ _ HI1 ltac:(lia) Hthr Hbeg) as (HI2 & Htok & Hex).
  destruct (Session.waiting s2 ls2 s3 (n + 1) thread n [] H3 HI2 ltac:(lia) ltac:(lia) Hl Hex) as [Hex3 Hrecv].
  { unfold Session.exchange_begin, Session.markMessage in Hbeg.
    rewrite (Session.inv_token n s1 HI1), u32_small in Hbeg by (unfold in_u32; lia). simpl in Hbeg.
    assert (Session.awaiting_receive s1 !! n = None) as Hf.
    { destruct (Session.awaiting_receive s1 !! n) eqn:Ef; [|done].
      destruct (proj1 (Session.inv_await n s1 HI1 n)) as [t Ht]; [by eauto|].
      apply (Session.inv_below n s1 HI1) in Ht. lia. }
    rewrite Hf in Hbeg. simpl in Hbeg. injection Hbeg as <- <-. simpl.
    intros p m. rewrite lookup_insert_eq. by intros [= <-]. }
  inversion Hend as [| |s' thr r' s'' He]; subst.
  unfold Session.exchange_end in He. rewrite Hex3 in He. simpl in He.
  destruct (Session.awaiting_receive s3 !! n) as [p|] eqn:Hp; [|done]. simpl in He.
  destruct (Session.value p) as [reply|] eqn:Hv; [|done]. simpl in He. injection He as <- _.
  assert (Session.Inv (n + 1 + Z.of_nat (Session.begun ls2)) s3) as HI3
    by (apply (Session.Inv_star _ _ _ _ HI2); [lia|lia|exact H3]).
  exists reply. split; [by apply (Hrecv p reply)|]. split; [|done].
  rewrite Htok. by eapply (Session.inv_value _ s3 HI3).
Qed.

Lemma client_exchange_matching_witness :
  let request := set_type NODE_REGISTER APIMessage_new in
  let sent := set_message_token 0 request in
  let reply := set_node_register 1 sent in
  ∃ m, Session.Receive m ∈ [Session.Receive reply] ∧ message_token m = Some 0%Z.
Proof.
  intros request sent reply.
  destruct (client_exchange_matching [] [Session.Receive reply] 5 request sent (Ret reply)
    (Session.mkP2PSession ∅ 1 ∅)) as (m & Hm & Ht & _).
  - eapply star_cons; [apply Session.step_begin; [reflexivity|vm_compute; reflexivity]|].
    eapply star_cons; [eapply (Session.step_receive _ reply None); vm_compute; reflexivity|].
    eapply star_cons; [apply Session.step_end; vm_compute; reflexivity|]. apply star_nil.
  - vm_compute. discriminate.
  - repeat constructor.
  - exists m. split; [exact Hm|exact Ht].
Defined.

(** Replies nobody waits for: a reply whose token has no waiting exchange
    dereferences an end iterator, a second reply to one exchange throws in the
    receiving thread, a reply without token is ignored, and after the token
    counter has wrapped to a token still in use the new exchange throws
    instead of waiting. *)
Theorem client_unexpected_replies (s : Session.P2PSession) (m : APIMessage) (err : condition) (k thread : Z)
    (request : APIMessage) :
  (message_token m = Some k → Session.awaiting_receive s !! k = None →
     Session.handleReceive s m err = Undef past_end) ∧
  (∀ m1, message_token m = Some k → Session.awaiting_receive s !! k = Some (Session.mkPromise true (Some m1)) →
     Session.handleReceive s m err = Throw future_error) ∧
  (message_token m = None → ∃ b, Session.handleReceive s m err = Ret (b, s)) ∧
  (∀ v, Session.awaiting_receive s !! Session.next_msg_token s = Some (Session.mkPromise true v) →
     Session.exchange_begin s thread request = Throw future_error).
Proof.
  unfold Session.handleReceive. split; [|split; [|split]].
  - intros -> ->. done.
  - intros m1 -> ->. done.
  - intros ->. simpl. by eexists.
  - intros v Hv. unfold Session.exchange_begin, Session.markMessage. simpl. by rewrite Hv.
Qed.

Lemma client_unexpected_replies_witness :
  Session.handleReceive Session.P2PSession_new (set_message_token 4 APIMessage_new) None = Undef past_end.
Proof.
  refine (proj1 (client_unexpected_replies Session.P2PSession_new (set_message_token 4 APIMessage_new) None 4 1 APIMessage_new) _ _);
    reflexivity.
Defined.

(** ** The connection to the daemon ([P2PUnixDaemon], [P2PAutoDaemon]) *)

Module UnixDaemon.
(** [m_socket]: null, alive, or a pointer to a deleted socket. *)
Inductive socket_ptr := Null | Live | Deleted.
Record P2PUnixDaemon := mkP2PUnixDaemon { m_socket_path : string; m_socket : socket_ptr; connected : bool }.

(** The constructor of a child daemon; the default constructor also connects. *)
Definition P2PUnixDaemon_new : P2PUnixDaemon := mkP2PUnixDaemon "" Null false.

(** [connect()] over the path list; [connect(path)] tries one path. *)
Definition connect (open : string → option Z) (paths : list string) : outcome P2PUnixDaemon :=
  p ← P2PUnixDaemon_connect open paths;
  Ret (match p with Some p => mkP2PUnixDaemon p Live true | None => mkP2PUnixDaemon "" Live false end).
Definition connect_path (open : string → option Z) (path : string) : outcome P2PUnixDaemon :=
  match open path with
  | None => Ret (mkP2PUnixDaemon path Live true)
  | Some code => Throw (system_error code generic_category)
  end.

Definition P2PUnixDaemon_default (open : string → option Z) (paths : list string) : outcome P2PUnixDaemon :=
  connect open paths.
Definition is_connected (d : P2PUnixDaemon) : bool := connected d.
Definition on_socket {A} (d : P2PUnixDaemon) (r : A) : outcome A :=
  match m_socket d with Live => Ret r | Null => Undef null_deref | Deleted => Undef use_after_free end.

(** [disconnect] deletes the socket and keeps the pointer. *)
Definition disconnect (d : P2PUnixDaemon) : outcome P2PUnixDaemon :=
  match m_socket d with
  | Null => Ret (mkP2PUnixDaemon (m_socket_path d) Null false)
  | Live => Ret (mkP2PUnixDaemon (m_socket_path d) Deleted false)
  | Deleted => Undef use_after_free
  end.
Definition P2PUnixDaemon_delete (d : P2PUnixDaemon) : outcome unit := _ ← disconnect d; Ret tt.

(** [P2PAutoDaemon] forwards to its Unix daemon. *)
Record P2PAutoDaemon := mkP2PAutoDaemon { underlying_daemon : P2PUnixDaemon }.
(** The constructor for a given session; the default one also connects. *)
Definition P2PAutoDaemon_of_session : P2PAutoDaemon := mkP2PAutoDaemon P2PUnixDaemon_new.
Definition auto_connect (open : string → option Z) (paths : list string) : outcome P2PAutoDaemon :=
  d ← connect open paths; Ret (mkP2PAutoDaemon d).
Definition P2PAutoDaemon_new (open : string → option Z) (paths : list string) : outcome P2PAutoDaemon :=
  auto_connect open paths.
Definition auto_on_socket {A} (a : P2PAutoDaemon) (r : A) : outcome A := on_socket (underlying_daemon a) r.
Definition auto_is_connected (a : P2PAutoDaemon) : bool := is_connected (underlying_daemon a).
Definition auto_disconnect (a : P2PAutoDaemon) : outcome P2PAutoDaemon :=
  d ← disconnect (underlying_daemon a); Ret (mkP2PAutoDaemon d).
Definition auto_delete (a : P2PAutoDaemon) : outcome unit := P2PUnixDaemon_delete (underlying_daemon a).
End UnixDaemon.

(** ** Nodes over a daemon *)

(** What the library's objects need of a daemon: [clientExchange], whose result
    is [None] when no reply ever comes and the call blocks. *)
Class DaemonIO (D : Type) := {
  clientExchange : D → APIMessage → outcome (option APIMessage) * D;
}.

Section Nodes.
Context {EC : ECDSA} {D : Type} {IO : DaemonIO D}.

(** A request followed by what the caller does with the reply. *)
Definition with_reply {A} (d : D) (m : APIMessage) (f : APIMessage → outcome A) : outcome (option A) * D :=
  let '(r, d') := clientExchange d m in
  (o ← r; match o with None => Ret None | Some reply => a ← f reply; Ret (Some a) end, d').

Record P2PNode := mkP2PNode { node_id : Z; m_bound_private_key : PrivateKeyDSA }.
Record P2PSocket := mkP2PSocket { s_node_id : Z; socket_id : Z; m_remote_sh : bytes }.

Definition register_request : APIMessage := set_type NODE_REGISTER APIMessage_new.
Definition unregister_request (n : P2PNode) : APIMessage :=
  set_node_unregister (node_id n) (set_type NODE_UNREGISTER APIMessage_new).
Definition bind_request (n : P2PNode) (k : bytes) : APIMessage :=
  set_node_bind (mkBindBody (Some (node_id n)) None (Some k)) (set_type NODE_BIND APIMessage_new).
Definition listen_request (n : P2PNode) (max_conn : Z) : APIMessage :=
  set_node_listen (node_id n) max_conn (set_type NODE_LISTEN APIMessage_new).

Definition P2PNode_new (d : D) : outcome (option P2PNode) * D :=
  with_reply d register_request (λ reply, Ret (mkP2PNode (default 0%Z (node_register reply)) None)).

Definition in_destructor (r : outcome (option unit)) : outcome (option unit) :=
  try_catch r (λ e, match e with system_error _ _ => Some (Ret (Some tt)) | _ => Some Terminate end).
(** The destructor swallows [std::system_error]; another exception leaves a
    destructor, which terminates. *)
Definition P2PNode_delete (d : D) (n : P2PNode) : outcome (option unit) * D :=
  let '(r, d') := with_reply d (unregister_request n) (λ _, Ret tt) in
  (in_destructor r, d').

Definition P2PNode_bind (d : D) (n : P2PNode) (base58_private_key : bytes) : outcome (option P2PNode) * D :=
  with_reply d (bind_request n base58_private_key) (λ _,
    k ← setAsBase58 (m_bound_private_key n) base58_private_key; Ret (mkP2PNode (node_id n) k)).

Definition P2PNode_listen (d : D) (n : P2PNode) (max_conn : Z) : outcome (option unit) * D :=
  with_reply d (listen_request n max_conn) (λ _, Ret tt).

(** Both take the socket's identifier from the [node_id] of the accept part. *)
Definition P2PSocket_new (n : P2PNode) (socket_id : Z) : P2PSocket := mkP2PSocket (node_id n) socket_id [].
Definition socket_of_reply (n : P2PNode) (reply : APIMessage) : P2PSocket :=
  let b := default (mkConnectBody None None None) (node_accept reply) in
  let new_socket := P2PSocket_new n (default 0%Z (c_node_id b)) in
  mkP2PSocket (s_node_id new_socket) (socket_id new_socket) (default [] (c_sh b)).
Definition P2PNode_accept (d : D) (n : P2PNode) : outcome (option P2PSocket) * D :=
  with_reply d (set_node_accept (mkConnectBody (Some (node_id n)) None None) (set_type NODE_ACCEPT APIMessage_new))
    (λ reply, Ret (socket_of_reply n reply)).
Definition P2PNode_connect (d : D) (n : P2PNode) (sh : bytes) : outcome (option P2PSocket) * D :=
  with_reply d (set_node_connect (mkConnectBody (Some (node_id n)) (Some sh) None) (set_type NODE_CONNECT APIMessage_new))
    (λ reply, Ret (socket_of_reply n reply)).

Definition P2PSocket_delete (d : D) (s : P2PSocket) : outcome (option unit) * D :=
  let '(r, d') := with_reply d (set_socket_unregister (s_node_id s) (socket_id s) (set_type SOCKET_UNREGISTER APIMessage_new))
                    (λ _, Ret tt) in
  (in_destructor r, d').

Definition p2p_destroySocket (d : D) (s : P2PSocket) : outcome (option unit) * D := P2PSocket_delete d s.

(** [createContext] and [acceptContext] have no [return]; the two
    [closeContext] are empty. *)
Definition createContext (s : P2PSocket) : outcome Z := Undef no_return.
Definition acceptContext (s : P2PSocket) : outcome Z := Undef no_return.
Definition closeContext (s : P2PSocket) : outcome unit := Ret tt.

(** ** The C interface: error codes, and the caller's pointer *)

Definition to_code {A} (r : outcome (option A)) : outcome (option Z) :=
  try_catch (o ← r; Ret (match o with Some _ => Some (Errors.error_code Errors.success) | None => None end))
    (λ e, match e with system_error c _ => Some (Ret (Some c)) | _ => None end).

(** The functions assign to their own copy of the pointer: the caller's stays. *)
Definition p2p_createNode (node : option P2PNode) (d : D) : outcome (option Z) * option P2PNode * D :=
  let '(r, d') := P2PNode_new d in (to_code r, node, d').
Definition p2p_createNodeOnDaemon (node : option P2PNode) (d : D) : outcome (option Z) * option P2PNode * D :=
  let '(r, d') := P2PNode_new d in (to_code r, node, d').
Definition p2p_destroyNode (node : option P2PNode) (d : D) : outcome (option unit) * D :=
  match node with Some n => P2PNode_delete d n | None => (Ret (Some tt), d) end.
Definition p2p_accept (socket : option P2PSocket) (n : P2PNode) (d : D) : outcome (option Z) * option P2PSocket * D :=
  let '(r, d') := P2PNode_accept d n in (to_code r, socket, d').
Definition p2p_connect (socket : option P2PSocket) (n : P2PNode) (sh : bytes) (d : D) : outcome (option Z) * option P2PSocket * D :=
  let '(r, d') := P2PNode_connect d n sh in (to_code r, socket, d').
Definition p2p_bindNode (n : P2PNode) (k : bytes) (d : D) : outcome (option Z) * D :=
  let '(r, d') := P2PNode_bind d n k in (to_code r, d').
Definition p2p_listenNode (n : P2PNode) (max_conn : Z) (d : D) : outcome (option Z) * D :=
  let '(r, d') := P2PNode_listen d n max_conn in (to_code r, d').
End Nodes.

(** ** [P2PContext] *)

Inductive ContextType := CONTEXT_SEQPACKET | CONTEXT_STREAM | CONTEXT_DATAGRAM | CONTEXT_ANY.
Record P2PContext := mkP2PContext { m_context_type : ContextType; m_parent_socket : Z; context_id : option Z }.
Definition P2PContext_new (t : ContextType) (parent : Z) : P2PContext := mkP2PContext t parent None.
Definition getContextType (c : P2PContext) : ContextType := m_context_type c.
Definition getParentSocket (c : P2PContext) : Z := m_parent_socket c.
(** Nothing ever sets [context_id]. *)
Definition getContextID (c : P2PContext) : outcome Z :=
  match context_id c with Some i => Ret i | None => Undef uninitialised end.

(** ** [generateKeyPair] *)

Section KeyPair.
Context {EC : ECDSA}.
Definition generateKeyPair (rng : Z) : outcome (bytes * bytes) :=
  let new_private_key := generateKey rng in
  new_public_key ← derivePublicKey new_private_key;
  priv ← toBase58 new_private_key;
  pub ← toBase58 new_public_key;
  Ret (priv, pub).

(** [strcpy] of [c_str()] into a buffer with room for the terminator. *)
Definition c_string (s : bytes) : bytes := s ++ [x00].
Fixpoint strlen_prefix (buffer : bytes) : bytes :=
  match buffer with [] => [] | x00 :: _ => [] | b :: rest => b :: strlen_prefix rest end.
Definition strcpy (src : bytes) : bytes := strlen_prefix (c_string src) ++ [x00].
Definition p2p_generateKeyPair (rng : Z) : outcome (bytes * bytes) :=
  kp ← generateKeyPair rng; Ret (strcpy kp.1, strcpy kp.2).
End KeyPair.

(** ** The daemon as seen by a client *)

Section EndToEnd.
Context {EC : ECDSA} {DG : Digest}.

(** One exchange over session [sid] with token [tok]: the daemon serves the
    request, and the reply is the message it writes.  Without one, or when the
    daemon dies, no reply comes. *)
Definition daemon_exchange (ok : Z → APIMessage → bool) (sid tok : Z) (d : Daemon) (m : APIMessage)
  : outcome (option APIMessage) * Daemon :=
  match serve (Arrived ok sid (set_message_token tok m) None) d with
  | Ret (_, d', Written _ reply :: _) =>
      (match error reply with
       | Some e => Throw (system_error (error_code e) P2PErrorCategory)
       | None => Ret (Some reply)
       end, d')
  | Ret (_, d', _) => (Ret None, d')
  | _ => (Ret None, d)
  end.
Definition api_io (ok : Z → APIMessage → bool) (sid tok : Z) : DaemonIO Daemon :=
  {| clientExchange := daemon_exchange ok sid tok |}.

Lemma with_reply_written {A} ok sid tok d m (f : APIMessage → outcome A) d' reply es a :
  serve (Arrived ok sid (set_message_token tok m) None) d = Ret (tt, d', Written sid reply :: es) →
  error reply = None → f reply = Ret a →
  with_reply (IO:=api_io ok sid tok) d m f = (Ret (Some a), d').
Proof. intros H He Hf. unfold with_reply. simpl. unfold daemon_exchange. rewrite H, He. simpl. by rewrite Hf. Qed.

Lemma with_reply_none {A} ok sid tok d m (f : APIMessage → outcome A) d' :
  serve (Arrived ok sid (set_message_token tok m) None) d = Ret (tt, d', [Receiving sid]) →
  with_reply (IO:=api_io ok sid tok) d m f = (Ret None, d').
Proof. intros H. unfold with_reply. simpl. unfold daemon_exchange. by rewrite H. Qed.

(** Base58 keys contain no zero byte, so C strings carry them. *)
Lemma strcpy_id s : x00 ∉ s → strcpy s = s ++ [x00].
Proof.
  intros Hs. unfold strcpy, c_string. f_equal. induction s as [|b s IH]; [done|].
  apply not_elem_of_cons in Hs as [Hb Hs]. simpl. rewrite IH by done. by destruct b.
Qed.
End EndToEnd.

(** ** Properties of clients *)

(** The life of a node, from the client's constructor to the daemon's
    database and back: creating a [P2PNode] yields the smallest free
    identifier of the session and an unbound node of the daemon, [listen] sets
    the connection limit of that very node, and the destructor deletes it and
    leaves every session of the daemon as before. *)
Theorem client_node_lifecycle {EC : ECDSA} {DG : Digest}
    (evs : list server_event) (d : Daemon) (es : list effect) (sid t1 t2 t3 max_conn : Z) (x : APISession)
    (ok : Z → APIMessage → bool)
    (H : serve_all evs Daemon_new = Ret (tt, d, es)) (Hx : sessions d !! sid = Some x)
    (Hok : ∀ m, ok sid m = true) (Hne : next_node_id x ≠ 0%Z) :
  ∃ n d1 d2 d3 p,
    P2PNode_new (IO:=api_io ok sid t1) d = (Ret (Some n), d1) ∧ node_id n = next_node_id x ∧
    heap (manager d1) !! p = Some (Node_new (Some sid)) ∧
    P2PNode_listen (IO:=api_io ok sid t2) d1 n max_conn = (Ret (Some tt), d2) ∧
    (∃ y, heap (manager d2) !! p = Some y ∧ max_connections y = max_conn ∧ isBound y = false) ∧
    P2PNode_delete (IO:=api_io ok sid t3) d2 n = (Ret (Some tt), d3) ∧
    heap (manager d3) !! p = None ∧ sessions d3 = sessions d.
Proof.
  assert (DInv d) as HI. { eapply DInv_serve_all; [|exact H]. by intros ? ?. }
  pose proof (HI sid x Hx) as Hids. set (i := next_node_id x).
  set (t := new_node_t d). set (x1 := registered x t). set (p := next_ptr (manager d)).
  set (nm1 := (createNode (manager d) (Some sid)).2).
  set (d1 := mkDaemon nm1 (<[sid := x1]> (sessions d)) (next_session d)).
  set (y := mkNode None Hash_new (Some sid) max_conn None ∅ []).
  set (nm2 := set_heap (<[p := y]>) nm1). set (d2 := set_manager nm2 d1).
  set (nm3 := set_heap (delete p) (set_unbound (λ u, u ∖ {[p]}) nm2)).
  assert (sm_find i (nodes x1) = Some t) as Hf by (apply sm_find_insert, sm_find_None; apply Hids).
  assert (Node_listen nm1 p max_conn = Ret nm2) as Hlisten.
  { unfold Node_listen, node_at, nm1, p. simpl. by rewrite lookup_insert_eq. }
  assert (destroyNode nm2 p = Ret nm3) as Hdestroy.
  { unfold destroyNode, nm2, nm1. rewrite decide_True by (simpl; set_solver). simpl. unfold delete_node, node_at. simpl.
    by rewrite lookup_insert_eq. }
  exists (mkP2PNode i None), d1, d2, (mkDaemon nm3 (<[sid := unregistered x1 i]> (sessions d1)) (next_session d)), p.
  split; [|split; [done|split; [|split; [|split; [|split; [|split]]]]]].
  - eapply with_reply_written; [by apply serve_register|done|done].
  - unfold d1, nm1, p. simpl. by rewrite lookup_insert_eq.
  - eapply with_reply_written;
      [by eapply (serve_listen ok sid _ d1 x1 i max_conn t); [apply lookup_insert_eq|..]|done|done].
  - exists y. unfold d2, nm2. simpl. rewrite lookup_insert_eq. done.
  - unfold P2PNode_delete. erewrite with_reply_written; [done|
      by eapply (serve_unregister ok sid _ d2 x1 i t nm3); [apply lookup_insert_eq|..]|done|done].
  - unfold nm3. simpl. apply lookup_delete_eq.
  - simpl. rewrite insert_insert_eq. unfold x1, i. rewrite unregistered_registered by done. by apply insert_id.
Qed.

Lemma client_node_lifecycle_witness :
  ∃ n d1, P2PNode_new (IO:=api_io (EC:=Toy.toy_ECDSA) (DG:=Toy.toy_Digest) Demo.all_ok 1 8) Demo.state = (Ret (Some n), d1) ∧ node_id n = 2%Z.
Proof.
  assert (next_node_id Demo.session = 2%Z) as E by (vm_compute; reflexivity).
  destruct (client_node_lifecycle Demo.evs Demo.state Demo.effects 1 8 9 10 5 Demo.session Demo.all_ok
    Demo.served_ok Demo.session_ok) as (n & d1 & _ & _ & _ & H1 & H2 & _).
  - reflexivity.
  - rewrite E. discriminate.
  - exists n, d1. split; [exact H1|]. rewrite H2. exact E.
Defined.

(** Calls for a node the daemon does not know never return: binding,
    listening and the destructor all wait for a reply the daemon does not
    send, and the daemon is unchanged. *)
Theorem client_blocks_on_unknown_node {EC : ECDSA} {DG : Digest}
    (d : Daemon) (sid tok max_conn : Z) (x : APISession) (ok : Z → APIMessage → bool) (n : P2PNode) (k : bytes)
    (Hx : sessions d !! sid = Some x) (Hn : sm_find (node_id n) (nodes x) = None) :
  P2PNode_listen (IO:=api_io ok sid tok) d n max_conn = (Ret None, d) ∧
  P2PNode_bind (IO:=api_io ok sid tok) d n k = (Ret None, d) ∧
  P2PNode_delete (IO:=api_io ok sid tok) d n = (Ret None, d).
Proof.
  pose proof (receiveLoop_run sid x d Hx) as Hl.
  split; [|split]; [| |unfold P2PNode_delete; erewrite with_reply_none; [done|]]; try apply with_reply_none;
    cbn [serve handleReceive]; unfold process; cbn [get_type].
  - unfold NodeListen. cbn. rewrite run_assoc, (run_session_at sid x) by done. cbn in Hn. rewrite Hn.
    unfold remoteThrow. by rewrite run_skip.
  - unfold NodeBind. cbn. rewrite run_assoc, (run_session_at sid x) by done. cbn in Hn. rewrite Hn.
    unfold remoteThrow. by rewrite run_skip.
  - unfold NodeUnRegister. cbn. rewrite run_assoc, (run_session_at sid x) by done. cbn in Hn. rewrite Hn.
    unfold remoteThrow. by rewrite run_skip.
Qed.

Lemma client_blocks_on_unknown_node_witness :
  P2PNode_listen (EC:=Toy.toy_ECDSA) (IO:=api_io (DG:=Toy.toy_Digest) Demo.all_ok 1 8) Demo.state (mkP2PNode 77 None) 5 = (Ret None, Demo.state).
Proof.
  refine (proj1 (client_blocks_on_unknown_node (DG:=Toy.toy_Digest) Demo.state 1 8 5 Demo.session Demo.all_ok (mkP2PNode 77 None) []
    Demo.session_ok _)).
  vm_compute. reflexivity.
Defined.

Lemma b58_no_zero cs : Forall b58_char cs → x00 ∉ cs.
Proof. intros H Hin. rewrite Forall_forall in H. apply H in Hin. by vm_compute in Hin. Qed.

(** C29 A generated key pair can be used: [generateKeyPair] always returns, its
    C variant carries the same strings terminated by a zero byte, and binding
    an unbound node with the private string binds it, in the client and in the
    daemon, to that key: the daemon finds the node under the hash of its
    public key. *)
Theorem generated_key_binds {EC : ECDSA} {DG : Digest} (rng sid tok : Z) (d : Daemon) (x : APISession)
    (ok : Z → APIMessage → bool) (n : P2PNode) (t : node_t) (y : Node)
    (Hx : sessions d !! sid = Some x) (Hn : sm_find (node_id n) (nodes x) = Some t)
    (Hok : ∀ m, ok sid m = true) (Hy : heap (manager d) !! node t = Some y)
    (Hu : node t ∈ nodes_unbound (manager d))
    (Hf : nodes_bound (manager d) !! key_sh (sk_of_bigint rng) = None) :
  ∃ priv pub d' n',
    generateKeyPair rng = Ret (priv, pub) ∧
    p2p_generateKeyPair rng = Ret (priv ++ [x00], pub ++ [x00]) ∧
    P2PNode_bind (IO:=api_io ok sid tok) d n priv = (Ret (Some n'), d') ∧
    m_bound_private_key n' = Some (sk_of_bigint rng) ∧
    (h ← Hash_of_private (m_bound_private_key n'); Ret (getBoundNode (manager d') h)) = Ret (Some (node t)).
Proof.
  set (k := sk_of_bigint rng) in *.
  destruct (private_binary k) as (bin & Hbin & Hlen & Hval).
  destruct (encode_spec bin) as (priv & Hpriv & Hpc & _).
  destruct (encode_spec (x509_ber (pk_of_sk k))) as (pub & Hpub & Hqc & _).
  assert (generateKeyPair rng = Ret (priv, pub)) as Hgen.
  { unfold generateKeyPair, toBase58, toBinaryString, generateKey. fold k. cbn [derivePublicKey mbind outcome_bind].
    rewrite Hbin. cbn [mbind outcome_bind]. rewrite Hpriv. cbn [mbind outcome_bind toBinaryVector PublicKeyDSA_MathString].
    by rewrite Hpub. }
  assert (fromBase58 (T:=PrivateKeyDSA) priv = Ret (Some k)) as Hkey.
  { pose proof (private_base58 (CO:=Toy.toy_Codec) k) as H. unfold toBase58, toBinaryString in H. rewrite Hbin in H.
    cbn [mbind outcome_bind] in H. by rewrite Hpriv in H. }
  set (nm0 := set_heap (<[node t := with_key (Some k) (mkHash (key_sh k) true) y]>) (manager d)).
  assert (Node_bind (manager d) (node t) (Some k) =
    Ret (set_unbound (λ u, u ∖ {[node t]}) (set_bound (map_insert (key_sh k) (node t)) nm0))) as Hnm.
  { rewrite (Node_bind_unfold _ _ k y) by done. unfold bindNode. cbn [nodes_unbound set_heap].
    by rewrite decide_True. }
  eexists priv, pub, _, (mkP2PNode (node_id n) (Some k)). split; [done|].
  split; [unfold p2p_generateKeyPair; rewrite Hgen; simpl; by rewrite !strcpy_id by (by apply b58_no_zero)|].
  split; [|split; [done|]].
  - eapply with_reply_written; [by eapply serve_bind_b58|done|]. unfold setAsBase58.
    assert (setAsBinaryString (m_bound_private_key n) (decodeFromBase58 priv) = Ret (Some k)) as -> by exact Hkey. done.
  - simpl. unfold getBoundNode, map_insert. simpl. fold (key_sh k). rewrite Hf, lookup_insert_eq. done.
Qed.

Lemma generated_key_binds_witness :
  ∃ priv d' n', P2PNode_bind (EC:=Toy.toy_ECDSA) (IO:=api_io (DG:=Toy.toy_Digest) Demo.all_ok 1 8) Demo.state (mkP2PNode 1 None) priv
    = (Ret (Some n'), d').
Proof.
  assert (nodes_bound (manager Demo.state) = ∅) as Hb by (vm_compute; reflexivity).
  assert (bool_decide (is_Some (heap (manager Demo.state) !! 1%Z)) = true) as Hh by (vm_compute; reflexivity).
  destruct (heap (manager Demo.state) !! 1%Z) as [y|] eqn:Hy; [clear Hh|discriminate Hh].
  destruct (generated_key_binds (DG:=Toy.toy_Digest) 5 1 8 Demo.state Demo.session Demo.all_ok (mkP2PNode 1 None)
    (mkNode_t 1 1 ∅) y) as (priv & _ & d' & n' & _ & _ & H & _).
  - exact Demo.session_ok.
  - vm_compute. reflexivity.
  - reflexivity.
  - exact Hy.
  - apply (bool_decide_unpack (1%Z ∈ nodes_unbound (manager Demo.state))). vm_compute. exact I.
  - rewrite Hb. apply lookup_empty.
  - exists priv, d', n'. exact H.
Defined.
