(* ===== verification/ClientNodes.v ===== *)
(** * A client's node objects and the daemon

    A program that links the library holds [P2PNode] objects
    ([library/P2PNode.cpp]); each stands for a node of the daemon, which the
    daemon's session finds by the identifier in the object.  Here the calls of
    one program run against the daemon between the requests of all other
    clients, and are compared with objects that are local to the program. *)

From S2P Require Import Prelude StdMap Common Crypto Config NodeManager APISocket APISession APINodes Client.
Import HashM KeyM.
From Stdlib Require Import ZArith Lia.

(** ** Nodes that were never bound *)

Section Keyless.
Context {EC : ECDSA} {DG : Digest}.

(** What the requests keep of the manager. *)
Section Manager.
Variable Q : NodeManager → Prop.
Hypothesis Qcreate : ∀ nm api, Q nm → Q (createNode nm api).2.
Hypothesis Qdestroy : ∀ nm n nm', Q nm → destroyNode nm n = Ret nm' → Q nm'.
Hypothesis Qbind : ∀ nm n k nm', Q nm → Node_bind nm n k = Ret nm' → Q nm'.
Hypothesis Qlisten : ∀ nm n max nm', Q nm → Node_listen nm n max = Ret nm' → Q nm'.
Abbreviation QD := (λ d : Daemon, Q (manager d)).

Lemma preserves_session_at sid : preserves QD (session_at sid).
Proof.
  intros d x d' es Hd H. unfold session_at in H. rewrite run_get in H. destruct (sessions d !! sid); [|done].
  unfold lift in H. by injection H as <- <- <-.
Qed.
Lemma preserves_update_session sid f : preserves QD (update_session sid f).
Proof. unfold update_session. eauto using preserves_session_at with p2p. Qed.
Lemma preserves_on_manager f : (∀ nm nm', Q nm → f nm = Ret nm' → Q nm') → preserves QD (on_manager f).
Proof.
  intros Hf d [] d' es Hd H. unfold on_manager in H. rewrite run_get in H.
  apply M_bind_Ret in H as (nm & d1 & e1 & e2 & H1 & [= <- <-] & _). unfold lift in H1.
  apply bind_Ret in H1 as (nm1 & Hnm & [= <- <- <-]). by eapply Hf.
Qed.
Lemma preserves_send ok sid m : preserves QD (send ok sid m).
Proof.
  unfold send. apply preserves_bind; [apply preserves_session_at|intros x]. destruct (ok sid m); [apply preserves_emit|].
  unfold dropSession. eauto using preserves_session_at with p2p.
Qed.
Lemma preserves_process ok sid m : preserves QD (process ok sid m).
Proof.
  unfold process. destruct (get_type m).
  - intros d [] d' es Hd H. unfold NodeRegister in H. destruct (sessions d !! sid) as [x|] eqn:Hx; [|by rewrite run_session_gone in H].
    destruct (decide (next_node_id x = 0)%Z) as [E|E].
    + rewrite (run_session_at sid x), decide_True in H by done. by injection H as <- _.
    + change (NodeRegister ok sid m d = Ret (tt, d', es)) in H. rewrite (NodeRegister_run ok sid m d x) in H by done.
      destruct (ok sid _); [|done]. injection H as <- _. by apply Qcreate.
  - unfold NodeUnRegister. apply preserves_bind; [apply preserves_session_at|intros x]. destruct (sm_find _ _); [|apply preserves_skip].
    eauto using preserves_on_manager, preserves_update_session, preserves_send with p2p.
  - intros d [] d' es Hd H. done.
  - intros d [] d' es Hd H. done.
  - unfold NodeListen. destruct (default _ (node_listen m)) as [i mc].
    apply preserves_bind; [apply preserves_session_at|intros x]. destruct (sm_find _ _); [|apply preserves_skip].
    eauto using preserves_on_manager, preserves_send with p2p.
  - unfold NodeBind. apply preserves_bind; [apply preserves_session_at|intros x]. destruct (sm_find _ _); [|apply preserves_skip].
    apply preserves_bind; [|intros; apply preserves_send].
    repeat case_match; eauto using preserves_on_manager with p2p.
  - apply preserves_skip.
Qed.
Lemma preserves_serve e : preserves QD (serve e).
Proof.
  destruct e as [|ok sid m err]; cbn [serve].
  - unfold handleAccept. apply preserves_bind; [apply preserves_get|intros d].
    apply preserves_bind; [by apply preserves_modify|intros _]. unfold receiveLoop. eauto using preserves_session_at with p2p.
  - unfold handleReceive. destruct err; [unfold dropSession; eauto using preserves_session_at with p2p|].
    apply preserves_bind; [apply preserves_process|intros _]. unfold receiveLoop. eauto using preserves_session_at with p2p.
Qed.
End Manager.

(** A live node without key is among the unbound nodes. *)
Definition keyless_unbound (nm : NodeManager) : Prop :=
  ∀ n y, heap nm !! n = Some y → bound_private_key y = None → n ∈ nodes_unbound nm.

Lemma keyless_new : keyless_unbound NodeManager_new.
Proof. intros n y H. cbn [NodeManager_new heap] in H. by rewrite lookup_empty in H. Qed.
Lemma keyless_create nm api : keyless_unbound nm → keyless_unbound (createNode nm api).2.
Proof.
  intros Hq n y. cbn [createNode snd heap nodes_unbound]. rewrite lookup_insert_Some.
  intros [[<- _]|[_ Hy]] Hk; [set_solver|]. apply elem_of_union. right. by eapply Hq.
Qed.
Lemma keyless_destroy nm n nm' : keyless_unbound nm → destroyNode nm n = Ret nm' → keyless_unbound nm'.
Proof.
  intros Hq H. unfold destroyNode in H. apply bind_Ret in H as (nm1 & H1 & H2).
  assert (heap nm1 = heap nm ∧ nodes_unbound nm ∖ {[n]} ⊆ nodes_unbound nm1) as [Hh Hu].
  { case_decide; [by injection H1 as <-|]. unfold node_at in H1. destruct (heap nm !! n); [|done].
    cbn [mbind outcome_bind] in H1. case_match; [|done]. injection H1 as <-. split; [done|]. cbn. set_solver. }
  unfold delete_node in H2. apply bind_Ret in H2 as (x & _ & [= <-]). intros k y. cbn [set_heap heap nodes_unbound].
  rewrite lookup_delete_Some, Hh. intros [Hne Hy] Hk. apply Hu. pose proof (Hq k y Hy Hk). set_solver.
Qed.
Lemma keyless_update nm n x y nm' : keyless_unbound nm → heap nm !! n = Some x → heap nm' = <[n := y]> (heap nm) →
  nodes_unbound nm ∖ {[n]} ⊆ nodes_unbound nm' → (bound_private_key y = None → n ∈ nodes_unbound nm') → keyless_unbound nm'.
Proof.
  intros Hq Hx Hh Hu Hn k z. rewrite Hh, lookup_insert_Some. intros [[<- <-]|[Hne Hz]] Hk; [by apply Hn|].
  apply Hu. pose proof (Hq k z Hz Hk). set_solver.
Qed.
Lemma keyless_listen nm n max nm' : keyless_unbound nm → Node_listen nm n max = Ret nm' → keyless_unbound nm'.
Proof.
  intros Hq H. unfold Node_listen, node_at in H. destruct (heap nm !! n) as [x|] eqn:Hx; [|done]. injection H as <-.
  eapply keyless_update; [exact Hq|exact Hx|done|cbn; set_solver|]. intros Hk. by eapply Hq.
Qed.

(** A bind of a live node stores its key, or finds the database inconsistent,
    which it does not for a node that was never bound. *)
Lemma Node_bind_key nm n k x : heap nm !! n = Some x →
  (∃ nm', Node_bind nm n (Some k) = Ret nm' ∧ heap nm' = <[n := with_key (Some k) (mkHash (key_sh k) true) x]> (heap nm) ∧
     nodes_unbound nm' = nodes_unbound nm ∖ {[n]} ∧ next_ptr nm' = next_ptr nm) ∨
  (Node_bind nm n (Some k) = Throw db_non_consistent ∧ n ∉ nodes_unbound nm).
Proof.
  intros Hx. rewrite (Node_bind_unfold nm n k x) by done. unfold bindNode, node_at. cbn [set_heap nodes_unbound heap nodes_bound].
  case_decide as Hd; [left; by eexists|]. rewrite lookup_insert_eq. cbn [mbind outcome_bind]. case_match; [left|by right].
  eexists. split; [done|]. split; [done|]. split; [|done]. cbn. set_solver.
Qed.
Lemma keyless_bind nm n k nm' : keyless_unbound nm → Node_bind nm n k = Ret nm' → keyless_unbound nm'.
Proof.
  intros Hq H. pose proof H as H'. unfold Node_bind, node_at in H'. destruct (heap nm !! n) as [x|] eqn:Hx; [|done].
  destruct k as [k|]; [|done]. clear H'. destruct (Node_bind_key nm n k x Hx) as [(nm1 & H1 & Hh & Hu & _)|[H1 _]]; [|congruence].
  rewrite H in H1. injection H1 as <-. eapply keyless_update; [exact Hq|exact Hx|exact Hh|by rewrite Hu|done].
Qed.

Lemma keyless_serve e : preserves (λ d, keyless_unbound (manager d)) (serve e).
Proof.
  apply preserves_serve; [apply keyless_create|apply keyless_destroy|apply keyless_bind|apply keyless_listen].
Qed.
Lemma keyless_serve_all evs : preserves (λ d, keyless_unbound (manager d)) (serve_all evs).
Proof. apply preserves_forM. intros e. apply keyless_serve. Qed.
End Keyless.

(** ** The program *)

Section ClientNodes.
Context {EC : ECDSA} {DG : Digest}.
(** The program's session, and which writes to clients succeed. *)
Variables (ok : Z → APIMessage → bool) (sid : Z).

(** The [P2PNode] objects of the program by their pointers, and the daemon. *)
Record Program := mkProgram { objects : gmap Z P2PNode; server : Daemon }.

Inductive call :=
| Create (h : Z)
| Bind (h : Z) (base58_private_key : bytes)
| Listen (h max_conn : Z)
| Accept (h : Z)
| Connect (h : Z) (SH : bytes)
| Destroy (h : Z)
| Others (e : server_event).

(** A call of the program, whose exchange has token [tok], or a step of the
    daemon for another client; [None] when the call blocks. *)
Definition run_call (tok : Z) (c : call) (w : Program) : outcome (option Program) :=
  let on {A} h (f : P2PNode → outcome (option A) * Daemon) (g : A → gmap Z P2PNode) :=
    match objects w !! h with
    | None => Undef use_after_free
    | Some n => let '(r, d) := f n in o ← r; Ret (a ← o; Some (mkProgram (g a) d))
    end in
  match c with
  | Create h =>
      let '(r, d) := P2PNode_new (IO:=api_io ok sid tok) (server w) in
      o ← r; Ret (n ← o; Some (mkProgram (<[h := n]> (objects w)) d))
  | Bind h key => on h (λ n, P2PNode_bind (IO:=api_io ok sid tok) (server w) n key) (λ n, <[h := n]> (objects w))
  | Listen h max_conn => on h (λ n, P2PNode_listen (IO:=api_io ok sid tok) (server w) n max_conn) (λ _, objects w)
  | Accept h => on h (λ n, P2PNode_accept (IO:=api_io ok sid tok) (server w) n) (λ _, objects w)
  | Connect h SH => on h (λ n, P2PNode_connect (IO:=api_io ok sid tok) (server w) n SH) (λ _, objects w)
  | Destroy h => on h (λ n, P2PNode_delete (IO:=api_io ok sid tok) (server w) n) (λ _, delete h (objects w))
  | Others e => '(_, d, _) ← serve e (server w); Ret (Some (mkProgram (objects w) d))
  end.

(** The program constructs at free addresses and uses live objects; the other
    events of the daemon are not of the program's session. *)
Definition allowed (c : call) (w : Program) : Prop :=
  match c with
  | Create h => objects w !! h = None
  | Bind h _ | Listen h _ | Accept h | Connect h _ | Destroy h => is_Some (objects w !! h)
  | Others Accepted => True
  | Others (Arrived _ s _ _) => s ≠ sid
  end.
Inductive step : Program → Z * call → Program → Prop :=
| step_call w tok c w' : allowed c w → run_call tok c w = Ret (Some w') → step w (tok, c) w'.

(** ** The specification: local objects with a key and a limit *)

Abbreviation Nodes := (gmap Z (PrivateKeyDSA * Z)).
Definition key_of (base58_private_key : bytes) : PrivateKeyDSA :=
  match fromBase58 (T:=PrivateKeyDSA) base58_private_key with Ret k => k | _ => None end.
Definition spec_call (m : Nodes) (c : call) : Nodes :=
  match c with
  | Create h => <[h := (None, 0%Z)]> m
  | Bind h key => alter (λ v, (key_of key, v.2)) h m
  | Listen h max_conn => alter (λ v, (v.1, max_conn)) h m
  | Destroy h => delete h m
  | Accept _ | Connect _ _ | Others _ => m
  end.
Definition spec_run (ls : list (Z * call)) : Nodes := foldl spec_call ∅ ls.*2.

(** ** The simulation *)

(** Object [n] and the node of the daemon it names show [v]. *)
Definition shows (d : Daemon) (n : P2PNode) (v : PrivateKeyDSA * Z) : Prop :=
  m_bound_private_key n = v.1 ∧
  ∃ p y, entry d sid (node_id n) p ∧ heap (manager d) !! p = Some y ∧ bound_private_key y = v.1 ∧ max_connections y = v.2.

Record mirrors (m : Nodes) (w : Program) : Prop := {
  mr_linked : linked (server w);
  mr_keyless : keyless_unbound (manager (server w));
  mr_session : is_Some (sessions (server w) !! sid);
  mr_shows : map_Forall2 (λ _, shows (server w)) (objects w) m;
  mr_inj : ∀ h h' n n', objects w !! h = Some n → objects w !! h' = Some n' → node_id n = node_id n' → h = h';
  mr_all : ∀ i p, entry (server w) sid i p → ∃ h n, objects w !! h = Some n ∧ node_id n = i;
}.

Lemma mirrors_object m w h n : mirrors m w → objects w !! h = Some n → ∃ v, m !! h = Some v ∧ shows (server w) n v.
Proof.
  intros Hm Hn. pose proof (mr_shows _ _ Hm h) as Hs. rewrite Hn in Hs. inversion Hs; subst. by eexists.
Qed.
Lemma mirrors_node m w h v : mirrors m w → m !! h = Some v → ∃ n, objects w !! h = Some n ∧ shows (server w) n v.
Proof.
  intros Hm Hv. pose proof (mr_shows _ _ Hm h) as Hs. rewrite Hv in Hs. inversion Hs; subst. by eexists.
Qed.
Lemma mirrors_free m w h : mirrors m w → m !! h = None ↔ objects w !! h = None.
Proof. intros Hm. pose proof (mr_shows _ _ Hm h) as Hs. split; intros H; rewrite H in Hs; by inversion Hs. Qed.

(** The other objects are shown as before when only node [p] changed. *)
Lemma shows_frame d d' n p v : linked d → sessions d' !! sid = sessions d !! sid →
  (∀ q y, q ≠ p → heap (manager d) !! q = Some y → heap (manager d') !! q = Some y) →
  ¬ entry d sid (node_id n) p → shows d n v → shows d' n v.
Proof.
  intros Hl Hs Hh Hne (Hk & q & y & He & Hy & Hv). split; [done|]. exists q, y. split; [|split; [|done]].
  - destruct He as (x & t & Hx & Ht & Hq). exists x, t. by rewrite Hs.
  - apply Hh; [|done]. by intros ->.
Qed.

(** *** One call at a time *)

Section Ok.
Hypothesis writes : ∀ m, ok sid m = true.

Lemma create_run d x tok : sessions d !! sid = Some x →
  P2PNode_new (IO:=api_io ok sid tok) d =
    if decide (next_node_id x = 0)%Z then (Ret None, d)
    else (Ret (Some (mkP2PNode (next_node_id x) None)),
          mkDaemon (createNode (manager d) (Some sid)).2 (<[sid := registered x (new_node_t d)]> (sessions d)) (next_session d)).
Proof.
  intros Hx. unfold P2PNode_new. case_decide as Hd.
  - apply with_reply_none. cbn [serve handleReceive]. unfold process.
    change (get_type _) with NODE_REGISTER. cbv iota. unfold NodeRegister. rewrite run_assoc, (run_session_at sid x), decide_True by done. unfold remoteThrow. rewrite run_skip. by eapply receiveLoop_run.
  - eapply with_reply_written; [by apply serve_register|done|done].
Qed.

Lemma create_mirrors m d x objs h : mirrors m (mkProgram objs d) → sessions d !! sid = Some x → next_node_id x ≠ 0%Z → objs !! h = None →
  mirrors (spec_call m (Create h)) (mkProgram (<[h := mkP2PNode (next_node_id x) None]> objs)
    (mkDaemon (createNode (manager d) (Some sid)).2 (<[sid := registered x (new_node_t d)]> (sessions d)) (next_session d))).
Proof.
  intros [Hl Hq Hs Hsh Hi Ha] Hx Hne Hf. cbn [objects server] in *. set (d' := mkDaemon _ _ _).
  assert (∀ s i p, entry d' s i p ↔ entry d s i p ∨ (s = sid ∧ i = next_node_id x ∧ p = next_ptr (manager d))) as Hent
    by (intros; apply entry_register; [by apply lk_ids|done]).
  assert (∀ p y, heap (manager d) !! p = Some y → heap (manager d') !! p = Some y) as Hh.
  { intros p y Hp. cbn [d' manager createNode snd heap]. apply (lk_fresh _ Hl) in Hp as Hlt. rewrite lookup_insert_ne by lia. done. }
  assert (∀ h' n, objs !! h' = Some n → node_id n ≠ next_node_id x) as Hnew.
  { intros h' n Hn E. pose proof (Hsh h') as Hs'. rewrite Hn in Hs'. inversion Hs' as [? v (_ & p & y & (x' & t & Hx' & Ht & _) & _)|]; subst.
    rewrite Hx in Hx'. injection Hx' as <-. rewrite E in Ht. apply sm_find_Some_key in Ht. by apply (lk_ids _ Hl sid x Hx) in Ht. }
  constructor; cbn [objects server].
  - by apply linked_register.
  - by apply keyless_create.
  - cbn [d' sessions]. rewrite lookup_insert_eq. by eexists.
  - apply map_Forall2_insert_2.
    + split; [done|]. exists (next_ptr (manager d)), (Node_new (Some sid)). split; [apply Hent; by right|]. split; [|done].
      cbn [d' manager createNode snd heap]. apply lookup_insert_eq.
    + eapply map_Forall2_impl; [exact Hsh|]. intros h' n v (Hk & p & y & He & Hy & Hv). split; [done|]. exists p, y.
      split; [apply Hent; by left|]. split; [by apply Hh|done].
  - intros h1 h2 n1 n2. rewrite !lookup_insert_Some. intros [[<- <-]|[N1 H1]] [[<- <-]|[N2 H2]] E; [done|..|by eapply Hi].
    + by destruct (Hnew h2 n2 H2 (eq_sym E)).
    + by destruct (Hnew h1 n1 H1 E).
  - intros i p [He|(_ & -> & _)]%Hent.
    + destruct (Ha i p He) as (h' & n & Hn & <-). exists h', n. rewrite lookup_insert_ne; [done|congruence].
    + eexists h, _. by rewrite lookup_insert_eq.
Qed.

Lemma with_reply_dead {A} tok d m (f : APIMessage → outcome A) e :
  serve (Arrived ok sid (set_message_token tok m) None) d = Throw e → with_reply (IO:=api_io ok sid tok) d m f = (Ret None, d).
Proof. intros H. unfold with_reply. simpl. unfold daemon_exchange. by rewrite H. Qed.

(** A call that changes the node [p] of object [h] in place. *)
Lemma change_mirrors m d objs h n n' v nm p y y' :
  mirrors m (mkProgram objs d) → objs !! h = Some n → node_id n' = node_id n → entry d sid (node_id n) p →
  heap (manager d) !! p = Some y → heap nm = <[p := y']> (heap (manager d)) → next_ptr nm = next_ptr (manager d) →
  api_session y' = api_session y → keyless_unbound nm →
  m_bound_private_key n' = v.1 → bound_private_key y' = v.1 → max_connections y' = v.2 →
  mirrors (<[h := v]> m) (mkProgram (<[h := n']> objs) (set_manager nm d)).
Proof.
  intros [Hl Hq Hs Hsh Hi Ha] Hn Hid He Hy Hh Hp Hapi Hq' Hk Hk' Hmx. cbn [objects server] in *.
  constructor; cbn [objects server]; [|done|done|..].
  - eapply linked_manager; [done|]. split; [exact Hp|]. by exists y, y'.
  - intros h'. rewrite !lookup_insert. case_decide as Hd; [subst h'; constructor|].
    + split; [done|]. exists p, y'. split; [by rewrite Hid|]. split; [|done]. cbn [set_manager manager]. by rewrite Hh, lookup_insert_eq.
    + pose proof (Hsh h') as Hs'. destruct (objs !! h') as [n2|] eqn:Hn2; inversion Hs' as [? v2 Hv2|]; subst; constructor.
      eapply (shows_frame d _ n2 p); [done|done| | |exact Hv2].
      * intros q z Hne Hz. cbn [set_manager manager]. by rewrite Hh, lookup_insert_ne.
      * intros He2. apply Hd. eapply Hi; [exact Hn|exact Hn2|]. by eapply (lk_inj _ Hl).
  - intros h1 h2 n1 n2. rewrite !lookup_insert_Some. intros [[<- <-]|[N1 H1]] [[<- <-]|[N2 H2]] E; [done|..|by eapply Hi].
    + eapply (Hi h h2); [exact Hn|exact H2|congruence].
    + eapply (Hi h1 h); [exact H1|exact Hn|congruence].
  - intros i q Hiq. destruct (Ha i q Hiq) as (h' & n2 & Hn2 & <-). destruct (decide (h' = h)) as [->|Hne].
    + exists h, n'. rewrite lookup_insert_eq. split; [done|]. congruence.
    + exists h', n2. by rewrite lookup_insert_ne.
Qed.

Lemma listen_run d n tok mx p y : entry d sid (node_id n) p → heap (manager d) !! p = Some y →
  ∃ nm y', P2PNode_listen (IO:=api_io ok sid tok) d n mx = (Ret (Some tt), set_manager nm d) ∧
    heap nm = <[p := y']> (heap (manager d)) ∧ next_ptr nm = next_ptr (manager d) ∧ api_session y' = api_session y ∧
    bound_private_key y' = bound_private_key y ∧ max_connections y' = mx ∧ Node_listen (manager d) p mx = Ret nm.
Proof.
  intros (x & t & Hx & Ht & <-) Hy.
  assert (∃ nm y', Node_listen (manager d) (node t) mx = Ret nm ∧ heap nm = <[node t := y']> (heap (manager d)) ∧
    next_ptr nm = next_ptr (manager d) ∧ api_session y' = api_session y ∧ bound_private_key y' = bound_private_key y ∧
    max_connections y' = mx) as (nm & y' & Hnm & Hh & Hp & Ha & Hk & Hm).
  { unfold Node_listen, node_at. rewrite Hy. by eexists _, (mkNode _ _ _ _ _ _ _). }
  exists nm, y'. split; [|done]. unfold P2PNode_listen. eapply with_reply_written; [by eapply serve_listen|done|done].
Qed.

Lemma bind_run d n tok key p y : entry d sid (node_id n) p → heap (manager d) !! p = Some y →
  (∃ nm y', P2PNode_bind (IO:=api_io ok sid tok) d n key = (Ret (Some (mkP2PNode (node_id n) (key_of key))), set_manager nm d) ∧
    heap nm = <[p := y']> (heap (manager d)) ∧ next_ptr nm = next_ptr (manager d) ∧ api_session y' = api_session y ∧
    bound_private_key y' = key_of key ∧ max_connections y' = max_connections y ∧ Node_bind (manager d) p (key_of key) = Ret nm) ∨
  (P2PNode_bind (IO:=api_io ok sid tok) d n key = (Ret None, d) ∧ p ∉ nodes_unbound (manager d)).
Proof.
  intros (x & t & Hx & Ht & <-) Hy.
  assert (∃ k : sk, fromBase58 (T:=PrivateKeyDSA) key = Ret (Some k)) as [k Hk] by (by eexists).
  assert (key_of key = Some k) as Hko by (unfold key_of; by rewrite Hk). rewrite Hko. unfold P2PNode_bind.
  assert (∀ k0, setAsBase58 (T:=PrivateKeyDSA) k0 key = Ret (Some k)) as Hset by (intros; exact Hk).
  destruct (Node_bind_key (manager d) (node t) k y Hy) as [(nm & Hnm & Hh & _ & Hp)|[Hnm Hn]].
  - left. eexists nm, _. split; [|split; [exact Hh|done]]. eapply with_reply_written; [by eapply serve_bind_b58|done|].
    by rewrite Hset.
  - right. split; [|done]. apply (with_reply_dead _ _ _ _ db_non_consistent). cbn [serve handleReceive]. unfold process. change (get_type _) with NODE_BIND. cbv iota. unfold NodeBind.
    change (node_bind _) with (Some (mkBindBody (Some (node_id n)) None (Some key))).
    change (default (mkBindBody None None None) (Some (mkBindBody (Some (node_id n)) None (Some key))))
      with (mkBindBody (Some (node_id n)) None (Some key)).
    cbn [b_node_id binary_private_key b58_private_key]. change (default 0%Z (Some (node_id n))) with (node_id n).
    rewrite run_assoc, (run_session_at sid x), Ht by done. rewrite Hk, !run_assoc, run_lift.
    unfold on_manager. rewrite !run_assoc, run_get, !run_assoc. unfold mbind, M_bind, lift. by rewrite Hnm.
Qed.

Lemma destroy_run d n tok p y : entry d sid (node_id n) p → heap (manager d) !! p = Some y →
  (∃ nm x, sessions d !! sid = Some x ∧ heap nm = delete p (heap (manager d)) ∧ next_ptr nm = next_ptr (manager d) ∧
    destroyNode (manager d) p = Ret nm ∧
    P2PNode_delete (IO:=api_io ok sid tok) d n =
      (Ret (Some tt), mkDaemon nm (<[sid := unregistered x (node_id n)]> (sessions d)) (next_session d))) ∨
  (P2PNode_delete (IO:=api_io ok sid tok) d n = (Ret None, d) ∧ p ∉ nodes_unbound (manager d)).
Proof.
  intros (x & t & Hx & Ht & <-) Hy. unfold P2PNode_delete.
  destruct (destroyNode_cases _ _ _ Hy) as [(nm & Hnm & Hh & Hp)|Hnm].
  - left. exists nm, x. do 4 (split; [done|]). by erewrite with_reply_written by (done || by eapply serve_unregister).
  - right. split.
    + rewrite (with_reply_dead _ _ _ _ db_non_consistent); [done|]. cbn [serve handleReceive]. unfold process.
      change (get_type _) with NODE_UNREGISTER. cbv iota. unfold NodeUnRegister.
      change (default 0%Z (node_unregister _)) with (node_id n). rewrite run_assoc, (run_session_at sid x), Ht by done.
      rewrite !run_assoc. unfold on_manager. rewrite !run_assoc, run_get, !run_assoc. unfold mbind, M_bind, lift. by rewrite Hnm.
    + intros Hu. unfold destroyNode, delete_node, node_at in Hnm. rewrite decide_True in Hnm by done.
      cbn [mbind outcome_bind set_unbound heap] in Hnm. by rewrite Hy in Hnm.
Qed.

Lemma destroy_mirrors m d objs h n x nm p :
  mirrors m (mkProgram objs d) → objs !! h = Some n → sessions d !! sid = Some x → entry d sid (node_id n) p →
  heap nm = delete p (heap (manager d)) → next_ptr nm = next_ptr (manager d) → keyless_unbound nm →
  mirrors (delete h m) (mkProgram (delete h objs)
    (mkDaemon nm (<[sid := unregistered x (node_id n)]> (sessions d)) (next_session d))).
Proof.
  intros [Hl Hq Hs Hsh Hi Ha] Hn Hx He Hh Hp Hq'. cbn [objects server] in *. set (d' := mkDaemon _ _ _).
  assert (∀ s j q, entry d' s j q ↔ entry d s j q ∧ ¬ (s = sid ∧ j = node_id n)) as Hent
    by (intros; apply entry_unregister; [by apply lk_ids|done]).
  constructor; cbn [objects server]; [|done|..].
  - destruct He as (x' & t & Hx' & Ht & <-). rewrite Hx in Hx'. injection Hx' as <-. by eapply linked_unregister.
  - cbn [d' sessions]. rewrite lookup_insert_eq. by eexists.
  - intros h'. rewrite !lookup_delete. case_decide as Hd; [constructor|].
    pose proof (Hsh h') as Hs'. destruct (objs !! h') as [n2|] eqn:Hn2; inversion Hs' as [? v2 Hv2|]; subst; constructor.
    assert (node_id n2 ≠ node_id n) as Hne by (intros E; apply Hd; by eapply Hi).
    destruct Hv2 as (Hk & q & z & He2 & Hz & Hv). split; [done|]. exists q, z. split; [apply Hent; split; [done|tauto]|].
    split; [|done]. cbn [d' manager]. rewrite Hh, lookup_delete_ne; [done|]. intros <-. apply Hne. by eapply (lk_inj _ Hl).
  - intros h1 h2 n1 n2 [_ H1]%lookup_delete_Some [_ H2]%lookup_delete_Some. by apply Hi.
  - intros i q [Hiq Hne]%Hent. destruct (Ha i q Hiq) as (h' & n2 & Hn2 & <-). exists h', n2. rewrite lookup_delete_ne; [done|].
    intros <-. apply Hne. split; [done|]. congruence.
Qed.
End Ok.

(** Accepting and connecting ask the daemon for what terminates it. *)
Lemma accept_blocks d n tok : P2PNode_accept (IO:=api_io ok sid tok) d n = (Ret None, d).
Proof. done. Qed.
Lemma connect_blocks d n tok SH : P2PNode_connect (IO:=api_io ok sid tok) d n SH = (Ret None, d).
Proof. done. Qed.

(** What the daemon does for other clients does not touch the session. *)
Lemma others_frame e d d' es : linked d → is_Some (sessions d !! sid) →
  match e with Accepted => True | Arrived _ s _ _ => s ≠ sid end → serve e d = Ret (tt, d', es) →
  sessions d' !! sid = sessions d !! sid ∧
  ∀ p y, heap (manager d) !! p = Some y → api_session y = Some sid → heap (manager d') !! p = Some y.
Proof.
  intros Hl Hs Hne H. destruct e as [|ok' s msg err].
  - rewrite serve_accept in H. injection H as <- _. split; [|done]. cbn [sessions].
    apply (lk_session _ Hl) in Hs. rewrite lookup_insert_ne by lia. done.
  - assert (only s d d') as Ho by (eapply keeps_handleReceive; [by apply lk_ids|exact H]). split; [by apply Ho|].
    destruct (sessions d !! s) as [x|] eqn:Hx; [|pose proof (serve_gone ok' s msg d err Hx) as Hg; by rewrite H in Hg].
    destruct err as [c|]; [rewrite (serve_drop ok' s msg d x c Hx) in H; by injection H as <- _|].
    pose proof (handled_message ok' s msg d x Hl Hx) as Hm. rewrite H in Hm. destruct Hm as (_ & _ & _ & Hi & _).
    intros p y Hy Hy'. apply Hi; [done|]. congruence.
Qed.

Lemma others_mirrors m d d' es objs e : mirrors m (mkProgram objs d) →
  match e with Accepted => True | Arrived _ s _ _ => s ≠ sid end → serve e d = Ret (tt, d', es) → mirrors m (mkProgram objs d').
Proof.
  intros [Hl Hq Hs Hsh Hi Ha] Hne H. cbn [objects server] in *. destruct (others_frame e d d' es Hl Hs Hne H) as [Hsame Hheap].
  assert (∀ i p, entry d' sid i p ↔ entry d sid i p) as Hent by (intros; unfold entry; by rewrite Hsame).
  constructor; cbn [objects server]; [by eapply linked_serve|by eapply (keyless_serve e)|by rewrite Hsame| |done|].
  - eapply map_Forall2_impl; [exact Hsh|]. intros h n v (Hk & p & y & He & Hy & Hv). split; [done|]. exists p, y.
    split; [by apply Hent|]. split; [|done]. apply Hheap; [done|]. destruct (lk_entry _ Hl _ _ _ He) as (y' & ? & ?). congruence.
  - intros i p He%Hent. by eapply Ha.
Qed.

Lemma alter_Some {V} (f : V → V) (h : Z) (m : gmap Z V) v : m !! h = Some v → alter f h m = <[h := f v]> m.
Proof.
  intros Hv. apply map_eq. intros j. rewrite lookup_insert. case_decide as Hd; [subst; by rewrite lookup_alter_eq, Hv|].
  by rewrite lookup_alter_ne.
Qed.

Section Runs.
Hypothesis writes : ∀ m, ok sid m = true.

Lemma mirrors_step m w tok c w' : mirrors m w → step w (tok, c) w' → mirrors (spec_call m c) w'.
Proof.
  intros Hm Hst. inversion Hst as [w0 tok0 c0 w1 Hal H]; subst. destruct w as [objs d]. cbn [objects server] in *.
  destruct c as [h|h key|h mx|h|h sh|h|e]; cbn [run_call allowed objects server spec_call] in *.
  - destruct (mr_session _ _ Hm) as [x Hx]. cbn [server] in Hx. rewrite (create_run writes d x tok Hx) in H.
    case_decide as Hd; [done|]. injection H as <-. by apply create_mirrors.
  - destruct Hal as [n Hn]. rewrite Hn in H. destruct (mirrors_object _ _ _ _ Hm Hn) as (v & Hv & _ & p & y & He & Hy & Hky & Hmx).
    rewrite (alter_Some _ _ _ v) by done.
    destruct (bind_run writes d n tok key p y He Hy) as [(nm & y' & Hr & Hh & Hp & Ha & Hk & Hx & Hb)|[Hr _]]; rewrite Hr in H; [|done].
    injection H as <-. eapply change_mirrors; try done; [|cbn; congruence]. eapply keyless_bind; [apply (mr_keyless _ _ Hm)|exact Hb].
  - destruct Hal as [n Hn]. rewrite Hn in H. destruct (mirrors_object _ _ _ _ Hm Hn) as (v & Hv & Hkn & p & y & He & Hy & Hky & Hmx).
    rewrite (alter_Some _ _ _ v) by done.
    destruct (listen_run writes d n tok mx p y He Hy) as (nm & y' & Hr & Hh & Hp & Ha & Hk & Hx & Hb). rewrite Hr in H.
    injection H as <-. rewrite <-(insert_id objs h n) by done. eapply change_mirrors; try done; [|cbn; congruence].
    eapply keyless_listen; [apply (mr_keyless _ _ Hm)|exact Hb].
  - destruct Hal as [n Hn]. by rewrite Hn, accept_blocks in H.
  - destruct Hal as [n Hn]. by rewrite Hn, connect_blocks in H.
  - destruct Hal as [n Hn]. rewrite Hn in H. destruct (mirrors_object _ _ _ _ Hm Hn) as (v & Hv & Hkn & p & y & He & Hy & Hky & Hmx).
    destruct (destroy_run writes d n tok p y He Hy) as [(nm & x & Hx & Hh & Hp & Hd & Hr)|[Hr _]]; rewrite Hr in H; [|done].
    injection H as <-. eapply destroy_mirrors; try done. eapply keyless_destroy; [apply (mr_keyless _ _ Hm)|exact Hd].
  - apply bind_Ret in H as ([[[] d'] es] & H1 & [= <-]). by eapply others_mirrors.
Qed.

Lemma mirrors_star m w ls w' : mirrors m w → star step w ls w' → mirrors (foldl spec_call m ls.*2) w'.
Proof.
  intros Hm Hst. revert m Hm. induction Hst as [|w1 w2 w3 [tok c] ls Hs _ IH]; intros m Hm; [done|].
  cbn [fmap list_fmap foldl snd]. apply IH. by eapply mirrors_step.
Qed.

(** A session without nodes and a program without objects. *)
Lemma mirrors_start evs d es x : serve_all evs Daemon_new = Ret (tt, d, es) → sessions d !! sid = Some x → nodes x = [] →
  mirrors ∅ (mkProgram ∅ d).
Proof.
  intros H Hx Hn. constructor; cbn [objects server].
  - by eapply linked_serve_all; [apply linked_new|].
  - eapply (keyless_serve_all evs); [|exact H]. apply keyless_new.
  - by eexists.
  - apply map_Forall2_empty.
  - intros h h' n n' Hh. by rewrite lookup_empty in Hh.
  - intros i p (x' & t & Hx' & Ht & _). rewrite Hx in Hx'. injection Hx' as <-. by rewrite Hn in Ht.
Qed.

(** Which calls return. *)
Lemma create_returns m w h tok i : mirrors m w → m !! h = None → (1 ≤ i < 2 ^ 32)%Z →
  (∀ h' n, objects w !! h' = Some n → node_id n ≠ i) → ∃ w', step w (tok, Create h) w'.
Proof.
  intros Hm Hh Hi Hfree. pose proof (mr_linked _ _ Hm) as Hl. destruct (mr_session _ _ Hm) as [x Hx].
  assert (next_node_id x ≠ 0%Z) as Hne.
  { intros E. destruct (lk_ids _ Hl sid x Hx) as (_ & _ & _ & _ & Hall). rewrite E, decide_True in Hall by done.
    destruct (sm_find i (nodes x)) as [t|] eqn:Ht; [|apply sm_find_None in Ht; apply Ht, Hall; lia].
    destruct (mr_all _ _ Hm i (node t)) as (h' & n & Hn & E'); [by exists x, t|]. by apply (Hfree h' n). }
  eexists. constructor; [by apply (mirrors_free m w h)|]. cbn [run_call]. rewrite (create_run writes _ x tok Hx), decide_False by done. done.
Qed.
Lemma use_returns m w h v tok c : mirrors m w → m !! h = Some v →
  match c with Bind h' _ | Listen h' _ | Destroy h' => h' = h | _ => False end →
  (∃ w', step w (tok, c) w') ∨ (match c with Listen _ _ => False | _ => True end ∧ v.1 ≠ None ∧ run_call tok c w = Ret None).
Proof.
  intros Hm Hv Hc. destruct (mirrors_node _ _ _ _ Hm Hv) as (n & Hn & _ & p & y & He & Hy & Hk & _).
  assert (p ∉ nodes_unbound (manager (server w)) → v.1 ≠ None) as Hkey.
  { intros Hp E. apply Hp. eapply (mr_keyless _ _ Hm); [exact Hy|by rewrite Hk]. }
  destruct c as [h'|h' key|h' mx|h'|h' sh|h'|e]; try done; subst h'.
  - destruct (bind_run writes _ n tok key p y He Hy) as [(nm & y' & Hr & _)|[Hr Hp]]; [left|right].
    + eexists. constructor; [by eexists|]. cbn [run_call]. rewrite Hn, Hr. done.
    + split; [done|]. split; [by apply Hkey|]. cbn [run_call]. by rewrite Hn, Hr.
  - left. destruct (listen_run writes _ n tok mx p y He Hy) as (nm & y' & Hr & _). eexists. constructor; [by eexists|].
    cbn [run_call]. rewrite Hn, Hr. done.
  - destruct (destroy_run writes _ n tok p y He Hy) as [(nm & x & _ & _ & _ & _ & Hr)|[Hr Hp]]; [left|right].
    + eexists. constructor; [by eexists|]. cbn [run_call]. rewrite Hn, Hr. done.
    + split; [done|]. split; [by apply Hkey|]. cbn [run_call]. by rewrite Hn, Hr.
Qed.
End Runs.
End ClientNodes.

(** ** Properties *)

(** C14 The library's nodes behave like local objects: a program that starts on a
    fresh session creates, binds, limits and destroys [P2PNode] objects while
    the daemon serves any other clients in between.  After every such run the
    objects are those of the same calls on plain local values, each with the
    key and the limit last given to it, in the object and in the daemon's node
    it names; no two objects name the same node and the session has no other
    nodes.  A constructor returns as long as an identifier is free, [listen]
    always returns, and so do [bind] and the destructor of a node that was
    never bound; [accept] and [connect] never return. *)
Theorem client_nodes_refine {EC : ECDSA} {DG : Digest} (evs : list server_event) (d : Daemon) (es : list effect)
    (ok : Z → APIMessage → bool) (sid : Z) (x : APISession) (ls : list (Z * call)) (w : Program)
    (H : serve_all evs Daemon_new = Ret (tt, d, es)) (Hx : sessions d !! sid = Some x) (Hn : nodes x = [])
    (Hok : ∀ m, ok sid m = true) (Hrun : star (step ok sid) (mkProgram ∅ d) ls w) :
  let m := spec_run ls in
  map_Forall2 (λ _, shows sid (server w)) (objects w) m ∧
  (∀ h h' n n', objects w !! h = Some n → objects w !! h' = Some n' → node_id n = node_id n' → h = h') ∧
  (∀ i p, entry (server w) sid i p → ∃ h n, objects w !! h = Some n ∧ node_id n = i) ∧
  (∀ h tok i, m !! h = None → (1 ≤ i < 2 ^ 32)%Z → (∀ h' n, objects w !! h' = Some n → node_id n ≠ i) →
     ∃ w', step ok sid w (tok, Create h) w') ∧
  (∀ h v tok max_conn, m !! h = Some v → ∃ w', step ok sid w (tok, Listen h max_conn) w') ∧
  (∀ h max tok key, m !! h = Some (None, max) →
     (∃ w', step ok sid w (tok, Bind h key) w') ∧ (∃ w', step ok sid w (tok, Destroy h) w')) ∧
  (∀ h v tok SH, m !! h = Some v → run_call ok sid tok (Accept h) w = Ret None ∧ run_call ok sid tok (Connect h SH) w = Ret None).
Proof.
  intros m. pose proof (mirrors_star ok sid Hok _ _ _ _ (mirrors_start sid evs d es x H Hx Hn) Hrun) as Hm. fold (spec_run ls) in Hm. fold m in Hm.
  split; [apply (mr_shows _ _ _ Hm)|]. split; [apply (mr_inj _ _ _ Hm)|]. split; [apply (mr_all _ _ _ Hm)|].
  split; [intros; by eapply create_returns|]. split; [|split].
  - intros h v tok mx Hv. by destruct (use_returns ok sid Hok m w h v tok (Listen h mx) Hm Hv eq_refl) as [?|[? _]].
  - intros h max tok key Hv. split.
    + by destruct (use_returns ok sid Hok m w h _ tok (Bind h key) Hm Hv eq_refl) as [?|(_ & ? & _)].
    + by destruct (use_returns ok sid Hok m w h _ tok (Destroy h) Hm Hv eq_refl) as [?|(_ & ? & _)].
  - intros h v tok SH Hv. destruct (mirrors_node _ _ _ _ _ Hm Hv) as (n & Hn' & _). cbn [run_call]. by rewrite Hn', accept_blocks, connect_blocks.
Qed.

Section Witness.
#[local] Existing Instances Toy.toy_ECDSA Toy.toy_Digest.

Definition fresh : Daemon (EC:=Toy.toy_ECDSA) :=
  mkDaemon NodeManager_new {[ 1%Z := APISession_new ]} 2.
Lemma fresh_served : serve_all [Accepted] Daemon_new = Ret (tt, fresh, [Receiving 1]).
Proof. unfold serve_all. cbn [forM]. erewrite run_bind by apply serve_accept. reflexivity. Qed.

(** A program constructs a node on a fresh session and can bind it. *)
Lemma client_nodes_refine_witness :
  ∃ w w', star (step Demo.all_ok 1) (mkProgram ∅ fresh) [(0, Create 5)%Z] w ∧ step Demo.all_ok 1 w (1%Z, Bind 5 []) w'.
Proof.
  assert (sessions fresh !! 1%Z = Some APISession_new) as Hs by reflexivity.
  destruct (client_nodes_refine [Accepted] fresh _ Demo.all_ok 1 APISession_new [] (mkProgram ∅ fresh) fresh_served Hs eq_refl
    ltac:(done) (star_nil _ _)) as (_ & _ & _ & Hc & _).
  destruct (Hc 5%Z 0%Z 1%Z) as (w & Hw); [done|done|intros h' n Hn; discriminate Hn|].
  exists w. assert (star (step Demo.all_ok 1) (mkProgram ∅ fresh) [(0, Create 5)%Z] w) as Hst by (by apply star_one).
  destruct (client_nodes_refine [Accepted] fresh _ Demo.all_ok 1 APISession_new _ w fresh_served Hs eq_refl ltac:(done) Hst)
    as (_ & _ & _ & _ & _ & Hb & _).
  destruct (Hb 5%Z 0%Z 1%Z [] eq_refl) as [(w' & Hw') _]. by exists w'.
Defined.
End Witness.
