(* ===== verification/System.v ===== *)
(** * The whole client-daemon system

    One client process and the daemon, joined by the two byte streams of a Unix
    socket: the threads of the client exchange messages ([P2PSession] of
    [library/P2PSession.cpp]), the daemon serves the frames that arrive
    ([UnixAPIServer::handleReceive], [APISession::process]) and other clients
    use the daemon at the same time.  The specification is one call of
    [daemon_exchange] per exchange, at one moment between its start and its
    end: what the clients of [Client.v] assume of their daemon. *)

From S2P Require Import Prelude StdMap Common Base58 Crypto Config NodeManager APISocket APISession Client.
Import HashM KeyM.
From Stdlib Require Import ZArith Lia.

(** ** What serving a request writes *)

Section Replies.
Context {EC : ECDSA} {DG : Digest}.

(** The effects of a handler: nothing, or one reply with the token of the
    request. *)
Definition replies (sid : Z) (m : APIMessage) (c : M Daemon effect unit) : Prop :=
  ∀ s u s' es, c s = Ret (u, s', es) →
    es = [] ∨ ∃ r, es = [Written sid r] ∧ message_token r = message_token m.
Definition silent {A} (c : M Daemon effect A) : Prop := ∀ s a s' es, c s = Ret (a, s', es) → es = [].

Lemma silent_session_at sid : silent (session_at sid).
Proof.
  intros s x s' es H. unfold session_at in H. rewrite run_get in H. unfold lift in H.
  apply bind_Ret in H as (y & _ & [= <- <- <-]). done.
Qed.
Lemma silent_lift {A} (o : outcome A) : silent (lift o).
Proof. intros s x s' es H. unfold lift in H. apply bind_Ret in H as (y & _ & [= <- <- <-]). done. Qed.
Lemma silent_get : silent get.
Proof. by intros s x s' es [= <- <- <-]. Qed.
Lemma silent_modify f : silent (modify f).
Proof. by intros s x s' es [= <- <- <-]. Qed.
Lemma silent_skip : silent skip.
Proof. by intros s x s' es [= <- <- <-]. Qed.
Lemma silent_bind {A B} (c : M Daemon effect A) (f : A → M Daemon effect B) :
  silent c → (∀ a, silent (f a)) → silent (c ≫= f).
Proof.
  intros Hc Hf s b s' es (a & s1 & e1 & e2 & H1 & H2 & ->)%M_bind_Ret.
  by rewrite (Hc _ _ _ _ H1), (Hf _ _ _ _ _ H2).
Qed.
Lemma silent_manager f : silent (on_manager f).
Proof. apply silent_bind; [apply silent_get|intros]. apply silent_bind; [apply silent_lift|intros; apply silent_modify]. Qed.
Lemma silent_update sid f : silent (update_session sid f).
Proof. apply silent_bind; [apply silent_session_at|intros; apply silent_modify]. Qed.

Lemma replies_silent sid m c : silent c → replies sid m c.
Proof. intros Hc s u s' es H. left. by eapply Hc. Qed.
Lemma replies_after {A} sid m (c : M Daemon effect A) f :
  silent c → (∀ a, replies sid m (f a)) → replies sid m (c ≫= f).
Proof.
  intros Hc Hf s b s' es (a & s1 & e1 & e2 & H1 & H2 & ->)%M_bind_Ret.
  rewrite (Hc _ _ _ _ H1). by eapply Hf.
Qed.
Lemma replies_before sid m c f : replies sid m c → (∀ u, silent (f u)) → replies sid m (c ≫= f).
Proof.
  intros Hc Hf s b s' es (a & s1 & e1 & e2 & H1 & H2 & ->)%M_bind_Ret.
  rewrite (Hf _ _ _ _ _ H2), app_nil_r. by eapply Hc.
Qed.
Lemma replies_send ok sid m r : message_token r = message_token m → replies sid m (send ok sid r).
Proof.
  intros Hr. apply replies_after; [apply silent_session_at|]. intros _. destruct (ok sid r).
  - intros s u s' es [= <- <- <-]. right. by exists r.
  - apply replies_silent, silent_bind; [apply silent_session_at|intros; apply silent_modify].
Qed.

Lemma replies_process ok sid m : replies sid m (process ok sid m).
Proof.
  unfold process. destruct (get_type m).
  - apply replies_after; [apply silent_session_at|]. intros x.
    destruct (decide _); [apply replies_silent, silent_skip|].
    apply replies_after; [apply silent_get|]. intros s. destruct (createNode _ _) as [ptr nm].
    apply replies_after; [apply silent_modify|]. intros _.
    apply replies_after; [apply silent_update|]. intros _.
    apply replies_before; [by apply replies_send|intros; apply silent_update].
  - apply replies_after; [apply silent_session_at|]. intros x.
    destruct (sm_find _ _); [|apply replies_silent, silent_skip].
    apply replies_after; [apply silent_manager|]. intros _.
    apply replies_after; [apply silent_update|]. intros _. by apply replies_send.
  - by intros s u s' es H.
  - by intros s u s' es H.
  - unfold NodeListen. destruct (default _ _) as [id mc].
    apply replies_after; [apply silent_session_at|]. intros x.
    destruct (sm_find _ _); [|apply replies_silent, silent_skip].
    apply replies_after; [apply silent_manager|]. intros _. by apply replies_send.
  - apply replies_after; [apply silent_session_at|]. intros x.
    destruct (sm_find _ _); [|apply replies_silent, silent_skip].
    apply replies_after; [|intros; by apply replies_send].
    destruct (binary_private_key _); [apply silent_bind; [apply silent_lift|intros; apply silent_manager]|].
    destruct (b58_private_key _); [apply silent_bind; [apply silent_lift|intros; apply silent_manager]|apply silent_skip].
  - apply replies_silent, silent_skip.
Qed.

Lemma serve_effects ok sid m d d' es :
  serve (Arrived ok sid m None) d = Ret (tt, d', es) →
  es = [Receiving sid] ∨ ∃ r, es = [Written sid r; Receiving sid] ∧ message_token r = message_token m.
Proof.
  cbn [serve handleReceive]. intros ([] & s1 & e1 & e2 & H1 & H2 & ->)%M_bind_Ret.
  assert (e2 = [Receiving sid]) as ->.
  { unfold receiveLoop in H2. apply M_bind_Ret in H2 as (x & s2 & e3 & e4 & H3 & [= <- <-] & ->).
    by rewrite (silent_session_at _ _ _ _ _ H3). }
  destruct (replies_process ok sid m _ _ _ _ H1) as [->|(r & -> & Hr)]; [by left|]. right. by exists r.
Qed.
End Replies.

(** ** The composed system *)

Section System.
Context {EC : ECDSA} {DG : Digest} {AP : APIProto}.

(** [ec], [ed]: the byte orders of the two machines; [sid]: the daemon's session
    for this client; [ok]: which writes of the daemon succeed. *)
Variables (ec ed : endian) (sid : Z) (ok : Z → APIMessage → bool).

(** The streams hold what was written and not read yet. *)
Record System := mkSystem {
  client : Session.P2PSession;
  to_daemon : bytes;
  to_client : bytes;
  daemon : Daemon;
  closed : bool;
  receiving : bool;  (** the client waits in [asyncReceive] *)
  serving : bool;    (** the daemon does, for this session *)
}.
Definition System_new (d : Daemon) : System := mkSystem Session.P2PSession_new [] [] d false true true.

Inductive label :=
| Begin (thread : Z) (request : APIMessage)
| Served
| Delivered
| Eof
| End (thread : Z) (result : outcome APIMessage)
| Other (e : server_event)
| Closed.

(** Messages the receiver's parser takes. *)
Definition fits (m : APIMessage) : Prop := (Z.of_nat (length (serialize m)) ≤ INT_MAX)%Z.
Definition written (es : list effect) : list APIMessage :=
  omap (λ e, match e with Written s m => if decide (s = sid) then Some m else None | _ => None end) es.
Definition restarted (es : list effect) : bool :=
  existsb (λ e, match e with Receiving s => bool_decide (s = sid) | _ => false end) es.
Definition other (e : server_event) : Prop :=
  match e with Accepted => True | Arrived _ s _ _ => s ≠ sid end.

(** A thread starts an exchange and its request is written; the daemon, if it
    waits for a message, serves the next frame, and waits again if its handler
    says so, or it serves another client's; the receiving thread, if it waits,
    reads the next frame, or the end of a closed stream, and waits again if
    [handleReceive] continues the loop; a thread whose reply is there returns;
    the daemon drops the session. *)
Inductive step : System → label → System → Prop :=
| sys_begin c i o d x rc rd thread request sent c' n b :
    Session.exchanges c !! thread = None →
    Session.exchange_begin c thread request = Ret (sent, c') → fits sent →
    asyncSend ec sent n = Ret b →
    step (mkSystem c i o d x rc rd) (Begin thread request) (mkSystem c' (i ++ b) o d x rc rd)
| sys_serve c i o d rc m i' d' es :
    asyncReceive ed i = ((m, None), i') →
    serve (Arrived ok sid m None) d = Ret (tt, d', es) → Forall fits (written es) →
    step (mkSystem c i o d false rc true) Served
      (mkSystem c i' (o ++ concat (APISocket.send ed <$> written es)) d' false rc (restarted es))
| sys_deliver c i o d x rd m o' b c' :
    asyncReceive ec o = ((m, None), o') → Session.handleReceive c m None = Ret (b, c') →
    step (mkSystem c i o d x true rd) Delivered (mkSystem c' i o' d x b rd)
| sys_eof c i o d rd m e o' b c' :
    asyncReceive ec o = ((m, Some e), o') → Session.handleReceive c m (Some e) = Ret (b, c') →
    step (mkSystem c i o d true true rd) Eof (mkSystem c' i o' d true b rd)
| sys_end c i o d x rc rd thread r c' :
    Session.exchange_end c thread = Some (r, c') →
    step (mkSystem c i o d x rc rd) (End thread r) (mkSystem c' i o d x rc rd)
| sys_other c i o d x rc rd e d' es :
    other e → serve e d = Ret (tt, d', es) → step (mkSystem c i o d x rc rd) (Other e) (mkSystem c i o d' x rc rd)
| sys_close c i o d rc rd d' es :
    dropSession sid d = Ret (tt, d', es) → step (mkSystem c i o d false rc rd) Closed (mkSystem c i o d' true rc false).

(** ** The specification: atomic exchanges *)

(** A thread's call is waiting, or the daemon has answered it ([Ret None]: with
    silence). *)
Inductive call := Waiting (token : Z) (request : APIMessage) | Answered (r : outcome (option APIMessage)).
Record Spec := mkSpec { calls : gmap Z call; spec_daemon : Daemon }.
Definition Spec_new (d : Daemon) : Spec := mkSpec ∅ d.

(** What the caller sees of an answer; silence is no result. *)
Definition result (o : outcome (option APIMessage)) : option (outcome APIMessage) :=
  match o with
  | Ret None => None
  | Ret (Some m) => Some (Ret m)
  | Throw e => Some (Throw e)
  | Undef u => Some (Undef u)
  | Terminate => Some Terminate
  | OutOfFuel => Some OutOfFuel
  end.

Inductive spec_step : Spec → option label → Spec → Prop :=
| spec_begin cs d thread request token :
    cs !! thread = None →
    spec_step (mkSpec cs d) (Some (Begin thread request)) (mkSpec (<[thread := Waiting token request]> cs) d)
| spec_commit cs d thread request token r d' :
    cs !! thread = Some (Waiting token request) →
    clientExchange (DaemonIO := api_io ok sid token) d request = (r, d') →
    spec_step (mkSpec cs d) None (mkSpec (<[thread := Answered r]> cs) d')
| spec_end cs d thread o r :
    cs !! thread = Some (Answered o) → result o = Some r →
    spec_step (mkSpec cs d) (Some (End thread r)) (mkSpec (delete thread cs) d)
| spec_other cs d e d' es :
    other e → serve e d = Ret (tt, d', es) → spec_step (mkSpec cs d) (Some (Other e)) (mkSpec cs d')
| spec_close cs d d' es :
    dropSession sid d = Ret (tt, d', es) → spec_step (mkSpec cs d) (Some Closed) (mkSpec cs d').
(** The labels a client can observe. *)
Definition visible (l : label) : option label :=
  match l with Served | Delivered | Eof => None | _ => Some l end.
Definition begun (ls : list label) : nat :=
  length (filter (λ l, match l with Begin _ _ => true | _ => false end = true) ls).

(** ** The simulation *)

(** What [clientExchange] makes of a reply. *)
Definition answer (m : APIMessage) : outcome (option APIMessage) :=
  match error m with
  | Some e => Throw (system_error (error_code e) P2PErrorCategory)
  | None => Ret (Some m)
  end.

(** The calls of the specification for the messages under way: a request in
    the stream is a waiting call, a reply in the stream or in a promise an
    answered one. *)
Record sim (n : Z) (reqs reps : list APIMessage) (s : System) (a : Spec) : Prop := {
  sim_session : Session.Inv n (client s);
  sim_loops : receiving s = true ∧ (closed s = false → serving s = true);
  sim_in : to_daemon s = concat (APISocket.send ec <$> reqs) ∧ Forall fits reqs;
  sim_out : to_client s = concat (APISocket.send ed <$> reps) ∧ Forall fits reps;
  sim_daemon : spec_daemon a = daemon s;
  sim_threads : ∀ t, is_Some (calls a !! t) ↔ is_Some (Session.exchanges (client s) !! t);
  sim_tokens : NoDup (message_token <$> reqs ++ reps);
  sim_reqs : ∀ m, m ∈ reqs → ∃ t k r, Session.exchanges (client s) !! t = Some k ∧
    calls a !! t = Some (Waiting k r) ∧ m = set_message_token k r;
  sim_reps : ∀ m, m ∈ reps → ∃ t k p, Session.exchanges (client s) !! t = Some k ∧
    message_token m = Some k ∧ calls a !! t = Some (Answered (answer m)) ∧
    Session.awaiting_receive (client s) !! k = Some p ∧ Session.value p = None;
  sim_promises : ∀ t k p m, Session.exchanges (client s) !! t = Some k →
    Session.awaiting_receive (client s) !! k = Some p → Session.value p = Some m →
    calls a !! t = Some (Answered (answer m));
}.

Lemma sim_new d : sim 0 [] [] (System_new d) (Spec_new d).
Proof.
  constructor; simpl; try done; try (intros m Hm; by apply elem_of_nil in Hm).
  - apply Session.session_Inv_new.
  - intros t. by rewrite !lookup_empty.
  - constructor.
Qed.

(** Reading a stream of frames. *)
Lemma receive_stream e1 e2 ms rest m :
  Forall fits ms → asyncReceive e2 (concat (APISocket.send e1 <$> ms)) = ((m, None), rest) →
  ∃ ms', ms = m :: ms' ∧ rest = concat (APISocket.send e1 <$> ms').
Proof.
  intros Hms H. rewrite asyncReceive_receive in H. destruct Hms as [|m' ms' Hm Hms].
  - by vm_compute in H.
  - rewrite fmap_cons, concat_cons, receive_send in H by done. injection H as <- <-. by exists ms'.
Qed.

Lemma exchange_begin_shape n s t req sent s' :
  Session.Inv n s → (0 ≤ n < 2 ^ 32)%Z → Session.exchange_begin s t req = Ret (sent, s') →
  sent = set_message_token n req ∧ Session.awaiting_receive s !! n = None ∧
  s' = Session.mkP2PSession (<[n := Session.mkPromise true None]> (Session.awaiting_receive s)) (u32 (n + 1))
         (<[t := n]> (Session.exchanges s)).
Proof.
  intros HI Hn. unfold Session.exchange_begin, Session.markMessage.
  rewrite (Session.inv_token n s HI), u32_small by (unfold in_u32; lia).
  assert (Session.awaiting_receive s !! n = None) as Hfree.
  { destruct (Session.awaiting_receive s !! n) eqn:E; [|done].
    destruct (proj1 (Session.inv_await n s HI n)) as [t' Ht]; [by eauto|].
    apply (Session.inv_below n s HI) in Ht. lia. }
  cbn [Session.awaiting_receive]. rewrite Hfree. simpl. by intros [= <- <-].
Qed.

Lemma sim_token n reqs reps s a m :
  sim n reqs reps s a → m ∈ reqs ++ reps →
  ∃ t k, message_token m = Some k ∧ Session.exchanges (client s) !! t = Some k.
Proof.
  intros Hs [Hm|Hm]%elem_of_app.
  - destruct (sim_reqs _ _ _ _ _ Hs m Hm) as (t & k & r & Ht & _ & ->). eauto.
  - destruct (sim_reps _ _ _ _ _ Hs m Hm) as (t & k & p & Ht & Hk & _). eauto.
Qed.

Lemma sim_begin n reqs reps c i o d x rc rd a t req sent c' k b :
  sim n reqs reps (mkSystem c i o d x rc rd) a → (0 ≤ n < 2 ^ 32)%Z → Session.exchanges c !! t = None →
  Session.exchange_begin c t req = Ret (sent, c') → fits sent → asyncSend ec sent k = Ret b →
  calls a !! t = None ∧
  sim (n + 1) (reqs ++ [sent]) reps (mkSystem c' (i ++ b) o d x rc rd)
    (mkSpec (<[t := Waiting n req]> (calls a)) (spec_daemon a)).
Proof.
  intros Hs Hn Ht Hb Hf Ha. pose proof Hs as []. simpl in *.
  destruct (Session.Inv_begin n c t req sent c' sim_session0 Hn Ht Hb) as (HI' & _ & _).
  destruct (exchange_begin_shape n c t req sent c' sim_session0 Hn Hb) as (-> & Hfree & ->).
  assert (calls a !! t = None) as Hcall.
  { apply eq_None_not_Some. rewrite sim_threads0, Ht. by apply is_Some_None. }
  assert (b = APISocket.send ec (set_message_token n req)) as ->.
  { unfold asyncSend in Ha. case_decide; [by injection Ha as <-|done]. }
  assert (∀ t' k', Session.exchanges c !! t' = Some k' → t ≠ t' ∧ n ≠ k') as Hold.
  { intros t' k' H. split; [congruence|]. apply (Session.inv_below n c sim_session0) in H. lia. }
  split; [done|]. constructor; simpl.
  - done.
  - done.
  - destruct sim_in0 as [-> Hfit]. rewrite fmap_app, concat_app. simpl. rewrite app_nil_r. split; [done|].
    apply Forall_app. auto.
  - done.
  - done.
  - intros t'. destruct (decide (t = t')) as [<-|Hne]; [by rewrite !lookup_insert_eq|].
    by rewrite !lookup_insert_ne.
  - rewrite <-app_assoc. simpl. rewrite <-Permutation_middle. simpl. constructor; [|done].
    intros (m & Hm & Hin)%list_elem_of_fmap. destruct (sim_token _ _ _ _ _ m Hs Hin) as (t' & k' & Hk & Ht').
    apply Hold in Ht' as [_ ?]. simpl in Hm. congruence.
  - intros m [Hm|Hm]%elem_of_app; [|apply list_elem_of_singleton in Hm as ->].
    + destruct (sim_reqs0 m Hm) as (t' & k' & r & H1 & H2 & H3). destruct (Hold _ _ H1).
      exists t', k', r. by rewrite !lookup_insert_ne.
    + exists t, n, req. by rewrite !lookup_insert_eq.
  - intros m Hm. destruct (sim_reps0 m Hm) as (t' & k' & p & H1 & H2 & H3 & H4). destruct (Hold _ _ H1).
    exists t', k', p. by rewrite !lookup_insert_ne.
  - intros t' k' p m. rewrite lookup_insert_Some. intros [[<- <-]|[Hne H1]].
    + rewrite lookup_insert_eq. by intros [= <-].
    + destruct (Hold _ _ H1). rewrite !lookup_insert_ne by done. by apply sim_promises0.
Qed.

(** A served message starts the next receive. *)
Lemma serve_restarts m d d' es : serve (Arrived ok sid m None) d = Ret (tt, d', es) → restarted es = true.
Proof.
  intros [->|(r & -> & _)]%serve_effects; unfold restarted; cbn; by rewrite bool_decide_true.
Qed.

(** A thread waits with one token, so that messages with other tokens belong
    to other threads. *)
Lemma sim_serve n reqs reps c i o d rc rd a m i' d' es :
  sim n reqs reps (mkSystem c i o d false rc rd) a →
  asyncReceive ed i = ((m, None), i') → serve (Arrived ok sid m None) d = Ret (tt, d', es) →
  Forall fits (written es) →
  ∃ t k r ans reqs', calls a !! t = Some (Waiting k r) ∧ reqs = m :: reqs' ∧
    clientExchange (DaemonIO := api_io ok sid k) d r = (ans, d') ∧
    sim n reqs' (reps ++ written es)
      (mkSystem c i' (o ++ concat (APISocket.send ed <$> written es)) d' false rc (restarted es))
      (mkSpec (<[t := Answered ans]> (calls a)) d').
Proof.
  intros Hs Hr Hd Hf. pose proof Hs as []. cbn [client to_daemon to_client daemon] in *. destruct sim_in0 as [-> Hfit].
  destruct (receive_stream _ _ _ _ _ Hfit Hr) as (reqs' & -> & ->). apply Forall_cons in Hfit as [_ Hfit'].
  destruct (sim_reqs0 m) as (t & k & r & Ht & Hcall & Hm); [set_solver|].
  assert (∃ ans, clientExchange (DaemonIO := api_io ok sid k) d r = (ans, d') ∧
    ∀ w, w ∈ written es → written es = [w] ∧ message_token w = Some k ∧ ans = answer w) as (ans & Hans & Hw).
  { cbn [clientExchange api_io]. unfold daemon_exchange. rewrite <-Hm, Hd.
    destruct (serve_effects _ _ _ _ _ _ Hd) as [->|(w & -> & Htok)]; eexists; (split; [reflexivity|]).
    - intros w Hw. by apply elem_of_nil in Hw.
    - unfold written. simpl. rewrite decide_True by done. intros w' ->%list_elem_of_singleton.
      rewrite Htok, Hm. done. }
  exists t, k, r, ans, reqs'. do 3 (split; [done|]).
  assert (message_token m = Some k) as Hmk by (by rewrite Hm).
  simpl in sim_tokens0. apply NoDup_cons in sim_tokens0 as [Hnew Hnd].
  assert (∀ m' t', m' ∈ reqs' ++ reps → message_token m' = Session.exchanges c !! t' → t ≠ t') as Hother.
  { intros m' t' Hm' Ht' <-. apply Hnew. rewrite Hmk, <-Ht, <-Ht'. by apply list_elem_of_fmap_2. }
  constructor; simpl; try done.
  - split; [apply sim_loops0|intros _; by eapply serve_restarts].
  - destruct sim_out0 as [-> Hfo]. rewrite fmap_app, concat_app. split; [done|]. by apply Forall_app.
  - intros t'. destruct (decide (t = t')) as [<-|Hne].
    + rewrite lookup_insert_eq, Ht. by split.
    + by rewrite lookup_insert_ne.
  - rewrite app_assoc, fmap_app. apply NoDup_app. split; [done|]. split.
    + intros y Hy (w & -> & Hin)%list_elem_of_fmap. apply Hw in Hin as (_ & E & _). rewrite E, <-Hmk in Hy. done.
    + destruct (written es) as [|w ws] eqn:E; [constructor|]. destruct (Hw w) as ([= ->] & _); [set_solver|].
      apply NoDup_singleton.
  - intros m' Hm'. destruct (sim_reqs0 m') as (t' & k' & r' & H1 & H2 & H3); [set_solver|].
    exists t', k', r'. rewrite lookup_insert_ne; [done|]. apply (Hother m'); [set_solver|]. by rewrite H1, H3.
  - intros m' [Hm'|Hm']%elem_of_app.
    + destruct (sim_reps0 m' Hm') as (t' & k' & p & H1 & H2 & H3 & H4).
      exists t', k', p. rewrite lookup_insert_ne; [done|]. apply (Hother m'); [set_solver|]. by rewrite H1, H2.
    + destruct (Hw _ Hm') as (_ & Hk & ->).
      destruct (proj2 (Session.inv_await n c sim_session0 k)) as [p Hp]; [by eauto|].
      exists t, k, p. rewrite lookup_insert_eq. do 4 (split; [done|]).
      destruct (Session.value p) as [v|] eqn:Hv; [|done]. by rewrite (sim_promises0 t k p v) in Hcall.
  - intros t' k' p v H1 H2 H3. destruct (decide (t = t')) as [<-|Hne].
    + rewrite (sim_promises0 t k' p v) in Hcall; done.
    + rewrite lookup_insert_ne by done. by eapply sim_promises0.
Qed.

Lemma sim_deliver n reqs reps c i o d x rc rd a m o' b c' :
  sim n reqs reps (mkSystem c i o d x rc rd) a →
  asyncReceive ec o = ((m, None), o') → Session.handleReceive c m None = Ret (b, c') →
  ∃ reps', reps = m :: reps' ∧ sim n reqs reps' (mkSystem c' i o' d x b rd) a.
Proof.
  intros Hs Hr Hc. pose proof Hs as []. simpl in *. destruct sim_out0 as [-> Hfit].
  destruct (receive_stream _ _ _ _ _ Hfit Hr) as (reps' & -> & ->). apply Forall_cons in Hfit as [_ Hfit'].
  exists reps'. split; [done|].
  destruct (Session.Inv_receive _ _ _ _ _ _ sim_session0 Hc) as [HI' He].
  destruct (sim_reps0 m) as (t & k & p & Ht & Hk & Hcall & Hp & Hv); [set_solver|].
  assert (Session.awaiting_receive c' = <[k := Session.mkPromise (Session.retrieved p) (Some m)]> (Session.awaiting_receive c)) as Haw.
  { unfold Session.handleReceive in Hc. rewrite Hk, Hp, Hv in Hc. by injection Hc as _ <-. }
  assert (b = true) as -> by (unfold Session.handleReceive in Hc; rewrite Hk, Hp, Hv in Hc; by injection Hc as <- _).
  rewrite <-Permutation_middle in sim_tokens0. simpl in sim_tokens0. apply NoDup_cons in sim_tokens0 as [Hnew Hnd].
  constructor; simpl; rewrite ?He; try done.
  - split; [done|apply sim_loops0].
  - intros m' Hm'. destruct (sim_reps0 m') as (t' & k' & p' & H1 & H2 & H3 & H4 & H5); [set_solver|].
    exists t', k', p'. rewrite Haw, lookup_insert_ne; [done|]. intros <-. apply Hnew. rewrite Hk, <-H2.
    apply list_elem_of_fmap_2. set_solver.
  - intros t' k' p' v H1. rewrite Haw, lookup_insert_Some. intros [[<- <-]|[_ H2]] H3; [|by eapply sim_promises0].
    simpl in H3. injection H3 as <-. by rewrite (Session.inv_inj _ _ sim_session0 t' t k).
Qed.

Lemma sim_end n reqs reps c i o d x rc rd a t r c' :
  sim n reqs reps (mkSystem c i o d x rc rd) a → Session.exchange_end c t = Some (r, c') →
  ∃ ans, calls a !! t = Some (Answered ans) ∧ result ans = Some r ∧
    sim n reqs reps (mkSystem c' i o d x rc rd) (mkSpec (delete t (calls a)) (spec_daemon a)).
Proof.
  intros Hs Hend. pose proof Hs as []. simpl in *.
  destruct (Session.Inv_end _ _ _ _ _ sim_session0 Hend) as (HI' & He & _).
  unfold Session.exchange_end in Hend.
  destruct (Session.exchanges c !! t) as [k|] eqn:Ht; [|done]. simpl in Hend.
  destruct (Session.awaiting_receive c !! k) as [p|] eqn:Hp; [|done]. simpl in Hend.
  destruct (Session.value p) as [m|] eqn:Hv; [|done]. simpl in Hend. injection Hend as <- <-.
  pose proof (sim_promises0 t k p m Ht Hp Hv) as Hcall. exists (answer m). split; [done|].
  split; [unfold answer; by destruct (error m)|].
  assert (∀ t' k', Session.exchanges c !! t' = Some k' → t ≠ t' → k ≠ k') as Hk.
  { intros t' k' H1 Hne <-. apply Hne. by eapply (Session.inv_inj _ _ sim_session0). }
  constructor; simpl in *; try done.
  - intros t'. destruct (decide (t = t')) as [<-|Hne]; [by rewrite !lookup_delete_eq|]. by rewrite !lookup_delete_ne.
  - intros m' Hm'. destruct (sim_reqs0 m' Hm') as (t' & k' & r' & H1 & H2 & H3). assert (t ≠ t') by congruence.
    exists t', k', r'. by rewrite !lookup_delete_ne.
  - intros m' Hm'. destruct (sim_reps0 m' Hm') as (t' & k' & p' & H1 & H2 & H3 & H4 & H5).
    assert (t ≠ t') by congruence. exists t', k', p'. rewrite !lookup_delete_ne by eauto. done.
  - intros t' k' p' v. rewrite !lookup_delete_Some. intros [? ?] [? ?] ?. eauto.
Qed.

(** The end of the stream changes nothing. *)
Lemma sim_eof n reqs reps c i o d rc rd a m e o' b c' :
  sim n reqs reps (mkSystem c i o d true rc rd) a →
  asyncReceive ec o = ((m, Some e), o') → Session.handleReceive c m (Some e) = Ret (b, c') →
  o' = o ∧ c' = c ∧ b = true.
Proof.
  intros [] Hr Hc. simpl in *. destruct sim_out0 as [-> Hfit]. rewrite asyncReceive_receive in Hr.
  destruct Hfit as [|m' ms' Hm Hms]; [|by rewrite fmap_cons, concat_cons, receive_send in Hr].
  vm_compute in Hr. injection Hr as <- <- <-. by injection Hc as <- <-.
Qed.

Lemma sim_same_client n reqs reps c i o d x rc rd a d' x' rd' : (x' = false → rd' = true) →
  sim n reqs reps (mkSystem c i o d x rc rd) a →
  sim n reqs reps (mkSystem c i o d' x' rc rd') (mkSpec (calls a) d').
Proof. intros H []. constructor; try done. split; [apply sim_loops0|exact H]. Qed.

Lemma sim_step n reqs reps s a l s' :
  sim n reqs reps s a → step s l s' → (0 ≤ n)%Z → (n + Z.of_nat (begun [l]) ≤ 2 ^ 32)%Z →
  ∃ reqs' reps' als a', star spec_step a als a' ∧ omap id als = omap visible [l] ∧
    sim (n + Z.of_nat (begun [l])) reqs' reps' s' a'.
Proof.
  intros Hs Hstep Hn Hb. destruct a as [cs sd]. pose proof (sim_daemon _ _ _ _ _ Hs) as Hd. simpl in Hd. subst sd.
  destruct Hstep as [c i o d x rc rd t req sent c' k b Ht Hbegin Hf Ha|c i o d rc m i' d' es Hr Hserve Hf
    |c i o d x rd m o' b c' Hr Hc|c i o d rd m e o' b c' Hr Hc|c i o d x rc rd t r c' Hend|c i o d x rc rd e d' es He Hserve|c i o d rc rd d' es Hdrop];
    cbn [begun daemon] in *; change (begun [Begin _ _]) with 1 in *; rewrite ?Z.add_0_r.
  - destruct (sim_begin _ _ _ _ _ _ _ _ _ _ _ _ _ _ _ _ _ Hs ltac:(simpl in Hb; lia) Ht Hbegin Hf Ha) as [Hcall Hs'].
    eexists _, _, [Some _], _. split; [by apply star_one, spec_begin|]. split; [done|exact Hs'].
  - destruct (sim_serve _ _ _ _ _ _ _ _ _ _ _ _ _ _ Hs Hr Hserve Hf) as (t & k & r & ans & reqs' & Hcall & _ & Hex & Hs').
    eexists _, _, [None], _. split; [by apply star_one; eapply spec_commit|]. split; [done|exact Hs'].
  - destruct (sim_deliver _ _ _ _ _ _ _ _ _ _ _ _ _ _ _ Hs Hr Hc) as (reps' & _ & Hs').
    eexists _, _, [], _. split; [constructor|]. split; [done|exact Hs'].
  - destruct (sim_eof _ _ _ _ _ _ _ _ _ _ _ _ _ _ _ Hs Hr Hc) as (-> & -> & ->).
    eexists _, _, [], _. split; [constructor|]. split; [done|exact Hs].
  - destruct (sim_end _ _ _ _ _ _ _ _ _ _ _ _ _ _ Hs Hend) as (ans & Hcall & Hres & Hs').
    eexists _, _, [Some _], _. split; [by apply star_one; eapply spec_end|]. split; [done|exact Hs'].
  - eexists _, _, [Some _], _. split; [by apply star_one; eapply spec_other|]. split; [done|].
    exact (sim_same_client _ _ _ _ _ _ _ _ _ _ _ d' x rd (proj2 (sim_loops _ _ _ _ _ Hs)) Hs).
  - eexists _, _, [Some _], _. split; [by apply star_one; eapply spec_close|]. split; [done|].
    by eapply (sim_same_client _ _ _ _ _ _ _ _ _ _ _ d' true false) in Hs.
Qed.

Lemma begun_cons l ls : begun (l :: ls) = begun [l] + begun ls.
Proof. unfold begun. change (l :: ls) with ([l] ++ ls). by rewrite filter_app, length_app. Qed.

Lemma sim_star n reqs reps s a ls s' :
  star step s ls s' → sim n reqs reps s a → (0 ≤ n)%Z → (n + Z.of_nat (begun ls) ≤ 2 ^ 32)%Z →
  ∃ reqs' reps' als a', star spec_step a als a' ∧ omap id als = omap visible ls ∧
    sim (n + Z.of_nat (begun ls)) reqs' reps' s' a'.
Proof.
  intros Hstar. revert n reqs reps a. induction Hstar as [s|s1 s2 s3 l ls Hstep _ IH]; intros n reqs reps a Hs Hn Hb.
  { exists reqs, reps, [], a. rewrite Z.add_0_r. split; [constructor|done]. }
  rewrite begun_cons in *.
  destruct (sim_step _ _ _ _ _ _ _ Hs Hstep Hn ltac:(lia)) as (reqs1 & reps1 & als1 & a1 & Hst1 & Hv1 & Hs1).
  destruct (IH _ _ _ _ Hs1 ltac:(lia) ltac:(lia)) as (reqs2 & reps2 & als2 & a2 & Hst2 & Hv2 & Hs2).
  exists reqs2, reps2, (als1 ++ als2), a2. split; [by eapply star_trans|].
  split; [|by rewrite Nat2Z.inj_add, Z.add_assoc].
  change (l :: ls) with ([l] ++ ls). by rewrite !omap_app, Hv1, Hv2.
Qed.

(** ** Progress *)

Lemma receive_all_stream e1 e2 ms fuel :
  Forall fits ms → length ms ≤ fuel → receive_all e2 fuel (concat (APISocket.send e1 <$> ms)) = ms.
Proof.
  intros Hms. revert fuel. induction Hms as [|m ms Hm Hms IH]; intros fuel Hf.
  - destruct fuel; [done|]. by vm_compute.
  - destruct fuel as [|fuel]; [simpl in Hf; lia|]. cbn [receive_all].
    rewrite fmap_cons, concat_cons, receive_send by done. f_equal. apply IH. simpl in Hf. lia.
Qed.
Lemma stream_length e ms : length ms ≤ length (concat (APISocket.send e <$> ms)).
Proof.
  induction ms as [|m ms IH]; [done|]. rewrite fmap_cons, concat_cons, length_app.
  assert (length (APISocket.send e m) ≠ 0); [|simpl; lia].
  unfold APISocket.send, generateSendString, store32. rewrite length_app.
  destruct e; rewrite ?length_reverse, length_be_bytes; lia.
Qed.

(** The complete messages of a stream. *)
Definition pending (e : endian) (stream : bytes) : list APIMessage := receive_all e (length stream) stream.
Lemma pending_stream e1 e2 ms : Forall fits ms → pending e2 (concat (APISocket.send e1 <$> ms)) = ms.
Proof. intros H. apply receive_all_stream; [done|apply stream_length]. Qed.

Lemma serve_pending n reqs reps c i o d rc a d' es :
  sim n reqs reps (mkSystem c i o d false rc true) a →
  serve_all ((λ m, Arrived ok sid m None) <$> reqs) d = Ret (tt, d', es) → Forall fits (written es) →
  ∃ a', let s' := mkSystem c [] (o ++ concat (APISocket.send ed <$> written es)) d' false rc true in
    star step (mkSystem c i o d false rc true) (replicate (length reqs) Served) s' ∧ sim n [] (reps ++ written es) s' a'.
Proof.
  revert reps i o d a es. induction reqs as [|m reqs IH]; intros reps i o d a es Hs Hserve Hf.
  - injection Hserve as <- <-. exists a. rewrite !app_nil_r.
    destruct (sim_in _ _ _ _ _ Hs) as [Hi _]. simpl in Hi. subst i. split; [constructor|done].
  - rewrite fmap_cons in Hserve. cbn [serve_all forM] in Hserve.
    apply M_bind_Ret in Hserve as ([] & d1 & e1 & e2 & H1 & H2 & ->).
    unfold written in Hf. rewrite omap_app in Hf. apply Forall_app in Hf as [Hf1 Hf2]. fold (written e1) (written e2) in *.
    destruct (sim_in _ _ _ _ _ Hs) as [Hi Hfit]. simpl in Hi. apply Forall_cons in Hfit as [Hm _].
    assert (asyncReceive ed i = ((m, None), concat (APISocket.send ec <$> reqs))) as Hr
      by (rewrite Hi, asyncReceive_receive; apply receive_send; exact Hm).
    destruct (sim_serve _ _ _ _ _ _ _ _ _ _ _ _ _ _ Hs Hr H1 Hf1) as (t & k & r & ans & reqs' & _ & [= <-] & _ & Hs').
    pose proof (serve_restarts _ _ _ _ H1) as Hrs. rewrite Hrs in Hs'.
    destruct (IH _ _ _ _ _ _ Hs' H2 Hf2) as (a' & Hstar & Hs''). exists a'. cbv zeta.
    unfold written at 1 2 3. rewrite omap_app. fold (written e1) (written e2).
    rewrite fmap_app, concat_app, !app_assoc. split; [|exact Hs''].
    cbn [length replicate]. econstructor; [|exact Hstar]. rewrite <-Hrs at 2. by eapply sys_serve.
Qed.

Lemma deliver_pending n reqs reps c i o d x rd a :
  sim n reqs reps (mkSystem c i o d x true rd) a →
  ∃ c', let s' := mkSystem c' i [] d x true rd in
    star step (mkSystem c i o d x true rd) (replicate (length reps) Delivered) s' ∧ sim n reqs [] s' a ∧
    Session.exchanges c' = Session.exchanges c ∧
    (∀ k p m, Session.awaiting_receive c !! k = Some p → Session.value p = Some m →
       Session.awaiting_receive c' !! k = Some p) ∧
    (∀ w k, w ∈ reps → message_token w = Some k →
       ∃ p, Session.awaiting_receive c' !! k = Some p ∧ Session.value p = Some w).
Proof.
  revert c o. induction reps as [|m reps IH]; intros c o Hs.
  - destruct (sim_out _ _ _ _ _ Hs) as [Ho _]. simpl in Ho. subst o. exists c. cbv zeta.
    split; [constructor|]. split; [done|]. split; [done|]. split; [done|].
    intros w k Hw. by apply elem_of_nil in Hw.
  - destruct (sim_out _ _ _ _ _ Hs) as [Ho Hfit]. simpl in Ho. apply Forall_cons in Hfit as [Hm _].
    assert (asyncReceive ec o = ((m, None), concat (APISocket.send ed <$> reps))) as Hr
      by (rewrite Ho, asyncReceive_receive; apply receive_send; exact Hm).
    destruct (sim_reps _ _ _ _ _ Hs m) as (t & k & p & Ht & Hk & _ & Hp & Hv); [set_solver|]. simpl in Ht, Hp.
    set (q := Session.mkPromise (Session.retrieved p) (Some m)).
    set (c1 := Session.mkP2PSession (<[k := q]> (Session.awaiting_receive c)) (Session.next_msg_token c) (Session.exchanges c)).
    assert (Session.handleReceive c m None = Ret (true, c1)) as Hc
      by (unfold Session.handleReceive; by rewrite Hk, Hp, Hv).
    destruct (sim_deliver _ _ _ _ _ _ _ _ _ _ _ _ _ _ _ Hs Hr Hc) as (reps' & [= <-] & Hs').
    destruct (IH _ _ Hs') as (c' & Hstar & Hs'' & He & Hkeep & Hall). exists c'. cbv zeta.
    split; [cbn [length replicate]; econstructor; [by eapply sys_deliver|exact Hstar]|].
    split; [done|]. split; [done|]. split.
    + intros k' p' m' Hp' Hv'. eapply Hkeep; [|exact Hv']. simpl. rewrite lookup_insert_ne; [done|]. congruence.
    + intros w k' [->|Hw]%elem_of_cons Hwk; [|by eapply Hall]. assert (k' = k) as -> by congruence.
      exists q. split; [|done]. eapply (Hkeep k q m); [apply lookup_insert_eq|done].
Qed.

(** A thread whose promise is fulfilled returns. *)
Lemma end_enabled c i o d x rc rd t k p w :
  Session.exchanges c !! t = Some k → Session.awaiting_receive c !! k = Some p → Session.value p = Some w →
  ∃ r c', result (answer w) = Some r ∧ step (mkSystem c i o d x rc rd) (End t r) (mkSystem c' i o d x rc rd).
Proof.
  intros Ht Hp Hv. unfold answer.
  destruct (error w) as [e|] eqn:He; (eexists _, _; split; [reflexivity|]; apply sys_end;
    unfold Session.exchange_end; rewrite Ht; simpl; rewrite Hp; simpl; rewrite Hv; simpl; by rewrite He).
Qed.

(** ** After the connection is closed *)

(** Thread [t] waits with token [k], and no reply to it exists. *)
Definition starved (n : Z) (t k : Z) (s : System) : Prop :=
  closed s = true ∧ Session.exchanges (client s) !! t = Some k ∧
  (∃ p, Session.awaiting_receive (client s) !! k = Some p ∧ Session.value p = None) ∧
  ∃ reqs reps a, sim n reqs reps s a ∧ ∀ w, w ∈ reps → message_token w ≠ Some k.

Lemma starved_step n t k s l s' :
  starved n t k s → step s l s' → (0 ≤ n)%Z → (n + Z.of_nat (begun [l]) ≤ 2 ^ 32)%Z →
  (∀ r, l ≠ End t r) ∧ starved (n + Z.of_nat (begun [l])) t k s'.
Proof.
  intros (Hx & Ht & (p & Hp & Hv) & reqs & reps & a & Hs & Hw) Hstep Hn Hb.
  pose proof (sim_session _ _ _ _ _ Hs) as HI.
  destruct Hstep as [c i o d x rc rd t' req sent c' n' b Ht' Hbegin Hf Ha|
    |c i o d x rd m o' b c' Hr Hc|c i o d rd m e o' b c' Hr Hc|c i o d x rc rd t' r c' Hend|c i o d x rc rd e d' es He Hserve|];
    simpl in Hx, Ht, Hp, HI; try discriminate Hx;
    change (begun [Begin _ _]) with 1 in *; cbn [begun] in *; rewrite ?Z.add_0_r.
  - split; [done|].
    destruct (sim_begin _ _ _ _ _ _ _ _ _ _ _ _ _ _ _ _ _ Hs ltac:(simpl in Hb; lia) Ht' Hbegin Hf Ha) as [_ Hs'].
    destruct (exchange_begin_shape _ _ _ _ _ _ HI ltac:(simpl in Hb; lia) Hbegin) as (_ & Hfree & ->).
    split; [done|]. simpl. rewrite lookup_insert_ne by congruence. split; [done|].
    split; [exists p; rewrite lookup_insert_ne; [done|congruence]|]. 
    by exists (reqs ++ [sent]), reps, (mkSpec (<[t' := Waiting n req]> (calls a)) (spec_daemon a)).
  - split; [done|]. destruct (sim_deliver _ _ _ _ _ _ _ _ _ _ _ _ _ _ _ Hs Hr Hc) as (reps' & -> & Hs').
    destruct (Session.Inv_receive _ _ _ _ _ _ HI Hc) as [_ He].
    split; [done|]. simpl. rewrite He. split; [done|]. split; [|exists reqs, reps', a; set_solver].
    exists p. split; [|done]. assert (message_token m ≠ Some k) as Hmk by (apply Hw; set_solver).
    unfold Session.handleReceive in Hc. destruct (message_token m) as [k'|]; [|by injection Hc as _ <-].
    destruct (Session.awaiting_receive c !! k') as [p'|]; [|done]. destruct (Session.value p'); [done|].
    injection Hc as _ <-. simpl. rewrite lookup_insert_ne; [done|congruence].
  - destruct (sim_eof _ _ _ _ _ _ _ _ _ _ _ _ _ _ _ Hs Hr Hc) as (-> & -> & ->). split; [done|].
    split; [done|]. split; [done|]. split; [by exists p|]. by exists reqs, reps, a.
  - assert (t' ≠ t) as Hne.
    { intros ->. unfold Session.exchange_end in Hend. rewrite Ht in Hend. simpl in Hend. rewrite Hp in Hend. simpl in Hend.
      by rewrite Hv in Hend. }
    split; [congruence|]. destruct (sim_end _ _ _ _ _ _ _ _ _ _ _ _ _ _ Hs Hend) as (ans & _ & _ & Hs').
    destruct (Session.Inv_end _ _ _ _ _ HI Hend) as (_ & He & k' & _ & Hk' & _).
    split; [done|]. simpl. rewrite He, lookup_delete_ne by done. split; [done|].
    split; [|by exists reqs, reps, (mkSpec (delete t' (calls a)) (spec_daemon a))]. exists p. split; [|done].
    unfold Session.exchange_end in Hend. rewrite Hk' in Hend. simpl in Hend.
    destruct (Session.awaiting_receive c !! k') as [q|]; [|done]. simpl in Hend. destruct (Session.value q); [|done].
    injection Hend as <- <-. simpl. rewrite lookup_delete_ne; [done|].
    intros ->. apply Hne. by eapply (Session.inv_inj _ _ HI).
  - split; [done|]. split; [done|]. split; [done|]. split; [by exists p|].
    exists reqs, reps, (mkSpec (calls a) d'). split; [|done].
    exact (sim_same_client _ _ _ _ _ _ _ _ _ _ _ d' x rd (proj2 (sim_loops _ _ _ _ _ Hs)) Hs).
Qed.

Lemma starved_star n t k s ls s' :
  star step s ls s' → starved n t k s → (0 ≤ n)%Z → (n + Z.of_nat (begun ls) ≤ 2 ^ 32)%Z →
  (∀ r, End t r ∉ ls) ∧ starved (n + Z.of_nat (begun ls)) t k s'.
Proof.
  intros Hstar. revert n. induction Hstar as [s|s1 s2 s3 l ls Hstep _ IH]; intros n Hs Hn Hb.
  { rewrite Z.add_0_r. split; [intros r; apply not_elem_of_nil|done]. }
  rewrite begun_cons in *. destruct (starved_step _ _ _ _ _ _ Hs Hstep Hn ltac:(lia)) as [Hl Hs1].
  destruct (IH _ Hs1 ltac:(lia) ltac:(lia)) as [Hls Hs2]. split.
  - intros r. rewrite not_elem_of_cons. split; [intros E; by apply (Hl r)|done].
  - by rewrite Nat2Z.inj_add, Z.add_assoc.
Qed.
End System.

(** ** A run: a thread registers a node *)

Module SystemDemo.
#[export] Existing Instances Toy.toy_ECDSA Toy.toy_Digest ToyAPI.toy_API.
Definition request : APIMessage := set_type NODE_REGISTER APIMessage_new.
Definition sent : APIMessage := set_message_token 0 request.
Definition reply : APIMessage := set_node_register 2 sent.
Definition start : System := System_new Demo.state.
Definition waiting : Session.P2PSession := Session.mkP2PSession {[0%Z := Session.mkPromise true None]} 1 {[5%Z := 0%Z]}.
Definition asked : System := mkSystem waiting (APISocket.send Little sent) [] Demo.state false true true.
Definition served : Daemon :=
  mkDaemon (createNode (manager Demo.state) (Some 1%Z)).2
    (<[1%Z := registered Demo.session (new_node_t Demo.state)]> (sessions Demo.state)) (next_session Demo.state).
Definition dropped : System :=
  mkSystem waiting (APISocket.send Little sent) []
    (set_sessions (delete 1%Z) Demo.state) true true false.

Lemma sent_fits : fits sent.
Proof. vm_compute. discriminate. Qed.
Lemma reply_fits : fits reply.
Proof. vm_compute. discriminate. Qed.
Lemma asks : star (step Little Big 1 Demo.all_ok) start [Begin 5 request] asked.
Proof.
  apply star_one. eapply (sys_begin _ _ _ _ Session.P2PSession_new [] []).
  - reflexivity.
  - reflexivity.
  - exact sent_fits.
  - unfold asyncSend. rewrite decide_True by reflexivity. reflexivity.
Qed.
Lemma serves : serve (Arrived Demo.all_ok 1 sent None) Demo.state = Ret (tt, served, [Written 1 reply; Receiving 1]).
Proof.
  assert (next_node_id Demo.session = 2%Z) as E by (vm_compute; reflexivity).
  unfold reply. rewrite <-E. apply serve_register; [exact Demo.session_ok|by rewrite E|reflexivity|reflexivity].
Qed.
Lemma asked_pending : pending Big (to_daemon asked) = [sent] ∧ pending Little (to_client asked) = [].
Proof.
  split; [|reflexivity]. unfold asked. cbn [to_daemon].
  rewrite <-(app_nil_r (APISocket.send Little sent)). apply (pending_stream Little Big [sent]).
  constructor; [exact sent_fits|constructor].
Qed.
Lemma serves_pending :
  serve_all ((λ m, Arrived Demo.all_ok 1 m None) <$> pending Big (to_daemon asked)) (daemon asked) =
    Ret (tt, served, [Written 1 reply; Receiving 1]).
Proof.
  rewrite (proj1 asked_pending). cbn [fmap list_fmap]. unfold serve_all. cbn [forM].
  cbn [daemon asked]. by erewrite run_bind by exact serves.
Qed.
Lemma drops : star (step Little Big 1 Demo.all_ok) start [Begin 5 request; Closed] dropped.
Proof.
  change [Begin 5 request; Closed] with ([Begin 5 request] ++ [Closed]).
  eapply star_trans; [exact asks|]. apply star_one. apply (sys_close _ _ _ _ _ _ _ _ _ _ _ []).
  unfold dropSession. by rewrite (run_session_at 1 _ _ _ Demo.session_ok).
Qed.
End SystemDemo.

(** ** Properties *)

(** The states of a run are simulated, with the complete messages of the two
    streams as the requests and replies under way. *)
Lemma sim_reachable {EC : ECDSA} {DG : Digest} {AP : APIProto} ec ed sid ok d ls s :
  star (step ec ed sid ok) (System_new d) ls s → (Z.of_nat (begun ls) ≤ 2 ^ 32)%Z →
  ∃ als a, star (spec_step sid ok) (Spec_new d) als a ∧ omap id als = omap visible ls ∧
    sim ec ed (Z.of_nat (begun ls)) (pending ed (to_daemon s)) (pending ec (to_client s)) s a.
Proof.
  intros Hstar Hb.
  destruct (sim_star _ _ _ _ _ _ _ _ _ _ _ Hstar (sim_new _ _ d) ltac:(lia) Hb) as (reqs & reps & als & a & Hst & Hv & Hs).
  exists als, a. split; [done|]. split; [done|].
  pose proof (sim_in _ _ _ _ _ _ _ Hs) as [-> Hi]. pose proof (sim_out _ _ _ _ _ _ _ Hs) as [-> Ho].
  by rewrite !pending_stream.
Qed.

(** C1 The API is linearizable: every run of the client's threads, the two byte
    streams, the daemon and the daemon's other clients, in any interleaving, is
    a run of the specification in which each exchange is one atomic call of the
    daemon between its beginning and its end: the observable labels are the
    same, in the same order, the daemon ends in the same state and the same
    threads are waiting. *)
Theorem system_linearizable {EC : ECDSA} {DG : Digest} {AP : APIProto} (ec ed : endian) (sid : Z)
    (ok : Z → APIMessage → bool) (d : Daemon) (ls : list label) (s : System)
    (H : star (step ec ed sid ok) (System_new d) ls s) (Hb : (Z.of_nat (begun ls) ≤ 2 ^ 32)%Z) :
  ∃ als a, star (spec_step sid ok) (Spec_new d) als a ∧ omap id als = omap visible ls ∧
    spec_daemon a = daemon s ∧
    ∀ t, is_Some (calls a !! t) ↔ is_Some (Session.exchanges (client s) !! t).
Proof.
  destruct (sim_reachable _ _ _ _ _ _ _ H Hb) as (als & a & Hst & Hv & Hs).
  exists als, a. split; [done|]. split; [done|]. split; [apply Hs|apply Hs].
Qed.

Lemma system_linearizable_witness :
  ∃ als a, star (spec_step 1 Demo.all_ok) (Spec_new Demo.state) als a ∧
    omap id als = [Begin 5 SystemDemo.request] ∧ is_Some (calls a !! 5%Z).
Proof.
  destruct (system_linearizable Little Big 1 Demo.all_ok Demo.state [Begin 5 SystemDemo.request] SystemDemo.asked
    SystemDemo.asks) as (als & a & Hst & Hv & _ & Ht).
  - vm_compute. discriminate.
  - exists als, a. split; [exact Hst|]. split; [exact Hv|]. apply Ht. by exists 0%Z.
Defined.

(** C13 Progress: from every reachable state of an open connection whose
    outstanding requests the daemon serves, both sides wait for messages, and
    each wait again after every message: serving each request and delivering
    each reply empties both streams without touching the waiting threads, leaves
    both sides waiting, and then every thread with a reply can return, with the
    reply or with the error it carries. *)
Theorem system_progress {EC : ECDSA} {DG : Digest} {AP : APIProto} (ec ed : endian) (sid : Z)
    (ok : Z → APIMessage → bool) (d d' : Daemon) (ls : list label) (s : System) (es : list effect)
    (H : star (step ec ed sid ok) (System_new d) ls s) (Hb : (Z.of_nat (begun ls) ≤ 2 ^ 32)%Z)
    (Hx : closed s = false)
    (Hserve : serve_all ((λ m, Arrived ok sid m None) <$> pending ed (to_daemon s)) (daemon s) = Ret (tt, d', es))
    (Hfit : Forall fits (written sid es)) :
  let replies := pending ec (to_client s) ++ written sid es in
  ∃ c', let s' := mkSystem c' [] [] d' false true true in
    star (step ec ed sid ok) s
      (replicate (length (pending ed (to_daemon s))) Served ++ replicate (length replies) Delivered) s' ∧
    Session.exchanges c' = Session.exchanges (client s) ∧
    ∀ t k w, Session.exchanges c' !! t = Some k → w ∈ replies → message_token w = Some k →
      ∃ r c'', result (answer w) = Some r ∧ step ec ed sid ok s' (End t r) (mkSystem c'' [] [] d' false true true).
Proof.
  intros replies. destruct (sim_reachable _ _ _ _ _ _ _ H Hb) as (als & a & _ & _ & Hs).
  destruct s as [c i o d1 x rc rd]. cbn [closed] in Hx. subst x. cbn [to_daemon to_client daemon client] in *.
  destruct (sim_loops _ _ _ _ _ _ _ Hs) as [Hrc Hrd]. cbn [receiving serving closed] in Hrc, Hrd. rewrite Hrc, Hrd in * by done.
  destruct (serve_pending _ _ _ _ _ _ _ _ _ _ _ _ _ _ _ Hs Hserve Hfit) as (a1 & Hst1 & Hs1).
  destruct (deliver_pending ec ed sid ok _ _ _ _ _ _ _ _ _ _ Hs1) as (c' & Hst2 & _ & He & _ & Hall).
  exists c'. cbv zeta. split; [by eapply star_trans|]. split; [done|].
  intros t k w Ht Hw Hk. destruct (Hall w k Hw Hk) as (p & Hp & Hv).
  destruct (end_enabled ec ed sid ok c' [] [] d' false true true t k p w Ht Hp Hv) as (r & c'' & Hr & Hend). eauto.
Qed.

Lemma system_progress_witness :
  ∃ c' r c'', star (step Little Big 1 Demo.all_ok) SystemDemo.asked [Served; Delivered]
      (mkSystem c' [] [] SystemDemo.served false true true) ∧
    result (answer SystemDemo.reply) = Some r ∧
    step Little Big 1 Demo.all_ok (mkSystem c' [] [] SystemDemo.served false true true) (End 5 r)
      (mkSystem c'' [] [] SystemDemo.served false true true).
Proof.
  destruct (system_progress Little Big 1 Demo.all_ok Demo.state SystemDemo.served [Begin 5 SystemDemo.request]
    SystemDemo.asked [Written 1 SystemDemo.reply; Receiving 1] SystemDemo.asks) as (c' & Hst & He & Hall).
  - vm_compute. discriminate.
  - reflexivity.
  - exact SystemDemo.serves_pending.
  - constructor; [exact SystemDemo.reply_fits|constructor].
  - rewrite (proj1 SystemDemo.asked_pending), (proj2 SystemDemo.asked_pending) in Hst.
    rewrite (proj2 SystemDemo.asked_pending) in Hall.
    destruct (Hall 5%Z 0%Z SystemDemo.reply) as (r & c'' & Hr & Hend).
    + rewrite He. reflexivity.
    + apply list_elem_of_singleton. reflexivity.
    + reflexivity.
    + exists c', r, c''. split; [exact Hst|]. split; [exact Hr|exact Hend].
Defined.

(** C39 After the connection is closed: a thread whose reply is not on its way
    never returns, whatever happens next, and once the stream is empty the
    receiving thread reads its end for ever, starting a new receive after each
    error. *)
Theorem system_hangs_after_close {EC : ECDSA} {DG : Digest} {AP : APIProto} (ec ed : endian) (sid : Z)
    (ok : Z → APIMessage → bool) (d : Daemon) (ls ls' : list label) (s s' : System) (t k : Z) (p : Session.promise)
    (H : star (step ec ed sid ok) (System_new d) ls s) (Hx : closed s = true)
    (Ht : Session.exchanges (client s) !! t = Some k)
    (Hp : Session.awaiting_receive (client s) !! k = Some p) (Hv : Session.value p = None)
    (Hw : Forall (λ w, message_token w ≠ Some k) (pending ec (to_client s)))
    (H' : star (step ec ed sid ok) s ls' s') (Hb : (Z.of_nat (begun (ls ++ ls')) ≤ 2 ^ 32)%Z) :
  (∀ r, End t r ∉ ls') ∧ Session.exchanges (client s') !! t = Some k ∧
  (to_client s' = [] → ∀ n, star (step ec ed sid ok) s' (replicate n Eof) s').
Proof.
  assert (begun (ls ++ ls') = begun ls + begun ls') as E by (unfold begun; by rewrite filter_app, length_app).
  destruct (sim_reachable _ _ _ _ _ _ _ H ltac:(lia)) as (als & a & _ & _ & Hs).
  assert (starved ec ed (Z.of_nat (begun ls)) t k s) as Hst.
  { split; [done|]. split; [done|]. split; [by exists p|]. eexists _, _, a. split; [exact Hs|].
    intros w Hin. rewrite Forall_forall in Hw. by apply Hw. }
  destruct (starved_star _ _ _ _ _ _ _ _ _ _ H' Hst ltac:(lia) ltac:(lia)) as (Hno & Hx' & Ht' & _ & reqs & reps & a' & Hs' & _).
  split; [done|]. split; [done|]. destruct (sim_loops _ _ _ _ _ _ _ Hs') as [Hrc _].
  destruct s' as [c i o d1 x rc rd]. cbn [closed to_client receiving] in *. intros ->. subst x rc.
  intros n. induction n as [|n IH]; [constructor|]. econstructor; [|exact IH].
  eapply sys_eof; [by rewrite asyncReceive_receive|done].
Qed.

Lemma system_hangs_after_close_witness :
  star (step Little Big 1 Demo.all_ok) SystemDemo.dropped (replicate 3 Eof) SystemDemo.dropped.
Proof.
  refine (proj2 (proj2 (system_hangs_after_close Little Big 1 Demo.all_ok Demo.state _ [] _ SystemDemo.dropped 5 0
    (Session.mkPromise true None) SystemDemo.drops _ _ _ _ _ _ _)) _ 3); try reflexivity.
  - constructor.
  - apply star_nil.
  - vm_compute. discriminate.
Defined.
