(* ===== verification/Lifecycle.v ===== *)
(** * Objects and threads of the API connections

    Module [ServerObjects]: which session owns which socket in the daemon
    ([daemon/api/UnixAPIServer.cpp], [APIServer.cpp], [APIManager.cpp],
    [common/api/UnixAPISocket.cpp]), from accepting to the destructors.  Module
    [SessionThread]: the thread of the client's session that runs its io service
    ([library/P2PSession.cpp]), with the connection it reads from. *)

From S2P Require Import Prelude StdMap Common Base58 Crypto Config NodeManager APISocket APISession Client.
From Stdlib Require Import ZArith Lia.

(** ** The daemon's objects *)

Module ServerObjects.

(** A stream socket is open only once a connection was accepted on it. *)
Inductive sock := Unopened | Connected.

(** [basic_socket::shutdown]: the error it throws, if any; a socket that is not
    open has no descriptor. *)
Class StreamSocket := {
  shutdown : sock → option Z;
  shutdown_connected : shutdown Connected = None;
  shutdown_unopened : is_Some (shutdown Unopened);
}.

Section Objects.
Context {SS : StreamSocket}.

(** Heaps of sockets and of sessions with their [m_unix_socket], the server's
    set, and the socket of the outstanding accept. *)
Record UnixAPIServer := mkServer {
  sockets : gmap Z sock;
  unix_sessions : gmap Z Z;
  api_sessions : gset Z;
  accepting : option Z;
  next_ptr : Z;
  next_session_ptr : Z;
}.

(** [~UnixAPISocket]: the overload of [shutdown] throws, and a destructor that
    throws terminates. *)
Definition UnixAPISocket_delete (p : Z) (s : UnixAPIServer) : outcome UnixAPIServer :=
  match sockets s !! p with
  | None => Undef use_after_free
  | Some k =>
      match shutdown k with
      | Some _ => Terminate
      | None => Ret (mkServer (delete p (sockets s)) (unix_sessions s) (api_sessions s) (accepting s) (next_ptr s) (next_session_ptr s))
      end
  end.
Definition UnixAPISession_delete (sid : Z) (s : UnixAPIServer) : outcome UnixAPIServer :=
  match unix_sessions s !! sid with
  | None => Undef use_after_free
  | Some p =>
      s' ← UnixAPISocket_delete p s;
      Ret (mkServer (sockets s') (delete sid (unix_sessions s')) (api_sessions s') (accepting s') (next_ptr s') (next_session_ptr s'))
  end.

Definition erase_session (sid : Z) (s : UnixAPIServer) : UnixAPIServer :=
  mkServer (sockets s) (unix_sessions s) (api_sessions s ∖ {[sid]}) (accepting s) (next_ptr s) (next_session_ptr s).
Definition dropSession (sid : Z) (s : UnixAPIServer) : outcome UnixAPIServer :=
  UnixAPISession_delete sid (erase_session sid s).

(** [UnixAPIServer::accept]: a new socket for the next client. *)
Definition accept (s : UnixAPIServer) : UnixAPIServer :=
  mkServer (<[next_ptr s := Unopened]> (sockets s)) (unix_sessions s) (api_sessions s) (Some (next_ptr s)) (next_ptr s + 1) (next_session_ptr s).
Definition UnixAPIServer_new : UnixAPIServer := accept (mkServer ∅ ∅ ∅ None 1 1).

(** [new UnixAPISession]. *)
Definition UnixAPISession_new (p : Z) (s : UnixAPIServer) : Z * UnixAPIServer :=
  (next_session_ptr s,
   mkServer (sockets s) (<[next_session_ptr s := p]> (unix_sessions s)) (api_sessions s) (accepting s) (next_ptr s)
     (next_session_ptr s + 1)).

(** [handleAccept]; the handler does not receive the error of the accept. *)
Definition handleAccept (error : option Z) (s : UnixAPIServer) : outcome UnixAPIServer :=
  match accepting s with
  | None => Ret s
  | Some p =>
      let opened := if decide (error = None) then <[p := Connected]> (sockets s) else sockets s in
      let '(sid, s1) := UnixAPISession_new p (mkServer opened (unix_sessions s) (api_sessions s) None (next_ptr s) (next_session_ptr s)) in
      Ret (accept (mkServer (sockets s1) (unix_sessions s1) ({[sid]} ∪ api_sessions s1) (accepting s1) (next_ptr s1) (next_session_ptr s1)))
  end.

(** [~APIServer] deletes the sessions; [~UnixAPIServer] has nothing to add, and
    the socket of the outstanding accept is not deleted. *)
Definition APIServer_delete (s : UnixAPIServer) : outcome UnixAPIServer :=
  foldM (λ s sid, UnixAPISession_delete sid s) s (elements (api_sessions s)).
(** [~APIManager], with the heaps of the servers it deletes. *)
Definition APIManager_delete (server_list : list UnixAPIServer) : outcome (list UnixAPIServer) :=
  foldM (λ done s, s' ← APIServer_delete s; Ret (done ++ [s'])) [] server_list.

Inductive event := Accept (error : option Z) | Drop (sid : Z).
Definition handle (s : UnixAPIServer) (e : event) : outcome UnixAPIServer :=
  match e with Accept error => handleAccept error s | Drop sid => dropSession sid s end.

(** *** Ownership *)

(** Every session owns a socket of its own, open unless the session is one of
    [bad], and besides those only the socket of the outstanding accept exists. *)
Record owned (s : UnixAPIServer) (bad : gset Z) : Prop := {
  own_sock : ∀ sid p, unix_sessions s !! sid = Some p →
    sockets s !! p = Some (if decide (sid ∈ bad) then Unopened else Connected) ∧ accepting s ≠ Some p;
  own_inj : ∀ sid sid' p, unix_sessions s !! sid = Some p → unix_sessions s !! sid' = Some p → sid = sid';
  own_accept : ∃ q, accepting s = Some q ∧ sockets s !! q = Some Unopened;
  own_all : ∀ p, is_Some (sockets s !! p) → accepting s = Some p ∨ ∃ sid, unix_sessions s !! sid = Some p;
  own_fresh : ∀ p, is_Some (sockets s !! p) → (p < next_ptr s)%Z;
  own_fresh_session : ∀ sid, is_Some (unix_sessions s !! sid) → (sid < next_session_ptr s)%Z;
}.

(** The set holds the sessions. *)
Definition tracked (s : UnixAPIServer) : Prop := ∀ sid, sid ∈ api_sessions s ↔ is_Some (unix_sessions s !! sid).

Lemma tracked_new : tracked UnixAPIServer_new.
Proof. intros sid. simpl. rewrite lookup_empty. split; [set_solver|by intros [? ?]]. Qed.
Lemma owned_new : owned UnixAPIServer_new ∅.
Proof.
  constructor; simpl.
  - intros sid p. by rewrite lookup_empty.
  - intros sid sid' p. by rewrite lookup_empty.
  - exists 1%Z. split; [done|]. by rewrite insert_empty, lookup_singleton_eq.
  - intros p. rewrite insert_empty, lookup_singleton. case_decide; [subst; by left|]. by intros [? ?].
  - intros p. rewrite insert_empty, lookup_singleton. case_decide; [subst; lia|]. by intros [? ?].
  - intros sid. rewrite lookup_empty. by intros [? ?].
Qed.

(** The session an accept makes; after an error its socket is not open. *)
Definition new_session (s : UnixAPIServer) : Z := next_session_ptr s.

Lemma owned_accept s bad error : owned s bad → tracked s →
  ∃ s', handleAccept error s = Ret s' ∧ new_session s ∈ api_sessions s' ∧ tracked s' ∧
    owned s' (if decide (error = None) then bad ∖ {[new_session s]} else {[new_session s]} ∪ bad).
Proof.
  intros [Hsock Hinj (q & Hq & Hqs) Hall Hfresh Hfresh'] Hset. unfold handleAccept. rewrite Hq. eexists. split; [reflexivity|].
  assert (∀ sid p, unix_sessions s !! sid = Some p → (sid < next_session_ptr s)%Z) as Hs by (intros; apply Hfresh'; eauto).
  assert (∀ p k, sockets s !! p = Some k → (p < next_ptr s)%Z) as Hp by (intros; apply Hfresh; eauto).
  assert (q < next_ptr s)%Z as Hqlt by eauto.
  set (sock' := if decide (error = None) then <[q := Connected]> (sockets s) else sockets s).
  assert (∀ p, p ≠ q → sock' !! p = sockets s !! p) as Hother
    by (intros p Hne; unfold sock'; case_decide; [by rewrite lookup_insert_ne|done]).
  assert (sock' !! q = Some (if decide (error = None) then Connected else Unopened)) as Hnew
    by (unfold sock'; case_decide; [by rewrite lookup_insert_eq|done]).
  unfold new_session. split; [simpl; apply elem_of_union_l, elem_of_singleton; done|]. split.
  { intros sid. simpl. rewrite elem_of_union, elem_of_singleton, (Hset sid), lookup_insert_is_Some.
    destruct (decide (sid = next_session_ptr s)); naive_solver. }
  constructor; simpl; fold sock'.
  - intros sid p. rewrite lookup_insert_Some. intros [[<- <-]|[Hne Hsid]].
    + split; [|intros [= E]; lia]. rewrite lookup_insert_ne by lia. rewrite Hnew. f_equal.
      clear. destruct (decide (error = None)); [rewrite decide_False by set_solver|rewrite decide_True by set_solver]; done.
    + destruct (Hsock _ _ Hsid) as [Hk Hacc]. apply Hp in Hk as Hlt.
      split; [|intros [= E]; lia]. rewrite lookup_insert_ne by lia. rewrite Hother by congruence. rewrite Hk. f_equal.
      assert (sid ∈ bad ↔ sid ∈ (if decide (error = None) then bad ∖ {[next_session_ptr s]} else {[next_session_ptr s]} ∪ bad)) as Hbad
        by (clear -Hne; case_decide; set_solver).
      by rewrite (decide_ext _ _ _ _ Hbad).
  - intros sid sid' p. rewrite !lookup_insert_Some. intros [[<- <-]|[Hne H1]] [[<- E]|[Hne' H2]]; try done.
    + destruct (Hsock _ _ H2). congruence.
    + subst. destruct (Hsock _ _ H1). congruence.
    + eauto.
  - eexists. split; [done|]. apply lookup_insert_eq.
  - intros p. rewrite lookup_insert_is_Some. intros [<-|[Hne Hk]]; [by left|]. right.
    destruct (decide (p = q)) as [->|Hpq]; [exists (next_session_ptr s); apply lookup_insert_eq|].
    rewrite Hother in Hk by done. destruct (Hall _ Hk) as [E|[sid Hsid]]; [congruence|].
    exists sid. rewrite lookup_insert_ne; [done|]. apply Hs in Hsid. lia.
  - intros p. rewrite lookup_insert_is_Some. intros [<-|[_ Hk]]; [lia|].
    destruct (decide (p = q)) as [->|Hpq]; [lia|]. rewrite Hother in Hk by done. specialize (Hfresh p Hk). lia.
  - intros sid. rewrite lookup_insert_is_Some. intros [<-|[_ Hk]]; [lia|]. specialize (Hfresh' sid Hk). lia.
Qed.

Lemma owned_session_delete s bad sid p : owned s bad → unix_sessions s !! sid = Some p → sid ∉ bad →
  ∃ s', UnixAPISession_delete sid s = Ret s' ∧ owned s' bad ∧ unix_sessions s' = delete sid (unix_sessions s) ∧
    api_sessions s' = api_sessions s ∧ accepting s' = accepting s.
Proof.
  intros [Hsock Hinj (q & Hq & Hqs) Hall Hfresh Hfresh'] Hsid Hbad. destruct (Hsock _ _ Hsid) as [Hp Hacc].
  rewrite decide_False in Hp by done. unfold UnixAPISession_delete, UnixAPISocket_delete.
  rewrite Hsid, Hp, shutdown_connected. eexists. split; [reflexivity|]. split; [|done]. constructor; simpl.
  - intros sid' p'. rewrite lookup_delete_Some. intros [Hne H]. destruct (Hsock _ _ H) as [H1 H2]. split; [|done].
    rewrite lookup_delete_ne; [done|]. intros <-. by apply Hne, (Hinj sid sid' p).
  - intros sid' sid'' p'. rewrite !lookup_delete_Some. intros [_ ?] [_ ?]. eauto.
  - exists q. split; [done|]. rewrite lookup_delete_ne; [done|congruence].
  - intros p' [k [Hne H]%lookup_delete_Some]. destruct (Hall p') as [?|[sid' H']]; [eauto|by left|]. right. exists sid'.
    rewrite lookup_delete_ne; [done|]. intros <-. congruence.
  - intros p' [k [_ H]%lookup_delete_Some]. apply Hfresh; eauto.
  - intros sid' [k [_ H]%lookup_delete_Some]. apply Hfresh'; eauto.
Qed.

Lemma owned_drop s bad sid : owned s bad → tracked s → sid ∈ api_sessions s → sid ∉ bad →
  ∃ s', dropSession sid s = Ret s' ∧ owned s' bad ∧ tracked s' ∧ api_sessions s' = api_sessions s ∖ {[sid]}.
Proof.
  intros Ho Ht Hsid Hbad. destruct (proj1 (Ht sid) Hsid) as [p Hp].
  assert (owned (erase_session sid s) bad) as Ho' by (by destruct Ho).
  destruct (owned_session_delete _ _ _ _ Ho' Hp Hbad) as (s' & H & Hs' & Hu & Ha & _).
  exists s'. split; [done|]. split; [done|]. split; [|done]. intros sid'. rewrite Ha, Hu. simpl.
  rewrite elem_of_difference, elem_of_singleton, (Ht sid'), lookup_delete_is_Some. naive_solver.
Qed.

(** A session whose socket was never opened cannot be deleted. *)
Lemma drop_unopened s bad sid : owned s bad → tracked s → sid ∈ api_sessions s → sid ∈ bad →
  dropSession sid s = Terminate.
Proof.
  intros Ho Ht Hsid Hbad. destruct (proj1 (Ht sid) Hsid) as [p Hp]. destruct (own_sock _ _ Ho _ _ Hp) as [Hk _].
  rewrite decide_True in Hk by done. unfold dropSession, UnixAPISession_delete, UnixAPISocket_delete. simpl.
  rewrite Hp, Hk. by destruct shutdown_unopened as [e ->].
Qed.

Lemma delete_sessions s l : owned s ∅ → NoDup l → (∀ sid, sid ∈ l → is_Some (unix_sessions s !! sid)) →
  ∃ s', foldM (λ s sid, UnixAPISession_delete sid s) s l = Ret s' ∧ owned s' ∅ ∧ accepting s' = accepting s ∧
    ∀ sid, unix_sessions s' !! sid = if decide (sid ∈ l) then None else unix_sessions s !! sid.
Proof.
  intros Ho Hnd. revert s Ho. induction Hnd as [|sid l Hnew _ IH]; intros s Ho Hl.
  { exists s. do 3 (split; [done|]). intros sid. by rewrite decide_False by (by apply not_elem_of_nil). }
  destruct (Hl sid) as [p Hp]; [set_solver|].
  destruct (owned_session_delete s ∅ sid p Ho Hp ltac:(set_solver)) as (s1 & H1 & Ho1 & Hu1 & _ & Ha1).
  destruct (IH s1 Ho1) as (s' & H' & Ho' & Ha' & Hu').
  { intros sid' Hin. rewrite Hu1, lookup_delete_ne by (intros <-; done). apply Hl. set_solver. }
  exists s'. cbn [foldM]. rewrite H1. split; [done|]. split; [done|]. split; [congruence|].
  intros sid'. rewrite Hu', Hu1. destruct (decide (sid' = sid)) as [->|Hne].
  - rewrite (decide_True (P := sid ∈ sid :: l)) by set_solver. rewrite lookup_delete_eq. by case_decide.
  - rewrite lookup_delete_ne by done. apply decide_ext. set_solver.
Qed.

(** No accept of the run failed. *)
Definition all_accepted (evs : list event) : Prop := Forall (λ e, match e with Accept error => error = None | Drop _ => True end) evs.

Lemma owned_run s evs s' : owned s ∅ → tracked s → all_accepted evs → foldM handle s evs = Ret s' →
  owned s' ∅ ∧ tracked s'.
Proof.
  intros Ho Ht Hall. revert s Ho Ht. induction Hall as [|e evs He _ IH]; intros s Ho Ht H; [by injection H as <-|].
  cbn [foldM] in H. apply bind_Ret in H as (s1 & H1 & H). destruct e as [error|sid]; cbn [handle] in H1.
  - subst error. destruct (owned_accept s ∅ None Ho Ht) as (s2 & H2 & _ & Ht2 & Ho2). rewrite H1 in H2. injection H2 as <-.
    rewrite decide_True in Ho2 by done. replace (∅ ∖ {[new_session s]} : gset Z) with (∅ : gset Z) in Ho2 by set_solver. eauto.
  - unfold dropSession, UnixAPISession_delete in H1. simpl in H1. destruct (unix_sessions s !! sid) as [p|] eqn:Hp; [|done].
    destruct (owned_drop s ∅ sid Ho Ht) as (s2 & H2 & Ho2 & Ht2 & _); [apply Ht; by eauto|set_solver|].
    unfold dropSession, UnixAPISession_delete in H2. simpl in H2. rewrite Hp in H2. rewrite H1 in H2. injection H2 as <-. eauto.
Qed.
End Objects.
End ServerObjects.

(** ** The client's thread *)

Module SessionThread.
Import UnixDaemon.

(** [m_io_service_work], the outstanding receives on live sockets and on deleted
    ones (which complete with [operation_aborted]), the outstanding sends, and
    whether [socket_thread] is still inside [io_service::run]. *)
Record Client := mkClient {
  conn : P2PUnixDaemon;
  work : bool;
  receives : nat;
  aborted : nat;
  sends : nat;
  running : bool;
}.

(** [P2PSession::P2PSession]: the work keeps the new thread in [run]. *)
Definition P2PSession_start : Client := mkClient P2PUnixDaemon_new true 0 0 0 true.
(** [P2PSession::receiveLoop]: a receive is started and the work released. *)
Definition receiveLoop (c : Client) : Client :=
  mkClient (conn c) false (S (receives c)) (aborted c) (sends c) (running c).
Definition set_conn (d : P2PUnixDaemon) (c : Client) : Client :=
  mkClient d (work c) (receives c) (aborted c) (sends c) (running c).
(** [P2PSession::~P2PSession]: the work is released, the service stopped and
    the thread joined. *)
Definition P2PSession_delete (c : Client) : Client :=
  mkClient (conn c) false (receives c) (aborted c) (sends c) false.
(** [io_service::run] returns when nothing is left to wait for. *)
Definition out_of_work (c : Client) : bool :=
  negb (work c) && bool_decide (receives c = 0) && bool_decide (aborted c = 0) && bool_decide (sends c = 0).

Inductive label := Connect | Disconnect | Send | SendDone | Received | Aborted | Exit.

Inductive step : Client → label → Client → Prop :=
| st_connect c open paths d : connect open paths = Ret d → step c Connect (receiveLoop (set_conn d c))
| st_disconnect c d :
    m_socket (conn c) = Live → disconnect (conn c) = Ret d →
    step c Disconnect (mkClient d (work c) (receives c - 1) (S (aborted c)) (sends c) (running c))
| st_send c : on_socket (conn c) tt = Ret tt → step c Send (mkClient (conn c) (work c) (receives c) (aborted c) (S (sends c)) (running c))
| st_send_done c n : running c = true → sends c = S n → step c SendDone (mkClient (conn c) (work c) (receives c) (aborted c) n (running c))
| st_received c : running c = true → 0 < receives c → step c Received c
| st_aborted c n : running c = true → aborted c = S n → step c Aborted (mkClient (conn c) (work c) (receives c) n (sends c) (running c))
| st_exit c : running c = true → out_of_work c = true → step c Exit (mkClient (conn c) (work c) (receives c) (aborted c) (sends c) false).

(** A connected socket has its receive outstanding. *)
Definition reading (c : Client) : Prop := m_socket (conn c) = Live → 0 < receives c.

Lemma reading_step c l c' : reading c → step c l c' → reading c'.
Proof.
  intros H Hstep. unfold reading in *. destruct Hstep as [c open paths d Hc|c d Hl Hd| | | | |]; simpl; try done; [lia|].
  unfold disconnect in Hd. rewrite Hl in Hd. by injection Hd as <-.
Qed.
Lemma reading_star c ls c' : reading c → star step c ls c' → reading c'.
Proof. intros Hc H. eapply star_invariant; [|exact Hc|exact H]. intros. by eapply reading_step. Qed.

Lemma stopped_step c l c' : running c = false → step c l c' →
  running c' = false ∧ l ≠ Received ∧ l ≠ SendDone ∧ l ≠ Aborted.
Proof. intros Hr Hstep. destruct Hstep; simpl; try congruence; done. Qed.
Lemma stopped_star c ls c' : running c = false → star step c ls c' →
  running c' = false ∧ Received ∉ ls ∧ SendDone ∉ ls ∧ Aborted ∉ ls.
Proof.
  intros Hr Hstar. revert Hr. induction Hstar as [c|c1 c2 c3 l ls Hstep _ IH]; intros Hr.
  { split; [done|]. set_solver. }
  destruct (stopped_step _ _ _ Hr Hstep) as (Hr2 & ? & ? & ?). destruct (IH Hr2) as (? & ? & ? & ?).
  split; [done|]. set_solver.
Qed.
End SessionThread.

(** ** Concrete runs *)

Module LifecycleDemo.
#[global] Program Instance linux : ServerObjects.StreamSocket := {|
  ServerObjects.shutdown k := match k with ServerObjects.Unopened => Some 9%Z | ServerObjects.Connected => None end |}.
Next Obligation. done. Qed.
Next Obligation. by eexists. Qed.

Definition evs : list ServerObjects.event := [ServerObjects.Accept None; ServerObjects.Accept None; ServerObjects.Drop 1].
Definition served : ServerObjects.UnixAPIServer :=
  match foldM ServerObjects.handle ServerObjects.UnixAPIServer_new evs with Ret s => s | _ => ServerObjects.UnixAPIServer_new end.
Lemma objects_served : foldM ServerObjects.handle ServerObjects.UnixAPIServer_new evs = Ret served.
Proof. vm_compute. reflexivity. Qed.

(** Connected, disconnected, the thread gone, and connected again. *)
Import SessionThread.
Definition path : string := "/var/run/p2pnet/unix_api.sock".
Definition gone : Client := mkClient (UnixDaemon.mkP2PUnixDaemon path UnixDaemon.Deleted false) false 0 0 0 false.
Definition again : Client := mkClient (UnixDaemon.mkP2PUnixDaemon path UnixDaemon.Live true) false 1 0 0 false.
Lemma goes : star step P2PSession_start [Connect; Disconnect; Aborted; Exit] gone.
Proof.
  eapply star_cons; [apply (st_connect _ (λ _, None) [path]); reflexivity|].
  eapply star_cons; [eapply st_disconnect; reflexivity|].
  eapply star_cons; [eapply st_aborted; reflexivity|].
  apply star_one. apply st_exit; reflexivity.
Qed.
Lemma returns_again : star step gone [Connect] again.
Proof. apply star_one, (st_connect gone (λ _, None) [path]). reflexivity. Qed.
End LifecycleDemo.

(** ** Properties *)

(** C18 The daemon's API objects: in every run in which accepts succeed, each
    session owns an open socket of its own; dropping a session that exists
    returns and deletes exactly it; and the server's destructor deletes every
    session with its socket, leaving only the socket of the outstanding accept,
    which nothing deletes.  After an accept that failed, the session made for it
    terminates the daemon when it is dropped. *)
Theorem server_object_lifetimes {SS : ServerObjects.StreamSocket} (evs : list ServerObjects.event)
    (s : ServerObjects.UnixAPIServer)
    (Hevs : ServerObjects.all_accepted evs) (H : foldM ServerObjects.handle ServerObjects.UnixAPIServer_new evs = Ret s) :
  (∀ sid p, ServerObjects.unix_sessions s !! sid = Some p → ServerObjects.sockets s !! p = Some ServerObjects.Connected ∧
     ∀ sid', ServerObjects.unix_sessions s !! sid' = Some p → sid' = sid) ∧
  (∀ sid, sid ∈ ServerObjects.api_sessions s → ∃ s', ServerObjects.dropSession sid s = Ret s' ∧
     ServerObjects.api_sessions s' = ServerObjects.api_sessions s ∖ {[sid]}) ∧
  (∃ s' q, ServerObjects.APIServer_delete s = Ret s' ∧ ServerObjects.unix_sessions s' = ∅ ∧
     ServerObjects.accepting s = Some q ∧ ServerObjects.sockets s' = {[q := ServerObjects.Unopened]}) ∧
  (∀ code, ∃ s', ServerObjects.handleAccept (Some code) s = Ret s' ∧
     ServerObjects.new_session s ∈ ServerObjects.api_sessions s' ∧
     ServerObjects.dropSession (ServerObjects.new_session s) s' = Terminate).
Proof.
  destruct (ServerObjects.owned_run _ _ _ ServerObjects.owned_new ServerObjects.tracked_new Hevs H) as [Ho Ht].
  split; [|split; [|split]].
  - intros sid p Hp. destruct (ServerObjects.own_sock _ _ Ho _ _ Hp) as [Hk _]. rewrite decide_False in Hk by set_solver.
    split; [done|]. intros sid' Hp'. by eapply (ServerObjects.own_inj _ _ Ho).
  - intros sid Hsid. destruct (ServerObjects.owned_drop _ _ _ Ho Ht Hsid ltac:(set_solver)) as (s' & H' & _ & _ & Ha). eauto.
  - destruct (ServerObjects.delete_sessions s (elements (ServerObjects.api_sessions s)) Ho) as (s' & H' & Ho' & Ha & Hu).
    { apply NoDup_elements. }
    { intros sid Hsid%elem_of_elements. by apply Ht. }
    assert (ServerObjects.unix_sessions s' = ∅) as Hempty.
    { apply map_eq. intros sid. rewrite Hu, lookup_empty. case_decide as Hd; [done|].
      rewrite elem_of_elements, (Ht sid) in Hd. by apply eq_None_not_Some. }
    destruct (ServerObjects.own_accept _ _ Ho') as (q & Hq & Hk).
    exists s', q. split; [exact H'|]. split; [done|]. split; [congruence|]. apply map_eq. intros p.
    rewrite lookup_singleton. case_decide as Hd; [by subst|]. apply eq_None_not_Some. intros Hs.
    destruct (ServerObjects.own_all _ _ Ho' p Hs) as [?|[sid Hsid]]; [congruence|]. by rewrite Hempty, lookup_empty in Hsid.
  - intros code. destruct (ServerObjects.owned_accept s ∅ (Some code) Ho Ht) as (s' & H' & Hin & Ht' & Ho').
    rewrite decide_False in Ho' by done. exists s'. split; [done|]. split; [done|].
    eapply ServerObjects.drop_unopened; [exact Ho'|done|done|set_solver].
Qed.

Lemma server_object_lifetimes_witness :
  ∃ s' q, ServerObjects.APIServer_delete LifecycleDemo.served = Ret s' ∧ ServerObjects.sockets s' = {[q := ServerObjects.Unopened]}.
Proof.
  destruct (server_object_lifetimes LifecycleDemo.evs LifecycleDemo.served) as (_ & _ & (s' & q & H1 & _ & _ & H2) & _).
  - repeat constructor.
  - exact LifecycleDemo.objects_served.
  - exists s', q. split; [exact H1|exact H2].
Defined.

(** The client's thread: while the daemon is connected the thread that
    receives replies cannot end and a receive is outstanding; but once a
    disconnected session's thread has ended it never runs again, so that a
    connection made later, which succeeds, never receives anything. *)
Theorem reconnect_never_receives (ls ls' : list SessionThread.label) (c c' : SessionThread.Client)
    (H : star SessionThread.step SessionThread.P2PSession_start ls c) (H' : star SessionThread.step c ls' c') :
  (UnixDaemon.m_socket (SessionThread.conn c) = UnixDaemon.Live → SessionThread.running c = true →
     SessionThread.step c SessionThread.Received c ∧ ∀ c2, ¬ SessionThread.step c SessionThread.Exit c2) ∧
  (SessionThread.running c = false →
     SessionThread.running c' = false ∧ SessionThread.Received ∉ ls' ∧ SessionThread.SendDone ∉ ls').
Proof.
  assert (SessionThread.reading c) as Hr by (eapply SessionThread.reading_star; [|exact H]; done).
  split.
  - intros Hl Hrun. specialize (Hr Hl). split; [by apply SessionThread.st_received|]. intros c2 Hx.
    inversion Hx as [| | | | | |? _ Hw]; subst. unfold SessionThread.out_of_work in Hw.
    rewrite bool_decide_false, andb_false_r in Hw by lia. done.
  - intros Hrun. destruct (SessionThread.stopped_star _ _ _ Hrun H') as (? & ? & ? & _). done.
Qed.

Lemma reconnect_never_receives_witness : SessionThread.Received ∉ [SessionThread.Connect].
Proof.
  exact (proj1 (proj2 (proj2 (reconnect_never_receives _ _ _ _ LifecycleDemo.goes LifecycleDemo.returns_again) eq_refl))).
Defined.

(** A connected daemon that was disconnected: disconnecting again, destroying
    it, sending or receiving uses the deleted socket, directly and through
    [P2PAutoDaemon]; connecting again makes it usable. *)
Theorem disconnect_then_delete (open : string → option Z) (paths : list string) (d d' : UnixDaemon.P2PUnixDaemon)
    (Hc : UnixDaemon.connect open paths = Ret d) (Hd : UnixDaemon.disconnect d = Ret d') :
  UnixDaemon.P2PUnixDaemon_delete d = Ret tt ∧
  UnixDaemon.disconnect d' = Undef use_after_free ∧ UnixDaemon.P2PUnixDaemon_delete d' = Undef use_after_free ∧
  UnixDaemon.auto_delete (UnixDaemon.mkP2PAutoDaemon d') = Undef use_after_free ∧
  UnixDaemon.on_socket d' tt = Undef use_after_free ∧
  UnixDaemon.on_socket d tt = Ret tt.
Proof.
  assert (UnixDaemon.m_socket d = UnixDaemon.Live) as Hl.
  { unfold UnixDaemon.connect in Hc. apply bind_Ret in Hc as ([p|] & _ & [= <-]); done. }
  unfold UnixDaemon.P2PUnixDaemon_delete, UnixDaemon.auto_delete, UnixDaemon.on_socket. rewrite Hd, Hl.
  unfold UnixDaemon.disconnect in Hd. rewrite Hl in Hd. injection Hd as <-. done.
Qed.
