(* ===== verification/ServerRun.v ===== *)
(** * The API server as the io service runs it

    [APISession.v] has what the sessions know, [Lifecycle.v] which objects they
    own.  Here both run together with the outstanding receives: the io service
    completes an accept or a receive and calls the handler that was bound to it
    ([daemon/api/UnixAPIServer.cpp]), which holds a raw pointer to its session. *)

From S2P Require Import Prelude StdMap Common Crypto Config NodeManager APISocket APISession APINodes Client Lifecycle.
Import HashM KeyM.
From Stdlib Require Import ZArith Lia.

Section ServerRun.
Context {EC : ECDSA} {DG : Digest} {SS : ServerObjects.StreamSocket}.

(** [receives]: the sessions in the handlers of the outstanding [asyncReceive]s. *)
Record Server := mkRun {
  data : Daemon;
  objects : ServerObjects.UnixAPIServer;
  receives : list Z;
}.
Definition Server_new : Server := mkRun Daemon_new ServerObjects.UnixAPIServer_new [].

Inductive completion :=
| AcceptDone (error : option Z)
| ReceiveDone (ok : Z → APIMessage → bool) (sid : Z) (m : APIMessage) (err : condition).

Definition receiving (es : list effect) : list Z :=
  omap (λ e, match e with Receiving sid => Some sid | Written _ _ => None end) es.
(** The first outstanding receive of a session is taken from the list. *)
Fixpoint complete (sid : Z) (l : list Z) : list Z :=
  match l with [] => [] | x :: l => if decide (x = sid) then l else x :: complete sid l end.

(** [UnixAPIServer::handleAccept] and [handleReceive] on data and objects. *)
Definition run_handler (e : completion) (s : Server) : outcome Server :=
  match e with
  | AcceptDone error =>
      o ← ServerObjects.handleAccept error (objects s);
      '(_, d, es) ← serve Accepted (data s);
      Ret (mkRun d o (receives s ++ receiving es))
  | ReceiveDone ok sid m err =>
      '(_, d, es) ← serve (Arrived ok sid m err) (data s);
      o ← match err with Some _ => ServerObjects.dropSession sid (objects s) | None => Ret (objects s) end;
      Ret (mkRun d o (complete sid (receives s) ++ receiving es))
  end.

(** A receive completes once and only if it is outstanding, and with an error
    if the socket was never opened. *)
Definition enabled (e : completion) (s : Server) : Prop :=
  match e with
  | AcceptDone _ => is_Some (ServerObjects.accepting (objects s))
  | ReceiveDone _ sid _ err => sid ∈ receives s ∧
      (err = None → ∃ p, ServerObjects.unix_sessions (objects s) !! sid = Some p ∧
         ServerObjects.sockets (objects s) !! p = Some ServerObjects.Connected)
  end.

Inductive step : Server → completion → Server → Prop :=
| run_completion s e s' : enabled e s → run_handler e s = Ret s' → step s e s'.

Definition accepted (e : completion) : Prop := match e with AcceptDone error => error = None | _ => True end.

(** ** The invariant *)

(** Data and objects have the same sessions, each with an open socket of its own
    and one outstanding receive. *)
Record served (s : Server) : Prop := {
  sv_linked : linked (data s);
  sv_owned : ServerObjects.owned (objects s) ∅;
  sv_tracked : ServerObjects.tracked (objects s);
  sv_next : next_session (data s) = ServerObjects.next_session_ptr (objects s);
  sv_same : dom (sessions (data s)) = ServerObjects.api_sessions (objects s);
  sv_nodup : NoDup (receives s);
  sv_receives : ∀ sid, sid ∈ receives s ↔ sid ∈ dom (sessions (data s));
}.

Lemma served_new : served Server_new.
Proof.
  constructor; cbn [Server_new data objects receives].
  - apply linked_new.
  - apply ServerObjects.owned_new.
  - apply ServerObjects.tracked_new.
  - done.
  - cbn [Daemon_new sessions]. rewrite dom_empty_L. done.
  - constructor.
  - intros sid. cbn [Daemon_new sessions]. rewrite dom_empty_L. set_solver.
Qed.

Lemma complete_elem sid l x : NoDup l → x ∈ complete sid l ↔ x ∈ l ∧ x ≠ sid.
Proof.
  induction 1 as [|y l Hy _ IH]; cbn [complete]; [set_solver|]. case_decide as Hd; [subst|].
  - split; [intros Hx; split; [set_solver|congruence]|]. intros [Hx Hne]. set_solver.
  - rewrite !elem_of_cons, IH. naive_solver.
Qed.
Lemma complete_NoDup sid l : NoDup l → NoDup (complete sid l).
Proof.
  induction 1 as [|y l Hy Hl IH]; cbn [complete]; [constructor|]. case_decide; [done|]. constructor; [|done].
  rewrite complete_elem by done. naive_solver.
Qed.

(** *** Each completion *)

Lemma served_accept s : served s →
  ∃ s', run_handler (AcceptDone None) s = Ret s' ∧ served s' ∧
    receives s' = receives s ++ [next_session (data s)] ∧ next_session (data s) ∉ receives s.
Proof.
  intros [Hl Ho Ht Hn Hsame Hnd Hr]. destruct (ServerObjects.owned_accept _ _ None Ho Ht) as (o & Hacc & _ & Ht' & Ho').
  rewrite decide_True in Ho' by done. replace (∅ ∖ {[ServerObjects.new_session (objects s)]} : gset Z) with (∅ : gset Z) in Ho' by set_solver.
  cbn [run_handler]. rewrite Hacc, serve_accept. cbn [mbind outcome_bind]. eexists. split; [reflexivity|].
  cbn [receiving omap list_omap receives].
  assert (next_session (data s) ∉ receives s) as Hfresh.
  { rewrite Hr. intros Hin%elem_of_dom. apply (lk_session _ Hl) in Hin. lia. }
  split; [|done]. unfold ServerObjects.handleAccept in Hacc.
  destruct (ServerObjects.own_accept _ _ Ho) as (q & Hq & _). rewrite Hq in Hacc. injection Hacc as <-.
  constructor; cbn [data objects receives]; [by apply linked_accept|done|done|..].
  - cbn. by rewrite Hn.
  - cbn [sessions]. rewrite dom_insert_L, Hsame, Hn. done.
  - apply NoDup_app. split; [done|]. split; [|apply NoDup_singleton]. intros sid Hin ->%list_elem_of_singleton. done.
  - intros sid. cbn [sessions]. rewrite dom_insert_L, elem_of_app, list_elem_of_singleton, Hr. set_solver.
Qed.

Lemma served_disconnect s ok sid m code : served s → sid ∈ receives s →
  ∃ s', run_handler (ReceiveDone ok sid m (Some code)) s = Ret s' ∧ served s' ∧ receives s' = complete sid (receives s) ∧
    manager (data s') = manager (data s).
Proof.
  intros [Hl Ho Ht Hn Hsame Hnd Hr] Hin. pose proof Hin as Hin'. rewrite Hr in Hin'. pose proof Hin' as Hin2.
  apply elem_of_dom in Hin' as [x Hx]. rewrite Hsame in Hin2.
  destruct (ServerObjects.owned_drop _ _ _ Ho Ht Hin2 ltac:(set_solver)) as (o & Hd & Ho' & Ht' & Ha).
  cbn [run_handler]. rewrite (serve_drop ok sid m _ x) by done. cbn [mbind outcome_bind]. rewrite Hd. cbn [mbind outcome_bind].
  eexists. split; [reflexivity|]. split; [|split; [by cbn; rewrite app_nil_r|done]].
  constructor; cbn [data objects receives]; [by apply linked_drop|done|done|..].
  - cbn [set_sessions next_session]. rewrite Hn. unfold ServerObjects.dropSession, ServerObjects.UnixAPISession_delete in Hd.
    cbn [ServerObjects.erase_session ServerObjects.unix_sessions] in Hd. destruct (ServerObjects.unix_sessions (objects s) !! sid) as [p|]; [|done].
    apply bind_Ret in Hd as (o1 & H1 & [= <-]). unfold ServerObjects.UnixAPISocket_delete in H1. repeat case_match; try done. by injection H1 as <-.
  - cbn [set_sessions sessions]. by rewrite dom_delete_L, Hsame, Ha.
  - cbn. rewrite app_nil_r. by apply complete_NoDup.
  - intros sid'. cbn. rewrite app_nil_r, complete_elem, Hr, dom_delete_L by done. set_solver.
Qed.

(** What a completed receive with a message may do: the session's receive is
    started again, the objects and the nodes of other sessions are untouched; or the database finds itself
    inconsistent, the reply could not be written, or the request is a connect or
    accept. *)
Definition message_outcome (ok : Z → APIMessage → bool) (sid : Z) (m : APIMessage) (s : Server) (o : outcome Server) : Prop :=
  match o with
  | Ret s' => served s' ∧ receives s' = complete sid (receives s) ++ [sid] ∧ objects s' = objects s ∧ isolated sid (data s) (data s')
  | Throw e => e = db_non_consistent
  | Undef u => u = use_after_free ∧ ∃ r, ok sid r = false
  | Terminate => get_type m = NODE_CONNECT ∨ get_type m = NODE_ACCEPT
  | OutOfFuel => False
  end.
Lemma served_message s ok sid m : served s → sid ∈ receives s →
  message_outcome ok sid m s (run_handler (ReceiveDone ok sid m None) s).
Proof.
  intros [Hl Ho Ht Hn Hsame Hnd Hr] Hin. pose proof Hin as Hin'. rewrite Hr in Hin'. apply elem_of_dom in Hin' as [x Hx].
  pose proof (handled_message ok sid m _ x Hl Hx) as Hm. cbn [run_handler].
  destruct (serve (Arrived ok sid m None) (data s)) as [[[u d'] es]|e|u| |]; cbn [mbind outcome_bind]; [|by destruct Hm|done..].
  destruct Hm as (Hl' & Hdom & Hn' & Hi & r & ->).
  assert (receiving (option_list (Written sid <$> r) ++ [Receiving sid]) = [sid]) as -> by (by destruct r).
  split; [|done]. constructor; cbn [data objects receives]; [done|done|done|congruence|congruence|..].
  - apply NoDup_app. split; [by apply complete_NoDup|]. split; [|apply NoDup_singleton].
    intros sid' Hc ->%list_elem_of_singleton. apply complete_elem in Hc as [_ ?]; done.
  - intros sid'. rewrite elem_of_app, complete_elem, list_elem_of_singleton, Hdom, <-Hr by done.
    destruct (decide (sid' = sid)) as [->|]; naive_solver.
Qed.

Lemma served_step s e s' : served s → accepted e → step s e s' → served s'.
Proof.
  intros Hs Ha Hst. revert Hs Ha. destruct Hst as [s1 e1 s2 He Hr]. intros Hs Ha. destruct e1 as [error|ok sid m err].
  - cbn [accepted] in Ha. subst error. destruct (served_accept s1 Hs) as (s3 & H3 & ? & _). congruence.
  - destruct He as [He _]. destruct err as [c|].
    + destruct (served_disconnect s1 ok sid m c Hs He) as (s3 & H3 & ? & _). congruence.
    + pose proof (served_message s1 ok sid m Hs He) as Hm. rewrite Hr in Hm. apply Hm.
Qed.
Lemma served_star s es s' : served s → Forall accepted es → star step s es s' → served s'.
Proof.
  intros Hs Ha Hstar. revert Hs Ha. induction Hstar as [|s1 s2 s3 e es Hstep _ IH]; intros Hs Ha; [done|].
  inversion Ha; subst. apply IH; [by eapply served_step|done].
Qed.

(** *** A client's byte stream *)

Section Stream.
Context {AP : APIProto}.
Variables (e : endian) (ok : Z → APIMessage → bool) (sid : Z).

(** [receiveLoop] and [handleReceive] of one session on the bytes its client
    sends before it closes: at most [fuel] receives. *)
Fixpoint session_loop (fuel : nat) (input : bytes) (s : Server) : outcome Server :=
  match fuel with
  | O => OutOfFuel
  | S fuel =>
      let '((m, err), rest) := asyncReceive e input in
      s' ← run_handler (ReceiveDone ok sid m err) s;
      match err with Some _ => Ret s' | None => session_loop fuel rest s' end
  end.

Lemma asyncReceive_shrinks input m rest : asyncReceive e input = ((m, None), rest) → length rest + 4 ≤ length input.
Proof.
  unfold asyncReceive, handleReceiveSize, APISocket.handleReceive, read. case_decide as H1; [|done].
  case_decide as H2; [|done]. intros [= _ <-]. rewrite !length_drop. unfold MESSAGE_SIZE_LENGTH in *. lia.
Qed.

Lemma isolated_trans d1 d2 d3 : isolated sid d1 d2 → isolated sid d2 d3 → isolated sid d1 d3.
Proof. intros H1 H2 n y Hn Hy. apply H2; [|done]. by apply H1. Qed.

(** The connection has ended and only it; or the daemon, by one of the
    messages [ms] the client sent. *)
Definition stream_outcome (ms : list APIMessage) (s : Server) (o : outcome Server) : Prop :=
  match o with
  | Ret s' => served s' ∧ (∀ sid', sid' ∈ receives s' ↔ sid' ∈ receives s ∧ sid' ≠ sid) ∧ isolated sid (data s) (data s')
  | Throw ex => ex = db_non_consistent
  | Undef u => u = use_after_free ∧ ∃ r, ok sid r = false
  | Terminate => ∃ m, m ∈ ms ∧ (get_type m = NODE_CONNECT ∨ get_type m = NODE_ACCEPT)
  | OutOfFuel => False
  end.
Lemma session_loop_ends fuel input s : served s → sid ∈ receives s → length input < 4 * fuel →
  stream_outcome (receive_all e fuel input) s (session_loop fuel input s).
Proof.
  revert input s. induction fuel as [|fuel IH]; intros input s Hs Hin Hlen; [lia|]. cbn [session_loop receive_all].
  rewrite <-asyncReceive_receive.
  destruct (asyncReceive e input) as [[m err] rest] eqn:Er. destruct err as [c|].
  - destruct (served_disconnect s ok sid m c Hs Hin) as (s' & -> & Hs' & Hr & Hm). cbn [mbind outcome_bind stream_outcome].
    split; [done|]. split; [intros sid'; rewrite Hr; by apply complete_elem, sv_nodup|].
    intros n y. by rewrite Hm.
  - apply asyncReceive_shrinks in Er. pose proof (served_message s ok sid m Hs Hin) as Ho.
    destruct (run_handler (ReceiveDone ok sid m None) s) as [s'|ex|u| |]; cbn [mbind outcome_bind]; [|done|done| |done].
    2: { exists m. split; [by apply elem_of_cons; left|done]. }
    destruct Ho as (Hs' & Hr & _ & Hi).
    assert (∀ sid', sid' ∈ receives s' ↔ sid' ∈ receives s) as Hsame.
    { intros sid'. rewrite Hr, elem_of_app, complete_elem, list_elem_of_singleton by (by apply sv_nodup).
      destruct (decide (sid' = sid)) as [->|]; naive_solver. }
    specialize (IH rest s' Hs' ltac:(by apply Hsame) ltac:(lia)).
    destruct (session_loop fuel rest s') as [s2| | | |]; [|done|done| |done].
    2: { destruct IH as (m' & Hm' & Ht). exists m'. split; [by apply elem_of_cons; right|done]. }
    destruct IH as (H1 & H2 & H3).
    split; [done|]. split; [intros sid'; by rewrite H2, Hsame|by eapply isolated_trans].
Qed.
End Stream.

(** After an accept that failed, the new session's receive can only fail, and
    dropping the session terminates the daemon. *)
Lemma failed_accept s code : served s →
  ∃ s', step s (AcceptDone (Some code)) s' ∧ next_session (data s) ∈ receives s' ∧
    ∀ ok m err, enabled (ReceiveDone ok (next_session (data s)) m err) s' →
      run_handler (ReceiveDone ok (next_session (data s)) m err) s' = Terminate.
Proof.
  intros [Hl Ho Ht Hn Hsame Hnd Hr].
  destruct (ServerObjects.owned_accept _ _ (Some code) Ho Ht) as (o & Hacc & Hin & Ht' & Ho'). rewrite decide_False in Ho' by done.
  assert (ServerObjects.new_session (objects s) = next_session (data s)) as Hid by done. rewrite Hid in Hin, Ho'.
  eexists. split.
  { constructor; [destruct (ServerObjects.own_accept _ _ Ho) as (q & Hq & _); cbn [enabled]; by eexists|].
    cbn [run_handler]. rewrite Hacc, serve_accept. reflexivity. }
  cbn [receives receiving omap list_omap]. split; [apply elem_of_app; right; by apply list_elem_of_singleton|].
  intros ok m err [_ Hc]. cbn [objects] in Hc. destruct err as [c|].
  - cbn [run_handler data objects]. rewrite (serve_drop _ _ _ _ APISession_new) by (apply lookup_insert_eq).
    cbn [mbind outcome_bind]. rewrite (ServerObjects.drop_unopened _ _ _ Ho' Ht' Hin) by set_solver. done.
  - exfalso. destruct (Hc eq_refl) as (p & Hp & Hk). destruct (ServerObjects.own_sock _ _ Ho' _ _ Hp) as [Hk' _].
    rewrite decide_True in Hk' by set_solver. congruence.
Qed.
End ServerRun.

(** ** A concrete run *)

Module ServerDemo.
#[local] Existing Instances Toy.toy_ECDSA Toy.toy_Digest LifecycleDemo.linux.
(** A client connects and registers a node. *)
Definition completions : list completion := [AcceptDone None; ReceiveDone Demo.all_ok 1 Demo.request None].
Definition next (e : completion) (s : Server (EC:=Toy.toy_ECDSA)) : Server (EC:=Toy.toy_ECDSA) :=
  match run_handler e s with Ret s' => s' | _ => s end.
Definition connected : Server (EC:=Toy.toy_ECDSA) := next (AcceptDone None) Server_new.
Definition registered_one : Server (EC:=Toy.toy_ECDSA) := next (ReceiveDone Demo.all_ok 1 Demo.request None) connected.

Lemma next_step e s : enabled e s → match run_handler e s with Ret _ => true | _ => false end = true → step s e (next e s).
Proof. intros He H. constructor; [done|]. unfold next. by destruct (run_handler e s). Qed.
Lemma completions_run : star step (Server_new (EC:=Toy.toy_ECDSA)) completions registered_one.
Proof.
  eapply star_cons; [apply next_step; [by eexists|vm_compute; reflexivity]|].
  apply star_one, next_step; [|vm_compute; reflexivity]. split.
  - apply list_elem_of_In. vm_compute. by left.
  - intros _. exists 1%Z. split; vm_compute; reflexivity.
Qed.
End ServerDemo.

(** ** Properties *)

(** C12 The API server across its handlers: in every run of the io service in
    which accepts succeed, the live sessions, the session objects and the
    outstanding receives are the same, one each, so that no handler is ever
    called with a deleted session; an accept and a disconnection always return,
    the latter removing the session and its receive and nothing else; a message
    of any content starts the next receive or ends in one of the stated ways;
    and an accept that fails leaves a session whose only completion terminates
    the daemon. *)
Theorem server_run_safe {EC : ECDSA} {DG : Digest} {SS : ServerObjects.StreamSocket}
    (ls : list completion) (s : Server) (Hacc : Forall accepted ls) (H : star step Server_new ls s) :
  NoDup (receives s) ∧
  (∀ sid, (sid ∈ receives s ↔ is_Some (sessions (data s) !! sid)) ∧ (sid ∈ receives s ↔ sid ∈ ServerObjects.api_sessions (objects s))) ∧
  (∀ sid, sid ∈ receives s → ∃ p, ServerObjects.unix_sessions (objects s) !! sid = Some p ∧
     ServerObjects.sockets (objects s) !! p = Some ServerObjects.Connected) ∧
  (∃ s', step s (AcceptDone None) s' ∧ receives s' = receives s ++ [next_session (data s)]) ∧
  (∀ ok sid m code, sid ∈ receives s → ∃ s', step s (ReceiveDone ok sid m (Some code)) s' ∧
     (∀ sid', sid' ∈ receives s' ↔ sid' ∈ receives s ∧ sid' ≠ sid) ∧ manager (data s') = manager (data s)) ∧
  (∀ ok sid m, sid ∈ receives s → message_outcome ok sid m s (run_handler (ReceiveDone ok sid m None) s)) ∧
  (∀ code, ∃ s', step s (AcceptDone (Some code)) s' ∧ ∀ ok m err,
     enabled (ReceiveDone ok (next_session (data s)) m err) s' →
     run_handler (ReceiveDone ok (next_session (data s)) m err) s' = Terminate).
Proof.
  pose proof (served_star _ _ _ served_new Hacc H) as Hs. pose proof Hs as [Hl Ho Ht Hn Hsame Hnd Hr].
  split; [done|]. split; [|split; [|split; [|split; [|split]]]].
  - intros sid. rewrite Hr, <-Hsame, elem_of_dom. done.
  - intros sid Hin. rewrite Hr, Hsame in Hin. apply (Ht sid) in Hin as [p Hp]. exists p. split; [done|].
    destruct (ServerObjects.own_sock _ _ Ho _ _ Hp) as [Hk _]. by rewrite decide_False in Hk by set_solver.
  - destruct (served_accept s Hs) as (s' & H' & _ & Hr' & _). exists s'. split; [|done]. constructor; [|done].
    destruct (ServerObjects.own_accept _ _ Ho) as (q & Hq & _). cbn [enabled]. by eexists.
  - intros ok sid m code Hin. destruct (served_disconnect s ok sid m code Hs Hin) as (s' & H' & _ & Hr' & Hm).
    exists s'. split; [by constructor; [split|]|]. split; [|done]. intros sid'. rewrite Hr'. by apply complete_elem.
  - intros ok sid m Hin. by apply served_message.
  - intros code. destruct (failed_accept s code Hs) as (s' & Hst & _ & Hf). by exists s'.
Qed.

Lemma server_run_safe_witness :
  ∃ s', step ServerDemo.registered_one (ReceiveDone Demo.all_ok 1 APIMessage_new (Some (104%Z, generic_category))) s' ∧
    (∀ sid', sid' ∈ receives s' ↔ sid' ∈ receives ServerDemo.registered_one ∧ sid' ≠ 1%Z).
Proof.
  destruct (server_run_safe ServerDemo.completions ServerDemo.registered_one) as (_ & _ & _ & _ & Hd & _).
  - repeat constructor.
  - exact ServerDemo.completions_run.
  - destruct (Hd Demo.all_ok 1%Z APIMessage_new (104%Z, generic_category)) as (s' & H1 & H2 & _).
    + apply list_elem_of_In. vm_compute. left. reflexivity.
    + exists s'. split; [exact H1|exact H2].
Defined.

(** C20 What the bytes of one client can do: whatever a connected client sends
    before it closes its socket, and in whatever state the server is, its
    connection is over after at most one receive per four bytes and one more;
    then either its session and receive are gone and the other sessions, their
    receives and their nodes are as they were, or one of its requests has ended
    the daemon in one of the stated ways (only NODE_CONNECT and NODE_ACCEPT
    terminate it).  The buffers the client's sizes ask for are taken to be
    allocated. *)
Theorem client_stream_ends {EC : ECDSA} {DG : Digest} {SS : ServerObjects.StreamSocket} {AP : APIProto}
    (ls : list completion) (s : Server) (e : endian) (ok : Z → APIMessage → bool) (sid : Z) (input : bytes)
    (Hacc : Forall accepted ls) (H : star step Server_new ls s) (Hin : sid ∈ receives s) :
  stream_outcome ok sid (receive_all e (S (length input / 4)) input) s (session_loop e ok sid (S (length input / 4)) input s).
Proof.
  apply session_loop_ends; [by eapply served_star; [apply served_new|..]|done|].
  pose proof (Nat.div_mod_eq (length input) 4). pose proof (Nat.mod_upper_bound (length input) 4 ltac:(done)). lia.
Qed.

(** A frame that promises more than it holds. *)
Definition truncated : bytes := [Byte.x00; Byte.x00; Byte.x00; Byte.x09; Byte.x01].
Lemma client_stream_ends_witness :
  stream_outcome Demo.all_ok 1 (receive_all (AP:=ToyAPI.toy_API) Little (S (length truncated / 4)) truncated) ServerDemo.registered_one
    (session_loop (AP:=ToyAPI.toy_API) Little Demo.all_ok 1 (S (length truncated / 4)) truncated ServerDemo.registered_one).
Proof.
  apply (client_stream_ends ServerDemo.completions).
  - repeat constructor.
  - exact ServerDemo.completions_run.
  - apply list_elem_of_In. vm_compute. left. reflexivity.
Defined.
