(* ===== verification/Discovery.v ===== *)
(** * Peer discovery ([daemon/discovery/]: [DiscoveryService.cpp],
    [BootstrapDiscovery.cpp], [UDPLPD.cpp], [UDPLPDv4.cpp], [UDPLPDv6.cpp]) and
    the daemon's start ([daemon/Daemon.cpp])

    The services act on the transport socket; their state is the multicast
    receive buffer and its pending handler.  Log lines are left out. *)

From S2P Require Import Prelude Common Crypto Config KeyProvider ECDH Overlay APISocket Endpoint Transport.
Import HashM KeyM.
From Stdlib Require Import ZArith Lia.
From Stdlib.Strings Require Import Byte.

(** [UDPLPD.proto]: the message of a multicast announcement. *)
Class LPDProto := {
  parse_discovery : bytes → option (Z * option Z);
  serialize_discovery : Z → Z → bytes;
  discovery_law p v : in_u32 p → in_u32 v → parse_discovery (serialize_discovery p v) = Some (p, Some v);
}.

Section Discovery.
Context {EC : ECDSA} {DG : Digest} {DH : ECDHLib} {NL : NetLib} {P : PTree} {LP : LPDProto}.

(** ** [DiscoveryService] *)

(** The callback object [handshake] gives to [connect]. *)
Definition handshake_callback : option Z := Some 100%Z.

Definition handshake (e : SocketEndpoint) : M Socket effect unit :=
  e' ← lift (SocketEndpoint_copy e);
  s ← get;
  match interface_endpoint e' with
  | Some ep => match getConnection s ep with
               | None => connect e' handshake_callback
               | Some _ => skip
               end
  | None => skip
  end.

(** What the callback does once connected: the connection request carries the
    node's current hash. *)
Definition generateConnectionRequest (kp : KeyProvider) : outcome bytes :=
  ki ← getKeyInfo kp 0;
  match ki with Some ki => toBinaryString (th ki) | None => Undef null_deref end.
Definition handshake_connected (kp : KeyProvider) (serialize_request : bytes → bytes)
    (error c : Z) : M Socket effect unit :=
  if decide (error = 0)%Z then
    r ← lift (generateConnectionRequest kp);
    send c (serialize_request r) ignore_sent
  else skip.

(** ** [BootstrapDiscovery] *)

(** One line of the file; [catch(int)] swallows an unknown interface. *)
Definition has_udp (s : Socket) (p : bytes) : bool := bool_decide (is_Some (getInterface s p)).
Definition bootstrap_line (line : bytes) : M Socket effect unit :=
  s ← get;
  match se_fromString (has_udp s) line with
  | Throw (int_exn _) => skip
  | r => tse ← lift r; handshake tse
  end.
Definition bootstrap_run (lines : list bytes) : M Socket effect unit := forM lines bootstrap_line.

(** ** [UDPLPD] *)

Definition MAX_UDP_PACKET_SIZE : nat := Nat.mul 64 1024.

(** [pending]: the copy of the buffer that [std::bind] stores in the handler
    of the outstanding receive. *)
Record UDPLPD := mkUDPLPD {
  udp_buffer : bytes;
  pending : option bytes;
  m_timer_seconds : Z;
  bind_endpoint : address * Z;
  target_endpoint : address * Z;
}.

Definition lpd_receive (l : UDPLPD) : UDPLPD :=
  mkUDPLPD (udp_buffer l) (Some (udp_buffer l)) (m_timer_seconds l) (bind_endpoint l) (target_endpoint l).

(** A datagram is written to the buffer; the handler sees its own copy. *)
Definition arrive (l : UDPLPD) (data : bytes) : UDPLPD :=
  mkUDPLPD (data ++ drop (length data) (udp_buffer l)) (pending l) (m_timer_seconds l) (bind_endpoint l) (target_endpoint l).

(** [processReceived], with the buffer bound in the handler. *)
Definition processReceived (recv_buffer : bytes) (recv_bytes : nat) (a : address) : M Socket effect unit :=
  match parse_discovery (take recv_bytes recv_buffer) with
  | None => skip
  | Some (p, _) => handshake (SocketEndpoint_of (UDPInterfaceEndpoint_of a (u16 p)))
  end.

Definition lpd_datagram (l : UDPLPD) (data : bytes) (a : address) : M Socket effect UDPLPD :=
  match pending l with
  | None => mret l
  | Some recv_buffer =>
      processReceived recv_buffer (length data) a;;
      mret (lpd_receive (arrive l data))
  end.

Definition getMulticastMessage (cfg : ConfigManager) : outcome bytes :=
  p ← getValue as_ushort cfg "transport.udp.port";
  Ret (serialize_discovery (Z.of_N p) Version.getMyVersion).

(** The buffer of the announcement is a temporary. *)
Definition lpd_send (cfg : ConfigManager) (sent_at_once : bool) : outcome bytes :=
  m ← getMulticastMessage cfg; if sent_at_once then Ret m else Undef dangling_ref.

(** [readConfig] of the two services. *)
Definition parse_address (s : string) : outcome address :=
  match address_parse (cstr s) with Some a => Ret a | None => Throw (asio_error 22) end.
Definition readConfig (v : string) (cfg : ConfigManager) (buffer : bytes) : outcome UDPLPD :=
  t ← getValue as_uint cfg ("discovery." +:+ v +:+ ".timer");
  p ← getValue as_ushort cfg ("discovery." +:+ v +:+ ".multicast.port");
  l ← getValue as_string cfg ("discovery." +:+ v +:+ ".local_ip");
  la ← parse_address l;
  m ← getValue as_string cfg ("discovery." +:+ v +:+ ".multicast.ip");
  ma ← parse_address m;
  Ret (mkUDPLPD buffer None (Z.of_N t) (la, Z.of_N p) (ma, Z.of_N p)).
(** [startReceiveLoop] and [startSendLoop]: a receive is outstanding and the
    first announcement is on its way. *)
Definition start_loops (cfg : ConfigManager) (l : UDPLPD) : outcome (UDPLPD * bytes) :=
  m ← getMulticastMessage cfg; Ret (lpd_receive l, m).
Definition UDPLPDv4_new : ConfigManager → bytes → outcome UDPLPD := readConfig "udpv4".
Definition UDPLPDv6_new : ConfigManager → bytes → outcome UDPLPD := readConfig "udpv6".

(** [~UDPLPDv4] and [~UDPLPDv6] leave the multicast group with a call that
    throws, which terminates in a destructor; [error] is what the system says. *)
Definition leave_group (error : option Z) : outcome unit :=
  match error with None => Ret tt | Some _ => Terminate end.

(** A sequence of datagrams, each with its sender. *)
Fixpoint lpd_run (l : UDPLPD) (ds : list (bytes * address)) : M Socket effect UDPLPD :=
  match ds with
  | [] => mret l
  | (d, a) :: ds => l' ← lpd_datagram l d a; lpd_run l' ds
  end.

(** ** [Daemon::run] *)

(** What the operating system answers: an error of the UDP socket, of the two
    multicast sockets, of the API's socket paths; and the bootstrap file. *)
Record os := mkOs {
  udp_error : option Z;
  lpdv4_error : option Z;
  lpdv6_error : option Z;
  open_path : string → option Z;
  bootstrap_file : list bytes;
  initial_buffer : bytes;
}.

Record daemon := mkDaemon {
  transport : Socket;
  overlay : Overlay.Socket;
  effects : list effect;
  discovery_bootstrap : bool;
  discovery_udpv4 : option (UDPLPD * bytes);
  discovery_udpv6 : option (UDPLPD * bytes);
  api_server : option string;
}.

(** [Daemon::Daemon] takes the configuration's singleton, [~Daemon] clears it. *)
Definition Daemon_new (s : Singleton.state) : Z * Singleton.state := Singleton.getInstance s.
Definition Daemon_delete (s : Singleton.state) : outcome Singleton.state := Singleton.clear s.

(** [catch (boost::system::system_error&)]. *)
Definition or_none {A} (r : outcome A) : outcome (option A) :=
  try_catch (x ← r; Ret (Some x)) (λ e, match e with asio_error _ => Some (Ret None) | _ => None end).
Definition os_check (e : option Z) : outcome unit := match e with Some c => Throw (asio_error c) | None => Ret tt end.

(** [APIManager::APIManager]. *)
Definition APIManager_new (cfg : ConfigManager) (env : environment) (o : os) : outcome (option string) :=
  enabled ← getValue as_bool cfg "api.unix.enabled";
  if (enabled : bool) then or_none (paths ← getSocketPathList env cfg; UnixAPIServer_open (open_path o) paths)
  else Ret None.

(** The interface is constructed, bound and registered, or left out. *)
Definition start_transport (cfg : ConfigManager) (o : os) : outcome Socket :=
  udp ← getValue as_bool cfg "transport.udp.enabled";
  iface ← (if (udp : bool) then or_none (x ← UDPInterface_new cfg; _ ← os_check (udp_error o); Ret x) else Ret None);
  match iface with
  | Some x => r ← registerInterface 0 (Socket_new x); Ret r.1.2
  | None => Ret (mkSocket ∅ ∅ ∅ ∅ [] ∅ 1)
  end.

Definition Daemon_run (cfg : ConfigManager) (env : environment) (o : os) (now rng : Z) : outcome daemon :=
  s0 ← start_transport cfg o;
  ov ← Overlay.Socket_new cfg now rng;
  name ← getValue as_string cfg "discovery.bootstrap.filename";
  boot ← (if decide (name = ""%string) then Ret (s0, []) else
          (r ← bootstrap_run (bootstrap_file o) s0; Ret (r.1.2, r.2)));
  v4 ← getValue as_bool cfg "discovery.udpv4.enabled";
  d4 ← (if (v4 : bool) then
          or_none (l ← UDPLPDv4_new cfg (initial_buffer o); _ ← os_check (lpdv4_error o);
                   start_loops cfg l)
        else Ret None);
  v6 ← getValue as_bool cfg "discovery.udpv6.enabled";
  d6 ← (if (v6 : bool) then
          or_none (l ← UDPLPDv6_new cfg (initial_buffer o); _ ← os_check (lpdv6_error o);
                   start_loops cfg l)
        else Ret None);
  api ← APIManager_new cfg env o;
  Ret (mkDaemon boot.1 ov boot.2 (negb (bool_decide (name = ""%string))) d4 d6 api).

(** ** Lemmas *)

(** No receive is outstanding. *)
Definition deaf (s : Socket) : Prop := ∀ i, Receive i ∉ tasks s.

Lemma deaf_post t : (∀ i, t ≠ Receive i) → preserves deaf (post t).
Proof.
  intros Ht. apply preserves_modify. intros s Hs i. simpl. rewrite elem_of_app, list_elem_of_singleton.
  intros [?|E]; [by apply (Hs i)|]. by apply (Ht i).
Qed.
Lemma deaf_update c f : preserves deaf (update_conn c f).
Proof.
  apply preserves_bind; [apply preserves_bind; [apply preserves_get|intros; apply preserves_lift]|].
  intros x. by apply preserves_modify.
Qed.
Lemma deaf_conn_at c : preserves deaf (conn_at c).
Proof. apply preserves_bind; [apply preserves_get|intros; apply preserves_lift]. Qed.
Lemma deaf_iface_at i : preserves deaf (iface_at i).
Proof. apply preserves_bind; [apply preserves_get|intros; apply preserves_lift]. Qed.

Lemma deaf_connect e cb : preserves deaf (connect e cb).
Proof.
  apply preserves_bind; [apply preserves_lift|intros e']. apply preserves_bind; [apply preserves_get|intros s].
  apply preserves_bind; [by apply preserves_modify|intros _].
  destruct (getInterface s _) as [i|]; [|apply preserves_lift].
  destruct (interface_endpoint e') as [ep|]; [|apply preserves_lift].
  apply preserves_bind; [by intros s1 c s2 es Hs [= <- <- <-]|intros c].
  apply preserves_bind; [apply deaf_conn_at|intros x]. apply preserves_bind; [apply deaf_iface_at|intros ix].
  apply preserves_bind.
  - apply preserves_bind; [|intros _; apply preserves_bind; [apply deaf_update|intros _; apply preserves_emit]].
    apply preserves_bind; [apply deaf_conn_at|intros y]. apply preserves_bind; [|intros _; apply deaf_update].
    destruct (conn_receive_timeout y); [by apply deaf_post|apply preserves_skip].
  - intros _. apply preserves_bind; [apply deaf_conn_at|intros y]. apply preserves_bind; [apply deaf_iface_at|intros _].
    apply preserves_bind; [apply deaf_conn_at|intros z]. apply preserves_bind; [apply preserves_emit|intros _].
    by apply deaf_post.
Qed.

Lemma deaf_handshake e : preserves deaf (handshake e).
Proof.
  apply preserves_bind; [apply preserves_lift|intros e']. apply preserves_bind; [apply preserves_get|intros s].
  destruct (interface_endpoint e') as [ep|]; [|apply preserves_skip].
  destruct (getConnection s ep); [apply preserves_skip|apply deaf_connect].
Qed.

Lemma deaf_bootstrap lines : preserves deaf (bootstrap_run lines).
Proof.
  apply preserves_forM. intros line. apply preserves_bind; [apply preserves_get|intros s].
  destruct (se_fromString _ _) as [tse|e|u| |];
    [|destruct e|..]; try (apply preserves_bind; [apply preserves_lift|intros; apply deaf_handshake]).
  apply preserves_skip.
Qed.

Lemma deaf_start cfg o s : start_transport cfg o = Ret s → deaf s.
Proof.
  intros H. unfold start_transport in H. inv_ret. destruct r0 as [x|].
  - rewrite registerInterface_run in H. injection H as <-. intros i Hi. by apply elem_of_nil in Hi.
  - injection H as <-. intros i Hi. by apply elem_of_nil in Hi.
Qed.

Lemma deaf_datagram cfg s i error m a p : deaf s → run_event cfg (Datagram i error m a p) s = Ret (tt, s, []).
Proof. intros Hs. unfold run_event. rewrite run_get, bool_decide_false by apply Hs. done. Qed.

Lemma Daemon_run_deaf cfg env o now rng d : Daemon_run cfg env o now rng = Ret d → deaf (transport d).
Proof.
  intros H. unfold Daemon_run in H. inv_ret. subst d. simpl.
  assert (deaf r) as Hd by (by eapply deaf_start). case_decide; [by inv_ret; subst|].
  apply bind_Ret in Hr2 as ([[[] s1] es1] & H1 & [= <-]). simpl. by eapply deaf_bootstrap.
Qed.

Lemma readConfig_buffer v cfg buffer l : readConfig v cfg buffer = Ret l → udp_buffer l = buffer.
Proof. intros H. unfold readConfig in H. repeat (apply bind_Ret in H as (? & _ & H)). by injection H as <-. Qed.

Lemma processReceived_take b n a : processReceived (take n b) n a = processReceived b n a.
Proof. unfold processReceived. by rewrite take_take, Nat.min_id. Qed.

(** The parser works one datagram behind. *)
Lemma lpd_run_stale n l ds b s :
  Forall (λ d, length d.1 = n) ds → pending l = Some b →
  ∃ l', lpd_run l ds s = (forM (zip (take n b :: ds.*1) ds.*2) (λ da, processReceived da.1 n da.2);; mret l') s.
Proof.
  intros Hds. revert l b s. induction Hds as [|[d a] ds Hd Hds IH]; intros l b s Hp; [by exists l|].
  simpl in Hd. cbn [lpd_run fmap list_fmap fst snd zip zip_with forM].
  unfold lpd_datagram. rewrite Hp, Hd, processReceived_take.
  set (l1 := lpd_receive (arrive l d)). set (b1 := d ++ drop (length d) (udp_buffer l)).
  assert (take n b1 = d) as Hb1 by (unfold b1; rewrite <-Hd; apply take_app_length).
  destruct (processReceived b n a s) as [[[[] s1] e1]| | | |] eqn:E; try (exists l; unfold mbind, M_bind; by rewrite E).
  destruct (IH l1 b1 s1 eq_refl) as [l' Hl']. exists l'. rewrite Hb1 in Hl'.
  rewrite !run_assoc. setoid_rewrite run_bind; [|exact E..]. f_equal. by rewrite run_ret, Hl'.
Qed.
End Discovery.

(** A discovery protocol: port and version in four bytes each. *)
Module ToyLPD.
#[global] Program Instance toy_LPD : LPDProto := {|
  parse_discovery b :=
    if decide (length b = 8) then Some (be_val (take 4 b), Some (be_val (drop 4 b))) else None;
  serialize_discovery p v := be_bytes 4 p ++ be_bytes 4 v;
|}.
Next Obligation.
  intros p v Hp Hv. cbn beta. rewrite decide_True by (by rewrite length_app, !length_be_bytes).
  rewrite take_app_le, take_ge, drop_app_ge, length_be_bytes, drop_0 by (rewrite length_be_bytes; lia).
  rewrite !be_val_be_bytes. do 2 f_equal; [|f_equal]; by apply Z.mod_small.
Qed.
End ToyLPD.

(** ** Properties *)

(** The running daemon hears nobody over UDP: whatever the configuration
    and the bootstrap file, starting it never asks the transport for incoming
    datagrams, so that any datagram leaves the transport, its connections and
    its clients untouched. *)
Theorem daemon_hears_nothing {EC : ECDSA} {DG : Digest} {DH : ECDHLib} {NL : NetLib} {P : PTree} {LP : LPDProto}
    (cfg : ConfigManager) (env : environment) (o : os) (now rng : Z) (d : daemon)
    (H : Daemon_run cfg env o now rng = Ret d) :
  (∀ i, Receive i ∉ tasks (transport d)) ∧
  (∀ i error m a p, run_event cfg (Datagram i error m a p) (transport d) = Ret (tt, transport d, [])).
Proof.
  pose proof (Daemon_run_deaf cfg env o now rng d H) as Hd. split; [exact Hd|].
  intros. by apply deaf_datagram.
Qed.

(** A result known to be a [Ret] by evaluation. *)
Lemma returns_check {A} (r : outcome A) : match r with Ret _ => true | _ => false end = true → returns r.
Proof. destruct r; [by eexists|discriminate..]. Defined.

Definition toy_env : environment := mkEnv None (Some "/root") "" 0.

(** The daemon starts with the default configuration, whatever the receive
    buffer of its discovery holds. *)
Definition toy_os_with (buffer : bytes) : os := mkOs None (Some 98%Z) None (λ _, None) [] buffer.
Lemma toy_daemon (buffer : bytes) :
  ∃ d l m, Daemon_run (EC:=Toy.toy_ECDSA) (DG:=Toy.toy_Digest) (DH:=ToyDH.toy_ECDH) (NL:=ToyNet.toy_NetLib)
      toy_config toy_env (toy_os_with buffer) 5 7 = Ret d ∧
    discovery_udpv6 d = Some (l, m) ∧ pending l = Some buffer.
Proof.
  destruct toy_socket as (ov & Hov & _). unfold Daemon_run.
  assert (returns (start_transport (NL:=ToyNet.toy_NetLib) toy_config (toy_os_with buffer))) as [s0 ->]
    by (apply returns_check; vm_compute; reflexivity).
  rewrite Hov. cbn [mbind outcome_bind].
  assert (getValue as_string toy_config "discovery.bootstrap.filename" = Ret "bootstrap.txt"%string) as -> by (vm_compute; reflexivity).
  cbn [mbind outcome_bind]. rewrite decide_False by discriminate.
  assert (getValue as_bool toy_config "discovery.udpv4.enabled" = Ret true) as -> by (vm_compute; reflexivity).
  assert (getValue as_bool toy_config "discovery.udpv6.enabled" = Ret true) as -> by (vm_compute; reflexivity).
  assert (returns (APIManager_new toy_config toy_env (toy_os_with buffer))) as [api ->] by (apply returns_check; vm_compute; reflexivity).
  assert (returns (UDPLPDv4_new (NL:=ToyNet.toy_NetLib) toy_config buffer)) as [l4 E4] by (apply returns_check; vm_compute; reflexivity).
  assert (returns (UDPLPDv6_new (NL:=ToyNet.toy_NetLib) toy_config buffer)) as [l6 E6] by (apply returns_check; vm_compute; reflexivity).
  assert (returns (getMulticastMessage toy_config)) as [m Em] by (apply returns_check; vm_compute; reflexivity).
  cbn [mbind outcome_bind]. cbn [initial_buffer toy_os_with]. rewrite E4, E6. unfold start_loops. rewrite Em.
  eexists _, (lpd_receive l6), m. split; [reflexivity|]. split; [reflexivity|]. cbn [lpd_receive pending].
  by rewrite (readConfig_buffer _ _ _ _ E6).
Qed.

Lemma daemon_hears_nothing_witness :
  ∃ d, Daemon_run (EC:=Toy.toy_ECDSA) (DG:=Toy.toy_Digest) (DH:=ToyDH.toy_ECDH) (NL:=ToyNet.toy_NetLib) toy_config toy_env (toy_os_with []) 5 7 = Ret d ∧
       ∀ i, Receive i ∉ tasks (transport d).
Proof.
  destruct (toy_daemon []) as (d & _ & _ & Hd & _). exists d. split; [exact Hd|].
  exact (proj1 (daemon_hears_nothing toy_config toy_env (toy_os_with []) 5 7 d Hd)).
Defined.

(** C35 Local peer discovery works one datagram behind: the handler parses the
    copy of the buffer taken when the receive was started, so announcements of
    one length have together exactly the effect (failures included) of handling,
    for the sender of the first, the initial contents of the buffer and, for the
    sender of each later one, the announcement before it; the last one received
    has had no effect. *)
Theorem lpd_parses_previous {NL : NetLib} {LP : LPDProto} (l : UDPLPD) (n : nat)
    (ds : list (bytes * address)) (s : Socket) (Hds : Forall (λ d, length d.1 = n) ds) :
  ∃ l', lpd_run (lpd_receive l) ds s =
    (forM (zip (take n (udp_buffer l) :: ds.*1) ds.*2) (λ da, processReceived da.1 n da.2);; mret l') s.
Proof. by apply lpd_run_stale. Qed.

Definition toy_lpd : UDPLPD (NL:=ToyNet.toy_NetLib) := mkUDPLPD [x00; x00; x00] None 10 (0%N, 1%Z) (0%N, 1%Z).
Definition toy_transport : Socket (NL:=ToyNet.toy_NetLib) := mkSocket ∅ ∅ ∅ ∅ [] ∅ 1.

Lemma lpd_parses_previous_witness :
  ∃ l', lpd_run (LP:=ToyLPD.toy_LPD) (lpd_receive toy_lpd) [([x01; x01], 7%N); ([x02; x02], 8%N)] toy_transport =
    (forM [([x00; x00], 7%N); ([x01; x01], 8%N)]
       (λ da, processReceived (LP:=ToyLPD.toy_LPD) (NL:=ToyNet.toy_NetLib) da.1 2 da.2);; mret l') toy_transport.
Proof.
  apply (lpd_parses_previous (LP:=ToyLPD.toy_LPD) toy_lpd 2 [([x01; x01], 7%N); ([x02; x02], 8%N)] toy_transport).
  repeat constructor.
Defined.

(** A line of the bootstrap file: the text of a UDP endpoint that is not
    connected yet makes the transport send one connect request to it and arm
    the inactivity timeout; a line with an unknown prefix is skipped; and a
    line with the known prefix whose port is no number throws out of the
    daemon's start. *)
Theorem bootstrap_line_effects {NL : NetLib} {P : PTree}
    (cfg : ConfigManager) (iface : UDPInterface) (evs : list event) (s : Socket) (es : list effect)
    (x : UDPInterface) (line : bytes)
    (H : io_run cfg evs (Socket_new iface) = Ret (tt, s, es)) (Hx : ifaces s !! 0%Z = Some x) :
  (∀ e, udp_ok e → line = ip_toString e → getConnection s e = None →
     ∃ s', bootstrap_line line s = Ret (tt, s',
       [RecvTimerArmed (next_id s) (inactivity_timeout x) ConnectWait; SendTo 0 (ip e) (port e) UDP_CONNECT_MSG])) ∧
  (∀ e c, udp_ok e → line = ip_toString e → getConnection s e = Some c → bootstrap_line line s = Ret (tt, s, [])) ∧
  (substr line 0 (str_find colon line) ≠ udp_prefix → bootstrap_line line s = Ret (tt, s, [])) ∧
  (substr line 0 (str_find colon line) = udp_prefix →
     lexical_cast_u16 (substr line (u64 (str_rfind colon line + 1))
       (u64 (Z.of_nat (length line) - str_rfind colon line))) = None →
     bootstrap_line line s = Throw bad_lexical_cast).
Proof.
  pose proof (io_run_safe cfg evs iface) as HI. rewrite H in HI. destruct HI as [HI _].
  assert (has_udp s udp_prefix = true) as Hudp.
  { unfold has_udp, getInterface. rewrite (inv_ifaces s HI). rewrite lookup_singleton_eq. by apply bool_decide_eq_true. }
  unfold bootstrap_line. rewrite run_get. split; [|split; [|split]].
  - intros e He -> Hc. rewrite (se_fromString_toString _ e) by done. rewrite run_lift.
    unfold handshake. cbn [SocketEndpoint_copy interface_endpoint]. rewrite run_lift, run_get. cbn [interface_endpoint].
    assert (clone e = e) as Ee by (destruct He as [Hp _]; destruct e; simpl in *; by subst).
    rewrite Ee, Hc. rewrite (connect_run s _ e) by done. rewrite Ee. erewrite connect_result by done. by eexists.
  - intros e c He -> Hc. rewrite (se_fromString_toString _ e) by done. rewrite run_lift.
    unfold handshake. cbn [SocketEndpoint_copy interface_endpoint]. rewrite run_lift, run_get. cbn [interface_endpoint].
    assert (clone e = e) as Ee by (destruct He as [Hp _]; destruct e; simpl in *; by subst).
    by rewrite Ee, Hc.
  - intros Hne. unfold se_fromString, resetEndpoint.
    assert (has_udp s (substr line 0 (str_find colon line)) = false) as ->; [|done].
    apply bool_decide_eq_false. unfold getInterface. rewrite (inv_ifaces s HI).
    rewrite lookup_singleton_ne by done. by intros [? ?].
  - intros Hp Hl. unfold se_fromString, resetEndpoint. rewrite Hp, Hudp. simpl. unfold ip_fromString. by rewrite Hl.
Qed.

Lemma bootstrap_line_effects_witness :
  bootstrap_line (cstr "TCP:1:2") (Transport.Demo.state Transport.Demo.accepted) =
    Ret (tt, Transport.Demo.state Transport.Demo.accepted, []).
Proof.
  assert (match Transport.Demo.result Transport.Demo.accepted with Ret _ => true | _ => false end = true) as Hr
    by (vm_compute; reflexivity).
  assert (ifaces (Transport.Demo.state Transport.Demo.accepted) !! 0%Z =
          Some (default Transport.Demo.iface (ifaces (Transport.Demo.state Transport.Demo.accepted) !! 0%Z))) as Hi
    by (apply Transport.Demo.lookup_ok; vm_compute; reflexivity).
  refine (proj1 (proj2 (proj2 (bootstrap_line_effects Transport.Demo.cfg Transport.Demo.iface _ _ _ _ (cstr "TCP:1:2")
    (Transport.Demo.result_ok Transport.Demo.accepted Hr) Hi))) _).
  vm_compute. discriminate.
Defined.
