(* ===== verification/LPDLoop.v ===== *)
(** * The loops of local peer discovery ([daemon/discovery/UDPLPD.cpp])

    The service as the io service runs it: announcements are sent, the
    completion of a send arms the timer, the timer sends again, and received
    announcements are handled in between.  Clock readings are nanoseconds. *)

From S2P Require Import Prelude Common Crypto Config KeyProvider ECDH Overlay APISocket Endpoint Transport Discovery.
From Stdlib Require Import ZArith Lia.
From Stdlib.Strings Require Import Byte.

Section Loop.
Context {NL : NetLib} {P : PTree} {LP : LPDProto}.
Variable cfg : ConfigManager.

(** [sending]: an [async_send_to] is outstanding; [deadline]: the wait of
    [m_timer]; [queued]: handlers bound to [send] that are ready to run;
    [deleted]: the destructor has run. *)
Record Loop := mkLoop {
  lpd : UDPLPD;
  transport : Socket;
  sending : bool;
  deadline : option Z;
  queued : nat;
  deleted : bool;
  now : Z;
}.

(** [m_timer.cancel()]: a pending wait completes, and its handler does not look
    at the error. *)
Definition cancel_timer (l : Loop) : Loop :=
  mkLoop (lpd l) (transport l) (sending l) None (match deadline l with Some _ => S (queued l) | None => queued l end)
    (deleted l) (now l).

(** [UDPLPD::send], with the bytes it hands to the socket; [at_once]: whether
    the socket takes them before the temporary buffer is gone. *)
Definition send (at_once : bool) (l : Loop) : outcome (Loop * bytes) :=
  if deleted l then Undef use_after_free else
  m ← lpd_send cfg at_once;
  Ret (mkLoop (lpd l) (transport l) true (deadline l) (queued l) (deleted l) (now l), m).

(** [UDPLPD::waitBeforeSend]: [expires_from_now] cancels, then the wait starts. *)
Definition waitBeforeSend (l : Loop) : outcome Loop :=
  if deleted l then Undef use_after_free else
  let l1 := cancel_timer l in
  Ret (mkLoop (lpd l1) (transport l1) (sending l1) (Some (now l1 + m_timer_seconds (lpd l1) * ns_per_s)%Z) (queued l1)
         (deleted l1) (now l1)).

(** [UDPLPD::run]; the daemon calls the two loops in the same order. *)
Definition run (at_once : bool) (l : UDPLPD) (s : Socket) (t : Z) : outcome (Loop * bytes) :=
  send at_once (mkLoop (lpd_receive l) s false None 0 false t).

(** [UDPLPD::~UDPLPD]. *)
Definition UDPLPD_delete (l : Loop) : Loop :=
  let l1 := cancel_timer l in
  mkLoop (lpd l1) (transport l1) (sending l1) (deadline l1) (queued l1) true (now l1).

Inductive label :=
| Announced (time : Z) (message : bytes)
| SendCompleted
| TimerFired
| Heard (data : bytes) (a : address) (es : list effect)
| Tick.

Definition set_sending (b : bool) (l : Loop) : Loop :=
  mkLoop (lpd l) (transport l) b (deadline l) (queued l) (deleted l) (now l).
Definition set_queued (n : nat) (l : Loop) : Loop :=
  mkLoop (lpd l) (transport l) (sending l) (deadline l) n (deleted l) (now l).
Definition set_now (t : Z) (l : Loop) : Loop :=
  mkLoop (lpd l) (transport l) (sending l) (deadline l) (queued l) (deleted l) t.

Inductive step : Loop → label → Loop → Prop :=
| lp_send l n at_once l' m :
    queued l = S n → send at_once (set_queued n l) = Ret (l', m) → step l (Announced (now l) m) l'
| lp_completed l l' :
    sending l = true → waitBeforeSend (set_sending false l) = Ret l' → step l SendCompleted l'
| lp_timer l t : deadline l = Some t → (t ≤ now l)%Z → step l TimerFired (cancel_timer l)
| lp_heard l data a u s es :
    deleted l = false → lpd_datagram (lpd l) data a (transport l) = Ret (u, s, es) →
    step l (Heard data a es) (mkLoop u s (sending l) (deadline l) (queued l) (deleted l) (now l))
| lp_tick l t : (now l ≤ t)%Z → step l Tick (set_now t l).

(** ** The invariant *)

Definition announced (ls : list label) : nat :=
  length (filter (λ l, match l with Announced _ _ => true | _ => false end = true) ls).

(** One announcement is under way: sent, waited for or due.  [n] have followed
    the first, which was sent at [t0]; the interval is [i] nanoseconds. *)
Record linv (i t0 : Z) (n : nat) (l : Loop) : Prop := {
  linv_alive : deleted l = false;
  linv_interval : (m_timer_seconds (lpd l) * ns_per_s)%Z = i;
  linv_time : (t0 + Z.of_nat n * i ≤ now l)%Z;
  linv_one :
    (sending l = true ∧ deadline l = None ∧ queued l = 0) ∨
    (sending l = false ∧ (∃ d, deadline l = Some d ∧ (t0 + Z.of_nat (S n) * i ≤ d)%Z) ∧ queued l = 0) ∨
    (sending l = false ∧ deadline l = None ∧ queued l = 1 ∧ (t0 + Z.of_nat (S n) * i ≤ now l)%Z);
}.

Lemma send_inv at_once l l' m : send at_once l = Ret (l', m) →
  deleted l = false ∧ getMulticastMessage cfg = Ret m ∧ l' = set_sending true l.
Proof.
  unfold send, lpd_send. destruct (deleted l) eqn:Hd; [done|]. intros H. apply bind_Ret in H as (m' & Hm & H).
  apply bind_Ret in Hm as (m2 & Hm & Ho). destruct at_once; [|done]. injection Ho as ->. injection H as <- <-.
  split; [done|]. split; [done|]. unfold set_sending. by rewrite Hd.
Qed.

Lemma linv_run at_once l s t l' m : run at_once l s t = Ret (l', m) →
  linv (m_timer_seconds l * ns_per_s) t 0 l' ∧ getMulticastMessage cfg = Ret m.
Proof.
  intros (_ & Hm & ->)%send_inv. split; [|done]. constructor; simpl; [done|done|lia|by left].
Qed.

Lemma datagram_timer l data a s u s' es :
  lpd_datagram l data a s = Ret (u, s', es) → m_timer_seconds u = m_timer_seconds l.
Proof.
  unfold lpd_datagram. destruct (pending l); [|by intros [= <- _ _]].
  intros ([] & s1 & e1 & e2 & _ & [= <- _ _] & _)%M_bind_Ret. done.
Qed.

Lemma linv_step i t0 n l lab l' :
  (0 ≤ i)%Z → linv i t0 n l → step l lab l' → linv i t0 (n + announced [lab]) l'.
Proof.
  intros Hi [Ha Hiv Ht Hone] Hstep.
  destruct Hstep as [l k at_once l' m Hq Hs|l l' Hs Hw|l t Hd Hle|l data a u s es Hd Hh|l t Hle];
    [change (announced [Announced _ _]) with 1; rewrite Nat.add_1_r|rewrite Nat.add_0_r..].
  - apply send_inv in Hs as (_ & _ & ->). destruct Hone as [(_ & _ & ?)|[(_ & _ & ?)|(Hs & Hd & Hk & Hle)]]; [congruence..|].
    rewrite Hk in Hq. injection Hq as <-. constructor; simpl; [done|done|lia|by left].
  - destruct Hone as [(_ & Hd & Hq)|[(? & _)|(? & _)]]; [|congruence..].
    unfold waitBeforeSend in Hw. simpl in Hw. rewrite Ha in Hw. injection Hw as <-.
    constructor; simpl; [done|done|done|]. right. left. rewrite Hd, Hq, Hiv. split; [done|]. split; [|done].
    eexists. split; [done|]. lia.
  - destruct Hone as [(_ & ? & _)|[(Hs & (d & Hd' & Hle') & Hq)|(_ & ? & _)]]; [congruence| |congruence].
    rewrite Hd in Hd'. injection Hd' as <-.
    constructor; simpl; [done|done|done|]. right. right. rewrite Hd, Hq. repeat split; [done|lia].
  - constructor; simpl; [done|by rewrite (datagram_timer _ _ _ _ _ _ _ Hh)|done|done].
  - constructor; simpl; [done|done|lia|]. destruct Hone as [?|[?|(? & ? & ? & ?)]]; [by left|by right; left|].
    right. right. repeat split; [done|done|done|lia].
Qed.

Lemma announced_cons lab ls : announced (lab :: ls) = announced [lab] + announced ls.
Proof. unfold announced. change (lab :: ls) with ([lab] ++ ls). by rewrite filter_app, length_app. Qed.

Lemma linv_star i t0 n l ls l' :
  (0 ≤ i)%Z → star step l ls l' → linv i t0 n l → linv i t0 (n + announced ls) l'.
Proof.
  intros Hi Hstar. revert n. induction Hstar as [l|l1 l2 l3 lab ls Hstep _ IH]; intros n Hl.
  { by rewrite Nat.add_0_r. }
  rewrite announced_cons, Nat.add_assoc. eauto using linv_step.
Qed.

(** The next announcement. *)
Lemma linv_next i t0 n l m : linv i t0 n l → getMulticastMessage cfg = Ret m →
  ∃ ls t l', star step l (ls ++ [Announced t m]) l' ∧ announced ls = 0.
Proof.
  intros Hl Hm.
  assert (∀ l k, deleted l = false → queued l = S k → ∃ t l', star step l [Announced t m] l') as Hsend.
  { intros l1 k Hd Hq. eexists _, _. apply star_one, (lp_send l1 k true); [done|]. unfold send, lpd_send. simpl.
    by rewrite Hd, Hm. }
  assert (∀ l d, deleted l = false → deadline l = Some d →
    ∃ ls t l', star step l (ls ++ [Announced t m]) l' ∧ announced ls = 0) as Htimer.
  { intros l1 d Hd Hdl. set (l2 := set_now (Z.max (now l1) d) l1).
    destruct (Hsend (cancel_timer l2) (queued l1)) as (t & l3 & H3); [done|simpl; by rewrite Hdl|].
    exists [Tick; TimerFired], t, l3. split; [|done]. simpl.
    eapply star_cons; [apply (lp_tick _ (Z.max (now l1) d)); lia|].
    eapply star_cons; [apply (lp_timer l2 d); [done|simpl; lia]|exact H3]. }
  destruct Hl as [Ha _ _ [(Hs & Hd & Hq)|[(_ & (d & Hd & _) & _)|(_ & _ & Hq & _)]]].
  - set (l1 := mkLoop (lpd l) (transport l) false (Some (now l + m_timer_seconds (lpd l) * ns_per_s)%Z) (queued l) false (now l)).
    assert (step l SendCompleted l1) as Hstep.
    { apply lp_completed; [done|]. unfold waitBeforeSend, cancel_timer. simpl. by rewrite Ha, Hd. }
    destruct (Htimer l1 _ eq_refl eq_refl) as (ls & t & l' & H & H0).
    exists (SendCompleted :: ls), t, l'. split; [by econstructor|]. by rewrite announced_cons, H0.
  - eauto.
  - destruct (Hsend l 0 Ha Hq) as (t & l' & H). by exists [], t, l'.
Qed.
End Loop.

(** ** Properties *)

(** C25 Announcements are paced and never overlap: in every run of the service,
    with received announcements in between, after [n] announcements following
    the first at least [n] timer intervals have passed, exactly one of an
    outstanding send, a wait and a due send exists, and the service can go on
    to make the same announcement again.  Its destructor leaves that send, or
    the handler of the cancelled wait, in the io service. *)
Theorem lpd_announcement_rate {NL : NetLib} {P : PTree} {LP : LPDProto} (cfg : ConfigManager) (at_once : bool)
    (l : UDPLPD) (s : Socket) (t0 : Z) (m : bytes) (l0 l' : Loop) (ls : list label)
    (Hi : (0 ≤ m_timer_seconds l)%Z) (Hrun : run cfg at_once l s t0 = Ret (l0, m)) (H : star (step cfg) l0 ls l') :
  (Z.of_nat (announced ls) * (m_timer_seconds l * ns_per_s) ≤ now l' - t0)%Z ∧
  (if sending l' then 1 else 0) + (match deadline l' with Some _ => 1 | None => 0 end) + queued l' = 1 ∧
  (∃ ls' t l2, star (step cfg) l' (ls' ++ [Announced t m]) l2 ∧ announced ls' = 0) ∧
  (sending l' = true ∨ queued (UDPLPD_delete l') = 1).
Proof.
  destruct (linv_run _ _ _ _ _ _ _ Hrun) as [Hl0 Hm].
  assert (0 ≤ m_timer_seconds l * ns_per_s)%Z as Hn by (unfold ns_per_s; lia).
  pose proof (linv_star _ _ _ _ _ _ _ Hn H Hl0) as Hl. change (0 + announced ls) with (announced ls) in Hl.
  split; [pose proof (linv_time _ _ _ _ Hl); lia|]. split; [|split; [by eapply linv_next|]].
  - destruct (linv_one _ _ _ _ Hl) as [(-> & -> & ->)|[(-> & (d & -> & _) & ->)|(-> & -> & -> & _)]]; done.
  - simpl. destruct (linv_one _ _ _ _ Hl) as [(-> & -> & ->)|[(-> & (d & -> & _) & ->)|(-> & -> & -> & _)]]; auto.
Qed.

Lemma lpd_announcement_rate_witness :
  ∃ l0 m, run toy_config true toy_lpd toy_transport 0 = Ret (l0, m) ∧
    ∃ ls' t l2, star (step (LP:=ToyLPD.toy_LPD) toy_config) l0 (ls' ++ [Announced t m]) l2.
Proof.
  assert (returns (run (LP:=ToyLPD.toy_LPD) toy_config true toy_lpd toy_transport 0)) as [[l0 m] E]
    by (apply returns_check; vm_compute; reflexivity).
  exists l0, m. split; [exact E|].
  destruct (lpd_announcement_rate toy_config true toy_lpd toy_transport 0 m l0 l0 []) as (_ & _ & (ls' & t & l2 & H & _) & _).
  - discriminate.
  - exact E.
  - apply star_nil.
  - exists ls', t, l2. exact H.
Defined.

(** After the destructor a handler of the service is left: a completed send or
    the cancelled wait calls the deleted object. *)
Theorem lpd_delete_leaves_handler {NL : NetLib} {P : PTree} {LP : LPDProto} (cfg : ConfigManager) (at_once : bool) (l : Loop) :
  send cfg at_once (UDPLPD_delete l) = Undef use_after_free ∧ waitBeforeSend (UDPLPD_delete l) = Undef use_after_free.
Proof. done. Qed.
