(* ===== verification/DaemonRun.v ===== *)
(** * The running daemon

    [Daemon::run] ([daemon/Daemon.cpp]) starts the transport, the overlay, the
    discovery services and the API and hands them to one io service.  Here the
    handlers of all of them run in any order on one state: completions and
    timers of the transport, multicast announcements, key renewals and API
    connections. *)

From S2P Require Import Prelude StdMap Common Crypto Config KeyProvider ECDH Overlay NodeManager APISocket APISession APINodes Client.
From S2P Require Import Lifecycle ServerRun Endpoint Transport Discovery.
Import HashM KeyM.
From Stdlib Require Import ZArith Lia.
From Stdlib.Strings Require Import Byte.

(** ** A transport whose clients only connect *)

Section Net.
Context {NL : NetLib} {P : PTree}.

(** No client asked for datagrams: no connection was ever established, the
    existing ones wait for an answer that cannot arrive, and the io service has
    only their requests to send and the handlers of their waits to run. *)
Definition waited (c : Z) (t : task) : Prop := t = AbortedRecv c ConnectWait ∨ t = ExpiredRecv c ConnectWait.
Record quiet (s : Transport.Socket) : Prop := {
  q_inv : Transport.Inv s;
  q_none : Transport.connections s = ∅;
  q_held : held s = ∅;
  q_conns : ∀ c x, conns s !! c = Some x → m_connected x = false ∧ conn_send_timer x = false ∧
    (conn_receive_timeout x = Some ConnectWait ∨ conn_receive_timeout x = None ∧ ExpiredRecv c ConnectWait ∈ tasks s);
  q_tasks : ∀ t, t ∈ tasks s →
    (∃ i c, t = Sending i c UDP_CONNECT_MSG Transport.ignore_sent) ∨ (∃ c, waited c t);
}.

Lemma quiet_deaf s : quiet s → deaf s.
Proof. intros Hq i Hi. by destruct (q_tasks s Hq _ Hi) as [(? & ? & ?)|(? & [?|?])]. Qed.

Lemma quiet_start x : quiet (mkSocket {[udp_prefix := Some 0%Z]} ∅ {[0%Z := set_parent x]} ∅ [] ∅ 1).
Proof.
  constructor; cbn [Transport.connections held conns tasks]; try done; [apply Inv_start|].
  intros t Ht. by apply elem_of_nil in Ht.
Qed.

(** A connect adds one waiting connection and its request. *)
Lemma quiet_connect s e ep cb s' es : quiet s → interface_endpoint e = Some ep → connect e cb s = Ret (tt, s', es) →
  quiet s' ∧ conns s' ≠ ∅.
Proof.
  intros [Hi Hn Hh Hc Ht] He H. pose proof (connect_safe s e cb Hi) as Hs. rewrite H in Hs. destruct Hs as [Hi' _].
  rewrite (connect_run s e ep cb Hi He) in H. destruct (inv_udp s Hi) as (ix & Hix & _).
  erewrite connect_result in H by done. injection H as <- <-. split; [|cbn [conns]; apply insert_non_empty].
  constructor; cbn [Transport.connections held conns tasks]; try done.
  - intros c x. rewrite lookup_insert_Some. intros [[_ <-]|[_ Hx]]; [by auto|]. destruct (Hc c x Hx) as (? & ? & Hor).
    rewrite elem_of_app. naive_solver.
  - intros t. rewrite elem_of_app, list_elem_of_singleton. intros [Hin| ->]; [by apply Ht|]. left. by eexists _, _.
Qed.

(** What discovery does: nothing, or one more waiting connection. *)
Lemma handshake_cases e s s' es : quiet s → handshake e s = Ret (tt, s', es) → s' = s ∨ (quiet s' ∧ conns s' ≠ ∅).
Proof.
  intros Hq H. unfold handshake in H. apply M_bind_Ret in H as (e' & s1 & e1 & e2 & H1 & H & _).
  unfold lift in H1. apply bind_Ret in H1 as (e0 & He0 & [= <- <- <-]). rewrite run_get in H.
  destruct (interface_endpoint e0) as [ep|] eqn:Hep; [|injection H as <- <-; by left].
  destruct (getConnection s ep); [injection H as <- <-; by left|]. right. by eapply quiet_connect.
Qed.

(** Invariants that discovery cannot break. *)
Definition waits (Q : Transport.Socket → Prop) : Prop :=
  (∀ s, Q s → quiet s) ∧ ∀ s, quiet s → conns s ≠ ∅ → Q s.
Lemma waits_handshake Q e : waits Q → preserves Q (handshake e).
Proof.
  intros [HQ1 HQ2] s [] s' es Hs H. destruct (handshake_cases e s s' es (HQ1 _ Hs) H) as [->|[? ?]]; [done|by apply HQ2].
Qed.
Lemma waits_bootstrap Q lines : waits Q → preserves Q (bootstrap_run lines).
Proof.
  intros HQ. apply preserves_forM. intros line. apply preserves_bind; [apply preserves_get|intros s].
  destruct (se_fromString _ _) as [tse|e|u| |];
    [|destruct e|..]; try (apply preserves_bind; [apply preserves_lift|intros; by apply waits_handshake]).
  apply preserves_skip.
Qed.
Lemma waits_lpd {LP : LPDProto} Q l data a : waits Q → preserves Q (lpd_datagram l data a).
Proof.
  intros HQ. unfold lpd_datagram. destruct (pending l) as [b|]; [|apply preserves_ret].
  apply preserves_bind; [|intros; apply preserves_ret]. unfold processReceived.
  destruct (parse_discovery _) as [[p v]|]; [by apply waits_handshake|apply preserves_skip].
Qed.
Lemma waits_quiet : waits quiet.
Proof. by split. Qed.

(** *** Lifetime *)

Lemma quiet_destroy s c : quiet s → ¬ referenced s c → quiet (destroy s c).
Proof.
  intros Hq Hr. pose proof (Inv_destroy s c (q_inv s Hq) Hr) as Hi. destruct Hq as [Hi0 Hn Hh Hc Ht]. unfold destroy in *.
  destruct (conns s !! c) as [x|] eqn:Hx; [|by constructor]. destruct (Hc c x Hx) as (Hm & Hst & Hw).
  constructor; cbn [set_conns set_tasks Transport.connections held conns tasks]; try done.
  - intros c' y [_ Hy]%lookup_delete_Some. destruct (Hc c' y Hy) as (? & ? & Hor). rewrite elem_of_app. naive_solver.
  - intros t. rewrite Hst, elem_of_app. cbn [app]. intros [Hin|Hin]; [by apply Ht|]. right.
    destruct Hw as [Hw|[Hw _]]; rewrite Hw in Hin; [|by apply elem_of_nil in Hin].
    apply list_elem_of_singleton in Hin as ->. exists c. by left.
Qed.

(** What is left when connections are collected: a waiting connection, or the
    handler of its wait. *)
Definition doomed (s : Transport.Socket) : Prop := conns s ≠ ∅ ∨ ∃ c t, waited c t ∧ t ∈ tasks s.

Lemma doomed_destroy s c : quiet s → doomed s → doomed (destroy s c).
Proof.
  intros Hq Hd. unfold destroy. destruct (conns s !! c) as [x|] eqn:Hx; [|done].
  right. exists c. cbn [set_conns set_tasks tasks].
  destruct (q_conns s Hq c x Hx) as (_ & _ & [->|[-> Hin]]).
  - exists (AbortedRecv c ConnectWait). split; [by left|]. rewrite !elem_of_app. right. right. by apply list_elem_of_singleton.
  - exists (ExpiredRecv c ConnectWait). split; [by right|]. rewrite !elem_of_app. by left.
Qed.

Lemma waits_doomed : waits (λ s, quiet s ∧ doomed s).
Proof. split; [by intros s []|]. intros s Hq Hc. split; [done|by left]. Qed.

(** *** The handlers the io service runs *)

Definition io_completion (ev : Transport.event) : Prop :=
  match ev with
  | Datagram _ _ _ _ _ | Sent _ _ _ | SendTimer _ | RecvTimer _ | Waited _ => True
  | _ => False
  end.

Lemma delete_elem {A} n (l : list A) x t : l !! n = Some x → t ≠ x → t ∈ l → t ∈ delete n l.
Proof.
  revert l. induction n as [|n IH]; intros [|y l] H Hne Hin; try done.
  - injection H as ->. by apply elem_of_cons in Hin as [?|?].
  - apply elem_of_cons in Hin as [->|Hin]; [by apply elem_of_cons; left|apply elem_of_cons; right; by apply IH].
Qed.

Lemma quiet_event cfg ev s s' es : quiet s → io_completion ev → run_event cfg ev s = Ret (tt, s', es) →
  quiet s' ∧ (doomed s → doomed s').
Proof.
  intros Hq Hev H. pose proof Hq as [Hi Hn Hh Hc Ht]. unfold run_event in H. rewrite run_get in H.
  destruct ev as [i error m a p|n error tr|c|c|n|e cb|c d cb|c|cb|cb]; try done; clear Hev.
  - rewrite bool_decide_false in H by (by apply quiet_deaf). by injection H as <- <-.
  - destruct (tasks s !! n) as [[i|i c d cb|c|c w|c|c w]|] eqn:En; try (by injection H as <- <-).
    rewrite run_modify in H. apply list_elem_of_lookup_2 in En as Hin.
    destruct (Ht _ Hin) as [(i' & c' & [= -> -> -> ->])|(? & [?|?])]; [|done..].
    unfold handleSend in H. unfold Transport.ignore_sent in H. rewrite call_run in H. injection H as <- <-. split.
    + constructor; cbn [set_held set_tasks Transport.connections held conns tasks]; [|done|done| |].
      * pose proof (Inv_fewer_tasks s (delete n) Hi (delete_subseteq _ _)) as Hd. by destruct Hd; constructor.
      * intros c x Hx. destruct (Hc c x Hx) as (? & ? & [?|[? ?]]); [by auto|]. do 2 (split; [done|]). right.
        split; [done|]. by eapply delete_elem.
      * intros t Htk. apply Ht. eapply delete_subseteq; exact Htk.
    + intros [Hd|(c & t & Hwt & Hd)]; [by left|right]. exists c, t. split; [done|]. cbn [set_held set_tasks tasks].
      eapply delete_elem; [done| |done]. destruct Hwt as [->| ->]; done.
  - destruct (conns s !! c) as [x|] eqn:Hx; [|by injection H as <- <-].
    destruct (Hc c x Hx) as (_ & Hst & _). rewrite Hst in H. by injection H as <- <-.
  - destruct (conns s !! c) as [x|] eqn:Hx; [|by injection H as <- <-].
    destruct (Hc c x Hx) as (Hm & Hst & [Hw|[Hw _]]); rewrite Hw in H; [|by injection H as <- <-].
    pose proof (run_event_safe cfg (RecvTimer c) s Hi) as Hs. erewrite recv_timer_run in Hs by done. destruct Hs as [Hi' _].
    erewrite run_bind in H by (by apply update_conn_run). rewrite after_nil in H. injection H as <- <-.
    assert (ExpiredRecv c ConnectWait ∈ tasks s ++ [ExpiredRecv c ConnectWait]) as Hin
      by (apply elem_of_app; right; by apply list_elem_of_singleton).
    split; [|intros _; right; exists c, (ExpiredRecv c ConnectWait); by split; [right|]].
    constructor; cbn [set_tasks set_conns Transport.connections held conns tasks]; [done|done|done| |].
    + intros c' y. rewrite lookup_insert_Some. intros [[<- <-]|[_ Hy]]; [by auto|]. destruct (Hc c' y Hy) as (? & ? & Hor).
      rewrite elem_of_app. naive_solver.
    + intros t. rewrite elem_of_app, list_elem_of_singleton. intros [?| ->]; [by apply Ht|]. right. exists c. by right.
  - assert (Inv (set_tasks (delete n) s)) as Hi' by (apply Inv_fewer_tasks; [done|apply delete_subseteq]).
    destruct (tasks s !! n) as [t|] eqn:En; [|by injection H as <- <-]. apply list_elem_of_lookup_2 in En.
    destruct (Ht _ En) as [(? & ? & ->)|(c & [->| ->])]; [by injection H as <- <-|..]; exfalso; rewrite run_modify in H;
      rewrite recv_handler_outgoing in H by done; by destruct (conns _ !! c).
Qed.

Lemma quiet_io cfg ev s s' es : quiet s → io_completion ev → io_step cfg ev s = Ret (tt, s', es) →
  quiet s' ∧ (doomed s → doomed s').
Proof.
  intros Hq Hev ([] & s1 & e1 & e2 & H1 & H2 & _)%M_bind_Ret. destruct (quiet_event _ _ _ _ _ Hq Hev H1) as [Hq1 Hd1].
  split; [by eapply (collect_ind quiet); [apply quiet_destroy|..]|]. intros Hd.
  eapply (collect_ind (λ s, quiet s ∧ doomed s)) in H2; [by destruct H2| |by auto].
  intros s2 c [Hq2 Hd2] Hr. split; [by apply quiet_destroy|by apply doomed_destroy].
Qed.

(** A doomed transport has a handler posted, or posts it when the timer expires,
    that fails. *)
Lemma doomed_fails cfg s : quiet s → doomed s →
  ∃ s' n, (s' = s ∨ ∃ c, io_step cfg (RecvTimer c) s = Ret (tt, s', [])) ∧
    (io_step cfg (Waited n) s' = Throw bad_function_call ∨ io_step cfg (Waited n) s' = Undef use_after_free).
Proof.
  intros Hq Hd. assert (∀ s' c t, Transport.Inv s' → waited c t → t ∈ tasks s' → ∃ n,
    io_step cfg (Waited n) s' = Throw bad_function_call ∨ io_step cfg (Waited n) s' = Undef use_after_free) as Hfail.
  { intros s' c t Hi Hwt [n Hn]%list_elem_of_lookup. exists n. destruct Hwt as [->| ->].
    - right. by eapply connect_aborted_freed.
    - rewrite (connect_timeout_fails cfg s' n c) by done. destruct (conns s' !! c); auto. }
  destruct Hd as [Hd|(c & t & Hwt & Hin)]; [|destruct (Hfail s c t (q_inv s Hq) Hwt Hin) as [n Hn]; exists s, n; auto].
  apply map_choose in Hd as (c & x & Hx). destruct (q_conns s Hq c x Hx) as (_ & _ & [Hw|[_ Hin]]).
  - destruct (recv_timer_posts cfg s c x ConnectWait Hx Hw) as (s' & Hs' & Hin).
    pose proof (io_step_safe cfg (RecvTimer c) s (q_inv s Hq)) as Hsafe. rewrite Hs' in Hsafe. destruct Hsafe as [Hi' _].
    destruct (Hfail s' c _ Hi' (or_intror eq_refl) Hin) as [n Hn]. exists s', n. eauto.
  - destruct (Hfail s c _ (q_inv s Hq) (or_intror eq_refl) Hin) as [n Hn]. exists s, n. auto.
Qed.

End Net.

(** ** The whole daemon *)

Section Daemon.
Context {EC : ECDSA} {DG : Digest} {CI : Cipher} {DH : ECDHLib} {PB : OverlayProto} {NL : NetLib} {P : PTree} {LP : LPDProto}
  {SS : ServerObjects.StreamSocket}.
Variable cfg : ConfigManager.

(** The members of [Daemon] that handlers of the io service reach. *)
Record World := mkWorld {
  net : Transport.Socket;
  keys : Overlay.Socket;
  lpd4 : option UDPLPD;
  lpd6 : option UDPLPD;
  api : option Server;
}.
(** When [Daemon::run] comes to [io_service::run]. *)
Definition World_of (d : daemon) : World :=
  mkWorld (transport d) (overlay d) (fst <$> discovery_udpv4 d) (fst <$> discovery_udpv6 d)
    (match api_server d with Some _ => Some Server_new | None => None end).

(** [main]: it has no handler, so that an exception that leaves [Daemon::run],
    before or in the main loop, terminates. *)
Definition in_main {A} (r : outcome A) : outcome A := match r with Throw _ => Terminate | _ => r end.
Definition main (env : environment) (o : os) (now rng : Z) : outcome daemon := in_main (Daemon_run cfg env o now rng).
Lemma main_Ret env o now rng d : main env o now rng = Ret d ↔ Daemon_run cfg env o now rng = Ret d.
Proof. unfold main. by destruct (Daemon_run cfg env o now rng). Qed.

Inductive label :=
| Net (ev : Transport.event)
| Heard (v6 : bool) (data : bytes) (a : address)
| Renewed (now rng : Z)
| Api (e : completion).

(** The handler of a multicast announcement, with the connections it releases. *)
Definition heard (l : UDPLPD) (data : bytes) (a : address) : M Transport.Socket Transport.effect UDPLPD :=
  l' ← lpd_datagram l data a; collect;; mret l'.

Definition run_label (e : label) (w : World) : outcome (World * list Transport.effect) :=
  match e with
  | Net ev => '(_, s, es) ← io_step cfg ev (net w); Ret (mkWorld s (keys w) (lpd4 w) (lpd6 w) (api w), es)
  | Heard v6 data a =>
      match if v6 then lpd6 w else lpd4 w with
      | None => Ret (w, [])
      | Some l =>
          '(l', s, es) ← heard l data a (net w);
          Ret (if v6 then mkWorld s (keys w) (lpd4 w) (Some l') (api w) else mkWorld s (keys w) (Some l') (lpd6 w) (api w), es)
      end
  | Renewed now rng =>
      '(_, o, _) ← Overlay.run_op cfg (λ _, false, OpRenewKeys now rng) (keys w);
      Ret (mkWorld (net w) o (lpd4 w) (lpd6 w) (api w), [])
  | Api e =>
      match api w with
      | None => Ret (w, [])
      | Some s => s' ← run_handler e s; Ret (mkWorld (net w) (keys w) (lpd4 w) (lpd6 w) (Some s'), [])
      end
  end.

(** What can be waiting in the io service; accepts are taken to succeed. *)
Definition ready (e : label) (w : World) : Prop :=
  match e with
  | Net ev => io_completion ev
  | Api e => accepted e ∧ ∀ s, api w = Some s → enabled e s
  | _ => True
  end.

Inductive step : World → label * list Transport.effect → World → Prop :=
| run_one w e w' es : ready e w → run_label e w = Ret (w', es) → step w (e, es) w'.

(** *** The invariant *)

(** The key provider always has a current key. *)
Definition keyed (o : Overlay.Socket) : Prop := kp_wf (key_provider o) ∧ history (key_provider o) ≠ [].

Record running (w : World) : Prop := {
  run_net : quiet (net w);
  run_conns : Overlay.connections (keys w) = ∅ ∧ Overlay.heap (keys w) = ∅;
  run_keys : keyed (keys w);
  run_api : ∀ s, api w = Some s → served s;
}.

Lemma keyed_renew (o : Overlay.Socket) now rng u o' es : keyed o →
  Overlay.run_op cfg (λ _, false, OpRenewKeys now rng) o = Ret (u, o', es) →
  keyed o' ∧ Overlay.connections o' = Overlay.connections o ∧ Overlay.heap o' = Overlay.heap o.
Proof.
  intros [Hwf Hne] H. cbn [Overlay.run_op snd] in H. rewrite run_get in H.
  destruct (renewKeys_spec (key_provider o) now rng Hwf) as (k & Hk & Hh & _ & _ & _ & _ & Hwf').
  rewrite Hk, run_lift in H. injection H as <- <- <-. split; [|done]. split; [done|]. cbn [key_provider fst]. rewrite Hh.
  destruct Hwf as [Hm _]. destruct (Z.to_nat (max_history_size (key_provider o))) eqn:E; [lia|]. done.
Qed.

(** A provider that was constructed has room for a key. *)
Lemma keyed_new now rng o : Overlay.Socket_new cfg now rng = Ret o →
  keyed o ∧ Overlay.connections o = ∅ ∧ Overlay.heap o = ∅.
Proof.
  intros H. unfold Overlay.Socket_new, KeyProvider_new in H.
  apply bind_Ret in H as ([k es] & Hk & H). apply bind_Ret in H as (m & _ & [= <-]). split; [|done].
  apply bind_Ret in Hk as (hs & _ & Hk). apply bind_Ret in Hk as (ri & _ & Hk). unfold keyed. cbn [key_provider fst].
  set (max := (Z.of_N hs +32 1)%word) in *. destruct (decide (max = 0)%Z) as [E|E].
  - rewrite renewKeys_overflow in Hk by done. done.
  - assert (1 ≤ max)%Z as Hm by (unfold max, u32 in *; pose proof (Z.mod_pos_bound (Z.of_N hs + 1) (2 ^ 32)); lia).
    assert (kp_wf (mkKeyProvider [] max (Z.of_N ri) (Z.of_N ri *32 max)%word None)) as Hwf
      by (repeat split; simpl; [done|lia|constructor]).
    destruct (renewKeys_spec _ now rng Hwf) as (k' & Hk' & Hh & _ & _ & _ & _ & Hwf'). rewrite Hk in Hk'. injection Hk' as <- _.
    split; [done|]. rewrite Hh. cbn [max_history_size]. by destruct (Z.to_nat max) eqn:E'; [lia|].
Qed.

Lemma running_start env o now rng d s0 :
  start_transport cfg o = Ret s0 → getInterface s0 udp_prefix = Some 0%Z → Daemon_run cfg env o now rng = Ret d →
  running (World_of d).
Proof.
  intros Hs0 Hudp H.
  assert (quiet s0) as Hq0.
  { unfold start_transport in Hs0. inv_ret. destruct r0 as [x|].
    - rewrite registerInterface_run in Hs0. injection Hs0 as <-. apply quiet_start.
    - injection Hs0 as <-. done. }
  unfold Daemon_run in H. rewrite Hs0 in H. cbn [mbind outcome_bind] in H. apply bind_Ret in H as (ov & Hov & H).
  apply bind_Ret in H as (name & _ & H). apply bind_Ret in H as ([s1 es1] & Hboot & H).
  apply bind_Ret in H as (v4 & _ & H). apply bind_Ret in H as (d4 & _ & H).
  apply bind_Ret in H as (v6 & _ & H). apply bind_Ret in H as (d6 & _ & H). apply bind_Ret in H as (ap & _ & [= <-]).
  destruct (keyed_new now rng ov Hov) as (Hk & Hc & Hh).
  constructor; cbn [World_of net keys api transport overlay api_server fst]; try done.
  - case_decide; [by injection Hboot as <- <-|]. apply bind_Ret in Hboot as ([[[] s2] es2] & Hb & [= <- <-]).
    by eapply (waits_bootstrap quiet); [apply waits_quiet|..].
  - destruct ap; [|done]. intros sv [= <-]. apply served_new.
Qed.

Lemma heard_waits Q l data a : waits Q → (∀ s c, Q s → ¬ referenced s c → Q (destroy s c)) → preserves Q (heard l data a).
Proof.
  intros HQ Hd. apply preserves_bind; [by apply waits_lpd|]. intros l'.
  apply preserves_bind; [|intros; apply preserves_ret]. intros s [] s' es Hs H. by eapply (collect_ind Q).
Qed.
Lemma running_step w e es w' : running w → step w (e, es) w' → running w' ∧ (doomed (net w) → doomed (net w')).
Proof.
  intros [Hq [Hc Hh] Hk Ha] Hst. inversion Hst as [w0 e0 w1 es0 Hr H]; subst. destruct e as [ev|v6 data a|now rng|e]; cbn [run_label] in H.
  - apply bind_Ret in H as ([[[] s] es1] & H1 & [= <- <-]). destruct (quiet_io _ _ _ _ _ Hq Hr H1) as [Hq' Hd].
    split; [by constructor|exact Hd].
  - destruct (if v6 then lpd6 w else lpd4 w) as [l|] eqn:Hl; [|by injection H as <- <-].
    apply bind_Ret in H as ([[l' s] es1] & H1 & H).
    assert (quiet s) as Hq' by (eapply (heard_waits quiet); [apply waits_quiet|apply quiet_destroy|exact Hq|exact H1]).
    assert (doomed (net w) → doomed s) as Hd.
    { intros Hd. eapply (heard_waits (λ s, quiet s ∧ doomed s)) in H1; [by destruct H1|apply waits_doomed| |by split].
      intros s2 c [Hq2 Hd2] Hr2. split; [by apply quiet_destroy|by apply doomed_destroy]. }
    destruct v6; injection H as <- _; (split; [by constructor|exact Hd]).
  - apply bind_Ret in H as ([[u o] es1] & H1 & [= <- _]). destruct (keyed_renew _ _ _ _ _ _ Hk H1) as (Hk' & Hc' & Hh').
    split; [|done]. constructor; cbn [net keys api]; try done. split; congruence.
  - destruct (api w) as [s|] eqn:Es; [|injection H as <- _; split; [by constructor; rewrite ?Es|done]].
    apply bind_Ret in H as (s' & H1 & [= <- _]). split; [|done]. constructor; cbn [net keys api]; try done.
    intros s2 [= <-]. destruct Hr as [Hacc Hen]. eapply served_step; [by apply Ha|exact Hacc|]. constructor; [by apply Hen|done].
Qed.
Lemma running_star w ls w' : running w → star step w ls w' → running w' ∧ (doomed (net w) → doomed (net w')).
Proof.
  intros Hw Hst. revert Hw. induction Hst as [|w1 w2 w3 [e es] ls Hs _ IH]; intros Hw; [done|].
  destruct (running_step _ _ _ _ Hw Hs) as [Hw2 Hd]. destruct (IH Hw2) as [? Hd2]. split; [done|auto].
Qed.

(** An announcement whose pending buffer parses is answered with one connect
    request, which nothing can answer. *)
Lemma heard_connects s l data a b p v : quiet s → pending l = Some b → parse_discovery (take (length data) b) = Some (p, v) →
  ∃ l' s' es, heard l data a s = Ret (l', s', es) ∧ SendTo 0 a (u16 p) UDP_CONNECT_MSG ∈ es ∧ quiet s' ∧ doomed s'.
Proof.
  intros Hq Hb Hp. set (e := SocketEndpoint_of (UDPInterfaceEndpoint_of a (u16 p))). destruct (inv_udp s (q_inv s Hq)) as (ix & Hix & _).
  assert (∃ s1, connect e handshake_callback s = Ret (tt, s1,
    [RecvTimerArmed (Transport.next_id s) (inactivity_timeout ix) ConnectWait; SendTo 0 a (u16 p) UDP_CONNECT_MSG])) as [s1 H1].
  { rewrite (connect_run s e (UDPInterfaceEndpoint_of a (u16 p)) _ (q_inv s Hq) eq_refl). erewrite connect_result by done. by eexists. }
  assert (handshake e s = Ret (tt, s1, [RecvTimerArmed (Transport.next_id s) (inactivity_timeout ix) ConnectWait; SendTo 0 a (u16 p) UDP_CONNECT_MSG])) as H2.
  { unfold handshake. cbn [e SocketEndpoint_of SocketEndpoint_copy interface_endpoint]. rewrite run_lift, run_get.
    cbn [interface_endpoint]. unfold getConnection. rewrite (q_none s Hq), lookup_empty. exact H1. }
  destruct (quiet_connect s e _ _ _ _ Hq eq_refl H1) as [Hq1 Hc1].
  assert (heard l data a s = Ret (lpd_receive (arrive l data),
    foldl destroy s1 (filter (λ c, ¬ referenced s1 c) ((map_to_list (conns s1)).*1)),
    [RecvTimerArmed (Transport.next_id s) (inactivity_timeout ix) ConnectWait; SendTo 0 a (u16 p) UDP_CONNECT_MSG])) as Hh.
  { unfold heard, lpd_datagram. rewrite Hb. unfold processReceived. rewrite Hp. fold e.
    rewrite run_assoc. erewrite run_bind by exact H2. rewrite run_ret.
    erewrite run_bind by apply collect_run. rewrite after_nil. done. }
  eexists _, _, _. split; [exact Hh|]. split; [set_solver|].
  apply (collect_ind (λ s, quiet s ∧ doomed s) s1 _ []); [|by split; [|left]|done].
  intros s2 c [Hq2 Hd2] Hr2. split; [by apply quiet_destroy|by apply doomed_destroy].
Qed.
End Daemon.

(** ** Properties *)

(** C21 The whole daemon: once it has started with a UDP interface, then in
    whatever order announcements, completions, timers, key renewals and API
    events arrive, no transport or overlay connection is ever established and no
    datagram changes anything; yet a current key exists at every moment and the
    sessions of the API keep one outstanding receive each. *)
Theorem daemon_stays_isolated {EC : ECDSA} {DG : Digest} {CI : Cipher} {DH : ECDHLib} {PB : OverlayProto} {NL : NetLib}
    {P : PTree} {LP : LPDProto} {SS : ServerObjects.StreamSocket} (cfg : ConfigManager) (env : environment) (o : os)
    (now rng : Z) (s0 : Transport.Socket) (d : daemon) (ls : list (label * list Transport.effect)) (w : World)
    (Hs0 : start_transport cfg o = Ret s0) (Hudp : getInterface s0 udp_prefix = Some 0%Z)
    (Hrun : Daemon_run cfg env o now rng = Ret d) (H : star (step cfg) (World_of d) ls w) :
  Transport.connections (net w) = ∅ ∧ held (net w) = ∅ ∧ Overlay.connections (keys w) = ∅ ∧ Overlay.heap (keys w) = ∅ ∧
  (∀ i error m a p, run_event cfg (Datagram i error m a p) (net w) = Ret (tt, net w, [])) ∧
  (∃ ki, getKeyInfo (key_provider (keys w)) 0 = Ret (Some ki) ∧ key_ok ki) ∧
  (∀ s, api w = Some s → NoDup (receives s) ∧ ∀ sid, sid ∈ receives s ↔ is_Some (sessions (data s) !! sid)).
Proof.
  destruct (running_star cfg _ _ _ (running_start cfg _ _ _ _ _ _ Hs0 Hudp Hrun) H) as [[Hq [Hc Hh] [Hwf Hne] Ha] _].
  split; [by apply q_none|]. split; [by apply q_held|]. split; [done|]. split; [done|]. split; [|split].
  - intros. by apply deaf_datagram, quiet_deaf.
  - destruct Hwf as (_ & _ & Hok). destruct (history (key_provider (keys w))) as [|ki h] eqn:E; [done|].
    apply Forall_cons in Hok as [Hki _]. by eapply getKeyInfo_front.
  - intros s Hs. destruct (Ha s Hs) as [_ _ _ _ _ Hnd Hr]. split; [done|]. intros sid. by rewrite Hr, elem_of_dom.
Qed.

Lemma toy_udp b : ∃ s0, start_transport (NL:=ToyNet.toy_NetLib) toy_config (toy_os_with b) = Ret s0 ∧ getInterface s0 udp_prefix = Some 0%Z.
Proof.
  assert (match start_transport (NL:=ToyNet.toy_NetLib) toy_config (toy_os_with b) with
    | Ret s => bool_decide (getInterface s udp_prefix = Some 0%Z) | _ => false end = true) as Hb by (vm_compute; reflexivity).
  destruct (start_transport _ _) as [s0| | | |]; [|discriminate..]. exists s0. split; [done|]. by apply bool_decide_eq_true in Hb.
Qed.

Section Witnesses.
#[local] Existing Instances Toy.toy_ECDSA Toy.toy_Digest ToyDH.toy_ECDH ToyNet.toy_NetLib ToyLPD.toy_LPD LifecycleDemo.linux.

Lemma daemon_stays_isolated_witness :
  ∃ d : daemon, Daemon_run toy_config toy_env (toy_os_with []) 5 7 = Ret d ∧ Transport.connections (net (World_of d)) = ∅.
Proof.
  destruct (toy_daemon []) as (d & _ & _ & Hd & _). destruct (toy_udp []) as (s0 & Hs0 & Hu). exists d. split; [exact Hd|].
  exact (proj1 (daemon_stays_isolated toy_config toy_env (toy_os_with []) 5 7 s0 d [] (World_of d) Hs0 Hu Hd (star_nil _ _))).
Defined.
End Witnesses.

(** C38 A discovered peer ends the daemon: an announcement that parses makes the
    running daemon send one connect request; and from the moment such a
    connection exists, however the daemon goes on, a handler is posted in its
    io service, at the latest when the inactivity timer expires, that throws,
    which [main] does not catch, or uses the freed connection. *)
Theorem discovered_peer_fatal {EC : ECDSA} {DG : Digest} {CI : Cipher} {DH : ECDHLib} {PB : OverlayProto} {NL : NetLib}
    {P : PTree} {LP : LPDProto} {SS : ServerObjects.StreamSocket} (cfg : ConfigManager) (env : environment) (o : os)
    (now rng : Z) (s0 : Transport.Socket) (d : daemon) (ls : list (label * list Transport.effect)) (w : World)
    (Hs0 : start_transport cfg o = Ret s0) (Hudp : getInterface s0 udp_prefix = Some 0%Z)
    (Hrun : main cfg env o now rng = Ret d) (H : star (step cfg) (World_of d) ls w) :
  (∀ (v6 : bool) data a l b p v, (if v6 then lpd6 w else lpd4 w) = Some l → pending l = Some b →
     parse_discovery (take (length data) b) = Some (p, v) →
     ∃ es w', step cfg w (Heard v6 data a, es) w' ∧ SendTo 0 a (u16 p) UDP_CONNECT_MSG ∈ es ∧ doomed (net w')) ∧
  (∀ ls' w', doomed (net w) → star (step cfg) w ls' w' →
     ∃ w'' n, (w'' = w' ∨ ∃ c, step cfg w' (Net (RecvTimer c), []) w'') ∧
       (in_main (run_label cfg (Net (Waited n)) w'') = Terminate ∨
        run_label cfg (Net (Waited n)) w'' = Undef use_after_free)).
Proof.
  apply main_Ret in Hrun. destruct (running_star cfg _ _ _ (running_start cfg _ _ _ _ _ _ Hs0 Hudp Hrun) H) as [Hw _]. split.
  - intros v6 data a l b p v Hl Hb Hp.
    destruct (heard_connects (net w) l data a b p v (run_net _ Hw) Hb Hp) as (l' & s' & es & Hh & Hin & _ & Hd).
    eexists es, _. split; [constructor; [done|]|split; [exact Hin|]].
    + cbn [run_label]. rewrite Hl, Hh. reflexivity.
    + by destruct v6.
  - intros ls' w' Hd Hst. destruct (running_star cfg _ _ _ Hw Hst) as [Hw' Hd'].
    destruct (doomed_fails cfg (net w') (run_net _ Hw') (Hd' Hd)) as (s' & n & Hs & Hf).
    exists (mkWorld s' (keys w') (lpd4 w') (lpd6 w') (api w')), n. split.
    + destruct Hs as [->|[c Hs]]; [left; by destruct w'|]. right. exists c. constructor; [done|]. cbn [run_label]. by rewrite Hs.
    + cbn [run_label net]. destruct Hf as [->| ->]; auto.
Qed.

Section FatalWitness.
#[local] Existing Instances Toy.toy_ECDSA Toy.toy_Digest ToyDH.toy_ECDH ToyNet.toy_NetLib ToyLPD.toy_LPD LifecycleDemo.linux.

(** An announcement of port 99 in the buffer, heard again. *)
Definition announcement : bytes := serialize_discovery (LPDProto:=ToyLPD.toy_LPD) 99 1.

Lemma discovered_peer_fatal_witness :
  ∃ (d : daemon) es w', Daemon_run toy_config toy_env (toy_os_with announcement) 5 7 = Ret d ∧
    step toy_config (World_of d) (Heard true announcement 7%N, es) w' ∧ SendTo 0 7%N 99 UDP_CONNECT_MSG ∈ es ∧ doomed (net w').
Proof.
  destruct (toy_daemon announcement) as (d & l & m & Hd & Hl & Hp). destruct (toy_udp announcement) as (s0 & Hs0 & Hu).
  destruct (proj1 (discovered_peer_fatal toy_config toy_env (toy_os_with announcement) 5 7 s0 d [] (World_of d) Hs0 Hu (proj2 (main_Ret _ _ _ _ _ _) Hd) (star_nil _ _))
    true announcement 7%N l announcement 99%Z (Some 1%Z)) as (es & w' & H1 & H2 & H3).
  - cbn [World_of lpd6]. rewrite Hl. reflexivity.
  - exact Hp.
  - vm_compute. reflexivity.
  - exists d, es, w'. split; [exact Hd|]. split; [exact H1|]. split; [exact H2|exact H3].
Defined.
End FatalWitness.
